(* ===== verification/_CoqProject ===== *)
-Q . S2P
Prelude.v
GoLib.v
Raft.v
RaftProps.v
RaftApply.v
RaftData.v
RaftPersist.v
RaftConfig.v
RaftCluster.v
Idempotent.v
Storage.v
StorageProps.v
TimeWheel.v
Transaction.v
Namespace.v
Tracing.v
TxCoordinator.v
OffsetStore.v
NameServer.v
Rebalance.v
NameServerProps.v
Wire.v
AuditLog.v
Config.v
Broker.v
BrokerRaft.v
BrokerProps.v
BrokerHttp.v
BrokerLog.v
Clients.v
ClientsProps.v
