(* ===== verification/Prelude.v ===== *)
(** * DistributedMQ: a verification development

    DistributedMQ is a message queue written in Go.  Producers and consumers
    talk to brokers over a small binary protocol; brokers replicate what they
    accept through Raft, keep it in commit logs and serve it from there; a
    name server knows the brokers, places topics on them, routes requests and
    divides the partitions of a topic among the members of consumer groups.
    This library models the Go code under [src/cluster/go] and
    [src/samples/go-*] by definitions that can be evaluated, and proves
    theorems about them.  Paths below are relative to [src/].

    ** The parts and their files

    - [Prelude]: record update, results, tactics, lemmas on lists, maps and
      majorities, the hint database [mq].  [GoLib]: what the code uses of Go
      and its standard library: integers of fixed width, time, big-endian
      bytes, [strconv], [fmt], [sort], [encoding/gob] streams, and the monad
      [prog], whose computations return, block for ever or panic.
    - [Raft]: [cluster/go/raft/raft.go], one definition per function, with the
      mutex explicit, goroutines as pending tasks and the two files of a node.
      [RaftProps]: one node.  [RaftApply]: what is delivered while the node
      goes on between the sends.  [RaftData]: nodes that never see a membership
      change.  [RaftPersist]: restarts, snapshots, commit channels.
      [RaftConfig]: membership changes, in-sync replicas.  [RaftCluster]: nodes
      that exchange messages, lose them, and restart, as a step relation.
    - [Storage], [StorageProps]: [broker/storage/bridge_go.go], the commit
      log on a file system with names and inodes, and the sparse index.
      [TimeWheel]: [broker/storage/timewheel.go], with the arrays that slices
      share.
    - [Idempotent], [Transaction], [Namespace], [Tracing], [AuditLog], [Config]:
      the packages of these names under [cluster/go] ([AuditLog] is
      [audit/logger.go]); [Config] also has [main] of [cluster/go/main.go].
    - [NameServer], [Rebalance], [NameServerProps]: [nameserver/nameserver.go];
      [TxCoordinator]: [nameserver/tc.go]; [OffsetStore]:
      [nameserver/offset_store.go].
    - [Wire]: the frames of requests and responses, on both sides.
    - [Broker]: [broker/broker.go] over the interface [Replication], a class
      with the two operations the broker calls of Raft; its laws are
      [ReplicationLaws].  [BrokerRaft]: the Raft node is an instance.
      [BrokerProps]: theorems for every instance.  [BrokerHttp]: the HTTP
      handlers and base64.  [BrokerLog]: the broker refines a function from
      partition names to lists of messages.
    - [Clients], [ClientsProps]: the three programs under [samples].

    ** What the theorems show

    - Replication: at most one node leads in a term, in every execution of a
      cluster with losses and restarts in which no membership change is
      requested or received and the state files are written; what a follower's
      log is after [AppendEntries]; a leader commits exactly what a majority of
      the configuration has, and during a change a majority of both
      configurations; a run that applies committed entries, whatever the node
      does between its sends, delivers each once, and in log order when no
      other run overlaps it; a membership change goes through the joint to the
      new configuration; no commit channel is closed twice; restarts recover
      term and vote.
    - The broker: batching applies the same entries as applying them one by
      one; after any list of committed entries that leaves each partition's log
      in its first mebibyte and with file operations that succeed, [Consume]
      returns exactly the messages of the partition and [Fetch] a bounded
      prefix of them, through index, files and offsets; producing submits a
      message once; retries are neither lost nor repeated.  Composed with the
      wire format and Raft: a connection full of produce requests to a leader
      with peers ends up in its log in order, each answered when its entry is
      committed where the producer asks for that; and, under the conditions of
      the refinement, a consumer on an open connection receives what was
      committed, in order and once.
    - The name server: in every state it can reach, the partitions of each
      group are divided evenly among its members; topics are placed on live
      brokers; keys are routed to an existing partition; dead members are
      evicted; offsets are read back as they were committed.
    - The rest: frames are read back as written; sequence numbers of a
      producer strictly increase; transactions are committed at most once and
      survive restarts of the coordinator; the first matching rule decides
      access; audit records are not lost, and delayed messages are not unless
      one is added to the bucket a tick is reading; entries appended in batches
      are written as if one by one; the sample producer counts every message,
      unless a send never returns.
    - Where the code does not do what it means to, a theorem shows what it
      does: a fresh cluster of several nodes elects nobody; applying under the
      lock blocks a node for ever, on a follower that learns of a commit and
      on a leader without peers; a short log is always sent as a snapshot,
      which blocks; a failed submission is answered with success when it is
      tried again; acknowledgements and delayed messages are looked up under a
      name that does not exist; clean-up looks in a directory that does not
      exist; a consumer that starts at offset 0 misses the first message;
      offsets past the first mebibyte are misread; runs that apply entries
      reorder the delivery when they overlap; a leader that steps down answers
      waiting producers with success; two membership changes that both pass the
      check overwrite each other; a delayed message added while a tick reads
      its bucket overwrites others.

    ** Choices and bounds

    Integers are unbounded [Z] with the wrap-around written out where the code
    computes at a fixed width.  What the code does not control is an argument:
    clocks, the outcome of file and network operations, the iteration order of
    maps (a permutation of the entries), decoded JSON and the replies of other
    services; theorems quantify over it.  The database [bbolt] is a class with
    its documented laws and an instance that satisfies them.  Loops of the code
    that are not structural take fuel: [Raft.commitLoop] the length of the log,
    which bounds the indexes it visits; [Raft.applyNext] one more than the
    distance between the commit index and the last applied entry; the
    producer's loop one more than the number of messages (proved to be enough);
    [Wire.readRequests] the number of bytes, because every request consumes at
    least one (proved to be enough).  A connection is the list of its bytes.
    Goroutines are steps of a relation ([RaftCluster]) or one round per event
    ([Broker.handleApply_step], [AuditLog.run], [TimeWheel.tick]).  A section
    under a lock is one step.  What releases the lock of the node and goes on is
    split there: the requests to peers are tasks whose replies are handled by
    operations of their own; [Raft.applyCommittedEntries] stops at every send,
    and [Raft.applySend] sends and goes on; [AddNode] and [RemoveNode] are a
    check ([AddNode_check], [RemoveNode_check]) and [Raft.changeConfig], also
    composed.  [TimeWheel.tick] takes as an argument what other goroutines add
    at the points where it holds no lock, and [Broker.handleTCPProduce] what
    the node does while the handler waits for a commit.
    The refinement theorems of [BrokerLog] and [ClientsProps] suppose that file
    operations succeed and that a partition's log stays in its first segment,
    because reads past it are wrong ([StorageProps.rolled_segment_misread]).

    ** Not modelled

    Opening sockets, starting goroutines and tickers, sleeping and printing;
    the text of [GetTraceSummary]; [GenerateConfigExample], which writes a fixed
    file; the gRPC codec of [raft/json_codec.go] and the generated protobuf
    code; reading configuration files (the library viper); the encoding of JSON.
    The C storage library ([storage/c]), the Java clients ([java], [sdk/java]),
    the Python audit service ([services/audit-api]), tests, scripts and
    deployment files are outside the Go system. *)

From Stdlib Require Import ZArith Lia.
From stdpp Require Import base tactics list gmap strings.

(** ** Functional record update

    The Go code assigns one field of a struct at a time.  A record type
    declares its eta expansion once ([Eta]); [r <| f := v |>] and
    [r <| f ::= g |>] then read like the assignment. *)

Class Eta (R : Type) := eta : R → R.

Class Update {R F : Type} (proj : R → F) := update : (F → F) → R → R.

Arguments update {R F} proj {_} _ _ / : assert.

Ltac derive_update :=
  match goal with
  | |- @Update ?R ?F ?proj =>
      let inst := constr:(_ : Eta R) in
      let inst := eval hnf in inst in
      let abs := eval pattern proj in inst in
      lazymatch abs with
      | (fun _ => ?c) _ => fail "no such field"
      | ?body _ =>
          let t := eval cbv beta in (fun (f : F → F) (r : R) => body (fun x => f (proj x)) r) in
          exact t
      end
  end.

#[export] Hint Extern 1 (Update _) => derive_update : typeclass_instances.

Declare Scope go_scope.
Delimit Scope go_scope with go.
Open Scope go_scope.

#[warnings="-postfix-notation-not-level-1"]
Notation "r <| f ::= g |>" := (update f g r)
  (at level 12, f at next level, left associativity, format "r  <| f  ::=  g |>") : go_scope.
#[warnings="-postfix-notation-not-level-1"]
Notation "r <| f := v |>" := (update f (λ _, v) r)
  (at level 12, f at next level, left associativity, format "r  <| f  :=  v |>") : go_scope.

(** ** Results

    A Go function of type [(T, error)] returns [Ok x] or [Err msg], where
    [msg] is the text given to [fmt.Errorf]. *)

Inductive result (A : Type) : Type :=
| Ok (a : A)
| Err (msg : string).

Arguments Ok {A} _ : assert.
Arguments Err {A} _ : assert.

#[export] Instance result_eq_dec `{EqDecision A} : EqDecision (result A).
Proof. solve_decision. Defined.

Definition is_ok {A} (r : result A) : bool :=
  match r with Ok _ => true | Err _ => false end.

(** ** Tactics *)

(** Case analysis on the scrutinee of every [match]/[if] of the goal or of
    the hypotheses, remembering the equation. *)
Ltac split_match :=
  repeat match goal with
  | |- context [match ?x with _ => _ end] => destruct x eqn:?; simplify_eq/=
  | H : context [match ?x with _ => _ end] |- _ => destruct x eqn:?; simplify_eq/=
  end.

(** Turn the boolean tests that the executable definitions use into
    propositions [lia] understands. *)
Ltac bool_to_prop :=
  repeat match goal with
  | H : (_ && _)%bool = true |- _ => apply andb_true_iff in H as [??]
  | H : (_ || _)%bool = false |- _ => apply orb_false_iff in H as [??]
  | H : negb _ = true |- _ => apply negb_true_iff in H
  | H : negb _ = false |- _ => apply negb_false_iff in H
  | H : context [(_ >? _)%Z] |- _ => rewrite Z.gtb_ltb in H
  | H : context [(_ >=? _)%Z] |- _ => rewrite Z.geb_leb in H
  | H : (_ <? _)%Z = true |- _ => apply Z.ltb_lt in H
  | H : (_ <? _)%Z = false |- _ => apply Z.ltb_ge in H
  | H : (_ <=? _)%Z = true |- _ => apply Z.leb_le in H
  | H : (_ <=? _)%Z = false |- _ => apply Z.leb_gt in H
  | H : (_ =? _)%Z = true |- _ => apply Z.eqb_eq in H
  | H : (_ =? _)%Z = false |- _ => apply Z.eqb_neq in H
  | H : bool_decide _ = true |- _ => apply bool_decide_eq_true_1 in H
  | H : bool_decide _ = false |- _ => apply bool_decide_eq_false_1 in H
  end.

(** ** Generic list lemmas *)

Section lists.
Context {A B : Type}.
Implicit Types l : list A.

Lemma take_app_exact l1 l2 n : n = length l1 → take n (l1 ++ l2) = l1.
Proof. intros ->. by rewrite take_app_length. Qed.

Lemma drop_app_exact l1 l2 n : n = length l1 → drop n (l1 ++ l2) = l2.
Proof. intros ->. by rewrite drop_app_length. Qed.

Lemma sum_list_with_ext (f g : A → nat) l :
  (∀ x, x ∈ l → f x = g x) → sum_list_with f l = sum_list_with g l.
Proof.
  induction l as [|x l IH]; intros Hfg; [done|]. simpl.
  rewrite Hfg by constructor. rewrite IH; [done|].
  intros y Hy. apply Hfg. by constructor.
Qed.

Lemma foldl_inv (P : B → Prop) (f : B → A → B) l b :
  (∀ b a, P b → P (f b a)) → P b → P (foldl f b l).
Proof. intros Hf. revert b. induction l; simpl; eauto. Qed.

Lemma NoDup_snoc l x : NoDup l → x ∉ l → NoDup (l ++ [x]).
Proof.
  intros Hl Hx. apply NoDup_app. split_and!; [done| |by apply NoDup_singleton].
  intros y Hy ->%list_elem_of_singleton. done.
Qed.

(** Two lists cut at the first occurrence of a separator. *)
Lemma app_sep_inj (sep : A) l1 l2 r1 r2 :
  l1 ++ sep :: r1 = l2 ++ sep :: r2 → sep ∉ l1 → sep ∉ l2 → l1 = l2 ∧ r1 = r2.
Proof.
  revert l2. induction l1 as [|x l1 IH]; intros [|y l2] H H1 H2; simplify_eq/=; try done.
  - contradict H2. constructor.
  - contradict H1. constructor.
  - destruct (IH l2) as [-> ->]; auto; intros ?; [apply H1|apply H2]; by constructor.
Qed.

Lemma length_filter_le (P : A → Prop) `{∀ x, Decision (P x)} l :
  (length (filter P l) ≤ length l)%nat.
Proof. induction l as [|x l IH]; simpl; [done|]. rewrite filter_cons. case_decide; simpl; lia. Qed.

Lemma filter_all (P : A → Prop) `{∀ x, Decision (P x)} l : (∀ x, x ∈ l → P x) → filter P l = l.
Proof.
  induction l as [|x l IH]; intros Hl; [done|]. rewrite filter_cons, decide_True by (apply Hl; constructor).
  f_equal. apply IH. intros. apply Hl. by constructor.
Qed.

Lemma filter_none (P : A → Prop) `{∀ x, Decision (P x)} l : (∀ x, x ∈ l → ¬ P x) → filter P l = [].
Proof.
  induction l as [|x l IH]; intros Hl; [done|]. rewrite filter_cons, decide_False by (apply Hl; constructor).
  apply IH. intros. apply Hl. by constructor.
Qed.

Lemma NoDup_fst_inj (l : list (A * B)) a b1 b2 : NoDup l.*1 → (a, b1) ∈ l → (a, b2) ∈ l → b1 = b2.
Proof.
  induction l as [|[a' b'] l IH]; simpl; [by intros _ ?%not_elem_of_nil|].
  intros [Ha Hnd]%NoDup_cons H1 H2.
  assert (∀ b, (a', b) ∉ l) as Hno
    by (intros b Hin; apply Ha, list_elem_of_fmap; by exists (a', b)).
  apply elem_of_cons in H1 as [H1|H1], H2 as [H2|H2]; simplify_eq; eauto; [by destruct (Hno b2)|by destruct (Hno b1)].
Qed.

(** A list of pairs with distinct keys is determined by its order of keys. *)
Lemma perm_fst_eq (l1 l2 : list (A * B)) : l1 ≡ₚ l2 → NoDup l2.*1 → l1.*1 = l2.*1 → l1 = l2.
Proof.
  intros Hp Hnd Hfst. apply list_eq. intros i.
  pose proof (f_equal (λ l, l !! i) Hfst) as Hi. simpl in Hi. rewrite !list_lookup_fmap in Hi.
  destruct (l1 !! i) as [[a1 b1]|] eqn:E1, (l2 !! i) as [[a2 b2]|] eqn:E2; simplify_eq/=; try done.
  apply list_elem_of_lookup_2 in E1, E2. rewrite Hp in E1. by rewrite (NoDup_fst_inj l2 a2 b1 b2).
Qed.

Lemma NoDup_fst_filter (P : A * B → Prop) `{∀ x, Decision (P x)} (l : list (A * B)) :
  NoDup l.*1 → NoDup (filter P l).*1.
Proof.
  induction l as [|[a b] l IH]; simpl; intros Hnd; [done|].
  apply NoDup_cons in Hnd as [Ha Hnd]. rewrite filter_cons. case_decide; simpl; [|auto].
  constructor; [|auto]. intros ([a' b'] & -> & [_ Hin]%list_elem_of_filter)%list_elem_of_fmap.
  apply Ha. apply list_elem_of_fmap. by exists (a', b').
Qed.
End lists.

(** A loop that deletes a list of keys. *)
Lemma foldl_delete_lookup `{Countable K} {A V} (key : A → K) (l : list A) (m : gmap K V) k :
  foldl (λ m x, delete (key x) m) m l !! k = if decide (k ∈ key <$> l) then None else m !! k.
Proof.
  revert m. induction l as [|x l IH]; intros m; [done|]. cbn [foldl]. rewrite IH, fmap_cons.
  destruct (decide (k ∈ key <$> l)); [by rewrite decide_True by set_solver|].
  destruct (decide (k = key x)) as [->|]; [by rewrite lookup_delete_eq, decide_True by set_solver|].
  by rewrite lookup_delete_ne, decide_False by set_solver.
Qed.

(** ** Majorities *)

(** Two subsets that each hold more than half of a finite set share a member. *)
Lemma majority_intersect `{Countable A} (V Q1 Q2 : gset A) :
  Q1 ⊆ V → Q2 ⊆ V → (size V < 2 * size Q1)%nat → (size V < 2 * size Q2)%nat →
  ∃ x, x ∈ Q1 ∧ x ∈ Q2.
Proof.
  intros H1 H2 Hs1 Hs2.
  destruct (decide (Q1 ∩ Q2 ≡ ∅)) as [He|Hne].
  - pose proof (size_union Q1 Q2 ltac:(set_solver)) as Hu.
    pose proof (subseteq_size (Q1 ∪ Q2) V ltac:(set_solver)). lia.
  - apply set_choose in Hne as [x Hx]. exists x. set_solver.
Qed.

Lemma size_list_to_set_NoDup `{Countable A} (l : list A) :
  NoDup l → size (list_to_set l : gset A) = length l.
Proof.
  induction 1 as [|x l Hx Hl IH]; [apply size_empty|]. simpl.
  rewrite size_union by set_solver. rewrite size_singleton, IH. done.
Qed.

(** The development's hint database: the side conditions that come up in
    every component. *)
Create HintDb mq.

#[export] Hint Resolve NoDup_snoc : mq.
#[export] Hint Resolve lookup_insert_eq : mq.
