(* ===== verification/GoLib.v ===== *)
(** * The parts of Go and of its standard library the program uses

    Machine integers, time, big-endian bytes, formatting, the iteration
    order of maps, [encoding/gob] streams, and a small program monad with
    mutexes and run-time panics. *)

From Stdlib Require Import ZArith Lia Strings.Byte.
From stdpp Require Import base tactics list gmap strings pretty fin_maps sorting.
From S2P Require Import Prelude.

Open Scope Z_scope.

(** ** Machine integers *)

Module Int.
(** [uintN(z)] and [intN(z)]: the value kept by a conversion to an N-bit
    unsigned or signed (two's complement) integer. *)
Definition uint (w z : Z) : Z := z mod 2 ^ w.
Definition sint (w z : Z) : Z := (z + 2 ^ (w - 1)) mod 2 ^ w - 2 ^ (w - 1).

Definition uint8 := uint 8.
Definition uint16 := uint 16.
Definition uint32 := uint 32.
Definition uint64 := uint 64.
Definition int8 := sint 8.
Definition int32 := sint 32.
Definition int64 := sint 64.

Definition in_uint (w z : Z) : Prop := 0 ≤ z < 2 ^ w.
Definition in_sint (w z : Z) : Prop := - 2 ^ (w - 1) ≤ z < 2 ^ (w - 1).

Lemma uint_small w z : in_uint w z → uint w z = z.
Proof. apply Z.mod_small. Qed.

Lemma uint64_small z : 0 ≤ z < 2 ^ 64 → uint64 z = z.
Proof. apply uint_small. Qed.

Lemma uint_range w z : 0 ≤ w → in_uint w (uint w z).
Proof. intros. apply Z.mod_pos_bound. by apply Z.pow_pos_nonneg. Qed.

Lemma pow_half w : 0 < w → 2 ^ w = 2 * 2 ^ (w - 1).
Proof. intros. rewrite <- Z.pow_succ_r by lia. f_equal; lia. Qed.

Lemma sint_small w z : 0 < w → in_sint w z → sint w z = z.
Proof.
  intros Hw [??]. unfold sint. pose proof (pow_half w Hw).
  rewrite Z.mod_small; lia.
Qed.

Lemma sint_range w z : 0 < w → in_sint w (sint w z).
Proof.
  intros Hw. unfold sint, in_sint. pose proof (pow_half w Hw) as Hp.
  assert (0 < 2 ^ (w - 1)) by (apply Z.pow_pos_nonneg; lia).
  pose proof (Z.mod_pos_bound (z + 2 ^ (w - 1)) (2 ^ w)). lia.
Qed.

Lemma int64_small z : - 2 ^ 63 ≤ z < 2 ^ 63 → int64 z = z.
Proof. by apply (sint_small 64). Qed.

Lemma int32_small z : - 2 ^ 31 ≤ z < 2 ^ 31 → int32 z = z.
Proof. by apply (sint_small 32). Qed.

(** Converting back and forth between the signed and the unsigned type of
    the same width is the identity. *)
Lemma sint_uint w z : 0 < w → in_sint w z → sint w (uint w z) = z.
Proof.
  intros Hw Hz. rewrite <- (sint_small w z Hw Hz) at 2.
  unfold sint, uint. by rewrite Zplus_mod_idemp_l.
Qed.
End Int.

Import Int.

(** ** Time

    A [time.Time] is the number of nanoseconds since the zero time
    (January 1 of year 1), so that [IsZero] is the test against 0.  Every
    operation that reads the clock takes the reading as an argument. *)

Module Time.
Definition IsZero (t : Z) : bool := t =? 0.
Definition Before (t u : Z) : bool := t <? u.
Definition After (t u : Z) : bool := u <? t.
(** [Sub] saturates at the bounds of a [time.Duration]. *)
Definition Sub (t u : Z) : Z := Z.max (- 2 ^ 63) (Z.min (2 ^ 63 - 1) (t - u)).
Definition Add (t d : Z) : Z := t + d.
Definition Milliseconds (d : Z) : Z := Z.quot d 1000000.
Definition Second : Z := 1000000000.
Definition Millisecond : Z := 1000000.
(** Nanoseconds from the zero time to the Unix epoch. *)
Definition unixEpoch : Z := 62135596800 * Second.
Definition UnixNano (t : Z) : Z := int64 (t - unixEpoch).
Definition Unix (t : Z) : Z := (t - unixEpoch) / Second.
End Time.

(** ** Bytes and big-endian integers *)

Module Bytes.
#[export] Instance byte_eq_dec : EqDecision byte := Byte.byte_eq_dec.

#[export] Instance byte_countable : Countable byte.
Proof. apply (inj_countable Byte.to_N Byte.of_N), Byte.of_to_N. Defined.

Definition to_Z (b : byte) : Z := Z.of_N (Byte.to_N b).

(** The conversion [byte(z)]. *)
Definition of_Z (z : Z) : byte :=
  match Byte.of_N (Z.to_N (z mod 256)) with Some b => b | None => x00 end.

Lemma to_Z_range b : 0 ≤ to_Z b < 256.
Proof. unfold to_Z. pose proof (Byte.to_N_bounded b). lia. Qed.

Lemma to_of_Z z : to_Z (of_Z z) = z mod 256.
Proof.
  unfold of_Z, to_Z. pose proof (Z.mod_pos_bound z 256 eq_refl) as Hr.
  destruct (Byte.of_N _) as [b|] eqn:E.
  - apply Byte.to_of_N in E. rewrite E. lia.
  - apply Byte.of_N_None_iff in E. lia.
Qed.

Lemma to_Z_inj a b : to_Z a = to_Z b → a = b.
Proof.
  unfold to_Z. intros H%N2Z.inj.
  pose proof (Byte.of_to_N a). pose proof (Byte.of_to_N b). congruence.
Qed.

Lemma of_to_Z b : of_Z (to_Z b) = b.
Proof. apply to_Z_inj. rewrite to_of_Z. apply Z.mod_small, to_Z_range. Qed.

(** The [n] bytes of [z], most significant first: what
    [binary.BigEndian.PutUint64] and the hand-written header loops
    [byte((z >> (56 - i*8)) & 0xFF)] store. *)
Fixpoint be (n : nat) (z : Z) : list byte :=
  match n with
  | O => []
  | S n' => of_Z (Z.shiftr z (8 * Z.of_nat n')) :: be n' z
  end.

(** [binary.BigEndian.Uint16/32/64]. *)
Definition unbe (bs : list byte) : Z :=
  fold_left (λ acc b, Z.lor (Z.shiftl acc 8) (to_Z b)) bs 0.

Lemma length_be n z : length (be n z) = n.
Proof. induction n; simpl; congruence. Qed.

Lemma lor_shiftl_add acc b : Z.lor (Z.shiftl acc 8) (to_Z b) = acc * 256 + to_Z b.
Proof.
  pose proof (to_Z_range b) as Hb.
  assert (Z.land (Z.shiftl acc 8) (to_Z b) = 0) as Hland.
  { apply Z.bits_inj'. intros i Hi. rewrite Z.land_spec, Z.bits_0.
    destruct (Z.lt_ge_cases i 8).
    - by rewrite Z.shiftl_spec_low.
    - rewrite (Z.bits_above_log2 (to_Z b)); [apply andb_false_r|lia|].
      destruct (Z.eq_dec (to_Z b) 0) as [E|]; [rewrite E; change (Z.log2 0) with 0; lia|].
      apply Z.log2_lt_pow2; [lia|].
      apply Z.lt_le_trans with (2 ^ 8); [change (2 ^ 8) with 256; lia|]. apply Z.pow_le_mono_r; lia. }
  pose proof (Z.add_lor_land (Z.shiftl acc 8) (to_Z b)) as H.
  rewrite Hland in H. rewrite (Z.shiftl_mul_pow2 acc 8) in H |- * by lia.
  change (2 ^ 8) with 256 in *. lia.
Qed.

Lemma unbe_acc bs acc :
  fold_left (λ acc b, Z.lor (Z.shiftl acc 8) (to_Z b)) bs acc =
  acc * 256 ^ Z.of_nat (length bs) + unbe bs.
Proof.
  unfold unbe. revert acc. induction bs as [|b bs IH]; intros acc; [simpl; lia|].
  simpl. rewrite IH, (IH (Z.lor _ _)), !lor_shiftl_add.
  replace (Z.of_nat (S (length bs))) with (Z.succ (Z.of_nat (length bs))) by lia.
  rewrite Z.pow_succ_r by lia. ring.
Qed.

Lemma unbe_cons b bs : unbe (b :: bs) = to_Z b * 256 ^ Z.of_nat (length bs) + unbe bs.
Proof.
  unfold unbe at 1. simpl. rewrite unbe_acc. f_equal.
Qed.

Lemma unbe_range bs : 0 ≤ unbe bs < 256 ^ Z.of_nat (length bs).
Proof.
  induction bs as [|b bs IH]; [vm_compute; split; congruence|].
  rewrite unbe_cons. simpl length. pose proof (to_Z_range b).
  replace (Z.of_nat (S (length bs))) with (Z.succ (Z.of_nat (length bs))) by lia.
  rewrite Z.pow_succ_r by lia. nia.
Qed.

Lemma unbe_be n z : unbe (be n z) = z mod 256 ^ Z.of_nat n.
Proof.
  induction n as [|n IH]; [simpl; by rewrite Z.mod_1_r|].
  simpl be. rewrite unbe_cons, IH, length_be, to_of_Z.
  replace (Z.of_nat (S n)) with (Z.succ (Z.of_nat n)) by lia.
  rewrite Z.pow_succ_r by lia.
  rewrite Z.shiftr_div_pow2, Z.pow_mul_r by lia. change (2 ^ 8) with 256.
  rewrite (Z.mul_comm 256), Z.rem_mul_r by (try apply Z.pow_nonzero; lia).
  lia.
Qed.

Lemma pow256_S n : 256 ^ Z.of_nat (S n) = 256 * 256 ^ Z.of_nat n.
Proof. rewrite Nat2Z.inj_succ, Z.pow_succ_r by lia. done. Qed.

Lemma be_high n z k : be n (z * 256 ^ Z.of_nat n + k) = be n k.
Proof.
  revert z. induction n as [|n IH]; intros z; [done|]. simpl be.
  rewrite pow256_S, (Z.mul_comm 256), Z.mul_assoc, Z.mul_shuffle0. f_equal; [|apply IH].
  apply to_Z_inj. rewrite !to_of_Z, !Z.shiftr_div_pow2, Z.pow_mul_r by lia.
  change (2 ^ 8) with 256.
  rewrite Z.div_add_l by (apply Z.pow_nonzero; lia).
  rewrite Z.add_comm, Z.mod_add; lia.
Qed.

Lemma be_unbe bs : be (length bs) (unbe bs) = bs.
Proof.
  induction bs as [|b bs IH]; [done|]. simpl length. simpl be.
  rewrite unbe_cons, be_high, IH. f_equal.
  apply to_Z_inj. rewrite to_of_Z, Z.shiftr_div_pow2, Z.pow_mul_r by lia.
  change (2 ^ 8) with 256. pose proof (unbe_range bs).
  rewrite Z.div_add_l by (apply Z.pow_nonzero; lia).
  rewrite (Z.div_small (unbe bs)) by done. rewrite Z.add_0_r.
  apply Z.mod_small, to_Z_range.
Qed.

(** Go strings are byte sequences. *)
Definition of_string (s : string) : list byte := String.list_byte_of_string s.
Definition to_string (bs : list byte) : string := String.string_of_list_byte bs.

Lemma to_of_string s : to_string (of_string s) = s.
Proof. apply String.string_of_list_byte_of_string. Qed.
Lemma of_string_app s t : of_string (s +:+ t) = of_string s ++ of_string t.
Proof.
  unfold of_string, String.list_byte_of_string. induction s; simpl; [done|]. by f_equal.
Qed.
Lemma of_string_inj s t : of_string s = of_string t → s = t.
Proof. intros H. by rewrite <- (to_of_string s), H, to_of_string. Qed.
Lemma of_to_string bs : of_string (to_string bs) = bs.
Proof. apply String.list_byte_of_string_of_list_byte. Qed.
End Bytes.

#[export] Existing Instance Bytes.byte_eq_dec.
#[export] Existing Instance Bytes.byte_countable.

(** ** Formatting and sorting *)

Module Fmt.
(** [%d]: decimal, with a leading minus sign for negative numbers. *)
Definition d (z : Z) : string := pretty z.

Lemma d_inj z1 z2 : d z1 = d z2 → z1 = z2.
Proof. apply pretty_Z_inj. Qed.
End Fmt.

Module Sort.
(** Go compares strings byte by byte; so does [String.leb]. *)
Definition string_le (s t : string) : Prop := String.leb s t = true.
#[export] Instance string_le_dec : RelDecision string_le :=
  λ s t, bool_eq_dec (String.leb s t) true.

Definition Strings : list string → list string := merge_sort string_le.
Definition Ints : list Z → list Z := merge_sort Z.le.

Lemma Strings_perm l : Strings l ≡ₚ l.
Proof. apply merge_sort_Permutation. Qed.
Lemma Ints_perm l : Ints l ≡ₚ l.
Proof. apply merge_sort_Permutation. Qed.
Lemma Ints_sorted l : Sorted Z.le (Ints l).
Proof. apply Sorted_merge_sort, _. Qed.

#[export] Instance string_le_total : Total string_le.
Proof. intros s t. apply String.leb_total. Qed.
#[export] Instance string_le_antisymm : AntiSymm (=) string_le.
Proof. intros s t. apply String.leb_antisym. Qed.
#[export] Instance string_le_trans : Transitive string_le.
Proof.
  unfold string_le, String.leb. intros s t u. revert t u.
  induction s as [|c s IH]; intros [|c' t] [|c'' u]; simpl; try done.
  unfold Ascii.compare.
  destruct (N.compare_spec (Ascii.N_of_ascii c) (Ascii.N_of_ascii c')) as [E|?|?]; try done;
  destruct (N.compare_spec (Ascii.N_of_ascii c') (Ascii.N_of_ascii c'')) as [E'|?|?]; try done;
  destruct (N.compare_spec (Ascii.N_of_ascii c) (Ascii.N_of_ascii c'')); try done; try lia.
  apply IH.
Qed.

(** Sorting forgets the order in which a range loop met the keys. *)
Lemma Strings_canonical l1 l2 : l1 ≡ₚ l2 → Strings l1 = Strings l2.
Proof.
  intros Hp. apply (Sorted_unique string_le); [apply Sorted_merge_sort, _..|]. by rewrite !Strings_perm.
Qed.
Lemma Ints_canonical l1 l2 : l1 ≡ₚ l2 → Ints l1 = Ints l2.
Proof.
  intros Hp. apply (Sorted_unique Z.le); [apply Sorted_merge_sort, _..|]. by rewrite !Ints_perm.
Qed.
End Sort.

(** [strconv.Atoi] and [strconv.ParseInt(s, 10, 64)]: an optional sign,
    decimal digits, and a value that fits in 64 bits. *)
Module Strconv.
Definition digit (b : byte) : option Z :=
  let z := Bytes.to_Z b - 48 in if (0 <=? z) && (z <=? 9) then Some z else None.

Fixpoint digits (acc : Z) (bs : list byte) : option Z :=
  match bs with
  | [] => Some acc
  | b :: bs' => match digit b with Some d => digits (10 * acc + d) bs' | None => None end
  end.

(** An unsigned number: at least one digit. *)
Definition unsigned (bs : list byte) : option Z :=
  match bs with [] => None | _ => digits 0 bs end.

Definition in_range (z : Z) : option Z := if (- 2 ^ 63 <=? z) && (z <? 2 ^ 63) then Some z else None.

Definition Atoi (s : string) : option Z :=
  match Bytes.of_string s with
  | [] => None
  | b :: bs =>
      if decide (b = x2d) then n ← unsigned bs; in_range (- n)
      else if decide (b = x2b) then n ← unsigned bs; in_range n
      else n ← unsigned (b :: bs); in_range n
  end.

Definition ParseInt : string → option Z := Atoi.

Lemma digit_char x :
  (x < 10)%N →
  ∃ b, (∀ s, Bytes.of_string (String (pretty_N_char x) s) = b :: Bytes.of_string s) ∧
       digit b = Some (Z.of_N x) ∧ b ≠ x2d ∧ b ≠ x2b.
Proof.
  intros Hx. assert (x = 0 ∨ x = 1 ∨ x = 2 ∨ x = 3 ∨ x = 4 ∨ x = 5 ∨ x = 6 ∨ x = 7 ∨ x = 8 ∨ x = 9)%N
    as [->|[->|[->|[->|[->|[->|[->|[->|[->| ->]]]]]]]]] by lia;
  (eexists; split_and!; [intros; reflexivity|reflexivity|discriminate|discriminate]).
Qed.

(** Reading back the digits that [%d] prints. *)
Lemma digits_pretty x s : digits 0 (Bytes.of_string (pretty_N_go x s)) = digits (Z.of_N x) (Bytes.of_string s).
Proof.
  revert s. induction (N.lt_wf_0 x) as [x _ IH]; intros s.
  destruct (decide (x = 0)%N) as [->|Hx]; [done|].
  rewrite pretty_N_go_step by lia. rewrite IH by (apply N.div_lt; lia).
  destruct (digit_char (x `mod` 10)) as (b & -> & Hb & _); [apply N.mod_lt; lia|].
  simpl. rewrite Hb. f_equal. rewrite <- N2Z.inj_mul with (n := 10%N), <- N2Z.inj_add. f_equal.
  symmetry. by apply N.div_mod.
Qed.

Lemma head_pretty x s :
  (0 < x)%N → ∃ b bs, Bytes.of_string (pretty_N_go x s) = b :: bs ∧ b ≠ x2d ∧ b ≠ x2b.
Proof.
  revert s. induction (N.lt_wf_0 x) as [x _ IH]; intros s Hx. rewrite pretty_N_go_step by done.
  destruct (decide (x / 10 = 0)%N) as [->|Hd].
  - destruct (digit_char (x `mod` 10)) as (b & E & _ & ? & ?); [apply N.mod_lt; lia|].
    exists b, (Bytes.of_string s). rewrite pretty_N_go_0. auto.
  - apply IH; [by apply N.div_lt|by apply N.neq_0_lt_0].
Qed.

(** [%d] prints digits, after a minus sign perhaps. *)
Lemma bytes_pretty x s b :
  b ∈ Bytes.of_string (pretty_N_go x s) → is_Some (digit b) ∨ b ∈ Bytes.of_string s.
Proof.
  revert s. induction (N.lt_wf_0 x) as [x _ IH]; intros s.
  destruct (decide (x = 0)%N) as [->|Hx]; [by right|].
  rewrite pretty_N_go_step by lia. intros [?|Hb]%IH; [by left| |by apply N.div_lt; [lia|done]].
  destruct (digit_char (x `mod` 10)) as (c & Hc & Hd & _); [apply N.mod_lt; lia|].
  rewrite Hc in Hb. apply elem_of_cons in Hb as [->|?]; [left; rewrite Hd; eauto|by right].
Qed.

Lemma bytes_d z b : b ∈ Bytes.of_string (Fmt.d z) → is_Some (digit b) ∨ b = x2d.
Proof.
  assert (∀ p : positive, b ∈ Bytes.of_string (pretty p) → is_Some (digit b)) as Hp.
  { intros p. unfold pretty, pretty_positive, pretty, pretty_N. rewrite decide_False by done.
    intros [?|?%not_elem_of_nil]%bytes_pretty; done. }
  unfold Fmt.d. destruct z as [|p|p]; unfold pretty, pretty_Z.
  - change (Bytes.of_string "0") with [x30]. intros ->%list_elem_of_singleton. left. vm_compute. eauto.
  - intros H. left. by apply Hp in H.
  - rewrite Bytes.of_string_app. change (Bytes.of_string "-") with [x2d].
    intros [->|H]%elem_of_cons; [by right|]. left. by apply Hp in H.
Qed.

Lemma in_range_ok z : in_sint 64 z → in_range z = Some z.
Proof.
  intros [??]. unfold in_range. change (2 ^ (64 - 1)) with (2 ^ 63) in *.
  by rewrite (proj2 (Z.leb_le _ _)), (proj2 (Z.ltb_lt _ _)).
Qed.

Lemma in_range_Some z z' : in_range z = Some z' → z' = z ∧ in_sint 64 z.
Proof. unfold in_range. case_match; [|done]. bool_to_prop. intros [= <-]. split; [done|]. by split. Qed.

Lemma unsigned_pretty p :
  ∃ b bs, Bytes.of_string (pretty p) = b :: bs ∧ b ≠ x2d ∧ b ≠ x2b ∧ unsigned (b :: bs) = Some (Z.pos p).
Proof.
  destruct (head_pretty (Npos p) "") as (b & bs & E & H1 & H2); [done|].
  pose proof (digits_pretty (Npos p) "") as Hd. rewrite E in Hd. exists b, bs.
  unfold pretty, pretty_positive, pretty, pretty_N. by rewrite decide_False.
Qed.

Lemma Atoi_d z : in_sint 64 z → Atoi (Fmt.d z) = Some z.
Proof.
  intros Hz. unfold Atoi, Fmt.d. destruct z as [|p|p]; [done| |]; unfold pretty, pretty_Z.
  - destruct (unsigned_pretty p) as (b & bs & -> & ? & ? & Hu).
    rewrite !decide_False, Hu by done. by apply in_range_ok.
  - destruct (unsigned_pretty p) as (b & bs & E & _ & _ & Hu).
    rewrite Bytes.of_string_app, E. change (Bytes.of_string "-") with [x2d]. cbn [app].
    rewrite decide_True, Hu by done. by apply in_range_ok.
Qed.

Lemma Atoi_range s z : Atoi s = Some z → in_sint 64 z.
Proof.
  unfold Atoi. destruct (Bytes.of_string s) as [|b bs]; [done|].
  repeat case_decide; intros (n & _ & [-> ?]%in_range_Some)%bind_Some; done.
Qed.
End Strconv.

(** ** Maps: the order of a range loop

    A Go [for k, v := range m] visits every entry of [m] once, in an order
    the language leaves open.  A definition with such a loop takes the
    visited entries as a list, and the theorems ask for [iter_order]. *)

Section iteration.
Context `{Countable K} {V : Type}.
Implicit Types m : gmap K V.

Definition iter_order (m : gmap K V) (l : list (K * V)) : Prop := l ≡ₚ map_to_list m.

Lemma iter_order_self m : iter_order m (map_to_list m).
Proof. unfold iter_order; reflexivity. Qed.

Lemma iter_order_elem m l k v : iter_order m l → (k, v) ∈ l ↔ m !! k = Some v.
Proof. intros Hl. by rewrite Hl, elem_of_map_to_list. Qed.

Lemma iter_order_NoDup m l : iter_order m l → NoDup l.*1.
Proof. intros Hl. rewrite Hl. apply NoDup_fst_map_to_list. Qed.

Lemma iter_order_length m l : iter_order m l → length l = size m.
Proof. intros Hl. by rewrite Hl, length_map_to_list. Qed.

(** The loop that finds the entry with the least time stamp, written the
    same way in the idempotence, transaction and tracing packages:
    [if oldestTime.IsZero() || s.T.Before(oldestTime) { ... }]. *)
Fixpoint oldest_loop (stamp : V → Z) (l : list (K * V)) (oldest : K) (oldestTime : Z) : K :=
  match l with
  | [] => oldest
  | (id, s) :: l' =>
      if (Time.IsZero oldestTime || Time.Before (stamp s) oldestTime)%bool
      then oldest_loop stamp l' id (stamp s)
      else oldest_loop stamp l' oldest oldestTime
  end.

Lemma oldest_loop_cases stamp l o t :
  oldest_loop stamp l o t = o ∨ ∃ s, (oldest_loop stamp l o t, s) ∈ l.
Proof.
  revert o t. induction l as [|[id s] l IH]; intros o t; simpl; [by left|].
  destruct (_ || _)%bool.
  - destruct (IH id (stamp s)) as [->|[s' ?]]; right; eauto using list_elem_of_further, list_elem_of_here.
  - destruct (IH o t) as [->|[s' ?]]; [by left|right; eauto using list_elem_of_further].
Qed.

(** Started from the zero values, the loop returns a key of the map. *)
Lemma oldest_loop_in stamp l o :
  l ≠ [] → ∃ s, (oldest_loop stamp l o 0, s) ∈ l.
Proof.
  destruct l as [|[id s] l]; [done|]. intros _. simpl.
  destruct (oldest_loop_cases stamp l id (stamp s)) as [->|[s' ?]];
    eauto using list_elem_of_further, list_elem_of_here.
Qed.

Lemma oldest_loop_least_aux stamp l o t :
  t ≠ 0 → (∀ k s, (k, s) ∈ l → stamp s ≠ 0) → NoDup l.*1 → o ∉ l.*1 →
  (oldest_loop stamp l o t = o ∧ ∀ k s, (k, s) ∈ l → t ≤ stamp s) ∨
  (∃ s, (oldest_loop stamp l o t, s) ∈ l ∧ stamp s < t ∧
        ∀ k s', (k, s') ∈ l → stamp s ≤ stamp s').
Proof.
  revert o t. induction l as [|[id s] l IH]; intros o t Ht Hnz Hnd Ho; simpl.
  { left. split; [done|]. intros k s Hin. by apply not_elem_of_nil in Hin. }
  apply NoDup_cons in Hnd as [Hid Hnd]. simpl in Ho.
  assert (stamp s ≠ 0) as Hs by (eapply Hnz, list_elem_of_here).
  assert (∀ k s, (k, s) ∈ l → stamp s ≠ 0) as Hnz' by eauto using list_elem_of_further.
  unfold Time.IsZero, Time.Before.
  destruct (t =? 0) eqn:Et; bool_to_prop; [done|]. simpl.
  destruct (stamp s <? t) eqn:Es; bool_to_prop.
  - right. destruct (IH id (stamp s) Hs Hnz' Hnd Hid) as [[-> Hle]|(s' & Hin & Hlt & Hle)].
    + exists s. split_and!; [constructor|done|].
      intros k s' [[= -> ->]|?]%elem_of_cons; [done|eauto].
    + exists s'. split_and!; [by constructor|lia|].
      intros k s'' [[= -> ->]|?]%elem_of_cons; [lia|eauto].
  - assert (o ∉ l.*1) as Ho' by (intros ?; apply Ho; by constructor).
    destruct (IH o t Ht Hnz' Hnd Ho') as [[-> Hle]|(s' & Hin & Hlt & Hle)].
    + left. split; [done|]. intros k s' [[= -> ->]|?]%elem_of_cons; [done|eauto].
    + right. exists s'. split_and!; [by constructor|done|].
      intros k s'' [[= -> ->]|?]%elem_of_cons; [lia|eauto].
Qed.

(** ... and, when every stamp is a real clock reading, one with the least
    stamp. *)
Lemma oldest_loop_least stamp l o :
  l ≠ [] → NoDup l.*1 → (∀ k s, (k, s) ∈ l → stamp s ≠ 0) →
  ∃ s, (oldest_loop stamp l o 0, s) ∈ l ∧ ∀ k s', (k, s') ∈ l → stamp s ≤ stamp s'.
Proof.
  destruct l as [|[id s] l]; [done|]. intros _ Hnd Hnz. simpl.
  apply NoDup_cons in Hnd as [Hid Hnd].
  destruct (oldest_loop_least_aux stamp l id (stamp s)) as [[-> Hle]|(s' & Hin & Hlt & Hle)];
    eauto using list_elem_of_further, list_elem_of_here.
  - exists s. split; [constructor|]. intros k s' [[= -> ->]|?]%elem_of_cons; [done|eauto].
  - exists s'. split; [by constructor|].
    intros k s'' [[= -> ->]|?]%elem_of_cons; [lia|eauto].
Qed.
End iteration.

(** Making room in a table of at most [max] entries: when it is full, the
    entry with the least time stamp goes. *)
Section room.
Context {V : Type} (stamp : V → Z) (max : Z).

Definition make_room (order : list (string * V)) (m : gmap string V) : gmap string V :=
  if Z.of_nat (size m) >=? max then delete (oldest_loop stamp order "" 0) m else m.

Lemma make_room_lookup order m k v : make_room order m !! k = Some v → m !! k = Some v.
Proof. unfold make_room. case_match; [|done]. by intros [_ ?]%lookup_delete_Some. Qed.

Lemma make_room_size order m :
  0 < max → iter_order m order → Z.of_nat (size m) ≤ max → Z.of_nat (size (make_room order m)) < max.
Proof.
  intros Hmax Hord Hsz. unfold make_room. destruct (_ >=? _) eqn:E; bool_to_prop; [|lia].
  pose proof (iter_order_length _ _ Hord) as Hlen.
  destruct (oldest_loop_in stamp order "") as [s' Hin]; [intros ->; simpl in Hlen; lia|].
  apply (iter_order_elem _ _ _ _ Hord) in Hin. rewrite map_size_delete_Some by eauto. lia.
Qed.

(** Inserting after making room keeps the table within its capacity. *)
Lemma insert_room_size order m k v :
  0 < max → iter_order m order → Z.of_nat (size m) ≤ max →
  Z.of_nat (size (<[k := v]> (make_room order m))) ≤ max.
Proof.
  intros Hmax Hord Hsz. pose proof (make_room_size order m Hmax Hord Hsz).
  rewrite map_size_insert. case_match; simpl; lia.
Qed.

(** Only the oldest entry goes, and only from a full table. *)
Lemma make_room_gone order m k v :
  iter_order m order → (∀ k v, m !! k = Some v → stamp v ≠ 0) →
  m !! k = Some v → make_room order m !! k = None →
  max ≤ Z.of_nat (size m) ∧ ∀ k' v', m !! k' = Some v' → stamp v ≤ stamp v'.
Proof.
  intros Hord Hnz Hk. unfold make_room. destruct (_ >=? _) eqn:E; bool_to_prop; [|congruence].
  intros Hgone. split; [done|].
  destruct (oldest_loop_least stamp order "") as (s & Hin & Hle).
  - intros ->. apply (iter_order_elem _ _ _ _ Hord) in Hk. by apply not_elem_of_nil in Hk.
  - by eapply iter_order_NoDup.
  - intros k' s' Hin. apply (iter_order_elem _ _ _ _ Hord) in Hin. eauto.
  - apply (iter_order_elem _ _ _ _ Hord) in Hin.
    destruct (decide (oldest_loop stamp order "" 0 = k)) as [Heq|Hne].
    + rewrite Heq in Hin. simplify_eq. intros k' v' Hk'. apply (Hle k'). by apply (iter_order_elem _ _ _ _ Hord).
    + rewrite lookup_delete_ne in Hgone by done. congruence.
Qed.
End room.

(** ** [encoding/gob] streams

    An encoder sends the description of a type before the first value of
    that type, and the values after it.  A decoder that meets the
    description of a type it already knows stops with an error, which is
    what happens when the output of two encoders is concatenated. *)

Module Gob.
Section gob.
Context {A : Type}.

Inductive msg := TypeDef | Value (a : A).

(** The bytes one fresh encoder produces for the values [l]. *)
Definition encode_all (l : list A) : list msg :=
  match l with [] => [] | _ => TypeDef :: (Value <$> l) end.

(** The loop [for { if dec.Decode(&x) != nil { break }; ... }] of one
    fresh decoder; [known] says whether the type was described. *)
Fixpoint decode_all (known : bool) (s : list msg) : list A :=
  match s with
  | [] => []
  | TypeDef :: s' => if known then [] else decode_all true s'
  | Value a :: s' => if known then a :: decode_all known s' else []
  end.

Lemma decode_values l s :
  decode_all true ((Value <$> l) ++ s) = l ++ decode_all true s.
Proof. induction l as [|a l IH]; [done|]. cbn. f_equal. apply IH. Qed.

Lemma decode_encode l : decode_all false (encode_all l) = l.
Proof.
  destruct l as [|a l]; [done|]. simpl. f_equal.
  pose proof (decode_values l []) as H. by rewrite !app_nil_r in H.
Qed.

(** Concatenated streams: only the first one is read back. *)
Lemma decode_encode_app l1 l2 :
  l1 ≠ [] → decode_all false (encode_all l1 ++ encode_all l2) = l1.
Proof.
  destruct l1 as [|a l1]; [done|]. intros _. simpl. f_equal.
  rewrite decode_values. destruct l2; simpl; by rewrite app_nil_r.
Qed.
End gob.
Arguments msg : clear implicits.
End Gob.

(** ** Programs with mutexes

    A goroutine that runs alone on a state [S] either returns, or blocks
    for ever (it locks a mutex it already holds), or stops the process with
    a run-time panic. *)

Inductive outcome (S A : Type) : Type :=
| Ret (a : A) (s : S)
| Blocked (s : S)
| Panic (s : S).

Arguments Ret {S A} _ _ : assert.
Arguments Blocked {S A} _ : assert.
Arguments Panic {S A} _ : assert.

Definition prog (S A : Type) : Type := S → outcome S A.

#[export] Instance prog_ret S : MRet (prog S) := λ A a s, Ret a s.
#[export] Instance prog_bind S : MBind (prog S) := λ A B k m s,
  match m s with Ret a s' => k a s' | Blocked s' => Blocked s' | Panic s' => Panic s' end.

Section prog.
Context {S : Type}.

Definition get : prog S S := λ s, Ret s s.
Definition gets {A} (f : S → A) : prog S A := λ s, Ret (f s) s.
Definition modify (f : S → S) : prog S unit := λ s, Ret tt (f s).
Definition block {A} : prog S A := λ s, Blocked s.
Definition panic {A} : prog S A := λ s, Panic s.
Definition when (b : bool) (m : prog S unit) : prog S unit := if b then m else mret tt.
Definition of_option {A} (o : option A) : prog S A :=
  match o with Some a => mret a | None => panic end.

(** The state a computation leaves behind, whatever its outcome. *)
Definition final {A} (o : outcome S A) : S :=
  match o with Ret _ s | Blocked s | Panic s => s end.

(** Weakest precondition of a computation: [Q] when it returns, [B] when it
    blocks, [P] when it panics. *)
Definition wp {A} (m : prog S A) (Q : A → S → Prop) (B P : S → Prop) (s : S) : Prop :=
  match m s with Ret a s' => Q a s' | Blocked s' => B s' | Panic s' => P s' end.

Lemma wp_ret {A} (a : A) Q B P s : Q a s → wp (mret a) Q B P s.
Proof. done. Qed.

Lemma wp_get Q B P s : Q s s → wp get Q B P s.
Proof. done. Qed.
Lemma wp_gets {A} (f : S → A) Q B P s : Q (f s) s → wp (gets f) Q B P s.
Proof. done. Qed.

Lemma wp_modify f Q B P s : Q tt (f s) → wp (modify f) Q B P s.
Proof. done. Qed.

Lemma wp_bind {A C} (m : prog S A) (k : A → prog S C) Q B P s :
  wp m (λ a, wp (k a) Q B P) B P s → wp (m ≫= k) Q B P s.
Proof. unfold wp, mbind, prog_bind. by destruct (m s). Qed.

Lemma wp_if {A} (b : bool) (m1 m2 : prog S A) Q B P s :
  (b = true → wp m1 Q B P s) → (b = false → wp m2 Q B P s) → wp (if b then m1 else m2) Q B P s.
Proof. destruct b; eauto. Qed.

Lemma wp_when b (m : prog S unit) Q B P s :
  (b = true → wp m Q B P s) → (b = false → Q tt s) → wp (when b m) Q B P s.
Proof. intros Ht Hf. destruct b; [apply (Ht eq_refl)|apply (Hf eq_refl)]. Qed.

Lemma wp_of_option {A} (o : option A) Q B P s :
  (∀ a, o = Some a → Q a s) → (o = None → P s) → wp (of_option o) Q B P s.
Proof. intros Hs Hn. destruct o; [by apply Hs|by apply Hn]. Qed.

Lemma wp_mono {A} (m : prog S A) (Q Q' : A → S → Prop) (B B' P P' : S → Prop) s :
  wp m Q B P s → (∀ a s', Q a s' → Q' a s') → (∀ s', B s' → B' s') → (∀ s', P s' → P' s') →
  wp m Q' B' P' s.
Proof. unfold wp. destruct (m s); eauto. Qed.

(** From a weakest precondition back to the outcome. *)
Lemma wp_returns {A} (m : prog S A) Q s :
  wp m Q (λ _, False) (λ _, False) s → ∃ a s', m s = Ret a s' ∧ Q a s'.
Proof. unfold wp. destruct (m s); naive_solver. Qed.

Lemma wp_blocks {A} (m : prog S A) B s :
  wp m (λ _ _, False) B (λ _, False) s → ∃ s', m s = Blocked s' ∧ B s'.
Proof. unfold wp. destruct (m s); naive_solver. Qed.

(** A preorder between the state before and the state left behind, on
    every outcome. *)
Definition follows {A} (R : relation S) (m : prog S A) : Prop :=
  ∀ s, R s (final (m s)).

Section follows.
Context (R : relation S) `{!PreOrder R}.

Lemma follows_ret {A} (a : A) : follows R (mret a).
Proof. intros s. simpl. reflexivity. Qed.
Lemma follows_gets {A} (f : S → A) : follows R (gets f).
Proof. intros s. simpl. reflexivity. Qed.
Lemma follows_get : follows R get.
Proof. intros s. simpl. reflexivity. Qed.
Lemma follows_block {A} : follows R (block (A:=A)).
Proof. intros s. simpl. reflexivity. Qed.
Lemma follows_panic {A} : follows R (panic (A:=A)).
Proof. intros s. simpl. reflexivity. Qed.
Lemma follows_modify f : (∀ s, R s (f s)) → follows R (modify f).
Proof. intros H s. apply H. Qed.
Lemma follows_bind {A C} (m : prog S A) (k : A → prog S C) :
  follows R m → (∀ a, follows R (k a)) → follows R (m ≫= k).
Proof.
  intros Hm Hk s. unfold mbind, prog_bind. specialize (Hm s).
  destruct (m s) as [a s'| |]; simpl in *; [|done..]. etrans; [exact Hm|apply Hk].
Qed.
Lemma follows_if {A} (b : bool) (m1 m2 : prog S A) :
  follows R m1 → follows R m2 → follows R (if b then m1 else m2).
Proof. by destruct b. Qed.
Lemma follows_when b m : follows R m → follows R (when b m).
Proof. destruct b; [done|]. intros _. apply follows_ret. Qed.
Lemma follows_wp {A} (m : prog S A) :
  (∀ s, wp m (λ _, R s) (R s) (R s) s) → follows R m.
Proof. intros Hm s. specialize (Hm s). unfold wp in Hm. by destruct (m s). Qed.
Lemma follows_of_option {A} (o : option A) : follows R (of_option o).
Proof. destruct o; [apply follows_ret|apply follows_panic]. Qed.
End follows.
End prog.

(** Takes a program apart; what is left are the state changes. *)
Ltac follow :=
  repeat (intros; lazymatch goal with
  | |- follows _ (_ ≫= _) => apply follows_bind; [typeclasses eauto|..]
  | |- follows _ (if _ then _ else _) => apply follows_if
  | |- follows _ (when _ _) => apply follows_when; [typeclasses eauto|..]
  | |- follows _ (mret _) => apply follows_ret; typeclasses eauto
  | |- follows _ (gets _) => apply follows_gets; typeclasses eauto
  | |- follows _ (of_option _) => apply follows_of_option; typeclasses eauto
  | |- follows _ (modify _) => apply follows_modify
  | |- follows _ (match ?x with _ => _ end) => destruct x
  end); try solve [eauto with mq].

#[export] Hint Resolve follows_ret follows_gets follows_get follows_block follows_panic
  follows_bind follows_if follows_when follows_of_option : mq.
