(* ===== verification/Raft.v ===== *)
(** * The Raft node

    Models [cluster/go/raft/raft.go] (with the message types of
    [raft.proto]): the data of a node, every function that reads or changes
    it, its files, and its goroutines.  A function that takes the node's
    mutex is a program of the monad [prog World] with explicit [Lock] and
    [Unlock]; helpers that run with the lock held are functions on [World].
    A [go f(...)] adds a pending task to [tasks]; the programs that a task
    runs are the definitions named after the function or closure it runs.
    A goroutine that releases the lock in the middle is split there: at its
    remote call, and, when it applies entries, at each send on [applyCh].

    Durations are not modelled: a timer is armed or not, and an armed timer
    may fire at any moment. *)

From Stdlib Require Import ZArith Lia Strings.Byte.
From stdpp Require Import base tactics list gmap strings fin_maps.
From S2P Require Import Prelude GoLib.

Open Scope Z_scope.

Module Raft.

Import Int.

(** ** Data *)

Inductive NodeState := Follower | Candidate | Leader.
Inductive ConfigState := ConfigStable | ConfigJoint.
Inductive EntryType := EntryType_DATA | EntryType_CONF_CHANGE | EntryType_JOINT_CONSENSUS.

#[export] Instance NodeState_eq_dec : EqDecision NodeState.
Proof. solve_decision. Defined.
#[export] Instance ConfigState_eq_dec : EqDecision ConfigState.
Proof. solve_decision. Defined.
#[export] Instance EntryType_eq_dec : EqDecision EntryType.
Proof. solve_decision. Defined.

Record ConfigEntry := mkConfigEntry { OldPeers : list string; NewPeers : list string }.

Record LogEntry := mkLogEntry {
  Term : Z;
  Index : Z;
  Type_ : EntryType;
  Topic : string;
  Partition : Z;
  Data : list byte;
  Config : option ConfigEntry;
}.

Record RequestVoteArgs := mkRequestVoteArgs {
  va_Term : Z; va_CandidateId : string; va_LastLogIndex : Z; va_LastLogTerm : Z }.
Record RequestVoteReply := mkRequestVoteReply { vr_Term : Z; vr_VoteGranted : bool }.
Record AppendEntriesArgs := mkAppendEntriesArgs {
  aa_Term : Z; aa_LeaderId : string; aa_PrevLogIndex : Z; aa_PrevLogTerm : Z;
  aa_Entries : list LogEntry; aa_LeaderCommit : Z }.
Record AppendEntriesReply := mkAppendEntriesReply {
  ar_Term : Z; ar_Success : bool; ar_ConflictIndex : Z; ar_LastLogIndex : Z }.
Record InstallSnapshotArgs := mkInstallSnapshotArgs {
  sa_Term : Z; sa_LeaderId : string; sa_LastIncludedIndex : Z; sa_LastIncludedTerm : Z;
  sa_Data : list (Gob.msg LogEntry) }.
Record InstallSnapshotReply := mkInstallSnapshotReply { sr_Term : Z; sr_Success : bool }.

Record Peer := mkPeer { addr : string; learner : bool }.

(** The struct [RaftNode]: [mu] is the mutex, timers are armed or not, and
    a channel of [pendingCommit] is named by a number.  [newConfig] is
    [None] when the Go map is nil. *)
Record RaftNode := mkRaftNode {
  mu : bool;
  state : NodeState;
  currentTerm : Z;
  votedFor : string;
  log : list LogEntry;
  commitIndex : Z;
  lastApplied : Z;
  nextIndex : gmap string Z;
  matchIndex : gmap string Z;
  peers : gmap string Peer;
  selfAddr : string;
  electionTimer : bool;
  heartbeatTimer : bool;
  applyCh : bool;
  dataDir : string;
  pendingCommit : gmap Z Z;
  isr : gmap string bool;
  isrTicker : bool;
  maxLag : Z;
  currentConfig : gmap string bool;
  newConfig : option (gmap string bool);
  configState : ConfigState;
  persistedIndex : Z;
}.

#[export] Instance eta_RaftNode : Eta RaftNode := λ r,
  mkRaftNode (mu r) (state r) (currentTerm r) (votedFor r) (log r) (commitIndex r)
    (lastApplied r) (nextIndex r) (matchIndex r) (peers r) (selfAddr r) (electionTimer r)
    (heartbeatTimer r) (applyCh r) (dataDir r) (pendingCommit r) (isr r) (isrTicker r)
    (maxLag r) (currentConfig r) (newConfig r) (configState r) (persistedIndex r).

(** What [raft_state.dat] holds. *)
Record PersistentState := mkPersistentState {
  ps_CurrentTerm : Z; ps_VotedFor : string; ps_CommitIndex : Z; ps_LastApplied : Z;
  ps_LogLength : Z; ps_ConfigState : ConfigState; ps_CurrentConfig : gmap string bool;
  ps_NewConfig : option (gmap string bool); ps_PersistedIndex : Z }.

(** The two files of the data directory. *)
Record Disk := mkDisk {
  stateFile : option PersistentState;
  logFile : list (Gob.msg LogEntry);
}.

(** Which file operations fail.  [logWrite = Some k]: only the first [k]
    messages of the buffer reach the log file. *)
Record Faults := mkFaults {
  writeFails : bool; renameFails : bool; openFails : bool; logWrite : option nat }.

Definition no_faults : Faults := mkFaults false false false None.

(** The variables that the goroutines of one election share. *)
Record Election := mkElection {
  el_votes : Z; el_oldConfigVotes : Z; el_newConfigVotes : Z;
  el_configState : ConfigState; el_oldConfigCount : Z; el_newConfigCount : Z;
  el_nonLearnerPeers : Z;
  el_wg : Z }.

(** Pending goroutines.  A goroutine that performs a remote call is split at
    the call: before it ([TVote], ...), and with its reply ([TVoteReply], ...). *)
Inductive Task :=
| TVote (el : Z) (p : string) (term : Z) (args : RequestVoteArgs)
| TVoteReply (el : Z) (p : string) (term : Z) (reply : RequestVoteReply)
| TVoteWait (el : Z) (term : Z)
| TSendAppend (p : string)
| TAppend (p : string) (args : AppendEntriesArgs)
| TAppendReply (p : string) (prevLogIndex n : Z) (reply : AppendEntriesReply)
| TSendSnapshot (p : string)
| TSnapshot (p : string) (args : InstallSnapshotArgs)
| TSnapshotReply (p : string) (lastIndex : Z) (reply : InstallSnapshotReply)
| TApply
| TApplySend (entry : LogEntry)
| TAppendStable.

(** A process: the node, its disk, the channels it closed, the entries it
    sent on [applyCh], and its goroutines. *)
Record World := mkWorld {
  node : RaftNode;
  disk : Disk;
  faults : Faults;
  closed : list Z;
  nextChan : Z;
  applied : list LogEntry;
  tasks : list Task;
  elections : gmap Z Election;
  nextElection : Z;
}.

#[export] Instance eta_World : Eta World := λ w,
  mkWorld (node w) (disk w) (faults w) (closed w) (nextChan w) (applied w) (tasks w)
    (elections w) (nextElection w).
#[export] Instance eta_Disk : Eta Disk := λ d, mkDisk (stateFile d) (logFile d).
#[export] Instance eta_Election : Eta Election := λ e,
  mkElection (el_votes e) (el_oldConfigVotes e) (el_newConfigVotes e) (el_configState e)
    (el_oldConfigCount e) (el_newConfigCount e) (el_nonLearnerPeers e) (el_wg e).

(** ** Small helpers *)

Definition len {A} (l : list A) : Z := Z.of_nat (length l).

(** [l[i]] for an unsigned index: [None] is the index-out-of-range panic. *)
Definition at_ {A} (l : list A) (i : Z) : option A :=
  if (0 <=? i) && (i <? len l) then l !! Z.to_nat i else None.

(** [m[k]] on a [map[string]bool] and on a [map[string]uint64]. *)
Definition getb (m : gmap string bool) (k : string) : bool := default false (m !! k).
Definition getu (m : gmap string Z) (k : string) : Z := default 0 (m !! k).
Definition getb_nil (m : option (gmap string bool)) (k : string) : bool :=
  match m with Some m => getb m k | None => false end.
Definition msize {A} (m : gmap string A) : Z := Z.of_nat (size m).
Definition msize_nil {A} (m : option (gmap string A)) : Z :=
  match m with Some m => msize m | None => 0 end.

(** [for k := range ks { m[k] = v }]. *)
Definition put_all {A} (ks : list string) (v : A) (m : gmap string A) : gmap string A :=
  foldr (λ k, insert k v) m ks.

Definition keys {A} (m : gmap string A) : list string := (map_to_list m).*1.

Definition upd (f : RaftNode → RaftNode) (w : World) : World := w <| node ::= f |>.

Definition go (t : Task) (w : World) : World := w <| tasks ::= λ ts, ts ++ [t] |>.

(** The goroutine at position [i] runs. *)
Definition take_task (i : nat) (w : World) : World :=
  w <| tasks ::= λ ts, take i ts ++ drop (S i) ts |>.

(** [close(ch)]. *)
Definition close_chan (ch : Z) (w : World) : World := w <| closed ::= cons ch |>.

(** [make(chan struct{})]. *)
Definition makeChan : prog World Z := λ w, Ret (nextChan w) (w <| nextChan ::= Z.succ |>).

Definition Lock : prog World unit := λ w,
  if mu (node w) then Blocked w else Ret tt (upd (λ r, r <| mu := true |>) w).
(** Unlocking an unlocked mutex is a fatal error. *)
Definition Unlock : prog World unit := λ w,
  if mu (node w) then Ret tt (upd (λ r, r <| mu := false |>) w) else Panic w.
Definition RLock : prog World unit := λ w, if mu (node w) then Blocked w else Ret tt w.
Definition RUnlock : prog World unit := mret tt.

Definition resetElectionTimer : World → World := upd (λ r, r <| electionTimer := true |>).
Definition resetHeartbeatTimer : World → World := upd (λ r, r <| heartbeatTimer := true |>).

(** ** Persistence *)

(** A persisted index of [2^63] or more becomes a negative [int]: the loop
    indexes the log with it, which stops the process with nothing written. *)
Definition appendLogEntries (w : World) : World :=
  let r := node w in
  if bool_decide (dataDir r = "") then w
  else if openFails (faults w) then w
  else
    let startIdx := int64 (int64 (persistedIndex r) + 1) in
    if startIdx <? 0 then w
    else
      let buf := Gob.encode_all (drop (Z.to_nat startIdx) (log r)) in
      let written := match logWrite (faults w) with None => buf | Some k => take k buf end in
      upd (λ r, r <| persistedIndex := uint64 (len (log r) - 1) |>)
        (w <| disk ::= λ d, d <| logFile ::= λ f, f ++ written |> |>).

Definition saveState (w : World) : World :=
  let r := node w in
  if bool_decide (dataDir r = "") then w
  else
    let st := mkPersistentState (currentTerm r) (votedFor r) (commitIndex r) (lastApplied r)
                (len (log r)) (configState r) (currentConfig r) (newConfig r)
                (persistedIndex r) in
    if writeFails (faults w) then w
    else if renameFails (faults w) then w
    else appendLogEntries (w <| disk ::= λ d, d <| stateFile := Some st |> |>).

Definition loadLogEntries (expectedLength : Z) (w : World) : World :=
  let r := node w in
  if bool_decide (dataDir r = "") then w
  else match logFile (disk w) with
  | [] => w
  | data => upd (λ r, r <| log ::= λ l, take 1 l ++ Gob.decode_all false data |>) w
  end.

Definition loadState (w : World) : World :=
  let r := node w in
  if bool_decide (dataDir r = "") then w
  else match stateFile (disk w) with
  | None => w
  | Some st =>
      loadLogEntries (ps_LogLength st)
        (upd (λ r, r <| currentTerm := ps_CurrentTerm st |>
                     <| votedFor := ps_VotedFor st |>
                     <| commitIndex := ps_CommitIndex st |>
                     <| lastApplied := ps_LastApplied st |>
                     <| configState := ps_ConfigState st |>
                     <| currentConfig := ps_CurrentConfig st |>
                     <| newConfig := ps_NewConfig st |>
                     <| persistedIndex := ps_PersistedIndex st |>) w)
  end.

(** The first entry of every log. *)
Definition sentinel : LogEntry := mkLogEntry 0 0 EntryType_DATA "" 0 [] None.

(** A process that starts on the disk [d] ([NewRaftNode], [Start]). *)
Definition NewRaftNode (selfAddr : string) (peers : list string) (applyCh : bool)
    (dataDir : string) (d : Disk) (fl : Faults) : World :=
  let others := filter (λ a, a ≠ selfAddr) peers in
  let r := {|
    mu := false; state := Follower; currentTerm := 0; votedFor := ""; log := [sentinel];
    commitIndex := 0; lastApplied := 0; nextIndex := ∅; matchIndex := ∅;
    peers := foldr (λ a, insert a (mkPeer a false)) ∅ others;
    selfAddr := selfAddr; electionTimer := false; heartbeatTimer := false;
    applyCh := applyCh; dataDir := dataDir; pendingCommit := ∅;
    isr := put_all others true ∅; isrTicker := false; maxLag := 10000;
    currentConfig := put_all others true {[ selfAddr := true ]};
    newConfig := None; configState := ConfigStable; persistedIndex := 0 |} in
  resetHeartbeatTimer (resetElectionTimer (loadState
    (mkWorld r d fl [] 0 [] [] ∅ 0))).

(** ** Roles *)

Definition sendHeartbeats (w : World) : World :=
  resetHeartbeatTimer (foldl (λ w p, go (TSendAppend p) w) w (keys (peers (node w)))).

(** [for n, ch := range r.pendingCommit { close(ch); delete(...) }] *)
Definition clearPending (w : World) : World :=
  upd (λ r, r <| pendingCommit := ∅ |>)
    (foldl (λ w ch, close_chan ch w) w (map_to_list (pendingCommit (node w))).*2).

Definition startISRTicker : World → World := upd (λ r, r <| isrTicker := true |>).

Definition becomeLeader (w : World) : World :=
  let ks := keys (peers (node w)) in
  startISRTicker (resetHeartbeatTimer (sendHeartbeats (clearPending
    (upd (λ r, r <| state := Leader |>
                 <| nextIndex ::= put_all ks (len (log r)) |>
                 <| matchIndex ::= put_all ks 0 |>
                 <| isr ::= put_all ks true |>) w)))).

Definition becomeFollower (term : Z) (w : World) : World :=
  saveState (resetElectionTimer (clearPending
    (upd (λ r, r <| state := Follower |> <| currentTerm := term |> <| votedFor := "" |>) w))).

Definition nonLearner (r : RaftNode) : list string :=
  (filter (λ '(_, p), learner p = false) (map_to_list (peers r))).*1.

Definition startElection : prog World unit :=
  modify (λ w, resetElectionTimer (upd (λ r,
    r <| state := Candidate |> <| currentTerm ::= λ t, uint64 (t + 1) |>
      <| votedFor := selfAddr r |>) w));;
  r ← gets node;
  last ← of_option (at_ (log r) (len (log r) - 1));
  let args := mkRequestVoteArgs (currentTerm r) (selfAddr r) (uint64 (len (log r) - 1)) (Term last) in
  if bool_decide (peers r = ∅) then modify (λ w, saveState (becomeLeader w))
  else
    let ps := nonLearner r in
    el ← gets nextElection;
    modify (λ w, w <| nextElection ::= Z.succ |>
      <| elections ::= <[el := mkElection 1 1 0 (configState r) (msize (currentConfig r))
                          (msize_nil (newConfig r)) (len ps) (len ps)]> |>);;
    modify (λ w, foldl (λ w p, go (TVote el p (currentTerm r) args) w) w ps);;
    modify (go (TVoteWait el (currentTerm r)));;
    modify saveState.

(** The goroutine of one voter, once it has the reply of [requestVote]. *)
Definition voteReply (el : Z) (p : string) (term : Z) (reply : RequestVoteReply) : prog World unit :=
  Lock;;
  r ← gets node;
  e ← gets (λ w, elections w !! el);
  e ← of_option e;
  modify (λ w, w <| elections ::= <[el := e <| el_wg ::= Z.pred |>]> |>);;
  if vr_Term reply >? currentTerm r then modify (becomeFollower (vr_Term reply));; Unlock
  else
    when (bool_decide (state r = Candidate) && (currentTerm r =? term) && vr_VoteGranted reply) (
      let e := e <| el_wg ::= Z.pred |> <| el_votes ::= Z.succ |> in
      let e := match el_configState e with
        | ConfigJoint =>
            e <| el_oldConfigVotes ::= λ n, if getb (currentConfig r) p then n + 1 else n |>
              <| el_newConfigVotes ::= λ n, if getb_nil (newConfig r) p then n + 1 else n |>
        | ConfigStable => e
        end in
      modify (λ w, w <| elections ::= <[el := e]> |>);;
      when (match el_configState e with
            | ConfigJoint =>
                (el_oldConfigCount e / 2 + 1 <=? el_oldConfigVotes e) &&
                (el_newConfigCount e / 2 + 1 <=? el_newConfigVotes e)
            | ConfigStable => (el_nonLearnerPeers e + 1) / 2 <? el_votes e
            end) (modify becomeLeader));;
    Unlock.

(** The goroutine that waits for all voters ([wg.Wait()] has returned). *)
Definition voteWait (term : Z) : prog World unit :=
  Lock;;
  r ← gets node;
  when (bool_decide (state r = Candidate) && (currentTerm r =? term)) startElection;;
  Unlock.

(** ** The event loop [run] *)

Definition onElectionTimer : prog World unit :=
  modify (upd (λ r, r <| electionTimer := false |>));;
  Lock;;
  r ← gets node;
  if bool_decide (state r = Leader) then modify resetElectionTimer;; Unlock
  else startElection;; Unlock.

Definition onHeartbeatTimer : prog World unit :=
  modify (upd (λ r, r <| heartbeatTimer := false |>));;
  Lock;;
  r ← gets node;
  when (bool_decide (state r = Leader)) (modify sendHeartbeats);;
  Unlock.

(** ** Votes *)

Definition isLogUpToDate (lastLogIndex lastLogTerm : Z) (r : RaftNode) : option bool :=
  let lastIndex := uint64 (len (log r) - 1) in
  match at_ (log r) lastIndex with
  | None => None
  | Some e =>
      let lastTerm := Term e in
      Some (if lastTerm >? lastLogTerm then true
            else if (lastTerm =? lastLogTerm) && (lastIndex >? lastLogIndex) then true
            else false)
  end.

Definition RequestVote (args : RequestVoteArgs) : prog World RequestVoteReply :=
  Lock;;
  r ← gets node;
  if va_Term args <? currentTerm r then
    Unlock;; mret (mkRequestVoteReply (currentTerm r) false)
  else
    when (va_Term args >? currentTerm r) (modify (becomeFollower (va_Term args)));;
    r ← gets node;
    up ← (if bool_decide (votedFor r = "") || bool_decide (votedFor r = va_CandidateId args)
          then of_option (isLogUpToDate (va_LastLogIndex args) (va_LastLogTerm args) r)
          else mret false);
    if (up : bool) then
      modify (λ w, saveState (resetElectionTimer
        (upd (λ r, r <| votedFor := va_CandidateId args |>) w)));;
      Unlock;; mret (mkRequestVoteReply (currentTerm r) true)
    else Unlock;; mret (mkRequestVoteReply (currentTerm r) false).

(** ** Membership *)

(** A node of the new configuration that is not a peer yet joins as a learner. *)
Definition addLearner (a : string) (w : World) : World :=
  if bool_decide (peers (node w) !! a = None) && bool_decide (a ≠ selfAddr (node w)) then
    upd (λ r, r <| peers ::= <[a := mkPeer a true]> |>
                <| isr ::= <[a := true]> |>
                <| nextIndex ::= <[a := len (log r)]> |>
                <| matchIndex ::= <[a := 0]> |>) w
  else w.

Definition applyConfigChangeLocked (entry : LogEntry) (w : World) : World :=
  match Type_ entry, Config entry with
  | EntryType_JOINT_CONSENSUS, Some c =>
      let w := upd (λ r, r <| currentConfig := put_all (OldPeers c) true ∅ |>
                           <| newConfig := Some (put_all (NewPeers c) true ∅) |>
                           <| configState := ConfigJoint |>) w in
      let w := foldl (λ w a, addLearner a w) w (NewPeers c) in
      if bool_decide (state (node w) = Leader) then go TAppendStable w else w
  | EntryType_CONF_CHANGE, Some c =>
      let cfg := put_all (NewPeers c) true ∅ in
      let gone := filter (λ a, getb cfg a = false) (keys (peers (node w))) in
      upd (λ r, r <| currentConfig := cfg |> <| newConfig := None |>
                  <| configState := ConfigStable |>
                  <| peers ::= λ m, foldr delete m gone |>
                  <| isr ::= λ m, foldr delete m gone |>
                  <| nextIndex ::= λ m, foldr delete m gone |>
                  <| matchIndex ::= λ m, foldr delete m gone |>) w
  | _, _ => w
  end.

(** The loop of [applyCommittedEntries] with the lock held, up to the next
    entry that has to be sent on [applyCh], or to its end.  It runs at most
    [commitIndex - lastApplied] times. *)
Fixpoint applyNext (fuel : nat) : prog World (option LogEntry) :=
  match fuel with
  | O => mret None
  | S fuel =>
      r ← gets node;
      if lastApplied r <? commitIndex r then
        modify (upd (λ r, r <| lastApplied ::= λ i, uint64 (i + 1) |>));;
        r ← gets node;
        entry ← of_option (at_ (log r) (lastApplied r));
        if bool_decide (Type_ entry = EntryType_JOINT_CONSENSUS) ||
           bool_decide (Type_ entry = EntryType_CONF_CHANGE)
        then modify (applyConfigChangeLocked entry);; applyNext fuel
        else if applyCh r then mret (Some entry)
        else applyNext fuel
      else mret None
  end.

(** [applyCommittedEntries] releases the lock to send an entry: from there
    on the goroutine is the task [TApplySend], and other goroutines may run
    before the send ([applySend]) and before the lock is taken again. *)
Definition applyCommittedEntries : prog World unit :=
  Lock;;
  r ← gets node;
  next ← applyNext (S (Z.to_nat (commitIndex r - lastApplied r)));
  Unlock;;
  match next with
  | Some entry => modify (go (TApplySend entry))
  | None => mret tt
  end.

(** The [select] of a run that holds [entry]: the entry is sent, and the
    loop goes on with taking the lock; or [stopCh] is closed ([stop]) and
    the function returns, which runs the deferred [Unlock]. *)
Definition applySend (stop : bool) (entry : LogEntry) : prog World unit :=
  if stop then Unlock
  else modify (λ w, w <| applied ::= λ l, l ++ [entry] |>);; modify (go TApply).

(** ** Replication, leader side *)

(** How many members of [cfg] (other than the leader, which counts as 1)
    have replicated up to [n]. *)
Definition matchCount (cfg : string → bool) (n : Z) (r : RaftNode) : Z :=
  1 + len (filter (λ '(p, idx), n ≤ idx ∧ cfg p = true) (map_to_list (matchIndex r))).

Definition quorumReached (n : Z) (r : RaftNode) : bool :=
  let oldCount := matchCount (getb (currentConfig r)) n r in
  let newCount := matchCount (getb_nil (newConfig r)) n r in
  let oldQuorum := msize (currentConfig r) / 2 + 1 in
  let newQuorum := msize_nil (newConfig r) / 2 + 1 in
  match configState r with
  | ConfigJoint => (oldQuorum <=? oldCount) && (newQuorum <=? newCount)
  | ConfigStable => oldQuorum <=? oldCount
  end.

Definition commitAt (n : Z) (w : World) : World :=
  let w := upd (λ r, r <| commitIndex := n |>) w in
  match pendingCommit (node w) !! n with
  | Some ch => upd (λ r, r <| pendingCommit ::= delete n |>) (close_chan ch w)
  | None => w
  end.

Fixpoint commitLoop (fuel : nat) (n : Z) (w : World) : World :=
  match fuel with
  | O => w
  | S fuel =>
      match at_ (log (node w)) n with
      | Some e =>
          if (Term e =? currentTerm (node w)) && quorumReached n (node w)
          then commitLoop fuel (n + 1) (commitAt n w)
          else w
      | None => w
      end
  end.

Definition updateCommitIndex (w : World) : World :=
  let r := node w in
  go TApply (commitLoop (length (log r)) (uint64 (commitIndex r + 1)) w).

Definition snapshotThreshold : Z := 1000.

(** [sendAppendEntries], up to the remote call; [None]: it returned. *)
Definition sendAppendEntries (p : string) : prog World (option AppendEntriesArgs) :=
  Lock;;
  r ← gets node;
  if negb (bool_decide (state r = Leader)) then Unlock;; mret None
  else
    when (getu (nextIndex r) p =? 0) (modify (upd (λ r, r <| nextIndex ::= <[p := 1]> |>)));;
    let nextIdx := if getu (nextIndex r) p =? 0 then 1 else getu (nextIndex r) p in
    if nextIdx <? uint64 (len (log r) - snapshotThreshold) then
      Unlock;; modify (go (TSendSnapshot p));; mret None
    else
      let prevLogIndex := uint64 (nextIdx - 1) in
      prevLogTerm ← (if (prevLogIndex >? 0) && (int64 prevLogIndex <? len (log r))
                     then e ← of_option (at_ (log r) prevLogIndex); mret (Term e)
                     else mret 0);
      entries ← of_option (if uint64 (prevLogIndex + 1) <=? len (log r)
                           then Some (drop (Z.to_nat (uint64 (prevLogIndex + 1))) (log r))
                           else None);
      Unlock;;
      mret (Some (mkAppendEntriesArgs (currentTerm r) (selfAddr r) prevLogIndex prevLogTerm
                    entries (commitIndex r))).

(** [sendAppendEntries], with the reply. *)
Definition appendReply (p : string) (prevLogIndex n : Z) (reply : AppendEntriesReply) : prog World unit :=
  Lock;;
  r ← gets node;
  if ar_Term reply >? currentTerm r then modify (becomeFollower (ar_Term reply));; Unlock
  else if negb (bool_decide (state r = Leader)) then Unlock
  else if ar_Success reply then
    let next := uint64 (prevLogIndex + n + 1) in
    modify (upd (λ r, r <| nextIndex ::= <[p := next]> |>
                        <| matchIndex ::= <[p := uint64 (next - 1)]> |>));;
    modify updateCommitIndex;; Unlock
  else
    when (getu (nextIndex r) p >? 1) (
      modify (upd (λ r, r <| nextIndex ::= <[p := uint64 (getu (nextIndex r) p - 1)]> |>));;
      modify (go (TSendAppend p)));;
    Unlock.

Definition SubmitCommand (topic : string) (partition : Z) (data : list byte) :
    prog World (result (Z * Z)) :=
  Lock;;
  r ← gets node;
  if negb (bool_decide (state r = Leader)) then Unlock;; mret (Err "not leader")
  else
    let entryIndex := len (log r) in
    let entry := mkLogEntry (currentTerm r) entryIndex EntryType_DATA topic partition data None in
    modify (λ w, saveState (upd (λ r, r <| log ::= λ l, l ++ [entry] |>) w));;
    if bool_decide (peers r = ∅) then
      modify (upd (λ r, r <| commitIndex := entryIndex |>));;
      applyCommittedEntries;;
      Unlock;;
      ch ← makeChan;
      modify (close_chan ch);;
      mret (Ok (entryIndex, ch))
    else
      ch ← makeChan;
      modify (upd (λ r, r <| pendingCommit ::= <[entryIndex := ch]> |>));;
      Unlock;;
      modify sendHeartbeats;;
      mret (Ok (entryIndex, ch)).

(** ** Replication, follower side *)

(** The loop over [args.Entries]; [i] is the position of the head. *)
Fixpoint appendLoop (prevLogIndex i : Z) (entries log : list LogEntry) : list LogEntry :=
  match entries with
  | [] => log
  | entry :: entries =>
      let index := uint64 (prevLogIndex + 1 + i) in
      appendLoop prevLogIndex (i + 1) entries
        (if len log <=? index then log ++ [entry]
         else match at_ log index with
              | Some e => if Term e =? Term entry then log
                          else take (Z.to_nat index) log ++ [entry]
              | None => log
              end)
  end.

Definition AppendEntries (args : AppendEntriesArgs) : prog World AppendEntriesReply :=
  Lock;;
  r ← gets node;
  let lastLogIndex := uint64 (len (log r) - 1) in
  if aa_Term args <? currentTerm r then
    Unlock;; mret (mkAppendEntriesReply (currentTerm r) false 0 lastLogIndex)
  else
    when (aa_Term args >? currentTerm r) (modify (becomeFollower (aa_Term args)));;
    modify resetElectionTimer;;
    r ← gets node;
    if len (log r) <=? aa_PrevLogIndex args then
      Unlock;; mret (mkAppendEntriesReply (currentTerm r) false (len (log r)) lastLogIndex)
    else
      prev ← of_option (at_ (log r) (aa_PrevLogIndex args));
      if (aa_PrevLogIndex args >? 0) && negb (Term prev =? aa_PrevLogTerm args) then
        Unlock;; mret (mkAppendEntriesReply (currentTerm r) false (aa_PrevLogIndex args) lastLogIndex)
      else
        modify (upd (λ r, r <| log ::= appendLoop (aa_PrevLogIndex args) 0 (aa_Entries args) |>));;
        r ← gets node;
        when (aa_LeaderCommit args >? commitIndex r) (
          modify (upd (λ r, r <| commitIndex :=
            Z.min (aa_LeaderCommit args) (uint64 (len (log r) - 1)) |>));;
          applyCommittedEntries);;
        modify saveState;;
        Unlock;;
        mret (mkAppendEntriesReply (currentTerm r) true 0 (uint64 (len (log r) - 1))).

(** ** Snapshots *)

Definition InstallSnapshot (args : InstallSnapshotArgs) : prog World InstallSnapshotReply :=
  Lock;;
  r ← gets node;
  if sa_Term args <? currentTerm r then
    Unlock;; mret (mkInstallSnapshotReply (currentTerm r) false)
  else
    when (sa_Term args >? currentTerm r) (modify (becomeFollower (sa_Term args)));;
    modify resetElectionTimer;;
    r ← gets node;
    if sa_LastIncludedIndex args <=? commitIndex r then
      Unlock;; mret (mkInstallSnapshotReply (currentTerm r) true)
    else
      modify (λ w, saveState (upd (λ r,
        r <| log ::= λ l, take 1 l ++ Gob.decode_all false (sa_Data args) |>
          <| lastApplied := sa_LastIncludedIndex args |>
          <| commitIndex := sa_LastIncludedIndex args |>
          <| persistedIndex := sa_LastIncludedIndex args |>) w));;
      Unlock;; mret (mkInstallSnapshotReply (currentTerm r) true).

Definition createSnapshot : prog World (list (Gob.msg LogEntry)) :=
  RLock;;
  r ← gets node;
  RUnlock;;
  mret (Gob.encode_all (log r)).

(** [sendSnapshot], up to the remote call. *)
Definition sendSnapshot (p : string) : prog World (option InstallSnapshotArgs) :=
  Lock;;
  r ← gets node;
  if negb (bool_decide (state r = Leader)) then Unlock;; mret None
  else
    let lastIndex := uint64 (len (log r) - 1) in
    e ← of_option (at_ (log r) lastIndex);
    data ← createSnapshot;
    Unlock;;
    mret (Some (mkInstallSnapshotArgs (currentTerm r) (selfAddr r) lastIndex (Term e) data)).

(** [sendSnapshot], with the reply. *)
Definition snapshotReply (p : string) (lastIndex : Z) (reply : InstallSnapshotReply) : prog World unit :=
  Lock;;
  r ← gets node;
  if sr_Term reply >? currentTerm r then modify (becomeFollower (sr_Term reply));; Unlock
  else
    when (sr_Success reply) (modify (upd (λ r,
      r <| nextIndex ::= <[p := uint64 (lastIndex + 1)]> |> <| matchIndex ::= <[p := lastIndex]> |>)));;
    Unlock.

(** ** Membership changes *)

(** [oldPeers] and [newPeers] are the keys of the two configurations in the
    order of the range loops. *)
Definition changeConfig (oldPeers newPeers : list string) (nodeAddr : string) (add : bool) :
    prog World (result unit) :=
  Lock;;
  r ← gets node;
  let cfg := put_all (keys (currentConfig r)) true ∅ in
  let cfg := if add then <[nodeAddr := true]> cfg else delete nodeAddr cfg in
  let entry := mkLogEntry (currentTerm r) (len (log r)) EntryType_JOINT_CONSENSUS "" 0 []
                 (Some (mkConfigEntry oldPeers newPeers)) in
  modify (λ w, saveState (upd (λ r, r <| newConfig := Some cfg |> <| configState := ConfigJoint |>
    <| log ::= λ l, l ++ [entry] |>) w));;
  Unlock;;
  mret (Ok tt).

(** [AddNode] and [RemoveNode] release the lock between their checks and
    [changeConfig], which takes it again. *)
Definition AddNode_check (nodeAddr : string) : prog World (result unit) :=
  Lock;;
  r ← gets node;
  if negb (bool_decide (state r = Leader)) then Unlock;; mret (Err "not leader")
  else if getb (currentConfig r) nodeAddr then
    Unlock;; mret (Err ("node " +:+ nodeAddr +:+ " already in cluster"))
  else if bool_decide (configState r = ConfigJoint) then
    Unlock;; mret (Err "another configuration change is in progress")
  else Unlock;; mret (Ok tt).

Definition AddNode (oldPeers newPeers : list string) (nodeAddr : string) : prog World (result unit) :=
  checked ← AddNode_check nodeAddr;
  match checked with
  | Err e => mret (Err e)
  | Ok _ => changeConfig oldPeers newPeers nodeAddr true
  end.

Definition RemoveNode_check (nodeAddr : string) : prog World (result unit) :=
  Lock;;
  r ← gets node;
  if negb (bool_decide (state r = Leader)) then Unlock;; mret (Err "not leader")
  else if negb (getb (currentConfig r) nodeAddr) then
    Unlock;; mret (Err ("node " +:+ nodeAddr +:+ " not in cluster"))
  else if bool_decide (nodeAddr = selfAddr r) && (msize (currentConfig r) =? 1) then
    Unlock;; mret (Err "cannot remove the only node")
  else if bool_decide (configState r = ConfigJoint) then
    Unlock;; mret (Err "another configuration change is in progress")
  else Unlock;; mret (Ok tt).

Definition RemoveNode (oldPeers newPeers : list string) (nodeAddr : string) : prog World (result unit) :=
  checked ← RemoveNode_check nodeAddr;
  match checked with
  | Err e => mret (Err e)
  | Ok _ => changeConfig oldPeers newPeers nodeAddr false
  end.

(** [newPeers]: the keys of [newConfig] in the order of the range loop. *)
Definition appendStableConfig (newPeers : list string) : prog World unit :=
  Lock;;
  r ← gets node;
  if negb (bool_decide (state r = Leader)) || negb (bool_decide (configState r = ConfigJoint))
  then Unlock
  else
    let entry := mkLogEntry (currentTerm r) (len (log r)) EntryType_CONF_CHANGE "" 0 []
                   (Some (mkConfigEntry [] newPeers)) in
    modify (λ w, saveState (upd (λ r, r <| log ::= λ l, l ++ [entry] |>) w));;
    Unlock;;
    modify sendHeartbeats.

(** ** Queries and the in-sync-replica set *)

Definition getQuorumSize : prog World Z :=
  RLock;;
  r ← gets node;
  RUnlock;;
  mret (match configState r with
        | ConfigJoint => (msize (currentConfig r) / 2 + 1) + (msize_nil (newConfig r) / 2 + 1)
        | ConfigStable => msize (currentConfig r) / 2 + 1
        end).

Definition replicaLag (r : RaftNode) (p : string) : Z :=
  uint64 (commitIndex r - getu (matchIndex r) p).

Definition checkISR : prog World unit :=
  Lock;;
  r ← gets node;
  when (bool_decide (state r = Leader)) (
    modify (upd (λ r, r <| isr ::= λ m,
      foldr (λ p, insert p (negb (replicaLag r p >? maxLag r))) m (keys (peers r)) |>)));;
  Unlock.

Definition getISRSize : prog World Z :=
  RLock;;
  r ← gets node;
  RUnlock;;
  mret (1 + len (filter (λ '(_, b), b = true) (map_to_list (isr r)))).

Definition GetState : prog World (NodeState * Z) :=
  Lock;; r ← gets node; Unlock;; mret (state r, currentTerm r).

Definition getConfigSize : prog World Z :=
  RLock;; r ← gets node; RUnlock;; mret (msize (currentConfig r)).

(** ** Remote calls

    The client side of the three calls: the reply of the peer, or, when the
    connection or the call fails ([None]), a negative reply that carries the
    caller's own term. *)

Definition requestVote (r : RaftNode) (rpc : option RequestVoteReply) : RequestVoteReply :=
  match rpc with Some reply => reply | None => mkRequestVoteReply (currentTerm r) false end.

Definition appendEntries (r : RaftNode) (rpc : option AppendEntriesReply) : AppendEntriesReply :=
  match rpc with Some reply => reply | None => mkAppendEntriesReply (currentTerm r) false 0 0 end.

Definition installSnapshot (r : RaftNode) (rpc : option InstallSnapshotReply) : InstallSnapshotReply :=
  match rpc with Some reply => reply | None => mkInstallSnapshotReply (currentTerm r) false end.

End Raft.
