(* ===== verification/RaftProps.v ===== *)
(** * Properties of one Raft node

    Theorems about the definitions of [Raft]: the log a follower keeps after
    [AppendEntries], when votes are granted, what the leader commits, what
    submitting a command does, and the calls that block for ever on the
    node's own mutex. *)

From Stdlib Require Import ZArith Lia Strings.Byte.
From stdpp Require Import base tactics list gmap strings fin_maps.
From S2P Require Import Prelude GoLib Raft.

Open Scope Z_scope.

Module RaftProps.

Import Int Raft.

(** ** Weakest preconditions of the node's mutex *)

Lemma wp_Lock Q B P w :
  mu (node w) = false → Q tt (upd (λ r, r <| mu := true |>) w) → wp Lock Q B P w.
Proof. intros Hmu. unfold wp, Lock. by rewrite Hmu. Qed.

Lemma wp_Lock_held Q (B : World → Prop) P w :
  mu (node w) = true → B w → wp Lock Q B P w.
Proof. intros Hmu. unfold wp, Lock. by rewrite Hmu. Qed.

Lemma wp_Unlock Q B P w :
  mu (node w) = true → Q tt (upd (λ r, r <| mu := false |>) w) → wp Unlock Q B P w.
Proof. intros Hmu. unfold wp, Unlock. by rewrite Hmu. Qed.

(** ... with nothing known about it. *)
Lemma wp_Lock_any Q (B : World → Prop) P w :
  B w → Q tt (upd (λ r, r <| mu := true |>) w) → wp Lock Q B P w.
Proof. intros HB HQ. unfold wp, Lock. by destruct (mu (node w)). Qed.

Lemma wp_Unlock_any Q B (P : World → Prop) w :
  P w → Q tt (upd (λ r, r <| mu := false |>) w) → wp Unlock Q B P w.
Proof. intros HP HQ. unfold wp, Unlock. by destruct (mu (node w)). Qed.

Lemma wp_RLock_any (Q : unit → World → Prop) (B : World → Prop) P w :
  B w → Q tt w → wp RLock Q B P w.
Proof. intros HB HQ. unfold wp, RLock. by destruct (mu (node w)). Qed.

Lemma wp_makeChan (Q : Z → World → Prop) B P w :
  Q (nextChan w) (w <| nextChan ::= Z.succ |>) → wp makeChan Q B P w.
Proof. done. Qed.

(** One step of a program, with the state kept as it is written.  Tests are
    left to the user; a lock must be known to be free, or held. *)
Ltac wp_step :=
  lazymatch goal with
  | |- wp (_ ≫= _) _ _ _ _ => apply wp_bind
  | |- wp (mret _) _ _ _ _ => apply wp_ret
  | |- wp (gets _) _ _ _ _ => apply wp_gets
  | |- wp (modify _) _ _ _ _ => apply wp_modify
  | |- wp makeChan _ _ _ _ => apply wp_makeChan
  | |- wp Lock _ _ _ _ => apply wp_Lock; [first [reflexivity | eassumption]|]
  | |- wp Unlock _ _ _ _ => apply wp_Unlock; [first [reflexivity | eassumption]|]
  end.

Ltac wp_run := repeat (wp_step; cbv beta).

(** Decide the test in front by a contradiction in the other branch. *)
Ltac wp_cases :=
  lazymatch goal with
  | |- wp (if _ then _ else _) _ _ _ _ => apply wp_if; intros ?; bool_to_prop
  | |- wp (when _ _) _ _ _ _ => apply wp_when; intros ?; bool_to_prop
  | |- wp (of_option _) _ _ _ _ => apply wp_of_option; intros
  end.

(** ** Frame lemmas *)

Lemma at_Some {A} (l : list A) i x :
  at_ l i = Some x ↔ 0 ≤ i < len l ∧ l !! Z.to_nat i = Some x.
Proof.
  unfold at_, len. split.
  - destruct (_ && _) eqn:E; [|done]. bool_to_prop. auto with lia.
  - intros [[??] ?]. rewrite (proj2 (andb_true_iff _ _)); [done|]. split; lia.
Qed.

Lemma at_is_Some {A} (l : list A) i : 0 ≤ i < len l → ∃ x, at_ l i = Some x.
Proof.
  unfold len. intros [??]. destruct (l !! Z.to_nat i) as [x|] eqn:E.
  - exists x. apply at_Some. unfold len. auto with lia.
  - apply lookup_ge_None in E. lia.
Qed.

Lemma at_None {A} (l : list A) i : len l ≤ i → at_ l i = None.
Proof. unfold at_. intros ?. destruct (_ && _) eqn:E; [|done]. bool_to_prop. lia. Qed.

Lemma len_app {A} (l1 l2 : list A) : len (l1 ++ l2) = len l1 + len l2.
Proof. unfold len. rewrite length_app. lia. Qed.

Lemma len_nonneg {A} (l : list A) : 0 ≤ len l.
Proof. unfold len. lia. Qed.

(** Saving writes the disk and the persisted index, and nothing else. *)
Lemma saveState_frame w : ∃ p d,
  saveState w = upd (λ r, r <| persistedIndex := p |>) (w <| disk := d |>).
Proof.
  destruct w as [r d fl cl nc ap ts els ne]. unfold saveState, appendLogEntries.
  destruct r. simpl.
  case_bool_decide; [eexists _, d; reflexivity|].
  destruct (writeFails fl); [eexists _, d; reflexivity|].
  destruct (renameFails fl); [eexists _, d; reflexivity|].
  destruct (openFails fl); [|destruct (_ <? 0)]; eexists _, _; reflexivity.
Qed.

Lemma close_all_frame chs w :
  foldl (λ w ch, close_chan ch w) w chs = w <| closed ::= λ cl, reverse chs ++ cl |>.
Proof.
  revert w. induction chs as [|ch chs IH]; intros w; simpl.
  - by destruct w.
  - rewrite IH. destruct w. simpl. unfold close_chan. simpl.
    by rewrite reverse_cons, <- app_assoc.
Qed.

Lemma clearPending_frame w :
  clearPending w = upd (λ r, r <| pendingCommit := ∅ |>)
    (w <| closed ::= λ cl, reverse (map_to_list (pendingCommit (node w))).*2 ++ cl |>).
Proof. unfold clearPending. by rewrite close_all_frame. Qed.

Lemma go_all_frame {A} (t : A → Task) l w :
  foldl (λ w p, go (t p) w) w l = w <| tasks ::= λ ts, ts ++ (t <$> l) |>.
Proof.
  revert w. induction l as [|x l IH]; intros w; simpl.
  - destruct w. simpl. by rewrite app_nil_r.
  - rewrite IH. destruct w. simpl. unfold go. simpl. by rewrite <- app_assoc.
Qed.

Lemma becomeFollower_frame t w : ∃ p d cl,
  becomeFollower t w = upd (λ r,
    r <| state := Follower |> <| currentTerm := t |> <| votedFor := "" |>
      <| pendingCommit := ∅ |> <| electionTimer := true |> <| persistedIndex := p |>)
    (w <| disk := d |> <| closed := cl |>).
Proof.
  unfold becomeFollower. destruct (saveState_frame (resetElectionTimer (clearPending
    (upd (λ r, r <| state := Follower |> <| currentTerm := t |> <| votedFor := "" |>) w))))
    as (p & d & ->).
  rewrite clearPending_frame. destruct w as [[]]; simpl. eexists p, d, _. reflexivity.
Qed.

Lemma becomeLeader_frame w : ∃ ts cl ni mi ir,
  becomeLeader w = upd (λ r,
    r <| state := Leader |> <| nextIndex := ni |> <| matchIndex := mi |> <| isr := ir |>
      <| pendingCommit := ∅ |> <| heartbeatTimer := true |> <| isrTicker := true |>)
    (w <| tasks ::= λ l, l ++ (TSendAppend <$> ts) |> <| closed := cl |>).
Proof.
  unfold becomeLeader, sendHeartbeats. rewrite (go_all_frame TSendAppend), clearPending_frame.
  destruct w as [[]]; simpl. eexists _, _, _, _, _. reflexivity.
Qed.

(** Replaces a saved or stepped-down state by the record it is. *)
Ltac expose :=
  repeat match goal with
  | |- context [saveState ?w] =>
      let p := fresh "p" in let d := fresh "d" in
      destruct (saveState_frame w) as (p & d & ->)
  | |- context [becomeFollower ?t ?w] =>
      let p := fresh "p" in let d := fresh "d" in let cl := fresh "cl" in
      destruct (becomeFollower_frame t w) as (p & d & cl & ->)
  end.

(** What the guard [if args.Term > r.currentTerm { r.becomeFollower(args.Term) }]
    leaves: the term of the message, and everything else of the log and the
    configuration unchanged. *)
Record stepped (t : Z) (w w1 : World) : Prop := {
  st_mu : mu (node w1) = mu (node w);
  st_term : currentTerm (node w1) = t;
  st_log : log (node w1) = log (node w);
  st_commit : commitIndex (node w1) = commitIndex (node w);
  st_applied : lastApplied (node w1) = lastApplied (node w);
  st_sent : applied w1 = applied w;
  st_same : currentTerm (node w) = t → w1 = w;
  st_new : currentTerm (node w) < t → votedFor (node w1) = "" ∧ state (node w1) = Follower;
}.

Lemma wp_stepDown t (Q : unit → World → Prop) B P w :
  currentTerm (node w) ≤ t →
  (∀ w1, stepped t w w1 → Q tt w1) →
  wp (when (t >? currentTerm (node w)) (modify (becomeFollower t))) Q B P w.
Proof.
  intros Hle HQ. apply wp_when; intros E; apply HQ || apply wp_modify, HQ.
  - expose. bool_to_prop. split; simpl; try done. lia.
  - bool_to_prop. split; auto with lia.
Qed.

(** ** The follower's log *)

(** Reference definition of what [AppendEntries] does to the part of the log
    after [PrevLogIndex]: keep it while the terms agree, and from the first
    disagreement (or the end of the log) on take over the leader's entries. *)
Fixpoint merge (suffix entries : list LogEntry) : list LogEntry :=
  match suffix, entries with
  | _, [] => suffix
  | [], _ => entries
  | x :: suffix', e :: entries' =>
      if Term x =? Term e then x :: merge suffix' entries' else entries
  end.

Lemma merge_nil_l entries : merge [] entries = entries.
Proof. by destruct entries. Qed.

Lemma merge_nil_r suffix : merge suffix [] = suffix.
Proof. by destruct suffix. Qed.

Lemma appendLoop_merge prev i entries l :
  0 ≤ prev → 0 ≤ i → prev + 1 + i ≤ len l → prev + 1 + i + len entries < 2 ^ 64 →
  appendLoop prev i entries l =
    take (Z.to_nat (prev + 1 + i)) l ++ merge (drop (Z.to_nat (prev + 1 + i)) l) entries.
Proof.
  revert i l. induction entries as [|e es IH]; intros i l Hp Hi Hlen Hmax; simpl.
  { by rewrite merge_nil_r, take_drop. }
  change (len (e :: es)) with (Z.of_nat (S (length es))) in Hmax.
  rewrite uint64_small by lia.
  set (n := Z.to_nat (prev + 1 + i)) in *.
  assert (Z.to_nat (prev + 1 + (i + 1)) = S n) as HSn by lia.
  assert (len es = Z.of_nat (length es)) as Hes by done.
  destruct (len l <=? prev + 1 + i) eqn:E; bool_to_prop.
  - assert (n = length l) as Hn by (unfold len in *; lia).
    rewrite IH by (rewrite ?len_app; unfold len in *; simpl; lia).
    rewrite HSn, drop_ge, (take_ge (l ++ [e])) by (rewrite length_app; simpl; lia).
    rewrite (take_ge l), (drop_ge l), merge_nil_l by lia.
    by rewrite <- app_assoc.
  - destruct (at_is_Some l (prev + 1 + i)) as [x Hx]; [lia|]. rewrite Hx.
    apply at_Some in Hx as [_ Hx]. fold n in Hx.
    assert (n < length l)%nat by (by eapply lookup_lt_Some).
    rewrite (drop_S l x n) by done. cbn [merge].
    destruct (Term x =? Term e).
    + rewrite IH by lia. rewrite HSn, (take_S_r l n x) by done.
      by rewrite <- app_assoc.
    + rewrite IH by (rewrite ?len_app; unfold len in *; rewrite ?length_take; simpl; lia).
      rewrite HSn, drop_ge, (take_ge (_ ++ _)), merge_nil_l
        by (rewrite length_app, length_take; simpl; lia).
      by rewrite <- app_assoc.
Qed.

Lemma merge_terms suffix entries k e :
  entries !! k = Some e → ∃ x, merge suffix entries !! k = Some x ∧ Term x = Term e.
Proof.
  revert entries k. induction suffix as [|x suffix IH]; intros entries k Hk.
  { rewrite merge_nil_l. eauto. }
  destruct entries as [|e' entries]; [done|]. simpl.
  destruct (Term x =? Term e') eqn:E; [|eauto]. bool_to_prop.
  destruct k as [|k]; simpl in *; [|eauto]. simplify_eq. eauto.
Qed.

Lemma merge_agree suffix entries :
  (∀ k x e, suffix !! k = Some x → entries !! k = Some e → Term x = Term e) →
  merge suffix entries = suffix ++ drop (length suffix) entries.
Proof.
  revert entries. induction suffix as [|x suffix IH]; intros entries Ha.
  { by rewrite merge_nil_l. }
  destruct entries as [|e entries]; simpl; [by rewrite app_nil_r|].
  rewrite (proj2 (Z.eqb_eq _ _)) by (apply (Ha 0%nat); done).
  f_equal. apply IH. intros k y e'. apply (Ha (S k)).
Qed.

Lemma merge_idemp suffix entries : merge (merge suffix entries) entries = merge suffix entries.
Proof.
  assert (∀ es, merge es es = es) as Hsame.
  { intros es. rewrite merge_agree; [by rewrite drop_all, app_nil_r|]. by intros; simplify_eq. }
  revert entries. induction suffix as [|x suffix IH]; intros entries.
  { by rewrite !merge_nil_l. }
  destruct entries as [|e entries]; [done|]. simpl.
  destruct (Term x =? Term e) eqn:E; simpl; [by rewrite E, IH|].
  rewrite Z.eqb_refl. f_equal. apply Hsame.
Qed.

Lemma merge_prefix n l entries :
  (n ≤ length l)%nat → take n (take n l ++ merge (drop n l) entries) = take n l.
Proof. intros. apply take_app_exact. rewrite length_take. lia. Qed.

Lemma merge_suffix_terms n l entries k e :
  (n ≤ length l)%nat → entries !! k = Some e →
  ∃ x, (take n l ++ merge (drop n l) entries) !! (n + k)%nat = Some x ∧ Term x = Term e.
Proof.
  intros Hn Hk. rewrite lookup_app_r by (rewrite length_take; lia).
  rewrite length_take, Nat.min_l, Nat.add_sub_swap, Nat.sub_diag by lia.
  by apply merge_terms.
Qed.

Lemma merge_keeps n l entries :
  (∀ k x e, drop n l !! k = Some x → entries !! k = Some e → Term x = Term e) →
  take (length l) (take n l ++ merge (drop n l) entries) = l.
Proof.
  intros Ha. rewrite (merge_agree _ _ Ha), app_assoc, take_drop. by rewrite take_app_length.
Qed.

(** C4: The log a follower keeps.  When a follower that is free to run
    receives an [AppendEntries] of a term at least its own, whose previous
    entry it has, and that does not move its commit index, the call returns
    success; the log is the one of the reference definition [merge]: the
    prefix up to [PrevLogIndex] is untouched, the entries after it have the
    terms of the leader's entries, nothing is truncated unless a term
    disagrees, and the term is the leader's. *)
Theorem AppendEntries_log w args prev :
  mu (node w) = false →
  currentTerm (node w) ≤ aa_Term args →
  at_ (log (node w)) (aa_PrevLogIndex args) = Some prev →
  aa_PrevLogIndex args = 0 ∨ Term prev = aa_PrevLogTerm args →
  len (log (node w)) + len (aa_Entries args) < 2 ^ 64 →
  aa_LeaderCommit args ≤ commitIndex (node w) →
  let n := Z.to_nat (aa_PrevLogIndex args + 1) in
  let l := log (node w) in
  let l' := take n l ++ merge (drop n l) (aa_Entries args) in
  ∃ w', AppendEntries args w = Ret (mkAppendEntriesReply (aa_Term args) true 0 (uint64 (len l' - 1))) w' ∧
        mu (node w') = false ∧ log (node w') = l' ∧ currentTerm (node w') = aa_Term args ∧
        commitIndex (node w') = commitIndex (node w) ∧
        take n l' = take n l ∧
        (∀ k e, aa_Entries args !! k = Some e →
          ∃ x, l' !! (n + k)%nat = Some x ∧ Term x = Term e) ∧
        ((∀ k x e, drop n l !! k = Some x → aa_Entries args !! k = Some e → Term x = Term e) →
          take (length l) l' = l).
Proof.
  intros Hmu Hterm Hprev Hpt Hmax Hlc n l l'.
  assert (appendLoop (aa_PrevLogIndex args) 0 (aa_Entries args) (log (node w)) = l') as Hl'.
  { apply at_Some in Hprev as [??]. rewrite appendLoop_merge by lia. by rewrite Z.add_0_r. }
  enough (∃ a w', AppendEntries args w = Ret a w' ∧
    a = mkAppendEntriesReply (aa_Term args) true 0 (uint64 (len l' - 1)) ∧
    mu (node w') = false ∧ log (node w') = l' ∧ currentTerm (node w') = aa_Term args ∧
    commitIndex (node w') = commitIndex (node w)) as (a & w' & Hret & -> & ?).
  { apply at_Some in Hprev as [??]. subst n l. unfold len in *. exists w'. destruct_and!. split_and!; try done.
    - apply merge_prefix. lia.
    - intros k e He. apply merge_suffix_terms; [lia|done].
    - apply merge_keeps. }
  apply wp_returns. unfold AppendEntries. wp_run. wp_cases; [simpl in *; lia|].
  wp_run. apply wp_stepDown; [done|]. intros w1 Hst. wp_run.
  destruct Hst as [Hmu1 Ht1 Hlog1 Hci1 _ _ _ _]. simpl in *.
  apply at_Some in Hprev as Hr. 
  wp_cases; simpl in *; [rewrite Hlog1 in *; lia|]. wp_run.
  wp_cases; simpl in *; rewrite Hlog1, Hprev in *; simplify_eq.
  wp_cases; [destruct Hpt; congruence || lia|].
  wp_run. wp_cases; simpl in *; [lia|].
  wp_run. expose. wp_run. simpl. rewrite Hlog1, Hl', Ht1. auto.
Qed.

(** A three-node cluster's node, used by the witnesses. *)
Definition demo_node : World :=
  NewRaftNode "a" ["a"; "b"; "c"] true "" (mkDisk None []) no_faults.
Definition demo_entry (term index : Z) : LogEntry :=
  mkLogEntry term index EntryType_DATA "t" 0 [] None.
Definition demo_log (l : list LogEntry) : World :=
  upd (λ r, r <| log := sentinel :: l |> <| currentTerm := 2 |>) demo_node.

Lemma AppendEntries_log_witness :
  let w := demo_log [demo_entry 1 1; demo_entry 1 2; demo_entry 1 3] in
  let args := mkAppendEntriesArgs 3 "b" 1 1 [demo_entry 2 2] 0 in
  ∃ w', AppendEntries args w = Ret (mkAppendEntriesReply 3 true 0 2) w' ∧
    log (node w') = [sentinel; demo_entry 1 1; demo_entry 2 2].
Proof.
  intros w args.
  destruct (AppendEntries_log w args (demo_entry 1 1)) as (w' & Hret & _ & Hlog & _);
    [reflexivity|vm_compute; discriminate|reflexivity|right; reflexivity|reflexivity|
     vm_compute; discriminate|].
  exists w'. split; [exact Hret|exact Hlog].
Defined.

(** Sending the same entries again changes nothing. *)
Lemma appendLoop_idempotent prev entries l :
  0 ≤ prev < len l → len l + len entries < 2 ^ 64 →
  appendLoop prev 0 entries (appendLoop prev 0 entries l) = appendLoop prev 0 entries l.
Proof.
  intros Hp Hmax. rewrite (appendLoop_merge _ _ _ l) by lia.
  set (n := Z.to_nat (prev + 1 + 0)).
  assert (n ≤ length l)%nat as Hn by (unfold len in *; lia).
  assert (length (merge (drop n l) entries) ≤ length (drop n l) + length entries)%nat as Hml.
  { generalize (drop n l). intros sf. clear -sf. revert entries.
    induction sf as [|x sf IH]; intros es; [rewrite merge_nil_l; simpl; lia|].
    destruct es as [|e es]; simpl; [lia|]. destruct (_ =? _); simpl; [specialize (IH es)|]; lia. }
  rewrite length_drop in Hml.
  rewrite appendLoop_merge; rewrite ?len_app; unfold len in *; rewrite ?length_take; try lia.
  fold n. rewrite merge_prefix by done.
  rewrite drop_app_exact by (rewrite length_take; lia). by rewrite merge_idemp.
Qed.

(** ** Votes *)

(** The node's own last log entry is strictly ahead of [(index, term)]. *)
Definition log_ahead (r : RaftNode) (index term : Z) : Prop :=
  ∃ e, last (log r) = Some e ∧
    (term < Term e ∨ (Term e = term ∧ index < len (log r) - 1)).

Lemma isLogUpToDate_spec r i t :
  log r ≠ [] → len (log r) < 2 ^ 64 →
  ∃ b, isLogUpToDate i t r = Some b ∧ (b = true ↔ log_ahead r i t).
Proof.
  intros Hne Hmax. unfold isLogUpToDate, log_ahead.
  assert (1 ≤ len (log r)) as Hlen.
  { unfold len. destruct (log r); simpl; [done|lia]. }
  rewrite uint64_small by lia.
  destruct (at_is_Some (log r) (len (log r) - 1)) as [e He]; [lia|]. rewrite He.
  apply at_Some in He as [_ He].
  assert (last (log r) = Some e) as Hlast.
  { rewrite last_lookup, <- He. f_equal. unfold len. lia. }
  eexists. split; [done|]. rewrite Hlast.
  destruct (Term e >? t) eqn:E1; [bool_to_prop; naive_solver|].
  destruct ((Term e =? t) && (len (log r) - 1 >? i)) eqn:E2; bool_to_prop.
  - split; [|done]. intros _. exists e. split; [done|]. right. lia.
  - split; [done|]. intros (e' & [= ->] & Hc).
    apply andb_false_iff in E2 as [E2|E2]; bool_to_prop; lia.
Qed.

(** C18: When a vote is granted.  [RequestVote] always returns; it grants the
    vote exactly when the candidate's term is not behind, the node has not
    voted for somebody else in that term, and the node's own log is strictly
    ahead of the candidate's; a granted vote is recorded for the candidate
    in the candidate's term. *)
Theorem RequestVote_grants w args :
  mu (node w) = false → log (node w) ≠ [] → len (log (node w)) < 2 ^ 64 →
  ∃ reply w', RequestVote args w = Ret reply w' ∧ mu (node w') = false ∧
    log (node w') = log (node w) ∧
    vr_Term reply = Z.max (currentTerm (node w)) (va_Term args) ∧
    currentTerm (node w') = vr_Term reply ∧
    (vr_VoteGranted reply = true → votedFor (node w') = va_CandidateId args) ∧
    (vr_VoteGranted reply = true ↔
       currentTerm (node w) ≤ va_Term args ∧
       (currentTerm (node w) < va_Term args ∨ votedFor (node w) = "" ∨
        votedFor (node w) = va_CandidateId args) ∧
       log_ahead (node w) (va_LastLogIndex args) (va_LastLogTerm args)).
Proof.
  intros Hmu Hne Hmax.
  destruct (isLogUpToDate_spec (node w) (va_LastLogIndex args) (va_LastLogTerm args)) as (b & Hb & Hbspec);
    [done..|].
  apply wp_returns. unfold RequestVote. wp_run. wp_cases.
  { wp_run. simpl in *. split_and!; auto with lia. }
  wp_run. apply wp_stepDown; [done|]. intros w1 Hst. wp_run.
  assert (isLogUpToDate (va_LastLogIndex args) (va_LastLogTerm args) (node w1) = Some b) as Hb1.
  { unfold isLogUpToDate. rewrite (st_log _ _ _ Hst). exact Hb. }
  rewrite Hb1.
  assert (votedFor (node w1) = "" ∨ votedFor (node w1) = va_CandidateId args ↔
    currentTerm (node w) < va_Term args ∨ votedFor (node w) = "" ∨
    votedFor (node w) = va_CandidateId args) as Hvote.
  { destruct (Z.lt_ge_cases (currentTerm (node w)) (va_Term args)) as [Hlt|Hge].
    - destruct (st_new _ _ _ Hst Hlt) as [-> _]. split; auto.
    - simpl in H. rewrite (st_same _ _ _ Hst) by (simpl; lia). simpl. split; [auto|].
      intros [?|?]; [lia|done]. }
  destruct Hst as [Hmu1 Ht1 Hlog1 _ _ _ _ _]. simpl in *.
  apply wp_if; intros Hv; wp_run.
  - apply wp_if; intros ->; wp_run; expose; wp_run; simpl; rewrite ?Ht1.
    + split_and!; auto with lia. split; [|done]. intros _. split_and!; [lia| |by apply Hbspec].
      apply Hvote. apply orb_true_iff in Hv as [?|?]; bool_to_prop; auto.
    + split_and!; auto with lia. split; [done|]. intros (_ & _ & Ha). by apply Hbspec in Ha.
  - wp_run. simpl. rewrite ?Ht1. split_and!; auto with lia. split; [done|].
    intros (_ & Ha & _). apply Hvote in Ha. bool_to_prop. by destruct Ha.
Qed.

Lemma RequestVote_grants_witness :
  let w := demo_log [demo_entry 1 1; demo_entry 1 2] in
  ∃ reply w', RequestVote (mkRequestVoteArgs 3 "b" 1 1) w = Ret reply w' ∧
    vr_VoteGranted reply = true ∧ votedFor (node w') = "b".
Proof.
  intros w. destruct (RequestVote_grants w (mkRequestVoteArgs 3 "b" 1 1))
    as (reply & w' & Hret & _ & _ & _ & _ & Hv & Hg); [reflexivity|discriminate|reflexivity|].
  assert (vr_VoteGranted reply = true) as Hr.
  { apply Hg. split; [vm_compute; discriminate|]. split; [left; reflexivity|].
    exists (demo_entry 1 2). split; [reflexivity|]. right. split; reflexivity. }
  exists reply, w'. split; [exact Hret|]. split; [exact Hr|]. apply Hv, Hr.
Defined.

(** ** What the leader commits *)

Lemma commitAt_frame n w : ∃ pc cl,
  commitAt n w = upd (λ r, r <| commitIndex := n |> <| pendingCommit := pc |>) (w <| closed := cl |>) ∧
  (∀ m, m ≠ n → pc !! m = pendingCommit (node w) !! m) ∧ pc !! n = None ∧
  (∀ ch, pendingCommit (node w) !! n = Some ch → ch ∈ cl) ∧ (∀ ch, ch ∈ closed w → ch ∈ cl).
Proof.
  destruct w as [r d fl cl nc ap ts els ne]. destruct r. unfold commitAt, close_chan, upd. simpl.
  destruct (_ !! n) as [ch|] eqn:E; simpl.
  - eexists _, _. split; [reflexivity|].
    split_and!; [intros; by apply lookup_delete_ne|apply lookup_delete_eq| |];
      intros; simplify_eq; by constructor.
  - eexists _, cl. split; [reflexivity|]. by split_and!.
Qed.

(** The followers of a configuration that are known to hold index [n], and
    when they form a majority of it together with the leader, which counts
    in every configuration. *)
Definition followers_at (cfg : gmap string bool) (n : Z) (r : RaftNode) : gset string :=
  dom (filter (λ '(p, idx), n ≤ idx ∧ cfg !! p = Some true) (matchIndex r)).

Definition on_majority (cfg : gmap string bool) (n : Z) (r : RaftNode) : Prop :=
  (size cfg < 2 * (1 + size (followers_at cfg n r)))%nat.

(** The rule of joint consensus: a majority of the current configuration,
    and during a change also a majority of the new one. *)
Definition replicated (n : Z) (r : RaftNode) : Prop :=
  on_majority (currentConfig r) n r ∧
  (configState r = ConfigJoint → on_majority (default ∅ (newConfig r)) n r).

Lemma getb_true m k : getb m k = true ↔ m !! k = Some true.
Proof. unfold getb. destruct (m !! k) as [[]|]; simpl; split; congruence. Qed.

Lemma filter_map_length {A} (P : string * A → Prop) `{∀ x, Decision (P x)} (m : gmap string A) :
  length (filter P (map_to_list m)) = size (dom (filter P m)).
Proof.
  rewrite size_dom, map_filter_alt, map_size_list_to_map; [done|].
  apply NoDup_fst_filter, NoDup_fst_map_to_list.
Qed.

Lemma matchCount_followers cfg n r :
  matchCount (getb cfg) n r = 1 + Z.of_nat (size (followers_at cfg n r)).
Proof.
  unfold matchCount, followers_at, len. rewrite <- filter_map_length. do 3 f_equal.
  apply list_filter_iff. intros [p idx]. by rewrite getb_true.
Qed.

Lemma half_majority (a b : nat) : (Z.of_nat a / 2 + 1 <=? 1 + Z.of_nat b) = true ↔ (a < 2 * (1 + b))%nat.
Proof.
  rewrite Z.leb_le. pose proof (Z.div_mod (Z.of_nat a) 2). pose proof (Z.mod_pos_bound (Z.of_nat a) 2). lia.
Qed.

Lemma quorumReached_replicated n r : quorumReached n r = true ↔ replicated n r.
Proof.
  unfold quorumReached, replicated, on_majority.
  replace (getb_nil (newConfig r)) with (getb (default ∅ (newConfig r)))
    by (by destruct (newConfig r)).
  replace (msize_nil (newConfig r)) with (msize (default ∅ (newConfig r)))
    by (by destruct (newConfig r)).
  rewrite !matchCount_followers. unfold msize.
  destruct (configState r); [|rewrite andb_true_iff]; rewrite !half_majority; [|tauto].
  split; [|tauto]. intros ?. by split.
Qed.

(** The indices after [commitIndex] that the leader may commit: of its own
    term, and replicated. *)
Definition committable (r : RaftNode) (m : Z) : Prop :=
  ∃ e, at_ (log r) m = Some e ∧ Term e = currentTerm r ∧ replicated m r.

Lemma commitLoop_spec fuel w :
  0 ≤ commitIndex (node w) → len (log (node w)) - commitIndex (node w) - 1 ≤ Z.of_nat fuel →
  ∃ c pc cl,
    commitLoop fuel (commitIndex (node w) + 1) w =
      upd (λ r, r <| commitIndex := c |> <| pendingCommit := pc |>) (w <| closed := cl |>) ∧
    commitIndex (node w) ≤ c ∧
    (∀ m, commitIndex (node w) < m ≤ c → committable (node w) m) ∧
    ¬ committable (node w) (c + 1) ∧
    (∀ m ch, commitIndex (node w) < m ≤ c → pendingCommit (node w) !! m = Some ch → ch ∈ cl) ∧
    (∀ ch, ch ∈ closed w → ch ∈ cl).
Proof.
  revert w. induction fuel as [|fuel IH]; intros w Hc Hf; simpl.
  { exists (commitIndex (node w)), (pendingCommit (node w)), (closed w).
    split_and!; try (done || lia); [by destruct w as [[]]|].
    intros (e & He & _). rewrite at_None in He by lia. done. }
  destruct (at_ _ _) as [e|] eqn:He; last first.
  { exists (commitIndex (node w)), (pendingCommit (node w)), (closed w).
    split_and!; try (done || lia); [by destruct w as [[]]|].
    intros (e & He' & _). congruence. }
  destruct (_ && _) eqn:Et; last first.
  { exists (commitIndex (node w)), (pendingCommit (node w)), (closed w).
    split_and!; try (done || lia); [by destruct w as [[]]|].
    intros (e' & He' & Ht & Hq%quorumReached_replicated). simplify_eq.
    by rewrite Ht, Z.eqb_refl, Hq in Et. }
  bool_to_prop. apply at_Some in He as Hr.
  destruct (commitAt_frame (commitIndex (node w) + 1) w) as (pc1 & cl1 & Hw1 & Hpc & _ & Hch & Hcl).
  set (w1 := commitAt (commitIndex (node w) + 1) w) in *.
  assert (∀ m, committable (node w1) m ↔ committable (node w) m) as Hcm by (by rewrite Hw1).
  assert (commitIndex (node w1) = commitIndex (node w) + 1) as Hci by (by rewrite Hw1).
  assert (log (node w1) = log (node w)) as Hlog by (by rewrite Hw1).
  rewrite <- Hci.
  destruct (IH w1) as (c & pc & cl & Heq & Hle & Hall & Hmax & Hpend & Hmono); [lia|rewrite Hlog; lia|].
  exists c, pc, cl. split_and!.
  - rewrite Heq, Hw1. reflexivity.
  - lia.
  - intros m Hm. destruct (decide (m = commitIndex (node w) + 1)) as [->|].
    + exists e. by rewrite <- quorumReached_replicated.
    + apply Hcm, Hall. lia.
  - by rewrite Hcm in Hmax.
  - intros m ch Hm Hlk. destruct (decide (m = commitIndex (node w) + 1)) as [->|].
    + apply Hmono. rewrite Hw1. by apply Hch.
    + apply (Hpend m); [lia|]. rewrite Hw1. simpl. by rewrite Hpc.
  - intros ch Hin. apply Hmono. rewrite Hw1. simpl. auto.
Qed.

Lemma updateCommitIndex_eq w :
  0 ≤ commitIndex (node w) < 2 ^ 64 - 1 →
  updateCommitIndex w = go TApply (commitLoop (length (log (node w))) (commitIndex (node w) + 1) w).
Proof. intros Hc. unfold updateCommitIndex. by rewrite uint64_small by lia. Qed.

(** C7: The commit rule of the leader.  [updateCommitIndex] moves the commit
    index to the end of the longest run of entries of the current term that
    are replicated: held by the leader and followers that are more than half
    of the current configuration and, while the membership changes, also
    more than half of the new one.  It wakes every producer waiting for one
    of them and schedules their application; the log and the term do not
    change. *)
Theorem updateCommitIndex_commits w :
  0 ≤ commitIndex (node w) < 2 ^ 64 - 1 →
  let w' := updateCommitIndex w in
  let c := commitIndex (node w') in
  commitIndex (node w) ≤ c ∧
  (∀ m, commitIndex (node w) < m ≤ c → committable (node w) m) ∧
  ¬ committable (node w) (c + 1) ∧
  (∀ m ch, commitIndex (node w) < m ≤ c → pendingCommit (node w) !! m = Some ch → ch ∈ closed w') ∧
  tasks w' = tasks w ++ [TApply] ∧
  log (node w') = log (node w) ∧ currentTerm (node w') = currentTerm (node w).
Proof.
  intros Hc. rewrite updateCommitIndex_eq by done.
  destruct (commitLoop_spec (length (log (node w))) w) as (c & pc & cl & -> & ?); [lia|unfold len; lia|].
  simpl. destruct_and!. by split_and!.
Qed.

Definition demo_leader : World :=
  upd (λ r, r <| state := Leader |> <| matchIndex := {[ "b" := 1; "c" := 0 ]} |>
              <| pendingCommit := {[ 1 := 7; 2 := 8 ]} |>)
    (demo_log [demo_entry 2 1; demo_entry 2 2]).

(** The same leader while ["d"] and ["e"] join: index 1 is on a majority of
    the three old members, but not of the five new ones. *)
Definition demo_joint : World :=
  upd (λ r, r <| configState := ConfigJoint |>
              <| newConfig := Some {[ "a" := true; "b" := true; "c" := true; "d" := true; "e" := true ]} |>)
    demo_leader.

Lemma updateCommitIndex_commits_witness :
  (commitIndex (node (updateCommitIndex demo_leader)) = 1 ∧
   ¬ committable (node demo_leader) 2 ∧ 7 ∈ closed (updateCommitIndex demo_leader)) ∧
  (commitIndex (node (updateCommitIndex demo_joint)) = 0 ∧ ¬ committable (node demo_joint) 1).
Proof.
  split.
  - destruct (updateCommitIndex_commits demo_leader) as (_ & _ & Hn & Hch & _);
      [vm_compute; split; [discriminate|reflexivity]|].
    split; [reflexivity|]. split; [exact Hn|].
    apply (Hch 1); [vm_compute; split; [reflexivity|discriminate]|reflexivity].
  - destruct (updateCommitIndex_commits demo_joint) as (_ & _ & Hn & _);
      [vm_compute; split; [discriminate|reflexivity]|].
    split; [reflexivity|exact Hn].
Defined.

(** ** Calls that block on the node's own mutex *)

(** A node whose mutex is never released answers nobody. *)
Definition unresponsive (w : World) : Prop :=
  (∀ args, RequestVote args w = Blocked w) ∧
  (∀ args, AppendEntries args w = Blocked w) ∧
  (∀ args, InstallSnapshot args w = Blocked w) ∧
  (∀ t p d, SubmitCommand t p d w = Blocked w) ∧
  (∀ p, sendAppendEntries p w = Blocked w).

Lemma locked_unresponsive w : mu (node w) = true → unresponsive w.
Proof.
  intros Hmu. assert (Lock w = Blocked w) as HL by (unfold Lock; by rewrite Hmu).
  repeat split; intros;
    unfold RequestVote, AppendEntries, InstallSnapshot, SubmitCommand, sendAppendEntries;
    unfold mbind at 1; unfold prog_bind at 1; by rewrite HL.
Qed.

Lemma wp_apply_held Q (B : World → Prop) P w :
  mu (node w) = true → B w → wp applyCommittedEntries Q B P w.
Proof. intros Hmu HB. unfold applyCommittedEntries. apply wp_bind. by apply wp_Lock_held. Qed.

(** C39: A follower that learns of a newly committed entry stops for ever.
    An accepted [AppendEntries] that moves the commit index calls
    [applyCommittedEntries] with the mutex held: the call blocks, no entry
    is delivered, and the node answers no later call. *)
Theorem AppendEntries_commit_blocks w args prev :
  mu (node w) = false →
  currentTerm (node w) ≤ aa_Term args →
  at_ (log (node w)) (aa_PrevLogIndex args) = Some prev →
  aa_PrevLogIndex args = 0 ∨ Term prev = aa_PrevLogTerm args →
  commitIndex (node w) < aa_LeaderCommit args →
  ∃ w', AppendEntries args w = Blocked w' ∧ unresponsive w' ∧
        lastApplied (node w') = lastApplied (node w) ∧ applied w' = applied w.
Proof.
  intros Hmu Hterm Hprev Hpt Hlc.
  enough (wp (AppendEntries args) (λ _ _, False)
    (λ w', mu (node w') = true ∧ lastApplied (node w') = lastApplied (node w) ∧ applied w' = applied w)
    (λ _, False) w) as (w' & ? & ? & ?)%wp_blocks by eauto using locked_unresponsive.
  unfold AppendEntries. wp_run. wp_cases; [simpl in *; lia|].
  wp_run. apply wp_stepDown; [done|]. intros w1 Hst. wp_run.
  destruct Hst as [Hmu1 Ht1 Hlog1 Hci1 Hla1 Hap1 _ _]. simpl in *.
  apply at_Some in Hprev as Hr.
  wp_cases; simpl in *; [rewrite Hlog1 in *; lia|]. wp_run.
  wp_cases; simpl in *; rewrite Hlog1, Hprev in *; simplify_eq.
  wp_cases; [destruct Hpt; congruence || lia|].
  wp_run. wp_cases; simpl in *; [|lia].
  wp_run. apply wp_apply_held; simpl; [done|]. by rewrite Hla1, Hap1.
Qed.

Lemma AppendEntries_commit_blocks_witness :
  let w := demo_log [demo_entry 1 1] in
  ∃ w', AppendEntries (mkAppendEntriesArgs 2 "b" 1 1 [] 1) w = Blocked w' ∧ unresponsive w' ∧
        applied w' = [].
Proof.
  intros w. destruct (AppendEntries_commit_blocks w (mkAppendEntriesArgs 2 "b" 1 1 [] 1) (demo_entry 1 1))
    as (w' & Hb & Hu & _ & Ha);
    [reflexivity|vm_compute; discriminate|reflexivity|right; reflexivity|reflexivity|].
  exists w'. split; [exact Hb|]. split; [exact Hu|exact Ha].
Defined.

Lemma keys_nil {A} (m : gmap string A) : keys m = [] ↔ m = ∅.
Proof.
  unfold keys. split; [|by intros ->; rewrite map_to_list_empty].
  intros H%fmap_nil_inv. by apply map_to_list_empty_iff.
Qed.

(** What [SubmitCommand] appends. *)
Definition newEntry (w : World) (topic : string) (partition : Z) (data : list byte) : LogEntry :=
  mkLogEntry (currentTerm (node w)) (len (log (node w))) EntryType_DATA topic partition data None.

Lemma SubmitCommand_refused w topic partition data :
  mu (node w) = false → state (node w) ≠ Leader → SubmitCommand topic partition data w = Ret (Err "not leader") w.
Proof.
  intros Hmu Hs. assert (wp (SubmitCommand topic partition data)
    (λ a w', a = Err "not leader" ∧ w' = w) (λ _, False) (λ _, False) w)
    as (a & w' & -> & -> & ->)%wp_returns; [|done].
  unfold SubmitCommand. wp_run. apply wp_if; intros E; [|bool_to_prop; simpl in *; done].
  wp_run. split; [done|]. destruct w as [[]]; simpl in *; by subst.
Qed.

Lemma SubmitCommand_leader w topic partition data :
  mu (node w) = false → state (node w) = Leader → peers (node w) ≠ ∅ →
  let r := node w in
  ∃ w', SubmitCommand topic partition data w = Ret (Ok (len (log r), nextChan w)) w' ∧
    mu (node w') = false ∧ log (node w') = log r ++ [newEntry w topic partition data] ∧
    commitIndex (node w') = commitIndex r ∧
    pendingCommit (node w') = <[len (log r) := nextChan w]> (pendingCommit r) ∧
    closed w' = closed w ∧ tasks w' = tasks w ++ (TSendAppend <$> keys (peers r)) ∧
    state (node w') = Leader ∧ peers (node w') = peers r ∧ currentTerm (node w') = currentTerm r.
Proof.
  intros Hmu Hs Hp r. enough (wp (SubmitCommand topic partition data)
    (λ a w', a = Ok (len (log r), nextChan w) ∧
      mu (node w') = false ∧ log (node w') = log r ++ [newEntry w topic partition data] ∧
      commitIndex (node w') = commitIndex r ∧
      pendingCommit (node w') = <[len (log r) := nextChan w]> (pendingCommit r) ∧
      closed w' = closed w ∧ tasks w' = tasks w ++ (TSendAppend <$> keys (peers r)) ∧
      state (node w') = Leader ∧ peers (node w') = peers r ∧ currentTerm (node w') = currentTerm r)
    (λ _, False) (λ _, False) w) as (a & w' & H & -> & ?)%wp_returns by eauto.
  unfold SubmitCommand. wp_run. apply wp_if; intros E; [bool_to_prop; simpl in *; done|].
  wp_run. expose. apply wp_if; intros E2; [bool_to_prop; simpl in *; done|].
  wp_run. unfold sendHeartbeats. rewrite (go_all_frame TSendAppend). by simpl.
Qed.

Lemma SubmitCommand_alone w topic partition data :
  mu (node w) = false → state (node w) = Leader → peers (node w) = ∅ →
  ∃ w', SubmitCommand topic partition data w = Blocked w' ∧ unresponsive w' ∧
    log (node w') = log (node w) ++ [newEntry w topic partition data] ∧
    commitIndex (node w') = len (log (node w)) ∧ applied w' = applied w.
Proof.
  intros Hmu Hs Hp. enough (wp (SubmitCommand topic partition data) (λ _ _, False)
    (λ w', mu (node w') = true ∧ log (node w') = log (node w) ++ [newEntry w topic partition data] ∧
           commitIndex (node w') = len (log (node w)) ∧ applied w' = applied w)
    (λ _, False) w) as (w' & ? & ? & ?)%wp_blocks by eauto using locked_unresponsive.
  unfold SubmitCommand. wp_run. apply wp_if; intros E; [bool_to_prop; simpl in *; done|].
  wp_run. expose. apply wp_if; intros E2; [|bool_to_prop; simpl in *; done].
  wp_run. by apply wp_apply_held.
Qed.

(** C15: Submitting a command, on every branch.  A node that is not the leader
    refuses and is unchanged; a leader with peers appends the entry at the
    next index, registers the channel the producer waits on and schedules
    replication to every peer; a leader without peers blocks for ever with
    the mutex held, and the entry, though committed, is not delivered. *)
Theorem SubmitCommand_spec w topic partition data :
  mu (node w) = false →
  let r := node w in
  let entry := mkLogEntry (currentTerm r) (len (log r)) EntryType_DATA topic partition data None in
  (state r ≠ Leader → SubmitCommand topic partition data w = Ret (Err "not leader") w) ∧
  (state r = Leader → peers r ≠ ∅ →
     ∃ w', SubmitCommand topic partition data w = Ret (Ok (len (log r), nextChan w)) w' ∧
           mu (node w') = false ∧ log (node w') = log r ++ [entry] ∧
           commitIndex (node w') = commitIndex r ∧
           pendingCommit (node w') = <[len (log r) := nextChan w]> (pendingCommit r) ∧
           closed w' = closed w ∧
           tasks w' = tasks w ++ (TSendAppend <$> keys (peers r))) ∧
  (state r = Leader → peers r = ∅ →
     ∃ w', SubmitCommand topic partition data w = Blocked w' ∧ unresponsive w' ∧
           log (node w') = log r ++ [entry] ∧ commitIndex (node w') = len (log r) ∧
           applied w' = applied w).
Proof.
  intros Hmu r entry. split_and!.
  - by apply SubmitCommand_refused.
  - intros Hs Hp. destruct (SubmitCommand_leader w topic partition data) as (w' & H); [done..|].
    exists w'. naive_solver.
  - by apply SubmitCommand_alone.
Qed.

Lemma SubmitCommand_spec_witness :
  (∃ w', SubmitCommand "t" 0 [] demo_leader = Ret (Ok (3, 0)) w' ∧
         log (node w') = [sentinel; demo_entry 2 1; demo_entry 2 2; demo_entry 2 3]) ∧
  (let alone := upd (λ r, r <| state := Leader |>)
     (NewRaftNode "a" ["a"] true "" (mkDisk None []) no_faults) in
   ∃ w', SubmitCommand "t" 0 [] alone = Blocked w' ∧ applied w' = []).
Proof.
  split.
  - destruct (SubmitCommand_spec demo_leader "t" 0 []) as (_ & H & _); [reflexivity|].
    destruct H as (w' & Hret & _ & Hlog & _); [reflexivity|vm_compute; discriminate|].
    exists w'. split; [exact Hret|exact Hlog].
  - intros alone. destruct (SubmitCommand_spec alone "t" 0 []) as (_ & _ & H); [reflexivity|].
    destruct H as (w' & Hb & _ & _ & _ & Hap); [reflexivity|reflexivity|].
    exists w'. split; [exact Hb|exact Hap].
Defined.

(** C40: A leader whose log has fewer than 1000 entries never replicates.  The
    difference [logLen - 1000] wraps around, so [sendAppendEntries] hands
    every follower over to [sendSnapshot]; and [sendSnapshot] takes the read
    lock in [createSnapshot] while it holds the write lock, so it blocks for
    ever and takes the node with it. *)
Theorem short_log_replication_blocks w p :
  mu (node w) = false → state (node w) = Leader →
  0 < len (log (node w)) < snapshotThreshold →
  0 ≤ getu (nextIndex (node w)) p ≤ len (log (node w)) →
  ∃ w1 w2, sendAppendEntries p w = Ret None w1 ∧ tasks w1 = tasks w ++ [TSendSnapshot p] ∧
           sendSnapshot p w1 = Blocked w2 ∧ unresponsive w2.
Proof.
  intros Hmu Hs Hlen Hn. unfold snapshotThreshold in *.
  assert (wp (sendAppendEntries p) (λ a w1, a = None ∧ tasks w1 = tasks w ++ [TSendSnapshot p] ∧
      mu (node w1) = false ∧ state (node w1) = Leader ∧ log (node w1) = log (node w))
      (λ _, False) (λ _, False) w) as (a & w1 & H1 & -> & Ht & Hm1 & Hs1 & Hl1)%wp_returns.
  { unfold sendAppendEntries. wp_run. apply wp_if; intros E; [bool_to_prop; simpl in *; done|].
    assert (∀ x, 0 ≤ x ≤ len (log (node w)) → (x <? uint64 (len (log (node w)) - snapshotThreshold)) = true) as Hw.
    { intros x Hx. apply Z.ltb_lt. unfold uint64, uint, snapshotThreshold.
      rewrite <- (Z.mod_add _ 1) by lia. rewrite Z.mod_small; lia. }
    wp_run. apply wp_when; intros E2; wp_run; simpl in E2; cbn [node upd update];
      simpl; rewrite E2; rewrite Hw by lia; wp_run; by simpl. }
  enough (wp (sendSnapshot p) (λ _ _, False) (λ w2, mu (node w2) = true) (λ _, False) w1)
    as (w2 & ? & ?)%wp_blocks by eauto 10 using locked_unresponsive.
  unfold sendSnapshot. wp_run. apply wp_if; intros E; [bool_to_prop; simpl in *; done|].
  wp_run. simpl. rewrite Hl1, uint64_small by lia.
  destruct (at_is_Some (log (node w)) (len (log (node w)) - 1)) as [e ->]; [lia|]. wp_run.
  unfold createSnapshot. wp_run. done.
Qed.

Lemma short_log_replication_blocks_witness :
  ∃ w1 w2, sendAppendEntries "b" demo_leader = Ret None w1 ∧
           sendSnapshot "b" w1 = Blocked w2 ∧ unresponsive w2.
Proof.
  destruct (short_log_replication_blocks demo_leader "b") as (w1 & w2 & H1 & _ & H2 & H3);
    [reflexivity|reflexivity|split; reflexivity|vm_compute; split; discriminate|].
  exists w1, w2. split; [exact H1|]. split; [exact H2|exact H3].
Defined.

End RaftProps.
