(* ===== verification/RaftApply.v ===== *)
(** * Delivery to the state machine

    What the goroutines that run [applyCommittedEntries] of [Raft] send on
    [applyCh].  Every successful reply of a follower starts such a goroutine,
    and each releases the lock around its sends, so that several of them, and
    the rest of the node, interleave. *)

From Stdlib Require Import ZArith Lia Strings.Byte.
From stdpp Require Import base tactics list gmap strings fin_maps relations.
From S2P Require Import Prelude GoLib Raft RaftProps.

Open Scope Z_scope.

Module RaftApply.

Import Int Raft RaftProps.

(** ** Entries by index *)

Definition is_data (e : LogEntry) : Prop := Type_ e = EntryType_DATA.
#[export] Instance is_data_dec e : Decision (is_data e) := decide (Type_ e = EntryType_DATA).

(** The entries of [l] with an index after [i], up to [j]. *)
Definition between (l : list LogEntry) (i j : Z) : list LogEntry :=
  drop (Z.to_nat (i + 1)) (take (Z.to_nat (j + 1)) l).

Lemma between_nil l i : between l i i = [].
Proof. unfold between. apply drop_ge. rewrite length_take. lia. Qed.

Lemma between_snoc l i j e :
  0 ≤ i ≤ j → at_ l (j + 1) = Some e → between l i (j + 1) = between l i j ++ [e].
Proof.
  intros Hij [Hr He]%at_Some. unfold between, len in *.
  replace (Z.to_nat (j + 1 + 1)) with (S (Z.to_nat (j + 1))) by lia.
  rewrite (take_S_r _ _ _ He), drop_app_le; [done|]. rewrite length_take. lia.
Qed.

(** Only the entries up to [j] count. *)
Lemma between_prefix l l' i j n :
  take n l' = take n l → (Z.to_nat (j + 1) ≤ n)%nat → between l' i j = between l i j.
Proof.
  intros Hl Hn. unfold between. f_equal.
  rewrite <- (Nat.min_l _ n Hn), <- !take_take, Hl. done.
Qed.

(** ** Steps *)

(** The entries that some run took from the log and has not sent yet. *)
Definition flying (t : Task) : option LogEntry :=
  match t with TApplySend e => Some e | _ => None end.
Definition in_flight (w : World) : list LogEntry := omap flying (tasks w).

(** A step of one of the application goroutines. *)
Inductive apply_step : World → World → Prop :=
| as_run w i :
    tasks w !! i = Some TApply → apply_step w (final (applyCommittedEntries (take_task i w)))
| as_send w i entry :
    tasks w !! i = Some (TApplySend entry) →
    apply_step w (final (applySend false entry (take_task i w))).

(** A node on which nothing is wrong: the lock is free, and the committed
    entries are in the log. *)
Record applying (w : World) : Prop := {
  ap_mu : mu (node w) = false;
  ap_ch : applyCh (node w) = true;
  ap_applied : 0 ≤ lastApplied (node w) ≤ commitIndex (node w);
  ap_commit : commitIndex (node w) < len (log (node w));
  ap_max : len (log (node w)) < 2 ^ 64;
}.

(** What the rest of the node may do meanwhile: anything that keeps the
    committed entries, does not lower the commit index and leaves the
    delivery alone. *)
Record meanwhile (w w' : World) : Prop := {
  mw_applying : applying w';
  mw_last : lastApplied (node w') = lastApplied (node w);
  mw_sent : applied w' = applied w;
  mw_flight : in_flight w' = in_flight w;
  mw_commit : commitIndex (node w) ≤ commitIndex (node w');
  mw_log : take (Z.to_nat (commitIndex (node w) + 1)) (log (node w')) =
           take (Z.to_nat (commitIndex (node w) + 1)) (log (node w));
}.

(** Starting a goroutine, and letting one run. *)
Lemma in_flight_go t w : in_flight (go t w) = in_flight w ++ option_list (flying t).
Proof. unfold in_flight. simpl. rewrite omap_app. simpl. by destruct (flying t). Qed.

Lemma in_flight_take w i t :
  tasks w !! i = Some t → ∃ l1 l2,
    in_flight w = l1 ++ option_list (flying t) ++ l2 ∧ in_flight (take_task i w) = l1 ++ l2.
Proof.
  intros Hi. exists (omap flying (take i (tasks w))), (omap flying (drop (S i) (tasks w))).
  unfold in_flight. simpl. rewrite omap_app. split; [|done].
  rewrite <- (take_drop_middle _ _ _ Hi) at 1. rewrite omap_app. simpl. by destruct (flying t).
Qed.

Definition delivery_step (w w' : World) : Prop := apply_step w w' ∨ meanwhile w w'.

(** ** One run, up to its next send *)

(** Applying a configuration entry leaves the log, the indices, the lock and
    the delivery alone. *)
Definition apply_frame (w w' : World) : Prop :=
  mu (node w') = mu (node w) ∧ log (node w') = log (node w) ∧ applyCh (node w') = applyCh (node w) ∧
  commitIndex (node w') = commitIndex (node w) ∧ lastApplied (node w') = lastApplied (node w) ∧
  applied w' = applied w ∧ in_flight w' = in_flight w ∧ ∃ ts, tasks w' = tasks w ++ ts.

Lemma apply_frame_upd f w w' :
  (∀ r, mu (f r) = mu r ∧ log (f r) = log r ∧ applyCh (f r) = applyCh r ∧
        commitIndex (f r) = commitIndex r ∧ lastApplied (f r) = lastApplied r) →
  apply_frame w w' → apply_frame w (upd f w').
Proof.
  intros Hf H. destruct (Hf (node w')). unfold apply_frame in *. destruct_and!.
  split_and!; try done; simpl; congruence.
Qed.

Lemma apply_frame_refl w : apply_frame w w.
Proof. unfold apply_frame. split_and!; try done. exists []. by rewrite app_nil_r. Qed.

Lemma apply_frame_go t w w' :
  flying t = None → apply_frame w w' → apply_frame w (go t w').
Proof.
  unfold apply_frame. intros Ht (? & ? & ? & ? & ? & ? & Hf & ts & Hts). split_and!; try done.
  - by rewrite in_flight_go, Ht, app_nil_r.
  - exists (ts ++ [t]). simpl. by rewrite Hts, app_assoc.
Qed.

Lemma applyConfig_frame e w : apply_frame w (applyConfigChangeLocked e w).
Proof.
  unfold applyConfigChangeLocked.
  destruct (Type_ e), (Config e) as [c|]; try apply apply_frame_refl;
    [by apply apply_frame_upd, apply_frame_refl|].
  match goal with |- context [foldl ?f ?a ?l] => assert (apply_frame w (foldl f a l)) end.
  { apply foldl_inv; [|by apply apply_frame_upd, apply_frame_refl].
    intros w1 a H1. unfold addLearner. case_match; [by apply apply_frame_upd|done]. }
  cbv zeta. case_bool_decide; [by apply apply_frame_go|done].
Qed.

(** [w'] has moved [lastApplied] over the data entries [taken]. *)
Record advanced (w w' : World) (taken : list LogEntry) : Prop := {
  ad_mu : mu (node w') = mu (node w);
  ad_log : log (node w') = log (node w);
  ad_ch : applyCh (node w') = applyCh (node w);
  ad_commit : commitIndex (node w') = commitIndex (node w);
  ad_sent : applied w' = applied w;
  ad_flight : in_flight w' = in_flight w;
  ad_tasks : ∃ ts, tasks w' = tasks w ++ ts;
  ad_last : lastApplied (node w) ≤ lastApplied (node w') ≤ commitIndex (node w);
  ad_taken : ∀ i, 0 ≤ i ≤ lastApplied (node w) →
    filter is_data (between (log (node w)) i (lastApplied (node w'))) =
    filter is_data (between (log (node w)) i (lastApplied (node w))) ++ taken;
}.

(** One more entry of the log, and then the rest of the loop. *)
Lemma advanced_next w w1 w' e taken :
  0 ≤ lastApplied (node w) < commitIndex (node w) →
  at_ (log (node w)) (lastApplied (node w) + 1) = Some e →
  apply_frame (upd (λ r, r <| lastApplied := lastApplied r + 1 |>) w) w1 →
  advanced w1 w' taken →
  advanced w w' (filter is_data [e] ++ taken).
Proof.
  intros Hla He (Hm & Hl & Hc & Hci & Hl1 & Hap & Hfl & ts1 & Ht) [? ? ? ? ? ? [ts2 Ht2] ? Hta].
  change (in_flight w1 = in_flight w) in Hfl. simpl in *. split; try congruence; [|lia|].
  - exists (ts1 ++ ts2). by rewrite Ht2, Ht, app_assoc.
  - intros i Hi. rewrite Hl, Hl1 in Hta. rewrite Hta by lia.
    rewrite (between_snoc _ _ _ e) by (done || lia). by rewrite filter_app, <- app_assoc.
Qed.

Lemma advanced_refl w : lastApplied (node w) ≤ commitIndex (node w) → advanced w w [].
Proof.
  intros Hle. split; try done; [exists []; by rewrite app_nil_r|].
  intros. by rewrite app_nil_r.
Qed.

Lemma applyNext_spec fuel w :
  let r := node w in
  applyCh r = true → 0 ≤ lastApplied r ≤ commitIndex r → commitIndex r < len (log r) →
  len (log r) < 2 ^ 64 → commitIndex r - lastApplied r < Z.of_nat fuel →
  wp (applyNext fuel) (λ next w', advanced w w' (option_list next) ∧
    match next with
    | None => lastApplied (node w') = commitIndex r
    | Some _ => lastApplied r < lastApplied (node w')
    end) (λ _, False) (λ _, False) w.
Proof.
  revert w. induction fuel as [|fuel IH]; cbv zeta; intros w Hch Hla Hci Hmax Hf; [simpl in *; lia|].
  cbn [applyNext]. wp_run. apply wp_if; intros Hlt; bool_to_prop; last first.
  { wp_run. split; [apply advanced_refl; lia|lia]. }
  wp_run. destruct (at_is_Some (log (node w)) (lastApplied (node w) + 1)) as [e He]; [lia|].
  set (w1 := upd _ w). assert (w1 = upd (λ r, r <| lastApplied := lastApplied r + 1 |>) w) as ->.
  { subst w1. unfold upd. simpl. by rewrite uint64_small by lia. }
  simpl. rewrite He. wp_run. apply wp_if; intros Hty.
  - wp_run. match goal with |- wp _ _ _ _ (applyConfigChangeLocked _ ?x) =>
      pose proof (applyConfig_frame e x) as Hfr; set (w1 := applyConfigChangeLocked e x) in * end.
    pose proof Hfr as (_ & Hl & Hc & Hci1 & Hl1 & _). simpl in *.
    eapply wp_mono; [apply (IH w1); rewrite ?Hl, ?Hc, ?Hci1, ?Hl1; (done || lia)| |done..].
    intros next w' [Had Hend].
    pose proof (advanced_next w w1 w' e _ ltac:(lia) He Hfr Had) as H.
    rewrite filter_cons, decide_False in H; [|unfold is_data; apply orb_true_iff in Hty as [?|?]; bool_to_prop; congruence].
    split; [done|]. rewrite Hci1, Hl1 in Hend. destruct next; lia.
  - rewrite Hch. wp_run.
    assert (is_data e) by (apply orb_false_iff in Hty as [??]; bool_to_prop; unfold is_data; by destruct (Type_ e)).
    replace (option_list (Some e)) with (filter is_data [e] ++ [])
      by (by rewrite filter_cons, decide_True, app_nil_r).
    split; [|simpl; lia].
    eapply advanced_next; [lia|done|apply apply_frame_refl|]. apply advanced_refl. simpl. lia.
Qed.

(** What a run does between two sends: it moves [lastApplied] to the next
    data entry and holds it, or to the commit index, and ends. *)
Record ran (w w' : World) (next : option LogEntry) : Prop := {
  ran_applying : applying w';
  ran_log : log (node w') = log (node w);
  ran_commit : commitIndex (node w') = commitIndex (node w);
  ran_sent : applied w' = applied w;
  ran_flight : in_flight w' = in_flight w ++ option_list next;
  ran_last : lastApplied (node w) ≤ lastApplied (node w');
  ran_taken : ∀ i, 0 ≤ i ≤ lastApplied (node w) →
    filter is_data (between (log (node w)) i (lastApplied (node w'))) =
    filter is_data (between (log (node w)) i (lastApplied (node w))) ++ option_list next;
  ran_next : match next with
             | None => lastApplied (node w') = commitIndex (node w)
             | Some e => lastApplied (node w) < lastApplied (node w') ∧
                         last (tasks w') = Some (TApplySend e)
             end;
}.

Lemma apply_run w i :
  applying w → tasks w !! i = Some TApply →
  ∃ w' next, applyCommittedEntries (take_task i w) = Ret tt w' ∧ ran w w' next.
Proof.
  intros [Hmu Hch Hla Hci Hmax] Hi. destruct (in_flight_take _ _ _ Hi) as (l1 & l2 & Hf & Hf').
  simpl in Hf. rewrite <- Hf in Hf'.
  enough (wp applyCommittedEntries (λ _ w', ∃ next, ran w w' next) (λ _, False) (λ _, False)
    (take_task i w)) as ([] & w' & ? & ? & ?)%wp_returns by eauto.
  unfold applyCommittedEntries. apply wp_bind, wp_Lock; [done|]. wp_run.
  eapply wp_mono; [apply applyNext_spec; simpl; (done || lia)| |done..].
  intros next w1 [[H1 H2 H3 H4 H5 H6 _ H7 H8] Hend]. change (in_flight w1 = in_flight (take_task i w)) in H6.
  simpl in *. apply wp_bind, wp_Unlock; [done|].
  destruct next as [e|]; wp_run; [exists (Some e)|exists None];
    (split; [split|..]); rewrite ?in_flight_go; simpl; rewrite ?H2, ?H3, ?H4, ?H5; try (done || lia).
  - change (in_flight w1 ++ [e] = in_flight w ++ [e]). by rewrite H6, Hf'.
  - by rewrite last_snoc.
  - change (in_flight w1 = in_flight w ++ []). by rewrite H6, Hf', app_nil_r.
Qed.

(** ** Delivery *)

(** What was sent, followed by what is about to be. *)
Definition sent (w : World) : list LogEntry := applied w ++ in_flight w.

(** Between two states the data entries passed by [lastApplied] were added to
    what is sent, up to [R]. *)
Section moved.
Context (R : relation (list LogEntry)) `{!PreOrder R}.
Context (R_app : ∀ l l' k, R l l' → R (l ++ k) (l' ++ k)).

Definition moved (w w' : World) : Prop :=
  applying w' ∧ lastApplied (node w) ≤ lastApplied (node w') ∧
  ∃ taken, R (sent w') (sent w ++ taken) ∧
    ∀ i, 0 ≤ i ≤ lastApplied (node w) →
      filter is_data (between (log (node w')) i (lastApplied (node w'))) =
      filter is_data (between (log (node w)) i (lastApplied (node w))) ++ taken.

Lemma moved_refl w : applying w → moved w w.
Proof.
  intros Hw. split; [done|]. split; [done|]. exists []. rewrite app_nil_r. split; [done|].
  intros. by rewrite app_nil_r.
Qed.

Lemma moved_trans w1 w2 w3 : applying w1 → moved w1 w2 → moved w2 w3 → moved w1 w3.
Proof.
  intros [_ _ Hla _ _] (_ & Hl1 & t1 & Hs1 & Ht1) (Ha & Hl2 & t2 & Hs2 & Ht2).
  split; [done|]. split; [lia|]. exists (t1 ++ t2). split.
  - rewrite app_assoc. etrans; [exact Hs2|by apply R_app].
  - intros i Hi. rewrite Ht2, Ht1, app_assoc by lia. done.
Qed.

Lemma moved_taken w w' :
  applying w → moved w w' →
  R (sent w') (sent w ++ filter is_data (between (log (node w'))
    (lastApplied (node w)) (lastApplied (node w')))).
Proof.
  intros [_ _ Hla _ _] (_ & _ & t & Hs & Ht). rewrite Ht, between_nil by lia. done.
Qed.

Lemma moved_steps (step : relation World) w w' :
  (∀ w w', applying w → step w w' → moved w w') → applying w → rtc step w w' → moved w w'.
Proof.
  intros Hstep Hw H. induction H as [w|w1 w2 w3 H1 _ IH]; [by apply moved_refl|].
  pose proof (Hstep _ _ Hw H1) as H2. apply (moved_trans _ w2); [done..|]. apply IH, H2.
Qed.

(** A step, when [R] relates sending an entry in flight to its place. *)
Lemma delivery_moved w w' :
  (∀ l1 e l2, in_flight w = l1 ++ e :: l2 → R (e :: l1 ++ l2) (l1 ++ e :: l2)) →
  (∀ k l l', R l l' → R (k ++ l) (k ++ l')) →
  applying w → delivery_step w w' → moved w w'.
Proof.
  intros Hsend Hpre Hw [Hs|[Ha Hl Hsn Hf Hc Hlog]]; [destruct Hs as [w i Hi|w i e Hi]|].
  - destruct (apply_run w i Hw Hi) as (w' & next & Hret & []). rewrite Hret. simpl.
    split; [done|]. split; [done|]. exists (option_list next). split.
    + unfold sent. by rewrite ran_sent0, ran_flight0, app_assoc.
    + rewrite ran_log0. done.
  - destruct (in_flight_take _ _ _ Hi) as (l1 & l2 & Hf & Hf'). simpl in Hf. destruct Hw.
    split; [by split|]. split; [simpl; lia|]. exists []. split.
    + rewrite app_nil_r. change (R ((applied w ++ [e]) ++ in_flight (go TApply (take_task i w)))
        (applied w ++ in_flight w)).
      rewrite in_flight_go, Hf', Hf. cbn [flying option_list]. rewrite app_nil_r, <- app_assoc.
      by apply Hpre, (Hsend l1 e l2).
    + intros j Hj. by rewrite app_nil_r.
  - split; [done|]. split; [lia|]. exists []. rewrite app_nil_r. split.
    + unfold sent. by rewrite Hsn, Hf.
    + intros i Hi. rewrite app_nil_r, Hl. f_equal. destruct Hw.
      eapply between_prefix; [done|lia].
Qed.
End moved.

(** A step while at most one entry is in flight. *)
Definition orderly (step : relation World) (w w' : World) : Prop :=
  (length (in_flight w) ≤ 1)%nat ∧ step w w'.

(** A run that is alone on the node goes on to the commit index. *)
Lemma run_alone w i :
  applying w → tasks w !! i = Some TApply → in_flight w = [] →
  ∃ w', rtc (orderly apply_step) w w' ∧ in_flight w' = [] ∧ lastApplied (node w') = commitIndex (node w) ∧
    commitIndex (node w') = commitIndex (node w) ∧ log (node w') = log (node w).
Proof.
  remember (Z.to_nat (commitIndex (node w) - lastApplied (node w))) as n eqn:Hn.
  revert w i Hn. induction (lt_wf n) as [n _ IH]. intros w i Hn Hw Hi Hf.
  destruct (apply_run w i Hw Hi) as (w1 & next & Hret & [Ha Hlog Hci _ Hf1 Hla _ Hend]).
  assert (orderly apply_step w w1) as Hs1 by (split; [rewrite Hf; simpl; lia|]; replace w1 with (final (applyCommittedEntries (take_task i w)));
    [by constructor|by rewrite Hret]).
  rewrite Hf in Hf1. destruct next as [e|]; simpl in *.
  - destruct Hend as [Hlt Hlast]. rewrite last_lookup in Hlast. set (j := Init.Nat.pred _) in Hlast.
    set (w2 := final (applySend false e (take_task j w1))).
    destruct (in_flight_take _ _ _ Hlast) as (l1 & l2 & Hf2 & Hf3). simpl in Hf2.
    assert (l1 = [] ∧ l2 = []) as [-> ->].
    { rewrite Hf1 in Hf2. destruct l1; [|destruct l1]; simplify_eq/=; done. }
    assert (in_flight w2 = []) as Hfw2.
    { change (in_flight (go TApply (take_task j w1)) = []). by rewrite in_flight_go, Hf3. }
    assert (applying w2) as Ha2 by (destruct Ha; by split).
    destruct (IH (Z.to_nat (commitIndex (node w) - lastApplied (node w1)))
      ltac:(destruct Ha; lia) w2 (length (tasks w1) - 1)%nat) as (w' & Hr & Hw').
    + subst w2. simpl. by rewrite Hci.
    + done.
    + subst w2 j. simpl. apply lookup_lt_Some in Hlast as Hlt2.
      rewrite lookup_app_r; rewrite length_app, length_take, length_drop; [|lia].
      replace (_ - _)%nat with 0%nat by lia. done.
    + done.
    + exists w'. split; [|subst w2; simpl in Hw'; by rewrite <- Hci, <- Hlog].
      eapply rtc_l; [exact Hs1|]. eapply rtc_l; [|done].
      split; [rewrite Hf1; simpl; lia|by apply as_send].
  - exists w1. split; [by apply rtc_once|]. by rewrite Hf1.
Qed.

(** *** Operations that run meanwhile *)

(** Accepting a command appends to the log. *)
Lemma SubmitCommand_meanwhile w topic partition data :
  applying w → state (node w) = Leader → peers (node w) ≠ ∅ → len (log (node w)) + 1 < 2 ^ 64 →
  meanwhile w (final (SubmitCommand topic partition data w)).
Proof.
  intros [Hmu Hch Hla Hci Hmax] Hs Hp Hl.
  enough (wp (SubmitCommand topic partition data) (λ _ w', meanwhile w w') (λ _, False) (λ _, False) w)
    as (a & w' & -> & ?)%wp_returns by done.
  unfold SubmitCommand. wp_run. apply wp_if; intros E; [bool_to_prop; simpl in *; done|].
  wp_run. expose. apply wp_if; intros E2; [bool_to_prop; simpl in *; done|]. wp_run.
  unfold sendHeartbeats. rewrite (go_all_frame TSendAppend). simpl.
  split; [split|..]; simpl; rewrite ?len_app; try (done || lia).
  - unfold len at 2. simpl. lia.
  - unfold in_flight. simpl. rewrite omap_app. replace (omap flying (TSendAppend <$> _)) with (@nil LogEntry);
      [by rewrite app_nil_r|]. symmetry. induction (keys (peers (node w))); [done|]. by simpl.
  - rewrite take_app_le; [done|]. unfold len in *. lia.
Qed.

(** A follower's reply, whatever it says, at most moves the commit index. *)
Lemma appendReply_meanwhile w p prev n reply :
  applying w → 0 ≤ commitIndex (node w) < 2 ^ 64 - 1 →
  meanwhile w (final (appendReply p prev n reply w)).
Proof.
  intros Hw Hc. pose proof Hw as [Hmu Hch Hla Hci Hmax].
  enough (wp (appendReply p prev n reply) (λ _ w', meanwhile w w') (λ _, False) (λ _, False) w)
    as (a & w' & -> & ?)%wp_returns by done.
  unfold appendReply. wp_run. wp_cases; wp_run.
  { expose. wp_run. split; [by split|..]; simpl; (done || lia). }
  wp_cases; wp_run; [split; [by split|..]; simpl; (done || lia)|].
  wp_cases; wp_run.
  - rewrite updateCommitIndex_eq by (simpl; lia).
    match goal with |- context [commitLoop _ _ ?x] =>
      destruct (commitLoop_spec (length (log (node w))) x) as (c & pc & cl & Heq & Hle & Hall & _) end;
      [simpl; lia|unfold len; simpl; lia|].
    simpl in *. rewrite Heq. wp_run. split; [split|..]; simpl; try (done || lia).
    + destruct (decide (c = commitIndex (node w))) as [->|]; [done|].
      destruct (Hall c) as (e & He & _); [lia|]. apply at_Some in He. simpl in He. lia.
    + unfold in_flight. simpl. by rewrite omap_app, app_nil_r.
  - apply wp_when; intros; wp_run; (split; [split|..]); simpl; try (done || lia).
    unfold in_flight. simpl. by rewrite omap_app, app_nil_r.
Qed.

(** C13: What reaches the state machine.  However the application goroutines
    interleave with each other and with operations that keep the committed
    entries (submitted commands and replies of followers are such), what was
    sent on [applyCh] together with what a goroutine holds for sending is a
    rearrangement of what it was before and the data entries that
    [lastApplied] has passed: no entry is lost, repeated or sent uncommitted.
    As long as at most one entry is held at a time, it is the order of the
    log.  A run that is alone gets to the commit index, and then exactly the
    committed data entries were sent. *)
Theorem applyCommittedEntries_delivers w w' :
  applying w →
  let passed w' := filter is_data
    (between (log (node w')) (lastApplied (node w)) (lastApplied (node w'))) in
  (rtc delivery_step w w' →
     lastApplied (node w) ≤ lastApplied (node w') ≤ commitIndex (node w') ∧
     applied w' ++ in_flight w' ≡ₚ (applied w ++ in_flight w) ++ passed w') ∧
  (rtc (orderly delivery_step) w w' →
     applied w' ++ in_flight w' = (applied w ++ in_flight w) ++ passed w') ∧
  (∀ i, tasks w !! i = Some TApply → in_flight w = [] →
     ∃ w1, rtc apply_step w w1 ∧ in_flight w1 = [] ∧
       lastApplied (node w1) = commitIndex (node w) ∧
       applied w1 = applied w ++ filter is_data
         (between (log (node w)) (lastApplied (node w)) (commitIndex (node w)))).
Proof.
  intros Hw passed.
  assert (∀ w', rtc (orderly delivery_step) w w' → sent w' = sent w ++ passed w') as Hord.
  { intros w1 H. eapply (moved_taken eq); [done|].
    refine (moved_steps eq _ (orderly delivery_step) _ _ _ Hw H); [by intros ??? ->|].
    intros a b Ha [Hle Hs]. apply delivery_moved; [apply _| |intros k l l' Hl; by rewrite Hl|done..].
    intros l1 e l2 E. rewrite E in Hle. destruct l1; [done|]. rewrite length_app in Hle. simpl in Hle. lia. }
  split_and!; [|apply Hord|].
  - intros H. assert (moved (≡ₚ) w w') as Hm.
    { refine (moved_steps (≡ₚ) _ delivery_step _ _ _ Hw H); [by intros ??? ->|].
      intros a b Ha Hs. apply delivery_moved; [apply _| |intros k l l' Hl; by rewrite Hl|done..].
      intros l1 e l2 _. apply Permutation_middle. }
    split; [destruct Hm as (Ha & ? & _); destruct Ha; lia|]. by apply (moved_taken (≡ₚ)).
  - intros i Hi Hf. destruct (run_alone w i Hw Hi Hf) as (w1 & Hr & Hf1 & Hl1 & Hc1 & Hlog1).
    exists w1. split; [eapply rtc_subrel; [|exact Hr]; by intros ?? [_ ?]|]. do 2 (split; [done|]).
    assert (sent w1 = sent w ++ passed w1) as Hs.
    { apply Hord. eapply rtc_subrel; [|exact Hr]. intros ?? [??]. split; [done|by left]. }
    unfold sent, passed in Hs. by rewrite Hf, Hf1, !app_nil_r, Hl1, Hlog1 in Hs.
Qed.

(** A node that has two entries to deliver, and two runs started for them. *)
Definition demo_two : World :=
  go TApply (go TApply (upd (λ r, r <| commitIndex := 2 |>) (demo_log [demo_entry 2 1; demo_entry 2 2]))).

(** The first run takes entry 1, the second one entry 2. *)
Definition demo_both : World :=
  final (applyCommittedEntries (take_task 0 (final (applyCommittedEntries (take_task 0 demo_two))))).

Lemma demo_two_applying : applying demo_two.
Proof. split; try reflexivity; vm_compute; split; discriminate. Qed.

Lemma demo_both_steps : rtc apply_step demo_two demo_both.
Proof. eapply rtc_l; [by apply (as_run _ 0)|]. apply rtc_once. by apply (as_run _ 0). Qed.

Lemma applyCommittedEntries_delivers_witness :
  applied demo_both ++ in_flight demo_both ≡ₚ [demo_entry 2 1; demo_entry 2 2] ∧
  (let w := upd (λ r, r <| commitIndex := 3 |> <| lastApplied := 1 |>)
     (go TApply (demo_log [demo_entry 1 1; mkLogEntry 1 2 EntryType_CONF_CHANGE "" 0 [] None;
                           demo_entry 1 3; demo_entry 1 4])) in
   ∃ w1, rtc apply_step w w1 ∧ applied w1 = [demo_entry 1 3]).
Proof.
  split.
  - destruct (applyCommittedEntries_delivers demo_two demo_both) as (H & _ & _); [apply demo_two_applying|].
    destruct H as [_ H]; [eapply rtc_subrel; [|apply demo_both_steps]; intros ? ? ?; left; assumption|].
    exact H.
  - intros w. destruct (applyCommittedEntries_delivers w w) as (_ & _ & H);
      [split; try reflexivity; vm_compute; split; discriminate|].
    destruct (H 0%nat) as (w1 & H1 & _ & _ & H2); [reflexivity|reflexivity|].
    exists w1. split; [exact H1|exact H2].
Defined.

(** Runs that overlap can deliver out of order: the goroutine that holds
    entry 2 may be the first to send. *)
Lemma overlapping_runs_reorder :
  ∃ w', rtc apply_step demo_two w' ∧ in_flight w' = [] ∧
        applied w' = [demo_entry 2 2; demo_entry 2 1].
Proof.
  exists (final (applySend false (demo_entry 2 1) (take_task 0
    (final (applySend false (demo_entry 2 2) (take_task 1 demo_both)))))).
  split; [|by vm_compute].
  etrans; [apply demo_both_steps|]. eapply rtc_l; [by apply (as_send _ 1)|].
  apply rtc_once. by apply (as_send _ 0).
Qed.

End RaftApply.
