(* ===== verification/RaftData.v ===== *)
(** * A node without membership changes

    The log of a node that starts with data entries only, and receives data
    entries only, keeps data entries only: in memory, in the log file and in
    the messages it sends; and its configuration stays the stable one it
    started with.  Every operation of [Raft] but [AddNode] and [RemoveNode]
    preserves this. *)

From Stdlib Require Import ZArith Lia Strings.Byte.
From stdpp Require Import base tactics list gmap strings fin_maps.
From S2P Require Import Prelude GoLib Raft RaftProps RaftApply.

Open Scope Z_scope.

Module RaftData.

Import Int Raft RaftProps RaftApply.

(** ** The invariant *)

Definition data_msg (m : Gob.msg LogEntry) : Prop :=
  match m with Gob.TypeDef => True | Gob.Value e => is_data e end.

Definition data_task (t : Task) : Prop :=
  match t with
  | TAppend _ args => Forall is_data (aa_Entries args)
  | TSnapshot _ args => Forall data_msg (sa_Data args)
  | _ => True
  end.

Record clean (w : World) : Prop := {
  cl_log : Forall is_data (log (node w));
  cl_config : configState (node w) = ConfigStable;
  cl_file : Forall data_msg (logFile (disk w));
  cl_state : ∀ st, stateFile (disk w) = Some st → ps_ConfigState st = ConfigStable;
  cl_tasks : Forall data_task (tasks w);
}.

Definition keeps_clean (w w' : World) : Prop := clean w → clean w'.

#[export] Instance keeps_clean_preorder : PreOrder keeps_clean.
Proof. split; [by intros w H|]. intros w1 w2 w3 H1 H2 H. by apply H2, H1. Qed.

Lemma encode_data l : Forall is_data l → Forall data_msg (Gob.encode_all l).
Proof.
  intros Hl. destruct l as [|e l]; [constructor|]. constructor; [done|].
  apply Forall_fmap. eapply Forall_impl; [exact Hl|]. done.
Qed.

Lemma decode_data b s : Forall data_msg s → Forall is_data (Gob.decode_all b s).
Proof.
  intros Hs. revert b. induction Hs as [|m s Hm _ IH]; intros b; [constructor|].
  destruct m, b; simpl; auto using Forall_nil_2, Forall_cons_2.
Qed.

Lemma appendLoop_data prev i es l :
  Forall is_data es → Forall is_data l → Forall is_data (appendLoop prev i es l).
Proof.
  intros Hes. revert i l. induction Hes as [|e es He _ IH]; intros i l Hl; simpl; [done|].
  apply IH. repeat case_match; try done; apply Forall_app; split; auto using Forall_take.
Qed.

(** ** The helpers *)

Lemma upd_clean f w w' :
  (∀ r, Forall is_data (log r) → Forall is_data (log (f r))) →
  (∀ r, configState (f r) = configState r) → keeps_clean w w' → keeps_clean w (upd f w').
Proof.
  intros Hl Hc H Hw. destruct (H Hw). split; simpl; auto. by rewrite Hc.
Qed.

Lemma outside_clean w w1 w' :
  node w' = node w1 → disk w' = disk w1 → tasks w' = tasks w1 → keeps_clean w w1 → keeps_clean w w'.
Proof. intros H1 H2 H3 H Hw. destruct (H Hw). split; by rewrite ?H1, ?H2, ?H3. Qed.

Lemma go_clean t w w' : data_task t → keeps_clean w w' → keeps_clean w (go t w').
Proof.
  intros Ht H Hw. destruct (H Hw). split; try done. simpl. apply Forall_app. auto.
Qed.

Lemma take_task_clean i w : keeps_clean w (take_task i w).
Proof.
  intros []. split; try done. simpl. apply Forall_app. split; [by apply Forall_take|by apply Forall_drop].
Qed.

Lemma saveState_clean w w' : keeps_clean w w' → keeps_clean w (saveState w').
Proof.
  intros H Hw. destruct (H Hw) as [Hl Hc Hf Hs Ht]. clear H Hw.
  unfold saveState, appendLogEntries. simpl.
  assert (∀ k, Forall data_msg (Gob.encode_all (drop k (log (node w'))))) as He
    by (intros; by apply encode_data, Forall_drop).
  repeat case_match; split; simpl; try done; try (intros; by simplify_eq/=);
    apply Forall_app; auto using Forall_take.
Qed.

Lemma clearPending_clean w w' : keeps_clean w w' → keeps_clean w (clearPending w').
Proof. intros H. rewrite clearPending_frame. apply upd_clean; [done..|]. by apply (outside_clean _ w'). Qed.

Lemma becomeFollower_clean t w w' : keeps_clean w w' → keeps_clean w (becomeFollower t w').
Proof.
  intros H. unfold becomeFollower, resetElectionTimer.
  apply saveState_clean, upd_clean; [done..|]. apply clearPending_clean, upd_clean; done.
Qed.

Lemma sendHeartbeats_clean w w' : keeps_clean w w' → keeps_clean w (sendHeartbeats w').
Proof.
  intros H. unfold sendHeartbeats, resetHeartbeatTimer. apply upd_clean; [done..|].
  apply foldl_inv; [|done]. intros w1 a H1. by apply go_clean.
Qed.

Lemma becomeLeader_clean w w' : keeps_clean w w' → keeps_clean w (becomeLeader w').
Proof.
  intros H. unfold becomeLeader, startISRTicker, resetHeartbeatTimer. do 2 (apply upd_clean; [done..|]).
  apply sendHeartbeats_clean, clearPending_clean, upd_clean; done.
Qed.

Lemma commitLoop_clean fuel n w w' : keeps_clean w w' → keeps_clean w (commitLoop fuel n w').
Proof.
  revert n w'. induction fuel as [|fuel IH]; intros n w' H; simpl; [done|].
  repeat (case_match; [|done]). apply IH. unfold commitAt. simpl.
  case_match; [|by apply upd_clean]. apply upd_clean; [done..|].
  apply (outside_clean _ (upd (λ r, r <| commitIndex := n |>) w')); try done. by apply upd_clean.
Qed.

Lemma updateCommitIndex_clean w w' : keeps_clean w w' → keeps_clean w (updateCommitIndex w').
Proof. intros H. unfold updateCommitIndex. by apply go_clean, commitLoop_clean. Qed.

(** ** The operations *)

Lemma Lock_clean : follows keeps_clean Lock.
Proof. intros w. unfold Lock. case_match; simpl; [done|by apply upd_clean]. Qed.
Lemma Unlock_clean : follows keeps_clean Unlock.
Proof. intros w. unfold Unlock. case_match; simpl; [by apply upd_clean|done]. Qed.
Lemma RLock_clean : follows keeps_clean RLock.
Proof. intros w. unfold RLock. by case_match. Qed.
Lemma makeChan_clean : follows keeps_clean makeChan.
Proof. intros w. by apply (outside_clean _ w). Qed.

#[local] Hint Resolve Lock_clean Unlock_clean RLock_clean makeChan_clean : mq.

Lemma snoc_data l e : Forall is_data l → is_data e → Forall is_data (l ++ [e]).
Proof. intros. apply Forall_app. by repeat constructor. Qed.

(** The goals that [follow] leaves: state changes of the operations. *)
Ltac clean_done :=
  intros; unfold resetElectionTimer, resetHeartbeatTimer, close_chan;
  repeat lazymatch goal with
    | |- keeps_clean ?w ?w => reflexivity
    | |- keeps_clean _ (saveState _) => apply saveState_clean
    | |- keeps_clean _ (becomeFollower _ _) => apply becomeFollower_clean
    | |- keeps_clean _ (becomeLeader _) => apply becomeLeader_clean
    | |- keeps_clean _ (sendHeartbeats _) => apply sendHeartbeats_clean
    | |- keeps_clean _ (updateCommitIndex _) => apply updateCommitIndex_clean
    | |- keeps_clean _ (go _ _) => apply go_clean; [done|]
    | |- keeps_clean _ (upd _ _) =>
        apply upd_clean; [intros; simpl; (assumption || (apply snoc_data; [assumption|reflexivity]))
          |intros; reflexivity|]
    | |- keeps_clean _ (foldl _ _ _) => apply foldl_inv; [intros|]
    | |- keeps_clean _ (?w1 <| nextChan ::= _ |>) => apply (outside_clean _ w1); [reflexivity..|]
    | |- keeps_clean _ (?w1 <| applied ::= _ |>) => apply (outside_clean _ w1); [reflexivity..|]
    | |- keeps_clean _ (?w1 <| closed ::= _ |>) => apply (outside_clean _ w1); [reflexivity..|]
    | |- keeps_clean _ (?w1 <| elections ::= _ |>) => apply (outside_clean _ w1); [reflexivity..|]
    | |- keeps_clean _ (?w1 <| nextElection ::= _ |>) => apply (outside_clean _ w1); [reflexivity..|]
    end; try done.
Ltac clean_follow := follow; clean_done.

(** A data entry is no configuration entry, so nothing but the apply index
    changes. *)
Lemma applyNext_clean fuel w :
  clean w → wp (applyNext fuel) (λ _, clean) clean clean w.
Proof.
  revert w. induction fuel as [|fuel IH]; intros w Hw; cbn [applyNext]; wp_run; [done|].
  apply wp_if; intros _; wp_run; [|done].
  match goal with |- wp _ _ _ _ ?x => assert (clean x) as Hx end.
  { revert Hw. apply upd_clean; done. }
  apply wp_of_option; [intros e He|done].
  assert (is_data e) as Hd.
  { apply at_Some in He as [_ He]. by apply (Forall_lookup_1 _ _ _ _ (cl_log _ Hx) He). }
  unfold is_data in Hd. rewrite Hd. change (bool_decide _ || bool_decide _) with false.
  apply wp_if; intros E; [done|]. apply wp_if; intros _; [by wp_run|by apply IH].
Qed.

Lemma applyNext_keeps fuel : follows keeps_clean (applyNext fuel).
Proof.
  intros w Hw. pose proof (applyNext_clean fuel w Hw) as H. unfold wp in H. by destruct (applyNext fuel w).
Qed.

#[local] Hint Resolve applyNext_keeps : mq.

Lemma applyCommittedEntries_clean : follows keeps_clean applyCommittedEntries.
Proof. unfold applyCommittedEntries. clean_follow. Qed.

Lemma applySend_clean stop e : follows keeps_clean (applySend stop e).
Proof. unfold applySend. clean_follow. Qed.

#[local] Hint Resolve applyCommittedEntries_clean applySend_clean : mq.

Lemma startElection_clean : follows keeps_clean startElection.
Proof. unfold startElection. clean_follow. Qed.

#[local] Hint Resolve startElection_clean : mq.

Lemma RequestVote_clean args : follows keeps_clean (RequestVote args).
Proof. unfold RequestVote. clean_follow. Qed.

Lemma AppendEntries_clean args :
  Forall is_data (aa_Entries args) → follows keeps_clean (AppendEntries args).
Proof.
  intros Ha. unfold AppendEntries. clean_follow.
  apply upd_clean; [intros; simpl; by apply appendLoop_data|done..].
Qed.

Lemma InstallSnapshot_clean args :
  Forall data_msg (sa_Data args) → follows keeps_clean (InstallSnapshot args).
Proof.
  intros Ha. unfold InstallSnapshot. clean_follow. apply upd_clean; [|done..]. simpl. intros r Hr.
  apply Forall_app. split; [by apply Forall_take|by apply decode_data].
Qed.

Lemma SubmitCommand_clean t p d : follows keeps_clean (SubmitCommand t p d).
Proof. unfold SubmitCommand. clean_follow. Qed.

Lemma voteReply_clean el p t reply : follows keeps_clean (voteReply el p t reply).
Proof. unfold voteReply. clean_follow. Qed.

Lemma voteWait_clean t : follows keeps_clean (voteWait t).
Proof. unfold voteWait. clean_follow. Qed.

Lemma onElectionTimer_clean : follows keeps_clean onElectionTimer.
Proof. unfold onElectionTimer. clean_follow. Qed.

Lemma onHeartbeatTimer_clean : follows keeps_clean onHeartbeatTimer.
Proof. unfold onHeartbeatTimer. clean_follow. Qed.

Lemma checkISR_clean : follows keeps_clean checkISR.
Proof. unfold checkISR. clean_follow. Qed.

Lemma appendReply_clean p prev n reply : follows keeps_clean (appendReply p prev n reply).
Proof. unfold appendReply. clean_follow. Qed.

Lemma snapshotReply_clean p i reply : follows keeps_clean (snapshotReply p i reply).
Proof. unfold snapshotReply. clean_follow. Qed.

(** Nothing is appended in a stable configuration. *)
Lemma appendStableConfig_clean l : follows keeps_clean (appendStableConfig l).
Proof.
  intros w Hw. assert (wp (appendStableConfig l) (λ _, clean) clean clean w) as H.
  { unfold appendStableConfig. apply wp_bind. unfold wp at 1, Lock.
    destruct (mu (node w)); [done|]. wp_run.
    apply wp_if; intros E; [|simpl in E; by rewrite (cl_config _ Hw), orb_true_r in E]. wp_run. revert Hw. by do 2 (apply upd_clean; [done..|]). }
  unfold wp in H. by destruct (appendStableConfig l w).
Qed.

(** The messages sent to the followers carry what the log has. *)
Ltac clean_wp :=
  repeat (lazymatch goal with
    | |- wp Lock _ _ _ _ => apply wp_Lock_any; [clean_state|]
    | |- wp RLock _ _ _ _ => apply wp_RLock_any; [clean_state|]
    | |- wp Unlock _ _ _ _ => apply wp_Unlock_any; [clean_state|]
    | |- wp (of_option _) _ _ _ _ => apply wp_of_option; [intros|intros; clean_state]
    | |- wp (if _ then _ else _) _ _ _ _ => wp_cases
    | |- wp (when _ _) _ _ _ _ => wp_cases
    | |- wp _ _ _ _ _ => wp_step
    end; cbv beta)
with clean_state := match goal with Hw : clean ?w |- clean ?x =>
    cut (keeps_clean w x); [intros HK; exact (HK Hw)|clean_done] end.

Lemma sendAppendEntries_clean p w :
  clean w → wp (sendAppendEntries p) (λ a w', clean w' ∧
    ∀ args, a = Some args → Forall is_data (aa_Entries args)) clean clean w.
Proof.
  intros Hw. pose proof (cl_log _ Hw) as Hl. unfold sendAppendEntries. clean_wp.
  all: split; [clean_state|]; intros ? [=]; subst; simpl.
  all: match goal with H : (if _ then Some (drop _ _) else None) = Some _ |- _ =>
         destruct (_ <=? _) in H; simplify_eq; simpl; by apply Forall_drop end.
Qed.

Lemma sendSnapshot_clean p w :
  clean w → wp (sendSnapshot p) (λ a w', clean w' ∧
    ∀ args, a = Some args → Forall data_msg (sa_Data args)) clean clean w.
Proof.
  intros Hw. pose proof (cl_log _ Hw) as Hl. unfold sendSnapshot, createSnapshot, RUnlock. clean_wp.
  all: split; [clean_state|]; intros ? [=]; subst; simpl.
  by apply encode_data.
Qed.

(** ** Starting *)

Lemma NewRaftNode_clean self ps ch dir d fl :
  Forall data_msg (logFile d) → (∀ st, stateFile d = Some st → ps_ConfigState st = ConfigStable) →
  clean (NewRaftNode self ps ch dir d fl).
Proof.
  intros Hf Hs. assert (Forall is_data [sentinel]) as H0 by (by repeat constructor).
  unfold NewRaftNode, resetHeartbeatTimer, resetElectionTimer, loadState, loadLogEntries. simpl.
  destruct (bool_decide _); [by split|]. destruct (stateFile d) as [st|] eqn:E; [|by split; simpl; rewrite ?E].
  destruct (logFile d) as [|m l] eqn:El; split; simpl; rewrite ?E, ?El; auto.
  constructor; [done|]. by apply (decode_data false (m :: l)).
Qed.

End RaftData.
