(* ===== verification/RaftPersist.v ===== *)
(** * Persistence, snapshots and channels of a Raft node

    Theorems about [saveState], [loadState], [InstallSnapshot] and the
    commit channels of [Raft]: what a restart recovers, what a snapshot
    installs, and that no channel is closed twice. *)

From Stdlib Require Import ZArith Lia Strings.Byte.
From stdpp Require Import base tactics list gmap strings fin_maps.
From S2P Require Import Prelude GoLib Raft RaftProps.

Open Scope Z_scope.

Module RaftPersist.

Import Int Raft RaftProps.

(** ** Restart *)

Lemma saveState_stateFile w :
  dataDir (node w) ≠ "" → faults w = no_faults →
  let r := node w in
  stateFile (disk (saveState w)) =
    Some (mkPersistentState (currentTerm r) (votedFor r) (commitIndex r) (lastApplied r)
            (len (log r)) (configState r) (currentConfig r) (newConfig r) (persistedIndex r)).
Proof.
  intros Hd Hf. destruct w as [r d fl cl nc ap ts els ne]. simpl in *. subst fl.
  unfold saveState, appendLogEntries. simpl. rewrite !bool_decide_eq_false_2 by done. by case_match.
Qed.

Lemma saveState_disk w :
  dataDir (node w) ≠ "" → faults w = no_faults → 0 ≤ persistedIndex (node w) < 2 ^ 63 - 1 →
  let r := node w in
  disk (saveState w) = mkDisk
    (Some (mkPersistentState (currentTerm r) (votedFor r) (commitIndex r) (lastApplied r)
             (len (log r)) (configState r) (currentConfig r) (newConfig r) (persistedIndex r)))
    (logFile (disk w) ++ Gob.encode_all (drop (Z.to_nat (persistedIndex r + 1)) (log r))) ∧
  persistedIndex (node (saveState w)) = uint64 (len (log r) - 1).
Proof.
  intros Hd Hf Hp. destruct w as [r d fl cl nc ap ts els ne]. simpl in *. subst fl.
  unfold saveState, appendLogEntries. simpl. rewrite !bool_decide_eq_false_2 by done. simpl.
  rewrite (int64_small (persistedIndex r)), int64_small by lia.
  by rewrite (proj2 (Z.ltb_ge (persistedIndex r + 1) 0)) by lia.
Qed.

(** C21: What a restart recovers.  A node that saved its state without a file
    error and starts again on that disk has the term, the vote, the commit
    and apply indices and the configurations it saved, and is a follower
    with no lock held. *)
Theorem restart_recovers_state w self ps ch dir fl :
  dataDir (node w) ≠ "" → faults w = no_faults → 0 ≤ persistedIndex (node w) → dir ≠ "" →
  let r := node w in
  let r' := node (NewRaftNode self ps ch dir (disk (saveState w)) fl) in
  currentTerm r' = currentTerm r ∧ votedFor r' = votedFor r ∧
  commitIndex r' = commitIndex r ∧ lastApplied r' = lastApplied r ∧
  configState r' = configState r ∧ currentConfig r' = currentConfig r ∧
  newConfig r' = newConfig r ∧ state r' = Follower ∧ mu r' = false.
Proof.
  intros Hd Hf Hp Hdir r r'. subst r'. unfold NewRaftNode, loadState, loadLogEntries. simpl.
  rewrite (saveState_stateFile w Hd Hf), !bool_decide_eq_false_2 by done. simpl.
  by destruct (logFile _).
Qed.

Definition demo_saved : World :=
  upd (λ r, r <| currentTerm := 4 |> <| votedFor := "b" |> <| commitIndex := 1 |>
              <| log := [sentinel; demo_entry 4 1] |>)
    (NewRaftNode "a" ["a"; "b"; "c"] true "/data" (mkDisk None []) no_faults).

Lemma restart_recovers_state_witness :
  let r' := node (NewRaftNode "a" ["a"; "b"; "c"] true "/data" (disk (saveState demo_saved)) no_faults) in
  currentTerm r' = 4 ∧ votedFor r' = "b".
Proof.
  destruct (restart_recovers_state demo_saved "a" ["a"; "b"; "c"] true "/data" no_faults) as (H1 & H2 & _);
    [discriminate|reflexivity|vm_compute; discriminate|discriminate|].
  split; [exact H1|exact H2].
Defined.

(** The log of a node that starts on the disk [d]. *)
Definition recovered_log (self : string) (ps : list string) (dir : string) (d : Disk) : list LogEntry :=
  log (node (NewRaftNode self ps true dir d no_faults)).

Lemma recovered_log_eq self ps dir st lf :
  dir ≠ "" → recovered_log self ps dir (mkDisk (Some st) lf) = sentinel :: Gob.decode_all false lf.
Proof.
  intros Hdir. unfold recovered_log, NewRaftNode, loadState, loadLogEntries. simpl.
  rewrite !bool_decide_eq_false_2 by done. simpl. by destruct lf.
Qed.

(** Only the entries of the first save survive a restart.  Each save
    appends the output of a fresh encoder to the log file and the decoder
    stops at the second one, so the entries [es1] of the first save that has
    any are recovered and the entries [es2] saved later are lost, although
    the recovered commit index may cover them. *)
Theorem restart_loses_later_saves w es1 es2 self ps dir :
  dataDir (node w) ≠ "" → faults w = no_faults → dir ≠ "" →
  persistedIndex (node w) = 0 → logFile (disk w) = [] → log (node w) = sentinel :: es1 →
  es1 ≠ [] → len (es1 ++ es2) < 2 ^ 63 - 1 →
  let w1 := saveState w in
  let w2 := saveState (upd (λ r, r <| log ::= λ l, l ++ es2 |>) w1) in
  recovered_log self ps dir (disk w1) = sentinel :: es1 ∧
  recovered_log self ps dir (disk w2) = sentinel :: es1.
Proof.
  intros Hd Hf Hdir Hpi Hlf Hlog Hne Hmax w1 w2.
  rewrite len_app in Hmax. pose proof (len_nonneg es1). pose proof (len_nonneg es2).
  destruct (saveState_disk w) as [Hd1 Hp1]; [done|done|lia|].
  rewrite Hpi, Hlf, Hlog in Hd1. rewrite Hlog in Hp1. simpl in Hd1.
  replace (len (sentinel :: es1) - 1) with (len es1) in Hp1 by (unfold len; simpl; lia).
  rewrite uint64_small in Hp1 by lia.
  destruct (saveState_frame w) as (p & d & Hw1).
  assert (node w1 = node w <| persistedIndex := p |> ∧ faults w1 = faults w) as [Hn1 Hf1].
  { subst w1. rewrite Hw1. by destruct w. }
  split.
  - subst w1. rewrite Hd1, recovered_log_eq by done. by rewrite Gob.decode_encode.
  - destruct (saveState_disk (upd (λ r, r <| log ::= λ l, l ++ es2 |>) w1)) as [Hd2 _];
      [simpl; by rewrite Hn1|by simpl; rewrite Hf1|simpl; subst w1; rewrite Hp1; lia|].
    subst w2. rewrite Hd2, recovered_log_eq by done. simpl. subst w1. rewrite Hd1, Hp1, Hn1. simpl.
    rewrite Hlog. replace (Z.to_nat (len es1 + 1)) with (S (length es1)) by (unfold len; lia).
    simpl. rewrite drop_app_length. by rewrite Gob.decode_encode_app.
Qed.

Lemma restart_loses_later_saves_witness :
  let w2 := saveState (upd (λ r, r <| log ::= λ l, l ++ [demo_entry 4 2] |>) (saveState demo_saved)) in
  recovered_log "a" ["a"; "b"; "c"] "/data" (disk w2) = [sentinel; demo_entry 4 1].
Proof.
  apply (restart_loses_later_saves demo_saved [demo_entry 4 1] [demo_entry 4 2] "a" ["a"; "b"; "c"] "/data");
    (reflexivity || discriminate).
Defined.

(** ** Snapshots *)

(** An installed snapshot is shifted by one.  The snapshot holds the whole
    log of the leader, its entry 0 included, and the receiver puts it after
    its own entry 0: the entry of index [i] of the leader's log [l] ends up
    at index [i + 1], and the commit index points one entry too low. *)
Theorem InstallSnapshot_shifts w (leader : World) l args e0 :
  mu (node leader) = false → log (node leader) = l → l ≠ [] →
  createSnapshot leader = Ret (sa_Data args) leader →
  mu (node w) = false → head (log (node w)) = Some e0 →
  currentTerm (node w) ≤ sa_Term args →
  commitIndex (node w) < sa_LastIncludedIndex args → sa_LastIncludedIndex args = len l - 1 →
  ∃ w', InstallSnapshot args w = Ret (mkInstallSnapshotReply (sa_Term args) true) w' ∧
        mu (node w') = false ∧ log (node w') = e0 :: l ∧
        (∀ i, log (node w') !! S i = l !! i) ∧
        commitIndex (node w') = len (log (node w')) - 2.
Proof.
  intros Hml Hl Hne Hsnap Hmu Hhd Hterm Hci Hli.
  assert (sa_Data args = Gob.encode_all l) as Hdata.
  { unfold createSnapshot, mbind, prog_bind, RLock in Hsnap. rewrite Hml in Hsnap.
    injection Hsnap as <-. by rewrite <- Hl. }
  enough (wp (InstallSnapshot args) (λ a w', a = mkInstallSnapshotReply (sa_Term args) true ∧
    mu (node w') = false ∧ log (node w') = e0 :: l ∧ commitIndex (node w') = sa_LastIncludedIndex args)
    (λ _, False) (λ _, False) w) as (a & w' & H & -> & ? & Hlog & Hc)%wp_returns.
  { exists w'. split_and!; try done; [by intros; rewrite Hlog|].
    rewrite Hc, Hlog, Hli. unfold len. simpl. lia. }
  unfold InstallSnapshot. wp_run. wp_cases; [simpl in *; lia|].
  wp_run. apply wp_stepDown; [done|]. intros w1 [Hmu1 Ht1 Hlog1 Hci1 _ _ _ _]. simpl in *.
  wp_run. wp_cases; [simpl in *; lia|]. wp_run. expose. wp_run. simpl.
  rewrite Hlog1, Hdata, Gob.decode_encode, Ht1. split_and!; try done.
  destruct (log (node w)) as [|e l']; simpl in *; [done|]. by simplify_eq.
Qed.

Lemma InstallSnapshot_shifts_witness :
  let args := mkInstallSnapshotArgs 4 "b" 1 4 (Gob.encode_all [sentinel; demo_entry 4 1]) in
  ∃ w', InstallSnapshot args demo_node = Ret (mkInstallSnapshotReply 4 true) w' ∧
        log (node w') = [sentinel; sentinel; demo_entry 4 1] ∧ commitIndex (node w') = 1.
Proof.
  intros args. destruct (InstallSnapshot_shifts demo_node demo_saved [sentinel; demo_entry 4 1] args sentinel)
    as (w' & H1 & _ & H2 & _ & H3);
    [reflexivity|reflexivity|discriminate|reflexivity|reflexivity|reflexivity|vm_compute; discriminate|
     reflexivity|reflexivity|].
  exists w'. split; [exact H1|]. split; [exact H2|]. rewrite H3, H2. reflexivity.
Defined.

(** ** Commit channels *)

(** Closing a closed channel panics.  The invariant: the channels that were
    closed are distinct, and those still pending are distinct, open, and all
    of them were made by the node. *)
Record chans_ok (w : World) : Prop := {
  co_nodup : NoDup (closed w);
  co_closed : ∀ ch, ch ∈ closed w → ch < nextChan w;
  co_pending : ∀ n ch, pendingCommit (node w) !! n = Some ch → ch < nextChan w ∧ ch ∉ closed w;
  co_inj : ∀ n1 n2 ch, pendingCommit (node w) !! n1 = Some ch →
             pendingCommit (node w) !! n2 = Some ch → n1 = n2;
}.

Definition keeps_chans (w w' : World) : Prop := chans_ok w → chans_ok w'.

#[export] Instance keeps_chans_preorder : PreOrder keeps_chans.
Proof. split; [by intros w H|]. intros w1 w2 w3 H1 H2 H. by apply H2, H1. Qed.

Lemma keeps_chans_same w w' :
  closed w' = closed w → nextChan w' = nextChan w →
  pendingCommit (node w') = pendingCommit (node w) → keeps_chans w w'.
Proof. intros H1 H2 H3 [????]. split; rewrite ?H1, ?H2, ?H3; done. Qed.

Lemma upd_chans f w w' :
  (∀ r, pendingCommit (f r) = pendingCommit r) → keeps_chans w w' → keeps_chans w (upd f w').
Proof. intros Hf H. etrans; [exact H|]. apply keeps_chans_same; [done..|apply Hf]. Qed.

Lemma clearPending_chans w : keeps_chans w (clearPending w).
Proof.
  intros [Hnd Hcl Hpe Hinj]. rewrite clearPending_frame.
  assert (∀ ch, ch ∈ (map_to_list (pendingCommit (node w))).*2 →
    ∃ n, pendingCommit (node w) !! n = Some ch) as Hin.
  { intros ch ([n ch'] & -> & H%elem_of_map_to_list)%list_elem_of_fmap. eauto. }
  split; simpl.
  - apply NoDup_app. split_and!; [|intros ch [n ?]%elem_of_reverse%Hin; by eapply Hpe|done].
    rewrite reverse_Permutation. apply NoDup_fmap_2_strong; [|apply NoDup_map_to_list].
    intros [n1 ?] [n2 ?] H1%elem_of_map_to_list H2%elem_of_map_to_list ?. simplify_eq/=.
    f_equal. by eapply Hinj.
  - intros ch [[n ?]%elem_of_reverse%Hin|?]%elem_of_app; [by eapply Hpe|auto].
  - intros n ch. by rewrite lookup_empty.
  - intros n1 n2 ch. by rewrite lookup_empty.
Qed.

Lemma commitAt_chans n w : keeps_chans w (commitAt n w).
Proof.
  intros [Hnd Hcl Hpe Hinj]. unfold commitAt. simpl.
  destruct (pendingCommit (node w) !! n) as [ch|] eqn:E; [|by split].
  destruct (Hpe _ _ E) as [Hlt Hni]. split; simpl.
  - by constructor.
  - intros ch' [->|?]%elem_of_cons; auto.
  - intros m ch' [Hne Hm]%lookup_delete_Some. split; [by eapply Hpe|].
    intros [->|?]%elem_of_cons; [by apply Hne, (Hinj _ _ ch)|by eapply Hpe].
  - intros n1 n2 ch' [_ ?]%lookup_delete_Some [_ ?]%lookup_delete_Some. by eapply Hinj.
Qed.

Lemma commitLoop_chans fuel n w : keeps_chans w (commitLoop fuel n w).
Proof.
  revert n w. induction fuel as [|fuel IH]; intros n w; simpl; [done|].
  case_match; [|done]. case_match; [|done]. etrans; [apply commitAt_chans|apply IH].
Qed.

Lemma saveState_chans w w' : keeps_chans w w' → keeps_chans w (saveState w').
Proof. intros H. etrans; [exact H|]. expose. by apply keeps_chans_same. Qed.

Lemma becomeFollower_chans t w : keeps_chans w (becomeFollower t w).
Proof.
  unfold becomeFollower, resetElectionTimer. apply saveState_chans, upd_chans; [done|].
  etrans; [|apply clearPending_chans]. by apply keeps_chans_same.
Qed.

Lemma sendHeartbeats_chans w : keeps_chans w (sendHeartbeats w).
Proof. unfold sendHeartbeats. rewrite (go_all_frame TSendAppend). by apply keeps_chans_same. Qed.

Lemma becomeLeader_chans w : keeps_chans w (becomeLeader w).
Proof.
  unfold becomeLeader, startISRTicker, resetHeartbeatTimer. do 2 (apply upd_chans; [done|]).
  etrans; [|apply sendHeartbeats_chans]. etrans; [|apply clearPending_chans].
  by apply keeps_chans_same.
Qed.

Lemma applyConfig_chans e w : keeps_chans w (applyConfigChangeLocked e w).
Proof.
  unfold applyConfigChangeLocked. destruct (Type_ e), (Config e) as [c|]; try done;
    [by apply keeps_chans_same|].
  cbv zeta. match goal with |- context [foldl ?f ?a ?l] => assert (keeps_chans w (foldl f a l)) end.
  { apply foldl_inv; [|by apply keeps_chans_same]. intros w1 a H1. etrans; [exact H1|].
    unfold addLearner. case_match; [by apply keeps_chans_same|done]. }
  case_bool_decide; [|done]. etrans; [done|]. by apply keeps_chans_same.
Qed.

Lemma Lock_chans : follows keeps_chans Lock.
Proof. intros w. unfold Lock. case_match; simpl; [done|by apply keeps_chans_same]. Qed.
Lemma Unlock_chans : follows keeps_chans Unlock.
Proof. intros w. unfold Unlock. case_match; simpl; [by apply keeps_chans_same|done]. Qed.
Lemma RLock_chans : follows keeps_chans RLock.
Proof. intros w. unfold RLock. by case_match. Qed.

#[local] Hint Resolve Lock_chans Unlock_chans RLock_chans becomeFollower_chans becomeLeader_chans
  sendHeartbeats_chans applyConfig_chans saveState_chans : mq.
#[local] Hint Extern 3 (keeps_chans _ _) => apply keeps_chans_same; reflexivity : mq.

Lemma updateCommitIndex_chans w : keeps_chans w (updateCommitIndex w).
Proof. unfold updateCommitIndex. etrans; [apply commitLoop_chans|]. by apply keeps_chans_same. Qed.

Lemma startElection_chans : follows keeps_chans startElection.
Proof.
  unfold startElection. follow; intros w.
  rewrite (go_all_frame (λ p, TVote a2 p (currentTerm a0) _)). eauto with mq.
Qed.

Lemma applyNext_chans fuel : follows keeps_chans (applyNext fuel).
Proof. induction fuel as [|fuel IH]; simpl; follow. Qed.

#[local] Hint Resolve applyNext_chans : mq.

Lemma applyCommittedEntries_chans : follows keeps_chans applyCommittedEntries.
Proof. unfold applyCommittedEntries. follow. Qed.

Lemma applySend_chans stop e : follows keeps_chans (applySend stop e).
Proof. unfold applySend. follow. Qed.

#[local] Hint Resolve updateCommitIndex_chans startElection_chans applyCommittedEntries_chans applySend_chans : mq.

Lemma SubmitCommand_chans t p d : follows keeps_chans (SubmitCommand t p d).
Proof.
  apply follows_wp. intros w. unfold SubmitCommand. apply wp_bind. unfold wp at 1, Lock.
  destruct (mu (node w)) eqn:Hmu; [done|]. wp_run.
  apply wp_if; intros E; wp_run; [by apply keeps_chans_same|]. expose.
  apply wp_if; intros E2; wp_run.
  { apply wp_apply_held; [done|]. by apply keeps_chans_same. }
  etrans; [|apply sendHeartbeats_chans]. intros [Hnd Hcl Hpe Hinj].
  split; simpl; [done|..].
  - intros ch Hin. specialize (Hcl ch Hin). lia.
  - intros n ch. destruct (decide (n = len (log (node w)))) as [->|Hne].
    + rewrite lookup_insert_eq. intros [= <-]. split; [lia|]. intros ?%Hcl. lia.
    + rewrite lookup_insert_ne by done. intros [??]%Hpe. auto with lia.
  - intros n1 n2 ch. rewrite !lookup_insert.
    repeat case_decide; simplify_eq; try done; intros; simplify_eq; try done; [..|by eapply Hinj];
      match goal with H : pendingCommit _ !! _ = Some (nextChan _) |- _ => apply Hpe in H; lia end.
Qed.

Lemma NewRaftNode_chans self ps ch dir d fl : chans_ok (NewRaftNode self ps ch dir d fl).
Proof.
  unfold NewRaftNode, resetHeartbeatTimer, resetElectionTimer, loadState, loadLogEntries.
  simpl. repeat case_match; split; simpl; intros *; rewrite ?lookup_empty;
    try done; try constructor; by intros ?%not_elem_of_nil.
Qed.

(** C16: No commit channel is closed twice.  A new node satisfies, and every operation of the node, on
    every outcome, keeps the invariant that the closed channels are
    distinct and the pending ones are open, so that no [close] panics. *)
Theorem channels_closed_once :
  (∀ self ps ch dir d fl, chans_ok (NewRaftNode self ps ch dir d fl)) ∧
  (∀ args, follows keeps_chans (RequestVote args)) ∧
  (∀ args, follows keeps_chans (AppendEntries args)) ∧
  (∀ args, follows keeps_chans (InstallSnapshot args)) ∧
  (∀ t p d, follows keeps_chans (SubmitCommand t p d)) ∧
  (∀ el p t rep, follows keeps_chans (voteReply el p t rep)) ∧
  (∀ t, follows keeps_chans (voteWait t)) ∧
  follows keeps_chans onElectionTimer ∧ follows keeps_chans onHeartbeatTimer ∧
  (∀ p, follows keeps_chans (sendAppendEntries p)) ∧
  (∀ p i n rep, follows keeps_chans (appendReply p i n rep)) ∧
  (∀ p, follows keeps_chans (sendSnapshot p)) ∧
  (∀ p i rep, follows keeps_chans (snapshotReply p i rep)) ∧
  follows keeps_chans applyCommittedEntries ∧ (∀ stop e, follows keeps_chans (applySend stop e)) ∧
  (∀ o n a, follows keeps_chans (AddNode o n a)) ∧
  (∀ o n a, follows keeps_chans (RemoveNode o n a)) ∧
  (∀ o n a add, follows keeps_chans (changeConfig o n a add)) ∧
  (∀ n, follows keeps_chans (appendStableConfig n)) ∧
  follows keeps_chans checkISR.
Proof.
  split; [exact NewRaftNode_chans|].
  split_and!; intros; [..|apply SubmitCommand_chans| | | | | | | | | | | | | | |];
    unfold RequestVote, AppendEntries, InstallSnapshot, voteReply, voteWait, onElectionTimer,
      onHeartbeatTimer, sendAppendEntries, appendReply, sendSnapshot, createSnapshot, RUnlock,
      snapshotReply, AddNode, RemoveNode, AddNode_check, RemoveNode_check, changeConfig, appendStableConfig, checkISR; follow.
Qed.

End RaftPersist.
