(* ===== verification/RaftConfig.v ===== *)
(** * Membership changes and the in-sync-replica set

    Theorems about [AddNode], [RemoveNode], [changeConfig],
    [appendStableConfig], [applyConfigChangeLocked] and [checkISR] of
    [Raft]. *)

From Stdlib Require Import ZArith Lia Strings.Byte.
From stdpp Require Import base tactics list gmap strings fin_maps.
From S2P Require Import Prelude GoLib Raft RaftProps RaftApply.

Open Scope Z_scope.

Module RaftConfig.

Import Int Raft RaftProps RaftApply.

(** ** Configurations as sets *)

(** A configuration maps its members to [true] and nothing to [false]. *)
Definition all_true (m : gmap string bool) : Prop := ∀ k b, m !! k = Some b → b = true.

Lemma foldr_insert_lookup {A} (f : string → A) ks (m : gmap string A) k :
  foldr (λ k, insert k (f k)) m ks !! k = if decide (k ∈ ks) then Some (f k) else m !! k.
Proof.
  induction ks as [|k' ks IH]; simpl; [done|].
  destruct (decide (k' = k)) as [->|Hne].
  - rewrite lookup_insert_eq, decide_True by constructor. done.
  - rewrite lookup_insert_ne, IH by done.
    destruct (decide (k ∈ ks)); [rewrite decide_True by (by constructor)|]; [done|].
    rewrite decide_False; [done|]. by intros [?|?]%elem_of_cons.
Qed.

Lemma put_all_lookup {A} ks (v : A) m k :
  put_all ks v m !! k = if decide (k ∈ ks) then Some v else m !! k.
Proof. apply (foldr_insert_lookup (λ _, v)). Qed.

Lemma elem_of_keys {A} (m : gmap string A) k : k ∈ keys m ↔ is_Some (m !! k).
Proof.
  unfold keys. rewrite list_elem_of_fmap. split.
  - intros ([k' v] & -> & ?%elem_of_map_to_list). by exists v.
  - intros [v Hv]. exists (k, v). split; [done|]. by apply elem_of_map_to_list.
Qed.

Lemma members_of_dom {A} ks (m : gmap string A) :
  list_to_set (C:=gset string) ks = dom m → ∀ k, k ∈ ks ↔ is_Some (m !! k).
Proof. intros H k. by rewrite <- elem_of_dom, <- H, elem_of_list_to_set. Qed.

(** A list of the members gives the configuration back. *)
Lemma put_all_members ks m :
  all_true m → (∀ k, k ∈ ks ↔ is_Some (m !! k)) → put_all ks true ∅ = m.
Proof.
  intros Ht Hks. apply map_eq. intros k. rewrite put_all_lookup, lookup_empty.
  destruct (m !! k) as [b|] eqn:E.
  - rewrite decide_True by (apply Hks; eauto). f_equal. symmetry. eauto.
  - rewrite decide_False; [done|]. rewrite Hks, E. by intros [? ?].
Qed.

Lemma getb_None m k : all_true m → getb m k = false → m !! k = None.
Proof. intros Ht. unfold getb. destruct (m !! k) eqn:E; simpl; [|done]. intros ->. by apply Ht in E. Qed.

(** ** Applying the entries of a change *)

Definition joint_entry (term index : Z) (old new : list string) : LogEntry :=
  mkLogEntry term index EntryType_JOINT_CONSENSUS "" 0 [] (Some (mkConfigEntry old new)).
Definition stable_entry (term index : Z) (new : list string) : LogEntry :=
  mkLogEntry term index EntryType_CONF_CHANGE "" 0 [] (Some (mkConfigEntry [] new)).

(** What applying a joint entry changes, apart from the learners' tables. *)
Lemma addLearners_frame l w :
  let w' := foldl (λ w a, addLearner a w) w l in
  currentConfig (node w') = currentConfig (node w) ∧ newConfig (node w') = newConfig (node w) ∧
  configState (node w') = configState (node w) ∧ selfAddr (node w') = selfAddr (node w) ∧
  state (node w') = state (node w) ∧ tasks w' = tasks w ∧
  (∀ a, a ∈ l → a ≠ selfAddr (node w) → peers (node w) !! a = None →
        peers (node w') !! a = Some (mkPeer a true)) ∧
  (∀ a p, peers (node w) !! a = Some p → peers (node w') !! a = Some p).
Proof.
  revert w. induction l as [|b l IH]; intros w; simpl.
  { split_and!; try done. by intros a ?%not_elem_of_nil. }
  destruct (IH (addLearner b w)) as (Hc & Hn & Hs & Hself & Hst & Hts & Hnew & Hold).
  assert (∀ a p, peers (node w) !! a = Some p → peers (node (addLearner b w)) !! a = Some p) as Hold1.
  { intros a p Ha. unfold addLearner. destruct (_ && _) eqn:E; bool_to_prop; simpl; [|done].
    rewrite lookup_insert_ne; [done|]. congruence. }
  assert (selfAddr (node (addLearner b w)) = selfAddr (node w)) as Hself1.
  { unfold addLearner. by case_match. }
  rewrite Hc, Hn, Hs, Hself, Hst, Hts, Hself1. rewrite Hself1 in Hnew.
  do 6 (split; [unfold addLearner; by repeat case_match|]). split; [|eauto].
  intros a Ha Hne HNone. destruct (peers (node (addLearner b w)) !! a) as [p|] eqn:E.
  - apply Hold. rewrite E. f_equal. unfold addLearner in E.
    destruct (_ && _) in E; simpl in E; [|congruence].
    destruct (decide (b = a)) as [->|]; [by rewrite lookup_insert_eq in E; simplify_eq|].
    rewrite lookup_insert_ne in E by done. congruence.
  - apply Hnew; [|congruence|done]. apply elem_of_cons in Ha as [->|?]; [|done].
    unfold addLearner in E. destruct (_ && _) eqn:Eb in E; simpl in E;
      [by rewrite lookup_insert_eq in E|].
    apply andb_false_iff in Eb as [Eb|Eb]; bool_to_prop; done.
Qed.

Lemma apply_joint w term index old new :
  let w' := applyConfigChangeLocked (joint_entry term index old new) w in
  currentConfig (node w') = put_all old true ∅ ∧
  newConfig (node w') = Some (put_all new true ∅) ∧ configState (node w') = ConfigJoint ∧
  state (node w') = state (node w) ∧
  tasks w' = (if bool_decide (state (node w) = Leader) then tasks w ++ [TAppendStable] else tasks w) ∧
  (∀ a, a ∈ new → a ≠ selfAddr (node w) → peers (node w) !! a = None →
        peers (node w') !! a = Some (mkPeer a true)) ∧
  (∀ a p, peers (node w) !! a = Some p → peers (node w') !! a = Some p).
Proof.
  unfold applyConfigChangeLocked, joint_entry. cbn [Type_ Config NewPeers OldPeers].
  match goal with |- context [foldl _ ?a _] => set (w0 := a) end.
  destruct (addLearners_frame new w0) as (Hc & Hn & Hs & _ & Hst & Hts & Hnew & Hold).
  cbv zeta. rewrite Hst. subst w0. simpl in *. case_bool_decide; simpl; rewrite ?Hts; split_and!; auto.
Qed.

Lemma foldr_delete_lookup {A} (ks : list string) (m : gmap string A) k :
  foldr delete m ks !! k = if decide (k ∈ ks) then None else m !! k.
Proof.
  induction ks as [|k' ks IH]; simpl; [done|].
  destruct (decide (k' = k)) as [->|Hne].
  - rewrite lookup_delete_eq, decide_True by constructor. done.
  - rewrite lookup_delete_ne, IH by done.
    destruct (decide (k ∈ ks)); [rewrite decide_True by (by constructor)|]; [done|].
    rewrite decide_False; [done|]. by intros [?|?]%elem_of_cons.
Qed.

Lemma apply_stable w term index new :
  let cfg := put_all new true ∅ in
  let w' := applyConfigChangeLocked (stable_entry term index new) w in
  currentConfig (node w') = cfg ∧ newConfig (node w') = None ∧ configState (node w') = ConfigStable ∧
  (∀ a, peers (node w') !! a = if getb cfg a then peers (node w) !! a else None).
Proof.
  simpl. split_and!; try done. intros a. rewrite foldr_delete_lookup.
  destruct (decide _) as [[Hg Ha]%list_elem_of_filter|Hn]; [by rewrite Hg|].
  destruct (getb _ a) eqn:Hg; [done|].
  destruct (peers (node w) !! a) eqn:E; [|done].
  contradict Hn. apply list_elem_of_filter. split; [done|]. apply elem_of_keys. eauto.
Qed.

(** ** The requests *)

(** What [AddNode] and [RemoveNode] check of the configuration. *)
Definition allowed (add : bool) (n : string) (r : RaftNode) : Prop :=
  if add then currentConfig r !! n = None
  else currentConfig r !! n ≠ None ∧ ¬ (n = selfAddr r ∧ size (currentConfig r) = 1%nat).

Definition change_check (add : bool) : string → prog World (result unit) :=
  if add then AddNode_check else RemoveNode_check.
Definition request (add : bool) (old new : list string) (n : string) : prog World (result unit) :=
  if add then AddNode old new n else RemoveNode old new n.

Lemma request_eq add old new n w :
  request add old new n w =
  (checked ← change_check add n;
   match checked with Err e => mret (Err e) | Ok _ => changeConfig old new n add end) w.
Proof. by destruct add. Qed.

Lemma relocked w : mu (node w) = false →
  upd (λ r, r <| mu := false |>) (upd (λ r, r <| mu := true |>) w) = w.
Proof. intros Hmu. destruct w as [[]]. simpl in *. by subst. Qed.

(** The checks leave the node as it is; they pass on a leader with no change
    under way, for a node that may be added or removed. *)
Lemma change_check_spec add n w :
  mu (node w) = false → all_true (currentConfig (node w)) →
  ∃ res, change_check add n w = Ret res w ∧
    (state (node w) ≠ Leader → res = Err "not leader") ∧
    (¬ allowed add n (node w) → res ≠ Ok tt) ∧
    (state (node w) = Leader → allowed add n (node w) → configState (node w) = ConfigJoint →
       res = Err "another configuration change is in progress") ∧
    (state (node w) = Leader → allowed add n (node w) → configState (node w) = ConfigStable →
       res = Ok tt).
Proof.
  intros Hmu Ht. enough (wp (change_check add n) (λ res w', w' = w ∧
    (state (node w) ≠ Leader → res = Err "not leader") ∧
    (¬ allowed add n (node w) → res ≠ Ok tt) ∧
    (state (node w) = Leader → allowed add n (node w) → configState (node w) = ConfigJoint →
       res = Err "another configuration change is in progress") ∧
    (state (node w) = Leader → allowed add n (node w) → configState (node w) = ConfigStable →
       res = Ok tt)) (λ _, False) (λ _, False) w) as (res & w' & H1 & -> & H2)%wp_returns by eauto.
  assert (getb (currentConfig (node w)) n = true ↔ currentConfig (node w) !! n ≠ None) as Hg.
  { unfold getb. destruct (currentConfig (node w) !! n) eqn:E; simpl; [|naive_solver].
    rewrite (Ht _ _ E). naive_solver. }
  unfold change_check, allowed. destruct add; [unfold AddNode_check|unfold RemoveNode_check]; wp_run;
    repeat (wp_cases; wp_run); rewrite relocked by done; (split; [done|]); simpl in *;
    unfold msize in *; bool_to_prop;
    try (rewrite Hg in * || rewrite <- not_true_iff_false, Hg in * ); split_and!; intros; try done.
  all: try congruence; exfalso; destruct_and?; try tauto; try (apply H7; split; [done|lia]).
  apply andb_false_iff in H1 as [?|?]; bool_to_prop; apply H3; (split; [done|]); intros [??]; (done || lia).
Qed.

(** [changeConfig] as it runs after the checks. *)
Lemma changeConfig_spec w (add : bool) n old new :
  let r := node w in
  let target := if add then <[n := true]> (currentConfig r) else delete n (currentConfig r) in
  mu r = false → all_true (currentConfig r) →
  ∃ w1, changeConfig old new n add w = Ret (Ok tt) w1 ∧ mu (node w1) = false ∧
    log (node w1) = log r ++ [joint_entry (currentTerm r) (len (log r)) old new] ∧
    currentConfig (node w1) = currentConfig r ∧ newConfig (node w1) = Some target ∧
    configState (node w1) = ConfigJoint ∧ state (node w1) = state r ∧
    selfAddr (node w1) = selfAddr r ∧ peers (node w1) = peers r.
Proof.
  intros r target Hmu Ht.
  assert (put_all (keys (currentConfig r)) true ∅ = currentConfig r) as Hk
    by (apply put_all_members; [done|apply elem_of_keys]).
  enough (wp (changeConfig old new n add) (λ a w1, a = Ok tt ∧ mu (node w1) = false ∧
    log (node w1) = log r ++ [joint_entry (currentTerm r) (len (log r)) old new] ∧
    currentConfig (node w1) = currentConfig r ∧ newConfig (node w1) = Some target ∧
    configState (node w1) = ConfigJoint ∧ state (node w1) = state r ∧
    selfAddr (node w1) = selfAddr r ∧ peers (node w1) = peers r)
    (λ _, False) (λ _, False) w) as (a & w1 & Hret & -> & H)%wp_returns by eauto.
  unfold changeConfig. wp_run. expose. wp_run. simpl. fold r. rewrite Hk.
  split_and!; try done; by destruct add.
Qed.

(** The part of a node that a membership change is about: other operations
    may run between the steps of the change as long as they leave it alone. *)
Record same_config (w u : World) : Prop := {
  sc_mu : mu (node u) = mu (node w);
  sc_state : state (node u) = state (node w);
  sc_self : selfAddr (node u) = selfAddr (node w);
  sc_peers : peers (node u) = peers (node w);
  sc_current : currentConfig (node u) = currentConfig (node w);
  sc_new : newConfig (node u) = newConfig (node w);
  sc_cfg : configState (node u) = configState (node w);
}.

Lemma appendStableConfig_spec w new :
  mu (node w) = false → state (node w) = Leader → configState (node w) = ConfigJoint →
  ∃ w', appendStableConfig new w = Ret tt w' ∧ same_config w w' ∧
    log (node w') = log (node w) ++ [stable_entry (currentTerm (node w)) (len (log (node w))) new] ∧
    tasks w' = tasks w ++ (TSendAppend <$> keys (peers (node w))).
Proof.
  intros Hmu Hs Hc. enough (wp (appendStableConfig new) (λ _ w', same_config w w' ∧
    log (node w') = log (node w) ++ [stable_entry (currentTerm (node w)) (len (log (node w))) new] ∧
    tasks w' = tasks w ++ (TSendAppend <$> keys (peers (node w)))) (λ _, False) (λ _, False) w)
    as ([] & w' & H)%wp_returns by eauto.
  unfold appendStableConfig. wp_run. wp_cases; [simpl in *; apply orb_true_iff in H as [H|H]; bool_to_prop; done|].
  wp_run. expose. wp_run. unfold sendHeartbeats. rewrite (go_all_frame TSendAppend). simpl.
  split_and!; [by split|done|done].
Qed.

Lemma all_true_target (add : bool) n m :
  all_true m → all_true (if add then <[n := true]> m else delete n m).
Proof.
  intros Ht k b. destruct add.
  - intros [[_ <-]|[_ ?]]%lookup_insert_Some; eauto.
  - intros [_ ?]%lookup_delete_Some. eauto.
Qed.

(** The steps of the change after the request. *)
Section change.
Context (target : gmap string bool) (target_true : all_true target) (new new' : list string).
Context (new_target : ∀ k, k ∈ new ↔ is_Some (target !! k)) (new'_new : ∀ k, k ∈ new' ↔ k ∈ new).

(** From the stable entry on: the leader appends it and applies it. *)
Definition settles (w : World) : Prop :=
  ∃ w3, appendStableConfig new' w = Ret tt w3 ∧
    log (node w3) = log (node w) ++ [stable_entry (currentTerm (node w)) (len (log (node w))) new'] ∧
    tasks w3 = tasks w ++ (TSendAppend <$> keys (peers (node w))) ∧
    ∀ u3, same_config w3 u3 →
      let w4 := applyConfigChangeLocked (stable_entry (currentTerm (node w)) (len (log (node w))) new') u3 in
      currentConfig (node w4) = target ∧ newConfig (node w4) = None ∧
      configState (node w4) = ConfigStable ∧
      ∀ a, peers (node w4) !! a = if decide (is_Some (target !! a)) then peers (node w) !! a else None.

Lemma joint_settles w :
  mu (node w) = false → state (node w) = Leader → configState (node w) = ConfigJoint → settles w.
Proof.
  intros Hmu Hs Hc. destruct (appendStableConfig_spec w new' Hmu Hs Hc) as (w3 & Hret & Hsc & Hlog & Hts).
  exists w3. do 3 (split; [done|]). intros u3 Hu3. cbv zeta.
  destruct (apply_stable u3 (currentTerm (node w)) (len (log (node w))) new') as (-> & -> & -> & Hp).
  rewrite (put_all_members new' target) in * by (done || intros k; by rewrite new'_new, new_target).
  do 3 (split; [done|]). intros a. rewrite Hp, (sc_peers _ _ Hu3), (sc_peers _ _ Hsc). unfold getb.
  destruct (target !! a) eqn:E; simpl; [|done]. by rewrite (target_true _ _ E).
Qed.
End change.

(** C17: A membership change, from the request to the stable configuration.
    [AddNode] and [RemoveNode] refuse, leaving the node as it is, when the
    node does not lead, when the address is already (not) a member or the
    only one, and while another change is under way.  Otherwise they return
    and append a joint entry that names the old and the new members; applying
    it puts the leader in the joint state of the two configurations, keeps
    its peers, adds a new member as a learner and schedules
    [appendStableConfig], which appends the entry with the new members and
    sends it to every peer; applying that entry leaves exactly the requested
    configuration and forgets the peers outside it.  Other operations may run
    in between, as long as they leave the role and the configuration alone. *)
Theorem membership_change w (add : bool) n old new new' :
  let r := node w in
  let target := if add then <[n := true]> (currentConfig r) else delete n (currentConfig r) in
  let joint := joint_entry (currentTerm r) (len (log r)) old new in
  mu r = false → all_true (currentConfig r) →
  (∀ k, k ∈ old ↔ is_Some (currentConfig r !! k)) →
  (∀ k, k ∈ new ↔ is_Some (target !! k)) → (∀ k, k ∈ new' ↔ k ∈ new) →
  (state r ≠ Leader → request add old new n w = Ret (Err "not leader") w) ∧
  (¬ allowed add n r → ∃ e, request add old new n w = Ret (Err e) w) ∧
  (state r = Leader → allowed add n r → configState r = ConfigJoint →
     request add old new n w = Ret (Err "another configuration change is in progress") w) ∧
  (state r = Leader → allowed add n r → configState r = ConfigStable →
   ∃ w1, request add old new n w = Ret (Ok tt) w1 ∧ mu (node w1) = false ∧
     log (node w1) = log r ++ [joint] ∧
     newConfig (node w1) = Some target ∧ configState (node w1) = ConfigJoint ∧
     ∀ u1, same_config w1 u1 →
       let w2 := applyConfigChangeLocked joint u1 in
       currentConfig (node w2) = currentConfig r ∧ newConfig (node w2) = Some target ∧
       configState (node w2) = ConfigJoint ∧ tasks w2 = tasks u1 ++ [TAppendStable] ∧
       (∀ a p, peers r !! a = Some p → peers (node w2) !! a = Some p) ∧
       (add = true → n ≠ selfAddr r → peers r !! n = None →
          peers (node w2) !! n = Some (mkPeer n true)) ∧
       ∀ u2, same_config w2 u2 → settles target new' u2).
Proof.
  intros r target joint Hmu Ht Hold Hnew Hnew'.
  destruct (change_check_spec add n w Hmu Ht) as (res & Hres & H1 & H2 & H3 & H4).
  assert (∀ e, res = Err e → request add old new n w = Ret (Err e) w) as Herr.
  { intros e ->. rewrite request_eq. unfold mbind, prog_bind. by rewrite Hres. }
  split_and!; [auto|..|by auto|].
  { intros Hn%H2. destruct res as [[]|e]; [done|eauto]. }
  intros Hs Ha Hc. rewrite (H4 Hs Ha Hc) in Hres.
  destruct (changeConfig_spec w add n old new Hmu Ht) as (w1 & Hw1 & Hm1 & Hl1 & Hcc1 & Hn1 & Hc1 & Hs1 & Hself1 & Hp1).
  exists w1. split; [rewrite request_eq; unfold mbind, prog_bind; by rewrite Hres|].
  do 4 (split; [done|]). intros u1 [E1 E2 E3 E4 E5 E6 E7].
  pose proof (all_true_target add n _ Ht) as Htt. fold r target in Htt.
  destruct (apply_joint u1 (currentTerm r) (len (log r)) old new) as (Hcc & Hnc & Hcs & Hst & Hts & Hpn & Hpo).
  fold joint in Hcc, Hnc, Hcs, Hst, Hts, Hpn, Hpo. cbv zeta.
  rewrite Hcc, Hnc, Hcs, Hts, !(put_all_members _ _ Ht Hold), !(put_all_members _ _ Htt Hnew).
  rewrite bool_decide_eq_true_2 by (by rewrite E2, Hs1). do 4 (split; [done|]).
  split_and!.
  - intros a p Hap. apply Hpo. by rewrite E4, Hp1.
  - intros -> Hne Hnone. apply Hpn; [|by rewrite E3, Hself1|by rewrite E4, Hp1].
    apply Hnew. subst target. rewrite lookup_insert_eq. eauto.
  - intros u2 [F1 F2 F3 F4 F5 F6 F7]. apply (joint_settles target Htt new); try done.
    + rewrite F1. destruct (applyConfig_frame joint u1) as (-> & _). by rewrite E1.
    + by rewrite F2, Hst, E2, Hs1.
    + by rewrite F7.
Qed.

Definition demo_pair : World :=
  upd (λ r, r <| state := Leader |> <| currentTerm := 3 |>)
    (NewRaftNode "a" ["a"; "b"] true "" (mkDisk None []) no_faults).

Lemma same_config_refl w : same_config w w.
Proof. by split. Qed.

Lemma membership_change_witness :
  (∃ e, request true ["a"; "b"] ["a"; "b"] "b" demo_pair = Ret (Err e) demo_pair) ∧
  ∃ w1, request true ["a"; "b"] ["b"; "a"; "c"] "c" demo_pair = Ret (Ok tt) w1 ∧
    let w2 := applyConfigChangeLocked (joint_entry 3 1 ["a"; "b"] ["b"; "a"; "c"]) w1 in
    peers (node w2) !! "c" = Some (mkPeer "c" true) ∧
    ∃ w3, appendStableConfig ["a"; "b"; "c"] w2 = Ret tt w3 ∧
      let w4 := applyConfigChangeLocked
        (stable_entry (currentTerm (node w2)) (len (log (node w2))) ["a"; "b"; "c"]) w3 in
      currentConfig (node w4) = {[ "a" := true; "b" := true; "c" := true ]}.
Proof.
  split.
  - destruct (membership_change demo_pair true "b" ["a"; "b"] ["a"; "b"] ["a"; "b"]) as (_ & H & _).
    1: reflexivity.
    1: apply map_Forall_lookup; apply (bool_decide_unpack _); vm_compute; exact I.
    1-2: apply members_of_dom; vm_compute; reflexivity.
    1: intros k; reflexivity.
    refine (H _). vm_compute. discriminate.
  - destruct (membership_change demo_pair true "c" ["a"; "b"] ["b"; "a"; "c"] ["a"; "b"; "c"])
      as (_ & _ & _ & H).
    1: reflexivity.
    1: apply map_Forall_lookup; apply (bool_decide_unpack _); vm_compute; exact I.
    1-2: apply members_of_dom; vm_compute; reflexivity.
    1: intros k; rewrite !elem_of_cons; tauto.
    destruct H as (w1 & H1 & _ & _ & _ & _ & H2); [reflexivity|vm_compute; reflexivity|reflexivity|].
    destruct (H2 w1 (same_config_refl w1)) as (_ & _ & _ & _ & _ & Hn & Hset).
    destruct (Hset _ (same_config_refl _)) as (w3 & H3 & _ & _ & H4).
    exists w1. split; [exact H1|]. split; [refine (Hn _ _ _); vm_compute; (reflexivity || discriminate)|].
    exists w3. split; [exact H3|].
    destruct (H4 w3 (same_config_refl w3)) as (E & _). etrans; [exact E|]. vm_compute. reflexivity.
Defined.

(** The lock is not held between the checks and [changeConfig]: two requests
    that are checked one after the other and then carried out one after the
    other both succeed, and the second one replaces the new configuration of
    the first, whose node is in neither configuration. *)
Lemma concurrent_changes_overlap w n1 n2 old1 new1 old2 new2 :
  mu (node w) = false → state (node w) = Leader → configState (node w) = ConfigStable →
  all_true (currentConfig (node w)) → currentConfig (node w) !! n1 = None →
  currentConfig (node w) !! n2 = None → n1 ≠ n2 →
  AddNode_check n1 w = Ret (Ok tt) w ∧ AddNode_check n2 w = Ret (Ok tt) w ∧
  ∃ w1 w2, changeConfig old1 new1 n1 true w = Ret (Ok tt) w1 ∧
    changeConfig old2 new2 n2 true w1 = Ret (Ok tt) w2 ∧
    newConfig (node w2) = Some (<[n2 := true]> (currentConfig (node w))) ∧
    currentConfig (node w2) !! n1 = None ∧ (<[n2 := true]> (currentConfig (node w))) !! n1 = None.
Proof.
  intros Hmu Hs Hc Ht Hn1 Hn2 Hne.
  destruct (change_check_spec true n1 w Hmu Ht) as (res1 & Hr1 & _ & _ & _ & Hok1).
  destruct (change_check_spec true n2 w Hmu Ht) as (res2 & Hr2 & _ & _ & _ & Hok2).
  rewrite Hok1 in Hr1 by done. rewrite Hok2 in Hr2 by done.
  destruct (changeConfig_spec w true n1 old1 new1) as (w1 & H1 & Hm1 & _ & Hcc1 & _); [done..|].
  destruct (changeConfig_spec w1 true n2 old2 new2) as (w2 & H2 & _ & _ & Hcc2 & Hn & _); [done|by rewrite Hcc1|].
  do 2 (split; [done|]). exists w1, w2. rewrite Hn, Hcc2, Hcc1. split_and!; try done.
  by rewrite lookup_insert_ne.
Qed.

(** ** The in-sync-replica set *)

(** Who is in sync.  On a leader, [checkISR] keeps a peer whose match
    index has not passed the commit index in the set exactly when it lags by
    at most [maxLag] entries; but the lag is an unsigned difference, so a
    peer that is ahead of the commit index is thrown out. *)
Theorem checkISR_spec w p pe :
  let r := node w in
  let c := commitIndex r in let m := getu (matchIndex r) p in
  mu r = false → state r = Leader → peers r !! p = Some pe →
  0 ≤ c < 2 ^ 63 → 0 ≤ m < 2 ^ 63 → 0 ≤ maxLag r < 2 ^ 63 →
  ∃ w' b, checkISR w = Ret tt w' ∧ mu (node w') = false ∧ isr (node w') !! p = Some b ∧
    (m ≤ c → (b = true ↔ c - m ≤ maxLag r)) ∧ (c < m → b = false).
Proof.
  intros r c m Hmu Hs Hp Hc Hm Hl.
  exists (upd (λ r, r <| isr ::= λ i, foldr (λ p, insert p (negb (replicaLag r p >? maxLag r))) i
    (keys (peers r)) |>) w), (negb (replicaLag r p >? maxLag r)).
  assert (replicaLag r p = if decide (m ≤ c) then c - m else c - m + 2 ^ 64) as Hlag.
  { unfold replicaLag, uint64, uint. fold m c. case_decide; [apply Z.mod_small; lia|].
    rewrite <- (Z.mod_add _ 1) by lia. rewrite Z.mod_small; lia. }
  split_and!.
  - assert (wp checkISR (λ _ w', w' = upd (λ r, r <| isr ::= λ i, foldr (λ p,
      insert p (negb (replicaLag r p >? maxLag r))) i (keys (peers r)) |>) w) (λ _, False) (λ _, False) w)
      as ([] & w' & -> & ->)%wp_returns; [|done].
    unfold checkISR. wp_run. apply wp_when; intros E; [|bool_to_prop; simpl in *; done].
    wp_run. destruct w as [[]]. simpl in *. by rewrite Hmu.
  - done.
  - simpl. rewrite (foldr_insert_lookup (λ p, negb (replicaLag (node w) p >? maxLag (node w)))), decide_True; [done|]. apply elem_of_keys. eauto.
  - intros Hle. rewrite Hlag, decide_True by done.
    destruct (c - m >? maxLag r) eqn:E; bool_to_prop; simpl; split; (done || lia).
  - intros Hlt. rewrite Hlag, decide_False by lia.
    destruct (c - m + 2 ^ 64 >? maxLag r) eqn:E; bool_to_prop; [done|]. lia.
Qed.

Definition demo_isr : World :=
  upd (λ r, r <| state := Leader |> <| commitIndex := 5 |> <| maxLag := 3 |>
              <| matchIndex := {[ "b" := 7; "c" := 4 ]} |>)
    (NewRaftNode "a" ["a"; "b"; "c"] true "" (mkDisk None []) no_faults).

Lemma checkISR_spec_witness :
  (∃ w b, checkISR demo_isr = Ret tt w ∧ isr (node w) !! "c" = Some b ∧ (b = true ↔ 1 ≤ 3)) ∧
  (∃ w, checkISR demo_isr = Ret tt w ∧ isr (node w) !! "b" = Some false).
Proof.
  split.
  - destruct (checkISR_spec demo_isr "c" (mkPeer "c" false)) as (w & b & H1 & _ & H2 & H3 & _);
      try (vm_compute; (reflexivity || split; (reflexivity || discriminate))).
    exists w, b. split_and!; [exact H1|exact H2|]. apply H3. vm_compute. discriminate.
  - destruct (checkISR_spec demo_isr "b" (mkPeer "b" false)) as (w & b & H1 & _ & H2 & _ & H3);
      try (vm_compute; (reflexivity || split; (reflexivity || discriminate))).
    exists w. split; [exact H1|]. rewrite H2. f_equal. apply H3. vm_compute. reflexivity.
Defined.

End RaftConfig.
