(* ===== verification/RaftCluster.v ===== *)
(** * A cluster of Raft nodes

    The processes of [Raft] run together: timers fire, goroutines run,
    remote calls reach their target or get lost, clients submit commands and
    processes restart from their disks.  File operations succeed, and there
    is no step for [AddNode] and [RemoveNode].  Theorems: as long as no
    configuration entry arrives from outside, so that the membership is the
    one the cluster was started with, at most one node leads in a term; and a
    cluster of two or more fresh nodes never elects anybody. *)

From Stdlib Require Import ZArith Lia Strings.Byte.
From stdpp Require Import base tactics list gmap strings fin_maps.
From S2P Require Import Prelude GoLib Raft RaftProps RaftApply RaftData.

Open Scope Z_scope.

Module RaftCluster.

Import Int Raft RaftProps RaftApply RaftData.

(** ** Steps of one process *)

(** The goroutine at position [i] runs, and waits again, with [t] left to do. *)
Definition set_task (i : nat) (t : Task) (w : World) : World := go t (take_task i w).

(** [sendAppendEntries] and [sendSnapshot] up to the call they make. *)
Definition run_sendAppend (p : string) (w : World) : World :=
  match sendAppendEntries p w with
  | Ret (Some args) w' => go (TAppend p args) w'
  | o => final o
  end.
Definition run_sendSnapshot (p : string) (w : World) : World :=
  match sendSnapshot p w with
  | Ret (Some args) w' => go (TSnapshot p args) w'
  | o => final o
  end.

Inductive local : World → World → Prop :=
| l_electionTimer w :
    electionTimer (node w) = true → 0 ≤ currentTerm (node w) < 2 ^ 64 - 1 →
    local w (final (onElectionTimer w))
| l_heartbeatTimer w :
    heartbeatTimer (node w) = true → local w (final (onHeartbeatTimer w))
| l_isrTicker w : isrTicker (node w) = true → local w (final (checkISR w))
| l_submit w topic partition data : local w (final (SubmitCommand topic partition data w))
| l_voteReply w i el p t reply :
    tasks w !! i = Some (TVoteReply el p t reply) →
    local w (final (voteReply el p t reply (take_task i w)))
| l_voteWait w i el t e :
    tasks w !! i = Some (TVoteWait el t) → elections w !! el = Some e → el_wg e = 0 →
    0 ≤ currentTerm (node w) < 2 ^ 64 - 1 →
    local w (final (voteWait t (take_task i w)))
| l_voteFails w i el p t args :
    tasks w !! i = Some (TVote el p t args) →
    local w (set_task i (TVoteReply el p t (requestVote (node w) None)) w)
| l_sendAppend w i p :
    tasks w !! i = Some (TSendAppend p) → local w (run_sendAppend p (take_task i w))
| l_appendFails w i p args :
    tasks w !! i = Some (TAppend p args) →
    local w (set_task i (TAppendReply p (aa_PrevLogIndex args) (len (aa_Entries args))
               (appendEntries (node w) None)) w)
| l_appendReply w i p prev n reply :
    tasks w !! i = Some (TAppendReply p prev n reply) →
    local w (final (appendReply p prev n reply (take_task i w)))
| l_sendSnapshot w i p :
    tasks w !! i = Some (TSendSnapshot p) → local w (run_sendSnapshot p (take_task i w))
| l_snapshotFails w i p args :
    tasks w !! i = Some (TSnapshot p args) →
    local w (set_task i (TSnapshotReply p (sa_LastIncludedIndex args)
               (installSnapshot (node w) None)) w)
| l_snapshotReply w i p lastIndex reply :
    tasks w !! i = Some (TSnapshotReply p lastIndex reply) →
    local w (final (snapshotReply p lastIndex reply (take_task i w)))
| l_apply w i :
    tasks w !! i = Some TApply → local w (final (applyCommittedEntries (take_task i w)))
| l_applySend w i stop entry :
    tasks w !! i = Some (TApplySend entry) →
    local w (final (applySend stop entry (take_task i w)))
| l_appendStable w i newPeers :
    tasks w !! i = Some TAppendStable →
    local w (final (appendStableConfig newPeers (take_task i w))).

(** ** Steps of the cluster *)

Inductive Request :=
| RVote (args : RequestVoteArgs)
| RAppend (args : AppendEntriesArgs)
| RSnapshot (args : InstallSnapshotArgs).

(** A request whose reply nobody waits for any more. *)
Definition serve (q : Request) (w : World) : World :=
  match q with
  | RVote args => final (RequestVote args w)
  | RAppend args => final (AppendEntries args w)
  | RSnapshot args => final (InstallSnapshot args w)
  end.

(** The reply of a call, when the callee returned. *)
Definition reply_of {A} (o : outcome World A) : option A :=
  match o with Ret a _ => Some a | _ => None end.

(** The votes cast so far are kept as history. *)
Record Cluster := mkCluster {
  procs : gmap string World;
  cast : gset (string * Z * string);
}.

Definition vote_of (s : string) (w : World) : gset (string * Z * string) :=
  if bool_decide (votedFor (node w) = "") then ∅
  else {[ (s, currentTerm (node w), votedFor (node w)) ]}.

Definition put (s : string) (w : World) (c : Cluster) : Cluster :=
  mkCluster (<[s := w]> (procs c)) (cast c ∪ vote_of s w).

(** [V] are the members, [dir] the data directory, and [stray] the requests
    that may arrive without a waiting caller: delayed in the network, from a
    process that is gone, or from anywhere else.  A process has no
    connection to itself. *)
Section cluster.
Context (V : list string) (dir : string) (stray : Request → Prop).

Definition boot (s : string) (d : Disk) : World := NewRaftNode s V true dir d no_faults.

Definition fresh : Cluster :=
  mkCluster (list_to_map ((λ s, (s, boot s (mkDisk None []))) <$> V)) ∅.

Inductive step (c : Cluster) : Cluster → Prop :=
| s_local s w w' :
    procs c !! s = Some w → local w w' → step c (put s w' c)
| s_restart s w :
    procs c !! s = Some w → step c (put s (boot s (disk w)) c)
| s_stray s w q :
    procs c !! s = Some w → stray q → step c (put s (serve q w) c)
| s_vote s w i el p t args wp :
    procs c !! s = Some w → tasks w !! i = Some (TVote el p t args) → procs c !! p = Some wp → p ≠ s →
    let o := RequestVote args wp in
    step c (put s (set_task i (TVoteReply el p t (requestVote (node w) (reply_of o))) w)
             (put p (final o) c))
| s_append s w i p args wp :
    procs c !! s = Some w → tasks w !! i = Some (TAppend p args) → procs c !! p = Some wp → p ≠ s →
    let o := AppendEntries args wp in
    step c (put s (set_task i (TAppendReply p (aa_PrevLogIndex args) (len (aa_Entries args))
                     (appendEntries (node w) (reply_of o))) w)
             (put p (final o) c))
| s_snapshot s w i p args wp :
    procs c !! s = Some w → tasks w !! i = Some (TSnapshot p args) → procs c !! p = Some wp → p ≠ s →
    let o := InstallSnapshot args wp in
    step c (put s (set_task i (TSnapshotReply p (sa_LastIncludedIndex args)
                     (installSnapshot (node w) (reply_of o))) w)
             (put p (final o) c)).

Inductive reachable : Cluster → Prop :=
| reach_fresh : reachable fresh
| reach_step c c' : reachable c → step c c' → reachable c'.

End cluster.

(** ** Quiet steps

    What every operation except an election and the count of its votes does
    to the vote-related part of a process. *)

Definition is_vote (t : Task) : bool :=
  match t with TVote _ _ _ _ | TVoteReply _ _ _ _ => true | _ => false end.
Definition vote_tasks (w : World) : list Task := filter (λ t, is_vote t = true) (tasks w).

(** The term and the vote are on disk. *)
Record saved (w : World) : Prop := {
  sv_dir : dataDir (node w) ≠ "";
  sv_faults : faults w = no_faults;
  sv_stable : configState (node w) = ConfigStable;
  sv_log : log (node w) ≠ [];
  sv_disk : match stateFile (disk w) with
            | None => currentTerm (node w) = 0 ∧ votedFor (node w) = ""
            | Some st => ps_CurrentTerm st = currentTerm (node w) ∧
                         ps_VotedFor st = votedFor (node w) ∧ ps_ConfigState st = ConfigStable
            end;
}.

Record loose (w w' : World) : Prop := {
  q_self : selfAddr (node w') = selfAddr (node w);
  q_peers : peers (node w') = peers (node w);
  q_dir : dataDir (node w') = dataDir (node w);
  q_faults : faults w' = faults w;
  q_cfg : configState (node w') = configState (node w);
  q_log : log (node w) ≠ [] → log (node w') ≠ [];
  q_term : currentTerm (node w) ≤ currentTerm (node w');
  q_vote : currentTerm (node w') = currentTerm (node w) →
           votedFor (node w) = "" ∨ votedFor (node w') = votedFor (node w);
  q_state : state (node w') = Leader →
            state (node w) = Leader ∧ currentTerm (node w') = currentTerm (node w);
  q_tasks : vote_tasks w' = vote_tasks w;
  q_elections : elections w' = elections w;
  q_next : nextElection w' = nextElection w;
}.

Record quiet (w w' : World) : Prop := {
  quiet_loose :> loose w w';
  quiet_saved : saved w → saved w';
}.

#[export] Instance loose_preorder : PreOrder loose.
Proof.
  split; [by split; auto|]. intros w1 w2 w3 [] []. split; try congruence; try lia; auto.
  - intros Heq. assert (currentTerm (node w2) = currentTerm (node w1)) as H12 by lia.
    destruct (q_vote0 H12) as [|H1]; [by left|].
    destruct (q_vote1 ltac:(lia)) as [H2|H2]; [left|right]; congruence.
  - intros Hl. destruct (q_state1 Hl) as [Hl2 ?], (q_state0 Hl2) as [? ?]. split; [done|congruence].
Qed.

#[export] Instance quiet_preorder : PreOrder quiet.
Proof.
  split; [by split|]. intros w1 w2 w3 [H1 ?] [H2 ?]. split; [by etrans|auto].
Qed.

(** Leaves [loose]'s fields to be checked on the records. *)
Lemma loose_upd f w w' :
  (∀ r, selfAddr (f r) = selfAddr r ∧ peers (f r) = peers r ∧ dataDir (f r) = dataDir r ∧
        configState (f r) = configState r ∧ currentTerm (f r) = currentTerm r ∧ state (f r) = state r) →
  (∀ r, log r ≠ [] → log (f r) ≠ []) →
  (votedFor (node w') = "" ∨ votedFor (f (node w')) = votedFor (node w')) →
  loose w w' → loose w (upd f w').
Proof.
  intros Hf Hl Hv H. etrans; [exact H|]. destruct (Hf (node w')) as (? & ? & ? & ? & ? & Hst).
  split; simpl; auto; [lia|]. intros E. split; congruence.
Qed.

(** An update that leaves the term, the vote and the rest of [saved] alone. *)
Lemma quiet_upd f w w' :
  (∀ r, selfAddr (f r) = selfAddr r ∧ peers (f r) = peers r ∧ dataDir (f r) = dataDir r ∧
        configState (f r) = configState r ∧ currentTerm (f r) = currentTerm r ∧ state (f r) = state r) →
  (∀ r, log r ≠ [] → log (f r) ≠ []) →
  (∀ r, votedFor (f r) = votedFor r) →
  quiet w w' → quiet w (upd f w').
Proof.
  intros Hf Hl Hv [H1 H2]. split; [apply loose_upd; auto|]. intros [????]%H2.
  destruct (Hf (node w')) as (? & ? & ? & ? & ? & Hst).
  split; simpl; rewrite ?Hv; try congruence; auto. by case_match; destruct_and?; split_and?; congruence.
Qed.

(** A change outside the node, the disk and the vote-related goroutines. *)
Lemma quiet_outside w w1 w' :
  node w' = node w1 → disk w' = disk w1 → faults w' = faults w1 → vote_tasks w' = vote_tasks w1 →
  elections w' = elections w1 → nextElection w' = nextElection w1 → quiet w w1 → quiet w w'.
Proof.
  intros H1 H2 H3 H4 H5 H6 H. etrans; [exact H|]. split.
  - split; rewrite ?H1, ?H2, ?H3, ?H4, ?H5, ?H6; auto; lia.
  - intros [?????]. split; rewrite ?H1, ?H2, ?H3; auto.
Qed.

Lemma vote_tasks_app w t :
  is_vote t = false → vote_tasks (go t w) = vote_tasks w.
Proof.
  intros Ht. unfold vote_tasks, go. simpl. rewrite filter_app, filter_cons, decide_False by congruence.
  by rewrite app_nil_r.
Qed.

Lemma quiet_go t w w' : is_vote t = false → quiet w w' → quiet w (go t w').
Proof. intros Ht. apply quiet_outside; try done. by apply vote_tasks_app. Qed.

(** Saving the state restores [saved]. *)
Lemma quiet_save w w' : loose w w' → quiet w (saveState w').
Proof.
  intros H. split.
  - etrans; [exact H|]. expose. split; simpl; auto; lia.
  - intros [Hd Hf Hc Hl _]. destruct H as [_ _ Hd' Hf' Hc' Hl' _ _ _ _ _ _].
    rewrite <- Hd' in Hd. rewrite <- Hf' in Hf. rewrite <- Hc' in Hc. specialize (Hl' Hl).
    clear -Hd Hf Hc Hl'. destruct w' as [r d fl cl nc ap ts els ne]. simpl in *. subst fl.
    unfold saveState, appendLogEntries. simpl. rewrite !bool_decide_eq_false_2 by done. case_match; by split.
Qed.

Lemma quiet_clear w w' : quiet w w' → quiet w (clearPending w').
Proof.
  intros H. rewrite clearPending_frame. apply quiet_upd; [done..|]. by apply (quiet_outside _ w').
Qed.

Lemma quiet_heartbeats w w' : quiet w w' → quiet w (sendHeartbeats w').
Proof.
  intros H. unfold sendHeartbeats, resetHeartbeatTimer. apply quiet_upd; [done..|].
  apply foldl_inv; [|done]. intros ???. by apply quiet_go.
Qed.

Lemma quiet_follower t w w' :
  quiet w w' → currentTerm (node w') < t → quiet w (becomeFollower t w').
Proof.
  intros H Ht. unfold becomeFollower. etrans; [exact H|]. apply quiet_save.
  rewrite clearPending_frame. split; simpl; (done || lia).
Qed.

Lemma quiet_commitLoop fuel n w w' : quiet w w' → quiet w (commitLoop fuel n w').
Proof.
  revert n w'. induction fuel as [|fuel IH]; intros n w' H; simpl; [done|].
  repeat (case_match; [|done]). apply IH. unfold commitAt. simpl.
  case_match; [|by apply quiet_upd]. apply quiet_upd; [done..|].
  apply (quiet_outside _ (upd (λ r, r <| commitIndex := n |>) w')); try done. by apply quiet_upd.
Qed.

Lemma quiet_commit w w' : quiet w w' → quiet w (updateCommitIndex w').
Proof. intros H. unfold updateCommitIndex. apply quiet_go; [done|]. by apply quiet_commitLoop. Qed.

Lemma appendLoop_nonempty prev i es l : l ≠ [] → appendLoop prev i es l ≠ [].
Proof.
  revert i l. induction es as [|e es IH]; intros i l Hl; simpl; [done|]. apply IH.
  repeat case_match; (done || by intros [??]%app_eq_nil).
Qed.

(** The goals of [quiet] that the programs leave, and the side conditions of
    the lemmas above on the records. *)
Lemma snoc_nonempty {A} (l : list A) x : l ≠ [] → l ++ [x] ≠ [].
Proof. by intros _ [??]%app_eq_nil. Qed.
Lemma take1_nonempty {A} (l k : list A) : l ≠ [] → take 1 l ++ k ≠ [].
Proof. by destruct l. Qed.

Lemma wp_stepDown_any t (Q : unit → World → Prop) B P w0 w :
  quiet w0 w → (∀ w1, mu (node w1) = mu (node w) → quiet w0 w1 → Q tt w1) →
  wp (when (t >? currentTerm (node w)) (modify (becomeFollower t))) Q B P w.
Proof.
  intros H HQ. apply wp_when; intros E; [apply wp_modify|]; apply HQ; try done.
  - by expose.
  - bool_to_prop. by apply quiet_follower.
Qed.

#[local] Arguments saveState : simpl never.
#[local] Arguments becomeFollower : simpl never.
#[local] Arguments sendHeartbeats : simpl never.
#[local] Arguments updateCommitIndex : simpl never.

Ltac quiet_side :=
  intros; split_and?; simpl; (reflexivity || assumption ||
    (match goal with H : _ || _ = true |- _ =>
       apply orb_true_iff in H as [?|?]; bool_to_prop; by eauto end) ||
    eauto using snoc_nonempty, take1_nonempty, appendLoop_nonempty).

Ltac quiet_done :=
  unfold resetElectionTimer, resetHeartbeatTimer;
  repeat lazymatch goal with
    | |- quiet ?w ?w => reflexivity
    | H : quiet ?w ?w1 |- quiet ?w ?w1 => exact H
    | |- loose ?w ?w => reflexivity
    | |- quiet _ (saveState _) => apply quiet_save
    | |- quiet _ (sendHeartbeats _) => apply quiet_heartbeats
    | |- quiet _ (updateCommitIndex _) => apply quiet_commit
    | |- quiet _ (becomeFollower _ _) => apply quiet_follower; [|simpl in *; lia]
    | |- quiet _ (go _ _) => apply quiet_go; [done|]
    | |- quiet _ (?w1 <| nextChan ::= _ |>) => apply (quiet_outside _ w1); [reflexivity..|]
    | |- quiet _ (?w1 <| applied ::= _ |>) => apply (quiet_outside _ w1); [reflexivity..|]
    | |- quiet _ (upd _ _) => apply quiet_upd; [quiet_side..|]
    | |- loose _ (upd _ _) => apply loose_upd; [quiet_side..|]
    | |- loose _ _ => apply quiet_loose
    end.

Ltac lock_held :=
  simpl; try reflexivity; expose; simpl; try reflexivity; assumption.

(** Runs a program from a state with nothing known about its lock. *)
Ltac wp_any :=
  repeat (lazymatch goal with
    | |- wp Lock _ _ _ _ => apply wp_Lock_any; [quiet_done|]
    | |- wp RLock _ _ _ _ => apply wp_RLock_any; [quiet_done|]
    | |- wp Unlock _ _ _ _ => apply wp_Unlock_any; [quiet_done|]
    | |- wp (if _ then _ else _) _ _ _ _ => wp_cases
    | |- wp (when (_ >? currentTerm _) (modify (becomeFollower _))) _ (quiet ?w0) _ _ =>
        apply (wp_stepDown_any _ _ _ _ w0); [quiet_done|]; intros
    | |- wp (when _ _) _ _ _ _ => wp_cases
    | |- wp (of_option _) _ _ _ _ => wp_cases
    | |- wp applyCommittedEntries _ _ _ _ => apply wp_apply_held; [lock_held|]
    | |- wp _ _ _ _ _ => wp_step
    end; cbv beta).

Ltac quiet_wp := apply follows_wp; intros w; wp_any; quiet_done.

Lemma RequestVote_quiet args : follows quiet (RequestVote args).
Proof.
  unfold RequestVote. quiet_wp.
Qed.

Lemma AppendEntries_quiet args : follows quiet (AppendEntries args).
Proof.
  unfold AppendEntries. quiet_wp.
Qed.

Lemma InstallSnapshot_quiet args : follows quiet (InstallSnapshot args).
Proof.
  unfold InstallSnapshot. quiet_wp.
Qed.

Lemma SubmitCommand_quiet t p d : follows quiet (SubmitCommand t p d).
Proof.
  unfold SubmitCommand. quiet_wp.
Qed.

Lemma sendAppendEntries_quiet p : follows quiet (sendAppendEntries p).
Proof.
  unfold sendAppendEntries. quiet_wp.
Qed.

Lemma appendReply_quiet p prev n reply : follows quiet (appendReply p prev n reply).
Proof.
  unfold appendReply. quiet_wp.
Qed.

Lemma sendSnapshot_quiet p : follows quiet (sendSnapshot p).
Proof.
  unfold sendSnapshot, createSnapshot, RUnlock. quiet_wp.
Qed.

Lemma snapshotReply_quiet p i reply : follows quiet (snapshotReply p i reply).
Proof.
  unfold snapshotReply. quiet_wp.
Qed.

Lemma onHeartbeatTimer_quiet : follows quiet onHeartbeatTimer.
Proof.
  unfold onHeartbeatTimer. quiet_wp.
Qed.

Lemma checkISR_quiet : follows quiet checkISR.
Proof.
  unfold checkISR. quiet_wp.
Qed.

Lemma appendStableConfig_quiet l : follows quiet (appendStableConfig l).
Proof.
  unfold appendStableConfig. quiet_wp.
Qed.

Lemma applyNext_quiet fuel w0 w (Q : option LogEntry → World → Prop) :
  (∀ next w', quiet w0 w' → Q next w') →
  quiet w0 w → Forall is_data (log (node w)) → wp (applyNext fuel) Q (quiet w0) (quiet w0) w.
Proof.
  intros HQ. revert w. induction fuel as [|fuel IH]; intros w Hq Hd; cbn [applyNext].
  { wp_run. by apply HQ. }
  wp_any; try apply HQ; try quiet_done.
  - rewrite Forall_lookup in Hd. simpl in *.
    match goal with H : at_ _ _ = Some _ |- _ => apply at_Some in H as [_ H]; apply Hd in H end.
    unfold is_data in *. apply orb_true_iff in H1 as [?|?]; bool_to_prop; congruence.
  - apply IH; [|done]. quiet_done.
Qed.

Lemma applyCommittedEntries_quiet w :
  Forall is_data (log (node w)) → quiet w (final (applyCommittedEntries w)).
Proof.
  intros Hd. assert (wp applyCommittedEntries (λ _, quiet w) (quiet w) (quiet w) w) as H.
  { unfold applyCommittedEntries. wp_any. apply applyNext_quiet; [|quiet_done|done].
    intros next w' Hq. wp_any. destruct next; wp_any; quiet_done. }
  unfold wp in H. by destruct (applyCommittedEntries w).
Qed.

Lemma applySend_quiet stop e : follows quiet (applySend stop e).
Proof.
  unfold applySend. quiet_wp.
Qed.

Lemma vote_tasks_take i w t :
  tasks w !! i = Some t →
  (is_vote t = false → vote_tasks (take_task i w) = vote_tasks w) ∧
  (is_vote t = true → ∃ l1 l2, vote_tasks w = l1 ++ t :: l2 ∧ vote_tasks (take_task i w) = l1 ++ l2).
Proof.
  intros Hi. unfold vote_tasks, take_task. simpl.
  assert (∀ P `{∀ t, Decision (P t)}, filter P (tasks w) =
    filter P (take i (tasks w)) ++ filter P (t :: drop (S i) (tasks w))) as E.
  { intros P HP. rewrite <- filter_app. by rewrite take_drop_middle. }
  rewrite E, filter_app, filter_cons.
  split; intros Ht; [by rewrite decide_False by congruence|].
  rewrite decide_True by done. eauto.
Qed.

Lemma take_task_quiet i t w w' :
  tasks w !! i = Some t → is_vote t = false → quiet (take_task i w) w' → quiet w w'.
Proof.
  intros Hi Ht H. etrans; [|exact H]. apply (quiet_outside _ w); try done.
  by eapply vote_tasks_take.
Qed.

(** The steps of a process that have to do with an election of its own. *)
Inductive electoral : World → World → Prop :=
| e_timer w :
    0 ≤ currentTerm (node w) < 2 ^ 64 - 1 → electoral w (final (onElectionTimer w))
| e_wait w i el t :
    tasks w !! i = Some (TVoteWait el t) → 0 ≤ currentTerm (node w) < 2 ^ 64 - 1 →
    electoral w (final (voteWait t (take_task i w)))
| e_reply w i el p t reply :
    tasks w !! i = Some (TVoteReply el p t reply) →
    electoral w (final (voteReply el p t reply (take_task i w)))
| e_fails w i el p t args :
    tasks w !! i = Some (TVote el p t args) →
    electoral w (set_task i (TVoteReply el p t (requestVote (node w) None)) w).

Lemma run_sendAppend_quiet p w : quiet w (run_sendAppend p w).
Proof.
  unfold run_sendAppend. pose proof (sendAppendEntries_quiet p w) as H.
  destruct (sendAppendEntries p w) as [[args|] w'| |]; simpl in *; try done. by apply quiet_go.
Qed.

Lemma run_sendSnapshot_quiet p w : quiet w (run_sendSnapshot p w).
Proof.
  unfold run_sendSnapshot. pose proof (sendSnapshot_quiet p w) as H.
  destruct (sendSnapshot p w) as [[args|] w'| |]; simpl in *; try done. by apply quiet_go.
Qed.

#[local] Hint Resolve AppendEntries_quiet InstallSnapshot_quiet RequestVote_quiet SubmitCommand_quiet
  appendReply_quiet snapshotReply_quiet onHeartbeatTimer_quiet checkISR_quiet
  appendStableConfig_quiet applyCommittedEntries_quiet run_sendAppend_quiet
  run_sendSnapshot_quiet : mq.

Lemma local_quiet w w' :
  Forall is_data (log (node w)) → local w w' → quiet w w' ∨ electoral w w'.
Proof.
  intros Hd. destruct 1; try (right; by econstructor); left; try apply onHeartbeatTimer_quiet;
    try apply checkISR_quiet; try apply SubmitCommand_quiet;
    (eapply take_task_quiet; [eassumption|done|]); unfold set_task.
  all: try (apply quiet_go; [done|reflexivity]).
  all: try (by auto with mq).
  - apply appendReply_quiet.
  - apply snapshotReply_quiet.
  - apply applySend_quiet.
  - apply appendStableConfig_quiet.
Qed.

Lemma serve_quiet q w : quiet w (serve q w).
Proof.
  destruct q; [apply RequestVote_quiet|apply AppendEntries_quiet|apply InstallSnapshot_quiet].
Qed.

(** ** No configuration entries *)

(** A request that carries data entries only. *)
Definition data_request (q : Request) : Prop :=
  match q with
  | RVote _ => True
  | RAppend args => Forall is_data (aa_Entries args)
  | RSnapshot args => Forall data_msg (sa_Data args)
  end.

Lemma serve_clean q w : data_request q → keeps_clean w (serve q w).
Proof.
  destruct q; simpl; intros Hq;
    [apply RequestVote_clean|by apply AppendEntries_clean|by apply InstallSnapshot_clean].
Qed.

Lemma set_task_clean i t w : data_task t → keeps_clean w (set_task i t w).
Proof. intros Ht. apply go_clean; [done|apply take_task_clean]. Qed.

Lemma run_sendAppend_clean p w : keeps_clean w (run_sendAppend p w).
Proof.
  intros Hw. pose proof (sendAppendEntries_clean p w Hw) as H. unfold run_sendAppend. unfold wp in H.
  destruct (sendAppendEntries p w) as [[args|] w'| |]; simpl; try tauto. destruct H as [H1 H2].
  revert H1. apply go_clean; [by apply H2|done].
Qed.

Lemma run_sendSnapshot_clean p w : keeps_clean w (run_sendSnapshot p w).
Proof.
  intros Hw. pose proof (sendSnapshot_clean p w Hw) as H. unfold run_sendSnapshot. unfold wp in H.
  destruct (sendSnapshot p w) as [[args|] w'| |]; simpl; try tauto. destruct H as [H1 H2].
  revert H1. apply go_clean; [by apply H2|done].
Qed.

Lemma local_clean w w' : local w w' → keeps_clean w w'.
Proof.
  destruct 1; try (by apply set_task_clean).
  1: apply onElectionTimer_clean. 1: apply onHeartbeatTimer_clean. 1: apply checkISR_clean.
  1: apply SubmitCommand_clean.
  all: etrans; [apply take_task_clean|].
  - apply voteReply_clean.
  - apply voteWait_clean.
  - apply run_sendAppend_clean.
  - apply appendReply_clean.
  - apply run_sendSnapshot_clean.
  - apply snapshotReply_clean.
  - apply applyCommittedEntries_clean.
  - apply applySend_clean.
  - apply appendStableConfig_clean.
Qed.

Lemma put_clean c s w :
  map_Forall (λ _, clean) (procs c) → clean w → map_Forall (λ _, clean) (procs (put s w c)).
Proof. intros Hc Hw. by apply map_Forall_insert_2. Qed.

Lemma step_clean V dir stray c c' :
  (∀ q, stray q → data_request q) → step V dir stray c c' →
  map_Forall (λ _, clean) (procs c) → map_Forall (λ _, clean) (procs c').
Proof.
  intros Hstray Hstep Hc.
  assert (∀ w i t, clean w → tasks w !! i = Some t → data_task t) as Htask.
  { intros w i t Hw Hi. by apply (Forall_lookup_1 _ _ _ _ (cl_tasks _ Hw) Hi). }
  destruct Hstep as [s w w' Hs Hl|s w Hs|s w q Hs Hq|s w i el p t args wp Hs Hti Hpp Hne o|
     s w i p args wp Hs Hti Hpp Hne o|s w i p args wp Hs Hti Hpp Hne o];
    pose proof (Hc _ _ Hs) as Hw; repeat apply put_clean; try done.
  - revert Hw. by apply local_clean.
  - destruct Hw. by apply NewRaftNode_clean.
  - revert Hw. by apply serve_clean, Hstray.
  - apply (RequestVote_clean args), (Hc _ _ Hpp).
  - revert Hw. by apply set_task_clean.
  - apply (AppendEntries_clean args); [|apply (Hc _ _ Hpp)]. by apply (Htask w i (TAppend p args)).
  - revert Hw. by apply set_task_clean.
  - apply (InstallSnapshot_clean args); [|apply (Hc _ _ Hpp)]. by apply (Htask w i (TSnapshot p args)).
  - revert Hw. by apply set_task_clean.
Qed.

Lemma fresh_clean V dir : map_Forall (λ _, clean) (procs (fresh V dir)).
Proof.
  intros s w H%elem_of_list_to_map_2. apply list_elem_of_fmap in H as (s' & ? & _). simplify_eq.
  by apply NewRaftNode_clean.
Qed.

Lemma reachable_clean V dir stray c :
  (∀ q, stray q → data_request q) → reachable V dir stray c → map_Forall (λ _, clean) (procs c).
Proof. intros Hq. induction 1; [apply fresh_clean|by eapply step_clean]. Qed.

(** ** What an election leaves behind *)

(** The ballots a new election sends. *)
Definition ballots (el term : Z) (args : RequestVoteArgs) (ps : list string) : list Task :=
  (λ p, TVote el p term args) <$> ps.

Record elected (w w' : World) : Prop := {
  ed_self : selfAddr (node w') = selfAddr (node w);
  ed_peers : peers (node w') = peers (node w);
  ed_saved : saved w → saved w';
  ed_term : currentTerm (node w') = currentTerm (node w) + 1;
  ed_vote : votedFor (node w') = selfAddr (node w);
  ed_ballots :
    (peers (node w) = ∅ ∧ vote_tasks w' = vote_tasks w ∧ elections w' = elections w ∧
     nextElection w' = nextElection w) ∨
    (state (node w') = Candidate ∧ nextElection w' = nextElection w + 1 ∧
     ∃ args e, va_Term args = currentTerm (node w) + 1 ∧ va_CandidateId args = selfAddr (node w) ∧
       va_LastLogIndex args = uint64 (len (log (node w)) - 1) ∧
       Some (va_LastLogTerm args) = Term <$> at_ (log (node w)) (len (log (node w)) - 1) ∧
       vote_tasks w' = vote_tasks w ++
         ballots (nextElection w) (currentTerm (node w) + 1) args (nonLearner (node w)) ∧
       elections w' = <[nextElection w := e]> (elections w) ∧
       el_votes e = 1 ∧ el_configState e = configState (node w) ∧
       el_nonLearnerPeers e = len (nonLearner (node w)));
}.

Lemma saveState_saved w :
  dataDir (node w) ≠ "" → faults w = no_faults → configState (node w) = ConfigStable →
  log (node w) ≠ [] → saved (saveState w).
Proof.
  intros. destruct w as [r d fl cl nc ap ts els ne]. simpl in *. subst fl.
  unfold saveState, appendLogEntries. simpl. rewrite !bool_decide_eq_false_2 by done. case_match; by split.
Qed.

Lemma startElection_elected w :
  0 ≤ currentTerm (node w) < 2 ^ 64 - 1 → log (node w) ≠ [] →
  wp startElection (λ _ w', elected w w' ∧ mu (node w') = mu (node w) ∧ log (node w') = log (node w))
    (λ _, False) (λ _, False) w.
Proof.
  intros Ht Hl. assert (uint64 (currentTerm (node w) + 1) = currentTerm (node w) + 1) as Hu
    by (apply uint64_small; lia).
  unfold startElection, resetElectionTimer. wp_run.
  destruct (at_is_Some (log (node w)) (len (log (node w)) - 1)) as [e He].
  { unfold len. destruct (log (node w)); simpl; [done|lia]. }
  simpl. rewrite He. wp_run. apply wp_if; intros Hp; bool_to_prop; wp_run.
  - match goal with |- context [becomeLeader ?x] =>
      destruct (becomeLeader_frame x) as (ts & cl & ni & mi & ir & ->) end.
    split; [|by expose]. split; [..|left].
    1-2,4-5: by expose.
    + intros []. by apply saveState_saved.
    + expose. split_and!; try done. unfold vote_tasks. simpl. rewrite filter_app.
      rewrite (filter_none _ (_ <$> _)), app_nil_r; [done|]. by intros ? (? & -> & _)%list_elem_of_fmap.
  - rewrite (go_all_frame (λ p, TVote (nextElection w) p _ _)). split; [|by expose]. split; [..|right].
    1-2,4-5: by expose.
    + intros []. by apply saveState_saved.
    + expose. split_and!; try done.
      eexists (mkRequestVoteArgs (currentTerm (node w) + 1) (selfAddr (node w)) _ (Term e)), _.
      split_and!; try done; [simpl; by rewrite He|].
      unfold vote_tasks. simpl. rewrite Hu. rewrite !filter_app, (filter_cons _ (TVoteWait _ _)), decide_False by done.
      rewrite app_nil_r. f_equal. apply filter_all. by intros ? (? & -> & _)%list_elem_of_fmap.
Qed.

(** ** Election safety *)

(** The peers of an election that were not counted yet. *)
Definition waiting (el : Z) (ts : list Task) : list string :=
  omap (λ t, match t with
             | TVote el' p _ _ | TVoteReply el' p _ _ => if decide (el' = el) then Some p else None
             | _ => None
             end) ts.

Section safety.
Context (V : list string) (dir : string) (stray : Request → Prop).
Context (V_names : "" ∉ V) (dir_nonempty : dir ≠ "").
Implicit Types G : gset (string * Z * string).

Definition members : gset string := list_to_set V.

(** A majority of the members voted for [s] in [t]. *)
Definition wins G (s : string) (t : Z) : Prop :=
  ∃ Q : gset string, Q ⊆ members ∧ (size members < 2 * size Q)%nat ∧ ∀ p, p ∈ Q → (p, t, s) ∈ G.

Definition ballot_ok G (s : string) (next : Z) (t : Task) : Prop :=
  match t with
  | TVote el p term args => el < next ∧ p ∈ V ∧ va_Term args = term ∧ va_CandidateId args = s
  | TVoteReply el p term reply =>
      el < next ∧ p ∈ V ∧ (vr_VoteGranted reply = true → (p, term, s) ∈ G)
  | _ => True
  end.

(** The votes counted by an election are votes for the candidate in one
    term, by members whose ballots are not outstanding any more. *)
Definition election_ok G (s : string) (ts : list Task) (el : Z) (e : Election) : Prop :=
  el_configState e = ConfigStable ∧ el_nonLearnerPeers e = Z.of_nat (size members) - 1 ∧
  ∃ t (C : gset string), C ⊆ members ∧ el_votes e = Z.of_nat (size C) ∧
    (∀ p, p ∈ C → (p, t, s) ∈ G ∧ p ∉ waiting el ts) ∧ NoDup (waiting el ts) ∧
    (∀ p t' args, TVote el p t' args ∈ ts → t' = t) ∧
    (∀ p t' r, TVoteReply el p t' r ∈ ts → t' = t).

Definition peers_of (s : string) : gmap string Peer :=
  foldr (λ a, insert a (mkPeer a false)) ∅ (filter (λ a, a ≠ s) V).

Record proc_ok G (s : string) (w : World) : Prop := {
  po_self : selfAddr (node w) = s;
  po_peers : peers (node w) = peers_of s;
  po_saved : saved w;
  po_leader : state (node w) = Leader → wins G s (currentTerm (node w));
  po_ballots : ∀ t, t ∈ vote_tasks w → ballot_ok G s (nextElection w) t;
  po_elections : ∀ el e, elections w !! el = Some e →
                   el < nextElection w ∧ election_ok G s (vote_tasks w) el e;
}.

(** A process moves on from its vote only to a later term. *)
Definition vote_le (w w' : World) : Prop :=
  currentTerm (node w) ≤ currentTerm (node w') ∧
  (currentTerm (node w') = currentTerm (node w) →
     votedFor (node w) = "" ∨ votedFor (node w') = votedFor (node w)).

Record inv (c : Cluster) : Prop := {
  inv_cast : ∀ v t k, (v, t, k) ∈ cast c → k ≠ "" ∧ ∃ w, procs c !! v = Some w ∧
               t ≤ currentTerm (node w) ∧ (t = currentTerm (node w) → votedFor (node w) = k);
  inv_once : ∀ v t k k', (v, t, k) ∈ cast c → (v, t, k') ∈ cast c → k = k';
  inv_procs : ∀ s w, procs c !! s = Some w → s ∈ V ∧ proc_ok (cast c) s w;
}.

Lemma wins_mono G G' s t : G ⊆ G' → wins G s t → wins G' s t.
Proof. intros HG (Q & H1 & H2 & H3). exists Q. split_and!; auto. Qed.

Lemma ballot_ok_mono G G' s n n' t : G ⊆ G' → n ≤ n' → ballot_ok G s n t → ballot_ok G' s n' t.
Proof. intros HG Hn. destruct t; simpl; auto; intros (? & ? & ?); destruct_and?; split_and?; eauto; lia. Qed.

Lemma election_ok_mono G G' s ts el e : G ⊆ G' → election_ok G s ts el e → election_ok G' s ts el e.
Proof.
  intros HG (H1 & H2 & t & C & H3 & H4 & H5 & H6 & H7). split_and!; [done..|].
  exists t, C. split_and!; try done; try naive_solver. 
Qed.

Lemma proc_ok_mono G G' s w : G ⊆ G' → proc_ok G s w → proc_ok G' s w.
Proof.
  intros HG []. split; auto.
  - intros. eapply wins_mono; eauto.
  - intros. eapply ballot_ok_mono; [done|done|auto].
  - intros el e [??]%po_elections0. eauto using election_ok_mono.
Qed.

Lemma proc_ok_quiet G s w w' : proc_ok G s w → quiet w w' → proc_ok G s w'.
Proof.
  intros [] [[] Hsv]. split; try congruence; auto.
  - intros Hl. destruct (q_state0 Hl) as [? ->]. auto.
  - rewrite q_tasks0, q_next0. done.
  - rewrite q_tasks0, q_next0, q_elections0. done.
Qed.

Lemma quiet_vote_le w w' : quiet w w' → vote_le w w'.
Proof. intros [[] _]. by split. Qed.

Lemma elem_of_vote_of s w v t k :
  (v, t, k) ∈ vote_of s w → v = s ∧ t = currentTerm (node w) ∧ k = votedFor (node w) ∧ k ≠ "".
Proof.
  unfold vote_of. case_bool_decide; [set_solver|].
  intros ?%elem_of_singleton. naive_solver.
Qed.

Lemma put_inv c s w w' :
  inv c → procs c !! s = Some w → vote_le w w' →
  proc_ok (cast c ∪ vote_of s w') s w' → inv (put s w' c).
Proof.
  intros [Hc Ho Hp] Hs [Hle Hv] Hw'. split; simpl.
  - intros v t k [Hin|Hin]%elem_of_union.
    + destruct (Hc _ _ _ Hin) as (Hk & wv & Hwv & Ht & Hvk). split; [done|].
      destruct (decide (v = s)) as [->|].
      * rewrite lookup_insert_eq. simplify_eq. exists w'. split; [done|]. split; [lia|].
        intros ->. destruct Hv as [Hv|Hv]; [lia| |]; rewrite Hvk in Hv by lia; congruence.
      * rewrite lookup_insert_ne by done. eauto.
    + apply elem_of_vote_of in Hin as (-> & -> & -> & ?). split; [done|].
      rewrite lookup_insert_eq. eexists. split_and!; (done || lia).
  - assert (∀ k k', (s, currentTerm (node w'), k) ∈ cast c → (s, currentTerm (node w'), k') ∈ vote_of s w' → k = k') as Hx.
    { intros k k' Hin (_ & _ & -> & ?)%elem_of_vote_of.
      destruct (Hc _ _ _ Hin) as (Hk & wv & Hwv & Ht & Hvk). simplify_eq.
      destruct Hv as [Hv|Hv]; [lia| |]; rewrite Hvk in Hv by lia; congruence. }
    intros v t k k' [Hin|Hin]%elem_of_union [Hin'|Hin']%elem_of_union.
    + eauto.
    + pose proof Hin' as (-> & -> & _)%elem_of_vote_of. eauto.
    + pose proof Hin as (-> & -> & _)%elem_of_vote_of. symmetry. eauto.
    + apply elem_of_vote_of in Hin, Hin'. destruct_and!. congruence.
  - intros s' w1. destruct (decide (s' = s)) as [->|].
    + rewrite lookup_insert_eq. intros [= <-]. split; [by eapply Hp|done].
    + rewrite lookup_insert_ne by done. intros [??]%Hp. split; [done|].
      eapply proc_ok_mono; [|done]. set_solver.
Qed.

Lemma quiet_inv c s w w' :
  inv c → procs c !! s = Some w → quiet w w' → inv (put s w' c).
Proof.
  intros Hi Hs Hq. eapply put_inv; [done..|by apply quiet_vote_le|].
  eapply proc_ok_quiet; [|done]. eapply proc_ok_mono; [|by apply Hi]. set_solver.
Qed.

(** *** Counting ballots *)

Lemma waiting_app el l1 l2 : waiting el (l1 ++ l2) = waiting el l1 ++ waiting el l2.
Proof. apply omap_app. Qed.

Lemma waiting_ballots el el' t args ps :
  waiting el (ballots el' t args ps) = if decide (el' = el) then ps else [].
Proof.
  unfold ballots, waiting. induction ps as [|p ps IH]; csimpl; [by case_decide|].
  destruct (decide (el' = el)); simpl; by rewrite IH.
Qed.

Lemma waiting_fresh G s next ts : (∀ t, t ∈ ts → ballot_ok G s next t) → waiting next ts = [].
Proof.
  induction ts as [|t ts IH]; intros Hok; [done|]. simpl.
  rewrite IH by (intros; apply Hok; by constructor).
  specialize (Hok t ltac:(constructor)).
  destruct t; simpl in *; try done; rewrite decide_False; (done || lia).
Qed.

Lemma elem_of_peers_of s p : p ∈ V ∧ p ≠ s ↔ peers_of s !! p = Some (mkPeer p false).
Proof.
  unfold peers_of.
  assert (∀ l : list string, p ∈ l ↔
    (foldr (λ a, insert a (mkPeer a false)) ∅ l : gmap string Peer) !! p = Some (mkPeer p false)) as Hl;
    [|by rewrite <- Hl, list_elem_of_filter; tauto].
  intros l. induction l as [|a l IH]; simpl; [by rewrite elem_of_nil, lookup_empty|].
  rewrite elem_of_cons, IH, lookup_insert. case_decide; subst; naive_solver.
Qed.

Lemma peers_of_learner s p q : peers_of s !! p = Some q → q = mkPeer p false.
Proof.
  unfold peers_of. induction (filter _ V) as [|a l IH]; simpl; [by rewrite lookup_empty|].
  rewrite lookup_insert. case_decide; naive_solver.
Qed.

Lemma nonLearner_spec r s :
  peers r = peers_of s → NoDup (nonLearner r) ∧ ∀ p, p ∈ nonLearner r ↔ p ∈ V ∧ p ≠ s.
Proof.
  intros Hp. unfold nonLearner. rewrite Hp. split.
  { apply NoDup_fst_filter, NoDup_fst_map_to_list. }
  intros p. rewrite list_elem_of_fmap, elem_of_peers_of. split.
  - intros ([p' q] & -> & [Hq Hin%elem_of_map_to_list]%list_elem_of_filter). simpl.
    by rewrite (peers_of_learner _ _ _ Hin) in Hin.
  - intros Hin. exists (p, mkPeer p false). split; [done|]. apply list_elem_of_filter.
    split; [done|]. by apply elem_of_map_to_list.
Qed.

Lemma nonLearner_length r s :
  peers r = peers_of s → s ∈ V → len (nonLearner r) = Z.of_nat (size members) - 1.
Proof.
  intros Hp Hs. destruct (nonLearner_spec r s Hp) as [Hnd Hel].
  assert (members = {[s]} ∪ list_to_set (nonLearner r)) as ->.
  { apply set_eq. intros p. unfold members. rewrite elem_of_union, elem_of_singleton, !elem_of_list_to_set, Hel.
    destruct (decide (p = s)); naive_solver. }
  rewrite size_union, size_singleton, size_list_to_set_NoDup by
    (done || apply disjoint_singleton_l; rewrite elem_of_list_to_set, Hel; naive_solver).
  unfold len. lia.
Qed.

Lemma alone_members s : s ∈ V → peers_of s = ∅ → members = {[s]}.
Proof.
  intros Hs Hp. apply set_eq. intros p. unfold members. rewrite elem_of_list_to_set, elem_of_singleton.
  split; [|by intros ->]. intros Hin. destruct (decide (p = s)); [done|].
  assert (peers_of s !! p = Some (mkPeer p false)) as H by (by apply elem_of_peers_of).
  by rewrite Hp, lookup_empty in H.
Qed.

(** Removing a ballot, and moving it to the end. *)
Lemma election_ok_sub G s l1 t l2 el e :
  election_ok G s (l1 ++ t :: l2) el e → election_ok G s (l1 ++ l2) el e.
Proof.
  intros (H1 & H2 & tm & C & H3 & H4 & H5 & H6 & H7 & H8). split_and!; [done..|].
  change (t :: l2) with ([t] ++ l2) in *. rewrite !waiting_app in *.
  assert (∀ x, x ∈ l1 ++ l2 → x ∈ l1 ++ [t] ++ l2) as Hin.
  { intros x. rewrite !elem_of_app. tauto. }
  exists tm, C. split_and!; [done|done| | |by eauto|by eauto].
  - intros p Hp. destruct (H5 p Hp) as [? Hn]. split; [done|]. rewrite !elem_of_app in *. tauto.
  - eapply sublist_NoDup; [exact H6|]. apply sublist_app; [done|]. by apply sublist_inserts_l.
Qed.

Lemma election_ok_move G s l1 l2 el el' p tm args reply e :
  election_ok G s (l1 ++ TVote el' p tm args :: l2) el e →
  election_ok G s ((l1 ++ l2) ++ [TVoteReply el' p tm reply]) el e.
Proof.
  intros (H1 & H2 & t & C & H3 & H4 & H5 & H6 & H7 & H8). split_and!; [done..|].
  change (TVote el' p tm args :: l2) with ([TVote el' p tm args] ++ l2) in *.
  assert (waiting el ((l1 ++ l2) ++ [TVoteReply el' p tm reply]) ≡ₚ
          waiting el (l1 ++ [TVote el' p tm args] ++ l2)) as Hperm.
  { rewrite !waiting_app. simpl. case_decide; solve_Permutation. }
  exists t, C. split_and!; [done|done| | | |].
  - intros q Hq. by rewrite Hperm; auto.
  - by rewrite Hperm.
  - intros q t' a. rewrite !elem_of_app, list_elem_of_singleton. intros [[?|?]|?]; [..|done];
      eapply H7; rewrite !elem_of_app; eauto.
  - intros q t' a. rewrite !elem_of_app, list_elem_of_singleton. intros [[?|?]|Heq];
      [eapply H8; rewrite !elem_of_app; eauto..|]. simplify_eq.
    eapply (H7 p). rewrite !elem_of_app, list_elem_of_singleton. eauto.
Qed.

Lemma proc_ok_take G s w i t :
  proc_ok G s w → tasks w !! i = Some t → is_vote t = true → proc_ok G s (take_task i w).
Proof.
  intros [] Hi Ht. destruct (vote_tasks_take i w t Hi) as [_ H].
  destruct (H Ht) as (l1 & l2 & Hl & Hl'). clear H. split; try done.
  - destruct po_saved0. by split.
  - intros t'. rewrite Hl'. intros Hin. apply po_ballots0. rewrite Hl, elem_of_app, elem_of_cons.
    apply elem_of_app in Hin as [?|?]; auto.
  - intros el e [??]%po_elections0. split; [done|]. rewrite Hl'. rewrite Hl in *. by eapply election_ok_sub.
Qed.

Lemma proc_ok_reply G s w i el p t args reply :
  proc_ok G s w → tasks w !! i = Some (TVote el p t args) →
  (vr_VoteGranted reply = true → (p, t, s) ∈ G) →
  proc_ok G s (set_task i (TVoteReply el p t reply) w).
Proof.
  intros Hok Hi Hg. destruct (vote_tasks_take i w _ Hi) as [_ H].
  destruct (H eq_refl) as (l1 & l2 & Hl & Hl'). clear H.
  assert (vote_tasks (set_task i (TVoteReply el p t reply) w) =
          (l1 ++ l2) ++ [TVoteReply el p t reply]) as Hl''.
  { rewrite <- Hl'. unfold set_task, vote_tasks, go. simpl. by rewrite filter_app. }
  assert (ballot_ok G s (nextElection w) (TVote el p t args)) as (? & ? & _).
  { apply Hok. rewrite Hl, elem_of_app, elem_of_cons. auto. }
  destruct (proc_ok_take _ _ _ _ _ Hok Hi eq_refl) as [H1 H2 H3 H4 H5 _]. split; try done.
  - destruct H3. by split.
  - intros t'. rewrite Hl'', elem_of_app, <- Hl', list_elem_of_singleton. intros [?| ->]; [by apply H5|done].
  - intros el' e [??]%(po_elections _ _ _ Hok). split; [done|]. rewrite Hl''. rewrite Hl in *.
    by eapply election_ok_move.
Qed.

(** *** A new election *)

Lemma names_nonempty s : s ∈ V → s ≠ "".
Proof. by intros Hs ->. Qed.

Lemma self_vote w s : s ∈ V → votedFor (node w) = s → (s, currentTerm (node w), s) ∈ vote_of s w.
Proof.
  intros Hs Hv. unfold vote_of. rewrite Hv, bool_decide_eq_false_2 by (by apply names_nonempty).
  by apply elem_of_singleton.
Qed.

Lemma new_election_ok G s w e args :
  proc_ok G s w → s ∈ V → (s, currentTerm (node w) + 1, s) ∈ G →
  el_votes e = 1 → el_configState e = configState (node w) →
  el_nonLearnerPeers e = len (nonLearner (node w)) →
  election_ok G s (vote_tasks w ++ ballots (nextElection w) (currentTerm (node w) + 1) args
    (nonLearner (node w))) (nextElection w) e.
Proof.
  intros [] Hs Hself Hv Hc Hn. destruct (nonLearner_spec (node w) s) as [Hnd Hel]; [done|].
  assert (∀ x, x ∈ vote_tasks w → ballot_ok G s (nextElection w) x) as Hold by done.
  split_and!; [rewrite Hc; apply po_saved0|rewrite Hn; by apply (nonLearner_length _ s)|].
  exists (currentTerm (node w) + 1), {[s]}.
  rewrite waiting_app, (waiting_fresh G s), waiting_ballots, decide_True, app_nil_l by done.
  split_and!.
  - apply singleton_subseteq_l. by apply elem_of_list_to_set.
  - by rewrite size_singleton, Hv.
  - intros p ->%elem_of_singleton. split; [done|]. rewrite Hel. tauto.
  - done.
  - intros p t' a [Hin%Hold|Hin]%elem_of_app; [simpl in Hin; lia|].
    apply list_elem_of_fmap in Hin as (? & ? & _). naive_solver.
  - intros p t' a [Hin%Hold|Hin]%elem_of_app; [simpl in Hin; lia|].
    apply list_elem_of_fmap in Hin as (? & ? & _). naive_solver.
Qed.

Lemma old_election_ok G s ts next t args ps el e :
  el < next → election_ok G s ts el e → election_ok G s (ts ++ ballots next t args ps) el e.
Proof.
  intros Hlt (H1 & H2 & tm & C & H3 & H4 & H5 & H6 & H7 & H8). split_and!; [done..|].
  exists tm, C. rewrite waiting_app, waiting_ballots, decide_False, app_nil_r by lia.
  split_and!; try done; intros p t' a [Hin|(? & ? & _)%list_elem_of_fmap]%elem_of_app; eauto;
    simplify_eq; lia.
Qed.

Lemma elected_ok G s w w' :
  proc_ok G s w → s ∈ V → elected w w' →
  vote_le w w' ∧ proc_ok (G ∪ vote_of s w') s w'.
Proof.
  intros Hok Hs [Hself Hpeers Hsaved Hterm Hvote Hb]. split; [split; lia|].
  set (G' := G ∪ vote_of s w').
  apply (proc_ok_mono _ G') in Hok; [|set_solver]. pose proof Hok as [H1 H2 H3 H4 H5 H6].
  rewrite H1 in *.
  assert ((s, currentTerm (node w) + 1, s) ∈ G') as Hsv.
  { apply elem_of_union_r. rewrite <- Hterm. by apply self_vote. }
  destruct Hb as [(Hp & Hts & Hels & Hnx)|(Hst & Hnx & args & e & Ha1 & Ha2 & _ & _ & Hts & Hels & He)].
  - split; try congruence; auto.
    + intros _. rewrite Hterm. exists {[s]}. rewrite (alone_members s) by (done || congruence).
      split_and!; [done|rewrite size_singleton; lia|]. by intros p ->%elem_of_singleton.
    + by rewrite Hts, Hnx.
    + by rewrite Hts, Hels, Hnx.
  - destruct (nonLearner_spec (node w) s) as [_ Hel]; [done|].
    split; try congruence; auto.
    + intros t. rewrite Hts, Hnx. intros [Hin|(p & -> & Hin)%list_elem_of_fmap]%elem_of_app.
      * eapply ballot_ok_mono; [done| |by apply H5]. lia.
      * apply Hel in Hin. simpl. split_and!; [lia|naive_solver|done|done].
    + intros el e'. rewrite Hels, Hnx, Hts.
      intros [[<- <-]|[Hne [Hlt Hokel]%H6]]%lookup_insert_Some.
      * split; [lia|]. destruct He as (? & ? & ?). by apply new_election_ok.
      * split; [lia|]. by apply old_election_ok.
Qed.

(** *** Counting a vote *)

(** A granted vote of [p], whose ballot is not outstanding any more. *)
Lemma count_ok G s l1 l2 el p t reply e :
  election_ok G s (l1 ++ TVoteReply el p t reply :: l2) el e → p ∈ V → (p, t, s) ∈ G →
  election_ok G s (l1 ++ l2) el (e <| el_wg ::= Z.pred |> <| el_votes ::= Z.succ |>) ∧
  ((el_nonLearnerPeers e + 1) / 2 < el_votes e + 1 → wins G s t).
Proof.
  intros Hok Hp Hg. pose proof (election_ok_sub _ _ _ _ _ _ _ Hok) as (H1 & H2 & _).
  destruct Hok as (_ & _ & tm & C & H3 & H4 & H5 & H6 & H7 & H8).
  assert (t = tm) as ->. { eapply H8. rewrite elem_of_app, elem_of_cons. eauto. }
  change (TVoteReply el p tm reply :: l2) with ([TVoteReply el p tm reply] ++ l2) in *.
  rewrite !waiting_app in *. simpl in H5, H6. rewrite decide_True in H5, H6 by done. simpl in H5, H6.
  assert (p ∉ C) as HpC.
  { intros Hin. apply H5 in Hin as [_ Hin]. rewrite elem_of_app, elem_of_cons in Hin. tauto. }
  assert (({[p]} ∪ C) ⊆ members) as Hsub.
  { apply union_least; [|done]. apply singleton_subseteq_l. by apply elem_of_list_to_set. }
  assert (size ({[p]} ∪ C) = S (size C)) as Hsz.
  { rewrite size_union, size_singleton by (by apply disjoint_singleton_l). done. }
  assert (∀ q, q ∈ {[p]} ∪ C → (q, tm, s) ∈ G) as Hall.
  { intros q [->%elem_of_singleton|?]%elem_of_union; [done|naive_solver]. }
  rewrite <- Permutation_middle in H6. apply NoDup_cons in H6 as [Hpw Hnd].
  split.
  - split_and!; [done..|]. exists tm, ({[p]} ∪ C). rewrite waiting_app.
    split_and!; [done|simpl; lia| |done| |].
    + intros q Hq. split; [auto|]. apply elem_of_union in Hq as [->%elem_of_singleton|Hq]; [done|].
      apply H5 in Hq as [_ Hq]. rewrite elem_of_app, elem_of_cons in Hq. rewrite elem_of_app. tauto.
    + intros q t' a Hin. eapply H7. rewrite !elem_of_app in *. naive_solver.
    + intros q t' a Hin. eapply H8. rewrite !elem_of_app in *. naive_solver.
  - intros Hq. exists ({[p]} ∪ C). split_and!; [done| |done]. rewrite Hsz. rewrite H2, H4 in Hq.
    replace (Z.of_nat (size members) - 1 + 1) with (Z.of_nat (size members)) in Hq by lia.
    pose proof (Z.div_mod (Z.of_nat (size members)) 2). pose proof (Z.mod_pos_bound (Z.of_nat (size members)) 2). lia.
Qed.

Lemma proc_ok_election G s w el e :
  proc_ok G s w → el < nextElection w → election_ok G s (vote_tasks w) el e →
  proc_ok G s (w <| elections ::= <[el := e]> |>).
Proof.
  intros [] Hlt He. split; try done; [by destruct po_saved0|].
  simpl. intros el' e' [[<- <-]|[_ ?]]%lookup_insert_Some; [done|auto].
Qed.

Lemma proc_ok_leader G s w :
  proc_ok G s w → wins G s (currentTerm (node w)) → proc_ok G s (becomeLeader w).
Proof.
  intros [] Hw. destruct (becomeLeader_frame w) as (ts & cl & ni & mi & ir & Heq).
  assert (vote_tasks (becomeLeader w) = vote_tasks w) as Hts.
  { rewrite Heq. unfold vote_tasks. simpl. rewrite filter_app, (filter_none _ (_ <$> _)), app_nil_r; [done|].
    by intros ? (? & -> & _)%list_elem_of_fmap. }
  split; rewrite ?Hts; rewrite Heq; try done. destruct po_saved0. by split.
Qed.

Lemma becomeLeader_vote_le w : vote_le w (becomeLeader w).
Proof. destruct (becomeLeader_frame w) as (? & ? & ? & ? & ? & ->). split; simpl; [lia|auto]. Qed.

Definition stays_ok G (s : string) (w w' : World) : Prop := vote_le w w' ∧ proc_ok G s w'.

Lemma stays_ok_quiet G s w w1 w2 : stays_ok G s w w1 → quiet w1 w2 → stays_ok G s w w2.
Proof.
  intros [[H1 H2] H3] Hq. split; [|by eapply proc_ok_quiet].
  destruct (quiet_vote_le _ _ Hq) as [H4 H5]. split; [lia|]. intros Heq.
  destruct (H2 ltac:(lia)) as [|E2]; [by left|].
  destruct (H5 ltac:(lia)) as [E5|E5]; [left|right]; congruence.
Qed.

Lemma stays_ok_unlock G s w w1 :
  stays_ok G s w w1 → wp Unlock (λ _, stays_ok G s w) (stays_ok G s w) (stays_ok G s w) w1.
Proof.
  intros H. apply wp_Unlock_any; [done|]. eapply stays_ok_quiet; [exact H|quiet_done].
Qed.

Lemma voteReply_ok G s w i el p t reply :
  proc_ok G s w → tasks w !! i = Some (TVoteReply el p t reply) →
  stays_ok G s w (final (voteReply el p t reply (take_task i w))).
Proof.
  intros Hok Hi.
  pose proof (proc_ok_take _ _ _ _ _ Hok Hi eq_refl) as Hok1.
  assert (stays_ok G s w (take_task i w)) as Hst1 by (split; [split; simpl; auto; lia|done]).
  destruct (vote_tasks_take i w _ Hi) as [_ Hl]. destruct (Hl eq_refl) as (l1 & l2 & Hts & Hts'). clear Hl.
  assert (ballot_ok G s (nextElection w) (TVoteReply el p t reply)) as (Hnx & HpV & Hgr).
  { apply Hok. rewrite Hts, elem_of_app, elem_of_cons. auto. }
  enough (wp (voteReply el p t reply) (λ _, stays_ok G s w) (stays_ok G s w) (stays_ok G s w) (take_task i w)) as H.
  { unfold wp in H. by destruct (voteReply el p t reply (take_task i w)). }
  unfold voteReply. apply wp_bind, wp_Lock_any; [done|]. cbv beta. wp_run.
  set (w2 := upd _ (take_task i w)).
  assert (stays_ok G s w w2) as Hst2 by (eapply stays_ok_quiet; [exact Hst1|subst w2; quiet_done]).
  apply wp_of_option; [intros e He|by intros _]. wp_run.
  assert (election_ok G s (vote_tasks w) el e) as Hel by (by apply (po_elections _ _ _ Hok)).
  rewrite Hts in Hel. match goal with |- wp _ _ _ _ ?x => set (w3 := x) end.
  assert (stays_ok G s w w3) as Hst3.
  { split; [apply Hst2|]. apply proc_ok_election; [apply Hst2|done|].
    change (vote_tasks w2) with (vote_tasks (take_task i w)). rewrite Hts'.
    by apply election_ok_sub in Hel. }
  apply wp_if; intros Ht; bool_to_prop; wp_run.
  { apply stays_ok_unlock. eapply stays_ok_quiet; [exact Hst3|]. by apply quiet_follower. }
  apply wp_when; intros Hc; [|by apply stays_ok_unlock]. bool_to_prop.
  destruct (count_ok _ _ _ _ _ _ _ _ _ Hel HpV) as [Hcount Hwin]; [by apply Hgr|].
  assert (el_configState e = ConfigStable) as Hcfg by apply Hel.
  destruct e as [v ov nv cfg oc nc nl wg]. simpl in Hcfg. subst cfg. cbn [el_configState update]. wp_run.
  match goal with |- wp _ _ _ _ ?x => set (w4 := x) end.
  assert (stays_ok G s w w4) as Hst4.
  { split; [apply Hst3|]. eapply (proc_ok_election G s w3); [apply Hst3|done|].
    change (vote_tasks w3) with (vote_tasks (take_task i w)). by rewrite Hts'. }
  apply wp_when; intros Hq; [apply wp_modify|]; apply stays_ok_unlock; [|done].
  simpl in Hq. bool_to_prop.
  destruct Hst4 as [Hle4 Hok4]. split.
  - destruct (becomeLeader_vote_le w4) as [E1 E2]. split; [destruct Hle4; lia|].
    destruct (becomeLeader_frame w4) as (? & ? & ? & ? & ? & ->). apply Hle4.
  - apply proc_ok_leader; [done|]. change (currentTerm (node w4)) with (currentTerm (node w2)).
    rewrite H1. apply Hwin. simpl in Hq |- *. lia.
Qed.

(** *** Every step keeps the invariant *)

Lemma elected_stays G s w w1 w2 :
  proc_ok G s w → s ∈ V → quiet w w1 → elected w1 w2 → stays_ok (G ∪ vote_of s w2) s w w2.
Proof.
  intros Hok Hs Hq He. destruct (quiet_vote_le _ _ Hq) as [Hle _].
  destruct (elected_ok G s w1 w2) as [[H1 H2] H3]; [by eapply proc_ok_quiet|done|done|].
  split; [|done]. destruct He. split; lia.
Qed.

Lemma stays_ok_mono G G' s w w' : G ⊆ G' → stays_ok G s w w' → stays_ok G' s w w'.
Proof. intros HG [??]. split; [done|]. by eapply proc_ok_mono. Qed.

(** [startElection;; Unlock] with the vote it casts. *)
Lemma elect_unlock_ok G s w w1 (G' := λ w2, G ∪ vote_of s w2) :
  proc_ok G s w → s ∈ V → quiet w w1 → 0 ≤ currentTerm (node w1) < 2 ^ 64 - 1 →
  wp (startElection;; Unlock) (λ _ w2, stays_ok (G' w2) s w w2)
    (λ w2, stays_ok (G' w2) s w w2) (λ w2, stays_ok (G' w2) s w w2) w1.
Proof.
  intros Hok Hs Hq Ht. apply wp_bind. eapply wp_mono; [apply startElection_elected; [done|]|..]; try done.
  { apply (quiet_saved _ _ Hq), Hok. }
  intros _ w2 (He & _ & _). pose proof (elected_stays _ _ _ _ _ Hok Hs Hq He) as Hst.
  apply wp_Unlock_any; [done|]. eapply stays_ok_quiet; [exact Hst|quiet_done].
Qed.

Lemma stays_ok_same G s w w' : proc_ok G s w → quiet w w' → stays_ok (G ∪ vote_of s w') s w w'.
Proof.
  intros Hok Hq. apply (stays_ok_mono G); [set_solver|]. split; [by apply quiet_vote_le|].
  by eapply proc_ok_quiet.
Qed.

Lemma electoral_ok G s w w' :
  proc_ok G s w → s ∈ V → electoral w w' → stays_ok (G ∪ vote_of s w') s w w'.
Proof.
  intros Hok Hs He. set (Q w' := stays_ok (G ∪ vote_of s w') s w w'). change (Q w').
  assert (∀ A (m : prog World A) w0, wp m (λ _, Q) Q Q w0 → Q (final (m w0))) as Hfin.
  { intros A m w0. unfold wp. by destruct (m w0). }
  destruct He as [w Ht|w i el t Hi Ht|w i el p t reply Hi|w i el p t args Hi].
  - apply Hfin. unfold onElectionTimer. wp_run.
    apply wp_Lock_any; [apply stays_ok_same; [done|quiet_done]|]. cbv beta. wp_run.
    apply wp_if; intros _; [wp_run; apply stays_ok_same; [done|quiet_done]|].
    apply elect_unlock_ok; try done. quiet_done.
  - assert (quiet w (take_task i w)) as Hq by (by eapply take_task_quiet).
    apply Hfin. unfold voteWait.
    apply wp_bind, wp_Lock_any; [by apply stays_ok_same|]. cbv beta. wp_run.
    apply wp_when; intros _; [|wp_run; apply stays_ok_same; [done|by quiet_done]].
    eapply wp_mono; [eapply startElection_elected|..]; [done|apply (po_saved _ _ _ Hok)|..|done|done].
    intros _ w2 (He & _ & _).
    assert (stays_ok (G ∪ vote_of s w2) s w w2) as Hst.
    { eapply elected_stays; [done|done| |exact He]. quiet_done. }
    apply wp_Unlock_any; [done|]. eapply stays_ok_quiet; [exact Hst|quiet_done].
  - apply (stays_ok_mono G); [set_solver|]. by apply voteReply_ok.
  - apply (stays_ok_mono G); [set_solver|]. split; [split; simpl; auto; lia|].
    by eapply proc_ok_reply.
Qed.

Lemma boot_proc s d :
  log (node (boot V dir s d)) ≠ [] ∧ selfAddr (node (boot V dir s d)) = s ∧
  peers (node (boot V dir s d)) = peers_of s ∧ state (node (boot V dir s d)) = Follower ∧
  tasks (boot V dir s d) = [] ∧ elections (boot V dir s d) = ∅ ∧ disk (boot V dir s d) = d ∧
  faults (boot V dir s d) = no_faults ∧ dataDir (node (boot V dir s d)) = dir ∧
  match stateFile d with
  | None => currentTerm (node (boot V dir s d)) = 0 ∧ votedFor (node (boot V dir s d)) = "" ∧
            configState (node (boot V dir s d)) = ConfigStable
  | Some st => currentTerm (node (boot V dir s d)) = ps_CurrentTerm st ∧
               votedFor (node (boot V dir s d)) = ps_VotedFor st ∧
               configState (node (boot V dir s d)) = ps_ConfigState st
  end.
Proof.
  unfold boot, NewRaftNode, loadState, loadLogEntries. simpl.
  rewrite !bool_decide_eq_false_2 by done. destruct (stateFile d); simpl; [|by split_and!].
  destruct (logFile d); simpl; by split_and!.
Qed.

Lemma boot_ok G s d w :
  disk w = d → saved w → stays_ok G s w (boot V dir s d).
Proof.
  intros Hd [_ _ _ _ Hdisk]. rewrite Hd in Hdisk.
  destruct (boot_proc s d) as (H1 & H2 & H3 & H4 & H5 & H6 & H7 & H8 & H9 & H10).
  split.
  { split; destruct (stateFile d); destruct_and!; first [lia|intros; right; congruence]. }
  split; [done|done| |congruence| |].
  - split; [congruence|done|destruct (stateFile d); destruct_and!; congruence|done|].
    rewrite H7. destruct (stateFile d); destruct_and!; split_and!; congruence.
  - intros t. unfold vote_tasks. rewrite H5. by intros ?%not_elem_of_nil.
  - intros el e. by rewrite H6, lookup_empty.
Qed.

Lemma fresh_inv : inv (fresh V dir).
Proof.
  assert (∀ s w, procs (fresh V dir) !! s = Some w → s ∈ V ∧ w = boot V dir s (mkDisk None [])) as Hp.
  { intros s w H%elem_of_list_to_map_2. apply list_elem_of_fmap in H as (s' & ? & ?). by simplify_eq. }
  split; simpl; [set_solver..|]. intros s w [Hs ->]%Hp. split; [done|].
  destruct (boot_proc s (mkDisk None [])) as (H1 & H2 & H3 & H4 & H5 & H6 & H7 & H8 & H9 & H10 & H11 & H12).
  split; [done|done| |congruence| |].
  - split; try congruence. by rewrite H7.
  - intros t. unfold vote_tasks. rewrite H5. by intros ?%not_elem_of_nil.
  - intros el e. by rewrite H6, lookup_empty.
Qed.

Lemma stays_inv c s w w' :
  inv c → procs c !! s = Some w → stays_ok (cast c ∪ vote_of s w') s w w' → inv (put s w' c).
Proof. intros Hi Hs [??]. by eapply put_inv. Qed.

(** A granted vote is the callee's vote in the candidate's term. *)
Lemma RequestVote_granted args w reply w' :
  RequestVote args w = Ret reply w' → vr_VoteGranted reply = true →
  currentTerm (node w') = va_Term args ∧ votedFor (node w') = va_CandidateId args.
Proof.
  intros Hret. enough (wp (RequestVote args) (λ reply w', vr_VoteGranted reply = true →
    currentTerm (node w') = va_Term args ∧ votedFor (node w') = va_CandidateId args)
    (λ _, True) (λ _, True) w) as H by (unfold wp in H; by rewrite Hret in H).
  unfold RequestVote. apply wp_bind, wp_Lock_any; [done|]. cbv beta. wp_run.
  apply wp_if; intros E; bool_to_prop; [wp_run; by simpl|]. wp_run.
  apply wp_stepDown; [done|]. intros w1 Hst. wp_run.
  apply wp_if; intros Hv; wp_run.
  - apply wp_of_option; [|done]. intros [] _; wp_run; [|apply wp_Unlock_any; wp_run; by simpl].
    expose. apply wp_Unlock_any; [done|]. wp_run. simpl. intros _. split; [apply Hst|done].
  - apply wp_Unlock_any; wp_run; by simpl.
Qed.

Lemma call_inv c p wp' s w i o t :
  inv c → procs c !! s = Some w → procs c !! p = Some wp' → p ≠ s →
  quiet wp' o → is_vote t = false → tasks w !! i = Some t →
  ∀ t', is_vote t' = false → inv (put s (set_task i t' w) (put p o c)).
Proof.
  intros Hi Hs Hp Hne Hq Ht Hti t' Ht'. apply (quiet_inv _ _ w).
  - by eapply quiet_inv.
  - simpl. by rewrite lookup_insert_ne.
  - eapply take_task_quiet; [done|done|]. by apply quiet_go.
Qed.

Lemma step_inv c c' :
  map_Forall (λ _, clean) (procs c) → inv c → step V dir stray c c' → inv c'.
Proof.
  intros Hcl Hi Hstep. pose proof (inv_procs _ Hi) as Hp. destruct Hstep as
    [s w w' Hs Hl|s w Hs|s w q Hs _|s w i el p t args wp Hs Hti Hpp Hne o|
     s w i p args wp Hs Hti Hpp Hne o|s w i p args wp Hs Hti Hpp Hne o].
  - destruct (local_quiet _ _ (cl_log _ (Hcl _ _ Hs)) Hl) as [Hq|He]; [by eapply quiet_inv|].
    destruct (Hp _ _ Hs). eapply stays_inv; [done..|]. by apply electoral_ok.
  - destruct (Hp _ _ Hs) as [_ Hok]. eapply stays_inv; [done..|]. apply boot_ok; [done|apply Hok].
  - eapply quiet_inv; [done..|apply serve_quiet].
  - assert (inv (put p (final o) c)) as Hi1 by (eapply quiet_inv; [done..|apply RequestVote_quiet]).
    assert (procs (put p (final o) c) !! s = Some w) as Hs1 by (simpl; by rewrite lookup_insert_ne).
    eapply stays_inv; [done..|]. apply (stays_ok_mono (cast (put p (final o) c))); [set_solver|].
    split; [split; simpl; auto; lia|]. destruct (Hp _ _ Hs) as [_ Hok].
    destruct (inv_procs _ Hi1 _ _ Hs1) as [_ Hok1]. eapply proc_ok_reply; [done..|].
    assert (ballot_ok (cast c) s (nextElection w) (TVote el p t args)) as (_ & _ & Hta & Hca).
    { apply Hok. apply list_elem_of_filter. split; [done|]. by eapply list_elem_of_lookup_2. }
    destruct o as [reply w'| |] eqn:Ho; simpl; [|done..]. intros Hg.
    destruct (RequestVote_granted _ _ _ _ Ho Hg) as [Hct Hvf].
    apply elem_of_union_r. unfold vote_of. rewrite Hvf, Hca, bool_decide_eq_false_2.
    + apply elem_of_singleton. by rewrite Hct, Hta.
    + apply names_nonempty. by apply (Hp _ _ Hs).
  - apply (call_inv c p wp s w i _ (TAppend p args)); try done. apply AppendEntries_quiet.
  - apply (call_inv c p wp s w i _ (TSnapshot p args)); try done. apply InstallSnapshot_quiet.
Qed.

Lemma reachable_inv c :
  (∀ q, stray q → data_request q) → reachable V dir stray c → inv c.
Proof.
  intros Hq. induction 1; [apply fresh_inv|]. eapply step_inv; [by eapply reachable_clean|done..].
Qed.

Lemma two_winners c s1 s2 t :
  inv c → wins (cast c) s1 t → wins (cast c) s2 t → s1 = s2.
Proof.
  intros Hi (Q1 & Hs1 & Hq1 & Hv1) (Q2 & Hs2 & Hq2 & Hv2).
  destruct (majority_intersect members Q1 Q2) as (p & H1 & H2); [done..|].
  by apply (inv_once _ Hi p t); auto.
Qed.

End safety.

(** C1: Election safety, without membership changes.  Take the nodes named in
    [V], started on empty disks, and any state they can reach: timers fire,
    goroutines run in any order, calls are lost, delayed or repeated, clients
    submit commands, processes restart from their disks, and requests with
    arbitrary contents arrive, except that they carry no configuration
    entries.  [AddNode] and [RemoveNode] are not called, file operations
    succeed, and terms stay below [2^64 - 1].  Then two nodes that lead in the
    same term are the same node. *)
Theorem election_safety V dir stray c s1 s2 w1 w2 :
  "" ∉ V → dir ≠ "" → (∀ q, stray q → data_request q) →
  reachable V dir stray c →
  procs c !! s1 = Some w1 → procs c !! s2 = Some w2 →
  state (node w1) = Leader → state (node w2) = Leader →
  currentTerm (node w1) = currentTerm (node w2) → s1 = s2.
Proof.
  intros Hn Hd Hq Hr H1 H2 L1 L2 Ht. pose proof (reachable_inv V dir stray Hn Hd c Hq Hr) as Hi.
  destruct (inv_procs _ _ Hi _ _ H1) as [_ Hok1], (inv_procs _ _ Hi _ _ H2) as [_ Hok2].
  eapply (two_winners V c _ _ (currentTerm (node w1))); [done|by apply Hok1|].
  rewrite Ht. by apply Hok2.
Qed.

(** ** A fresh cluster *)

(** A process that never led: nothing in its log, and every vote it asked
    for will be refused. *)
Definition idle_task (t : Task) : Prop :=
  match t with
  | TVote _ _ _ args => va_LastLogIndex args = 0 ∧ va_LastLogTerm args = 0
  | TVoteReply _ _ _ reply => vr_VoteGranted reply = false
  | TVoteWait _ _ => True
  | _ => False
  end.

Record idle (w : World) : Prop := {
  id_log : log (node w) = [sentinel];
  id_state : state (node w) ≠ Leader;
  id_peers : peers (node w) ≠ ∅;
  id_persisted : persistedIndex (node w) = 0;
  id_file : logFile (disk w) = [];
  id_disk : ∀ st, stateFile (disk w) = Some st → ps_PersistedIndex st = 0;
  id_tasks : Forall idle_task (tasks w);
}.

Lemma idle_upd f w :
  (∀ r, log (f r) = log r ∧ peers (f r) = peers r ∧ persistedIndex (f r) = persistedIndex r) →
  (∀ r, state r ≠ Leader → state (f r) ≠ Leader) → idle w → idle (upd f w).
Proof.
  intros Hf Hs []. destruct (Hf (node w)) as (? & ? & ?). split; simpl; try congruence; auto.
Qed.

Lemma idle_save w : idle w → idle (saveState w).
Proof.
  intros []. destruct w as [r d fl cl nc ap ts els ne]. unfold saveState, appendLogEntries.
  simpl in *. rewrite id_persisted0, id_log0.
  repeat case_match; split; simpl; auto; try (intros; simplify_eq/=; done);
    try (by rewrite id_log0); rewrite id_file0; by rewrite ?take_nil.
Qed.

Lemma idle_follower t w : idle w → idle (becomeFollower t w).
Proof.
  intros H. unfold becomeFollower. apply idle_save. rewrite clearPending_frame.
  unfold resetElectionTimer. destruct H. by split.
Qed.

Lemma idle_tasks l w : Forall idle_task l → idle w → idle (w <| tasks ::= λ ts, ts ++ l |>).
Proof. intros Hl []. split; try done. simpl. by apply Forall_app. Qed.

Lemma idle_take i w : idle w → idle (take_task i w).
Proof.
  intros []. split; try done. simpl. apply Forall_app. split; [by apply Forall_take|by apply Forall_drop].
Qed.

Lemma idle_election el e w : idle w → idle (w <| elections ::= <[el := e]> |>).
Proof. intros []. by split. Qed.

(** Every outcome of a program keeps the process idle. *)
Definition stays_idle {A} (m : prog World A) : Prop :=
  ∀ w, idle w → wp m (λ _, idle) idle idle w.

Lemma stays_idle_final {A} (m : prog World A) w : stays_idle m → idle w → idle (final (m w)).
Proof. intros Hm Hw. specialize (Hm w Hw). unfold wp in Hm. by destruct (m w). Qed.

Ltac idle_done := repeat first
  [ assumption | apply idle_upd; [done|done|] | apply idle_follower | apply idle_save
  | apply idle_election ].
Ltac idle_wp := repeat (lazymatch goal with
  | |- wp Lock _ _ _ _ => apply wp_Lock_any; [idle_done|]
  | |- wp Unlock _ _ _ _ => apply wp_Unlock_any; [idle_done|]
  | |- wp (modify _) _ _ _ _ => apply wp_modify
  | |- wp _ _ _ _ _ => wp_step
  end; cbv beta).

Lemma startElection_idle : stays_idle startElection.
Proof.
  intros w Hw. unfold startElection, resetElectionTimer. wp_run. simpl. rewrite (id_log _ Hw). simpl. wp_run.
  rewrite bool_decide_eq_false_2 by apply Hw. wp_run.
  rewrite (go_all_frame (λ p, TVote (nextElection w) p _ _)).
  apply idle_save, idle_tasks, idle_tasks; [by repeat constructor| |].
  - apply Forall_fmap, Forall_true. done.
  - destruct Hw. by split.
Qed.

Lemma onElectionTimer_idle : stays_idle onElectionTimer.
Proof.
  intros w Hw. unfold onElectionTimer. idle_wp. apply wp_if; intros _; idle_wp; [unfold resetElectionTimer; idle_done|].
  eapply wp_mono; [apply startElection_idle; idle_done|..]; [|done..].
  intros ? w' Hw'. cbv beta in *. idle_wp. idle_done.
Qed.

Lemma voteWait_idle t : stays_idle (voteWait t).
Proof.
  intros w Hw. unfold voteWait. idle_wp. apply wp_when; intros _; [|idle_wp; idle_done].
  eapply wp_mono; [apply startElection_idle; idle_done|..]; [|done..].
  intros ? w' Hw'. cbv beta in *. idle_wp. idle_done.
Qed.

Lemma voteReply_idle el p t reply :
  vr_VoteGranted reply = false → stays_idle (voteReply el p t reply).
Proof.
  intros Hg w Hw. unfold voteReply. idle_wp. apply wp_of_option; [intros e _|intros _; idle_done].
  idle_wp. apply wp_if; intros _; idle_wp; [idle_done|].
  rewrite Hg, andb_false_r. apply wp_ret. idle_wp. idle_done.
Qed.

(** A vote request with an empty log is refused. *)
Lemma RequestVote_idle args w :
  idle w → va_LastLogIndex args = 0 → va_LastLogTerm args = 0 →
  wp (RequestVote args) (λ reply w', vr_VoteGranted reply = false ∧ idle w') idle idle w.
Proof.
  intros Hw H1 H2. unfold RequestVote. idle_wp. apply wp_if; intros _; idle_wp.
  { simpl. split; [done|]. idle_done. }
  assert (∀ w1 : World, idle w1 → wp (r ← gets node;
    up ← (if bool_decide (votedFor r = "") || bool_decide (votedFor r = va_CandidateId args)
          then of_option (isLogUpToDate (va_LastLogIndex args) (va_LastLogTerm args) r)
          else mret false);
    if (up : bool) then
      modify (λ w, saveState (resetElectionTimer
        (upd (λ r, r <| votedFor := va_CandidateId args |>) w)));;
      Unlock;; mret (mkRequestVoteReply (currentTerm r) true)
    else Unlock;; mret (mkRequestVoteReply (currentTerm r) false))
    (λ reply w', vr_VoteGranted reply = false ∧ idle w') idle idle w1) as Hrest.
  { intros w1 Hw1. idle_wp. unfold isLogUpToDate. rewrite (id_log _ Hw1), H1, H2. simpl.
    apply wp_if; intros _; idle_wp; simpl; split; (done || idle_done). }
  apply wp_when; intros _; [apply wp_modify|]; apply Hrest; idle_done.
Qed.

Lemma local_idle w w' : idle w → local w w' → idle w'.
Proof.
  intros Hw. pose proof (id_state _ Hw) as Hns.
  assert (∀ i t, tasks w !! i = Some t → idle_task t) as Ht.
  { intros i t. apply Forall_lookup, Hw. }
  destruct 1 as [| | | |w i el p t reply Hi|w i el t e Hi|w i el p t args Hi|w i p Hi|w i p args Hi|
    w i p prev n reply Hi|w i p Hi|w i p args Hi|w i p l reply Hi|w i Hi|w i stop e Hi|w i np Hi];
    try (exfalso; by apply Ht in Hi).
  - by apply (stays_idle_final onElectionTimer), Hw; apply onElectionTimer_idle.
  - apply (stays_idle_final onHeartbeatTimer); [|done]. intros w1 H1. unfold onHeartbeatTimer. idle_wp.
    apply wp_when; intros E; [bool_to_prop; by destruct H1|]. idle_wp; idle_done.
  - apply (stays_idle_final checkISR); [|done]. intros w1 H1. unfold checkISR. idle_wp.
    apply wp_when; intros E; [bool_to_prop; by destruct H1|]. idle_wp; idle_done.
  - apply (stays_idle_final (SubmitCommand _ _ _)); [|done]. intros w1 H1. unfold SubmitCommand. idle_wp.
    apply wp_if; intros E; [|bool_to_prop; by destruct H1]. idle_wp; idle_done.
  - apply stays_idle_final; [|by apply idle_take]. apply voteReply_idle. by apply Ht in Hi.
  - apply stays_idle_final; [|by apply idle_take]. apply voteWait_idle.
  - unfold set_task, go. apply idle_tasks; [by repeat constructor|]. by apply idle_take.
Qed.

Section fresh_cluster.
Context (V : list string) (dir : string).
Context (dir_nonempty : dir ≠ "") (V_two : ∃ a b, a ∈ V ∧ b ∈ V ∧ a ≠ b).

Lemma boot_idle s d :
  logFile d = [] → (∀ st, stateFile d = Some st → ps_PersistedIndex st = 0) → idle (boot V dir s d).
Proof.
  intros Hl Hd.
  assert (peers (node (boot V dir s d)) ≠ ∅) as Hp.
  { destruct (boot_proc V dir dir_nonempty s d) as (_ & _ & -> & _).
    destruct V_two as (a & b & Ha & Hb & Hne).
    assert (∃ p, p ∈ V ∧ p ≠ s) as (p & Hp%elem_of_peers_of).
    { destruct (decide (a = s)); [exists b|exists a]; naive_solver. }
    intros He. by rewrite He, lookup_empty in Hp. }
  split; try done; clear Hp; unfold boot, NewRaftNode, loadState, loadLogEntries;
    simpl; rewrite !bool_decide_eq_false_2 by done; destruct (stateFile d) eqn:E; simpl;
    rewrite ?Hl; simpl; auto; try done; try congruence. by rewrite E.
Qed.

Lemma step_idle c c' :
  (∀ s w, procs c !! s = Some w → idle w) → step V dir (λ _, False) c c' →
  ∀ s w, procs c' !! s = Some w → idle w.
Proof.
  intros Hc. assert (∀ s w c1, (∀ s w, procs c1 !! s = Some w → idle w) → idle w →
    ∀ s' w', procs (put s w c1) !! s' = Some w' → idle w') as Hput.
  { intros s w c1 H1 Hw s' w'. simpl. intros [[_ <-]|[_ ?]]%lookup_insert_Some; eauto. }
  destruct 1 as [s w w' Hs Hl|s w Hs|s w q Hs []|s w i el p t args wp0 Hs Hti Hpp Hne o|
     s w i p args wp Hs Hti|s w i p args wp Hs Hti].
  - apply Hput; [done|]. by eapply local_idle; [eapply Hc|].
  - apply Hput; [done|]. apply Hc in Hs as []. by apply boot_idle.
  - apply Hc in Hpp as Hwp. apply Hc in Hs as Hw.
    assert (idle_task (TVote el p t args)) as [H1 H2].
    { by apply (Forall_lookup_1 _ _ _ _ (id_tasks _ Hw) Hti). }
    pose proof (RequestVote_idle args wp0 Hwp H1 H2) as Hr. unfold wp in Hr. fold o in Hr.
    apply Hput; [apply Hput; [done|destruct o; simpl; naive_solver]|].
    unfold set_task, go. apply idle_tasks; [|by apply idle_take].
    constructor; [|done]. destruct o; simpl; naive_solver.
  - apply Hc in Hs. by apply (Forall_lookup_1 _ _ _ _ (id_tasks _ Hs)) in Hti.
  - apply Hc in Hs. by apply (Forall_lookup_1 _ _ _ _ (id_tasks _ Hs)) in Hti.
Qed.
End fresh_cluster.

(** C38: A fresh cluster of two or more nodes never elects a leader.  All logs
    are equal, a vote is granted only by a log that is strictly ahead, and
    without a leader no log grows: so in every state reachable from the
    start, whatever timers fire, calls fail or processes restart, no node
    leads. *)
Theorem fresh_cluster_never_elects V dir a b c s w :
  dir ≠ "" → a ∈ V → b ∈ V → a ≠ b →
  reachable V dir (λ _, False) c → procs c !! s = Some w → state (node w) ≠ Leader.
Proof.
  intros Hd Ha Hb Hne Hr Hs. enough (∀ s w, procs c !! s = Some w → idle w) as H by (by eapply H).
  clear s w Hs. induction Hr as [|c c' _ IH Hstep]; [|by eapply step_idle; eauto 6].
  intros s w H%elem_of_list_to_map_2. apply list_elem_of_fmap in H as (s' & ? & ?). simplify_eq.
  apply boot_idle; [done|eauto 6|done..].
Qed.

(** Two nodes, of which ["b"] received an entry: ["a"] is elected. *)
Section demo.
Let V := ["a"; "b"].
Let any : Request → Prop := data_request.

Definition demo_proc (s : string) (c : Cluster) : World :=
  default (boot V "/d" s (mkDisk None [])) (procs c !! s).

Definition demo_entry_msg : Request := RAppend (mkAppendEntriesArgs 0 "x" 0 0 [demo_entry 0 1] 0).

Definition demo_c1 : Cluster :=
  let c := fresh V "/d" in put "b" (serve demo_entry_msg (demo_proc "b" c)) c.
Definition demo_c2 : Cluster :=
  put "a" (final (onElectionTimer (demo_proc "a" demo_c1))) demo_c1.
Definition demo_args : RequestVoteArgs := mkRequestVoteArgs 1 "a" 0 0.
Definition demo_c3 : Cluster :=
  let o := RequestVote demo_args (demo_proc "b" demo_c2) in
  put "a" (set_task 0 (TVoteReply 0 "b" 1 (requestVote (node (demo_proc "a" demo_c2)) (reply_of o)))
             (demo_proc "a" demo_c2)) (put "b" (final o) demo_c2).
Definition demo_c4 : Cluster :=
  put "a" (final (voteReply 0 "b" 1 (mkRequestVoteReply 1 true) (take_task 1 (demo_proc "a" demo_c3)))) demo_c3.

Lemma demo_reachable : reachable V "/d" any demo_c4.
Proof.
  apply reach_step with demo_c3; [apply reach_step with demo_c2; [apply reach_step with demo_c1;
    [apply reach_step with (fresh V "/d"); [apply reach_fresh|]|]|]|].
  - apply (s_stray _ _ _ _ "b" _ demo_entry_msg); [vm_compute; reflexivity|by repeat constructor].
  - eapply (s_local _ _ _ _ "a"); [vm_compute; reflexivity|].
    apply l_electionTimer; [reflexivity|vm_compute; split; [discriminate|reflexivity]].
  - eapply (s_vote _ _ _ _ "a" (demo_proc "a" demo_c2) 0 0 "b" 1 demo_args); [vm_compute; reflexivity..|discriminate].
  - eapply (s_local _ _ _ _ "a"); [vm_compute; reflexivity|].
    apply l_voteReply. vm_compute. reflexivity.
Defined.
End demo.

Lemma election_safety_witness :
  state (node (demo_proc "a" demo_c4)) = Leader ∧
  ∀ s w, procs demo_c4 !! s = Some w → state (node w) = Leader → currentTerm (node w) = 1 → "a" = s.
Proof.
  split; [vm_compute; reflexivity|]. intros s w Hs Hl Ht.
  apply (election_safety ["a"; "b"] "/d" data_request demo_c4 "a" s (demo_proc "a" demo_c4) w).
  - apply (bool_decide_unpack _). vm_compute. exact I.
  - discriminate.
  - intros q Hq. exact Hq.
  - apply demo_reachable.
  - vm_compute. reflexivity.
  - exact Hs.
  - vm_compute. reflexivity.
  - exact Hl.
  - rewrite Ht. vm_compute. reflexivity.
Defined.

Lemma fresh_cluster_never_elects_witness :
  let c := fresh ["a"; "b"] "/d" in
  state (node (final (onElectionTimer (demo_proc "a" c)))) ≠ Leader.
Proof.
  intros c. set (w := final (onElectionTimer (demo_proc "a" c))).
  apply (fresh_cluster_never_elects ["a"; "b"] "/d" "a" "b" (put "a" w c) "a" w).
  - discriminate.
  - constructor.
  - constructor. constructor.
  - discriminate.
  - apply reach_step with c; [apply reach_fresh|].
    apply (s_local _ _ _ _ "a" (demo_proc "a" c)); [vm_compute; reflexivity|].
    apply l_electionTimer; [reflexivity|vm_compute; split; [discriminate|reflexivity]].
  - simpl. apply lookup_insert_eq.
Defined.

End RaftCluster.
