(* ===== verification/Idempotent.v ===== *)
(** * Idempotent producers

    Models [cluster/go/broker/idempotent/idempotent.go]: the manager that
    remembers, for every producer, the last accepted sequence number.  The
    theorems say that a producer's accepted sequence numbers are strictly
    increasing for as long as the manager remembers the producer, and that
    the table never outgrows its capacity, evicting the least recently
    active producer. *)

From Stdlib Require Import ZArith Lia.
From stdpp Require Import base tactics list gmap strings fin_maps sorting.
From S2P Require Import Prelude GoLib.

Open Scope Z_scope.

Module Idempotent.

Record ProducerState := mkProducerState {
  LastSequenceNumber : Z;
  LastActiveTime : Z;
  TopicPartition : string;
}.

Record IdempotentManager := mkIdempotentManager {
  producerState : gmap string ProducerState;
  maxProducers : Z;
  expireAfter : Z;
}.

#[export] Instance eta_ProducerState : Eta ProducerState := λ s,
  mkProducerState (LastSequenceNumber s) (LastActiveTime s) (TopicPartition s).
#[export] Instance eta_IdempotentManager : Eta IdempotentManager := λ im,
  mkIdempotentManager (producerState im) (maxProducers im) (expireAfter im).

Definition NewIdempotentManager (maxProducers expireAfter : Z) : IdempotentManager :=
  mkIdempotentManager ∅ maxProducers expireAfter.

(** One tick of the clean-up goroutine, at time [now]. *)
Definition cleanupExpired (now : Z) (im : IdempotentManager) : IdempotentManager :=
  im <| producerState ::=
    filter (λ '(_, s), ¬ (Time.Sub now (LastActiveTime s) > expireAfter im)) |>.

(** The eviction that makes room for a new producer. *)
Definition evictOldest (order : list (string * ProducerState)) (im : IdempotentManager) :
    IdempotentManager :=
  im <| producerState ::= make_room LastActiveTime (maxProducers im) order |>.

Definition CheckAndRecord (order : list (string * ProducerState)) (now : Z)
    (pid : string) (seq : Z) (topicPartition : string) (im : IdempotentManager) :
    result bool * IdempotentManager :=
  match producerState im !! pid with
  | None =>
      (Ok true,
       evictOldest order im <| producerState ::=
         <[pid := mkProducerState seq now topicPartition]> |>)
  | Some state =>
      if bool_decide (TopicPartition state ≠ topicPartition) then
        (Err ("producer " +:+ pid +:+ " is bound to different topic/partition: " +:+
              TopicPartition state +:+ " vs " +:+ topicPartition), im)
      else if seq <? LastSequenceNumber state then
        (Err ("sequence number " +:+ Fmt.d seq +:+ " is less than last recorded " +:+
              Fmt.d (LastSequenceNumber state)), im)
      else if seq =? LastSequenceNumber state then (Ok false, im)
      else
        (Ok true,
         im <| producerState ::=
           <[pid := state <| LastSequenceNumber := seq |> <| LastActiveTime := now |>]> |>)
  end.

Definition GetProducerState (pid : string) (im : IdempotentManager) : option ProducerState :=
  producerState im !! pid.

Definition RemoveProducer (pid : string) (im : IdempotentManager) : IdempotentManager :=
  im <| producerState ::= delete pid |>.

Definition GetActiveProducers (im : IdempotentManager) : Z :=
  Z.of_nat (size (producerState im)).

(** ** Executions

    The critical sections of the manager, in the order in which they get the
    lock, with the acceptances (producer, sequence number) they report. *)

Inductive op :=
| OCheck (order : list (string * ProducerState)) (now : Z) (pid : string) (seq : Z) (tp : string)
| OCleanup (now : Z)
| ORemove (pid : string).

Definition step (o : op) (im : IdempotentManager) : IdempotentManager :=
  match o with
  | OCheck order now pid seq tp => (CheckAndRecord order now pid seq tp im).2
  | OCleanup now => cleanupExpired now im
  | ORemove pid => RemoveProducer pid im
  end.

Definition accepts (o : op) (im : IdempotentManager) : list (string * Z) :=
  match o with
  | OCheck order now pid seq tp =>
      match (CheckAndRecord order now pid seq tp im).1 with
      | Ok true => [(pid, seq)]
      | _ => []
      end
  | _ => []
  end.

Fixpoint run (ops : list op) (im : IdempotentManager) : IdempotentManager :=
  match ops with [] => im | o :: ops' => run ops' (step o im) end.

Fixpoint accepted (ops : list op) (im : IdempotentManager) : list (string * Z) :=
  match ops with [] => [] | o :: ops' => accepts o im ++ accepted ops' (step o im) end.

(** The sequence numbers of [pid] among the acceptances. *)
Definition seqs_of (pid : string) (l : list (string * Z)) : list Z :=
  (filter (λ '(p, _), p = pid) l).*2.

(** The manager remembers [pid] before each of [ops]. *)
Fixpoint remembers (pid : string) (ops : list op) (im : IdempotentManager) : Prop :=
  match ops with
  | [] => True
  | o :: ops' => is_Some (producerState im !! pid) ∧ remembers pid ops' (step o im)
  end.

(** ** Lemmas *)

Lemma seqs_of_app pid l1 l2 : seqs_of pid (l1 ++ l2) = seqs_of pid l1 ++ seqs_of pid l2.
Proof. unfold seqs_of. by rewrite filter_app, fmap_app. Qed.

Lemma accepts_other o im pid s :
  (∀ order now seq tp, o ≠ OCheck order now pid seq tp) →
  producerState im !! pid = Some s → is_Some (producerState (step o im) !! pid) →
  seqs_of pid (accepts o im) = [] ∧ producerState (step o im) !! pid = Some s.
Proof.
  intros Hne Hs Hrem. destruct o as [order now p seq tp|now|p]; simpl in *.
  - assert (p ≠ pid) as Hp by (intros ->; by eapply Hne).
    unfold CheckAndRecord, evictOldest in *. destruct (producerState im !! p) as [st|] eqn:Hst.
    + split_match; simpl in *; unfold seqs_of; simpl; rewrite ?filter_cons, ?decide_False by done;
        simplify_map_eq; done.
    + simpl in *. unfold seqs_of. rewrite filter_cons, decide_False by done. split; [done|].
      rewrite lookup_insert_ne in * by done. destruct Hrem as [s' Hs'].
      rewrite Hs'. apply make_room_lookup in Hs'. congruence.
  - split; [done|]. destruct Hrem as [s' Hs']. rewrite Hs'.
    apply map_lookup_filter_Some in Hs' as [Hs' _]. congruence.
  - split; [done|]. destruct Hrem as [s' Hs']. rewrite Hs'.
    apply lookup_delete_Some in Hs' as [_ Hs']. congruence.
Qed.

(** One step of a remembered producer accepts at most one sequence number,
    greater than the last one recorded, and records it. *)
Lemma step_remembered o im pid s :
  producerState im !! pid = Some s → is_Some (producerState (step o im) !! pid) →
  (seqs_of pid (accepts o im) = [] ∧ producerState (step o im) !! pid = Some s) ∨
  (∃ s', seqs_of pid (accepts o im) = [LastSequenceNumber s'] ∧
         producerState (step o im) !! pid = Some s' ∧
         LastSequenceNumber s < LastSequenceNumber s').
Proof.
  intros Hs Hrem.
  destruct o as [order now p seq tp|now|p]; [|left; apply accepts_other; done..].
  destruct (decide (p = pid)) as [->|Hne]; [|left; apply accepts_other; [congruence|done..]].
  simpl in *. unfold CheckAndRecord in *. rewrite Hs in *.
  split_match; simpl in *; [|by left..]. right. bool_to_prop.
  eexists. rewrite lookup_insert_eq. split_and!; [|done|simpl; lia].
  unfold seqs_of. by rewrite filter_cons, decide_True by done.
Qed.

Lemma accepted_above ops im pid s :
  producerState im !! pid = Some s → remembers pid ops im →
  is_Some (producerState (run ops im) !! pid) →
  Forall (λ q, LastSequenceNumber s < q) (seqs_of pid (accepted ops im)) ∧
  StronglySorted Z.lt (seqs_of pid (accepted ops im)).
Proof.
  revert im s. induction ops as [|o ops IH]; intros im s Hs Hrem Hend; simpl in *.
  { split; constructor. }
  destruct Hrem as [_ Hrem].
  assert (is_Some (producerState (step o im) !! pid)) as Hsome.
  { destruct ops; [done|]. by destruct Hrem. }
  rewrite seqs_of_app.
  destruct (step_remembered o im pid s Hs Hsome) as [[-> Hs']|(s' & -> & Hs' & Hlt)].
  - by apply (IH _ s).
  - destruct (IH _ s' Hs' Hrem Hend) as [Hall Hsort]. simpl. split.
    + constructor; [done|]. eapply Forall_impl; [exact Hall|]. simpl. lia.
    + by constructor.
Qed.

(** ** Properties *)

(** C29: While the manager remembers a producer, the sequence numbers it accepts
    from that producer are strictly increasing and above the last one it had
    recorded: no (producer, sequence number) pair is accepted twice,
    whatever the interleaving with other producers, evictions, clean-ups and
    removals. *)
Theorem accepted_strictly_increasing ops im pid s :
  producerState im !! pid = Some s →
  remembers pid ops im →
  is_Some (producerState (run ops im) !! pid) →
  StronglySorted Z.lt (LastSequenceNumber s :: seqs_of pid (accepted ops im)).
Proof. intros ???. destruct (accepted_above ops im pid s); by try constructor. Qed.

Definition demo_ops : list op :=
  [OCheck [] 20 "p" 6 "t-0"; OCheck [] 30 "p" 6 "t-0"; OCheck [] 31 "q" 1 "t-1";
   OCleanup 40; OCheck [] 41 "p" 9 "t-0"].
Definition demo_manager : IdempotentManager :=
  (CheckAndRecord [] 10 "p" 5 "t-0" (NewIdempotentManager 2 1000)).2.

Lemma accepted_strictly_increasing_witness :
  StronglySorted Z.lt [5; 6; 9] ∧ seqs_of "p" (accepted demo_ops demo_manager) = [6; 9].
Proof.
  split; [|vm_compute; reflexivity].
  apply (accepted_strictly_increasing demo_ops demo_manager "p" (mkProducerState 5 10 "t-0")).
  - vm_compute. reflexivity.
  - vm_compute. repeat split; eexists; reflexivity.
  - vm_compute. eexists. reflexivity.
Defined.

(** Capacity.  Checking a message keeps the table within its capacity; a
    producer that another one's message pushes out was the least recently
    active one, and the table was full. *)
Theorem CheckAndRecord_capacity order now pid seq tp im :
  0 < maxProducers im → iter_order (producerState im) order →
  GetActiveProducers im ≤ maxProducers im →
  let im' := (CheckAndRecord order now pid seq tp im).2 in
  GetActiveProducers im' ≤ maxProducers im' ∧ maxProducers im' = maxProducers im ∧
  ((∀ p s, producerState im !! p = Some s → LastActiveTime s ≠ 0) →
   ∀ p s, producerState im !! p = Some s → producerState im' !! p = None →
     GetActiveProducers im = maxProducers im ∧
     ∀ p' s', producerState im !! p' = Some s' → LastActiveTime s ≤ LastActiveTime s').
Proof.
  intros Hmax Hord Hsz. unfold CheckAndRecord, GetActiveProducers in *.
  destruct (producerState im !! pid) eqn:Hp.
  - split_match; simpl; split_and!; try done; try (intros; congruence).
    + by rewrite map_size_insert_Some by eauto.
    + intros _ p' s' H1 [H2 ?]%lookup_insert_None. congruence.
  - simpl. split_and!; [by apply insert_room_size|done|].
    intros Hnz p' s' H1 [H2 _]%lookup_insert_None.
    destruct (make_room_gone LastActiveTime (maxProducers im) order (producerState im) p' s') as [H3 H4];
      [done..|]. split; [lia|done].
Qed.

Lemma CheckAndRecord_capacity_witness :
  let im := demo_manager <| producerState ::= <["q" := mkProducerState 1 5 "t-1"]> |> in
  let im' := (CheckAndRecord (map_to_list (producerState im)) 50 "r" 1 "t-2" im).2 in
  GetActiveProducers im' ≤ maxProducers im' ∧ GetProducerState "q" im' = None.
Proof.
  intros im im'. split; [|vm_compute; reflexivity].
  apply (CheckAndRecord_capacity (map_to_list (producerState im)) 50 "r" 1 "t-2" im).
  - vm_compute. reflexivity.
  - apply iter_order_self.
  - vm_compute. discriminate.
Defined.

End Idempotent.
