(* ===== verification/Storage.v ===== *)
(** * The commit log and the sparse index

    Models [cluster/go/broker/storage/bridge_go.go].  The file system keeps
    directory entries and inodes apart, because a segment stays open for
    writing after its name was removed.  File operations that may fail take
    the outcome as an argument ([io]). *)

From Stdlib Require Import ZArith Lia Strings.Byte.
From stdpp Require Import base tactics list gmap strings fin_maps.
From S2P Require Import Prelude GoLib.

Open Scope Z_scope.

Module Storage.

Import Int.

(** ** Files *)

Record Inode := mkInode { content : list byte; modTime : Z }.

(** [names] maps a directory and a file name to an inode number. *)
Record FS := mkFS {
  names : gmap (string * string) Z;
  inodes : gmap Z Inode;
  nextInode : Z;
}.

(** The outcome of opening a file and of writing to it: [writeErr = Some k]
    is a failed write that stored [k] bytes. *)
Record io := mkIo { openErr : bool; writeErr : option nat }.
Definition io_ok : io := mkIo false None.

(** An open segment; [isOpen] is false after [Close]. *)
Record segment := mkSegment { file : Z; offset_ : Z; isOpen : bool }.

Record CommitLog := mkCommitLog {
  basePath : string;
  segments : gmap Z segment;
  lastOffset : Z;
  batchBuffer : list (list byte);
  batchSize : Z;
  batchTimeout : Z;
  flushCh : bool;
}.

Record State := mkState { cl : CommitLog; fs : FS }.

#[export] Instance eta_Inode : Eta Inode := λ i, mkInode (content i) (modTime i).
#[export] Instance eta_FS : Eta FS := λ f, mkFS (names f) (inodes f) (nextInode f).
#[export] Instance eta_segment : Eta segment := λ s, mkSegment (file s) (offset_ s) (isOpen s).
#[export] Instance eta_CommitLog : Eta CommitLog := λ c,
  mkCommitLog (basePath c) (segments c) (lastOffset c) (batchBuffer c) (batchSize c)
    (batchTimeout c) (flushCh c).
#[export] Instance eta_State : Eta State := λ s, mkState (cl s) (fs s).

Definition MiB : Z := 1024 * 1024.

(** [fmt.Sprintf("segment_%d.log", k)]. *)
Definition segName (k : Z) : string := "segment_" +:+ Fmt.d k +:+ ".log".

(** [filepath.Glob] with the pattern [segment_*.log], on one name. *)
Definition globSegment (name : string) : bool :=
  let bs := Bytes.of_string name in
  (12 <=? Z.of_nat (length bs)) && bool_decide (take 8 bs = Bytes.of_string "segment_") &&
  bool_decide (drop (length bs - 4) bs = Bytes.of_string ".log").

(** [os.OpenFile(name, O_CREATE|O_APPEND|O_WRONLY, 0644)]: the inode of the
    name, made when it does not exist. *)
Definition openAppend (path name : string) (now : Z) (f : FS) : Z * FS :=
  match names f !! (path, name) with
  | Some i => (i, f)
  | None => (nextInode f,
             f <| names ::= <[(path, name) := nextInode f]> |>
               <| inodes ::= <[nextInode f := mkInode [] now]> |>
               <| nextInode ::= Z.succ |>)
  end.

Definition appendInode (i now : Z) (bs : list byte) (f : FS) : FS :=
  f <| inodes ::= alter (λ n, mkInode (content n ++ bs) now) i |>.

(** ** The commit log *)

(** The files of [path] that match the pattern. *)
Definition segmentFiles (path : string) (f : FS) : list (string * Inode) :=
  omap (λ '((p, name), i),
    if bool_decide (p = path) && globSegment name
    then (λ n, (name, n)) <$> inodes f !! i else None) (map_to_list (names f)).

Definition OpenCommitLog (path : string) (f : FS) : State :=
  let lastOffset := foldl (λ m '(_, n),
    let segOffset := Z.of_nat (length (content n)) in
    if segOffset >? m then segOffset else m) 0 (segmentFiles path f) in
  mkState (mkCommitLog path ∅ lastOffset [] 100 (10 * Time.Millisecond) false) f.

Definition SetBatchConfig (size timeout : Z) (s : State) : State :=
  s <| cl ::= λ c, c <| batchSize := size |> <| batchTimeout := timeout |> |>.

Definition headerSize : Z := 20.

(** The 20-byte header in front of every entry. *)
Definition header (offset timestamp : Z) (data : list byte) : list byte :=
  Bytes.be 8 offset ++ Bytes.be 8 timestamp ++ Bytes.be 4 (Z.of_nat (length data)).

#[global] Arguments header : simpl never.

(** The segment of an offset, opened when it is not yet. *)
Definition openSegment (o : io) (now segKey : Z) (s : State) : option (segment * State) :=
  match segments (cl s) !! segKey with
  | Some seg => Some (seg, s)
  | None =>
      if openErr o then None
      else
        let '(i, f) := openAppend (basePath (cl s)) (segName segKey) now (fs s) in
        let seg := mkSegment i segKey true in
        Some (seg, s <| cl ::= λ c, c <| segments ::= <[segKey := seg]> |> |> <| fs := f |>)
  end.

Definition Append (o : io) (now : Z) (data : list byte) (s : State) : result Z * State :=
  let offset := lastOffset (cl s) in
  let timestamp := Time.UnixNano now in
  let fullData := header offset timestamp data ++ data in
  let segKey := Z.quot (Z.quot offset 1024) 1024 in
  match openSegment o now segKey s with
  | None => (Err "open", s)
  | Some (seg, s) =>
      if isOpen seg then
        match writeErr o with
        | Some k => (Err "write", s <| fs ::= appendInode (file seg) now (take k fullData) |>)
        | None =>
            (Ok offset,
             s <| fs ::= appendInode (file seg) now fullData |>
               <| cl ::= λ c, c <| lastOffset ::= λ l, int64 (l + Z.of_nat (length fullData)) |> |>)
        end
      else (Err "file already closed", s)
  end.

(** The body of the loop of [batchFlush], which writes an entry itself: a
    failed open or write goes on with the next entry. *)
Definition flushEntry (o : io) (now : Z) (data : list byte) (s : State) : State :=
  let offset := lastOffset (cl s) in
  let timestamp := Time.UnixNano now in
  let header := Bytes.be 8 offset ++ Bytes.be 8 timestamp ++ Bytes.be 4 (Z.of_nat (length data)) in
  let fullData := header ++ data in
  let segFile := segName (Z.quot (Z.quot offset 1024) 1024) in
  let segKey := Z.quot (Z.quot offset 1024) 1024 in
  let opened :=
    match segments (cl s) !! segKey with
    | Some seg => Some (seg, s)
    | None =>
        if openErr o then None
        else
          let '(i, f) := openAppend (basePath (cl s)) segFile now (fs s) in
          let seg := mkSegment i segKey true in
          Some (seg, mkState (cl s <| segments ::= <[segKey := seg]> |>) f)
    end in
  match opened with
  | None => s
  | Some (seg, s) =>
      if negb (isOpen seg) then s
      else
        match writeErr o with
        | Some k => mkState (cl s) (appendInode (file seg) now (take k fullData) (fs s))
        | None =>
            let f := appendInode (file seg) now fullData (fs s) in
            mkState (cl s <| lastOffset := int64 (lastOffset (cl s) + Z.of_nat (length fullData)) |>) f
        end
  end.

(** The loop over [batch]: [ios i] and [nows i] are the outcome of the file
    operations and the clock of the [i]th iteration. *)
Fixpoint flushLoop (ios : nat → io) (nows : nat → Z) (batch : list (list byte)) (s : State) : State :=
  match batch with
  | [] => s
  | entry :: batch =>
      flushLoop (λ i, ios (S i)) (λ i, nows (S i)) batch (flushEntry (ios 0%nat) (nows 0%nat) entry s)
  end.

Definition batchFlush (ios : nat → io) (nows : nat → Z) (s : State) : State :=
  match batchBuffer (cl s) with
  | [] => s
  | [data] => (Append (ios 0%nat) (nows 0%nat) data (s <| cl ::= λ c, c <| batchBuffer := [] |> |>)).2
  | batch => flushLoop ios nows batch (s <| cl ::= λ c, c <| batchBuffer := [] |> |>)
  end.

Definition AppendAsync (data : list byte) (s : State) : State :=
  let s := s <| cl ::= λ c, c <| batchBuffer ::= λ b, b ++ [data] |> |> in
  if batchSize (cl s) <=? Z.of_nat (length (batchBuffer (cl s)))
  then s <| cl ::= λ c, c <| flushCh := true |> |> else s.

(** One round of [batchFlushLoop]: the ticker fired, or [flushCh] held a
    token, which is taken. *)
Definition batchFlushLoop (token : bool) (ios : nat → io) (nows : nat → Z) (s : State) : State :=
  if token then
    if flushCh (cl s) then batchFlush ios nows (s <| cl ::= λ c, c <| flushCh := false |> |>) else s
  else batchFlush ios nows s.

Definition Close (s : State) : State :=
  s <| cl ::= λ c, c <| segments ::= fmap (λ g : segment, g <| isOpen := false |>) |> |>.

(** [Sync] fails on a closed file. *)
Definition Sync (s : State) : result unit :=
  if bool_decide (map_Forall (λ _ g, isOpen g = true) (segments (cl s))) then Ok tt else Err "file already closed".

Definition GetOffset (s : State) : Z := lastOffset (cl s).

(** [Read]: [None] is the run-time panic of a negative size.  A read at the
    end of the file fails; a short read leaves the rest of the buffer 0. *)
Definition Read (offset size : Z) (s : State) : option (result (list byte)) :=
  let segKey := Z.quot (Z.quot offset 1024) 1024 in
  match names (fs s) !! (basePath (cl s), segName segKey) with
  | None => Some (Err "no such file or directory")
  | Some i =>
      let data := from_option content [] (inodes (fs s) !! i) in
      let seekOffset := Z.rem offset (1024 * 1024) + headerSize in
      if seekOffset <? 0 then Some (Err "invalid argument")
      else if size <? 0 then None
      else
        let got := take (Z.to_nat size) (drop (Z.to_nat seekOffset) data) in
        if bool_decide (got = []) && (0 <? size) then Some (Err "EOF")
        else Some (Ok (got ++ replicate (Z.to_nat size - length got) x00))
  end.

(** [CleanupOldSegments]: [os.Remove] removes the name; an open segment
    keeps its inode. *)
Definition expired (now retentionMs : Z) (n : Inode) : bool :=
  (retentionMs >? 0) && (Time.Unix now - Time.Unix (modTime n) >? Z.quot retentionMs 1000).
Definition oversized (retentionBytes : Z) (n : Inode) : bool :=
  (retentionBytes >? 0) && (Z.of_nat (length (content n)) >? retentionBytes).

Definition CleanupOldSegments (segmentDir : string) (now retentionMs retentionBytes : Z) (f : FS) : Z * FS :=
  foldl (λ '(count, f) '(name, n),
    if expired now retentionMs n then (count + 1, f <| names ::= delete (segmentDir, name) |>)
    else if oversized retentionBytes n then (count + 1, f <| names ::= delete (segmentDir, name) |>)
    else (count, f)) (0, f) (segmentFiles segmentDir f).

(** ** The sparse index *)

Record IndexEntry := mkIndexEntry { Offset : Z; Size : Z; Timestamp : Z }.
Record SparseIndex := mkSparseIndex { entries : gmap Z IndexEntry }.

Definition OpenSparseIndex : SparseIndex := mkSparseIndex ∅.

Definition Put (offset size timestamp : Z) (idx : SparseIndex) : SparseIndex :=
  mkSparseIndex (<[offset := mkIndexEntry offset size timestamp]> (entries idx)).

Definition Get (offset : Z) (idx : SparseIndex) : result IndexEntry :=
  match entries idx !! offset with Some e => Ok e | None => Err "not found" end.

(** [order] is the order of the range loop. *)
Definition Lookup (order : list (Z * IndexEntry)) (timestamp : Z) : result IndexEntry :=
  match foldl (λ (best : option IndexEntry) '(_, entry),
    if Timestamp entry <=? timestamp then
      match best with
      | None => Some entry
      | Some b => if Timestamp entry >? Timestamp b then Some entry else best
      end
    else best) None order with
  | Some e => Ok e
  | None => Err "not found"
  end.

Definition GetLastOffset (order : list (Z * IndexEntry)) : Z :=
  foldl (λ m '(offset, _), if offset >? m then offset else m) 0 order.

Definition GetEntriesAfter (order : list (Z * IndexEntry)) (offset : Z) : list IndexEntry :=
  filter (λ e, offset < Offset e) order.*2.

Definition PutBatch (es : list IndexEntry) (idx : SparseIndex) : SparseIndex :=
  mkSparseIndex (foldl (λ m e, <[Offset e := e]> m) (entries idx) es).

End Storage.
