(* ===== verification/StorageProps.v ===== *)
(** * Properties of the commit log and the sparse index

    Round trips between [Append] and [Read], what happens when the log rolls
    over to a second segment, when it is opened again, flushed in batches or
    cleaned up, and what the index finds. *)

From Stdlib Require Import ZArith Lia Strings.Byte.
From stdpp Require Import base tactics list gmap strings fin_maps.
From S2P Require Import Prelude GoLib Storage.

Open Scope Z_scope.

Module StorageProps.

Import Int Storage.

(** ** Segment names *)

Lemma segName_inj k1 k2 : segName k1 = segName k2 → k1 = k2.
Proof.
  unfold segName. intros H%(f_equal Bytes.of_string). rewrite !Bytes.of_string_app in H.
  by apply app_inv_head, app_inv_tail, Bytes.of_string_inj, Fmt.d_inj in H.
Qed.

Lemma segName_glob k : globSegment (segName k) = true.
Proof.
  unfold globSegment, segName. rewrite !Bytes.of_string_app.
  set (d := Bytes.of_string (Fmt.d k)). rewrite !length_app.
  change (length (Bytes.of_string "segment_")) with 8%nat. change (length (Bytes.of_string ".log")) with 4%nat.
  rewrite !bool_decide_eq_true_2; [rewrite !andb_true_r; apply Z.leb_le; lia| |by apply take_app_exact].
  rewrite app_assoc. apply drop_app_exact. rewrite length_app. simpl. lia.
Qed.

Lemma segKey_ne (p q : string) k1 k2 : k1 ≠ k2 → (p, segName k1) ≠ (q, segName k2).
Proof. intros Hne E%(f_equal snd). by apply Hne, segName_inj. Qed.

(** ** Well-formed states *)

(** Distinct names have distinct inodes, and every open segment still has
    its name. *)
Record wf (s : State) : Prop := {
  wf_inj : ∀ a b i, names (fs s) !! a = Some i → names (fs s) !! b = Some i → a = b;
  wf_bound : ∀ a i, names (fs s) !! a = Some i → i < nextInode (fs s) ∧ is_Some (inodes (fs s) !! i);
  wf_segs : ∀ k g, segments (cl s) !! k = Some g →
              isOpen g = true ∧ names (fs s) !! (basePath (cl s), segName k) = Some (file g);
}.

(** The bytes of segment [k]. *)
Definition segContent (k : Z) (s : State) : list byte :=
  from_option content [] (names (fs s) !! (basePath (cl s), segName k) ≫= λ i, inodes (fs s) !! i).

Definition segOf (offset : Z) : Z := Z.quot (Z.quot offset 1024) 1024.

Lemma segOf_div o : 0 ≤ o → segOf o = o / MiB.
Proof.
  intros H. unfold segOf, MiB. rewrite (Z.quot_div_nonneg o) by lia.
  rewrite Z.quot_div_nonneg by (try apply Z.div_pos; lia). by rewrite Z.div_div.
Qed.

Lemma segOf_small o : 0 ≤ o < MiB → segOf o = 0.
Proof. intros. rewrite segOf_div by lia. by apply Z.div_small. Qed.

Lemma length_header o t d : length (header o t d) = 20%nat.
Proof. unfold header. by rewrite !length_app, !Bytes.length_be. Qed.

(** Opening a segment: it is open, named, and no content changed. *)
Lemma openSegment_ok now k s :
  wf s → ∃ g s', openSegment io_ok now k s = Some (g, s') ∧ wf s' ∧ isOpen g = true ∧
    names (fs s') !! (basePath (cl s'), segName k) = Some (file g) ∧
    basePath (cl s') = basePath (cl s) ∧ lastOffset (cl s') = lastOffset (cl s) ∧
    batchBuffer (cl s') = batchBuffer (cl s) ∧
    (∀ k, segContent k s' = segContent k s).
Proof.
  intros Hwf. unfold openSegment. destruct (segments (cl s) !! k) as [g|] eqn:Hg.
  { destruct (wf_segs _ Hwf _ _ Hg). exists g, s. by split_and!. }
  unfold openAppend. simpl. destruct Hwf as [Hinj Hb Hs].
  destruct (names (fs s) !! (basePath (cl s), segName k)) as [i|] eqn:Hi.
  { eexists _, _. split; [reflexivity|]. split_and!; try done. split; simpl; [done..|].
    intros k' g' [[<- <-]|[_ ?]]%lookup_insert_Some; [done|auto]. }
  eexists _, _. split; [reflexivity|]. split_and!; try done.
  - split; simpl.
    + intros a b i' [[<- <-]|[_ Ha]]%lookup_insert_Some [[<- ?]|[_ Hb']]%lookup_insert_Some; try done.
      * by apply Hb in Hb' as [??]; lia.
      * by apply Hb in Ha as [??]; lia.
      * eauto.
    + intros a i' [[<- <-]|[_ Ha]]%lookup_insert_Some.
      * split; [lia|]. rewrite lookup_insert_eq. eauto.
      * destruct (Hb _ _ Ha) as [??]. split; [lia|]. rewrite lookup_insert_ne by lia. done.
    + intros k' g' [[<- <-]|[Hne Hk]]%lookup_insert_Some.
      * split; [done|]. apply lookup_insert_eq.
      * destruct (Hs _ _ Hk) as [? Hn]. split; [done|]. by rewrite lookup_insert_ne by (by apply segKey_ne).
  - simpl. apply lookup_insert_eq.
  - intros k'. unfold segContent. simpl. destruct (decide (k' = k)) as [->|Hne].
    + rewrite lookup_insert_eq, Hi. simpl. by rewrite lookup_insert_eq.
    + rewrite lookup_insert_ne by (apply segKey_ne; congruence).
      destruct (names (fs s) !! (basePath (cl s), segName k')) as [i|] eqn:E; simpl; [|done].
      apply Hb in E as [??]. by rewrite lookup_insert_ne by lia.
Qed.

Lemma appendInode_content g now bs k s :
  wf s → names (fs s) !! (basePath (cl s), segName k) = Some (file g) →
  let s' := s <| fs ::= appendInode (file g) now bs |> in
  wf s' ∧ segContent k s' = segContent k s ++ bs ∧ ∀ k', k' ≠ k → segContent k' s' = segContent k' s.
Proof.
  intros [Hinj Hb Hs] Hn. split_and!.
  - split; simpl; [done| |done]. intros a i Ha. destruct (Hb _ _ Ha). split; [done|].
    rewrite lookup_alter. case_decide; [|done]. subst. by apply fmap_is_Some.
  - unfold segContent. simpl. rewrite Hn. simpl. rewrite lookup_alter_eq.
    destruct (Hb _ _ Hn) as [_ [n ->]]. done.
  - intros k' Hne. unfold segContent. simpl.
    destruct (names (fs s) !! (basePath (cl s), segName k')) as [i|] eqn:E; simpl; [|done].
    rewrite lookup_alter_ne; [done|]. intros <-. by apply (segKey_ne _ _ _ _ Hne (Hinj _ _ _ E Hn)).
Qed.

(** [Append] without errors: the entry goes to the end of its segment. *)
Lemma Append_ok now d s :
  wf s → 0 ≤ lastOffset (cl s) → lastOffset (cl s) + 20 + Z.of_nat (length d) < 2 ^ 63 →
  let o := lastOffset (cl s) in
  ∃ s', Append io_ok now d s = (Ok o, s') ∧ wf s' ∧ basePath (cl s') = basePath (cl s) ∧
    batchBuffer (cl s') = batchBuffer (cl s) ∧
    lastOffset (cl s') = o + 20 + Z.of_nat (length d) ∧
    segContent (segOf o) s' = segContent (segOf o) s ++ header o (Time.UnixNano now) d ++ d ∧
    ∀ k, k ≠ segOf o → segContent k s' = segContent k s.
Proof.
  intros Hwf H0 Hmax o. subst o. unfold Append. cbv zeta. fold (segOf (lastOffset (cl s))).
  destruct (openSegment_ok now (segOf (lastOffset (cl s))) s Hwf) as (g & s1 & Hop & Hwf1 & Ho & Hn & Hbp & Hlo & Hbb & Hc).
  pose proof (length_header (lastOffset (cl s)) (Time.UnixNano now) d) as Hh.
  set (h := header _ _ _) in *. clearbody h. rewrite Hop, Ho. simpl.
  destruct (appendInode_content g now (h ++ d) _ s1 Hwf1 Hn)
    as ([H1 H2 H3] & Hk & Hk'). eexists. split; [reflexivity|]. split_and!; try done.
  - simpl. rewrite Hlo, int64_small; rewrite length_app; lia.
  - etrans; [exact Hk|]. by rewrite Hc.
  - intros k Hne. etrans; [by apply Hk'|]. apply Hc.
Qed.

(** Whatever the outcome of the file operations, [Append] only adds bytes to
    a segment. *)
Lemma Append_grows o now d s k :
  wf s → wf (Append o now d s).2 ∧ basePath (cl (Append o now d s).2) = basePath (cl s) ∧
  segContent k s `prefix_of` segContent k (Append o now d s).2.
Proof.
  intros Hwf. unfold Append. cbv zeta. fold (segOf (lastOffset (cl s))).
  destruct (openSegment o now _ s) as [[g s1]|] eqn:E; [|done].
  assert (openSegment io_ok now (segOf (lastOffset (cl s))) s = Some (g, s1)) as E'.
  { unfold openSegment in *. destruct (segments _ !! _); [done|]. by destruct (openErr o). }
  destruct (openSegment_ok now (segOf (lastOffset (cl s))) s Hwf)
    as (g' & s1' & Hop & Hwf1 & Ho & Hn & Hbp & Hlo & Hbb & Hc).
  rewrite E' in Hop. simplify_eq. rewrite Ho.
  assert (∀ bs, let s' := s1' <| fs ::= appendInode (file g') now bs |> in
    wf s' ∧ basePath (cl s') = basePath (cl s) ∧ segContent k s `prefix_of` segContent k s') as Hbs.
  { intros bs s'. destruct (appendInode_content g' now bs _ s1' Hwf1 Hn) as (? & Hk & Hk').
    split_and!; [done|done|]. destruct (decide (k = segOf (lastOffset (cl s)))) as [->|Hne].
    - subst s'. rewrite Hk, Hc. by eexists.
    - subst s'. by rewrite Hk', Hc. }
  destruct (writeErr o); simpl; [apply Hbs|].
  destruct (Hbs (header (lastOffset (cl s)) (Time.UnixNano now) d ++ d)) as ([] & ? & ?).
  split_and!; try done.
Qed.

(** [Append] touches no file of another log. *)
Lemma Append_frame o now d s p name :
  wf s → p ≠ basePath (cl s) →
  names (fs (Append o now d s).2) !! (p, name) = names (fs s) !! (p, name) ∧
  ∀ i, names (fs s) !! (p, name) = Some i → inodes (fs (Append o now d s).2) !! i = inodes (fs s) !! i.
Proof.
  intros Hwf Hne. unfold Append. cbv zeta. set (k := Z.quot _ 1024).
  destruct (openSegment o now k s) as [[g s1]|] eqn:E; [|done].
  assert (names (fs s1) !! (p, name) = names (fs s) !! (p, name) ∧
    ∀ i, names (fs s) !! (p, name) = Some i → i ≠ file g ∧ inodes (fs s1) !! i = inodes (fs s) !! i) as [Hn Hi].
  { destruct Hwf as [Hinj Hb Hs]. unfold openSegment, openAppend in E.
    destruct (segments (cl s) !! k) as [g'|] eqn:Hk; [|destruct (openErr o); [done|];
      destruct (names (fs s) !! (basePath (cl s), segName k)) as [i|] eqn:Hi]; simplify_eq/=.
    - destruct (Hs _ _ Hk) as [_ Hg]. split; [done|]. intros i Hpi. split; [|done]. intros ->.
      by pose proof (Hinj _ _ _ Hpi Hg); simplify_eq.
    - split; [done|]. intros i' Hpi. split; [|done]. intros ->. by pose proof (Hinj _ _ _ Hpi Hi); simplify_eq.
    - rewrite lookup_insert_ne by congruence. split; [done|]. intros i Hpi. destruct (Hb _ _ Hpi).
      split; [lia|]. rewrite lookup_insert_ne by lia. done. }
  assert (∀ bs, let f := appendInode (file g) now bs (fs s1) in
    names f !! (p, name) = names (fs s) !! (p, name) ∧
    ∀ i, names (fs s) !! (p, name) = Some i → inodes f !! i = inodes (fs s) !! i) as Happ.
  { intros bs. simpl. split; [done|]. intros i Hpi. destruct (Hi _ Hpi). by rewrite lookup_alter_ne by congruence. }
  destruct (isOpen g); [|split; [done|]; intros i Hpi; by apply Hi]. destruct (writeErr o); apply Happ.
Qed.

Lemma Append_other o now d s c :
  wf s → wf (mkState c (fs s)) → basePath c ≠ basePath (cl s) →
  let s' := mkState c (fs (Append o now d s).2) in
  wf s' ∧ ∀ k, segContent k s' = segContent k (mkState c (fs s)).
Proof.
  intros Hwf [_ _ Hs] Hne s'. destruct (Append_grows o now d s 0 Hwf) as ([Hinj Hb _] & _).
  split; [split; simpl|].
  - apply Hinj.
  - apply Hb.
  - intros k g Hk. destruct (Hs _ _ Hk). split; [done|]. by rewrite (proj1 (Append_frame o now d s _ _ Hwf Hne)).
  - intros k. unfold segContent, s'. simpl. destruct (Append_frame o now d s (basePath c) (segName k) Hwf Hne) as [-> Hi].
    destruct (names (fs s) !! _) as [i|] eqn:E; simpl; [|done]. by rewrite Hi.
Qed.

(** Appends with any outcomes, one after another. *)
Definition appendAll (ops : list (io * Z * list byte)) (s : State) : State :=
  foldl (λ s '(o, now, d), (Append o now d s).2) s ops.

Lemma appendAll_grows ops s k :
  wf s → basePath (cl (appendAll ops s)) = basePath (cl s) ∧
  segContent k s `prefix_of` segContent k (appendAll ops s).
Proof.
  revert s. induction ops as [|[[o now] d] ops IH]; intros s Hwf; simpl; [done|].
  destruct (Append_grows o now d s k Hwf) as (Hwf' & Hb & Hp).
  destruct (IH _ Hwf') as [-> ?]. split; [done|]. by etrans.
Qed.

Lemma Read_content o size s :
  segContent (segOf o) s ≠ [] → 0 ≤ o → 0 ≤ size →
  Read o size s =
    let got := take (Z.to_nat size) (drop (Z.to_nat (o mod MiB + 20)) (segContent (segOf o) s)) in
    if bool_decide (got = []) && (0 <? size) then Some (Err "EOF")
    else Some (Ok (got ++ replicate (Z.to_nat size - length got) x00)).
Proof.
  intros Hne Ho Hs. unfold Read, segContent in *. fold (segOf o).
  destruct (names (fs s) !! (basePath (cl s), segName (segOf o))) as [i|]; simpl in *; [|done].
  rewrite Z.rem_mod_nonneg by lia. change (1024 * 1024) with MiB.
  unfold headerSize. pose proof (Z.mod_pos_bound o MiB eq_refl).
  rewrite (proj2 (Z.ltb_ge _ _)), (proj2 (Z.ltb_ge _ _)) by lia. done.
Qed.

(** The log and its first segment agree on the next offset. *)
Definition aligned (s : State) : Prop := lastOffset (cl s) = Z.of_nat (length (segContent 0 s)).

(** C14: What was appended is read back.  While the log is in its first
    mebibyte, [Append] returns the end of the log as the entry's offset, the
    log stays aligned with its file, and [Read] at that offset returns the
    entry, now and after any later appends, failed ones included. *)
Theorem append_read s now d more :
  wf s → aligned s → lastOffset (cl s) < MiB → Z.of_nat (length d) < 2 ^ 32 → d ≠ [] →
  ∃ s1, Append io_ok now d s = (Ok (lastOffset (cl s)), s1) ∧ wf s1 ∧ aligned s1 ∧
    lastOffset (cl s1) = lastOffset (cl s) + headerSize + Z.of_nat (length d) ∧
    Read (lastOffset (cl s)) (Z.of_nat (length d)) (appendAll more s1) = Some (Ok d).
Proof.
  intros Hwf Hal Hlt Hd Hne. unfold MiB in Hlt. unfold aligned in *.
  destruct (Append_ok now d s) as (s1 & Happ & Hwf1 & Hb & _ & Hlo & Hc & _); [done|lia|lia|].
  rewrite segOf_small in Hc by (unfold MiB; lia).
  exists s1. split_and!; [done|done| |done|].
  { rewrite Hc, Hlo, !length_app, length_header. lia. }
  destruct (appendAll_grows more s1 0 Hwf1) as [_ [rest Hrest]].
  rewrite Read_content; rewrite ?segOf_small by (unfold MiB; lia); [|rewrite Hrest, Hc|lia..].
  2: { by intros [[_ [_ ?]%app_eq_nil]%app_eq_nil _]%app_eq_nil. }
  rewrite Z.mod_small by (unfold MiB; lia). rewrite Hrest, Hc, Hal, !Nat2Z.id.
  rewrite (app_assoc (segContent 0 s)), <- !app_assoc, (app_assoc (segContent 0 s)).
  rewrite drop_app_exact by (rewrite length_app, length_header; lia).
  rewrite take_app_exact by done. cbv zeta. rewrite bool_decide_eq_false_2 by done. simpl.
  by rewrite Nat.sub_diag, app_nil_r.
Qed.

Definition demo_new : State := OpenCommitLog "/log" (mkFS ∅ ∅ 0).

Lemma append_read_witness :
  ∃ s1, Append io_ok 5 [x01; x02] demo_new = (Ok 0, s1) ∧
    Read 0 2 (appendAll [(io_ok, 6, [x03]); (mkIo false (Some 4%nat), 7, [x04])] s1) = Some (Ok [x01; x02]).
Proof.
  destruct (append_read demo_new 5 [x01; x02] [(io_ok, 6, [x03]); (mkIo false (Some 4%nat), 7, [x04])])
    as (s1 & H1 & _ & _ & _ & H2).
  - split; intros *; vm_compute; discriminate.
  - reflexivity.
  - reflexivity.
  - reflexivity.
  - discriminate.
  - exists s1. split; [exact H1|exact H2].
Defined.

(** The first entry of a later segment is misread.  When an entry starts
    [r] bytes after a mebibyte boundary in a segment that is still empty, it
    is written at the start of the segment's file, but [Read] seeks to the
    offset modulo 1 MiB: it fails with EOF, or returns the entry without its
    first [r] bytes and padded with zeros. *)
Theorem rolled_segment_misread s now d r k :
  wf s → 0 ≤ k → lastOffset (cl s) = k * MiB + r → 0 < r < MiB →
  segContent k s = [] → d ≠ [] → lastOffset (cl s) + 20 + Z.of_nat (length d) < 2 ^ 63 →
  ∃ s1, Append io_ok now d s = (Ok (k * MiB + r), s1) ∧
    Read (k * MiB + r) (Z.of_nat (length d)) s1 =
      Some (if decide (Z.of_nat (length d) ≤ r) then Err "EOF"
            else Ok (drop (Z.to_nat r) d ++ replicate (Z.to_nat r) x00)).
Proof.
  intros Hwf Hk Hlo Hr Hc Hne Hmax.
  assert (segOf (k * MiB + r) = k) as Hseg.
  { rewrite segOf_div by (unfold MiB in *; nia). rewrite Z.div_add_l by done. rewrite Z.div_small; lia. }
  destruct (Append_ok now d s) as (s1 & Happ & _ & _ & _ & _ & Hc1 & _); [done|unfold MiB in *; nia|lia|].
  rewrite Hlo, Hseg, Hc in Hc1. rewrite Hlo in Happ. exists s1. split; [done|].
  assert ((k * MiB + r) mod MiB = r) as Hmod.
  { rewrite Z.add_comm, Z.mod_add by done. apply Z.mod_small; lia. }
  rewrite Read_content; [|rewrite Hseg, Hc1; by intros [_ [_ ?]%app_eq_nil]%app_eq_nil|unfold MiB in *; nia|lia].
  rewrite Hseg, Hc1, Hmod, app_nil_l, drop_app_ge by (rewrite length_header; lia).
  rewrite length_header, Nat2Z.id, Z2Nat.inj_add, Nat.add_sub by lia.
  rewrite take_ge by (rewrite length_drop; lia). cbv zeta. rewrite length_drop.
  case_decide.
  - rewrite bool_decide_eq_true_2 by (apply drop_ge; lia). simpl.
    rewrite (proj2 (Z.ltb_lt _ _)); [done|]. destruct d; [done|simpl; lia].
  - rewrite bool_decide_eq_false_2 by (intros ?%(f_equal length); rewrite length_drop in *; simpl in *; lia).
    simpl. do 4 f_equal. lia.
Qed.

Lemma rolled_segment_misread_witness :
  let s := demo_new <| cl ::= λ c, c <| lastOffset := 1 * MiB + 2 |> |> in
  ∃ s1, Append io_ok 5 [x01; x02; x03] s = (Ok (1 * MiB + 2), s1) ∧
    Read (1 * MiB + 2) 3 s1 = Some (Ok [x03; x00; x00]).
Proof.
  intros s. destruct (rolled_segment_misread s 5 [x01; x02; x03] 2 1) as (s1 & H1 & H2).
  - split; intros *; vm_compute; discriminate.
  - discriminate.
  - reflexivity.
  - split; reflexivity.
  - reflexivity.
  - discriminate.
  - reflexivity.
  - exists s1. split; [exact H1|exact H2].
Defined.

(** ** Batches *)

(** The parts of the state that [Append] reads and writes. *)
Definition same_log (s1 s2 : State) : Prop :=
  fs s1 = fs s2 ∧ segments (cl s1) = segments (cl s2) ∧ lastOffset (cl s1) = lastOffset (cl s2) ∧
  basePath (cl s1) = basePath (cl s2).

Lemma Append_same o now d s1 s2 :
  same_log s1 s2 → same_log (Append o now d s1).2 (Append o now d s2).2 ∧
  batchBuffer (cl (Append o now d s1).2) = batchBuffer (cl s1).
Proof.
  destruct s1 as [[] f1], s2 as [[] f2]. intros (? & ? & ? & ?). simpl in *. subst.
  unfold Append, openSegment, openAppend, same_log. simpl.
  repeat (case_match; simplify_eq/=); done.
Qed.

(** The two copies of the code that writes an entry agree. *)
Lemma flushEntry_Append o now d s : flushEntry o now d s = (Append o now d s).2.
Proof.
  destruct s as [[path segs lo buf size timeout ch] f].
  unfold flushEntry, Append, openSegment, openAppend, header. simpl.
  repeat (case_match; simplify_eq/=); done.
Qed.

Lemma flushLoop_same ios nows b s1 s2 :
  same_log s1 s2 →
  let ops := imap (λ i d, (ios i, nows i, d)) b in
  same_log (flushLoop ios nows b s1) (appendAll ops s2) ∧
  batchBuffer (cl (flushLoop ios nows b s1)) = batchBuffer (cl s1).
Proof.
  revert ios nows s1 s2. induction b as [|d b IH]; intros ios nows s1 s2 Hs; simpl; [done|].
  rewrite flushEntry_Append. destruct (Append_same (ios 0%nat) (nows 0%nat) d s1 s2 Hs) as [Hs' Hb].
  destruct (IH (λ i, ios (S i)) (λ i, nows (S i)) _ _ Hs') as [IH1 IH2].
  split; [exact IH1|by rewrite IH2].
Qed.

Lemma asyncs ds s :
  let s' := foldl (λ s d, AppendAsync d s) s ds in
  same_log s' s ∧ batchBuffer (cl s') = batchBuffer (cl s) ++ ds.
Proof.
  revert s. induction ds as [|d ds IH]; intros s; simpl; [by rewrite app_nil_r|].
  destruct (IH (AppendAsync d s)) as [(? & ? & ? & ?) Hb].
  assert (same_log (AppendAsync d s) s ∧ batchBuffer (cl (AppendAsync d s)) = batchBuffer (cl s) ++ [d])
    as [(? & ? & ? & ?) Hb'] by (unfold AppendAsync; by case_match).
  split; [unfold same_log; split_and!; congruence|]. by rewrite Hb, Hb', <- app_assoc.
Qed.

(** C31: Batching loses and reorders nothing.  Entries handed to [AppendAsync]
    and then flushed, one by [Append] and several by the loop of [batchFlush]
    that writes them itself, leave the log and its files as if each of them,
    after those already buffered, had been appended with [Append] in the same
    order, with the same clock readings and file errors; and the buffer is
    empty. *)
Theorem async_flush_appends ds ios nows s :
  let s' := batchFlush ios nows (foldl (λ s d, AppendAsync d s) s ds) in
  let ops := imap (λ i d, (ios i, nows i, d)) (batchBuffer (cl s) ++ ds) in
  same_log s' (appendAll ops s) ∧ batchBuffer (cl s') = [].
Proof.
  intros s' ops. destruct (asyncs ds s) as [Hs Hb]. set (s1 := foldl _ s ds) in *.
  assert (s' = flushLoop ios nows (batchBuffer (cl s1)) (s1 <| cl ::= λ c, c <| batchBuffer := [] |> |>)) as ->.
  { subst s'. unfold batchFlush. destruct (batchBuffer (cl s1)) as [|d [|d' b]] eqn:E; try done.
    - simpl. destruct s1 as [[]]. simpl in *. by subst.
    - cbn [flushLoop]. by rewrite flushEntry_Append. }
  subst ops. rewrite <- Hb.
  destruct (flushLoop_same ios nows (batchBuffer (cl s1)) (s1 <| cl ::= λ c, c <| batchBuffer := [] |> |>) s)
    as [H1 H2]; [exact Hs|]. done.
Qed.

(** ** Clean-up *)

Definition doomed (now ms bytes : Z) (n : Inode) : bool := expired now ms n || oversized bytes n.

Lemma cleanup_loop dir now ms bytes l c f :
  let gone := filter (λ '(_, n), doomed now ms bytes n = true) l in
  foldl (λ '(count, f) '(name, n),
    if expired now ms n then (count + 1, f <| names ::= delete (dir, name) |>)
    else if oversized bytes n then (count + 1, f <| names ::= delete (dir, name) |>)
    else (count, f)) (c, f) l =
  (c + Z.of_nat (length gone), f <| names ::= λ m, foldl (λ m x, delete (dir, x) m) m gone.*1 |>).
Proof.
  revert c f. induction l as [|[name n] l IH]; intros c f; simpl.
  { rewrite Z.add_0_r. by destruct f. }
  rewrite filter_cons. case_decide as Hd; unfold doomed in Hd;
    destruct (expired now ms n), (oversized bytes n); try done; rewrite IH; simpl; f_equal; (lia || done).
Qed.

Lemma cleanup_names_lookup (dir : string) (l : list string) (m : gmap (string * string) Z) k :
  foldl (λ m x, delete (dir, x) m) m l !! k =
  if decide (k.1 = dir ∧ k.2 ∈ l) then None else m !! k.
Proof.
  rewrite (foldl_delete_lookup (λ x, (dir, x))). destruct k as [p y]. simpl.
  repeat case_decide; set_solver.
Qed.

(** A clean-up only touches the directory it is given. *)
Lemma cleanup_other dir now ms bytes f p name :
  p ≠ dir → names (CleanupOldSegments dir now ms bytes f).2 !! (p, name) = names f !! (p, name).
Proof.
  intros Hne. unfold CleanupOldSegments. rewrite cleanup_loop. simpl. rewrite cleanup_names_lookup.
  rewrite decide_False; [done|]. by intros [? _].
Qed.

Lemma elem_of_segmentFiles dir f name n :
  (name, n) ∈ segmentFiles dir f ↔
  globSegment name = true ∧ ∃ i, names f !! (dir, name) = Some i ∧ inodes f !! i = Some n.
Proof.
  unfold segmentFiles. rewrite list_elem_of_omap. split.
  - intros ([[p x] i] & Hin%elem_of_map_to_list & H). destruct (_ && _) eqn:E; [|done].
    bool_to_prop. subst. apply fmap_Some in H as (n' & ? & ?). simplify_eq. eauto.
  - intros (Hg & i & Hi & Hn). exists ((dir, name), i). rewrite elem_of_map_to_list. split; [done|].
    rewrite bool_decide_eq_true_2, Hg by done. simpl. by rewrite Hn.
Qed.

Lemma cleanup_lookup dir now ms bytes f p name i n :
  names f !! (p, name) = Some i → inodes f !! i = Some n →
  names (CleanupOldSegments dir now ms bytes f).2 !! (p, name) =
    if bool_decide (p = dir) && globSegment name && doomed now ms bytes n then None else Some i.
Proof.
  intros Hi Hn. unfold CleanupOldSegments. rewrite cleanup_loop. simpl.
  rewrite cleanup_names_lookup. simpl. destruct (_ && _ && _) eqn:E.
  - bool_to_prop. subst. rewrite decide_True; [done|]. split; [done|].
    apply list_elem_of_fmap. exists (name, n). split; [done|]. apply list_elem_of_filter.
    split; [done|]. apply elem_of_segmentFiles. eauto.
  - rewrite decide_False; [done|].
    intros [-> ([x n'] & -> & [Hd (Hg & i' & Hi' & Hn')%elem_of_segmentFiles]%list_elem_of_filter)%list_elem_of_fmap].
    simplify_eq/=. rewrite bool_decide_eq_true_2, Hg, Hd in E by done. done.
Qed.

(** What a clean-up removes.  [CleanupOldSegments] removes exactly the
    names of segment files of the directory that are older than the
    retention time or larger than the retention size, counts them, and
    touches no other name and no content. *)
Theorem cleanup_removes dir now ms bytes f count f' :
  CleanupOldSegments dir now ms bytes f = (count, f') →
  inodes f' = inodes f ∧
  (∀ p name i n, names f !! (p, name) = Some i → inodes f !! i = Some n →
    names f' !! (p, name) =
      if bool_decide (p = dir) && globSegment name && doomed now ms bytes n then None else Some i) ∧
  (∀ k, names f !! k = None → names f' !! k = None) ∧
  count = Z.of_nat (length (filter (λ '(_, n), doomed now ms bytes n = true) (segmentFiles dir f))).
Proof.
  intros H. assert (count = (CleanupOldSegments dir now ms bytes f).1 ∧
    f' = (CleanupOldSegments dir now ms bytes f).2) as [-> ->] by (by rewrite H). clear H.
  split_and!; [|by intros; apply cleanup_lookup|..]; unfold CleanupOldSegments; rewrite cleanup_loop;
    simpl; [done| |lia].
  intros k Hk. rewrite cleanup_names_lookup. by case_decide.
Qed.

Definition demo_fs : FS :=
  mkFS {[ ("/log", "segment_0.log") := 0; ("/log", "other") := 1 ]}
       {[ 0 := mkInode [x01; x02; x03] 7; 1 := mkInode [x01; x02; x03] 7 ]} 2.

Lemma cleanup_removes_witness :
  ∃ count f', CleanupOldSegments "/log" 9 0 2 demo_fs = (count, f') ∧
    names f' !! ("/log", "segment_0.log") = None ∧ names f' !! ("/log", "other") = Some 1.
Proof.
  destruct (CleanupOldSegments "/log" 9 0 2 demo_fs) as [count f'] eqn:E. exists count, f'.
  destruct (cleanup_removes "/log" 9 0 2 demo_fs count f' E) as (_ & H & _).
  split; [reflexivity|]. split.
  - rewrite (H "/log" "segment_0.log" 0 (mkInode [x01; x02; x03] 7)); reflexivity.
  - rewrite (H "/log" "other" 1 (mkInode [x01; x02; x03] 7)); reflexivity.
Defined.

(** A clean-up can cut off the segment in use.  When the segment that is
    open for writing exceeds a retention limit, its name goes and the open
    file stays: the next [Append] succeeds, and the entry it reports cannot
    be read. *)
Theorem cleanup_orphans_open_segment s now now' ms bytes g n d :
  wf s → segments (cl s) !! segOf (lastOffset (cl s)) = Some g →
  inodes (fs s) !! file g = Some n → doomed now ms bytes n = true →
  let s1 := s <| fs ::= λ f, (CleanupOldSegments (basePath (cl s)) now ms bytes f).2 |> in
  ∃ s2, Append io_ok now' d s1 = (Ok (lastOffset (cl s)), s2) ∧
    ∀ size, Read (lastOffset (cl s)) size s2 = Some (Err "no such file or directory").
Proof.
  intros Hwf Hg Hn Hd s1. destruct (wf_segs _ Hwf _ _ Hg) as [Ho Hname].
  set (k := segOf (lastOffset (cl s))) in *.
  assert (names (fs s1) !! (basePath (cl s), segName k) = None) as Hgone.
  { subst s1. simpl. rewrite (cleanup_lookup _ _ _ _ _ _ _ _ _ Hname Hn).
    by rewrite bool_decide_eq_true_2, segName_glob, Hd by done. }
  unfold Append, openSegment. simpl. fold (segOf (lastOffset (cl s))). fold k. rewrite Hg, Ho.
  eexists. split; [reflexivity|]. intros size. unfold Read. simpl.
  fold (segOf (lastOffset (cl s))). fold k. simpl in Hgone. by rewrite Hgone.
Qed.

Lemma cleanup_orphans_open_segment_witness :
  let s := (Append io_ok 5 [x01; x02] demo_new).2 in
  let s1 := s <| fs ::= λ f, (CleanupOldSegments "/log" 9 0 10 f).2 |> in
  ∃ s2, Append io_ok 10 [x03] s1 = (Ok 22, s2) ∧ Read 22 1 s2 = Some (Err "no such file or directory").
Proof.
  intros s s1. destruct (cleanup_orphans_open_segment s 9 10 0 10 (mkSegment 0 0 true)
    (mkInode (header 0 (Time.UnixNano 5) [x01; x02] ++ [x01; x02]) 5) [x03]) as (s2 & H1 & H2).
  - destruct (Append_grows io_ok 5 [x01; x02] demo_new 0) as [H _]; [|exact H].
    split; intros *; vm_compute; discriminate.
  - vm_compute. reflexivity.
  - vm_compute. reflexivity.
  - vm_compute. reflexivity.
  - exists s2. split; [exact H1|apply H2].
Defined.

(** ** Opening the log again *)

Lemma maxSize_spec (l : list (string * Inode)) m :
  let r := foldl (λ m '(_, n), let segOffset := Z.of_nat (length (content n)) in
             if segOffset >? m then segOffset else m) m l in
  m ≤ r ∧ (∀ name n, (name, n) ∈ l → Z.of_nat (length (content n)) ≤ r) ∧
  (r = m ∨ ∃ name n, (name, n) ∈ l ∧ r = Z.of_nat (length (content n))).
Proof.
  revert m. induction l as [|[x n] l IH]; intros m; simpl.
  { split_and!; [lia| |by left]. by intros ?? ?%not_elem_of_nil. }
  set (m' := if Z.of_nat (length (content n)) >? m then Z.of_nat (length (content n)) else m).
  assert (m ≤ m' ∧ Z.of_nat (length (content n)) ≤ m' ∧ (m' = m ∨ m' = Z.of_nat (length (content n)))) as (? & ? & Hm').
  { subst m'. destruct (_ >? _) eqn:E; bool_to_prop; auto with lia. }
  destruct (IH m') as (H1 & H2 & H3). cbv zeta in *. split_and!.
  - lia.
  - intros name n' [[= -> ->]|Hin]%elem_of_cons; [lia|eauto].
  - destruct H3 as [H3|(name & n' & Hin & H3)].
    + rewrite H3. destruct Hm' as [->|?]; [by left|]. right. exists x, n. split; [constructor|done].
    + right. exists name, n'. split; [by constructor|done].
Qed.

(** Opening a log again.  The next offset of an opened log is the size of
    its largest segment file.  So a log that never left its first segment is
    recovered: the next offset and every read are as before. *)
Theorem reopen_recovers s :
  wf s → aligned s →
  (∀ name i, names (fs s) !! (basePath (cl s), name) = Some i → globSegment name = true → name = segName 0) →
  let s' := OpenCommitLog (basePath (cl s)) (fs s) in
  wf s' ∧ aligned s' ∧ lastOffset (cl s') = lastOffset (cl s) ∧ ∀ o size, Read o size s' = Read o size s.
Proof.
  intros Hwf Hal Honly s'.
  assert (lastOffset (cl s') = lastOffset (cl s)) as Hlo.
  { rewrite Hal. subst s'. simpl. destruct (maxSize_spec (segmentFiles (basePath (cl s)) (fs s)) 0) as (H1 & H2 & H3).
    set (r := foldl _ _ _) in *. unfold segContent.
    destruct (names (fs s) !! (basePath (cl s), segName 0)) as [i|] eqn:Hi; simpl.
    - destruct (wf_bound _ Hwf _ _ Hi) as [_ [n Hn]]. rewrite Hn. simpl. apply Z.le_antisymm.
      + destruct H3 as [->|(name & n' & (Hg & i' & Hi' & Hn')%elem_of_segmentFiles & ->)]; [lia|].
        rewrite (Honly _ _ Hi' Hg) in Hi'. simplify_eq. done.
      + apply (H2 (segName 0)). apply elem_of_segmentFiles. eauto using segName_glob.
    - destruct H3 as [->|(name & n' & (Hg & i' & Hi' & Hn')%elem_of_segmentFiles & _)]; [done|].
      rewrite (Honly _ _ Hi' Hg) in Hi'. congruence. }
  split_and!; [|unfold aligned; by rewrite Hlo, Hal|done|done].
  destruct Hwf. split; simpl; [done..|]. intros k g. by rewrite lookup_empty.
Qed.

Lemma reopen_recovers_witness :
  let s := (Append io_ok 5 [x01; x02] demo_new).2 in
  let s' := OpenCommitLog "/log" (fs s) in
  lastOffset (cl s') = 22 ∧ Read 0 2 s' = Some (Ok [x01; x02]).
Proof.
  intros s s'. destruct (reopen_recovers s) as (_ & _ & H1 & H2).
  - destruct (Append_grows io_ok 5 [x01; x02] demo_new 0) as [H _]; [|exact H].
    split; intros *; vm_compute; discriminate.
  - vm_compute. reflexivity.
  - intros name i. change (names (fs s)) with (<[("/log", segName 0) := 0]> (∅ : gmap (string * string) Z)).
    change (basePath (cl s)) with "/log". rewrite lookup_insert. case_decide as E; [|discriminate].
    intros _ _. injection E as <-. reflexivity.
  - split; [exact H1|]. etrans; [apply (H2 0 2)|vm_compute; reflexivity].
Defined.

(** ** The index *)

Lemma lookup_loop t l best :
  let step := λ (best : option IndexEntry) '(_, entry),
    if Timestamp entry <=? t then
      match best with
      | None => Some entry
      | Some b => if Timestamp entry >? Timestamp b then Some entry else best
      end
    else best in
  (∀ b, best = Some b → Timestamp b ≤ t) →
  match foldl step best (l : list (Z * IndexEntry)) with
  | None => best = None ∧ ∀ k e, (k, e) ∈ l → t < Timestamp e
  | Some r => (best = Some r ∨ ∃ k, (k, r) ∈ l) ∧ Timestamp r ≤ t ∧
      (∀ b, best = Some b → Timestamp b ≤ Timestamp r) ∧
      ∀ k e, (k, e) ∈ l → Timestamp e ≤ t → Timestamp e ≤ Timestamp r
  end.
Proof.
  intros step. revert best. induction l as [|[k e] l IH]; intros best Hb; simpl.
  { destruct best as [b|]; split_and!; auto; [naive_solver|..]; by intros ?? ?%not_elem_of_nil. }
  specialize (IH (step best (k, e))). destruct (foldl step _ l) as [r|] eqn:Hf.
  - destruct IH as (H1 & H2 & H3 & H4).
    { intros b. simpl. repeat case_match; intros; simplify_eq; bool_to_prop; eauto; lia. }
    split_and!; [|done|..].
    + destruct H1 as [H1|[k' ?]]; [|right; exists k'; by constructor]. simpl in H1.
      repeat case_match; simplify_eq; eauto; right; exists k; constructor.
    + intros b Hbb. subst best. simpl in H3. repeat case_match; bool_to_prop; eauto;
        match goal with H : ∀ b, Some ?x = Some b → _ |- _ => specialize (H x eq_refl); lia end.
    + intros k' e' [[= -> ->]|Hin]%elem_of_cons Hle; [|eauto]. simpl in H3.
      repeat case_match; bool_to_prop; try lia;
        match goal with H : ∀ b, Some ?x = Some b → _ |- _ => specialize (H x eq_refl); lia end.
  - destruct IH as [H1 H2].
    { intros b. simpl. repeat case_match; intros; simplify_eq; bool_to_prop; eauto; lia. }
    simpl in H1. repeat case_match; simplify_eq; bool_to_prop. split; [done|].
    intros k' e' [[= -> ->]|Hin]%elem_of_cons; [done|eauto].
Qed.

(** What the index finds.  Whatever the order in which Go visits the map,
    [Lookup] returns an entry with the greatest time stamp that is not after
    the one asked for, and fails only when there is none; and
    [GetEntriesAfter] returns every entry with a greater offset exactly
    once. *)
Theorem index_queries idx order t o :
  iter_order (entries idx) order →
  match Lookup order t with
  | Ok e => (∃ k, entries idx !! k = Some e) ∧ Timestamp e ≤ t ∧
      ∀ k e', entries idx !! k = Some e' → Timestamp e' ≤ t → Timestamp e' ≤ Timestamp e
  | Err _ => ∀ k e, entries idx !! k = Some e → t < Timestamp e
  end ∧
  GetEntriesAfter order o ≡ₚ filter (λ e, o < Offset e) (map_to_list (entries idx)).*2.
Proof.
  intros Ho. split; [|unfold GetEntriesAfter; by rewrite Ho].
  unfold Lookup. pose proof (lookup_loop t order None ltac:(done)) as H. simpl in H.
  destruct (foldl _ _ _) as [e|].
  - destruct H as ([?|[k Hk]] & Hle & _ & Hmax); [done|]. apply (iter_order_elem _ _ _ _ Ho) in Hk.
    split_and!; [eauto|done|]. intros k' e' He'. apply (iter_order_elem _ _ _ _ Ho) in He'. eauto.
  - intros k e He. apply (iter_order_elem _ _ _ _ Ho) in He. by apply H in He.
Qed.

Lemma index_queries_witness :
  let idx := Put 9 1 20 (Put 4 2 30 (Put 0 3 10 OpenSparseIndex)) in
  match Lookup (map_to_list (entries idx)) 25 with Ok e => Timestamp e = 20 | Err _ => False end.
Proof.
  intros idx. destruct (index_queries idx (map_to_list (entries idx)) 25 0) as [H _];
    [apply iter_order_self|].
  change (Lookup (map_to_list (entries idx)) 25) with (Ok (mkIndexEntry 9 1 20)) in *. reflexivity.
Defined.

End StorageProps.
