(* ===== verification/TimeWheel.v ===== *)
(** * The time wheel of delayed messages

    Models [cluster/go/broker/storage/timewheel.go].  A bucket is a Go
    slice: [tick] empties it with [messages[:0]] and goes on reading the old
    messages, so the slice that [AddMessage] appends to and the slice the
    loop reads share their array.  The arrays are therefore kept in a store
    of their own.  [tick] reads the slice without a lock: the messages that
    other goroutines add in between are an argument of its definition. *)

From Stdlib Require Import ZArith Lia Strings.Byte.
From stdpp Require Import base tactics list gmap strings fin_maps.
From S2P Require Import Prelude GoLib.

Open Scope Z_scope.

Module TimeWheel.

Import Int.

Record DelayedMessage := mkDelayedMessage {
  Topic : string; Partition : Z; Data : list byte; DeliveryAt : Z }.

(** A slice of message pointers: an array and the length in use; the
    capacity is the length of the array.  A slot that was never written
    holds nil. *)
Record slice := mkSlice { ptr : Z; len : nat }.

Record TimeWheel := mkTimeWheel {
  tickMs : Z;
  wheelSize : Z;
  currentIndex : Z;
  buckets : list slice;
  arrays : gmap Z (list (option DelayedMessage));
  nextArray : Z;
  dispatchCh : list DelayedMessage;
  dropped : list DelayedMessage;
}.

#[export] Instance eta_TimeWheel : Eta TimeWheel := λ t,
  mkTimeWheel (tickMs t) (wheelSize t) (currentIndex t) (buckets t) (arrays t) (nextArray t)
    (dispatchCh t) (dropped t).

(** The capacity [append] gives a full slice of length [n] when it moves it
    is [n + 1 + spare n], for a [spare] the language leaves open. *)
Section wheel.
Context (spare : nat → nat).

Definition array_of (s : slice) (tw : TimeWheel) : list (option DelayedMessage) :=
  default [] (arrays tw !! ptr s).

Definition NewTimeWheel (tick size : Z) : TimeWheel :=
  let n := Z.to_nat size in
  mkTimeWheel tick size 0 ((λ i, mkSlice (Z.of_nat i) 0) <$> seq 0 n)
    (list_to_map ((λ i, (Z.of_nat i, [])) <$> seq 0 n)) (Z.of_nat n) [] [].

(** [append(s, msg)]: in place while there is room, else in a new array. *)
Definition append (s : slice) (msg : DelayedMessage) (tw : TimeWheel) : slice * TimeWheel :=
  let a := array_of s tw in
  if (len s <? length a)%nat
  then (mkSlice (ptr s) (S (len s)),
        tw <| arrays ::= <[ptr s := <[len s := Some msg]> a]> |>)
  else (mkSlice (nextArray tw) (S (len s)),
        tw <| arrays ::= <[nextArray tw := take (len s) a ++ Some msg :: replicate (spare (len s)) None]> |>
           <| nextArray ::= Z.succ |>).

(** The channel holds 1000 messages; a message that finds it full is dropped. *)
Definition dispatchMessage (msg : DelayedMessage) (tw : TimeWheel) : TimeWheel :=
  if (length (dispatchCh tw) <? 1000)%nat
  then tw <| dispatchCh ::= λ l, l ++ [msg] |>
  else tw <| dropped ::= λ l, l ++ [msg] |>.

(** [tw.buckets[b].messages = append(tw.buckets[b].messages, msg)]. *)
Definition addTo (b : nat) (msg : DelayedMessage) (tw : TimeWheel) : TimeWheel :=
  match buckets tw !! b with
  | Some s => let '(s', tw') := append s msg tw in tw' <| buckets ::= <[b := s']> |>
  | None => tw
  end.

(** [AddMessage], with the clock it reads.  [tickMs] and [wheelSize] are
    positive, as [NewTimeWheel] requires of its callers. *)
Definition AddMessage (now : Z) (msg : DelayedMessage) (tw : TimeWheel) : TimeWheel :=
  let delayMs := Time.Milliseconds (Time.Sub (DeliveryAt msg) now) in
  if delayMs <=? 0 then dispatchMessage msg tw
  else
    let ticks := Z.quot delayMs (tickMs tw) in
    let index := Z.rem (currentIndex tw + ticks) (wheelSize tw) in
    addTo (Z.to_nat index) msg tw.

(** [tick] holds the lock of the wheel while it advances it and the lock of
    the bucket while it empties it, and no lock afterwards.  Other goroutines
    may add messages between the two, before each slot of the slice is read,
    and before the message that was read is handled. *)
Inductive point := AfterAdvance | BeforeRead (i : nat) | AfterRead (i : nat).

(** What the others add at each of these points, with their clocks. *)
Definition arrive (adds : point → list (Z * DelayedMessage)) (p : point) (tw : TimeWheel) : TimeWheel :=
  foldl (λ tw '(now, msg), AddMessage now msg tw) tw (adds p).

(** The loop of [tick] over the slice [messages], from index [i]; [clock i]
    are the three clock readings of iteration [i]. *)
Fixpoint tickLoop (adds : point → list (Z * DelayedMessage)) (clock : nat → Z * Z * Z) (messages : slice)
    (n i : nat) (tw : TimeWheel) : TimeWheel :=
  match n with
  | O => tw
  | S n =>
      let '(t1, t2, t3) := clock i in
      let tw := arrive adds (BeforeRead i) tw in
      let slot := array_of messages tw !! i in
      let tw := arrive adds (AfterRead i) tw in
      tickLoop adds clock messages n (S i)
        match slot with
        | Some (Some msg) =>
            if Time.After t1 (DeliveryAt msg) || (t2 =? DeliveryAt msg)
            then dispatchMessage msg tw else AddMessage t3 msg tw
        | _ => tw
        end
  end.

Definition advance (tw : TimeWheel) : TimeWheel :=
  tw <| currentIndex ::= λ c, Z.rem (c + 1) (wheelSize tw) |>.

Definition tick (adds : point → list (Z * DelayedMessage)) (clock : nat → Z * Z * Z) (tw : TimeWheel) : TimeWheel :=
  let k := Z.to_nat (currentIndex tw) in
  let tw := arrive adds AfterAdvance (advance tw) in
  match buckets tw !! k with
  | None => tw
  | Some messages =>
      tickLoop adds clock messages (len messages) 0 (tw <| buckets ::= <[k := mkSlice (ptr messages) 0]> |>)
  end.

(** The consumer of [GetDispatchChannel] takes a message. *)
Definition receive (tw : TimeWheel) : option (DelayedMessage * TimeWheel) :=
  match dispatchCh tw with
  | [] => None
  | m :: l => Some (m, tw <| dispatchCh := l |>)
  end.

Definition GetPendingCount (tw : TimeWheel) : Z :=
  foldl (λ c b, c + Z.of_nat (len b)) 0 (buckets tw).

(** ** Contents *)

Definition read (tw : TimeWheel) (s : slice) : list (option DelayedMessage) :=
  take (len s) (array_of s tw).

(** The messages waiting in the wheel, and the messages that left it. *)
Definition pending (tw : TimeWheel) : list (option DelayedMessage) :=
  concat (read tw <$> buckets tw).
Definition sent (tw : TimeWheel) : list DelayedMessage := dispatchCh tw ++ dropped tw.

Record wf (tw : TimeWheel) : Prop := {
  wf_tick : 0 < tickMs tw;
  wf_size : Z.of_nat (length (buckets tw)) = wheelSize tw;
  wf_index : 0 ≤ currentIndex tw < wheelSize tw;
  wf_bound : ∀ b s, buckets tw !! b = Some s →
               ptr s < nextArray tw ∧ (len s ≤ length (array_of s tw))%nat;
  wf_alias : ∀ b1 b2 s1 s2, buckets tw !! b1 = Some s1 → buckets tw !! b2 = Some s2 →
               ptr s1 = ptr s2 → b1 = b2;
  wf_msgs : ∀ b s x, buckets tw !! b = Some s → x ∈ read tw s → is_Some x;
}.

Lemma read_insert_r (l : list (option DelayedMessage)) n x :
  (n < length l)%nat → take (S n) (<[n := x]> l) = take n l ++ [x].
Proof.
  intros Hn. rewrite (take_S_r _ _ x) by (by apply list_lookup_insert_eq).
  by rewrite take_insert_ge by lia.
Qed.

(** What an append does to the slice itself, and to every slice on another
    array. *)
Lemma append_spec s msg tw s' tw' :
  append s msg tw = (s', tw') → ptr s < nextArray tw → (len s ≤ length (array_of s tw))%nat →
  read tw' s' = read tw s ++ [Some msg] ∧ (len s' ≤ length (array_of s' tw'))%nat ∧
  (ptr s' = ptr s ∨ ptr s' = nextArray tw) ∧ ptr s' < nextArray tw' ∧ nextArray tw ≤ nextArray tw' ∧
  (∀ r, ptr r < nextArray tw → ptr r ≠ ptr s → array_of r tw' = array_of r tw) ∧
  (∀ r i, ptr r = ptr s → (len s < i)%nat → array_of r tw' !! i = array_of r tw !! i) ∧
  buckets tw' = buckets tw ∧ sent tw' = sent tw ∧ tickMs tw' = tickMs tw ∧
  wheelSize tw' = wheelSize tw ∧ currentIndex tw' = currentIndex tw ∧
  ((len s < length (array_of s tw))%nat → ptr s' = ptr s) ∧ len s' = S (len s).
Proof.
  assert (∀ q X tw1 r, arrays tw1 = <[q := X]> (arrays tw) →
    array_of r tw1 = if decide (ptr r = q) then X else array_of r tw) as HA.
  { intros q X tw1 r Hq. unfold array_of. rewrite Hq, lookup_insert. by repeat case_decide; subst. }
  unfold append. destruct (len s <? length (array_of s tw))%nat eqn:E; intros [= <- <-] Hp Hl.
  - apply Nat.ltb_lt in E. match goal with |- read ?x _ = _ ∧ _ => set (tw1 := x) end.
    specialize (HA (ptr s) (<[len s:=Some msg]> (array_of s tw)) tw1).
    unfold read. rewrite HA, decide_True by done. cbn [len ptr]. rewrite read_insert_r, length_insert by done.
    split_and!; auto; try (subst tw1; simpl; lia).
    + intros r _ Hne. by rewrite HA, decide_False.
    + intros r i Hr Hi. rewrite HA, decide_True by done. rewrite list_lookup_insert_ne by lia.
      unfold array_of. by rewrite Hr.
  - apply Nat.ltb_ge in E. match goal with |- read ?x _ = _ ∧ _ => set (tw1 := x) end.
    specialize (HA (nextArray tw) (take (len s) (array_of s tw) ++ Some msg :: replicate (spare (len s)) None) tw1).
    unfold read. rewrite HA, decide_True by done. cbn [len ptr].
    split_and!; auto; try (subst tw1; simpl; lia).
    + rewrite (cons_middle (Some msg)), app_assoc. apply take_app_exact.
      rewrite length_app, length_take. simpl. lia.
    + rewrite length_app, length_take. simpl. lia.
    + intros r Hr _. rewrite HA by done. by rewrite decide_False by lia.
    + intros r i Hr Hi. rewrite HA by done. by rewrite decide_False by lia.
Qed.

(** All messages the wheel has seen and not handed out. *)
Definition total (tw : TimeWheel) : list (option DelayedMessage) :=
  pending tw ++ (Some <$> sent tw).

Lemma dispatch_spec m tw :
  let tw' := dispatchMessage m tw in
  sent tw' ≡ₚ sent tw ++ [m] ∧ buckets tw' = buckets tw ∧ arrays tw' = arrays tw ∧
  nextArray tw' = nextArray tw ∧ tickMs tw' = tickMs tw ∧ wheelSize tw' = wheelSize tw ∧
  currentIndex tw' = currentIndex tw.
Proof.
  unfold dispatchMessage, sent. case_match; simpl; split_and!; try done; solve_Permutation.
Qed.

Lemma dispatch_ok m tw :
  wf tw → wf (dispatchMessage m tw) ∧ total (dispatchMessage m tw) ≡ₚ total tw ++ [Some m].
Proof.
  intros Hwf. destruct (dispatch_spec m tw) as (Hs & Hb & Ha & Hn & Ht & Hz & Hc).
  assert (∀ s, array_of s (dispatchMessage m tw) = array_of s tw) as Harr
    by (intros s; unfold array_of; by rewrite Ha).
  assert (∀ s, read (dispatchMessage m tw) s = read tw s) as Hr by (intros s; unfold read; by rewrite Harr).
  split.
  - destruct Hwf. split; rewrite ?Hb, ?Hn, ?Ht, ?Hz, ?Hc; try done.
    + intros b s Hb'. rewrite Harr. by eapply wf_bound0.
    + intros b s x. rewrite Hr. eauto.
  - unfold total, pending. rewrite Hb, Hs, fmap_app, <- app_assoc. f_equiv; [|done].
    apply Permutation_refl'. f_equal. apply list_fmap_ext. intros. by rewrite Hr.
Qed.

(** Adding to one bucket leaves the others alone. *)
Lemma addTo_ok b s m tw :
  wf tw → buckets tw !! b = Some s →
  let tw' := addTo b m tw in
  wf tw' ∧ total tw' ≡ₚ total tw ++ [Some m] ∧ sent tw' = sent tw ∧
  currentIndex tw' = currentIndex tw ∧
  (∃ s', buckets tw' !! b = Some s' ∧ len s' = S (len s) ∧ read tw' s' = read tw s ++ [Some m] ∧
     ((len s < length (array_of s tw))%nat → ptr s' = ptr s)) ∧
  (∀ b', b' ≠ b → buckets tw' !! b' = buckets tw !! b') ∧
  (∀ r, ptr r < nextArray tw → ptr r ≠ ptr s → array_of r tw' = array_of r tw) ∧
  (∀ r i, ptr r = ptr s → (len s < i)%nat → array_of r tw' !! i = array_of r tw !! i) ∧
  nextArray tw ≤ nextArray tw'.
Proof.
  intros Hwf Hb. unfold addTo. rewrite Hb. destruct (append s m tw) as [s' tw1] eqn:Ha.
  destruct (wf_bound _ Hwf _ _ Hb) as [Hp Hl].
  destruct (append_spec _ _ _ _ _ Ha Hp Hl)
    as (Hr & Hl' & Hp' & Hpn & Hn & Harr & Htail & Hbs & Hse & Ht & Hz & Hc & Hroom & Hlen).
  set (tw' := tw1 <| buckets ::= <[b := s']> |>).
  assert (∀ b' r, b' ≠ b → buckets tw !! b' = Some r → array_of r tw1 = array_of r tw) as Hother.
  { intros b' r Hne Hr'. apply Harr; [by eapply wf_bound|]. intros Heq. apply Hne. by eapply wf_alias. }
  assert (∀ b' r, b' ≠ b → buckets tw !! b' = Some r → read tw1 r = read tw r) as Hother'.
  { intros b' r Hne Hr'. unfold read. by rewrite (Hother b' r). }
  assert (b < length (buckets tw))%nat as Hlt by (by eapply lookup_lt_Some).
  assert (∀ b', b' ≠ b → buckets tw' !! b' = buckets tw !! b') as Hbk.
  { intros b' Hne. subst tw'. simpl. rewrite Hbs. by rewrite list_lookup_insert_ne. }
  assert (buckets tw' !! b = Some s') as Hbk'.
  { subst tw'. simpl. rewrite Hbs. by apply list_lookup_insert_eq. }
  split_and!; try done; [| |eauto 10].
  - split; simpl; rewrite ?Hbs, ?Ht, ?Hz, ?Hc; try apply Hwf.
    + rewrite length_insert. apply Hwf.
    + intros b' r. destruct (decide (b' = b)) as [->|Hne].
      * rewrite list_lookup_insert_eq by done. intros [= <-]. done.
      * rewrite list_lookup_insert_ne by done. intros Hr'. destruct (wf_bound _ Hwf _ _ Hr').
        change (array_of r tw') with (array_of r tw1). rewrite (Hother b' r) by done. split; [lia|done].
    + assert (∀ b' r, b' ≠ b → buckets tw !! b' = Some r → ptr r ≠ ptr s') as Hd.
      { intros b' r Hne Hr' Heq. destruct (wf_bound _ Hwf _ _ Hr'). destruct Hp' as [E|E]; [|lia].
        apply Hne. eapply (wf_alias _ Hwf); [done..|congruence]. }
      intros b1 b2 s1 s2. destruct (decide (b1 = b)) as [->|], (decide (b2 = b)) as [->|];
        rewrite ?list_lookup_insert_eq by done; rewrite ?list_lookup_insert_ne by done; intros; simplify_eq; try done.
      * exfalso. by eapply (Hd b2).
      * exfalso. by eapply (Hd b1).
      * by eapply wf_alias.
    + intros b' r x. change (read tw' r) with (read tw1 r). destruct (decide (b' = b)) as [->|Hne].
      * rewrite list_lookup_insert_eq by done. intros [= <-]. rewrite Hr.
        intros [?| ->%list_elem_of_singleton]%elem_of_app; [by eapply wf_msgs|done].
      * rewrite list_lookup_insert_ne by done. intros Hr'. rewrite (Hother' b' r) by done. by eapply wf_msgs.
  - unfold total. change (sent tw') with (sent tw1). rewrite Hse. unfold pending.
    assert (buckets tw' = take b (buckets tw) ++ s' :: drop (S b) (buckets tw)) as ->.
    { subst tw'. simpl. rewrite Hbs. by apply insert_take_drop. }
    rewrite <- (take_drop_middle (buckets tw) b s Hb) at 3.
    rewrite !fmap_app, !fmap_cons, !concat_app. cbn [concat].
    change (read tw' s') with (read tw1 s'). rewrite Hr.
    assert (∀ l : list slice, (∀ x, x ∈ l → ∃ b', b' ≠ b ∧ buckets tw !! b' = Some x) → read tw' <$> l = read tw <$> l) as Hl2.
    { intros l Hin. apply list_fmap_ext. intros i x Hx. destruct (Hin x) as (b' & ? & ?);
        [by eapply list_elem_of_lookup_2|]. by apply (Hother' b'). }
    rewrite !Hl2; [solve_Permutation|..].
    + intros x [i Hi]%list_elem_of_lookup_1. rewrite lookup_drop in Hi. exists (S b + i)%nat. split; [lia|done].
    + intros x [i Hi]%list_elem_of_lookup_1. apply lookup_take_Some in Hi as [??]. exists i. split; [lia|done].
Qed.

(** ** Placement *)

(** How many buckets ahead of the current one a message goes. *)
Definition ahead (now : Z) (msg : DelayedMessage) (tw : TimeWheel) : Z :=
  (Time.Milliseconds (Time.Sub (DeliveryAt msg) now) / tickMs tw) mod wheelSize tw.

Definition bucket_at (k : Z) (tw : TimeWheel) : nat :=
  Z.to_nat ((currentIndex tw + k) mod wheelSize tw).

(** Not due: at least one millisecond away. *)
Definition not_due (now : Z) (msg : DelayedMessage) : Prop :=
  Time.Millisecond ≤ DeliveryAt msg - now.

#[export] Instance not_due_dec now msg : Decision (not_due now msg).
Proof. unfold not_due. apply _. Defined.

Lemma delay_due now msg :
  Time.Milliseconds (Time.Sub (DeliveryAt msg) now) ≤ 0 ↔ ¬ not_due now msg.
Proof.
  unfold not_due, Time.Milliseconds, Time.Sub, Time.Millisecond.
  set (d := DeliveryAt msg - now). set (c := Z.max _ _).
  assert (c < 1000000 ↔ d < 1000000) as Hc by lia.
  rewrite Z.nle_gt, <- Hc. split; intros H.
  - apply Z.nle_gt. intros Hle. apply (Z.quot_le_mono 1000000 c 1000000) in Hle; [|lia].
    rewrite Z.quot_same in Hle by lia. lia.
  - destruct (Z.le_gt_cases 0 c).
    + rewrite Z.quot_small by lia. done.
    + rewrite <- (Z.opp_involutive c), Z.quot_opp_l by lia.
      pose proof (Z.quot_pos (- c) 1000000). lia.
Qed.

Lemma AddMessage_cases now msg tw :
  wf tw →
  (¬ not_due now msg ∧ AddMessage now msg tw = dispatchMessage msg tw) ∨
  (not_due now msg ∧ AddMessage now msg tw = addTo (bucket_at (ahead now msg tw) tw) msg tw ∧
   ∃ s, buckets tw !! bucket_at (ahead now msg tw) tw = Some s).
Proof.
  intros Hwf. unfold AddMessage. destruct (_ <=? 0) eqn:E; bool_to_prop.
  { left. split; [by apply delay_due|done]. }
  right. assert (not_due now msg) as Hnd.
  { destruct (decide (not_due now msg)) as [|Hn]; [done|]. apply delay_due in Hn. lia. }
  split; [done|]. pose proof (wf_tick _ Hwf). pose proof (wf_index _ Hwf).
  assert (Z.to_nat (Z.rem (currentIndex tw + Z.quot (Time.Milliseconds (Time.Sub (DeliveryAt msg) now)) (tickMs tw))
    (wheelSize tw)) = bucket_at (ahead now msg tw) tw) as ->.
  { unfold bucket_at, ahead. rewrite Z.quot_div_nonneg by lia.
    assert (0 ≤ Time.Milliseconds (Time.Sub (DeliveryAt msg) now) / tickMs tw) by (apply Z.div_pos; lia).
    rewrite Z.rem_mod_nonneg by lia. by rewrite Zplus_mod_idemp_r. }
  split; [done|]. apply lookup_lt_is_Some_2. unfold bucket_at.
  pose proof (Z.mod_pos_bound (currentIndex tw + ahead now msg tw) (wheelSize tw)).
  pose proof (wf_size _ Hwf). lia.
Qed.

(** Where a delayed message waits.  Adding a message dispatches it at once
    when less than a millisecond is left; otherwise it is appended to the
    bucket the wheel reaches after [ahead] more ticks, where [ahead] ticks
    are at most the delay and, when the delay is less than one turn of the
    wheel, one more tick would exceed it.  Nothing is lost and the wheel
    stays well-formed. *)
Theorem AddMessage_places now msg tw :
  wf tw →
  let tw' := AddMessage now msg tw in
  let delay := Time.Milliseconds (Time.Sub (DeliveryAt msg) now) in
  let k := ahead now msg tw in
  wf tw' ∧ total tw' ≡ₚ total tw ++ [Some msg] ∧
  (¬ not_due now msg → tw' = dispatchMessage msg tw) ∧
  (not_due now msg →
    (∃ s s', buckets tw !! bucket_at k tw = Some s ∧ buckets tw' !! bucket_at k tw = Some s' ∧
             read tw' s' = read tw s ++ [Some msg]) ∧
    0 ≤ k < wheelSize tw ∧ k * tickMs tw ≤ delay ∧
    (delay < wheelSize tw * tickMs tw → delay < (k + 1) * tickMs tw)).
Proof.
  intros Hwf tw' delay k. pose proof (wf_tick _ Hwf). pose proof (wf_index _ Hwf).
  destruct (AddMessage_cases now msg tw Hwf) as [[Hd Heq]|(Hd & Heq & s & Hs)].
  - subst tw'. rewrite Heq. destruct (dispatch_ok msg tw Hwf). by split_and!.
  - destruct (addTo_ok _ _ msg tw Hwf Hs) as (Hwf' & Ht & _ & _ & (s' & Hs' & _ & Hr & _) & _).
    subst tw'. rewrite Heq. split_and!; try done. intros _.
    assert (0 < delay).
    { subst delay. apply Z.nle_gt. rewrite delay_due. tauto. }
    assert (0 ≤ delay / tickMs tw) by (apply Z.div_pos; lia).
    pose proof (Z.mul_div_le delay (tickMs tw)).
    pose proof (Z.mul_succ_div_gt delay (tickMs tw)).
    split_and!; [eauto|..]; subst k; unfold ahead; fold delay.
    + apply Z.mod_pos_bound. lia.
    + apply Z.mod_pos_bound. lia.
    + pose proof (Z.mod_le (delay / tickMs tw) (wheelSize tw)). nia.
    + intros Hlt. rewrite (Z.mod_small (delay / tickMs tw)); [lia|]. split; [done|].
      apply Z.div_lt_upper_bound; lia.
Qed.

(** ** One turn of the loop *)

(** A message is due at one of the clock readings of a tick. *)
Definition due_at (clock : nat → Z * Z * Z) (m : DelayedMessage) : Prop :=
  ∃ i t1 t2 t3, clock i = (t1, t2, t3) ∧
    (DeliveryAt m < t1 ∨ DeliveryAt m = t2 ∨ ¬ not_due t3 m).

Lemma dispatch_sent m m' tw : m' ∈ sent (dispatchMessage m tw) → m' = m ∨ m' ∈ sent tw.
Proof.
  destruct (dispatch_spec m tw) as (Hs & _). rewrite Hs.
  intros [?| ->%list_elem_of_singleton]%elem_of_app; auto.
Qed.

Lemma take_S_drop {A} (l : list A) n i x :
  l !! i = Some x → take (S n) (drop i l) = x :: take n (drop (S i) l).
Proof. intros Hx. by rewrite (drop_S l x i) by done. Qed.

Lemma take_drop_ext {A} (l1 l2 : list A) n i :
  (∀ j, (i ≤ j)%nat → l1 !! j = l2 !! j) → take n (drop i l1) = take n (drop i l2).
Proof.
  intros H. f_equal. apply list_eq. intros j. rewrite !lookup_drop. apply H. lia.
Qed.

Definition same_turn (tw tw1 : TimeWheel) : Prop :=
  tickMs tw1 = tickMs tw ∧ wheelSize tw1 = wheelSize tw ∧ currentIndex tw1 = currentIndex tw.

Lemma AddMessage_turn now m tw : same_turn tw (AddMessage now m tw).
Proof.
  unfold AddMessage, addTo, append, dispatchMessage, same_turn. repeat case_match; simplify_eq/=; done.
Qed.

(** The loop drains bucket [k], and has read the slots of [messages] before
    [i]: the bucket's new slice reuses only these. *)
Definition drains (k : nat) (messages : slice) (i : nat) (tw : TimeWheel) : Prop :=
  ∃ s, buckets tw !! k = Some s ∧ ptr s = ptr messages ∧ (len s ≤ i)%nat.

(** From [tw] to [tw1] the messages [new] came in, and the slots from [i] on
    were left alone; what was sent satisfies [P]. *)
Record kept (k : nat) (messages : slice) (P : DelayedMessage → Prop) (i : nat) (tw tw1 : TimeWheel)
    (new : list DelayedMessage) : Prop := {
  kp_wf : wf tw1;
  kp_turn : same_turn tw tw1;
  kp_drains : drains k messages i tw1;
  kp_unread : ∀ j, (i ≤ j)%nat → array_of messages tw1 !! j = array_of messages tw !! j;
  kp_total : total tw1 ≡ₚ total tw ++ (Some <$> new);
  kp_sent : ∀ m, m ∈ sent tw1 → m ∈ sent tw ∨ P m;
}.

Lemma kept_refl k messages P i tw : wf tw → drains k messages i tw → kept k messages P i tw tw [].
Proof. intros. split; auto; [by split_and!|]. by rewrite app_nil_r. Qed.

Lemma kept_trans k messages P i i' tw1 tw2 tw3 new1 new2 :
  (i ≤ i')%nat → kept k messages P i tw1 tw2 new1 → kept k messages P i' tw2 tw3 new2 →
  kept k messages P i' tw1 tw3 (new1 ++ new2).
Proof.
  intros Hi [_ (? & ? & ?) _ Hu1 Ht1 Hs1] [? (? & ? & ?) ? Hu2 Ht2 Hs2]. split; auto.
  - split_and!; congruence.
  - intros j Hj. rewrite Hu2, Hu1; (done || lia).
  - by rewrite Ht2, Ht1, fmap_app, app_assoc.
  - intros m [?%Hs1|?]%Hs2; auto.
Qed.

Lemma kept_dispatch k messages (P : DelayedMessage → Prop) i m tw :
  wf tw → drains k messages i tw → P m → kept k messages P i tw (dispatchMessage m tw) [m].
Proof.
  intros Hwf (s & Hs & Hp & Hl) Hm.
  destruct (dispatch_ok m tw Hwf), (dispatch_spec m tw) as (_ & Hb & Ha & _ & ? & ? & ?).
  split; [done|by split_and!| | |done|].
  - exists s. by rewrite Hb.
  - intros j _. unfold array_of. by rewrite Ha.
  - intros m' [->|?]%dispatch_sent; auto.
Qed.

(** A message that goes to another bucket, or is due. *)
Lemma kept_elsewhere k messages (P : DelayedMessage → Prop) i now m tw :
  wf tw → drains k messages i tw → (¬ not_due now m → P m) →
  (not_due now m → bucket_at (ahead now m tw) tw ≠ k) →
  kept k messages P i tw (AddMessage now m tw) [m].
Proof.
  intros Hwf Hdr Hdue Helse. pose proof (AddMessage_turn now m tw) as Hturn.
  destruct (AddMessage_cases now m tw Hwf) as [[Hd Heq]|(Hd & Heq & s2 & Hs2)].
  { rewrite Heq. by apply kept_dispatch; auto. }
  destruct (addTo_ok _ _ m tw Hwf Hs2) as (Hwf1 & Ht & Hse & _ & _ & Hoth & Harr & _ & _).
  rewrite Heq in *. destruct Hdr as (s & Hk & Hp & Hl). specialize (Helse Hd).
  split; [done|done| | |done|rewrite Hse; auto].
  - exists s. by rewrite Hoth by (by apply not_eq_sym).
  - intros j _. f_equal. destruct (wf_bound _ Hwf _ _ Hk). apply Harr; [lia|]. intros E. apply Helse.
    apply (wf_alias _ Hwf _ _ _ _ Hs2 Hk). congruence.
Qed.

(** The message just read goes anywhere: back into bucket [k] it finds room
    in a slot that was read. *)
Lemma kept_own k messages (P : DelayedMessage → Prop) i now m tw :
  wf tw → drains k messages i tw → (i < length (array_of messages tw))%nat → (¬ not_due now m → P m) →
  kept k messages P (S i) tw (AddMessage now m tw) [m].
Proof.
  intros Hwf Hdr Hi Hdue.
  assert (drains k messages (S i) tw) as Hdr' by (destruct Hdr as (s & ? & ? & ?); exists s; split_and!; (done || lia)).
  destruct (AddMessage_cases now m tw Hwf) as [[Hd Heq]|(Hd & Heq & s2 & Hs2)].
  { rewrite Heq. by apply kept_dispatch; auto. }
  destruct (decide (bucket_at (ahead now m tw) tw = k)) as [Hk|Hne]; [|by apply kept_elsewhere].
  pose proof (AddMessage_turn now m tw) as Hturn. rewrite Hk in Hs2. rewrite Hk in Heq.
  destruct (addTo_ok _ _ m tw Hwf Hs2) as (Hwf1 & Ht & Hse & _ & (s' & Hs' & Hlen' & _ & Hroom) & _ & _ & Htail & _).
  destruct Hdr as (s & Hsk & Hp & Hl). rewrite Hs2 in Hsk. injection Hsk as ->. rewrite Heq in *.
  split; [done|done| | |done|rewrite Hse; auto].
  - exists s'. split_and!; [done| |lia]. rewrite <- Hp. apply Hroom.
    assert (array_of s tw = array_of messages tw) as -> by (unfold array_of; by rewrite Hp). lia.
  - intros j Hj. apply Htail; [done|lia].
Qed.

(** Whatever the bucket. *)
Lemma AddMessage_adds now m tw :
  wf tw →
  let tw1 := AddMessage now m tw in
  wf tw1 ∧ total tw1 ≡ₚ total tw ++ [Some m] ∧
  ∀ m', m' ∈ sent tw1 → m' ∈ sent tw ∨ m' = m ∧ ¬ not_due now m.
Proof.
  intros Hwf. destruct (AddMessage_cases now m tw Hwf) as [[Hd Heq]|(Hd & Heq & s & Hs)]; cbv zeta; rewrite Heq.
  - destruct (dispatch_ok m tw Hwf). split_and!; [done..|]. intros m' [->|?]%dispatch_sent; auto.
  - destruct (addTo_ok _ _ m tw Hwf Hs) as (? & ? & Hse & _). rewrite Hse. auto.
Qed.

(** Emptying a bucket: its messages wait in the slice only. *)
Lemma empty_bucket k s tw :
  wf tw → buckets tw !! k = Some s →
  let tw0 := tw <| buckets ::= <[k := mkSlice (ptr s) 0]> |> in
  wf tw0 ∧ total tw ≡ₚ total tw0 ++ read tw s ∧ drains k s 0 tw0.
Proof.
  intros Hwf Hs tw0. pose proof (lookup_lt_Some _ _ _ Hs) as Hk.
  assert (buckets tw0 = take k (buckets tw) ++ mkSlice (ptr s) 0 :: drop (S k) (buckets tw)) as Hb0
    by (by apply insert_take_drop).
  assert (∀ b r, buckets tw0 !! b = Some r →
    ∃ r', buckets tw !! b = Some r' ∧ ptr r = ptr r' ∧ (len r ≤ len r')%nat) as Hbs.
  { intros b r. subst tw0. simpl. destruct (decide (b = k)) as [->|Hne].
    - rewrite list_lookup_insert_eq by done. intros [= <-]. exists s. simpl. split_and!; (done || lia).
    - rewrite list_lookup_insert_ne by done. intros Hr. by exists r. }
  split_and!.
  - destruct Hwf. split; try done.
    + simpl. rewrite length_insert. lia.
    + intros b r (r' & Hr' & Hp & Hl)%Hbs. destruct (wf_bound0 _ _ Hr') as [??].
      unfold array_of in *. rewrite Hp. split; [done|]. simpl. lia.
    + intros b1 b2 s1 s2 (r1 & Hr1 & -> & _)%Hbs (r2 & Hr2 & -> & _)%Hbs. eauto.
    + intros b r x (r' & Hr' & Hp & Hl)%Hbs Hx. apply (wf_msgs0 _ _ _ Hr'). unfold read, array_of in *.
      rewrite Hp in Hx. apply list_elem_of_lookup_1 in Hx as [j Hj]. apply lookup_take_Some in Hj as [Hj ?].
      apply (list_elem_of_lookup_2 _ j), lookup_take_Some. split; [exact Hj|lia].
  - unfold total. change (sent tw0) with (sent tw).
    assert (pending tw ≡ₚ pending tw0 ++ read tw s) as ->; [|solve_Permutation].
    unfold pending. rewrite Hb0. rewrite <- (take_drop_middle (buckets tw) k s Hs) at 1.
    change (read tw0) with (read tw). rewrite !fmap_app, !fmap_cons, !concat_app. simpl.
    solve_Permutation.
  - exists (mkSlice (ptr s) 0). split_and!; [|done|done]. by apply list_lookup_insert_eq.
Qed.

Lemma advance_ok tw :
  wf tw →
  wf (advance tw) ∧ currentIndex (advance tw) = (currentIndex tw + 1) mod wheelSize tw.
Proof.
  intros []. unfold advance. split; [|simpl; rewrite Z.rem_mod_nonneg; (done || lia)].
  split; try done. simpl. rewrite Z.rem_mod_nonneg by lia. apply Z.mod_pos_bound. lia.
Qed.

(** *** With other goroutines *)

Section concurrent.
Context (adds : point → list (Z * DelayedMessage)) (clock : nat → Z * Z * Z) (tw0 : TimeWheel).

(** A message that another goroutine adds goes to the bucket being drained
    when it is due in the last tick of a turn. *)
Context (apart : ∀ p now m, p ≠ AfterAdvance → (now, m) ∈ adds p → not_due now m →
  ahead now m tw0 ≠ wheelSize tw0 - 1).

(** What leaves the wheel: messages that are due by the clock of the tick, or
    by the clock of the goroutine that adds them. *)
Definition may_leave (m : DelayedMessage) : Prop :=
  due_at clock m ∨ ∃ p now, (now, m) ∈ adds p ∧ ¬ not_due now m.

(** The wheel stands one bucket behind bucket [k]. *)
Definition past (k : nat) (tw : TimeWheel) : Prop :=
  tickMs tw = tickMs tw0 ∧ wheelSize tw = wheelSize tw0 ∧
  currentIndex tw = (Z.of_nat k + 1) mod wheelSize tw0 ∧ Z.of_nat k < wheelSize tw0.

Lemma past_apart k now m tw :
  past k tw → ahead now m tw0 ≠ wheelSize tw0 - 1 → bucket_at (ahead now m tw) tw ≠ k.
Proof.
  intros (H1 & H2 & H3 & Hk) Hne. unfold bucket_at, ahead in *. rewrite H1, H2, H3.
  rewrite Zplus_mod_idemp_l.
  set (a := (_ / _) mod wheelSize tw0) in *.
  assert (0 ≤ a < wheelSize tw0) by (apply Z.mod_pos_bound; lia).
  intros E. apply Hne. apply (f_equal Z.of_nat) in E.
  rewrite Z2Nat.id in E by (apply Z.mod_pos_bound; lia).
  destruct (Z.lt_ge_cases (Z.of_nat k + 1 + a) (wheelSize tw0)); [rewrite Z.mod_small in E; lia|].
  rewrite <- (Z.mod_add _ (-1)), Z.mod_small in E; lia.
Qed.

Lemma past_turn k tw tw1 : same_turn tw tw1 → past k tw → past k tw1.
Proof. intros (H1 & H2 & H3) (? & ? & ? & ?). unfold past. by rewrite H1, H2, H3. Qed.

Lemma arrive_kept k messages i p tw :
  p ≠ AfterAdvance → wf tw → past k tw → drains k messages i tw →
  kept k messages may_leave i tw (arrive adds p tw) (adds p).*2.
Proof.
  intros Hp Hwf Hpast Hdr. unfold arrive.
  assert (∀ l, (∀ x, x ∈ l → x ∈ adds p) → ∀ tw, wf tw → past k tw → drains k messages i tw →
    kept k messages may_leave i tw (foldl (λ tw '(now, msg), AddMessage now msg tw) tw l) l.*2) as Hl; [|by apply Hl].
  clear tw Hwf Hpast Hdr. induction l as [|[now m] l IH]; intros Hin tw Hwf Hpast Hdr; [by apply kept_refl|].
  assert ((now, m) ∈ adds p) as Hm by (apply Hin; constructor).
  assert (kept k messages may_leave i tw (AddMessage now m tw) [m]) as H1.
  { apply kept_elsewhere; [done..| |].
    - intros Hd. right. by exists p, now.
    - intros Hd. apply past_apart; [done|]. by apply (apart p). }
  simpl. eapply (kept_trans _ _ _ i i _ _ _ [m]); [done|exact H1|].
  destruct H1. apply IH; [intros; apply Hin; by constructor|done|by eapply past_turn|done].
Qed.

(** The messages that other goroutines add from slot [i] on. *)
Fixpoint arrivals (n i : nat) : list DelayedMessage :=
  match n with
  | O => []
  | S n => (adds (BeforeRead i)).*2 ++ (adds (AfterRead i)).*2 ++ arrivals n (S i)
  end.

(** One slot: its message is dispatched or put back. *)
Lemma slot_kept k messages i m t1 t2 t3 tw :
  clock i = (t1, t2, t3) → wf tw → past k tw → drains k messages i tw → (i < length (array_of messages tw))%nat →
  kept k messages may_leave (S i) tw
    (if Time.After t1 (DeliveryAt m) || (t2 =? DeliveryAt m) then dispatchMessage m tw else AddMessage t3 m tw) [m].
Proof.
  intros Hc Hwf Hpast Hdr Hi. destruct (_ || _) eqn:E.
  - apply kept_dispatch; [done| |].
    + destruct Hdr as (s & ? & ? & ?). exists s. split_and!; (done || lia).
    + left. exists i, t1, t2, t3. split; [done|]. apply orb_true_iff in E as [E|E];
        unfold Time.After in *; bool_to_prop; auto.
  - apply kept_own; [done..|]. intros Hd. left. exists i, t1, t2, t3. auto.
Qed.

Lemma tickLoop_kept k messages n i tw :
  wf tw → past k tw → drains k messages i tw →
  n = 0%nat ∨ (i + n ≤ length (array_of messages tw))%nat →
  (∀ x, x ∈ take n (drop i (array_of messages tw)) → is_Some x) →
  let tw' := tickLoop adds clock messages n i tw in
  wf tw' ∧ same_turn tw tw' ∧
  total tw' ≡ₚ total tw ++ take n (drop i (array_of messages tw)) ++ (Some <$> arrivals n i) ∧
  ∀ m, m ∈ sent tw' → m ∈ sent tw ∨ may_leave m.
Proof.
  revert i tw. induction n as [|n IH]; intros i tw Hwf Hpast Hdr Hlen Hsome; simpl.
  { rewrite app_nil_r. by split_and!; auto. }
  destruct Hlen as [|Hlen]; [done|]. destruct (clock i) as [[t1 t2] t3] eqn:Hclock.
  pose proof (arrive_kept k messages i (BeforeRead i) tw ltac:(done) Hwf Hpast Hdr) as K1.
  set (tw1 := arrive adds (BeforeRead i) tw) in *.
  pose proof (arrive_kept k messages i (AfterRead i) tw1 ltac:(done) (kp_wf _ _ _ _ _ _ _ K1)
    (past_turn _ _ _ (kp_turn _ _ _ _ _ _ _ K1) Hpast) (kp_drains _ _ _ _ _ _ _ K1)) as K2.
  set (tw2 := arrive adds (AfterRead i) tw1) in *.
  pose proof (kept_trans _ _ _ _ _ _ _ _ _ _ (le_n i) K1 K2) as K12.
  destruct (lookup_lt_is_Some_2 (array_of messages tw) i) as [x Hx]; [lia|].
  rewrite (kp_unread _ _ _ _ _ _ _ K1), Hx by done. rewrite (take_S_drop _ _ _ _ Hx) in Hsome |- *.
  destruct (Hsome x) as [m ->]; [constructor|].
  pose proof (slot_kept k messages i m t1 t2 t3 tw2 Hclock (kp_wf _ _ _ _ _ _ _ K12)
    (past_turn _ _ _ (kp_turn _ _ _ _ _ _ _ K12) Hpast) (kp_drains _ _ _ _ _ _ _ K12)) as K3.
  set (tw3 := if _ : bool then dispatchMessage m tw2 else _) in *.
  assert (i < length (array_of messages tw2))%nat as Hi2.
  { pose proof (kp_unread _ _ _ _ _ _ _ K12 i (le_n i)) as E. rewrite Hx in E. by apply lookup_lt_Some in E. }
  pose proof (kept_trans _ _ _ _ _ _ _ _ _ _ (Nat.le_succ_diag_r i) K12 (K3 Hi2)) as K.
  clearbody tw3. destruct K as [Hwf3 Hturn3 Hdr3 Hu3 Ht3 Hs3].
  destruct (IH (S i) tw3 Hwf3 (past_turn _ _ _ Hturn3 Hpast) Hdr3) as (H1 & (? & ? & ?) & H2 & H3).
  - destruct n as [|n]; [by left|right].
    assert (array_of messages tw3 !! (S i + n)%nat = array_of messages tw !! (S i + n)%nat) as E by (apply Hu3; lia).
    destruct (lookup_lt_is_Some_2 (array_of messages tw) (S i + n)) as [y Hy]; [lia|].
    rewrite Hy in E. apply lookup_lt_Some in E. lia.
  - rewrite (take_drop_ext _ _ _ _ Hu3). intros y Hy. apply Hsome. by constructor.
  - split_and!; [done|destruct Hturn3 as (? & ? & ?); split_and!; congruence| |].
    + rewrite H2, Ht3, (take_drop_ext _ _ _ _ Hu3), !fmap_app. simpl. solve_Permutation.
    + intros m' [Hin|?]%H3; [by apply Hs3|by right].
Qed.
(** Before the bucket is emptied other goroutines may add to any bucket. *)
Lemma arrive_ok p tw :
  wf tw →
  let tw1 := arrive adds p tw in
  wf tw1 ∧ same_turn tw tw1 ∧ total tw1 ≡ₚ total tw ++ (Some <$> (adds p).*2) ∧
  ∀ m, m ∈ sent tw1 → m ∈ sent tw ∨ may_leave m.
Proof.
  intros Hwf. unfold arrive.
  assert (∀ l, (∀ x, x ∈ l → x ∈ adds p) → ∀ tw, wf tw →
    let tw1 := foldl (λ tw '(now, msg), AddMessage now msg tw) tw l in
    wf tw1 ∧ same_turn tw tw1 ∧ total tw1 ≡ₚ total tw ++ (Some <$> l.*2) ∧
    ∀ m, m ∈ sent tw1 → m ∈ sent tw ∨ may_leave m) as Hl; [|by apply Hl].
  clear tw Hwf. induction l as [|[now m] l IH]; intros Hin tw Hwf; simpl.
  { rewrite app_nil_r. by split_and!; auto. }
  assert ((now, m) ∈ adds p) as Hm by (apply Hin; constructor).
  destruct (AddMessage_turn now m tw) as (? & ? & ?).
  destruct (AddMessage_adds now m tw Hwf) as (Hwf1 & Ht1 & Hs1).
  destruct (IH ltac:(intros; apply Hin; by constructor) (AddMessage now m tw) Hwf1) as (? & (? & ? & ?) & Ht2 & Hs2).
  split_and!; [done|unfold same_turn; split_and!; congruence| |].
  - rewrite Ht2, Ht1, <- app_assoc. done.
  - intros m' [[?|[-> ?]]%Hs1|?]%Hs2; [auto| |auto]. right. right. by exists p, now.
Qed.

End concurrent.

Lemma concat_length_pending tw :
  wf tw → GetPendingCount tw = Z.of_nat (length (pending tw)).
Proof.
  intros Hwf. unfold GetPendingCount, pending.
  assert (∀ l c, (∀ s, s ∈ l → (len s ≤ length (array_of s tw))%nat) →
    foldl (λ c b, c + Z.of_nat (len b)) c l = c + Z.of_nat (length (concat (read tw <$> l)))) as H.
  { induction l as [|s l IH]; intros c Hl; [simpl; lia|]. rewrite fmap_cons. cbn [foldl concat].
    rewrite IH by (intros; apply Hl; by constructor). rewrite length_app.
    assert (length (read tw s) = len s) by (apply length_take_le, Hl; constructor). lia. }
  rewrite H; [lia|]. intros s [b Hb]%list_elem_of_lookup_1. by eapply wf_bound.
Qed.

(** How many slots the loop of a tick reads. *)
Definition slots (adds : point → list (Z * DelayedMessage)) (tw : TimeWheel) : nat :=
  from_option len 0%nat
    (buckets (arrive adds AfterAdvance (advance tw)) !! Z.to_nat (currentIndex tw)).


End wheel.

Lemma NewTimeWheel_wf tick size : 0 < tick → 0 < size → wf (NewTimeWheel tick size).
Proof.
  intros Ht Hs. unfold NewTimeWheel. split; simpl; [done| |lia|..].
  - rewrite length_fmap, length_seq. lia.
  - intros b s (i & -> & [-> Hi]%lookup_seq)%list_lookup_fmap_Some. simpl. lia.
  - intros b1 b2 s1 s2 (i1 & -> & [-> _]%lookup_seq)%list_lookup_fmap_Some
      (i2 & -> & [-> _]%lookup_seq)%list_lookup_fmap_Some. simpl. lia.
  - intros b s x (i & -> & _)%list_lookup_fmap_Some. unfold read. simpl. by intros ?%not_elem_of_nil.
Qed.

Definition demo_msg (at_ : Z) : DelayedMessage := mkDelayedMessage "t" 0 [] at_.
Definition demo_wheel : TimeWheel :=
  AddMessage S 0 (demo_msg 25000000) (AddMessage S 0 (demo_msg 9000000) (NewTimeWheel 10 4)).

Lemma AddMessage_places_witness :
  wf demo_wheel ∧ buckets demo_wheel !! 2%nat = Some (mkSlice 5 1).
Proof.
  split; [|vm_compute; reflexivity].
  apply (AddMessage_places S 0 (demo_msg 25000000) (AddMessage S 0 (demo_msg 9000000) (NewTimeWheel 10 4))).
  apply (AddMessage_places S 0 (demo_msg 9000000) (NewTimeWheel 10 4)).
  apply NewTimeWheel_wf; reflexivity.
Defined.

(** Ticks of 10 ms and four buckets: while the tick reads the first bucket
    another goroutine adds a message due in 15 ms. *)
Definition demo_adds (p : point) : list (Z * DelayedMessage) :=
  match p with BeforeRead 0 => [(10000000, demo_msg 25500000)] | _ => [] end.


(** Two due messages wait in the bucket that is drained.  Before the first
    slot is read, another goroutine adds a message due in the last tick of a
    turn: it is appended to the emptied bucket, into the array being read.
    The tick reads it in place of the first message and puts it back over the
    second one: both due messages are lost and the new one waits three
    times. *)
Lemma concurrent_add_loses :
  let m1 := demo_msg 8000000 in
  let m2 := demo_msg 9000000 in
  let late := demo_msg 45000000 in
  let spare := λ _, 0%nat in
  let tw := AddMessage spare 0 m2 (AddMessage spare 0 m1 (NewTimeWheel 10 4)) in
  let clock := λ _, (10000000, 10000000, 10000000) in
  let adds := λ p, match p with BeforeRead 0 => [(10000000, late)] | _ => [] end in
  total tw = [Some m1; Some m2] ∧
  total (tick spare (λ _, []) clock tw) = [Some m1; Some m2] ∧
  total (tick spare adds clock tw) = [Some late; Some late; Some late].
Proof. vm_compute. auto. Qed.

End TimeWheel.
