(* ===== verification/Transaction.v ===== *)
(** * The broker's transaction manager

    Models [cluster/go/broker/transaction/transaction.go].  A transaction is
    reached through the table [transactions] and through the list
    [pendingTxns] of its producer, so the objects live in a store of their
    own and the tables hold pointers.  The theorems: every transaction goes
    through its states in order and is committed at most once; the table
    keeps its capacity; and a transaction pushed out of the table stays
    listed as active for ever. *)

From Stdlib Require Import ZArith Lia Strings.Byte.
From stdpp Require Import base tactics list gmap strings fin_maps.
From S2P Require Import Prelude GoLib.

Open Scope Z_scope.

Module Transaction.

Inductive TransactionState :=
| TransactionPending | TransactionPrepared | TransactionCommitted | TransactionRolledBack
| TransactionUnknown.

#[export] Instance TransactionState_eq_dec : EqDecision TransactionState.
Proof. solve_decision. Defined.

Definition state_string (s : TransactionState) : string :=
  match s with
  | TransactionPending => "PENDING"
  | TransactionPrepared => "PREPARED"
  | TransactionCommitted => "COMMITTED"
  | TransactionRolledBack => "ROLLED_BACK"
  | TransactionUnknown => "UNKNOWN"
  end.

Record TransactionMessage := mkTransactionMessage {
  Topic : string; Partition : Z; Data : list byte; Offset : Z }.

Record Transaction := mkTransaction {
  ID : string; State : TransactionState; Messages : list TransactionMessage; ProducerID : string;
  StartTime : Z; PrepareTime : Z; CommitTime : Z; RollbackTime : Z }.

(** [heap] are the transaction objects, [nextPtr] the next address. *)
Record TransactionManager := mkTransactionManager {
  transactions : gmap string Z;
  pendingTxns : gmap string (list Z);
  maxTransactions : Z;
  expireAfter : Z;
  heap : gmap Z Transaction;
  nextPtr : Z }.

#[export] Instance eta_Transaction : Eta Transaction := λ t,
  mkTransaction (ID t) (State t) (Messages t) (ProducerID t) (StartTime t) (PrepareTime t)
    (CommitTime t) (RollbackTime t).
#[export] Instance eta_TransactionManager : Eta TransactionManager := λ tm,
  mkTransactionManager (transactions tm) (pendingTxns tm) (maxTransactions tm) (expireAfter tm)
    (heap tm) (nextPtr tm).

Definition NewTransactionManager (maxTransactions expireAfter : Z) : TransactionManager :=
  mkTransactionManager ∅ ∅ maxTransactions expireAfter ∅ 0.

(** [txn.State == TransactionPending || txn.State == TransactionPrepared]. *)
Definition active (t : Transaction) : bool :=
  bool_decide (State t = TransactionPending) || bool_decide (State t = TransactionPrepared).

Definition deref (tm : TransactionManager) (p : Z) : option Transaction := heap tm !! p.
Definition store (p : Z) (t : Transaction) (tm : TransactionManager) : TransactionManager :=
  tm <| heap ::= <[p := t]> |>.

(** One tick of the clean-up goroutine. *)
Definition expire (now : Z) (tm : TransactionManager) (t : Transaction) : Transaction :=
  if (Time.Sub now (StartTime t) >? expireAfter tm) && active t
  then t <| State := TransactionRolledBack |> <| RollbackTime := now |> else t.

Definition cleanupExpired (now : Z) (tm : TransactionManager) : TransactionManager :=
  foldl (λ tm p, match deref tm p with Some t => store p (expire now tm t) tm | None => tm end)
    tm (map_to_list (transactions tm)).*2.

(** The start time of the transaction a pointer of the table leads to. *)
Definition startTime (tm : TransactionManager) (p : Z) : Z := from_option StartTime 0 (deref tm p).

(** [now1] and [now2] are the clock readings for the name and for the start
    time; [order] is the order of the range loop. *)
Definition BeginTransaction (order : list (string * Z)) (now1 now2 : Z) (producerID : string)
    (tm : TransactionManager) : string * TransactionManager :=
  let tm := tm <| transactions ::= make_room (startTime tm) (maxTransactions tm) order |> in
  let txnID := producerID +:+ "-" +:+ Fmt.d (Time.UnixNano now1) in
  let p := nextPtr tm in
  let txn := mkTransaction txnID TransactionPending [] producerID now2 0 0 0 in
  (txnID,
   tm <| heap ::= <[p := txn]> |> <| nextPtr ::= Z.succ |>
      <| transactions ::= <[txnID := p]> |>
      <| pendingTxns ::= λ m, <[producerID := default [] (m !! producerID) ++ [p]]> m |>).

(** The look-up every operation on a transaction starts with. *)
Definition find (txnID : string) (tm : TransactionManager) : option (Z * Transaction) :=
  p ← transactions tm !! txnID; t ← deref tm p; Some (p, t).

Definition AddMessage (txnID topic : string) (partition : Z) (data : list byte)
    (tm : TransactionManager) : result unit * TransactionManager :=
  match find txnID tm with
  | None => (Err ("transaction " +:+ txnID +:+ " not found"), tm)
  | Some (p, txn) =>
      if bool_decide (State txn ≠ TransactionPending) then
        (Err ("cannot add message to transaction in state " +:+ state_string (State txn)), tm)
      else (Ok tt, store p (txn <| Messages ::= λ l, l ++ [mkTransactionMessage topic partition data 0] |>) tm)
  end.

Definition Prepare (now : Z) (txnID : string) (tm : TransactionManager) : result unit * TransactionManager :=
  match find txnID tm with
  | None => (Err ("transaction " +:+ txnID +:+ " not found"), tm)
  | Some (p, txn) =>
      if bool_decide (State txn ≠ TransactionPending) then
        (Err ("cannot prepare transaction in state " +:+ state_string (State txn)), tm)
      else if bool_decide (Messages txn = []) then (Err "cannot prepare empty transaction", tm)
      else (Ok tt, store p (txn <| State := TransactionPrepared |> <| PrepareTime := now |>) tm)
  end.

Definition Commit (now : Z) (txnID : string) (tm : TransactionManager) :
    result (list TransactionMessage) * TransactionManager :=
  match find txnID tm with
  | None => (Err ("transaction " +:+ txnID +:+ " not found"), tm)
  | Some (p, txn) =>
      if bool_decide (State txn ≠ TransactionPrepared) then
        (Err ("cannot commit transaction in state " +:+ state_string (State txn)), tm)
      else (Ok (Messages txn),
            store p (txn <| State := TransactionCommitted |> <| CommitTime := now |>) tm)
  end.

Definition Rollback (now : Z) (txnID : string) (tm : TransactionManager) : result unit * TransactionManager :=
  match find txnID tm with
  | None => (Err ("transaction " +:+ txnID +:+ " not found"), tm)
  | Some (p, txn) =>
      if negb (active txn) then
        (Err ("cannot rollback transaction in state " +:+ state_string (State txn)), tm)
      else (Ok tt, store p (txn <| State := TransactionRolledBack |> <| RollbackTime := now |>) tm)
  end.

Definition GetTransaction (txnID : string) (tm : TransactionManager) : option Z :=
  transactions tm !! txnID.

Definition GetProducerTransactions (producerID : string) (tm : TransactionManager) : list Z :=
  match pendingTxns tm !! producerID with
  | None => []
  | Some txns => filter (λ p, from_option active false (deref tm p) = true) txns
  end.

Definition GetActiveTransactions (tm : TransactionManager) : Z :=
  Z.of_nat (length (filter (λ '(_, p), from_option active false (deref tm p) = true)
    (map_to_list (transactions tm)))).

(** ** Executions *)

Inductive op :=
| OBegin (order : list (string * Z)) (now1 now2 : Z) (producerID : string)
| OAdd (txnID topic : string) (partition : Z) (data : list byte)
| OPrepare (now : Z) (txnID : string)
| OCommit (now : Z) (txnID : string)
| ORollback (now : Z) (txnID : string)
| OCleanup (now : Z).

Definition step (o : op) (tm : TransactionManager) : TransactionManager :=
  match o with
  | OBegin order now1 now2 pid => (BeginTransaction order now1 now2 pid tm).2
  | OAdd id topic part data => (AddMessage id topic part data tm).2
  | OPrepare now id => (Prepare now id tm).2
  | OCommit now id => (Commit now id tm).2
  | ORollback now id => (Rollback now id tm).2
  | OCleanup now => cleanupExpired now tm
  end.

Definition run (ops : list op) (tm : TransactionManager) : TransactionManager := foldl (flip step) tm ops.

(** The transaction, with its messages, that an operation commits. *)
Definition commits (o : op) (tm : TransactionManager) : list (Z * list TransactionMessage) :=
  match o with
  | OCommit now id =>
      match transactions tm !! id, (Commit now id tm).1 with
      | Some p, Ok ms => [(p, ms)]
      | _, _ => []
      end
  | _ => []
  end.

Fixpoint committed (ops : list op) (tm : TransactionManager) : list (Z * list TransactionMessage) :=
  match ops with [] => [] | o :: ops => commits o tm ++ committed ops (step o tm) end.

(** The messages that calls of [AddMessage] which returned without an error
    gave to the transaction at [p]. *)
Definition adds (o : op) (p : Z) (tm : TransactionManager) : list TransactionMessage :=
  match o with
  | OAdd id topic part data =>
      if bool_decide (transactions tm !! id = Some p) && is_ok (AddMessage id topic part data tm).1
      then [mkTransactionMessage topic part data 0] else []
  | _ => []
  end.

Fixpoint added (ops : list op) (p : Z) (tm : TransactionManager) : list TransactionMessage :=
  match ops with [] => [] | o :: ops => adds o p tm ++ added ops p (step o tm) end.

(** The messages that the transaction at [p] holds, if there is one. *)
Definition messages (tm : TransactionManager) (p : Z) : list TransactionMessage :=
  from_option Messages [] (heap tm !! p).

(** ** The states of one transaction *)

(** What an operation may do to a transaction. *)
Inductive moves : Transaction → Transaction → Prop :=
| m_same t : moves t t
| m_add t msg : State t = TransactionPending → moves t (t <| Messages ::= λ l, l ++ [msg] |>)
| m_prepare t now : State t = TransactionPending → Messages t ≠ [] →
    moves t (t <| State := TransactionPrepared |> <| PrepareTime := now |>)
| m_commit t now : State t = TransactionPrepared →
    moves t (t <| State := TransactionCommitted |> <| CommitTime := now |>)
| m_rollback t now : active t = true →
    moves t (t <| State := TransactionRolledBack |> <| RollbackTime := now |>).

#[local] Hint Constructors moves : mq.

(** The tables point to objects, and addresses are fresh. *)
Record wf (tm : TransactionManager) : Prop := {
  wf_heap : ∀ p, is_Some (heap tm !! p) → p < nextPtr tm;
  wf_txns : ∀ id p, transactions tm !! id = Some p → is_Some (heap tm !! p);
}.

Lemma find_Some id tm p t :
  find id tm = Some (p, t) ↔ transactions tm !! id = Some p ∧ heap tm !! p = Some t.
Proof.
  unfold find, deref. destruct (transactions tm !! id) as [q|]; simpl; [|naive_solver].
  destruct (heap tm !! q) eqn:E; simpl; naive_solver.
Qed.

Lemma store_moves p t t' tm :
  heap tm !! p = Some t → moves t t' →
  ∀ q u, heap tm !! q = Some u → ∃ u', heap (store p t' tm) !! q = Some u' ∧ moves u u'.
Proof.
  intros Hp Hm q u Hq. simpl. destruct (decide (p = q)) as [->|].
  - rewrite lookup_insert_eq. naive_solver.
  - rewrite lookup_insert_ne by done. eauto with mq.
Qed.

Lemma store_wf p t tm : wf tm → is_Some (heap tm !! p) → wf (store p t tm).
Proof.
  intros [H1 H2] Hp. split; simpl; intros *; rewrite lookup_insert; case_decide; subst; eauto.
Qed.

Lemma expire_moves now tm t : moves t (expire now tm t).
Proof. unfold expire. destruct (_ && _) eqn:E; bool_to_prop; auto with mq. Qed.

(** A transaction object never moves twice in one clean-up. *)
Lemma expire_idem now tm tm' t t' :
  expireAfter tm' = expireAfter tm → t' = expire now tm t → expire now tm' t' = t'.
Proof.
  intros He ->. unfold expire. rewrite He. destruct (_ && active t) eqn:E; simpl.
  - unfold active. simpl. by rewrite andb_false_r.
  - by rewrite E.
Qed.

Lemma cleanup_spec now tm ps :
  let tm' := foldl (λ tm p, match deref tm p with Some t => store p (expire now tm t) tm | None => tm end) tm ps in
  transactions tm' = transactions tm ∧ nextPtr tm' = nextPtr tm ∧ expireAfter tm' = expireAfter tm ∧
  pendingTxns tm' = pendingTxns tm ∧ maxTransactions tm' = maxTransactions tm ∧
  ∀ p, heap tm' !! p = if decide (p ∈ ps) then expire now tm <$> heap tm !! p else heap tm !! p.
Proof.
  revert tm. induction ps as [|q ps IH]; intros tm; simpl.
  { by split_and!. }
  destruct (deref tm q) as [t|] eqn:Hq; unfold deref in Hq.
  - destruct (IH (store q (expire now tm t) tm)) as (H1 & H2 & H3 & H4 & H5 & H6).
    split_and!; try done. intros p. rewrite H6. simpl. rewrite lookup_insert.
    assert (∀ u, expire now (store q (expire now tm t) tm) u = expire now tm u) as Hex by done.
    destruct (decide (q = p)) as [->|Hne].
    + rewrite (decide_True (P := p ∈ p :: ps)) by constructor. rewrite Hq. simpl.
      case_decide; [|done]. f_equal. rewrite Hex. by apply (expire_idem now tm tm t).
    + destruct (decide (p ∈ ps)).
      * rewrite decide_True by (by constructor). destruct (heap tm !! p); simpl; by rewrite ?Hex.
      * rewrite decide_False; [done|]. intros [?|?]%elem_of_cons; naive_solver.
  - destruct (IH tm) as (H1 & H2 & H3 & H4 & H5 & H6). split_and!; try done. intros p. rewrite H6.
    destruct (decide (q = p)) as [->|Hne].
    + rewrite Hq. simpl. by repeat case_decide.
    + destruct (decide (p ∈ ps)); [by rewrite decide_True by (by constructor)|].
      rewrite decide_False; [done|]. intros [?|?]%elem_of_cons; naive_solver.
Qed.

Lemma step_ok o tm :
  wf tm → wf (step o tm) ∧
  ∀ p t, heap tm !! p = Some t → ∃ t', heap (step o tm) !! p = Some t' ∧ moves t t'.
Proof.
  intros Hwf.
  assert (∀ id p t t', find id tm = Some (p, t) → moves t t' → wf (store p t' tm) ∧
    ∀ q u, heap tm !! q = Some u → ∃ u', heap (store p t' tm) !! q = Some u' ∧ moves u u') as Hst.
  { intros id p t t' [_ Hp]%find_Some Hm. split; [apply store_wf; eauto|by eapply store_moves]. }
  assert (wf tm ∧ ∀ p t, heap tm !! p = Some t → ∃ t', heap tm !! p = Some t' ∧ moves t t') as Hid
    by (split; eauto with mq).
  destruct o as [order now1 now2 pid|id topic part data|now id|now id|now id|now]; simpl.
  - split.
    + destruct Hwf as [H1 H2]. split; simpl.
      * intros p. rewrite lookup_insert. case_decide; [lia|]. intros ?%H1. lia.
      * intros id p [[_ <-]|[_ H%make_room_lookup%H2]]%lookup_insert_Some; rewrite lookup_insert; case_decide; eauto; done.
    + intros p t Hp. assert (p < nextPtr tm) by (apply Hwf; eauto).
      rewrite lookup_insert_ne by lia. eauto with mq.
  - unfold AddMessage. destruct (find id tm) as [[p t]|] eqn:E; [|done]. case_bool_decide; [done|]. simpl.
    eapply Hst; [done|]. constructor. destruct (State t); naive_solver.
  - unfold Prepare. destruct (find id tm) as [[p t]|] eqn:E; [|done]. repeat (case_bool_decide; [done|]). simpl.
    eapply Hst; [done|]. constructor; [|done]. destruct (State t); naive_solver.
  - unfold Commit. destruct (find id tm) as [[p t]|] eqn:E; [|done]. case_bool_decide; [done|]. simpl.
    eapply Hst; [done|]. constructor. destruct (State t); naive_solver.
  - unfold Rollback. destruct (find id tm) as [[p t]|] eqn:E; [|done]. destruct (active t) eqn:Ea; [|done]. simpl.
    eapply Hst; [done|]. by constructor.
  - unfold cleanupExpired. destruct (cleanup_spec now tm (map_to_list (transactions tm)).*2) as (H1 & H2 & _ & _ & _ & H6).
    split.
    + destruct Hwf as [Hw1 Hw2]. split.
      * intros p. rewrite H6, H2. case_decide; [rewrite fmap_is_Some|]; auto.
      * intros id p. rewrite H1, H6. intros ?%Hw2. case_decide; [by rewrite fmap_is_Some|done].
    + intros p t Hp. rewrite H6, Hp. case_decide; simpl; eauto using expire_moves with mq.
Qed.

Lemma run_wf ops tm : wf tm → wf (run ops tm).
Proof.
  unfold run. revert tm. induction ops as [|o ops IH]; intros tm Hwf; simpl; [done|].
  apply IH. by apply step_ok.
Qed.

(** A committed transaction never changes again. *)
Lemma terminal ops tm p t :
  wf tm → heap tm !! p = Some t → State t = TransactionCommitted → heap (run ops tm) !! p = Some t.
Proof.
  unfold run. revert tm. induction ops as [|o ops IH]; intros tm Hwf Hp Hs; simpl; [done|].
  destruct (step_ok o tm Hwf) as [Hwf' Hmv]. destruct (Hmv p t Hp) as (t1 & Hp1 & Hm).
  apply IH; [done| |done]. rewrite Hp1. f_equal.
  destruct Hm; try done; unfold active in *; rewrite Hs in *; done.
Qed.

(** C27: The life of a transaction.  No operation takes a transaction, in the
    table or pushed out of it, anywhere but along the arrows pending -
    prepared - committed and pending or prepared - rolled back: messages are
    added only while it is pending, it is prepared only with messages, and a
    committed or rolled back transaction never changes again. *)
Theorem transaction_life ops tm p t :
  wf tm → heap tm !! p = Some t →
  ∃ t', heap (run ops tm) !! p = Some t' ∧ rtc moves t t' ∧
    (State t = TransactionCommitted ∨ State t = TransactionRolledBack → t' = t) ∧
    (State t ≠ TransactionPending → Messages t' = Messages t).
Proof.
  unfold run. revert tm t. induction ops as [|o ops IH]; intros tm t Hwf Hp; simpl.
  { exists t. split_and!; try done. }
  destruct (step_ok o tm Hwf) as [Hwf' Hmv]. destruct (Hmv p t Hp) as (t1 & Hp1 & Hm).
  destruct (IH _ t1 Hwf' Hp1) as (t' & Hp' & Hr & Hfin & Hmsg). exists t'. split_and!; [done|by eapply rtc_l|..].
  - intros Hs. assert (t1 = t) as ->; [|auto]. destruct Hm; try done; destruct Hs as [Hs|Hs];
      unfold active in *; rewrite Hs in *; done.
  - intros Hs. destruct Hm; try (by rewrite Hmsg); simpl in *; try done; rewrite Hmsg; done.
Qed.

Lemma commits_spec o tm p ms :
  (p, ms) ∈ commits o tm → ∃ t t', heap tm !! p = Some t ∧ State t = TransactionPrepared ∧
    Messages t = ms ∧ heap (step o tm) !! p = Some t' ∧ State t' = TransactionCommitted ∧
    commits o tm = [(p, ms)].
Proof.
  destruct o as [| | |now id| |]; simpl; try (by intros ?%not_elem_of_nil).
  unfold Commit. destruct (find id tm) as [[q t]|] eqn:E.
  - pose proof E as [Hq Ht]%find_Some. rewrite Hq. case_bool_decide; simpl; [by intros ?%not_elem_of_nil|].
    intros [= -> ->]%list_elem_of_singleton. exists t. eexists. rewrite lookup_insert_eq.
    by split_and!.
  - destruct (transactions tm !! id); by intros ?%not_elem_of_nil.
Qed.

(** A step adds to a transaction what [AddMessage] was given for it. *)
Lemma step_messages o tm p : wf tm → messages (step o tm) p = messages tm p ++ adds o p tm.
Proof.
  intros Hwf. assert (∀ id q t t', find id tm = Some (q, t) → Messages t' = Messages t →
    messages (store q t' tm) p = messages tm p ++ []) as Hst.
  { intros id q t t' [_ Hq]%find_Some Hm. unfold messages. simpl. rewrite lookup_insert, app_nil_r.
    case_decide; [|done]. subst. rewrite Hq. simpl. by rewrite Hm. }
  destruct o as [order now1 now2 pid|id topic part data|now id|now id|now id|now]; simpl.
  - unfold messages. simpl. rewrite lookup_insert, app_nil_r. case_decide; [|done]. subst.
    destruct (heap tm !! nextPtr tm) eqn:E; [|done]. pose proof (wf_heap _ Hwf (nextPtr tm) ltac:(eauto)). lia.
  - unfold AddMessage. destruct (find id tm) as [[q t]|] eqn:E; simpl; [|by rewrite andb_false_r, app_nil_r].
    apply find_Some in E as [Hid Hq]. rewrite Hid.
    case_bool_decide; simpl; [by rewrite andb_false_r, app_nil_r|]. rewrite andb_true_r.
    unfold messages. simpl. rewrite lookup_insert. case_decide as Hqp; case_bool_decide; simplify_eq;
      [by rewrite Hq|done..|by rewrite app_nil_r].
  - unfold Prepare. destruct (find id tm) as [[q t]|] eqn:E; [|by rewrite app_nil_r].
    repeat (case_bool_decide; [by rewrite app_nil_r|]). by eapply Hst.
  - unfold Commit. destruct (find id tm) as [[q t]|] eqn:E; [|by rewrite app_nil_r].
    case_bool_decide; [by rewrite app_nil_r|]. by eapply Hst.
  - unfold Rollback. destruct (find id tm) as [[q t]|] eqn:E; [|by rewrite app_nil_r].
    destruct (active t); [|by rewrite app_nil_r]. by eapply Hst.
  - unfold cleanupExpired, messages.
    destruct (cleanup_spec now tm (map_to_list (transactions tm)).*2) as (_ & _ & _ & _ & _ & ->).
    rewrite app_nil_r. case_decide; [|done]. destruct (heap tm !! p); [|done]. simpl.
    unfold expire. by case_match.
Qed.

Lemma run_messages ops tm p : wf tm → messages (run ops tm) p = messages tm p ++ added ops p tm.
Proof.
  unfold run. revert tm. induction ops as [|o ops IH]; intros tm Hwf; simpl; [by rewrite app_nil_r|].
  rewrite IH by (by apply step_ok). by rewrite step_messages, app_assoc.
Qed.

(** C26: A transaction is committed at most once.  Over any sequence of
    operations no transaction is committed twice, every transaction that is
    committed ends in the committed state, and the list that [Commit] hands
    out is the messages it held at the start followed by those that calls of
    [AddMessage] which succeeded gave to it, in their order; for a
    transaction that was begun later, exactly the latter. *)
Theorem committed_once ops tm :
  wf tm →
  NoDup (committed ops tm).*1 ∧
  ∀ p ms, (p, ms) ∈ committed ops tm →
    ms = messages tm p ++ added ops p tm ∧ (heap tm !! p = None → ms = added ops p tm) ∧
    ∃ t, heap (run ops tm) !! p = Some t ∧ State t = TransactionCommitted ∧ Messages t = ms.
Proof.
  assert (∀ ops tm p ms, wf tm → (p, ms) ∈ committed ops tm →
    (∀ t, heap tm !! p = Some t → State t ≠ TransactionCommitted) ∧
    ∃ t, heap (run ops tm) !! p = Some t ∧ State t = TransactionCommitted ∧ Messages t = ms) as Hfin.
  { clear. induction ops as [|o ops IH]; intros tm p ms Hwf; simpl; [by intros ?%not_elem_of_nil|].
    destruct (step_ok o tm Hwf) as [Hwf' Hmv]. intros [Hin|Hin]%elem_of_app.
    - apply commits_spec in Hin as (t & t' & Hp & Hs & <- & Hp' & Hs' & _). split; [intros; simplify_eq; congruence|].
      destruct (Hmv p t Hp) as (t1 & Hp1 & Hm). simplify_eq.
      pose proof (terminal ops _ _ _ Hwf' Hp' Hs') as Hr. exists t'. split_and!; [exact Hr|done|].
      destruct Hm; simpl in *; congruence.
    - destruct (IH _ p ms Hwf' Hin) as [Hn Hex]. split; [|exact Hex].
      intros t Hp Hs. destruct (Hmv p t Hp) as (t1 & Hp1 & Hm). apply (Hn _ Hp1).
      destruct Hm; simpl in *; unfold active in *; rewrite ?Hs in *; done. }
  intros Hwf. split; last first.
  { intros p ms Hin. destruct (Hfin _ _ _ _ Hwf Hin) as (_ & t & Ht & Hs & Hms).
    pose proof (run_messages ops tm p Hwf) as Hr. unfold messages at 1 in Hr. rewrite Ht in Hr. simpl in Hr.
    rewrite <- Hms. split_and!; [done| |eauto]. intros Hn. rewrite Hr. unfold messages. by rewrite Hn. }
  revert tm Hwf. induction ops as [|o ops IH]; intros tm Hwf; simpl; [constructor|].
  destruct (step_ok o tm Hwf) as [Hwf' _]. rewrite fmap_app.
  destruct (commits o tm) as [|[p ms] l] eqn:Ec; simpl; [by apply IH|].
  assert ((p, ms) ∈ commits o tm) as Hin by (rewrite Ec; constructor).
  apply commits_spec in Hin as (t & t' & Hp & Hs & _ & Hp' & Hs' & Hc). rewrite Ec in Hc. simplify_eq.
  simpl. constructor; [|by apply IH].
  intros ([q ms'] & -> & Hin)%list_elem_of_fmap. destruct (Hfin _ _ _ _ Hwf' Hin) as [Hn _]. by apply (Hn t').
Qed.

Lemma NewTransactionManager_wf max exp : wf (NewTransactionManager max exp).
Proof. split; simpl; intros *; rewrite lookup_empty; [by intros [? ?]|done]. Qed.

Definition demo_id : string := "p-" +:+ Fmt.d (Time.UnixNano 1).
Definition demo_ops : list op :=
  [OBegin [] 1 2 "p"; OAdd demo_id "t" 0 [x01]; OAdd demo_id "u" 1 [x02]; OPrepare 3 demo_id; OCommit 4 demo_id;
   OCommit 5 demo_id; ORollback 6 demo_id; OCleanup 9000].

Lemma committed_once_witness :
  let ms := [mkTransactionMessage "t" 0 [x01] 0; mkTransactionMessage "u" 1 [x02] 0] in
  committed demo_ops (NewTransactionManager 2 1000) = [(0, ms)] ∧
  NoDup (committed demo_ops (NewTransactionManager 2 1000)).*1 ∧
  ms = added demo_ops 0 (NewTransactionManager 2 1000).
Proof.
  intros ms. split; [vm_compute; reflexivity|].
  destruct (committed_once demo_ops (NewTransactionManager 2 1000)) as [H1 H2]; [apply NewTransactionManager_wf|].
  split; [exact H1|]. destruct (H2 0 ms) as (_ & H & _); [vm_compute; constructor|]. apply H. reflexivity.
Defined.

Lemma transaction_life_witness :
  let tm := run (take 5 demo_ops) (NewTransactionManager 2 1000) in
  ∃ t t', heap tm !! 0 = Some t ∧ heap (run (drop 5 demo_ops) tm) !! 0 = Some t' ∧ t' = t.
Proof.
  intros tm. eexists.
  edestruct (transaction_life (drop 5 demo_ops) tm 0) as (t' & H1 & _ & H2 & _).
  - apply (run_wf (take 5 demo_ops)), NewTransactionManager_wf.
  - vm_compute. reflexivity.
  - exists t'. split; [vm_compute; reflexivity|]. split; [exact H1|]. apply H2. left. reflexivity.
Defined.

(** Capacity.  Beginning a transaction keeps the table within its
    capacity; and the transaction that has to go is the oldest one. *)
Theorem BeginTransaction_capacity order now1 now2 pid tm :
  0 < maxTransactions tm → iter_order (transactions tm) order →
  Z.of_nat (size (transactions tm)) ≤ maxTransactions tm →
  (∀ id p, transactions tm !! id = Some p → startTime tm p ≠ 0) →
  let r := BeginTransaction order now1 now2 pid tm in let tm' := r.2 in
  Z.of_nat (size (transactions tm')) ≤ maxTransactions tm' ∧
  (∃ p t, transactions tm' !! r.1 = Some p ∧ deref tm' p = Some t ∧ State t = TransactionPending ∧
          p ∈ GetProducerTransactions pid tm') ∧
  ∀ id1 p1, transactions tm !! id1 = Some p1 → transactions tm' !! id1 = None →
    Z.of_nat (size (transactions tm)) = maxTransactions tm ∧
    ∀ id2 p2, transactions tm !! id2 = Some p2 → startTime tm p1 ≤ startTime tm p2.
Proof.
  intros Hmax Hord Hsz Hnz. simpl. split_and!.
  - by apply insert_room_size.
  - exists (nextPtr tm). eexists. rewrite lookup_insert_eq. unfold deref. simpl. rewrite lookup_insert_eq.
    split_and!; [done|done|done|]. unfold GetProducerTransactions. simpl. rewrite lookup_insert_eq.
    apply list_elem_of_filter. unfold deref. simpl. rewrite lookup_insert_eq. split; [done|].
    apply elem_of_app. right. constructor.
  - intros id1 p1 H1 [H2 _]%lookup_insert_None.
    destruct (make_room_gone (startTime tm) (maxTransactions tm) order (transactions tm) id1 p1) as [H3 H4];
      [done..|]. split; [lia|done].
Qed.

Definition demo_two : TransactionManager :=
  let '(_, tm) := BeginTransaction [] 1 2 "p" (NewTransactionManager 2 1000) in
  (BeginTransaction [] 3 4 "q" tm).2.

Lemma BeginTransaction_capacity_witness :
  let tm' := (BeginTransaction (map_to_list (transactions demo_two)) 5 6 "r" demo_two).2 in
  Z.of_nat (size (transactions tm')) ≤ 2 ∧ transactions tm' !! ("p-" +:+ Fmt.d (Time.UnixNano 1)) = None.
Proof.
  intros tm'. destruct (BeginTransaction_capacity (map_to_list (transactions demo_two)) 5 6 "r" demo_two) as (H & _).
  - reflexivity.
  - apply iter_order_self.
  - vm_compute. discriminate.
  - apply map_Forall_lookup. apply (bool_decide_unpack _). vm_compute. exact I.
  - split; [exact H|vm_compute; reflexivity].
Defined.

(** An object no entry of the table leads to. *)
Definition orphan (p : Z) (tm : TransactionManager) : Prop :=
  p < nextPtr tm ∧ ∀ id, transactions tm !! id ≠ Some p.

Lemma orphan_step o p pid tm :
  orphan p tm → p ∈ default [] (pendingTxns tm !! pid) →
  orphan p (step o tm) ∧ heap (step o tm) !! p = heap tm !! p ∧
  p ∈ default [] (pendingTxns (step o tm) !! pid).
Proof.
  intros [Hlt Hno] Hin.
  assert (∀ id q t t', find id tm = Some (q, t) → orphan p (store q t' tm) ∧
    heap (store q t' tm) !! p = heap tm !! p ∧ p ∈ default [] (pendingTxns (store q t' tm) !! pid)) as Hst.
  { intros id q t t' [Hq _]%find_Some. split_and!; [done| |done]. simpl. rewrite lookup_insert_ne; [done|].
    intros ->. by eapply Hno. }
  destruct o as [order now1 now2 pid'|id topic part data|now id|now id|now id|now]; simpl.
  - split_and!.
    + split; simpl; [lia|]. intros id [[_ ?]|[_ H%make_room_lookup]]%lookup_insert_Some; [lia|by eapply Hno].
    + rewrite lookup_insert_ne by lia. done.
    + rewrite lookup_insert. case_decide; [|done]. subst. simpl. apply elem_of_app. by left.
  - unfold AddMessage. split_match; try done. by eapply Hst.
  - unfold Prepare. split_match; try done. by eapply Hst.
  - unfold Commit. split_match; try done. by eapply Hst.
  - unfold Rollback. split_match; try done. by eapply Hst.
  - unfold cleanupExpired, orphan. destruct (cleanup_spec now tm (map_to_list (transactions tm)).*2)
      as (H1 & H2 & _ & H4 & _ & H6). rewrite H1, H2, H4, H6. split_and!; [done|done| |done].
    rewrite decide_False; [done|]. intros ([id q] & -> & Hq%elem_of_map_to_list)%list_elem_of_fmap.
    by eapply Hno.
Qed.

(** A transaction pushed out of the table never ends.  When a new
    transaction takes the place of an active one, the old one cannot be
    committed, rolled back or expired any more: whatever happens next it
    keeps its state, and [GetProducerTransactions] reports it as active for
    ever. *)
Theorem evicted_never_ends order now1 now2 pid id p t tm ops :
  wf tm → transactions tm !! id = Some p → (∀ id', transactions tm !! id' = Some p → id' = id) →
  heap tm !! p = Some t → active t = true →
  p ∈ default [] (pendingTxns tm !! ProducerID t) →
  let tm1 := (BeginTransaction order now1 now2 pid tm).2 in
  transactions tm1 !! id = None →
  Commit now1 id tm1 = (Err ("transaction " +:+ id +:+ " not found"), tm1) ∧
  let tm' := run ops tm1 in
  heap tm' !! p = Some t ∧ p ∈ GetProducerTransactions (ProducerID t) tm'.
Proof.
  intros Hwf Hid Huniq Hp Ha Hin tm1 Hgone.
  assert (p < nextPtr tm) as Hlt by (apply Hwf; eauto).
  assert (orphan p tm1 ∧ heap tm1 !! p = Some t ∧ p ∈ default [] (pendingTxns tm1 !! ProducerID t)) as (Ho & Hp1 & Hin1).
  { subst tm1. simpl in *. split_and!.
    - split; simpl; [lia|]. intros id' [[_ ?]|[Hne H]]%lookup_insert_Some; [lia|].
      pose proof (make_room_lookup _ _ _ _ _ _ H) as <-%Huniq.
      rewrite lookup_insert_ne in Hgone by done. congruence.
    - rewrite lookup_insert_ne by lia. done.
    - rewrite lookup_insert. case_decide as E; [|done]. simpl. apply elem_of_app. left. by rewrite E. }
  split.
  - unfold Commit. destruct (find id tm1) as [[q u]|] eqn:E; [|done]. apply find_Some in E as [E _]. congruence.
  - clear Hgone Hwf Hid Huniq Hp Hin Hlt. intros tm'. subst tm'. unfold run.
    clearbody tm1. revert tm1 Ho Hp1 Hin1. induction ops as [|o ops IH]; intros tm1 Ho Hp1 Hin1; simpl.
    + split; [done|]. unfold GetProducerTransactions. destruct (pendingTxns tm1 !! _) as [l|] eqn:El; simpl in *;
        [|by apply not_elem_of_nil in Hin1]. apply list_elem_of_filter. split; [|done].
      unfold deref. by rewrite Hp1.
    + destruct (orphan_step o p (ProducerID t) tm1 Ho Hin1) as (Ho' & Hp' & Hin'). apply IH; congruence || done.
Qed.

Lemma evicted_never_ends_witness :
  let id := "p-" +:+ Fmt.d (Time.UnixNano 1) in
  let tm1 := (BeginTransaction (map_to_list (transactions demo_two)) 5 6 "r" demo_two).2 in
  Commit 5 id tm1 = (Err ("transaction " +:+ id +:+ " not found"), tm1) ∧
  0 ∈ GetProducerTransactions "p" (run [ORollback 7 id; OCleanup 5000000] tm1).
Proof.
  intros id tm1.
  destruct (evicted_never_ends (map_to_list (transactions demo_two)) 5 6 "r" id 0
    (mkTransaction id TransactionPending [] "p" 2 0 0 0) demo_two [ORollback 7 id; OCleanup 5000000]) as (H1 & _ & H2).
  - split.
    + intros p [t Ht]. revert p t Ht. apply (map_Forall_lookup (λ p _, p < nextPtr demo_two)).
      apply (bool_decide_unpack _). vm_compute. exact I.
    + apply map_Forall_lookup. apply (bool_decide_unpack _). vm_compute. exact I.
  - vm_compute. reflexivity.
  - assert (map_Forall (λ id' p, p = 0 → id' = id) (transactions demo_two)) as H
      by (apply (bool_decide_unpack _); vm_compute; exact I).
    intros id' Hid. apply (H id' 0 Hid eq_refl).
  - vm_compute. reflexivity.
  - reflexivity.
  - vm_compute. constructor.
  - vm_compute. reflexivity.
  - split; [exact H1|exact H2].
Defined.

End Transaction.
