(* ===== verification/Namespace.v ===== *)
(** * Namespaces: topics, quotas and access control

    Models [cluster/go/broker/namespace/namespace.go].  The theorems: access
    is decided by the first rule that matches; quotas and the absence of
    duplicate topics are invariants; and a topic that two namespaces hold
    loses its rules when one of them removes it. *)

From Stdlib Require Import ZArith Lia.
From stdpp Require Import base tactics list gmap strings fin_maps.
From S2P Require Import Prelude GoLib.

Open Scope Z_scope.

Module Namespace.

Record Quota := mkQuota {
  MaxMessagesPerSecond : Z; MaxBytesPerSecond : Z; MaxTopics : Z; MaxPartitions : Z }.

(** An action is a string; these are the ones the program names. *)
Definition ActionProduce : string := "PRODUCE".
Definition ActionConsume : string := "CONSUME".
Definition ActionAdmin : string := "ADMIN".

Record ACL := mkACL { UserID : string; acl_Topic : string; Actions : list string; Allow : bool }.

Record Namespace := mkNamespace {
  Name : string; Topics : list string; NsQuota : Quota; ACLs : list ACL; CreatedAt : Z; ModifiedAt : Z }.

Record NamespaceManager := mkNamespaceManager {
  namespaces : gmap string Namespace;
  topicToNS : gmap string string;
  userToNS : gmap string (list string) }.

#[export] Instance eta_Namespace : Eta Namespace := λ n,
  mkNamespace (Name n) (Topics n) (NsQuota n) (ACLs n) (CreatedAt n) (ModifiedAt n).
#[export] Instance eta_NamespaceManager : Eta NamespaceManager := λ nm,
  mkNamespaceManager (namespaces nm) (topicToNS nm) (userToNS nm).

Definition NewNamespaceManager : NamespaceManager := mkNamespaceManager ∅ ∅ ∅.

Definition not_found (name : string) : string := "namespace " +:+ name +:+ " not found".

Definition CreateNamespace (now1 now2 : Z) (name : string) (quota : Quota) (nm : NamespaceManager) :
    result Namespace * NamespaceManager :=
  match namespaces nm !! name with
  | Some _ => (Err ("namespace " +:+ name +:+ " already exists"), nm)
  | None =>
      let ns := mkNamespace name [] quota [] now1 now2 in
      (Ok ns, nm <| namespaces ::= <[name := ns]> |>)
  end.

Definition GetNamespace (name : string) (nm : NamespaceManager) : option Namespace := namespaces nm !! name.

Definition DeleteNamespace (name : string) (nm : NamespaceManager) : result unit * NamespaceManager :=
  match namespaces nm !! name with
  | None => (Err (not_found name), nm)
  | Some ns =>
      (Ok tt, nm <| topicToNS ::= λ m, foldl (λ m t, delete t m) m (Topics ns) |>
                 <| namespaces ::= delete name |>)
  end.

Definition AddTopic (now : Z) (namespace topic : string) (nm : NamespaceManager) :
    result unit * NamespaceManager :=
  match namespaces nm !! namespace with
  | None => (Err (not_found namespace), nm)
  | Some ns =>
      if (Z.of_nat (length (Topics ns)) >=? MaxTopics (NsQuota ns)) && (MaxTopics (NsQuota ns) >? 0) then
        (Err ("namespace " +:+ namespace +:+ " exceeded max topics limit"), nm)
      else if bool_decide (topic ∈ Topics ns) then (Ok tt, nm)
      else
        (Ok tt,
         nm <| namespaces ::= <[namespace := ns <| Topics ::= λ l, l ++ [topic] |> <| ModifiedAt := now |>]> |>
            <| topicToNS ::= <[topic := namespace]> |>)
  end.

(** [append(ns.Topics[:i], ns.Topics[i+1:]...)] at the first occurrence. *)
Fixpoint removeFirst (topic : string) (l : list string) : option (list string) :=
  match l with
  | [] => None
  | t :: l' => if bool_decide (t = topic) then Some l' else cons t <$> removeFirst topic l'
  end.

Definition RemoveTopic (now : Z) (namespace topic : string) (nm : NamespaceManager) :
    result unit * NamespaceManager :=
  match namespaces nm !! namespace with
  | None => (Err (not_found namespace), nm)
  | Some ns =>
      match removeFirst topic (Topics ns) with
      | Some l =>
          (Ok tt,
           nm <| namespaces ::= <[namespace := ns <| Topics := l |> <| ModifiedAt := now |>]> |>
              <| topicToNS ::= delete topic |>)
      | None => (Err ("topic " +:+ topic +:+ " not found in namespace " +:+ namespace), nm)
      end
  end.

Definition GetNamespaceByTopic (topic : string) (nm : NamespaceManager) : option Namespace :=
  nsName ← topicToNS nm !! topic; namespaces nm !! nsName.

Definition AddACL (now : Z) (namespace userID topic : string) (actions : list string) (allow : bool)
    (nm : NamespaceManager) : result unit * NamespaceManager :=
  match namespaces nm !! namespace with
  | None => (Err (not_found namespace), nm)
  | Some ns =>
      let names := default [] (userToNS nm !! userID) in
      (Ok tt,
       nm <| namespaces ::= <[namespace :=
               ns <| ACLs ::= λ l, l ++ [mkACL userID topic actions allow] |> <| ModifiedAt := now |>]> |>
          <| userToNS ::= <[userID := if bool_decide (namespace ∈ names) then names else names ++ [namespace]]> |>)
  end.

(** The inner loop of [CheckPermission]: does the rule name the action? *)
Definition names_action (action : string) (acl : ACL) : bool :=
  existsb (λ act, bool_decide (act = action) || bool_decide (act = ActionAdmin)) (Actions acl).

Fixpoint checkACLs (userID topic action : string) (l : list ACL) : bool :=
  match l with
  | [] => true
  | acl :: l' =>
      if bool_decide (UserID acl ≠ userID) then checkACLs userID topic action l'
      else if bool_decide (acl_Topic acl ≠ "") && bool_decide (acl_Topic acl ≠ topic)
      then checkACLs userID topic action l'
      else if names_action action acl then Allow acl
      else checkACLs userID topic action l'
  end.

Definition CheckPermission (userID topic action : string) (nm : NamespaceManager) : result bool :=
  match topicToNS nm !! topic with
  | None => Ok true
  | Some nsName =>
      match namespaces nm !! nsName with
      | None => Err ("namespace not found for topic " +:+ topic)
      | Some ns => Ok (checkACLs userID topic action (ACLs ns))
      end
  end.

Definition GetAllNamespaces (order : list (string * Namespace)) : list Namespace := order.*2.

(** ** Access control *)

(** A rule applies to a request: its user, its topic (or every topic), and
    one of its actions or administration. *)
Definition applies (userID topic action : string) (acl : ACL) : Prop :=
  UserID acl = userID ∧ (acl_Topic acl = "" ∨ acl_Topic acl = topic) ∧
  (action ∈ Actions acl ∨ ActionAdmin ∈ Actions acl).

#[export] Instance applies_dec u t a acl : Decision (applies u t a acl).
Proof. unfold applies. apply _. Defined.

Lemma names_action_spec action acl :
  names_action action acl = true ↔ action ∈ Actions acl ∨ ActionAdmin ∈ Actions acl.
Proof.
  unfold names_action. rewrite existsb_exists. split.
  - intros (x & Hin & [?|?]%orb_true_iff); bool_to_prop; subst; apply list_elem_of_In in Hin; auto.
  - intros [H%list_elem_of_In|H%list_elem_of_In]; eexists; (split; [exact H|]); apply orb_true_iff;
      [left|right]; by apply bool_decide_eq_true_2.
Qed.

Lemma checkACLs_first u t a l :
  checkACLs u t a l = from_option Allow true (head (filter (applies u t a) l)).
Proof.
  induction l as [|acl l IH]; [done|]. rewrite filter_cons. cbn [checkACLs].
  case_decide as Ha.
  - destruct Ha as (Hu & Ht & Hact). rewrite bool_decide_eq_false_2 by naive_solver.
    rewrite (proj2 (andb_false_iff _ _)) by (destruct Ht; [left|right]; apply bool_decide_eq_false_2; naive_solver).
    by rewrite (proj2 (names_action_spec a acl)).
  - case_bool_decide as Hu; [done|].
    destruct (_ && _) eqn:Ht; [done|]. destruct (names_action a acl) eqn:Hact; [|done].
    contradict Ha. split; [done|]. split; [|by apply names_action_spec].
    apply andb_false_iff in Ht as [Ht|Ht]; bool_to_prop; apply dec_stable in Ht; auto.
Qed.

(** C33: The first matching rule decides.  A request on a topic of a namespace
    is answered by the first rule of the namespace that applies to it, and
    allowed when none does; a topic of no namespace is open to everybody. *)
Theorem CheckPermission_first_match userID topic action nm :
  CheckPermission userID topic action nm =
    match topicToNS nm !! topic with
    | None => Ok true
    | Some name =>
        match namespaces nm !! name with
        | None => Err ("namespace not found for topic " +:+ topic)
        | Some ns => Ok (from_option Allow true (head (filter (applies userID topic action) (ACLs ns))))
        end
    end.
Proof.
  unfold CheckPermission. repeat case_match; try done. by rewrite checkACLs_first.
Qed.

(** ** The tables *)

Inductive op :=
| OCreate (now1 now2 : Z) (name : string) (quota : Quota)
| ODelete (name : string)
| OAddTopic (now : Z) (namespace topic : string)
| ORemoveTopic (now : Z) (namespace topic : string)
| OAddACL (now : Z) (namespace userID topic : string) (actions : list string) (allow : bool).

Definition step (o : op) (nm : NamespaceManager) : NamespaceManager :=
  match o with
  | OCreate n1 n2 name q => (CreateNamespace n1 n2 name q nm).2
  | ODelete name => (DeleteNamespace name nm).2
  | OAddTopic now ns t => (AddTopic now ns t nm).2
  | ORemoveTopic now ns t => (RemoveTopic now ns t nm).2
  | OAddACL now ns u t acts b => (AddACL now ns u t acts b nm).2
  end.

(** Every namespace is filed under its name, has no duplicate topic, keeps
    its quota; and a topic that is mapped to a namespace is one of its
    topics. *)
Record wf (nm : NamespaceManager) : Prop := {
  wf_name : ∀ k ns, namespaces nm !! k = Some ns → Name ns = k;
  wf_nodup : ∀ k ns, namespaces nm !! k = Some ns → NoDup (Topics ns);
  wf_quota : ∀ k ns, namespaces nm !! k = Some ns → 0 < MaxTopics (NsQuota ns) →
               Z.of_nat (length (Topics ns)) ≤ MaxTopics (NsQuota ns);
  wf_map : ∀ t k, topicToNS nm !! t = Some k → ∃ ns, namespaces nm !! k = Some ns ∧ t ∈ Topics ns;
}.

Lemma removeFirst_spec topic l l' :
  removeFirst topic l = Some l' → NoDup l →
  topic ∉ l' ∧ NoDup l' ∧ (length l' ≤ length l)%nat ∧ ∀ t, t ≠ topic → t ∈ l ↔ t ∈ l'.
Proof.
  revert l'. induction l as [|t l IH]; intros l' H Hnd; simpl in *; [done|].
  apply NoDup_cons in Hnd as [Ht Hnd]. case_bool_decide.
  - simplify_eq. split_and!; [done|done|lia|]. intros t' Hne. rewrite elem_of_cons. naive_solver.
  - apply fmap_Some in H as (k & Hk & ->). destruct (IH k Hk Hnd) as (H1 & H2 & H3 & H4).
    split_and!; [|constructor; [|done]|simpl; lia|].
    + rewrite elem_of_cons. naive_solver.
    + rewrite <- H4 by done. done.
    + intros t' Hne. rewrite !elem_of_cons, H4 by done. done.
Qed.

(** Replacing one namespace by a well-formed one. *)
Lemma update_wf nm k ns ns' f :
  wf nm → namespaces nm !! k = Some ns → Name ns' = Name ns → NoDup (Topics ns') →
  (0 < MaxTopics (NsQuota ns') → Z.of_nat (length (Topics ns')) ≤ MaxTopics (NsQuota ns')) →
  (∀ t k', f (topicToNS nm) !! t = Some k' →
     (k' = k ∧ t ∈ Topics ns') ∨ (k' ≠ k ∧ topicToNS nm !! t = Some k')) →
  wf (nm <| namespaces ::= <[k := ns']> |> <| topicToNS ::= f |>).
Proof.
  intros [H1 H2 H3 H4] Hk Hn Hnd Hq Hf. split; simpl.
  1-3: intros k' n' [[<- <-]|[_ ?]]%lookup_insert_Some; eauto. { rewrite Hn. eauto. }
  intros t k' [[-> ?]|[Hne H]]%Hf; [exists ns'; split; [apply lookup_insert_eq|done]|].
  rewrite lookup_insert_ne by done. eauto.
Qed.

Lemma foldl_delete_topics (l : list string) (m : gmap string string) t k :
  foldl (λ m t, delete t m) m l !! t = Some k ↔ t ∉ l ∧ m !! t = Some k.
Proof.
  rewrite (foldl_delete_lookup (λ t, t)), list_fmap_id. case_decide; naive_solver.
Qed.

(** C32: The tables stay consistent.  Whatever operations run, successful or
    not, every namespace keeps its quota and lists no topic twice, and a
    topic that maps to a namespace is one of that namespace's topics: so
    [CheckPermission] never fails. *)
Theorem namespaces_consistent ops :
  let nm := foldl (flip step) NewNamespaceManager ops in
  wf nm ∧ ∀ userID topic action, is_ok (CheckPermission userID topic action nm) = true.
Proof.
  intros nm. enough (wf nm) as Hwf.
  { split; [done|]. intros u t a. unfold CheckPermission. destruct (topicToNS nm !! t) as [k|] eqn:E; [|done].
    destruct (wf_map _ Hwf _ _ E) as (ns & -> & _). done. }
  subst nm. apply foldl_inv; [|split; simpl; intros *; by rewrite lookup_empty].
  intros nm [n1 n2 name q|name|now k t|now k t|now k u t acts b] Hwf; simpl.
  - unfold CreateNamespace. destruct (namespaces nm !! name) eqn:E; [done|]. destruct Hwf as [H1 H2 H3 H4].
    split; simpl.
    1-3: intros k' n' [[<- <-]|[_ ?]]%lookup_insert_Some; simpl; eauto using NoDup_nil_2; lia.
    intros t k' (ns & Hk & Ht)%H4. exists ns. rewrite lookup_insert_ne by congruence. done.
  - unfold DeleteNamespace. destruct (namespaces nm !! name) as [ns|] eqn:E; [|done]. destruct Hwf as [H1 H2 H3 H4].
    split; simpl.
    1-3: intros k' n' [_ ?]%lookup_delete_Some; eauto.
    intros t k' [Hn Hm]%foldl_delete_topics. destruct (H4 _ _ Hm) as (n' & Hk' & Ht). exists n'.
    rewrite lookup_delete_ne; [done|]. intros ->. naive_solver.
  - unfold AddTopic. destruct (namespaces nm !! k) as [ns|] eqn:E; [|done].
    destruct (_ && _) eqn:Eq; [done|]. case_bool_decide; [done|]. simpl.
    apply (update_wf nm k ns); try done; simpl.
    + apply NoDup_snoc; [by eapply wf_nodup|done].
    + intros Hpos. apply andb_false_iff in Eq as [Eq|Eq]; bool_to_prop; rewrite ?length_app; simpl; lia.
    + intros t' k' [[<- <-]|[Hne Hm]]%lookup_insert_Some; [left; split; [done|]; apply elem_of_app; right; constructor|].
      destruct (decide (k' = k)) as [->|]; [left; split; [done|]|by right].
      destruct (wf_map _ Hwf _ _ Hm) as (n' & ? & ?). simplify_eq. apply elem_of_app. by left.
  - unfold RemoveTopic. destruct (namespaces nm !! k) as [ns|] eqn:E; [|done].
    destruct (removeFirst t (Topics ns)) as [l|] eqn:Er; [|done]. simpl.
    destruct (removeFirst_spec _ _ _ Er (wf_nodup _ Hwf _ _ E)) as (Hn & Hnd & Hlen & Hel).
    apply (update_wf nm k ns); try done; simpl.
    + intros Hpos. pose proof (wf_quota _ Hwf _ _ E Hpos). lia.
    + intros t' k' [Hne Hm]%lookup_delete_Some.
      destruct (decide (k' = k)) as [->|]; [left; split; [done|]|by right].
      destruct (wf_map _ Hwf _ _ Hm) as (n' & ? & ?). simplify_eq. by apply Hel.
  - unfold AddACL. destruct (namespaces nm !! k) as [ns|] eqn:E; [|done]. simpl.
    pose proof (update_wf nm k ns (ns <| ACLs ::= λ l, l ++ [mkACL u t acts b] |> <| ModifiedAt := now |>) (λ m, m) Hwf E) as Hup.
    destruct Hup as [H1 H2 H3 H4]; [done|apply (wf_nodup _ Hwf _ _ E)|apply (wf_quota _ Hwf _ _ E)| |by split].
    intros t' k' Hm. destruct (decide (k' = k)) as [->|]; [left|by right].
    destruct (wf_map _ Hwf _ _ Hm) as (n' & ? & ?). by simplify_eq.
Qed.

(** Removing a shared topic opens it.  A topic may be added to two
    namespaces; when one of them removes it, the other still lists it but
    its rules no longer apply: everybody may do everything on it. *)
Theorem shared_topic_opens now ns1 ns2 n1 n2 topic nm :
  namespaces nm !! ns1 = Some n1 → namespaces nm !! ns2 = Some n2 → ns1 ≠ ns2 →
  topic ∈ Topics n1 → topic ∈ Topics n2 →
  let nm' := (RemoveTopic now ns1 topic nm).2 in
  (RemoveTopic now ns1 topic nm).1 = Ok tt ∧ namespaces nm' !! ns2 = Some n2 ∧
  ∀ userID action, CheckPermission userID topic action nm' = Ok true.
Proof.
  intros H1 H2 Hne Ht1 Ht2.
  assert (is_Some (removeFirst topic (Topics n1))) as [l Hl].
  { clear -Ht1. induction (Topics n1) as [|t l IH]; [by apply not_elem_of_nil in Ht1|]. simpl.
    case_bool_decide; [done|]. apply fmap_is_Some, IH. apply elem_of_cons in Ht1 as [->|?]; done. }
  unfold RemoveTopic. rewrite H1, Hl. simpl. split_and!; [done|by rewrite lookup_insert_ne|].
  intros u a. unfold CheckPermission. simpl. by rewrite lookup_delete_eq.
Qed.

Definition demo_quota : Quota := mkQuota 0 0 2 0.
Definition demo_shared : NamespaceManager :=
  foldl (flip step) NewNamespaceManager
    [OCreate 1 1 "n1" demo_quota; OCreate 1 1 "n2" demo_quota; OAddTopic 2 "n1" "t"; OAddTopic 3 "n2" "t";
     OAddACL 4 "n2" "eve" "" [ActionAdmin] false].

Lemma shared_topic_opens_witness :
  CheckPermission "eve" "t" ActionProduce demo_shared = Ok false ∧
  CheckPermission "eve" "t" ActionProduce (RemoveTopic 5 "n1" "t" demo_shared).2 = Ok true.
Proof.
  split; [vm_compute; reflexivity|].
  apply (shared_topic_opens 5 "n1" "n2" (mkNamespace "n1" ["t"] demo_quota [] 1 2)
    (mkNamespace "n2" ["t"] demo_quota [mkACL "eve" "" [ActionAdmin] false] 1 4) "t" demo_shared).
  - vm_compute. reflexivity.
  - vm_compute. reflexivity.
  - discriminate.
  - constructor.
  - constructor.
Defined.

End Namespace.
