(* ===== verification/Tracing.v ===== *)
(** * Message traces

    Models [cluster/go/broker/tracing/tracing.go], without the text of
    [GetTraceSummary].  The contexts are only changed through the table, so
    the table holds them by value.  The theorem: over any sequence of
    operations the table keeps its capacity, and while a trace is in the
    table its events are exactly those added to it, in order. *)

From Stdlib Require Import ZArith Lia.
From stdpp Require Import base tactics list gmap strings fin_maps.
From S2P Require Import Prelude GoLib.

Open Scope Z_scope.

Module Tracing.

Inductive TraceEventType :=
| TraceEventProduce | TraceEventReceive | TraceEventPersist | TraceEventReplicate
| TraceEventCommit | TraceEventConsume | TraceEventAck | TraceEventRetry | TraceEventDLQ
| TraceEventDelayed | TraceEventDispatch.

(** The details are only printed. *)
Record TraceEvent := mkTraceEvent {
  Timestamp : Z; EventType : TraceEventType; Service : string; NodeID : string;
  Details : gmap string string }.

Record TraceContext := mkTraceContext {
  TraceID : string; Topic : string; Partition : Z; Offset : Z; Events : list TraceEvent;
  Created : Z; Expires : Z }.

Record Tracer := mkTracer { traces : gmap string TraceContext; maxTraces : Z; expireAfter : Z }.

#[export] Instance eta_TraceContext : Eta TraceContext := λ c,
  mkTraceContext (TraceID c) (Topic c) (Partition c) (Offset c) (Events c) (Created c) (Expires c).
#[export] Instance eta_Tracer : Eta Tracer := λ t, mkTracer (traces t) (maxTraces t) (expireAfter t).

Definition NewTracer (maxTraces expireAfter : Z) : Tracer := mkTracer ∅ maxTraces expireAfter.

(** One tick of the clean-up goroutine. *)
Definition cleanupExpired (now : Z) (t : Tracer) : Tracer :=
  t <| traces ::= filter (λ '(_, ctx), Time.Before (Expires ctx) now = false) |>.

(** [count] is the number of traces read, without the lock, for the name;
    the clock is read for the name, the creation and the expiry. *)
Definition StartTrace (order : list (string * TraceContext)) (now1 now2 now3 count : Z)
    (topic : string) (partition : Z) (t : Tracer) : TraceContext * Tracer :=
  let traceID := Fmt.d (Time.UnixNano now1) +:+ "-" +:+ Fmt.d partition +:+ "-" +:+ Fmt.d count in
  let ctx := mkTraceContext traceID topic partition 0 [] now2 (Time.Add now3 (expireAfter t)) in
  (ctx, t <| traces ::= λ m, <[traceID := ctx]> (make_room Created (maxTraces t) order m) |>).

Definition GetTrace (traceID : string) (t : Tracer) : option TraceContext := traces t !! traceID.

Definition AddEvent (now : Z) (traceID : string) (ty : TraceEventType) (service nodeID : string)
    (details : gmap string string) (t : Tracer) : Tracer :=
  match traces t !! traceID with
  | None => t
  | Some ctx =>
      t <| traces ::= <[traceID :=
        ctx <| Events ::= λ l, l ++ [mkTraceEvent now ty service nodeID details] |>]> |>
  end.

Definition UpdateOffset (traceID : string) (offset : Z) (t : Tracer) : Tracer :=
  match traces t !! traceID with
  | None => t
  | Some ctx => t <| traces ::= <[traceID := ctx <| Offset := offset |>]> |>
  end.

Definition GetActiveTraces (order : list (string * TraceContext)) : list TraceContext := order.*2.

(** ** Executions *)

Inductive op :=
| OStart (order : list (string * TraceContext)) (now1 now2 now3 count : Z) (topic : string) (partition : Z)
| OEvent (now : Z) (traceID : string) (ty : TraceEventType) (service nodeID : string)
    (details : gmap string string)
| OOffset (traceID : string) (offset : Z)
| OCleanup (now : Z).

Definition step (o : op) (t : Tracer) : Tracer :=
  match o with
  | OStart order n1 n2 n3 c topic part => (StartTrace order n1 n2 n3 c topic part t).2
  | OEvent now id ty s n d => AddEvent now id ty s n d t
  | OOffset id off => UpdateOffset id off t
  | OCleanup now => cleanupExpired now t
  end.

(** The event an operation adds to the trace [id]. *)
Definition event_of (id : string) (o : op) : list TraceEvent :=
  match o with
  | OEvent now id' ty s n d => if bool_decide (id' = id) then [mkTraceEvent now ty s n d] else []
  | _ => []
  end.

(** The range loops of an execution visit the table as it is. *)
Fixpoint orders_ok (ops : list op) (t : Tracer) : Prop :=
  match ops with
  | [] => True
  | o :: ops =>
      match o with OStart order _ _ _ _ _ _ => iter_order (traces t) order | _ => True end ∧
      orders_ok ops (step o t)
  end.

(** The name a start gives its trace. *)
Definition name_of (o : op) : option string :=
  match o with
  | OStart _ n1 _ _ c _ part => Some (Fmt.d (Time.UnixNano n1) +:+ "-" +:+ Fmt.d part +:+ "-" +:+ Fmt.d c)
  | _ => None
  end.

Lemma step_events o id t ctx' :
  name_of o ≠ Some id → traces (step o t) !! id = Some ctx' →
  ∃ ctx, traces t !! id = Some ctx ∧ Events ctx' = Events ctx ++ event_of id o.
Proof.
  destruct o as [order n1 n2 n3 c topic part|now id' ty s n d|id' off|now]; simpl.
  - intros Hne. rewrite lookup_insert_ne by congruence. intros H%make_room_lookup.
    exists ctx'. by rewrite app_nil_r.
  - intros _. unfold AddEvent. destruct (traces t !! id') as [c|] eqn:E; simpl.
    + intros [[-> <-]|[Hne H]]%lookup_insert_Some.
      * exists c. by rewrite bool_decide_eq_true_2.
      * exists ctx'. rewrite bool_decide_eq_false_2 by done. by rewrite app_nil_r.
    + intros H. exists ctx'. rewrite bool_decide_eq_false_2 by congruence. by rewrite app_nil_r.
  - intros _. unfold UpdateOffset. destruct (traces t !! id') as [c|] eqn:E; simpl.
    + intros [[-> <-]|[Hne H]]%lookup_insert_Some; [exists c|exists ctx']; by rewrite app_nil_r.
    + intros H. exists ctx'. by rewrite app_nil_r.
  - intros _ [H _]%map_lookup_filter_Some. exists ctx'. by rewrite app_nil_r.
Qed.

Lemma step_capacity o t :
  0 < maxTraces t → match o with OStart order _ _ _ _ _ _ => iter_order (traces t) order | _ => True end →
  Z.of_nat (size (traces t)) ≤ maxTraces t →
  Z.of_nat (size (traces (step o t))) ≤ maxTraces (step o t) ∧ maxTraces (step o t) = maxTraces t.
Proof.
  intros Hmax Hord Hsz. destruct o as [order n1 n2 n3 c topic part|now id' ty s n d|id' off|now]; simpl.
  - split; [|done]. by apply insert_room_size.
  - unfold AddEvent. destruct (traces t !! id') eqn:E; simpl; [|done].
    by rewrite map_size_insert_Some by eauto.
  - unfold UpdateOffset. destruct (traces t !! id') eqn:E; simpl; [|done].
    by rewrite map_size_insert_Some by eauto.
  - split; [|done]. pose proof (map_subseteq_size _ _ (map_filter_subseteq
      (λ '(_, ctx), Time.Before (Expires ctx) now = false) (traces t))). lia.
Qed.

(** Traces are complete and bounded.  Over any execution, the number of
    traces stays within the capacity; and a trace that is in the table at
    the end, and whose name was not given out again, was there at the start
    and has had exactly the events added to it, in order. *)
Theorem trace_events ops t :
  0 < maxTraces t → Z.of_nat (size (traces t)) ≤ maxTraces t → orders_ok ops t →
  let t' := foldl (flip step) t ops in
  Z.of_nat (size (traces t')) ≤ maxTraces t ∧
  ∀ id ctx', traces t' !! id = Some ctx' → Forall (λ o, name_of o ≠ Some id) ops →
    ∃ ctx, traces t !! id = Some ctx ∧ Events ctx' = Events ctx ++ concat (event_of id <$> ops).
Proof.
  revert t. induction ops as [|o ops IH]; intros t Hmax Hsz Hord; simpl.
  { split; [done|]. intros id ctx' H _. exists ctx'. by rewrite app_nil_r. }
  destruct Hord as [Ho Hord]. destruct (step_capacity o t Hmax Ho Hsz) as [Hsz' Hm].
  destruct (IH (step o t)) as [Hs He]; [lia|done|done|]. rewrite Hm in Hs. split; [done|].
  intros id ctx' H [Hn Hall]%Forall_cons. destruct (He id ctx' H Hall) as (ctx1 & H1 & E1).
  destruct (step_events o id t ctx1 Hn H1) as (ctx & H0 & E0). exists ctx. split; [done|].
  by rewrite E1, E0, <- app_assoc.
Qed.

Definition demo_tracer : Tracer := (StartTrace [] 1 1 1 0 "t" 0 (NewTracer 2 100)).2.
Definition demo_trace : string := Fmt.d (Time.UnixNano 1) +:+ "-0-0".

Lemma trace_events_witness :
  let ops := [OEvent 2 demo_trace TraceEventPersist "broker" "n" ∅; OOffset demo_trace 7;
              OEvent 3 demo_trace TraceEventCommit "broker" "n" ∅; OCleanup 4] in
  ∃ ctx, traces demo_tracer !! demo_trace = Some ctx ∧
    ∀ ctx', traces (foldl (flip step) demo_tracer ops) !! demo_trace = Some ctx' →
      EventType <$> Events ctx' = [TraceEventPersist; TraceEventCommit].
Proof.
  intros ops. destruct (trace_events ops demo_tracer) as [_ H].
  - reflexivity.
  - vm_compute. discriminate.
  - vm_compute. auto.
  - eexists. split; [vm_compute; reflexivity|]. intros ctx' Hc.
    destruct (H demo_trace ctx' Hc) as (ctx & Hctx & ->).
    + repeat constructor; discriminate.
    + revert Hctx. vm_compute. intros [= <-]. reflexivity.
Defined.

End Tracing.
