(* ===== verification/TxCoordinator.v ===== *)
(** * The transaction coordinator of the name server

    Models [cluster/go/nameserver/tc.go].  [CommitTx] releases the lock
    between its two critical sections, so it is split in two steps that
    other operations may come between.  The theorems: a restart recovers the
    table as it was after the last operation; a commit on its own does what
    it says; and a rollback that comes between the two halves of a commit,
    or after it, is accepted too. *)

From Stdlib Require Import ZArith Lia Strings.Byte.
From stdpp Require Import base tactics list gmap strings fin_maps.
From S2P Require Import Prelude GoLib.

Open Scope Z_scope.

Module TxCoordinator.

Import Int.

Inductive TxStatus := TxPending | TxCommitting | TxCommitted | TxAborted.

#[export] Instance TxStatus_eq_dec : EqDecision TxStatus.
Proof. solve_decision. Defined.

Definition status_string (s : TxStatus) : string :=
  match s with
  | TxPending => "PENDING" | TxCommitting => "COMMITTING"
  | TxCommitted => "COMMITTED" | TxAborted => "ABORTED"
  end.

Record TxMessage := mkTxMessage { Topic : string; Partition : Z; Key : string; Value : list byte }.

Record TxState := mkTxState {
  TxID : string; Status : TxStatus; ProducerID : string; PartitionInfo : list TxMessage;
  CreatedAt : Z; UpdatedAt : Z }.

(** [transactions] holds pointers into [heap]; [txLog] is the log file. *)
Record TransactionCoordinator := mkTransactionCoordinator {
  transactions : gmap string Z;
  heap : gmap Z TxState;
  nextPtr : Z;
  txLog : option (list (Gob.msg TxState));
  timeout : Z }.

#[export] Instance eta_TxState : Eta TxState := λ t,
  mkTxState (TxID t) (Status t) (ProducerID t) (PartitionInfo t) (CreatedAt t) (UpdatedAt t).
#[export] Instance eta_TransactionCoordinator : Eta TransactionCoordinator := λ tc,
  mkTransactionCoordinator (transactions tc) (heap tc) (nextPtr tc) (txLog tc) (timeout tc).

(** How writing the log file ends: well, with a file that could not be
    opened, or after the first [k] messages. *)
Inductive wio := WOk | WOpenErr | WShort (k : nat).

(** The transactions by name, in the order of the table. *)
Definition objects (tc : TransactionCoordinator) : list TxState :=
  omap (λ '(_, p), heap tc !! p) (map_to_list (transactions tc)).

(** [persistTx]: the whole table is written anew.  [order] is the order of
    the range loop. *)
Definition persistTx (w : wio) (order : list TxState) (tc : TransactionCoordinator) : TransactionCoordinator :=
  match w with
  | WOpenErr => tc
  | WOk => tc <| txLog := Some (Gob.encode_all order) |>
  | WShort k => tc <| txLog := Some (take k (Gob.encode_all order)) |>
  end.

(** The order the range loop of [persistTx] takes, chosen by [perm]. *)
Definition persist (w : wio) (perm : list TxState → list TxState) (tc : TransactionCoordinator) :
    TransactionCoordinator := persistTx w (perm (objects tc)) tc.

Definition loadTxLog (tc : TransactionCoordinator) : TransactionCoordinator :=
  match txLog tc with
  | None => tc
  | Some data =>
      foldl (λ tc tx, tc <| heap ::= <[nextPtr tc := tx]> |>
                         <| transactions ::= <[TxID tx := nextPtr tc]> |>
                         <| nextPtr ::= Z.succ |>) tc (Gob.decode_all false data)
  end.

Definition NewTransactionCoordinator (file : option (list (Gob.msg TxState))) : TransactionCoordinator :=
  loadTxLog (mkTransactionCoordinator ∅ ∅ 0 file (30 * Time.Second)).

Definition randInt (now : Z) : Z := Z.rem (Time.UnixNano now) 1000000.

Section operations.
Context (w : wio) (perm : list TxState → list TxState).

(** [now1 .. now4] are the clock readings. *)
Definition BeginTx (now1 now2 now3 now4 : Z) (producerID : string) (tc : TransactionCoordinator) :
    string * TransactionCoordinator :=
  let txID := producerID +:+ "-" +:+ Fmt.d (Time.UnixNano now1) +:+ "-" +:+ Fmt.d (randInt now2) in
  let tx := mkTxState txID TxPending producerID [] now3 now4 in
  let p := nextPtr tc in
  (txID, persist w perm (tc <| heap ::= <[p := tx]> |> <| nextPtr ::= Z.succ |>
                            <| transactions ::= <[txID := p]> |>)).

Definition find (txID : string) (tc : TransactionCoordinator) : option (Z * TxState) :=
  p ← transactions tc !! txID; t ← heap tc !! p; Some (p, t).

(** [tx.Status = st; tx.UpdatedAt = time.Now(); tc.persistTx(tx)]. *)
Definition setStatus (p : Z) (st : TxStatus) (now : Z) (tc : TransactionCoordinator) : TransactionCoordinator :=
  persist w perm (tc <| heap ::= alter (λ t, t <| Status := st |> <| UpdatedAt := now |>) p |>).

Definition not_found (txID : string) : string := "transaction " +:+ txID +:+ " not found".

Definition AddMessage (now : Z) (txID topic : string) (partition : Z) (key : string) (value : list byte)
    (tc : TransactionCoordinator) : result unit * TransactionCoordinator :=
  match find txID tc with
  | None => (Err (not_found txID), tc)
  | Some (p, tx) =>
      if bool_decide (Status tx ≠ TxPending) then
        (Err ("cannot add message to transaction in state " +:+ status_string (Status tx)), tc)
      else
        (Ok tt, persist w perm (tc <| heap ::= alter (λ t,
           t <| PartitionInfo ::= λ l, l ++ [mkTxMessage topic partition key value] |>
             <| UpdatedAt := now |>) p |>))
  end.

(** The first critical section of [CommitTx]; the pointer it keeps. *)
Definition CommitTx_start (now : Z) (txID : string) (tc : TransactionCoordinator) :
    result Z * TransactionCoordinator :=
  match find txID tc with
  | None => (Err (not_found txID), tc)
  | Some (p, tx) =>
      if bool_decide (Status tx ≠ TxPending) then
        (Err ("cannot commit transaction in state " +:+ status_string (Status tx)), tc)
      else (Ok p, setStatus p TxCommitting now tc)
  end.

Definition doCommit (txID : string) (tc : TransactionCoordinator) : result unit :=
  match transactions tc !! txID with None => Err (not_found txID) | Some _ => Ok tt end.

(** The second critical section, with the result of [doCommit]. *)
Definition CommitTx_end (now : Z) (p : Z) (err : result unit) (tc : TransactionCoordinator) :
    result unit * TransactionCoordinator :=
  match err with
  | Err e => (Err e, setStatus p TxAborted now tc)
  | Ok _ => (Ok tt, setStatus p TxCommitted now tc)
  end.

(** [CommitTx] when nothing comes in between. *)
Definition CommitTx (now1 now2 : Z) (txID : string) (tc : TransactionCoordinator) :
    result unit * TransactionCoordinator :=
  match CommitTx_start now1 txID tc with
  | (Err e, tc) => (Err e, tc)
  | (Ok p, tc) => CommitTx_end now2 p (doCommit txID tc) tc
  end.

Definition RollbackTx (now : Z) (txID : string) (tc : TransactionCoordinator) :
    result unit * TransactionCoordinator :=
  match find txID tc with
  | None => (Err (not_found txID), tc)
  | Some (p, tx) => (Ok tt, setStatus p TxAborted now tc)
  end.

(** One tick of the timeout checker, over the transactions in [order]. *)
Definition checkTimeouts (now : Z) (order : list (string * Z)) (tc : TransactionCoordinator) :
    TransactionCoordinator :=
  foldl (λ tc '(_, p),
    match heap tc !! p with
    | Some tx =>
        if bool_decide (Status tx = TxPending) && (Time.Sub now (CreatedAt tx) >? timeout tc)
        then setStatus p TxAborted now tc else tc
    | None => tc
    end) tc order.
End operations.

Definition GetTxStatus (txID : string) (tc : TransactionCoordinator) : result TxStatus :=
  match find txID tc with None => Err (not_found txID) | Some (_, tx) => Ok (Status tx) end.

Definition GetPendingTransactions (producerID : string) (tc : TransactionCoordinator) : list TxState :=
  filter (λ tx, ProducerID tx = producerID ∧ Status tx = TxPending) (objects tc).

(** ** The table by name *)

Definition view (tc : TransactionCoordinator) : gmap string TxState :=
  omap (λ p, heap tc !! p) (transactions tc).

(** Every entry leads to an object of that name, addresses are fresh, and no
    two names share an object. *)
Record wf (tc : TransactionCoordinator) : Prop := {
  wf_obj : ∀ id p, transactions tc !! id = Some p → ∃ t, heap tc !! p = Some t ∧ TxID t = id;
  wf_fresh : ∀ p, is_Some (heap tc !! p) → p < nextPtr tc;
}.

Lemma view_lookup tc id t :
  view tc !! id = Some t ↔ ∃ p, transactions tc !! id = Some p ∧ heap tc !! p = Some t.
Proof.
  unfold view. rewrite lookup_omap. destruct (transactions tc !! id) as [p|]; simpl; naive_solver.
Qed.

Lemma find_view id tc p t :
  find id tc = Some (p, t) ↔ transactions tc !! id = Some p ∧ heap tc !! p = Some t.
Proof.
  unfold find. destruct (transactions tc !! id) as [q|]; simpl; [|naive_solver].
  destruct (heap tc !! q) eqn:E; simpl; naive_solver.
Qed.

Lemma elem_of_objects tc t : wf tc → t ∈ objects tc ↔ view tc !! TxID t = Some t.
Proof.
  intros Hwf. unfold objects. rewrite list_elem_of_omap, view_lookup. split.
  - intros ([id p] & Hin%elem_of_map_to_list & Ht). destruct (wf_obj _ Hwf _ _ Hin) as (t' & Ht' & <-).
    simplify_eq. eauto.
  - intros (p & Hp & Ht). exists (TxID t, p). by rewrite elem_of_map_to_list.
Qed.

(** ** Persistence *)

(** What a new coordinator finds in a log file. *)
Definition recovered (file : option (list (Gob.msg TxState))) : gmap string TxState :=
  view (NewTransactionCoordinator file).

Lemma load_view l tc :
  wf tc →
  let tc' := foldl (λ tc tx, tc <| heap ::= <[nextPtr tc := tx]> |>
                         <| transactions ::= <[TxID tx := nextPtr tc]> |>
                         <| nextPtr ::= Z.succ |>) tc l in
  wf tc' ∧ view tc' = foldl (λ m tx, <[TxID tx := tx]> m) (view tc) l.
Proof.
  revert tc. induction l as [|t l IH]; intros tc Hwf; simpl; [done|].
  match goal with |- context [foldl _ ?x l] => set (tc1 := x) end.
  assert (wf tc1 ∧ view tc1 = <[TxID t := t]> (view tc)) as [Hwf1 Hv1].
  { destruct Hwf as [H1 H2]. split; [split|]; simpl.
    - intros id p [[<- <-]|[_ Hp]]%lookup_insert_Some.
      + exists t. by rewrite lookup_insert_eq.
      + destruct (H1 _ _ Hp) as (t' & Ht' & ?). exists t'. rewrite lookup_insert_ne; [done|].
        assert (p < nextPtr tc) by eauto. lia.
    - intros p. rewrite lookup_insert. case_decide; [lia|]. intros ?%H2. lia.
    - apply map_eq. intros id. apply option_eq. intros t'. rewrite view_lookup. simpl.
      rewrite lookup_insert_Some, view_lookup. setoid_rewrite lookup_insert_Some. split.
      + intros (p & [[<- <-]|[Hne Hp]] & [[? <-]|[? Ht']]); eauto; try done.
        destruct (H1 _ _ Hp) as (t2 & ? & _). assert (p < nextPtr tc) by eauto. lia.
      + intros [[<- <-]|[Hne (p & Hp & Ht')]]; [eauto 10|]. exists p. split; [eauto|]. right.
        assert (p < nextPtr tc) by eauto. split; [lia|done]. }
  destruct (IH tc1 Hwf1) as [? IHv]. rewrite Hv1 in IHv. done.
Qed.

Lemma foldl_insert_lookup (l : list TxState) (m : gmap string TxState) id t :
  (∀ t1 t2, t1 ∈ l → t2 ∈ l → TxID t1 = TxID t2 → t1 = t2) →
  foldl (λ m tx, <[TxID tx := tx]> m) m l !! id = Some t ↔
  (t ∈ l ∧ TxID t = id) ∨ ((∀ t', t' ∈ l → TxID t' ≠ id) ∧ m !! id = Some t).
Proof.
  revert m. induction l as [|x l IH]; intros m Hinj; simpl.
  { setoid_rewrite elem_of_nil. naive_solver. }
  rewrite IH by (intros; apply Hinj; [by constructor..|done]). setoid_rewrite elem_of_cons.
  rewrite lookup_insert_Some. split.
  - intros [[? ?]|[Hn [[? ?]|[? ?]]]]; naive_solver.
  - intros [[[->|?] <-]|[Hn ?]]; [|naive_solver|right; split; [naive_solver|right; naive_solver]].
    destruct (decide (Forall (λ t', TxID t' ≠ TxID x) l)) as [Hf|Hf].
    + right. rewrite Forall_forall in Hf. auto.
    + left. apply not_Forall_Exists in Hf; [|apply _].
      apply Exists_exists in Hf as (t' & Hin & Heq). apply dec_stable in Heq.
      assert (t' = x) as <-; [apply Hinj; [by constructor|constructor|done]|auto].
Qed.

Lemma persist_recovers perm tc :
  (∀ l, perm l ≡ₚ l) → wf tc →
  recovered (txLog (persist WOk perm tc)) = view tc.
Proof.
  intros Hperm Hwf. unfold recovered, NewTransactionCoordinator, persist, loadTxLog. simpl.
  rewrite Gob.decode_encode.
  set (tc0 := mkTransactionCoordinator _ _ _ _ _).
  assert (wf tc0) as Hwf0 by (split; simpl; intros *; rewrite lookup_empty; [done|by intros [? ?]]).
  destruct (load_view (perm (objects tc)) tc0 Hwf0) as [_ Hv]. etrans; [exact Hv|]. clear Hv.
  apply map_eq. intros id. apply option_eq. intros t.
  assert (view tc0 = ∅) as -> by (unfold view; simpl; apply omap_empty).
  assert (∀ x, x ∈ perm (objects tc) ↔ view tc !! TxID x = Some x) as Hel
    by (intros x; by rewrite Hperm, elem_of_objects).
  rewrite foldl_insert_lookup.
  - rewrite lookup_empty, Hel. split; [intros [[? <-]|[_ ?]]; done|].
    intros Hv. left. assert (TxID t = id) as <-; [|done].
    apply view_lookup in Hv as (p & Hp & Ht). destruct (wf_obj _ Hwf _ _ Hp) as (t' & ? & ?). congruence.
  - intros t1 t2 H1%Hel H2%Hel Heq. rewrite Heq in H1. congruence.
Qed.

(** ** Executions *)

Inductive op :=
| OBegin (now1 now2 now3 now4 : Z) (producerID : string)
| OAdd (now : Z) (txID topic : string) (partition : Z) (key : string) (value : list byte)
| OCommitStart (now : Z) (txID : string)
| OCommitEnd (now p : Z) (err : result unit)
| ORollback (now : Z) (txID : string)
| OTimeouts (now : Z) (order : list (string * Z)).

Definition step (w : wio) (perm : list TxState → list TxState) (o : op) (tc : TransactionCoordinator) :
    TransactionCoordinator :=
  match o with
  | OBegin n1 n2 n3 n4 pid => (BeginTx w perm n1 n2 n3 n4 pid tc).2
  | OAdd now id topic part key v => (AddMessage w perm now id topic part key v tc).2
  | OCommitStart now id => (CommitTx_start w perm now id tc).2
  | OCommitEnd now p err => (CommitTx_end w perm now p err tc).2
  | ORollback now id => (RollbackTx w perm now id tc).2
  | OTimeouts now order => checkTimeouts w perm now order tc
  end.

(** A restart would find the table as it is. *)
Definition durable (tc : TransactionCoordinator) : Prop := recovered (txLog tc) = view tc.

Section durability.
Context (perm : list TxState → list TxState) (perm_ok : ∀ l, perm l ≡ₚ l).

Lemma persist_durable tc : wf tc → wf (persist WOk perm tc) ∧ durable (persist WOk perm tc).
Proof.
  intros Hwf. split; [by destruct Hwf|]. unfold durable. by rewrite persist_recovers.
Qed.

Lemma alter_wf f p tc : (∀ t, TxID (f t) = TxID t) → wf tc → wf (tc <| heap ::= alter f p |>).
Proof.
  intros Hf [H1 H2]. split; simpl.
  - intros id q Hq. destruct (H1 _ _ Hq) as (t & Ht & Hid). rewrite lookup_alter.
    case_decide; [|eauto]. subst. rewrite Ht. simpl. eauto.
  - intros q. rewrite lookup_alter. case_decide; [subst; rewrite fmap_is_Some|]; eauto.
Qed.

Lemma setStatus_durable p st now tc :
  wf tc → wf (setStatus WOk perm p st now tc) ∧ durable (setStatus WOk perm p st now tc).
Proof. intros Hwf. apply persist_durable. by apply alter_wf. Qed.

Lemma step_durable o tc :
  wf tc → durable tc → wf (step WOk perm o tc) ∧ durable (step WOk perm o tc).
Proof.
  intros Hwf Hd. destruct o as [n1 n2 n3 n4 pid|now id topic part key v|now id|now p err|now id|now order]; cbn [step].
  - unfold BeginTx. cbn [snd]. apply persist_durable. destruct Hwf as [H1 H2]. split; simpl.
    + intros id p [[<- <-]|[_ Hp]]%lookup_insert_Some; [eexists; by rewrite lookup_insert_eq|].
      destruct (H1 _ _ Hp) as (t' & Ht' & ?). exists t'. rewrite lookup_insert_ne; [done|].
      assert (p < nextPtr tc) by eauto. lia.
    + intros p. rewrite lookup_insert. case_decide; [lia|]. intros ?%H2. lia.
  - unfold AddMessage. repeat case_match; cbn [snd]; try done. apply persist_durable. by apply alter_wf.
  - unfold CommitTx_start. repeat case_match; cbn [snd]; try done. by apply setStatus_durable.
  - unfold CommitTx_end. case_match; cbn [snd]; by apply setStatus_durable.
  - unfold RollbackTx. repeat case_match; cbn [snd]; try done. by apply setStatus_durable.
  - unfold checkTimeouts. apply foldl_inv; [|done]. intros tc' [id p] [Hwf' Hd'].
    repeat case_match; try done. by apply setStatus_durable.
Qed.
End durability.

(** C28: A restart recovers every transaction.  When the log file is written
    without errors, then after any sequence of operations, commits cut in
    half included, and whatever order Go visits the table in, a coordinator
    started on the log file has exactly the transactions, states and
    messages of the running one. *)
Theorem restart_recovers_transactions perm ops :
  (∀ l, perm l ≡ₚ l) →
  let tc := foldl (λ tc o, step WOk perm o tc) (NewTransactionCoordinator None) ops in
  recovered (txLog tc) = view tc.
Proof.
  intros Hperm tc. enough (wf tc ∧ durable tc) as [_ Hd] by done. subst tc.
  apply foldl_inv; [intros tc o [??]; by apply step_durable|].
  split; [split; simpl; intros *; rewrite lookup_empty; [done|by intros [? ?]]|done].
Qed.

Definition demo_tx : string := "p-" +:+ Fmt.d (Time.UnixNano 1) +:+ "-" +:+ Fmt.d (randInt 2).

Lemma restart_recovers_transactions_witness :
  let tc := foldl (λ tc o, step WOk reverse o tc) (NewTransactionCoordinator None)
    [OBegin 1 2 3 4 "p"; OBegin 5 6 7 8 "q"; OAdd 9 demo_tx "t" 0 "k" [x01]; OCommitStart 10 demo_tx] in
  Status <$> recovered (txLog tc) !! demo_tx = Some TxCommitting.
Proof.
  intros tc. unfold tc. rewrite (restart_recovers_transactions reverse).
  - vm_compute. reflexivity.
  - apply reverse_Permutation.
Defined.

(** ** Commit and rollback *)

Lemma find_setStatus w perm p st now id tc t :
  transactions tc !! id = Some p → heap tc !! p = Some t →
  find id (setStatus w perm p st now tc) = Some (p, t <| Status := st |> <| UpdatedAt := now |>).
Proof.
  intros Hid Ht. apply find_view. unfold setStatus, persist, persistTx.
  destruct w; simpl; (split; [done|]); by rewrite lookup_alter_eq, Ht.
Qed.

(** A commit that is not interrupted.  [CommitTx] on a transaction that is
    unknown, or not pending, fails and changes nothing; a pending one ends
    committed with its messages, and neither a second commit nor a message
    is accepted afterwards. *)
Theorem CommitTx_spec w perm now1 now2 id tc :
  match find id tc with
  | None => CommitTx w perm now1 now2 id tc = (Err (not_found id), tc)
  | Some (p, t) =>
      if decide (Status t = TxPending) then
        ∃ tc', CommitTx w perm now1 now2 id tc = (Ok tt, tc') ∧
          find id tc' = Some (p, t <| Status := TxCommitted |> <| UpdatedAt := now2 |>) ∧
          GetTxStatus id tc' = Ok TxCommitted ∧
          is_ok (CommitTx w perm now1 now2 id tc').1 = false ∧
          (∀ now topic part key v, is_ok (AddMessage w perm now id topic part key v tc').1 = false)
      else CommitTx w perm now1 now2 id tc =
             (Err ("cannot commit transaction in state " +:+ status_string (Status t)), tc)
  end.
Proof.
  destruct (find id tc) as [[p t]|] eqn:E.
  - apply find_view in E as Hf. destruct Hf as [Hid Ht].
    unfold CommitTx, CommitTx_start. rewrite E. case_decide as Hs.
    + rewrite bool_decide_eq_false_2 by naive_solver.
      pose proof (find_setStatus w perm p TxCommitting now1 id tc t Hid Ht) as E1.
      apply find_view in E1 as Hf1. destruct Hf1 as [Hid1 Ht1].
      unfold doCommit. rewrite Hid1. simpl. eexists. split; [reflexivity|].
      pose proof (find_setStatus w perm p TxCommitted now2 id _ _ Hid1 Ht1) as E2.
      split_and!; [exact E2|unfold GetTxStatus; by rewrite E2| |].
      * rewrite E2. by rewrite bool_decide_eq_true_2.
      * intros. unfold AddMessage. rewrite E2. by rewrite bool_decide_eq_true_2.
    + by rewrite bool_decide_eq_true_2.
  - unfold CommitTx, CommitTx_start. by rewrite E.
Qed.

(** A rollback is never refused.  A rollback that arrives between the two
    halves of a commit, and one that arrives after the commit, reports
    success.  In the first case the commit still succeeds and the
    transaction ends committed; in the second a committed transaction ends
    aborted: either way two callers were told opposite things. *)
Theorem commit_and_rollback_both_succeed w perm now1 now2 now3 id p t tc :
  find id tc = Some (p, t) → Status t = TxPending →
  (∃ tc1 tc2 tc3, CommitTx_start w perm now1 id tc = (Ok p, tc1) ∧
     RollbackTx w perm now2 id tc1 = (Ok tt, tc2) ∧ GetTxStatus id tc2 = Ok TxAborted ∧
     CommitTx_end w perm now3 p (doCommit id tc2) tc2 = (Ok tt, tc3) ∧
     GetTxStatus id tc3 = Ok TxCommitted) ∧
  (∃ tc1 tc2, CommitTx w perm now1 now2 id tc = (Ok tt, tc1) ∧ GetTxStatus id tc1 = Ok TxCommitted ∧
     RollbackTx w perm now3 id tc1 = (Ok tt, tc2) ∧ GetTxStatus id tc2 = Ok TxAborted).
Proof.
  intros E Hs. pose proof E as [Hid Ht]%find_view.
  assert (CommitTx_start w perm now1 id tc = (Ok p, setStatus w perm p TxCommitting now1 tc)) as Hst.
  { unfold CommitTx_start. rewrite E. by rewrite bool_decide_eq_false_2 by naive_solver. }
  pose proof (find_setStatus w perm p TxCommitting now1 id tc t Hid Ht) as E1.
  pose proof E1 as [Hid1 Ht1]%find_view.
  assert (∀ st now tc0 t0, find id tc0 = Some (p, t0) →
    GetTxStatus id (setStatus w perm p st now tc0) = Ok st ∧
    find id (setStatus w perm p st now tc0) = Some (p, t0 <| Status := st |> <| UpdatedAt := now |>)) as Hset.
  { intros st now tc0 t0 [??]%find_view. unfold GetTxStatus. by rewrite (find_setStatus _ _ _ _ _ _ _ t0). }
  split.
  - destruct (Hset TxAborted now2 _ _ E1) as [G2 E2]. pose proof E2 as [Hid2 _]%find_view.
    destruct (Hset TxCommitted now3 _ _ E2) as [G3 _].
    eexists _, _, _. split; [exact Hst|]. split; [unfold RollbackTx; by rewrite E1|].
    split; [exact G2|]. unfold doCommit. rewrite Hid2. split; [done|exact G3].
  - destruct (Hset TxCommitted now2 _ _ E1) as [G2 E2]. destruct (Hset TxAborted now3 _ _ E2) as [G3 _].
    eexists _, _. split; [unfold CommitTx, doCommit; rewrite Hst, Hid1; reflexivity|].
    split; [exact G2|]. split; [unfold RollbackTx; by rewrite E2|exact G3].
Qed.

Lemma commit_and_rollback_both_succeed_witness :
  let tc := (BeginTx WOk reverse 1 2 3 4 "p" (NewTransactionCoordinator None)).2 in
  ∃ tc1 tc2, CommitTx WOk reverse 5 6 demo_tx tc = (Ok tt, tc1) ∧ RollbackTx WOk reverse 7 demo_tx tc1 = (Ok tt, tc2).
Proof.
  intros tc. destruct (commit_and_rollback_both_succeed WOk reverse 5 6 7 demo_tx 0
    (mkTxState demo_tx TxPending "p" [] 3 4) tc) as (_ & tc1 & tc2 & H1 & _ & H2 & _).
  - vm_compute. reflexivity.
  - reflexivity.
  - exists tc1, tc2. split; [exact H1|exact H2].
Defined.

End TxCoordinator.
