(* ===== verification/OffsetStore.v ===== *)
(** * Consumer offsets

    Models [cluster/go/nameserver/offset_store.go].  The database
    [go.etcd.io/bbolt] is not part of the repository: it is the class
    [BoltDB], and what the code relies on of its documented behaviour are
    the laws [BoltLaws].  The theorems are proved against the laws; a
    database kept in maps shows that they can hold. *)

From Stdlib Require Import ZArith Lia Strings.Byte.
From stdpp Require Import base tactics list gmap strings fin_maps.
From S2P Require Import Prelude GoLib.

Open Scope Z_scope.

Module OffsetStore.

Import Int.

(** One transaction of the database on one bucket; [Update] rolls back when
    the function it runs fails, so an error leaves the database as it was. *)
Class BoltDB (DB : Type) := {
  Bucket : string → DB → bool;
  CreateBucketIfNotExists : string → DB → result DB;
  Put : string → list byte → list byte → DB → result DB;
  Get : string → list byte → DB → option (list byte);
  Delete : string → list byte → DB → result DB;
}.

Class BoltLaws (DB : Type) `{!BoltDB DB} := {
  create_bucket b db db' : CreateBucketIfNotExists b db = Ok db' → Bucket b db' = true;
  put_bucket b k v db db' b' : Put b k v db = Ok db' → Bucket b' db' = Bucket b' db;
  put_get b k v db db' : Put b k v db = Ok db' → Get b k db' = Some v;
  put_get_ne b k v db db' k' : Put b k v db = Ok db' → k' ≠ k → Get b k' db' = Get b k' db;
  delete_get b k db db' : Delete b k db = Ok db' → Get b k db' = None;
  delete_get_ne b k db db' k' : Delete b k db = Ok db' → k' ≠ k → Get b k' db' = Get b k' db;
  delete_bucket b k db db' b' : Delete b k db = Ok db' → Bucket b' db' = Bucket b' db;
}.

Definition offsetBucket : string := "consumer_offsets".

(** [fmt.Sprintf("%s/%s/%d", groupID, topic, partition)]. *)
Definition key (groupID topic : string) (partition : Z) : list byte :=
  Bytes.of_string (groupID +:+ "/" +:+ topic +:+ "/" +:+ Fmt.d partition).

Section store.
Context {DB : Type} `{!BoltDB DB}.

(** [opened] is the outcome of [bolt.Open]. *)
Definition NewOffsetStore (opened : result DB) : result DB :=
  match opened with
  | Err e => Err ("failed to open offset db: " +:+ e)
  | Ok db =>
      match CreateBucketIfNotExists offsetBucket db with
      | Err e => Err ("failed to create bucket: " +:+ e)
      | Ok db => Ok db
      end
  end.

Definition PutOffset (groupID topic : string) (partition offset : Z) (db : DB) : result DB :=
  if Bucket offsetBucket db
  then Put offsetBucket (key groupID topic partition) (Bytes.be 8 (uint64 offset)) db
  else Err "bucket not found".

(** [None] is the panic of [Uint64] on fewer than 8 bytes. *)
Definition GetOffset (groupID topic : string) (partition : Z) (db : DB) : option (result Z) :=
  if Bucket offsetBucket db then
    match Get offsetBucket (key groupID topic partition) db with
    | None => Some (Ok 0)
    | Some data =>
        if (length data <? 8)%nat then None
        else Some (Ok (int64 (Bytes.unbe (take 8 data))))
    end
  else Some (Err "bucket not found").

Definition DeleteOffset (groupID topic : string) (partition : Z) (db : DB) : result DB :=
  if Bucket offsetBucket db
  then Delete offsetBucket (key groupID topic partition) db
  else Err "bucket not found".

(** ** Keys *)

Definition no_slash (s : string) : Prop := x2f ∉ Bytes.of_string s.

Lemma key_bytes g t p :
  key g t p = Bytes.of_string g ++ x2f :: (Bytes.of_string t ++ x2f :: Bytes.of_string (Fmt.d p)).
Proof. unfold key. by rewrite !Bytes.of_string_app. Qed.

Lemma key_inj g1 t1 p1 g2 t2 p2 :
  no_slash g1 → no_slash g2 → no_slash t1 → no_slash t2 →
  key g1 t1 p1 = key g2 t2 p2 → g1 = g2 ∧ t1 = t2 ∧ p1 = p2.
Proof.
  intros Hg1 Hg2 Ht1 Ht2. rewrite !key_bytes. intros H.
  apply app_sep_inj in H as [Hg H]; [|done..]. apply app_sep_inj in H as [Ht H]; [|done..].
  split_and!; [by apply Bytes.of_string_inj..|]. by apply Fmt.d_inj, Bytes.of_string_inj.
Qed.

Lemma get_put_bytes o : in_sint 64 o → int64 (Bytes.unbe (take 8 (Bytes.be 8 (uint64 o)))) = o.
Proof.
  intros Ho. rewrite take_ge by (by rewrite Bytes.length_be). rewrite Bytes.unbe_be.
  change (256 ^ Z.of_nat 8) with (2 ^ 64). change (uint64 o mod 2 ^ 64) with (uint 64 (uint 64 o)).
  rewrite (uint_small 64 (uint 64 o)) by (by apply uint_range). by apply (sint_uint 64).
Qed.

Context `{!BoltLaws DB}.

Lemma get_after_put g t p o db db' :
  in_sint 64 o → PutOffset g t p o db = Ok db' → GetOffset g t p db' = Some (Ok o).
Proof.
  intros Ho. unfold PutOffset, GetOffset. destruct (Bucket offsetBucket db) eqn:Hb; [|done].
  intros Hput. rewrite (put_bucket _ _ _ _ _ _ Hput), Hb, (put_get _ _ _ _ _ Hput).
  rewrite Bytes.length_be. change (8 <? 8)%nat with false. cbv iota. by rewrite get_put_bytes.
Qed.

(** Committed offsets are read back.  An offset that was stored, negative
    ones included, is the one [GetOffset] returns for the same group, topic
    and partition; and when groups and topics have no slash in their names,
    no other consumer's offset changes. *)
Theorem offset_roundtrip g t p o db db' :
  in_sint 64 o → PutOffset g t p o db = Ok db' →
  GetOffset g t p db' = Some (Ok o) ∧
  (no_slash g → no_slash t → ∀ g' t' p', no_slash g' → no_slash t' → (g', t', p') ≠ (g, t, p) →
     GetOffset g' t' p' db' = GetOffset g' t' p' db).
Proof.
  intros Ho Hput. split; [by eapply get_after_put|]. intros Hg Ht g' t' p' Hg' Ht' Hne.
  unfold PutOffset, GetOffset in *. destruct (Bucket offsetBucket db) eqn:Hb; [|done].
  rewrite (put_bucket _ _ _ _ _ _ Hput), Hb, (put_get_ne _ _ _ _ _ _ Hput); [done|].
  intros (-> & -> & ->)%key_inj; done.
Qed.

(** A slash in a name mixes offsets up.  The key of group ["a/b"] and
    topic ["c"] is the key of group ["a"] and topic ["b/c"]: storing the
    offset of one overwrites the offset of the other. *)
Theorem slash_collides a b c p o db db' :
  in_sint 64 o → PutOffset (a +:+ "/" +:+ b) c p o db = Ok db' →
  GetOffset a (b +:+ "/" +:+ c) p db' = Some (Ok o).
Proof.
  intros Ho Hput. rewrite <- (get_after_put _ _ _ _ _ _ Ho Hput). unfold GetOffset.
  assert (key a (b +:+ "/" +:+ c) p = key (a +:+ "/" +:+ b) c p) as ->; [|done].
  rewrite !key_bytes, !Bytes.of_string_app. by rewrite <- !app_assoc.
Qed.
End store.

(** ** A database that keeps its buckets in maps *)

Module MapDB.
Definition DB : Type := gmap string (gmap (list byte) (list byte)).

#[export] Instance ops : BoltDB DB := {|
  Bucket b db := bool_decide (is_Some (db !! b));
  CreateBucketIfNotExists b db := Ok (match db !! b with Some _ => db | None => <[b := ∅]> db end);
  Put b k v db :=
    match db !! b with
    | Some m => if bool_decide (k = []) then Err "key required" else Ok (<[b := <[k := v]> m]> db)
    | None => Err "bucket not found"
    end;
  Get b k db := m ← db !! b; m !! k;
  Delete b k db :=
    match db !! b with Some m => Ok (<[b := delete k m]> db) | None => Err "bucket not found" end;
|}.

#[export] Instance laws : BoltLaws DB.
Proof.
  split; simpl; intros *; unfold DB in *.
  - destruct (db !! b) eqn:E; intros [= <-]; apply bool_decide_eq_true_2; rewrite ?lookup_insert_eq, ?E; eauto.
  - destruct (db !! b) eqn:E; [|done]. case_bool_decide; [done|]. intros [= <-].
    apply bool_decide_ext. rewrite lookup_insert. case_decide; subst; rewrite ?E; naive_solver.
  - destruct (db !! b) eqn:E; [|done]. case_bool_decide; [done|]. intros [= <-].
    rewrite lookup_insert_eq. simpl. by rewrite lookup_insert_eq.
  - destruct (db !! b) eqn:E; [|done]. case_bool_decide; [done|]. intros [= <-] Hne.
    rewrite lookup_insert_eq. simpl. by rewrite lookup_insert_ne.
  - destruct (db !! b) eqn:E; [|done]. intros [= <-]. rewrite lookup_insert_eq. simpl. by rewrite lookup_delete_eq.
  - destruct (db !! b) eqn:E; [|done]. intros [= <-] Hne.
    rewrite lookup_insert_eq. simpl. by rewrite lookup_delete_ne.
  - destruct (db !! b) eqn:E; [|done]. intros [= <-].
    apply bool_decide_ext. rewrite lookup_insert. case_decide; subst; rewrite ?E; naive_solver.
Qed.
End MapDB.

#[export] Existing Instance MapDB.ops.
#[export] Existing Instance MapDB.laws.

Definition demo_db : MapDB.DB := {[ offsetBucket := ∅ ]}.

Lemma demo_put g t p o : ∃ db', PutOffset g t p o demo_db = Ok db'.
Proof.
  unfold PutOffset, demo_db. simpl. unfold MapDB.DB. rewrite bool_decide_true by (rewrite lookup_singleton_eq; eauto).
  rewrite lookup_singleton_eq, bool_decide_false; [eauto|]. rewrite key_bytes. by destruct (Bytes.of_string g).
Qed.

Lemma offset_roundtrip_witness :
  ∃ db', PutOffset "g" "t" 3 (-5) demo_db = Ok db' ∧ GetOffset "g" "t" 3 db' = Some (Ok (-5)).
Proof.
  destruct (demo_put "g" "t" 3 (-5)) as [db' E].
  destruct (offset_roundtrip "g" "t" 3 (-5) demo_db db') as [H _]; [unfold in_sint; lia|exact E|].
  exists db'. split; [exact E|exact H].
Defined.

Lemma slash_collides_witness :
  ∃ db', PutOffset ("a" +:+ "/" +:+ "b") "c" 0 7 demo_db = Ok db' ∧
         GetOffset "a" ("b" +:+ "/" +:+ "c") 0 db' = Some (Ok 7).
Proof.
  destruct (demo_put ("a" +:+ "/" +:+ "b") "c" 0 7) as [db' E].
  exists db'. split; [exact E|].
  exact (slash_collides "a" "b" "c" 0 7 demo_db db' ltac:(unfold in_sint; lia) E).
Defined.

End OffsetStore.
