(* ===== verification/NameServer.v ===== *)
(** * The name server: brokers, topics, routing and consumer groups

    Models [cluster/go/nameserver/nameserver.go].  A handler is a program on
    the server's state that returns the response: the status code and the
    values of the JSON body.  Each handler holds the mutex from start to end,
    so it is one atomic step.  The transaction handlers call the coordinator
    of [TxCoordinator], the offset handlers the store of [OffsetStore].

    The pointers of the tables are never shared between entries, so a table
    holds the structs themselves; a handler that keeps a pointer while it
    changes the table reads the entry again. *)

From Stdlib Require Import ZArith Lia Strings.Byte.
From stdpp Require Import base tactics list gmap strings fin_maps.
From S2P Require Import Prelude GoLib TxCoordinator OffsetStore.

Open Scope Z_scope.

Module NameServer.

Import Int.

(** ** Data *)

Record PartitionInfo := mkPartitionInfo {
  PartitionID : Z; Leader : string; Replicas : list string; ISR : list string }.

Record TopicInfo := mkTopicInfo { ti_Topic : string; Partitions : gmap Z PartitionInfo }.

Record BrokerInfo := mkBrokerInfo {
  BrokerID : Z; Address : string; ClientAddr : string; Hostname : string; Port : Z; LastUpdate : Z }.

Record MemberMeta := mkMemberMeta { ClientID : string; Heartbeat : Z; Assignments : gmap Z bool }.

Record ConsumerGroup := mkConsumerGroup {
  GroupID : string; Members : gmap string MemberMeta; cg_Topic : string;
  cg_Partitions : list Z; Generation : Z }.

Record NameServer (DB : Type) := mkNameServer {
  topics : gmap string TopicInfo;
  brokers : gmap Z BrokerInfo;
  consumerGroups : gmap string ConsumerGroup;
  nextID : Z;
  offsetStore : option DB;
  txCoordinator : TxCoordinator.TransactionCoordinator }.

Arguments mkNameServer {DB} _ _ _ _ _ _.
Arguments topics {DB} _.
Arguments brokers {DB} _.
Arguments consumerGroups {DB} _.
Arguments nextID {DB} _.
Arguments offsetStore {DB} _.
Arguments txCoordinator {DB} _.

#[export] Instance eta_BrokerInfo : Eta BrokerInfo := λ b,
  mkBrokerInfo (BrokerID b) (Address b) (ClientAddr b) (Hostname b) (Port b) (LastUpdate b).
#[export] Instance eta_MemberMeta : Eta MemberMeta := λ m,
  mkMemberMeta (ClientID m) (Heartbeat m) (Assignments m).
#[export] Instance eta_ConsumerGroup : Eta ConsumerGroup := λ g,
  mkConsumerGroup (GroupID g) (Members g) (cg_Topic g) (cg_Partitions g) (Generation g).
#[export] Instance eta_NameServer DB : Eta (NameServer DB) := λ n,
  mkNameServer (topics n) (brokers n) (consumerGroups n) (nextID n) (offsetStore n) (txCoordinator n).

(** ** Requests and responses *)

(** The form of a request, and whether [ParseForm] reported an error. *)
Record Request := mkRequest { parseError : bool; Form : gmap string string }.

(** [r.Form.Get(key)]: the empty string when the key is absent. *)
Definition FormGet (r : Request) (key : string) : string := default "" (Form r !! key).

Definition StatusOK : Z := 200.
Definition StatusBadRequest : Z := 400.
Definition StatusNotFound : Z := 404.
Definition StatusConflict : Z := 409.
Definition StatusInternalServerError : Z := 500.
Definition StatusServiceUnavailable : Z := 503.

(** The JSON body, by its keys. *)
Inductive Body :=
| Error (error : string)
| Registered (broker_id : Z)
| TopicCreated (topic : string) (partitions : Z)
| TopicDescription (topic : string) (partitions : gmap Z (string * list string * list string))
| Brokers (brokers : list (Z * string * string))
| Peers (peers : list string)
| Route (topic : string) (partition : Z) (leader : string) (replicas isr : list string)
| Joined (group_id : string) (generation : Z) (client_id : string) (assignments : list Z) (topic : string)
| MemberOk (group_id client_id : string)
| OffsetCommitted (group_id topic : string) (partition offset : Z)
| Offset (group_id topic : string) (partition offset : Z)
| Tx (tx_id producer_id status : string)
| TxOutcome (status tx_id : string).

Record Response := mkResponse { status : Z; body : Body }.

Definition fail (st : Z) (msg : string) : Response := mkResponse st (Error msg).
Definition ok (b : Body) : Response := mkResponse StatusOK b.

(** Is one of the required values missing? *)
Definition missing (values : list string) : bool := bool_decide ("" ∈ values).

Section server.
Context {DB : Type} `{!OffsetStore.BoltDB DB}.
Notation server := (NameServer DB).
Notation handler := (prog server Response).

(** [offsets]: the store, [None] when it could not be opened (the error is
    dropped); [txFile]: the transaction log found on disk. *)
Definition NewNameServer (offsets : option DB) (txFile : option (list (Gob.msg TxCoordinator.TxState))) : server :=
  mkNameServer ∅ ∅ ∅ 1 offsets (TxCoordinator.NewTransactionCoordinator txFile).

(** [if err := r.ParseForm(); err != nil { ... return }]. *)
Definition parsed (r : Request) (k : handler) : handler :=
  if parseError r then mret (fail StatusBadRequest "failed to parse form") else k.

(** ** Brokers *)

(** [order] is the order of the range loop over the brokers. *)
Definition handleRegister (now : Z) (order : list (Z * BrokerInfo)) (r : Request) : handler :=
  let addr := FormGet r "addr" in
  let clientAddr := FormGet r "client_addr" in
  let hostname := FormGet r "hostname" in
  if missing [addr; clientAddr] then
    mret (fail StatusBadRequest "addr and client_addr are required")
  else
    match find (λ '(_, b), bool_decide (Address b = addr)) order with
    | Some (id, broker) =>
        modify (λ n, n <| brokers ::= <[id :=
          broker <| ClientAddr := clientAddr |> <| Hostname := hostname |> <| LastUpdate := now |>]> |>);;
        mret (ok (Registered (BrokerID broker)))
    | None =>
        id ← gets nextID;
        modify (λ n, n <| nextID ::= λ i, int64 (i + 1) |>
                       <| brokers ::= <[id := mkBrokerInfo id addr clientAddr hostname 0 now]> |>);;
        mret (ok (Registered id))
    end.

Definition getAvailableBrokers (now : Z) (order : list (Z * BrokerInfo)) : list Z :=
  (filter (λ '(_, broker), Time.Sub now (LastUpdate broker) < 30 * Time.Second) order).*1.

Definition handleBrokerList (order : list (Z * BrokerInfo)) : handler :=
  mret (ok (Brokers ((λ '(_, b), (BrokerID b, Address b, Hostname b)) <$> order))).

Definition handleBrokerPeers (order : list (Z * BrokerInfo)) : handler :=
  mret (ok (Peers ((λ '(_, b), Address b) <$> order))).

Definition GetBrokerInfo (brokerID : Z) (n : server) : option BrokerInfo := brokers n !! brokerID.

(** ** Topics *)

(** [n.brokers[brokerIDs[(i + j) % len(brokerIDs)]].ClientAddr]; [None] is
    the panic on a missing broker. *)
Definition replicaAt (bs : gmap Z BrokerInfo) (brokerIDs : list Z) (i : Z) (j : nat) : option string :=
  id ← brokerIDs !! Z.to_nat (Z.rem (i + Z.of_nat j) (Z.of_nat (length brokerIDs)));
  ClientAddr <$> bs !! id.

(** The inner loop [for j := 0; j < 3 && j < len(brokerIDs); j++]. *)
Definition replicasFor (bs : gmap Z BrokerInfo) (brokerIDs : list Z) (i : Z) : option (list string) :=
  mapM (replicaAt bs brokerIDs i) (seq 0 (min 3 (length brokerIDs))).

Definition newPartition (bs : gmap Z BrokerInfo) (brokerIDs : list Z) (i : Z) : option PartitionInfo :=
  replicas ← replicasFor bs brokerIDs i;
  leader ← head replicas;
  Some (mkPartitionInfo i leader replicas replicas).

(** The loop [for i := 0; i < partitions; i++] with [count] rounds to go. *)
Fixpoint newPartitions (bs : gmap Z BrokerInfo) (brokerIDs : list Z) (i : Z) (count : nat)
    (acc : gmap Z PartitionInfo) : option (gmap Z PartitionInfo) :=
  match count with
  | O => Some acc
  | S count' =>
      p ← newPartition bs brokerIDs i;
      newPartitions bs brokerIDs (i + 1) count' (<[i := p]> acc)
  end.

Definition handleCreateTopic (now : Z) (order : list (Z * BrokerInfo)) (r : Request) : handler :=
  parsed r (
  let topic := FormGet r "topic" in
  if missing [topic] then mret (fail StatusBadRequest "topic is required")
  else
    let partitionsStr := FormGet r "partitions" in
    match (if missing [partitionsStr] then Some 1 else Strconv.Atoi partitionsStr) with
    | None => mret (fail StatusBadRequest "invalid partitions value")
    | Some partitions =>
        if partitions <? 1 then mret (fail StatusBadRequest "invalid partitions value")
        else
          n ← get;
          match topics n !! topic with
          | Some _ => mret (fail StatusConflict "topic already exists")
          | None =>
              let brokerIDs := getAvailableBrokers now order in
              if (length brokerIDs =? 0)%nat then
                mret (fail StatusServiceUnavailable "no brokers available")
              else
                ps ← of_option (newPartitions (brokers n) brokerIDs 0 (Z.to_nat partitions) ∅);
                modify (λ n, n <| topics ::= <[topic := mkTopicInfo topic ps]> |>);;
                mret (ok (TopicCreated topic partitions))
          end
    end).

Definition handleTopicInfo (r : Request) : handler :=
  parsed r (
  let topic := FormGet r "topic" in
  if missing [topic] then mret (fail StatusBadRequest "topic is required")
  else
    n ← get;
    match topics n !! topic with
    | None => mret (fail StatusNotFound "topic not found")
    | Some topicInfo =>
        mret (ok (TopicDescription topic ((λ info, (Leader info, Replicas info, ISR info)) <$> Partitions topicInfo)))
    end).

Definition GetTopicInfo (topic : string) (n : server) : option TopicInfo := topics n !! topic.

(** ** Routing *)

Definition hashString (s : string) : Z :=
  fold_left (λ h b, int64 (31 * h + Bytes.to_Z b)) (Bytes.of_string s) 0.

(** The partition a key is routed to, among [count] partitions. *)
Definition keyPartition (key : string) (count : Z) : Z :=
  let partitionID := Z.rem (hashString key) count in
  if partitionID <? 0 then - partitionID else partitionID.

Definition handleRoute (r : Request) : handler :=
  parsed r (
  let topic := FormGet r "topic" in
  if missing [topic] then mret (fail StatusBadRequest "topic is required")
  else
    n ← get;
    match topics n !! topic with
    | None => mret (fail StatusNotFound "topic not found")
    | Some topicInfo =>
        if (size (Partitions topicInfo) =? 0)%nat then
          mret (fail StatusInternalServerError "no partitions available")
        else
          let partitionStr := FormGet r "partition" in
          let key := FormGet r "key" in
          match (if negb (missing [partitionStr]) then Strconv.Atoi partitionStr
                 else if negb (missing [key])
                 then Some (keyPartition key (Z.of_nat (size (Partitions topicInfo)))) else Some 0) with
          | None => mret (fail StatusBadRequest "invalid partition")
          | Some partitionID =>
              match Partitions topicInfo !! partitionID with
              | None => mret (fail StatusInternalServerError "partition not found")
              | Some info => mret (ok (Route topic partitionID (Leader info) (Replicas info) (ISR info)))
              end
          end
    end).

(** ** Consumer groups *)

(** The inner loop of [doRebalance]: the next [count] partitions go to
    [memberID]; [idx] is [partitionIndex]. *)
Fixpoint assignTo (memberID : string) (partitions : list Z) (count idx : nat)
    (members : gmap string MemberMeta) : nat * gmap string MemberMeta :=
  match count with
  | O => (idx, members)
  | S count' =>
      match partitions !! idx with
      | None => (idx, members)
      | Some p =>
          assignTo memberID partitions count' (S idx)
            (alter (λ m, m <| Assignments ::= <[p := true]> |>) memberID members)
      end
  end.

(** The outer loop, from member number [i]. *)
Fixpoint assignAll (partitions : list Z) (perMember remainder i idx : nat) (ids : list string)
    (members : gmap string MemberMeta) : gmap string MemberMeta :=
  match ids with
  | [] => members
  | memberID :: ids' =>
      let count := if (i <? remainder)%nat then S perMember else perMember in
      let '(idx, members) := assignTo memberID partitions count idx members in
      assignAll partitions perMember remainder (S i) idx ids' members
  end.

(** The keys of a table, collected by a range loop and sorted. *)
Definition sortedNames {V} (m : gmap string V) : list string := Sort.Strings (map_to_list m).*1.
Definition sortedIDs {V} (m : gmap Z V) : list Z := Sort.Ints (map_to_list m).*1.

(** The body of [doRebalance] once the group is found. *)
Definition rebalance (group : ConsumerGroup) : ConsumerGroup :=
  let ids := sortedNames (Members group) in
  let partitions := cg_Partitions group in
  if (length ids =? 0)%nat then group
  else
    let perMember := (length partitions / length ids)%nat in
    let remainder := (length partitions mod length ids)%nat in
    let cleared := (λ m, m <| Assignments := ∅ |>) <$> Members group in
    group <| Members := assignAll partitions perMember remainder 0 0 ids cleared |>
          <| Generation ::= Z.succ |>.

Definition doRebalance (groupID : string) (n : server) : server :=
  match consumerGroups n !! groupID with
  | None => n
  | Some group => n <| consumerGroups ::= <[groupID := rebalance group]> |>
  end.

(** The group a client joins: the one that exists or a new one on the topic. *)
Definition groupFor (groupID topic : string) (n : server) : option ConsumerGroup :=
  match consumerGroups n !! groupID with
  | Some group => Some group
  | None =>
      topicInfo ← topics n !! topic;
      Some (mkConsumerGroup groupID ∅ topic (sortedIDs (Partitions topicInfo)) 1)
  end.

Definition joinMember (now : Z) (clientID : string) (members : gmap string MemberMeta) :
    gmap string MemberMeta :=
  match members !! clientID with
  | None => <[clientID := mkMemberMeta clientID now ∅]> members
  | Some member => <[clientID := member <| Heartbeat := now |>]> members
  end.

(** What [handleJoinGroup] answers with, read after the rebalance. *)
Definition joinResponse (groupID clientID topic : string) (n : server) : option Response :=
  group ← consumerGroups n !! groupID;
  member ← Members group !! clientID;
  Some (ok (Joined groupID (Generation group) clientID (sortedIDs (Assignments member)) topic)).

Definition handleJoinGroup (now : Z) (r : Request) : handler :=
  parsed r (
  let groupID := FormGet r "group_id" in
  let clientID := FormGet r "client_id" in
  let topic := FormGet r "topic" in
  if missing [groupID; clientID; topic] then
    mret (fail StatusBadRequest "group_id, client_id, and topic are required")
  else
    n ← get;
    match groupFor groupID topic n with
    | None => mret (fail StatusNotFound "topic not found")
    | Some group =>
        modify (λ n, n <| consumerGroups ::= <[groupID := group]> |>);;
        if bool_decide (cg_Topic group ≠ topic) then
          mret (fail StatusBadRequest "group already subscribed to different topic")
        else
          modify (λ n, n <| consumerGroups ::= <[groupID := group <| Members ::= joinMember now clientID |>]> |>);;
          modify (doRebalance groupID);;
          n ← get;
          of_option (joinResponse groupID clientID topic n)
    end).

Definition handleHeartbeat (now : Z) (r : Request) : handler :=
  parsed r (
  let groupID := FormGet r "group_id" in
  let clientID := FormGet r "client_id" in
  if missing [groupID; clientID] then
    mret (fail StatusBadRequest "group_id and client_id are required")
  else
    n ← get;
    match consumerGroups n !! groupID with
    | None => mret (fail StatusNotFound "consumer group not found")
    | Some group =>
        match Members group !! clientID with
        | None => mret (fail StatusNotFound "member not found in group")
        | Some member =>
            modify (λ n, n <| consumerGroups ::= <[groupID :=
              group <| Members ::= <[clientID := member <| Heartbeat := now |>]> |>]> |>);;
            mret (ok (MemberOk groupID clientID))
        end
    end).

(** [delete] the members, then drop the group or rebalance it: the end of
    [handleLeaveGroup] and of each round of the heartbeat checker. *)
Definition removeMembers (groupID : string) (clients : list string) (n : server) : server :=
  match consumerGroups n !! groupID with
  | None => n
  | Some group =>
      let members := foldl (λ m c, delete c m) (Members group) clients in
      if (size members =? 0)%nat then n <| consumerGroups ::= delete groupID |>
      else doRebalance groupID (n <| consumerGroups ::= <[groupID := group <| Members := members |>]> |>)
  end.

Definition handleLeaveGroup (r : Request) : handler :=
  parsed r (
  let groupID := FormGet r "group_id" in
  let clientID := FormGet r "client_id" in
  if missing [groupID; clientID] then
    mret (fail StatusBadRequest "group_id and client_id are required")
  else
    n ← get;
    match consumerGroups n !! groupID with
    | None => mret (fail StatusNotFound "consumer group not found")
    | Some _ =>
        modify (removeMembers groupID [clientID]);;
        mret (ok (MemberOk groupID clientID))
    end).

(** The first loop of the heartbeat checker: the silent members by group. *)
Definition deadMembers (now : Z) (n : server) : gmap string (list string) :=
  omap (λ group,
    let dead := (filter (λ '(_, m), Time.Sub now (Heartbeat m) > 30 * Time.Second)
                        (map_to_list (Members group))).*1 in
    match dead with [] => None | _ => Some dead end) (consumerGroups n).

(** One tick of [startHeartbeatChecker]; [order] is the order of the range
    loop over [deadMembers]. *)
Definition checkHeartbeats (order : list (string * list string)) (n : server) : server :=
  foldl (λ n '(groupID, clients), removeMembers groupID clients n) n order.

(** ** Offsets *)

Definition handleCommitOffset (r : Request) : handler :=
  parsed r (
  let groupID := FormGet r "group_id" in
  let topic := FormGet r "topic" in
  let partitionStr := FormGet r "partition" in
  let offsetStr := FormGet r "offset" in
  if missing [groupID; topic; partitionStr; offsetStr] then
    mret (fail StatusBadRequest "group_id, topic, partition, and offset are required")
  else
    match Strconv.Atoi partitionStr with
    | None => mret (fail StatusBadRequest "invalid partition")
    | Some partition =>
        match Strconv.ParseInt offsetStr with
        | None => mret (fail StatusBadRequest "invalid offset")
        | Some offset =>
            n ← get;
            let saved := ok (OffsetCommitted groupID topic partition offset) in
            match offsetStore n with
            | None => mret saved
            | Some db =>
                match OffsetStore.PutOffset groupID topic partition offset db with
                | Err e => mret (fail StatusInternalServerError ("failed to save offset: " +:+ e))
                | Ok db' => modify (λ n, n <| offsetStore := Some db' |>);; mret saved
                end
            end
        end
    end).

Definition handleGetOffset (r : Request) : handler :=
  parsed r (
  let groupID := FormGet r "group_id" in
  let topic := FormGet r "topic" in
  let partitionStr := FormGet r "partition" in
  if missing [groupID; topic; partitionStr] then
    mret (fail StatusBadRequest "group_id, topic, and partition are required")
  else
    match Strconv.Atoi partitionStr with
    | None => mret (fail StatusBadRequest "invalid partition")
    | Some partition =>
        n ← get;
        match offsetStore n with
        | None => mret (ok (Offset groupID topic partition 0))
        | Some db =>
            res ← of_option (OffsetStore.GetOffset groupID topic partition db);
            match res with
            | Err e => mret (fail StatusInternalServerError ("failed to get offset: " +:+ e))
            | Ok offset => mret (ok (Offset groupID topic partition offset))
            end
        end
    end).

(** ** Transactions *)

Section transactions.
Context (w : TxCoordinator.wio) (perm : list TxCoordinator.TxState → list TxCoordinator.TxState).

(** Runs an operation of the coordinator and answers with [done], or with
    its error. *)
Definition runTx {A} (op : TxCoordinator.TransactionCoordinator → result A * TxCoordinator.TransactionCoordinator)
    (done : A → Response) : handler :=
  n ← get;
  let '(res, tc) := op (txCoordinator n) in
  modify (λ n, n <| txCoordinator := tc |>);;
  mret (match res with Ok a => done a | Err e => fail StatusInternalServerError e end).

Definition handleBeginTx (now1 now2 now3 now4 : Z) (r : Request) : handler :=
  parsed r (
  let producerID := FormGet r "producer_id" in
  if missing [producerID] then mret (fail StatusBadRequest "producer_id is required")
  else
    runTx (λ tc, let '(txID, tc) := TxCoordinator.BeginTx w perm now1 now2 now3 now4 producerID tc in (Ok txID, tc))
          (λ txID, ok (Tx txID producerID "PENDING"))).

Definition handleAddMessage (now : Z) (r : Request) : handler :=
  parsed r (
  let txID := FormGet r "tx_id" in
  let topic := FormGet r "topic" in
  let partitionStr := FormGet r "partition" in
  let key := FormGet r "key" in
  let value := FormGet r "value" in
  if missing [txID; topic; partitionStr; value] then
    mret (fail StatusBadRequest "tx_id, topic, partition, and value are required")
  else
    match Strconv.Atoi partitionStr with
    | None => mret (fail StatusBadRequest "invalid partition")
    | Some partition =>
        runTx (TxCoordinator.AddMessage w perm now txID topic partition key (Bytes.of_string value))
              (λ _, ok (TxOutcome "ok" txID))
    end).

Definition handleCommitTx (now1 now2 : Z) (r : Request) : handler :=
  parsed r (
  let txID := FormGet r "tx_id" in
  if missing [txID] then mret (fail StatusBadRequest "tx_id is required")
  else runTx (TxCoordinator.CommitTx w perm now1 now2 txID) (λ _, ok (TxOutcome "COMMITTED" txID))).

Definition handleRollbackTx (now : Z) (r : Request) : handler :=
  parsed r (
  let txID := FormGet r "tx_id" in
  if missing [txID] then mret (fail StatusBadRequest "tx_id is required")
  else runTx (TxCoordinator.RollbackTx w perm now txID) (λ _, ok (TxOutcome "ABORTED" txID))).
End transactions.

Definition handleTxStatus (r : Request) : handler :=
  parsed r (
  let txID := FormGet r "tx_id" in
  if missing [txID] then mret (fail StatusBadRequest "tx_id is required")
  else runTx (λ tc, (TxCoordinator.GetTxStatus txID tc, tc))
             (λ st, ok (TxOutcome (TxCoordinator.status_string st) txID))).
End server.
End NameServer.
