(* ===== verification/Rebalance.v ===== *)
(** * Rebalancing a consumer group

    The assignment loops of [doRebalance] deal the partitions out in
    consecutive runs.  The theorem of this file is that the runs are an even
    division of the topic: every partition has exactly one member, and the
    members' shares differ by at most one. *)

From Stdlib Require Import ZArith Lia.
From stdpp Require Import base tactics list gmap strings fin_maps.
From S2P Require Import Prelude GoLib NameServer.

Open Scope Z_scope.

Module Rebalance.

Import NameServer.

(** ** What a good assignment is *)

(** [c] is responsible for [p]. *)
Definition assigned (members : gmap string MemberMeta) (c : string) (p : Z) : Prop :=
  ∃ m, members !! c = Some m ∧ Assignments m !! p = Some true.

Record balanced (g : ConsumerGroup) : Prop := {
  bal_one : ∀ p, p ∈ cg_Partitions g → exists! c, assigned (Members g) c p;
  bal_own : ∀ c m p b, Members g !! c = Some m → Assignments m !! p = Some b → p ∈ cg_Partitions g;
  bal_even : ∀ c m, Members g !! c = Some m →
    (length (cg_Partitions g) / size (Members g) ≤ size (Assignments m)
       ≤ S (length (cg_Partitions g) / size (Members g)))%nat;
}.

(** ** Runs of partitions *)

(** Marks the partitions [ps] in a table of assignments. *)
Definition give (ps : list Z) (a : gmap Z bool) : gmap Z bool := foldl (λ a p, <[p := true]> a) a ps.

Definition giveTo (ps : list Z) (m : MemberMeta) : MemberMeta := m <| Assignments ::= give ps |>.

Lemma give_lookup ps a p : give ps a !! p = if decide (p ∈ ps) then Some true else a !! p.
Proof.
  revert a. induction ps as [|q ps IH]; intros a; [done|].
  change (give (q :: ps) a) with (give ps (<[q := true]> a)). rewrite IH.
  destruct (decide (p ∈ ps)); [by rewrite decide_True by set_solver|].
  destruct (decide (p = q)) as [->|]; [by rewrite lookup_insert_eq, decide_True by set_solver|].
  by rewrite lookup_insert_ne, decide_False by set_solver.
Qed.

Lemma give_size ps : NoDup ps → size (give ps ∅) = length ps.
Proof.
  cut (∀ a, NoDup ps → (∀ p, p ∈ ps → a !! p = None) → size (give ps a) = (size a + length ps)%nat).
  { intros H Hnd. rewrite H by (done || intros; apply lookup_empty). by rewrite map_size_empty. }
  induction ps as [|p ps IH]; intros a Hnd Ha; simpl; [lia|]. apply NoDup_cons in Hnd as [Hp Hnd].
  change (foldl _ _ ps) with (give ps (<[p := true]> a)). rewrite IH; [|done|].
  - rewrite map_size_insert_None by (apply Ha; constructor). lia.
  - intros q Hq. rewrite lookup_insert_ne by (intros ->; done). apply Ha. by constructor.
Qed.

Lemma giveTo_app ps1 ps2 m : giveTo (ps1 ++ ps2) m = giveTo ps2 (giveTo ps1 m).
Proof. unfold giveTo, give. simpl. by rewrite foldl_app. Qed.

(** The inner loop gives the member the next [count] partitions. *)
Lemma assignTo_spec c ps count idx ms :
  assignTo c ps count idx ms =
    ((idx + length (take count (drop idx ps)))%nat, alter (giveTo (take count (drop idx ps))) c ms).
Proof.
  revert idx ms. induction count as [|count IH]; intros idx ms; simpl.
  { f_equal; [lia|]. symmetry. apply alter_id. by intros []. }
  destruct (ps !! idx) as [p|] eqn:Hp.
  - rewrite IH, (drop_S _ _ _ Hp). simpl. f_equal; [lia|].
    rewrite alter_alter_eq. apply alter_ext. intros m _. unfold giveTo. by destruct m.
  - rewrite drop_ge by (by apply lookup_ge_None). simpl. f_equal; [lia|].
    symmetry. apply alter_id. by intros [].
Qed.

(** The runs the outer loop deals out, from member number [i]. *)
Fixpoint runs (q r i : nat) (ids : list string) (ps : list Z) : list (string * list Z) :=
  match ids with
  | [] => []
  | id :: ids' =>
      let count := if (i <? r)%nat then S q else q in
      (id, take count ps) :: runs q r (S i) ids' (drop count ps)
  end.

Definition deal (l : list (string * list Z)) (ms : gmap string MemberMeta) : gmap string MemberMeta :=
  foldl (λ ms '(id, run), alter (giveTo run) id ms) ms l.

Lemma assignAll_deal ps q r i idx ids ms :
  assignAll ps q r i idx ids ms = deal (runs q r i ids (drop idx ps)) ms.
Proof.
  revert i idx ms. induction ids as [|id ids IH]; intros i idx ms; [done|]. simpl.
  rewrite assignTo_spec, IH. unfold deal. simpl. f_equal. f_equal.
  rewrite <- drop_drop, length_take. set (count := if (i <? r)%nat then S q else q).
  destruct (decide (count ≤ length (drop idx ps))%nat); [by rewrite Nat.min_l|].
  rewrite Nat.min_r by lia. by rewrite !drop_ge by lia.
Qed.

Lemma runs_ids q r i ids ps : (runs q r i ids ps).*1 = ids.
Proof. revert i ps. induction ids; intros; simpl; f_equal; auto. Qed.

(** When the counts add up to the number of partitions, the runs are the
    whole list, each of size [q] or [q + 1]. *)
Lemma runs_all q r i ids ps :
  (r - i ≤ length ids)%nat → length ps = (length ids * q + (r - i))%nat →
  concat (runs q r i ids ps).*2 = ps ∧
  ∀ id run, (id, run) ∈ runs q r i ids ps → (q ≤ length run ≤ S q)%nat.
Proof.
  revert i ps. induction ids as [|id ids IH]; intros i ps Hr Hlen; simpl in *.
  { split; [|set_solver]. destruct ps; simpl in *; [done|lia]. }
  set (count := if (i <? r)%nat then S q else q) in *.
  assert (count ≤ length ps ∧ q ≤ count ≤ S q ∧
          length ps - count = length ids * q + (r - S i) ∧ r - S i ≤ length ids)%nat as (? & ? & ? & ?)
    by (subst count; destruct (i <? r)%nat eqn:E; [apply Nat.ltb_lt in E|apply Nat.ltb_ge in E]; lia).
  destruct (IH (S i) (drop count ps)) as [Hc Hl]; [done|by rewrite length_drop|]. split.
  - trans (take count ps ++ drop count ps); [by f_equal|apply take_drop].
  - intros id' run [[= -> ->]|Hin]%elem_of_cons; [rewrite length_take; lia|by eapply Hl].
Qed.

Lemma deal_other l ms c : c ∉ l.*1 → deal l ms !! c = ms !! c.
Proof.
  unfold deal. revert ms. induction l as [|[id run] l IH]; intros ms Hc; [done|]. simpl in *.
  rewrite IH by set_solver. apply lookup_alter_ne. set_solver.
Qed.

Lemma deal_lookup l ms c run :
  NoDup l.*1 → (c, run) ∈ l → deal l ms !! c = giveTo run <$> ms !! c.
Proof.
  revert ms. induction l as [|[id run'] l IH]; intros ms Hnd Hin; [set_solver|].
  apply NoDup_cons in Hnd as [Hid Hnd].
  change (deal ((id, run') :: l) ms) with (deal l (alter (giveTo run') id ms)).
  apply elem_of_cons in Hin as [[= -> ->]|Hin].
  - by rewrite deal_other, lookup_alter_eq.
  - rewrite (IH _ Hnd Hin). rewrite lookup_alter_ne; [done|].
    intros ->. apply Hid. apply list_elem_of_fmap. by exists (c, run).
Qed.

(** A partition is in one run only. *)
Lemma run_unique (l : list (string * list Z)) c1 c2 r1 r2 p :
  NoDup (concat l.*2) → (c1, r1) ∈ l → (c2, r2) ∈ l → p ∈ r1 → p ∈ r2 → c1 = c2.
Proof.
  induction l as [|[c r] l IH]; simpl; [set_solver|]. intros (Hr & Hdis & Hl)%NoDup_app H1 H2 Hp1 Hp2.
  assert (∀ c' r', (c', r') ∈ l → p ∈ r' → p ∈ concat l.*2) as Hin.
  { intros c' r' ? ?. apply list_elem_of_In, in_concat. exists r'. rewrite <- !list_elem_of_In.
    split; [|done]. apply list_elem_of_fmap. by exists (c', r'). }
  apply elem_of_cons in H1 as [[= -> ->]|H1], H2 as [[= ? ?]|H2]; subst; [done| | |eauto].
  - destruct (Hdis p); eauto.
  - destruct (Hdis p); eauto.
Qed.

Lemma run_of (l : list (string * list Z)) p : p ∈ concat l.*2 → ∃ c r, (c, r) ∈ l ∧ p ∈ r.
Proof.
  intros Hp. apply list_elem_of_In, in_concat in Hp as (r & Hr & Hp).
  apply list_elem_of_In, list_elem_of_fmap in Hr as ([c r'] & -> & ?). apply list_elem_of_In in Hp. eauto.
Qed.

(** ** Sorted keys *)

Lemma sortedNames_perm {V} (m : gmap string V) l : iter_order m l → Sort.Strings l.*1 = sortedNames m.
Proof. intros Hl. apply Sort.Strings_canonical. by rewrite Hl. Qed.

Lemma sortedIDs_perm {V} (m : gmap Z V) l : iter_order m l → Sort.Ints l.*1 = sortedIDs m.
Proof. intros Hl. apply Sort.Ints_canonical. by rewrite Hl. Qed.

Lemma sortedNames_NoDup {V} (m : gmap string V) : NoDup (sortedNames m).
Proof. unfold sortedNames. rewrite Sort.Strings_perm. apply NoDup_fst_map_to_list. Qed.

Lemma sortedNames_length {V} (m : gmap string V) : length (sortedNames m) = size m.
Proof. unfold sortedNames. by rewrite Sort.Strings_perm, length_fmap, length_map_to_list. Qed.

Lemma elem_of_sortedNames {V} (m : gmap string V) c : c ∈ sortedNames m ↔ is_Some (m !! c).
Proof.
  unfold sortedNames. rewrite Sort.Strings_perm, list_elem_of_fmap. split.
  - intros ([? v] & -> & ?%elem_of_map_to_list). eauto.
  - intros [v ?]. exists (c, v). by rewrite elem_of_map_to_list.
Qed.

Lemma sortedIDs_NoDup {V} (m : gmap Z V) : NoDup (sortedIDs m).
Proof. unfold sortedIDs. rewrite Sort.Ints_perm. apply NoDup_fst_map_to_list. Qed.

Lemma elem_of_sortedIDs {V} (m : gmap Z V) p : p ∈ sortedIDs m ↔ is_Some (m !! p).
Proof.
  unfold sortedIDs. rewrite Sort.Ints_perm, list_elem_of_fmap. split.
  - intros ([? v] & -> & ?%elem_of_map_to_list). eauto.
  - intros [v ?]. exists (p, v). by rewrite elem_of_map_to_list.
Qed.

(** ** The whole rebalance *)

Definition groupRuns (g : ConsumerGroup) : list (string * list Z) :=
  let ids := sortedNames (Members g) in
  runs (length (cg_Partitions g) / length ids) (length (cg_Partitions g) mod length ids) 0 ids (cg_Partitions g).

Lemma rebalance_members g :
  Members g ≠ ∅ →
  Members (rebalance g) = deal (groupRuns g) ((λ m, m <| Assignments := ∅ |>) <$> Members g).
Proof.
  intros Hne. unfold rebalance. rewrite (proj2 (Nat.eqb_neq _ _)).
  - simpl. by rewrite assignAll_deal.
  - rewrite sortedNames_length. by apply map_size_non_empty_iff.
Qed.

Lemma groupRuns_ids g : (groupRuns g).*1 = sortedNames (Members g).
Proof. apply runs_ids. Qed.

Lemma groupRuns_all g :
  Members g ≠ ∅ →
  concat (groupRuns g).*2 = cg_Partitions g ∧
  ∀ id run, (id, run) ∈ groupRuns g →
    (length (cg_Partitions g) / size (Members g) ≤ length run
       ≤ S (length (cg_Partitions g) / size (Members g)))%nat.
Proof.
  intros Hne. unfold groupRuns. rewrite sortedNames_length.
  assert (size (Members g) ≠ 0)%nat by (by apply map_size_non_empty_iff).
  apply runs_all; rewrite sortedNames_length, Nat.sub_0_r.
  - pose proof (Nat.mod_upper_bound (length (cg_Partitions g)) (size (Members g))). lia.
  - by apply Nat.div_mod.
Qed.

Lemma rebalance_lookup g c :
  Members g ≠ ∅ → match Members g !! c with
    | Some m => ∃ run, (c, run) ∈ groupRuns g ∧
        Members (rebalance g) !! c = Some (m <| Assignments := give run ∅ |>)
    | None => Members (rebalance g) !! c = None
    end.
Proof.
  intros Hne. rewrite rebalance_members by done. destruct (Members g !! c) as [m|] eqn:Hc.
  - assert (c ∈ (groupRuns g).*1) as Hin.
    { rewrite groupRuns_ids. apply elem_of_sortedNames. eauto. }
    apply list_elem_of_fmap in Hin as ([c' run] & -> & Hin). exists run. split; [done|].
    rewrite (deal_lookup _ _ _ run); [by rewrite lookup_fmap, Hc| |done].
    rewrite groupRuns_ids. apply sortedNames_NoDup.
  - rewrite deal_other; [by rewrite lookup_fmap, Hc|].
    rewrite groupRuns_ids, elem_of_sortedNames, Hc. by intros [].
Qed.

Lemma rebalance_dom g : dom (Members (rebalance g)) = dom (Members g).
Proof.
  destruct (decide (Members g = ∅)) as [He|Hne].
  { unfold rebalance. rewrite (proj2 (Nat.eqb_eq _ _)); [done|]. by rewrite sortedNames_length, He, map_size_empty. }
  apply set_eq. intros c. rewrite !elem_of_dom. pose proof (rebalance_lookup g c Hne).
  destruct (Members g !! c); [destruct H as (? & _ & ->)|rewrite H]; split; eauto; by intros [].
Qed.

Lemma rebalance_frame g :
  cg_Partitions (rebalance g) = cg_Partitions g ∧ cg_Topic (rebalance g) = cg_Topic g ∧
  GroupID (rebalance g) = GroupID g.
Proof. unfold rebalance. case_match; done. Qed.

Lemma rebalance_size g : size (Members (rebalance g)) = size (Members g).
Proof. by rewrite <- !size_dom, rebalance_dom. Qed.

Lemma assigned_run g c p :
  Members g ≠ ∅ → assigned (Members (rebalance g)) c p ↔ ∃ run, (c, run) ∈ groupRuns g ∧ p ∈ run.
Proof.
  intros Hne. unfold assigned. pose proof (rebalance_lookup g c Hne) as Hl.
  assert (NoDup (groupRuns g).*1) as Hnd by (rewrite groupRuns_ids; apply sortedNames_NoDup).
  assert (∀ run, (c, run) ∈ groupRuns g → is_Some (Members g !! c)) as Hmem.
  { intros run Hin. apply elem_of_sortedNames. rewrite <- groupRuns_ids.
    apply list_elem_of_fmap. by exists (c, run). }
  destruct (Members g !! c) as [m|] eqn:Hc.
  - destruct Hl as (run & Hin & ->). split.
    + intros (m' & [= <-] & Hp). simpl in Hp. rewrite give_lookup in Hp. case_decide; [eauto|done].
    + intros (run' & Hin' & Hp). eexists. split; [done|]. simpl. rewrite give_lookup, decide_True; [done|].
      pose proof (NoDup_fst_inj _ _ _ _ Hnd Hin Hin') as ->. done.
  - rewrite Hl. split; [by intros (? & ? & _)|]. intros (run & Hin & _). by destruct (Hmem _ Hin).
Qed.

Lemma rebalance_balanced g : Members g ≠ ∅ → NoDup (cg_Partitions g) → balanced (rebalance g).
Proof.
  intros Hne Hnd. destruct (groupRuns_all g Hne) as [Hall Hlen].
  destruct (rebalance_frame g) as (HP & _ & _).
  assert (∀ c m, Members (rebalance g) !! c = Some m →
    ∃ run, (c, run) ∈ groupRuns g ∧ Assignments m = give run ∅) as Hrun.
  { intros c m Hm. pose proof (rebalance_lookup g c Hne) as Hl. destruct (Members g !! c); [|congruence].
    destruct Hl as (run & Hin & E). rewrite E in Hm. injection Hm as <-. eauto. }
  split; rewrite HP.
  - intros p Hp. rewrite <- Hall in Hp. destruct (run_of _ _ Hp) as (c & run & Hin & Hr).
    exists c. split; [apply assigned_run; eauto|]. intros c' (run' & Hin' & Hr')%assigned_run; [|done].
    eapply run_unique; [by rewrite Hall|..]; eauto.
  - intros c m p b Hm Hp. destruct (Hrun _ _ Hm) as (run & Hin & E). rewrite E, give_lookup in Hp.
    case_decide as Hp'; [|by rewrite lookup_empty in Hp]. rewrite <- Hall.
    apply list_elem_of_In, in_concat. exists run. rewrite <- !list_elem_of_In. split; [|done].
    apply list_elem_of_fmap. by exists (c, run).
  - intros c m Hm. destruct (Hrun _ _ Hm) as (run & Hin & ->). rewrite rebalance_size, give_size.
    + by eapply Hlen.
    + apply list_elem_of_fmap_2 with (f := snd) in Hin. simpl in Hin. rewrite <- Hall in Hnd.
      clear -Hnd Hin. induction (groupRuns g).*2 as [|r l IH]; [set_solver|]. simpl in Hnd.
      apply NoDup_app in Hnd as (? & _ & ?). apply elem_of_cons in Hin as [->|]; auto.
Qed.
End Rebalance.
