(* ===== verification/NameServerProps.v ===== *)
(** * The name server: correctness

    The invariant of every state the server can reach, and what the
    handlers promise: balanced consumer groups, replica placement, routing,
    registration, the heartbeat checker, and offsets through the HTTP
    interface. *)

From Stdlib Require Import ZArith Lia Strings.Byte.
From stdpp Require Import base tactics list gmap strings fin_maps.
From S2P Require Import Prelude GoLib TxCoordinator OffsetStore NameServer Rebalance.

Open Scope Z_scope.

Module NameServerProps.

Import NameServer Rebalance Int.

(** Runs a handler symbolically, one case per branch. *)
Ltac handler_step :=
  lazymatch goal with
  | |- wp (_ ≫= _) _ _ _ _ => apply wp_bind
  | |- wp (mret _) _ _ _ _ => apply wp_ret
  | |- wp get _ _ _ _ => apply wp_gets
  | |- wp (gets _) _ _ _ _ => apply wp_gets
  | |- wp (modify _) _ _ _ _ => apply wp_modify
  | |- wp (of_option _) _ _ _ _ => apply wp_of_option; intros
  | |- wp (match ?x with _ => _ end) _ _ _ _ => destruct x eqn:?
  end; cbv beta.
Ltac handler_run := unfold parsed; cbv zeta; repeat (handler_step; cbv zeta).

Section server.
Context {DB : Type} `{bolt : !OffsetStore.BoltDB DB}.
Notation server := (NameServer DB).
Implicit Types n : server.

(** ** The invariant *)

(** Partitions are numbered from 0, each with at most three replicas, led
    by the first, all in sync. *)
Record topic_ok (t : string) (ti : TopicInfo) : Prop := {
  to_name : ti_Topic ti = t;
  to_nonempty : (0 < size (Partitions ti))%nat;
  to_range : ∀ i, is_Some (Partitions ti !! i) ↔ 0 ≤ i < Z.of_nat (size (Partitions ti));
  to_part : ∀ i p, Partitions ti !! i = Some p →
    PartitionID p = i ∧ head (Replicas p) = Some (Leader p) ∧ ISR p = Replicas p ∧
    (1 ≤ length (Replicas p) ≤ 3)%nat;
}.

(** A group consumes all partitions of an existing topic, has a member, and
    divides the partitions evenly. *)
Record group_ok (ts : gmap string TopicInfo) (gid : string) (g : ConsumerGroup) : Prop := {
  go_id : GroupID g = gid;
  go_topic : ∃ ti, ts !! cg_Topic g = Some ti ∧ cg_Partitions g = sortedIDs (Partitions ti);
  go_members : Members g ≠ ∅;
  go_balanced : balanced g;
}.

Record inv n : Prop := {
  inv_topic : ∀ t ti, topics n !! t = Some ti → topic_ok t ti;
  inv_group : ∀ gid g, consumerGroups n !! gid = Some g → group_ok (topics n) gid g;
  inv_broker : ∀ id b, brokers n !! id = Some b → BrokerID b = id;
  inv_address : ∀ i1 b1 i2 b2, brokers n !! i1 = Some b1 → brokers n !! i2 = Some b2 →
    Address b1 = Address b2 → i1 = i2;
}.

Lemma inv_NewNameServer offsets txFile : inv (NewNameServer offsets txFile).
Proof. split; simpl; intros; try done; by simplify_map_eq. Qed.

(** ** Topics *)

Lemma replicasFor_ok bs ids i :
  (∀ id, id ∈ ids → is_Some (bs !! id)) → 0 ≤ i → ids ≠ [] →
  ∃ rs, replicasFor bs ids i = Some rs ∧ length rs = min 3 (length ids) ∧
    ∀ j r, rs !! j = Some r → ∃ id b,
      ids !! Z.to_nat ((i + Z.of_nat j) mod Z.of_nat (length ids)) = Some id ∧
      bs !! id = Some b ∧ r = ClientAddr b.
Proof.
  intros Hids Hi Hne. unfold replicasFor.
  assert (0 < length ids)%nat by (destruct ids; simpl; [done|lia]).
  set (f := replicaAt bs ids i).
  assert (∀ j, ∃ id b, ids !! Z.to_nat ((i + Z.of_nat j) mod Z.of_nat (length ids)) = Some id ∧
    bs !! id = Some b ∧ f j = Some (ClientAddr b)) as Hf.
  { intros j. pose proof (Z.mod_pos_bound (i + Z.of_nat j) (Z.of_nat (length ids))).
    destruct (lookup_lt_is_Some_2 ids (Z.to_nat ((i + Z.of_nat j) mod Z.of_nat (length ids)))) as [id Hid]; [lia|].
    destruct (Hids id) as [b Hb]; [by eapply list_elem_of_lookup_2|].
    exists id, b. split_and!; [done..|]. unfold f, replicaAt. rewrite Z.rem_mod_nonneg by lia. by rewrite Hid; simpl; rewrite Hb. }
  destruct (mapM_is_Some_2 f (seq 0 (min 3 (length ids)))) as [rs Hrs].
  { apply Forall_forall. intros j _. destruct (Hf j) as (id & b & _ & _ & E). by exists (ClientAddr b). }
  exists rs. split_and!; [done| |].
  - apply length_mapM in Hrs. by rewrite <- Hrs, length_seq.
  - intros j r Hr. apply mapM_Some_1 in Hrs.
    destruct (Forall2_lookup_r _ _ _ _ _ Hrs Hr) as (j' & [-> _]%lookup_seq & Hj). simpl in Hj.
    destruct (Hf j) as (id & b & ? & ? & E). exists id, b. split_and!; [done..|]. congruence.
Qed.

(** The partition [newPartitions] puts at index [i]. *)
Definition partition_at (bs : gmap Z BrokerInfo) (ids : list Z) (i : Z) (p : PartitionInfo) : Prop :=
  PartitionID p = i ∧ head (Replicas p) = Some (Leader p) ∧ ISR p = Replicas p ∧
  length (Replicas p) = min 3 (length ids) ∧
  ∀ j r, Replicas p !! j = Some r → ∃ id b,
    ids !! Z.to_nat ((i + Z.of_nat j) mod Z.of_nat (length ids)) = Some id ∧
    bs !! id = Some b ∧ r = ClientAddr b.

Lemma newPartition_ok bs ids i :
  (∀ id, id ∈ ids → is_Some (bs !! id)) → 0 ≤ i → ids ≠ [] →
  ∃ p, newPartition bs ids i = Some p ∧ partition_at bs ids i p.
Proof.
  intros Hids Hi Hne. destruct (replicasFor_ok bs ids i Hids Hi Hne) as (rs & Hrs & Hlen & Hl).
  unfold newPartition. rewrite Hrs. simpl. destruct rs as [|r rs].
  { destruct ids; [done|simpl in Hlen; lia]. }
  simpl. eexists. split; [done|]. by split_and!.
Qed.

Lemma newPartitions_ok bs ids count i acc :
  (∀ id, id ∈ ids → is_Some (bs !! id)) → 0 ≤ i → ids ≠ [] →
  (∀ k, is_Some (acc !! k) → 0 ≤ k < i) →
  ∃ ps, newPartitions bs ids i count acc = Some ps ∧
    (size ps = size acc + count)%nat ∧
    ∀ k, (i ≤ k < i + Z.of_nat count → ∃ p, ps !! k = Some p ∧ partition_at bs ids k p) ∧
         (¬ i ≤ k < i + Z.of_nat count → ps !! k = acc !! k).
Proof.
  intros Hids Hi Hne. revert i acc Hi. induction count as [|count IH]; intros i acc Hi Hacc; simpl.
  { exists acc. split_and!; [done|lia|]. intros k. split; [lia|done]. }
  destruct (newPartition_ok bs ids i Hids Hi Hne) as (p & -> & Hp). simpl.
  destruct (IH (i + 1) (<[i := p]> acc)) as (ps & Hps & Hsz & Hk); [lia| |].
  { intros k Hk. destruct (decide (k = i)) as [->|]; [lia|].
    rewrite lookup_insert_ne in Hk by done. apply Hacc in Hk. lia. }
  exists ps. split_and!; [done| |].
  - rewrite Hsz, map_size_insert_None; [lia|]. destruct (acc !! i) eqn:E; [|done].
    specialize (Hacc i ltac:(eauto)). lia.
  - intros k. destruct (Hk k) as [Hin Hout]. split.
    + intros ?. destruct (decide (k = i)) as [->|]; [|apply Hin; lia].
      exists p. rewrite Hout by lia. by rewrite lookup_insert_eq.
    + intros ?. rewrite Hout by lia. apply lookup_insert_ne. lia.
Qed.

Lemma available_known now order n :
  iter_order (brokers n) order → ∀ id, id ∈ getAvailableBrokers now order → is_Some (brokers n !! id).
Proof.
  intros Hord id. unfold getAvailableBrokers.
  intros ([id' b] & -> & [_ Hin]%list_elem_of_filter)%list_elem_of_fmap.
  apply (iter_order_elem _ _ _ _ Hord) in Hin. eauto.
Qed.

Lemma created_topic_ok bs ids count t ps :
  ids ≠ [] → (0 < count)%nat → (size ps = count)%nat →
  (∀ k, (0 ≤ k < Z.of_nat count → ∃ p, ps !! k = Some p ∧ partition_at bs ids k p) ∧
        (¬ 0 ≤ k < Z.of_nat count → ps !! k = None)) →
  topic_ok t (mkTopicInfo t ps).
Proof.
  intros Hne Hc Hsz Hk. split; simpl; [done|lia| |]; rewrite ?Hsz.
  - intros i. split.
    + intros Hs. destruct (decide (0 ≤ i < Z.of_nat count)); [done|].
      rewrite (proj2 (Hk i)) in Hs by done. by destruct Hs.
    + intros Hi. destruct (proj1 (Hk i) Hi) as (p & -> & _). eauto.
  - intros i p Hp. destruct (decide (0 ≤ i < Z.of_nat count)) as [Hi|Hi].
    + destruct (proj1 (Hk i) Hi) as (p' & Hp' & ? & ? & ? & Hl & _). simplify_eq.
      assert (length ids ≠ 0)%nat by (by destruct ids). split_and!; [done..|lia|lia].
    + rewrite (proj2 (Hk i)) in Hp by done. done.
Qed.

(** ** Groups *)

Lemma balanced_ext g g' :
  cg_Partitions g' = cg_Partitions g → Assignments <$> Members g' = Assignments <$> Members g →
  balanced g → balanced g'.
Proof.
  intros HP HA [H1 H2 H3].
  assert (∀ c m', Members g' !! c = Some m' → ∃ m, Members g !! c = Some m ∧ Assignments m = Assignments m') as Hto.
  { intros c m' Hm. assert ((Assignments <$> Members g) !! c = Some (Assignments m')) as E.
    { rewrite <- HA, lookup_fmap, Hm. done. }
    rewrite lookup_fmap in E. destruct (Members g !! c) as [m|]; simplify_eq/=. eauto. }
  assert (∀ c p, assigned (Members g') c p ↔ assigned (Members g) c p) as Hass.
  { intros c p. unfold assigned. transitivity (∃ a, (Assignments <$> Members g') !! c = Some a ∧ a !! p = Some true).
    - setoid_rewrite lookup_fmap_Some. naive_solver.
    - rewrite HA. setoid_rewrite lookup_fmap_Some. naive_solver. }
  assert (size (Members g') = size (Members g)) as Hsz by (by rewrite <- (map_size_fmap Assignments), HA, map_size_fmap).
  split; rewrite ?HP, ?Hsz.
  - intros p Hp. destruct (H1 p Hp) as (c & Hc & Hu). exists c. split; [by apply Hass|].
    intros c' Hc'. apply Hu. by apply Hass.
  - intros c m' p b Hm Hp. destruct (Hto c m' Hm) as (m & Hm' & E). eapply H2; [done|]. by rewrite E.
  - intros c m' Hm. destruct (Hto c m' Hm) as (m & Hm' & <-). by eapply H3.
Qed.

Lemma rebalanced_ok ts gid g :
  GroupID g = gid → (∃ ti, ts !! cg_Topic g = Some ti ∧ cg_Partitions g = sortedIDs (Partitions ti)) →
  Members g ≠ ∅ → group_ok ts gid (rebalance g).
Proof.
  intros Hid (ti & Hti & HP) Hne. destruct (rebalance_frame g) as (E1 & E2 & E3). split.
  - congruence.
  - exists ti. by rewrite E1, E2.
  - apply map_size_non_empty_iff. rewrite rebalance_size. by apply map_size_non_empty_iff.
  - apply rebalance_balanced; [done|]. rewrite HP. apply sortedIDs_NoDup.
Qed.

Lemma doRebalance_insert gid g n :
  doRebalance gid (n <| consumerGroups ::= <[gid := g]> |>) = n <| consumerGroups ::= <[gid := rebalance g]> |>.
Proof.
  unfold doRebalance. simpl. rewrite lookup_insert_eq. simpl. by rewrite insert_insert_eq.
Qed.

Lemma inv_same n n' :
  topics n' = topics n → brokers n' = brokers n → consumerGroups n' = consumerGroups n → nextID n' = nextID n →
  inv n → inv n'.
Proof. intros E1 E2 E3 E4 []. split; rewrite ?E1, ?E2, ?E3, ?E4; auto. Qed.

Lemma inv_set_group gid g n :
  inv n → group_ok (topics n) gid g → inv (n <| consumerGroups ::= <[gid := g]> |>).
Proof.
  intros [] Hg. split; simpl; auto. intros gid' g' [[<- <-]|[_ ?]]%lookup_insert_Some; auto.
Qed.

Lemma inv_delete_group gid n : inv n → inv (n <| consumerGroups ::= delete gid |>).
Proof. intros []. split; simpl; auto. intros gid' g' [_ ?]%lookup_delete_Some; auto. Qed.

Lemma inv_set_topic t ti n :
  inv n → topics n !! t = None → topic_ok t ti → inv (n <| topics ::= <[t := ti]> |>).
Proof.
  intros [] Ht Hti. split; simpl; auto.
  - intros t' ti' [[<- <-]|[_ ?]]%lookup_insert_Some; auto.
  - intros gid g Hg. destruct (inv_group0 _ _ Hg) as [? (ti' & ? & ?) ? ?]. split; [done| |done..].
    exists ti'. split; [|done]. rewrite lookup_insert_ne; [done|]. intros ->. congruence.
Qed.

(** Removing members as a function of the group alone. *)
Definition withoutMembers (clients : list string) (g : ConsumerGroup) : option ConsumerGroup :=
  let members := foldl (λ m c, delete c m) (Members g) clients in
  if (size members =? 0)%nat then None else Some (rebalance (g <| Members := members |>)).

Lemma removeMembers_lookup gid clients n gid' :
  consumerGroups (removeMembers gid clients n) !! gid' =
    if decide (gid' = gid) then consumerGroups n !! gid ≫= withoutMembers clients else consumerGroups n !! gid'.
Proof.
  unfold removeMembers. destruct (consumerGroups n !! gid) as [g|] eqn:Hg.
  - change (Some g ≫= withoutMembers clients) with (withoutMembers clients g). unfold withoutMembers. cbv zeta.
    destruct (size _ =? 0)%nat.
    + simpl. case_decide; subst; [apply lookup_delete_eq|by apply lookup_delete_ne].
    + rewrite doRebalance_insert. simpl. case_decide; subst; [apply lookup_insert_eq|by apply lookup_insert_ne].
  - case_decide; by subst.
Qed.

Lemma removeMembers_inv gid clients n : inv n → inv (removeMembers gid clients n).
Proof.
  intros Hinv. unfold removeMembers. destruct (consumerGroups n !! gid) as [g|] eqn:Hg; [|done].
  destruct (size _ =? 0)%nat eqn:E; [by apply inv_delete_group|]. rewrite doRebalance_insert.
  apply inv_set_group; [done|]. destruct (inv_group _ Hinv _ _ Hg).
  apply rebalanced_ok; [done..|]. simpl. apply map_size_non_empty_iff. by apply Nat.eqb_neq.
Qed.

(** ** Every operation preserves the invariant *)

Definition keeps (m : prog server Response) n : Prop := inv n → inv (final (m n)).

Lemma keeps_wp m n : (inv n → wp m (λ _, inv) inv inv n) → keeps m n.
Proof. intros H Hn. specialize (H Hn). unfold wp in H. by destruct (m n). Qed.

Lemma handleRegister_keeps now order r n :
  iter_order (brokers n) order → keeps (handleRegister now order r) n.
Proof.
  intros Hord. apply keeps_wp. intros Hn. unfold handleRegister. handler_run; try done.
  - match goal with H : find _ _ = Some _ |- _ => apply find_some in H as [Hin Haddr] end.
    apply list_elem_of_In, (iter_order_elem _ _ _ _ Hord) in Hin. bool_to_prop.
    destruct Hn as [? ? Hb Ha]. split; simpl; auto.
    + intros id b' [[<- <-]|[_ ?]]%lookup_insert_Some; [|auto]. simpl. by apply Hb.
    + intros i1 b1 i2 b2 [[<- <-]|[Hne1 H1]]%lookup_insert_Some [[<- <-]|[Hne2 H2]]%lookup_insert_Some Heq;
        simpl in Heq; eauto.
  - match goal with H : find _ _ = None |- _ => pose proof (find_none _ _ H) as Hno end.
    assert (∀ id b, brokers n !! id = Some b → Address b ≠ FormGet r "addr") as Hfresh.
    { intros id b Hb%(iter_order_elem _ _ _ _ Hord)%list_elem_of_In Hab. specialize (Hno _ Hb). simpl in Hno.
      by bool_to_prop. }
    destruct Hn as [? ? Hb Ha]. split; simpl; auto.
    + intros id b' [[<- <-]|[_ ?]]%lookup_insert_Some; simpl; auto.
    + intros i1 b1 i2 b2 [[<- <-]|[Hne1 H1]]%lookup_insert_Some [[<- <-]|[Hne2 H2]]%lookup_insert_Some Heq;
        simpl in Heq; eauto; [by destruct (Hfresh _ _ H2)|by destruct (Hfresh _ _ H1)].
Qed.

(** What a successful creation does; the response and the new topic. *)
Lemma handleCreateTopic_wp now order r n :
  iter_order (brokers n) order → inv n →
  wp (handleCreateTopic now order r)
    (λ resp n', n' = n ∨ ∃ t partitions ps,
      FormGet r "topic" = t ∧ topics n !! t = None ∧ resp = ok (TopicCreated t partitions) ∧ 1 ≤ partitions ∧
      n' = n <| topics ::= <[t := mkTopicInfo t ps]> |> ∧ size ps = Z.to_nat partitions ∧
      topic_ok t (mkTopicInfo t ps))
    (λ _, False) (λ _, False) n.
Proof.
  intros Hord Hn. unfold handleCreateTopic. handler_run; try (by left).
  all: match goal with
    | E : (length ?l =? 0)%nat = false, E' : (?z <? 1) = false |- _ =>
      assert (l ≠ []) as Hne by (apply Nat.eqb_neq in E; by destruct l);
      destruct (newPartitions_ok (brokers n) l (Z.to_nat z) 0 ∅) as (ps & Hps & Hsz & Hk);
        [by apply available_known|done|done|by intros k [? ?%lookup_empty_Some]|]; bool_to_prop
    end.
  2: congruence.
  right. simplify_eq. do 3 eexists. split_and!; try done.
  rewrite map_size_empty in Hsz. simpl in Hsz.
  eapply created_topic_ok; [exact Hne| |exact Hsz|].
  - lia.
  - intros k. destruct (Hk k) as [? Hout]. split; [done|]. intros ?. rewrite Hout by done. apply lookup_empty.
Qed.

Lemma handleCreateTopic_keeps now order r n :
  iter_order (brokers n) order → keeps (handleCreateTopic now order r) n.
Proof.
  intros Hord. apply keeps_wp. intros Hn. eapply wp_mono; [by apply handleCreateTopic_wp| |done..].
  intros resp n' [->|(t & z & ps & _ & Ht & _ & _ & -> & _ & Hok)]; [done|]. by apply inv_set_topic.
Qed.

Lemma groupFor_ok gid t n g :
  inv n → groupFor gid t n = Some g →
  GroupID g = gid ∧ (∃ ti, topics n !! cg_Topic g = Some ti ∧ cg_Partitions g = sortedIDs (Partitions ti)) ∧
  (consumerGroups n !! gid = Some g ∨ cg_Topic g = t).
Proof.
  intros Hn. unfold groupFor. destruct (consumerGroups n !! gid) as [g'|] eqn:Hg.
  - intros [= <-]. destruct (inv_group _ Hn _ _ Hg). split_and!; auto.
  - intros (ti & Hti & [= <-])%bind_Some. simpl. split_and!; eauto.
Qed.

Lemma set_same_group gid g n :
  consumerGroups n !! gid = Some g → n <| consumerGroups ::= <[gid := g]> |> = n.
Proof. intros Hg. destruct n; simpl in *. by rewrite insert_id. Qed.

Lemma joinMember_self now c ms : ∃ m, joinMember now c ms !! c = Some m ∧ Heartbeat m = now.
Proof. unfold joinMember. destruct (ms !! c); rewrite lookup_insert_eq; eauto. Qed.

Lemma joinMember_nonempty now c ms : joinMember now c ms ≠ ∅.
Proof.
  destruct (joinMember_self now c ms) as (m & Hm & _). intros E. rewrite E in Hm. by apply lookup_empty_Some in Hm.
Qed.

(** The member that just joined, after the rebalance. *)
Lemma joined_member now c g :
  ∃ m, Members (rebalance (g <| Members ::= joinMember now c |>)) !! c = Some m ∧ Heartbeat m = now.
Proof.
  pose proof (rebalance_lookup (g <| Members ::= joinMember now c |>) c (joinMember_nonempty _ _ _)) as Hl.
  destruct (joinMember_self now c (Members g)) as (m & Hm & Hh).
  simpl in Hl. rewrite Hm in Hl. destruct Hl as (run & _ & E). eexists. split; [exact E|done].
Qed.

Lemma handleJoinGroup_wp now r n :
  inv n →
  wp (handleJoinGroup now r)
    (λ resp n', n' = n ∨ ∃ g m,
      groupFor (FormGet r "group_id") (FormGet r "topic") n = Some g ∧ cg_Topic g = FormGet r "topic" ∧
      let g' := rebalance (g <| Members ::= joinMember now (FormGet r "client_id") |>) in
      n' = n <| consumerGroups ::= <[FormGet r "group_id" := g']> |> ∧
      group_ok (topics n) (FormGet r "group_id") g' ∧
      Members g' !! FormGet r "client_id" = Some m ∧ Heartbeat m = now ∧
      resp = ok (Joined (FormGet r "group_id") (Generation g') (FormGet r "client_id")
                        (sortedIDs (Assignments m)) (FormGet r "topic")))
    (λ _, False) (λ _, False) n.
Proof.
  intros Hn. unfold handleJoinGroup. handler_run; try (by left).
  all: match goal with H : groupFor _ _ _ = Some ?g |- _ =>
    destruct (groupFor_ok _ _ _ _ Hn H) as (Hid & Hti & Hcase);
    destruct (joined_member now (FormGet r "client_id") g) as (m & Hm & Hh) end; bool_to_prop.
  { left. destruct Hcase as [Hg|]; [|done]. by apply set_same_group. }
  all: rewrite doRebalance_insert in *; unfold joinResponse in *; simpl in *;
    rewrite lookup_insert_eq in *; simpl in *; rewrite Hm in *; simplify_eq/=.
  right. do 2 eexists. split_and!; [done| |by rewrite insert_insert_eq| |done..].
  - by destruct (decide (cg_Topic c = FormGet r "topic")).
  - apply rebalanced_ok; [done..|]. apply joinMember_nonempty.
Qed.

Lemma handleJoinGroup_keeps now r n : keeps (handleJoinGroup now r) n.
Proof.
  apply keeps_wp. intros Hn. eapply wp_mono; [by apply handleJoinGroup_wp| |done..].
  intros resp n' [->|(g & m & _ & _ & -> & Hok & _)]; [done|]. by apply inv_set_group.
Qed.

Lemma handleHeartbeat_keeps now r n : keeps (handleHeartbeat now r) n.
Proof.
  apply keeps_wp. intros Hn. unfold handleHeartbeat. handler_run; try done.
  match goal with H : consumerGroups n !! _ = Some ?g, Hm : Members ?g !! _ = Some ?m |- _ =>
    destruct (inv_group _ Hn _ _ H) as [Hid Ht Hne Hb] end.
  apply inv_set_group; [done|]. split; simpl; [done..| |].
  - apply insert_non_empty.
  - apply (balanced_ext c); [done| |exact Hb]. simpl. rewrite fmap_insert. simpl. apply insert_id.
    by rewrite lookup_fmap; match goal with H : Members _ !! _ = Some _ |- _ => rewrite H end.
Qed.

Lemma handleLeaveGroup_keeps r n : keeps (handleLeaveGroup r) n.
Proof.
  apply keeps_wp. intros Hn. unfold handleLeaveGroup. handler_run; try done. by apply removeMembers_inv.
Qed.

Lemma checkHeartbeats_inv order n : inv n → inv (checkHeartbeats order n).
Proof. apply foldl_inv. intros n' [gid clients]. apply removeMembers_inv. Qed.

(** The handlers that only read the tables, or touch other state. *)
Lemma reads_keep order r n :
  keeps (handleTopicInfo r) n ∧ keeps (handleBrokerList order) n ∧ keeps (handleBrokerPeers order) n ∧
  keeps (handleRoute r) n ∧ keeps (handleCommitOffset r) n ∧ keeps (handleGetOffset r) n.
Proof.
  split_and!; apply keeps_wp; intros Hn;
    unfold handleTopicInfo, handleBrokerList, handleBrokerPeers, handleRoute, handleCommitOffset, handleGetOffset;
    handler_run; try done; by apply (inv_same n).
Qed.

Lemma runTx_keeps {A} op (done : A → Response) n : keeps (runTx op done) n.
Proof.
  apply keeps_wp. intros Hn. unfold runTx. handler_run. by apply (inv_same n).
Qed.

Lemma tx_keep w perm now1 now2 now3 now4 r n :
  keeps (handleBeginTx w perm now1 now2 now3 now4 r) n ∧ keeps (handleAddMessage w perm now1 r) n ∧
  keeps (handleCommitTx w perm now1 now2 r) n ∧ keeps (handleRollbackTx w perm now1 r) n ∧
  keeps (handleTxStatus r) n.
Proof.
  unfold handleBeginTx, handleAddMessage, handleCommitTx, handleRollbackTx, handleTxStatus, parsed.
  split_and!; repeat case_match; try apply runTx_keeps; by intros ?.
Qed.

(** ** Executions *)

(** One step of the server: a request served, a tick of one of the two
    background checkers.  The iteration orders are any the tables allow. *)
Inductive step n : server → Prop :=
| step_register now order r :
    iter_order (brokers n) order → step n (final (handleRegister now order r n))
| step_create now order r :
    iter_order (brokers n) order → step n (final (handleCreateTopic now order r n))
| step_topic_info r : step n (final (handleTopicInfo r n))
| step_broker_list order : iter_order (brokers n) order → step n (final (handleBrokerList order n))
| step_broker_peers order : iter_order (brokers n) order → step n (final (handleBrokerPeers order n))
| step_route r : step n (final (handleRoute r n))
| step_join now r : step n (final (handleJoinGroup now r n))
| step_heartbeat now r : step n (final (handleHeartbeat now r n))
| step_commit_offset r : step n (final (handleCommitOffset r n))
| step_leave r : step n (final (handleLeaveGroup r n))
| step_get_offset r : step n (final (handleGetOffset r n))
| step_begin w perm now1 now2 now3 now4 r : step n (final (handleBeginTx w perm now1 now2 now3 now4 r n))
| step_add w perm now r : step n (final (handleAddMessage w perm now r n))
| step_commit w perm now1 now2 r : step n (final (handleCommitTx w perm now1 now2 r n))
| step_rollback w perm now r : step n (final (handleRollbackTx w perm now r n))
| step_tx_status r : step n (final (handleTxStatus r n))
| step_checker now order :
    iter_order (deadMembers now n) order → step n (checkHeartbeats order n)
| step_tx_timeouts w perm now order :
    step n (n <| txCoordinator ::= TxCoordinator.checkTimeouts w perm now order |>).

Lemma server_step_inv n n' : inv n → step n n' → inv n'.
Proof.
  intros Hn Hs.
  destruct Hs as [? ? r|? ? r|r|order|order|r| | |r| |r|w perm n1 n2 n3 n4 r|w perm n1 r|w perm n1 n2 r|w perm n1 r|r| |].
  - by apply handleRegister_keeps.
  - by apply handleCreateTopic_keeps.
  - by apply (reads_keep [] r n).
  - by apply (reads_keep order (mkRequest false ∅) n).
  - by apply (reads_keep order (mkRequest false ∅) n).
  - by apply (reads_keep [] r n).
  - by apply handleJoinGroup_keeps.
  - by apply handleHeartbeat_keeps.
  - by apply (reads_keep [] r n).
  - by apply handleLeaveGroup_keeps.
  - by apply (reads_keep [] r n).
  - by apply (tx_keep w perm n1 n2 n3 n4 r n).
  - by apply (tx_keep w perm n1 0 0 0 r n).
  - by apply (tx_keep w perm n1 n2 0 0 r n).
  - by apply (tx_keep w perm n1 0 0 0 r n).
  - by apply (tx_keep TxCoordinator.WOk id 0 0 0 0 r n).
  - by apply checkHeartbeats_inv.
  - by apply (inv_same n).
Qed.

(** The states a server that started with empty tables can reach. *)
Definition reachable n : Prop := ∃ offsets txFile, rtc step (NewNameServer offsets txFile) n.

Lemma server_inv n : reachable n → inv n.
Proof.
  intros (offsets & txFile & Hs). revert Hs. generalize (inv_NewNameServer offsets txFile).
  generalize (NewNameServer offsets txFile). intros n0 Hn0 Hs. induction Hs; eauto using server_step_inv.
Qed.

(** ** Consumer groups *)

(** C6: In every state the name server can reach, a consumer group has a
    member and subscribes to an existing topic; each partition of that topic
    is assigned to exactly one member, no other partition is assigned, and
    the shares of the members differ by at most one. *)
Theorem groups_always_balanced n gid g :
  reachable n → consumerGroups n !! gid = Some g →
  ∃ ti, topics n !! cg_Topic g = Some ti ∧ Members g ≠ ∅ ∧
    (∀ p, is_Some (Partitions ti !! p) → exists! c, assigned (Members g) c p) ∧
    (∀ c p, assigned (Members g) c p → is_Some (Partitions ti !! p)) ∧
    (∀ c1 m1 c2 m2, Members g !! c1 = Some m1 → Members g !! c2 = Some m2 →
       (size (Assignments m1) ≤ S (size (Assignments m2)))%nat).
Proof.
  intros Hn%server_inv Hg. destruct (inv_group _ Hn _ _ Hg) as [_ (ti & Hti & HP) Hne [H1 H2 H3]].
  rewrite HP in *. exists ti. split_and!; try done.
  - intros p Hp. apply H1. by apply elem_of_sortedIDs.
  - intros c p (m & Hm & Hp). apply elem_of_sortedIDs. eauto.
  - intros c1 m1 c2 m2 Hm1%H3 Hm2%H3. lia.
Qed.

(** C22: [doRebalance] deals the partitions of a group out evenly and anew: it
    keeps the members and their heartbeats, moves to the next generation, and
    leaves every other group alone. *)
Theorem doRebalance_divides n gid g :
  consumerGroups n !! gid = Some g → Members g ≠ ∅ → NoDup (cg_Partitions g) →
  ∃ g', consumerGroups (doRebalance gid n) = <[gid := g']> (consumerGroups n) ∧
    balanced g' ∧ cg_Partitions g' = cg_Partitions g ∧ Generation g' = Z.succ (Generation g) ∧
    ∀ c, (λ m, (ClientID m, Heartbeat m)) <$> Members g' !! c =
         (λ m, (ClientID m, Heartbeat m)) <$> Members g !! c.
Proof.
  intros Hg Hne Hnd. exists (rebalance g). unfold doRebalance. rewrite Hg. split_and!; [done|..].
  - by apply rebalance_balanced.
  - apply rebalance_frame.
  - unfold rebalance. rewrite (proj2 (Nat.eqb_neq _ _)); [done|].
    rewrite sortedNames_length. by apply map_size_non_empty_iff.
  - intros c. pose proof (rebalance_lookup g c Hne) as Hl.
    destruct (Members g !! c) as [m|]; [destruct Hl as (run & _ & ->)|rewrite Hl]; done.
Qed.

Lemma missing_false l : missing l = false ↔ "" ∉ l.
Proof. unfold missing. apply bool_decide_eq_false. Qed.

Lemma joinResponse_insert gid c t g n m :
  Members g !! c = Some m →
  joinResponse gid c t (n <| consumerGroups ::= <[gid := g]> |>) =
    Some (ok (Joined gid (Generation g) c (sortedIDs (Assignments m)) t)).
Proof. intros Hm. unfold joinResponse. simpl. rewrite lookup_insert_eq. simpl. by rewrite Hm. Qed.

(** Joining works.  A client that asks to join a group on an existing
    topic, new or already consuming that topic, is admitted: the answer lists
    exactly the partitions the client is now responsible for, with the
    group's new generation. *)
Theorem join_answers_assignment now r n ti :
  let gid := FormGet r "group_id" in
  let c := FormGet r "client_id" in
  let t := FormGet r "topic" in
  reachable n → parseError r = false → "" ∉ [gid; c; t] → topics n !! t = Some ti →
  (∀ g, consumerGroups n !! gid = Some g → cg_Topic g = t) →
  ∃ g l n', handleJoinGroup now r n = Ret (ok (Joined gid (Generation g) c l t)) n' ∧
    consumerGroups n' = <[gid := g]> (consumerGroups n) ∧ cg_Topic g = t ∧
    ∀ p, p ∈ l ↔ assigned (Members g) c p.
Proof.
  intros gid c t Hn%server_inv Hp Hmiss Ht Hg.
  assert (∃ g, groupFor gid t n = Some g ∧ cg_Topic g = t) as (g & Hfor & Hgt).
  { unfold groupFor. destruct (consumerGroups n !! gid) as [g|] eqn:E; [eauto|]. rewrite Ht. simpl. eauto. }
  destruct (groupFor_ok _ _ _ _ Hn Hfor) as (Hid & Hti & _).
  destruct (joined_member now c g) as (m & Hm & _).
  exists (rebalance (g <| Members ::= joinMember now c |>)), (sortedIDs (Assignments m)),
    (n <| consumerGroups ::= <[gid := rebalance (g <| Members ::= joinMember now c |>)]> |>).
  split_and!; [|done| |].
  - unfold handleJoinGroup, parsed. rewrite Hp. fold gid c t. cbv zeta.
    apply missing_false in Hmiss. rewrite Hmiss. unfold mbind, prog_bind, get. rewrite Hfor.
    rewrite bool_decide_false by (intros E; by apply E). unfold modify.
    rewrite doRebalance_insert, (joinResponse_insert _ _ _ _ _ _ Hm). simpl.
    unfold mret, prog_ret. do 2 f_equal. by rewrite insert_insert_eq.
  - destruct (rebalance_frame (g <| Members ::= joinMember now c |>)) as (_ & E & _). by rewrite E.
  - intros p. rewrite elem_of_sortedIDs. unfold assigned. rewrite Hm. split.
    + intros [b Hb]. exists m. split; [done|].
      pose proof (rebalance_lookup (g <| Members ::= joinMember now c |>) c (joinMember_nonempty _ _ _)) as Hl.
      destruct (Members (g <| Members ::= joinMember now c |>) !! c); [|congruence].
      destruct Hl as (run & _ & E). rewrite E in Hm. injection Hm as <-. simpl in Hb |- *.
      rewrite give_lookup in Hb |- *. by case_decide.
    + intros (m' & [= <-] & ?). eauto.
Qed.

(** ** The heartbeat checker *)

Definition silent (now : Z) (m : MemberMeta) : Prop := Time.Sub now (Heartbeat m) > 30 * Time.Second.

#[local] Instance silent_dec now m : Decision (silent now m).
Proof. unfold silent. apply _. Defined.

(** The members of a group that were heard of in the last 30 seconds. *)
Definition live (now : Z) (g : ConsumerGroup) : gmap string MemberMeta :=
  filter (λ cm, ¬ silent now cm.2) (Members g).

Lemma deadMembers_lookup now n gid :
  match deadMembers now n !! gid with
  | Some clients => ∃ g, consumerGroups n !! gid = Some g ∧ foldl (λ m c, delete c m) (Members g) clients = live now g
      ∧ live now g ≠ Members g
  | None => ∀ g, consumerGroups n !! gid = Some g → live now g = Members g
  end.
Proof.
  unfold deadMembers. rewrite lookup_omap. destruct (consumerGroups n !! gid) as [g|] eqn:Hg; simpl; [|done].
  set (dead := (filter _ _).*1).
  assert (∀ c, c ∈ dead ↔ ∃ m, Members g !! c = Some m ∧ silent now m) as Hdead.
  { intros c. unfold dead. rewrite list_elem_of_fmap. split.
    - intros ([c' m] & -> & [Hs Hin%elem_of_map_to_list]%list_elem_of_filter). eauto.
    - intros (m & Hm & Hs). exists (c, m). rewrite list_elem_of_filter, elem_of_map_to_list. done. }
  assert (foldl (λ m c, delete c m) (Members g) dead = live now g) as Hlive.
  { apply map_eq. intros c. rewrite (foldl_delete_lookup (λ c, c)), list_fmap_id. unfold live. symmetry. case_decide as Hc.
    - apply Hdead in Hc as (m & Hm & Hs). apply map_lookup_filter_None. right. naive_solver.
    - destruct (Members g !! c) as [m|] eqn:Hm; [|apply map_lookup_filter_None; by left].
      apply map_lookup_filter_Some. split; [done|]. simpl. intros Hs. apply Hc, Hdead. eauto. }
  destruct dead as [|c dead'] eqn:Ed.
  - intros g' [= <-]. by rewrite <- Hlive.
  - exists g. split_and!; [done..|]. intros Heq.
    destruct (proj1 (Hdead c)) as (m & Hm & Hs); [by constructor|]. rewrite <- Heq in Hm.
    by apply map_lookup_filter_Some in Hm as [_ ?].
Qed.

Lemma checkHeartbeats_lookup order n gid :
  NoDup order.*1 →
  consumerGroups (checkHeartbeats order n) !! gid =
    match (list_to_map order : gmap string (list string)) !! gid with
    | Some clients => consumerGroups n !! gid ≫= withoutMembers clients
    | None => consumerGroups n !! gid
    end.
Proof.
  revert n. induction order as [|[gid' clients] order IH]; intros n Hnd; [done|].
  apply NoDup_cons in Hnd as [Hgid Hnd]. simpl in Hgid.
  change (checkHeartbeats ((gid', clients) :: order) n) with (checkHeartbeats order (removeMembers gid' clients n)).
  rewrite IH by done. rewrite !removeMembers_lookup. simpl.
  destruct (decide (gid = gid')) as [->|Hne].
  - rewrite lookup_insert_eq. by rewrite not_elem_of_list_to_map_1.
  - by rewrite lookup_insert_ne.
Qed.

(** C24: One tick of the heartbeat checker removes exactly the members not
    heard of for more than 30 seconds: a group with no live member is
    dropped, a group that lost some of its members is rebalanced over the
    others, and a group whose members are all alive is not touched. *)
Theorem checkHeartbeats_evicts now order n gid g :
  reachable n → iter_order (deadMembers now n) order → consumerGroups n !! gid = Some g →
  match consumerGroups (checkHeartbeats order n) !! gid with
  | None => live now g = ∅
  | Some g' => live now g ≠ ∅ ∧ dom (Members g') = dom (live now g) ∧ balanced g' ∧
      (live now g = Members g → g' = g) ∧ (live now g ≠ Members g → Generation g' = Z.succ (Generation g))
  end.
Proof.
  intros Hn%server_inv Hord Hg. destruct (inv_group _ Hn _ _ Hg) as [Hid (ti & Hti & HP) Hne Hb].
  rewrite checkHeartbeats_lookup by (by eapply iter_order_NoDup).
  rewrite (list_to_map_proper _ (map_to_list (deadMembers now n))) by (done || by eapply iter_order_NoDup).
  rewrite list_to_map_to_list. pose proof (deadMembers_lookup now n gid) as Hdead.
  destruct (deadMembers now n !! gid) as [clients|].
  - destruct Hdead as (g' & Hg' & Hlive & Hneq). rewrite Hg in Hg'. injection Hg' as <-. rewrite Hg. simpl.
    unfold withoutMembers. rewrite Hlive. destruct (size (live now g) =? 0)%nat eqn:E.
    { by apply Nat.eqb_eq, map_size_empty_iff in E. }
    apply Nat.eqb_neq, map_size_non_empty_iff in E. split_and!; [done| | |done|].
    + by rewrite rebalance_dom.
    + apply rebalance_balanced; [done|]. simpl. rewrite HP. apply sortedIDs_NoDup.
    + intros _. unfold rebalance. rewrite (proj2 (Nat.eqb_neq _ _)); [done|].
      rewrite sortedNames_length. by apply map_size_non_empty_iff.
  - rewrite Hg. rewrite (Hdead _ Hg). split_and!; done.
Qed.

(** ** Topics and routing *)

(** Consecutive positions around a ring of [L] brokers are different. *)
Lemma ring_inj i j1 j2 L :
  0 ≤ j1 < L → 0 ≤ j2 < L → (i + j1) mod L = (i + j2) mod L → j1 = j2.
Proof.
  intros H1 H2 E. pose proof (Z.div_mod (i + j1) L). pose proof (Z.div_mod (i + j2) L).
  assert (j1 - j2 = L * ((i + j1) / L - (i + j2) / L)) by lia.
  assert ((i + j1) / L - (i + j2) / L = 0) by nia. lia.
Qed.

(** The replicas of a partition are on different brokers, one after the
    other around the ring of brokers. *)
Lemma partition_owners bs ids i p :
  NoDup ids → 0 ≤ i → partition_at bs ids i p →
  ∃ owners, NoDup owners ∧
    Forall2 (λ id r, id ∈ ids ∧ ∃ b, bs !! id = Some b ∧ r = ClientAddr b) owners (Replicas p).
Proof.
  intros Hnd Hi (_ & _ & _ & Hlen & Hl).
  set (pos := λ j : nat, Z.to_nat ((i + Z.of_nat j) mod Z.of_nat (length ids))).
  exists (omap (λ j, ids !! pos j) (seq 0 (min 3 (length ids)))).
  assert (∀ j, (j < length ids)%nat → is_Some (ids !! pos j)) as Hpos.
  { intros j Hj. apply lookup_lt_is_Some_2. unfold pos.
    pose proof (Z.mod_pos_bound (i + Z.of_nat j) (Z.of_nat (length ids))). lia. }
  assert (∀ k s, (s + k ≤ length ids)%nat → ∀ l : list string,
    length l = k →
    (∀ j r, l !! j = Some r → ∃ id b, ids !! pos (s + j)%nat = Some id ∧ bs !! id = Some b ∧ r = ClientAddr b) →
    let owners := omap (λ j, ids !! pos j) (seq s k) in
    NoDup owners ∧ (∀ id, id ∈ owners → ∃ j, (s ≤ j < s + k)%nat ∧ ids !! pos j = Some id) ∧
    Forall2 (λ id r, id ∈ ids ∧ ∃ b, bs !! id = Some b ∧ r = ClientAddr b) owners l) as Haux.
  { induction k as [|k IH]; intros s Hk [|r l] Hlen' Hr; simplify_eq/=.
    { split_and!; [constructor|set_solver|constructor]. }
    destruct (Hr 0%nat r eq_refl) as (id & b & Hid & Hb & Hrb). rewrite Nat.add_0_r in Hid. rewrite Hid.
    destruct (IH (S s) ltac:(lia) l eq_refl) as (Hnd' & Hin & Hf).
    { intros j r' Hj. destruct (Hr (S j) r' Hj) as (id' & b' & ? & ? & ?). exists id', b'.
      by replace (S s + j)%nat with (s + S j)%nat by lia. }
    split_and!.
    - constructor; [|done]. intros (j & Hj & Hid')%Hin.
      pose proof (NoDup_lookup _ _ _ _ Hnd Hid Hid') as E. unfold pos in E.
      pose proof (Z.mod_pos_bound (i + Z.of_nat s) (Z.of_nat (length ids))).
      pose proof (Z.mod_pos_bound (i + Z.of_nat j) (Z.of_nat (length ids))).
      apply Z2Nat.inj, ring_inj in E; lia.
    - intros id' [->|(j & ? & ?)%Hin]%elem_of_cons; [exists s|exists j]; split; (done || lia).
    - constructor; [|done]. split; [by eapply list_elem_of_lookup_2|eauto]. }
  destruct (Haux (min 3 (length ids)) 0%nat ltac:(lia) (Replicas p) Hlen) as (? & _ & ?); [|done].
  intros j r Hj. by apply Hl.
Qed.

(** C23: Creating a topic places its replicas.  With brokers available, the
    request for [z] partitions succeeds and creates partitions 0 to [z - 1];
    the replicas of each are [min 3 L] different available brokers, where [L]
    is the number of available ones: those of partition [k] are the brokers at
    the positions [k], [k + 1], ... modulo [L], all of them in sync, and the
    first of them leads. *)
Theorem handleCreateTopic_places now order r n z :
  let t := FormGet r "topic" in
  let ids := getAvailableBrokers now order in
  iter_order (brokers n) order → parseError r = false → "" ∉ [t] →
  "" ∉ [FormGet r "partitions"] → Strconv.Atoi (FormGet r "partitions") = Some z → 1 ≤ z →
  topics n !! t = None → ids ≠ [] →
  ∃ ps, handleCreateTopic now order r n =
      Ret (ok (TopicCreated t z)) (n <| topics ::= <[t := mkTopicInfo t ps]> |>) ∧
    (∀ k, is_Some (ps !! k) ↔ 0 ≤ k < z) ∧
    ∀ k p, ps !! k = Some p →
      PartitionID p = k ∧ ISR p = Replicas p ∧ length (Replicas p) = min 3 (length ids) ∧
      head (Replicas p) = Some (Leader p) ∧
      (∀ j a, Replicas p !! j = Some a → ∃ id b,
         ids !! Z.to_nat ((k + Z.of_nat j) mod Z.of_nat (length ids)) = Some id ∧
         brokers n !! id = Some b ∧ a = ClientAddr b) ∧
      ∃ owners, NoDup owners ∧
        Forall2 (λ id r, id ∈ ids ∧ ∃ b, brokers n !! id = Some b ∧ r = ClientAddr b) owners (Replicas p).
Proof.
  intros t ids Hord Hp Ht%missing_false Hz%missing_false Hatoi H1 Hnone Hne.
  destruct (newPartitions_ok (brokers n) ids (Z.to_nat z) 0 ∅) as (ps & Hps & Hsz & Hk);
    [by apply available_known|done|done|by intros k [? ?%lookup_empty_Some]|].
  rewrite Z2Nat.id in Hk by lia. exists ps. split_and!.
  - unfold handleCreateTopic, parsed. rewrite Hp. cbv zeta. fold t. rewrite Ht, Hz, Hatoi.
    rewrite (proj2 (Z.ltb_ge z 1)) by lia. unfold mbind, prog_bind, get. rewrite Hnone. fold ids.
    rewrite (proj2 (Nat.eqb_neq _ _)) by (by destruct ids). by rewrite Hps.
  - intros k. destruct (Hk k) as [Hin Hout]. split.
    + intros [p Hp']. destruct (decide (0 ≤ k < 0 + z)); [lia|]. rewrite Hout, lookup_empty in Hp' by done. done.
    + intros ?. destruct Hin as (p & -> & _); [lia|eauto].
  - intros k p Hkp. destruct (decide (0 ≤ k < 0 + z)) as [Hr|Hr];
      [|by rewrite (proj2 (Hk k) Hr), lookup_empty in Hkp].
    destruct (proj1 (Hk k) Hr) as (p' & Hp' & Hat). rewrite Hkp in Hp'. injection Hp' as <-.
    pose proof Hat as (? & Hhead & ? & Hlen & Hl). split_and!; [done..|].
    apply (partition_owners _ _ k); [|lia|done].
    apply NoDup_fst_filter. by eapply iter_order_NoDup.
Qed.

Lemma keyPartition_range key count : 0 < count → 0 ≤ keyPartition key count < count.
Proof.
  intros Hc. unfold keyPartition. pose proof (Z.rem_bound_abs (hashString key) count ltac:(lia)).
  case_match; bool_to_prop; lia.
Qed.

(** C25: A key always has a home.  A request to route a key to an existing
    topic succeeds: the hash, which wraps around at 64 bits and may be
    negative, is folded to the number of an existing partition, which depends
    on the key and on the topic's number of partitions only. *)
Theorem route_by_key r n ti :
  let t := FormGet r "topic" in
  let key := FormGet r "key" in
  reachable n → parseError r = false → "" ∉ [t] → topics n !! t = Some ti →
  FormGet r "partition" = "" → "" ∉ [key] →
  ∃ info, let p := keyPartition key (Z.of_nat (size (Partitions ti))) in
    Partitions ti !! p = Some info ∧ 0 ≤ p < Z.of_nat (size (Partitions ti)) ∧
    handleRoute r n = Ret (ok (Route t p (Leader info) (Replicas info) (ISR info))) n.
Proof.
  intros t key Hn%server_inv Hp Ht%missing_false Hti Hpart Hkey%missing_false.
  destruct (inv_topic _ Hn _ _ Hti) as [_ Hpos Hrange _].
  assert (0 < Z.of_nat (size (Partitions ti))) as Hs by lia.
  pose proof (keyPartition_range key _ Hs) as Hr.
  destruct (proj2 (Hrange _) Hr) as [info Hinfo]. exists info. cbv zeta. split_and!; [done|lia|lia|].
  unfold handleRoute, parsed. rewrite Hp. cbv zeta. fold t key. rewrite Ht. unfold mbind, prog_bind, get. rewrite Hti.
  rewrite (proj2 (Nat.eqb_neq _ _)) by lia. rewrite Hpart. change (missing [""]) with true. simpl.
  rewrite Hkey. simpl. by rewrite Hinfo.
Qed.

(** ** Registration *)

Lemma handleRegister_known now order r n id b :
  iter_order (brokers n) order → inv n → "" ∉ [FormGet r "addr"; FormGet r "client_addr"] →
  brokers n !! id = Some b → Address b = FormGet r "addr" →
  handleRegister now order r n = Ret (ok (Registered id)) (n <| brokers ::= <[id :=
    b <| ClientAddr := FormGet r "client_addr" |> <| Hostname := FormGet r "hostname" |> <| LastUpdate := now |>]> |>).
Proof.
  intros Hord Hn Hmiss%missing_false Hb Ha. unfold handleRegister. cbv zeta. rewrite Hmiss.
  destruct (find _ order) as [[id' b']|] eqn:Hf.
  - apply find_some in Hf as [Hin%list_elem_of_In Ha']. apply (iter_order_elem _ _ _ _ Hord) in Hin. bool_to_prop.
    assert (id' = id) as -> by (eapply (inv_address _ Hn); eauto; congruence).
    rewrite Hb in Hin. injection Hin as <-. pose proof (inv_broker _ Hn _ _ Hb) as E.
    unfold mbind, prog_bind, modify, mret, prog_ret. by rewrite E.
  - apply (iter_order_elem _ _ _ _ Hord) in Hb. apply list_elem_of_In in Hb.
    pose proof (find_none _ _ Hf _ Hb) as Hno. simpl in Hno. by bool_to_prop.
Qed.

Lemma handleRegister_new now order r n :
  iter_order (brokers n) order → "" ∉ [FormGet r "addr"; FormGet r "client_addr"] →
  (∀ id b, brokers n !! id = Some b → Address b ≠ FormGet r "addr") →
  handleRegister now order r n = Ret (ok (Registered (nextID n)))
    (n <| nextID ::= λ i, int64 (i + 1) |> <| brokers ::= <[nextID n :=
      mkBrokerInfo (nextID n) (FormGet r "addr") (FormGet r "client_addr") (FormGet r "hostname") 0 now]> |>).
Proof.
  intros Hord Hmiss%missing_false Hno. unfold handleRegister. cbv zeta. rewrite Hmiss.
  destruct (find _ order) as [[id' b']|] eqn:Hf; [|done].
  apply find_some in Hf as [Hin%list_elem_of_In Ha']. apply (iter_order_elem _ _ _ _ Hord) in Hin. bool_to_prop.
  by destruct (Hno _ _ Hin).
Qed.

(** A broker keeps its number.  Registering an address gives it a broker
    number: the next one of the counter, or the one it already had;
    the entry holds the data of the request, no other entry changes, and
    registering the same address again gives the same number. *)
Theorem register_stable now order r n :
  let addr := FormGet r "addr" in
  reachable n → iter_order (brokers n) order → "" ∉ [addr; FormGet r "client_addr"] →
  ∃ id n' b, handleRegister now order r n = Ret (ok (Registered id)) n' ∧
    brokers n' !! id = Some b ∧ BrokerID b = id ∧ Address b = addr ∧
    ClientAddr b = FormGet r "client_addr" ∧ LastUpdate b = now ∧
    (∀ id', id' ≠ id → brokers n' !! id' = brokers n !! id') ∧
    (∀ id' b', brokers n' !! id' = Some b' → Address b' = addr → id' = id) ∧
    ∀ now2 order2, iter_order (brokers n') order2 →
      ∃ n'', handleRegister now2 order2 r n' = Ret (ok (Registered id)) n''.
Proof.
  intros addr Hn%server_inv Hord Hmiss. pose proof (handleRegister_keeps now order r n Hord Hn) as Hn'.
  assert (∃ id n' b, handleRegister now order r n = Ret (ok (Registered id)) n' ∧
    brokers n' !! id = Some b ∧ Address b = addr ∧ ClientAddr b = FormGet r "client_addr" ∧ LastUpdate b = now ∧
    (∀ id', id' ≠ id → brokers n' !! id' = brokers n !! id')) as (id & n' & b & Hr & Hb & Ha & Hc & Hl & Hother).
  { destruct (decide (map_Exists (λ _ b, Address b = addr) (brokers n))) as [(id & b & Hb & Ha)|Hno].
    - do 3 eexists. split; [by apply (handleRegister_known now order r n id b)|]. simpl.
      split_and!; [apply lookup_insert_eq|done..|]. intros. by rewrite lookup_insert_ne.
    - do 3 eexists. split; [apply (handleRegister_new now order r n Hord Hmiss)|].
      + intros id b Hb Hab. apply Hno. by exists id, b.
      + simpl. split_and!; [apply lookup_insert_eq|done..|]. intros. by rewrite lookup_insert_ne. }
  rewrite Hr in Hn'. simpl in Hn'. exists id, n', b. split_and!; try done.
  - by apply (inv_broker _ Hn').
  - intros id' b' Hb' Ha'. eapply (inv_address _ Hn'); eauto. congruence.
  - intros now2 order2 Hord2. eexists. by apply (handleRegister_known now2 order2 r n' id b).
Qed.

(** ** Offsets *)

Context `{laws : !OffsetStore.BoltLaws DB}.

(** C34: An offset committed over HTTP is the one that is read.  When the
    store accepts the write, a later request for the same group, topic and
    partition answers with the committed offset, with the numbers written in
    decimal, negative or not. *)
Theorem commit_then_get_offset r r' n db db' p o :
  parseError r = false → parseError r' = false →
  "" ∉ [FormGet r "group_id"; FormGet r "topic"] →
  in_sint 64 p → in_sint 64 o →
  FormGet r "partition" = Fmt.d p → FormGet r "offset" = Fmt.d o →
  FormGet r' "group_id" = FormGet r "group_id" → FormGet r' "topic" = FormGet r "topic" →
  FormGet r' "partition" = Fmt.d p →
  offsetStore n = Some db →
  OffsetStore.PutOffset (FormGet r "group_id") (FormGet r "topic") p o db = Ok db' →
  let n' := n <| offsetStore := Some db' |> in
  handleCommitOffset r n = Ret (ok (OffsetCommitted (FormGet r "group_id") (FormGet r "topic") p o)) n' ∧
  handleGetOffset r' n' = Ret (ok (Offset (FormGet r "group_id") (FormGet r "topic") p o)) n'.
Proof.
  intros Hp Hp' Hmiss Hpr Hor Ep Eo Eg Et Ep' Hdb Hput n'.
  assert (∀ z, in_sint 64 z → Fmt.d z ≠ "") as Hd.
  { intros z Hz E. apply Strconv.Atoi_d in Hz. by rewrite E in Hz. }
  pose proof (Hd p Hpr). pose proof (Hd o Hor).
  unfold handleCommitOffset, handleGetOffset, parsed. rewrite Hp, Hp'. cbv zeta.
  rewrite Eg, Et, Ep, Eo, Ep'.
  rewrite (proj2 (missing_false [FormGet r "group_id"; FormGet r "topic"; Fmt.d p; Fmt.d o])) by set_solver.
  rewrite (proj2 (missing_false [FormGet r "group_id"; FormGet r "topic"; Fmt.d p])) by set_solver.
  unfold Strconv.ParseInt. rewrite !Strconv.Atoi_d by done. unfold mbind, prog_bind, get. rewrite Hdb.
  rewrite Hput. split; [done|]. simpl. by rewrite (OffsetStore.get_after_put _ _ _ _ _ _ Hor Hput).
Qed.
End server.

(** ** A small cluster *)

#[local] Existing Instance OffsetStore.MapDB.ops.
#[local] Existing Instance OffsetStore.MapDB.laws.

Definition req (l : list (string * string)) : Request := mkRequest false (list_to_map l).

Notation demo_server := (NameServer OffsetStore.MapDB.DB).

Definition r_broker1 := req [("addr", "b1:7000"); ("client_addr", "b1:9092"); ("hostname", "b1")].
Definition r_broker2 := req [("addr", "b2:7000"); ("client_addr", "b2:9092"); ("hostname", "b2")].
Definition r_create := req [("topic", "orders"); ("partitions", "5")].
Definition r_join1 := req [("group_id", "g"); ("client_id", "c1"); ("topic", "orders")].
Definition r_join2 := req [("group_id", "g"); ("client_id", "c2"); ("topic", "orders")].
Definition r_key := req [("topic", "orders"); ("key", "customer-17")].

Definition t0 : Z := 100 * Time.Second.

Definition register_all (n : demo_server) : demo_server :=
  let n := final (handleRegister t0 (map_to_list (brokers n)) r_broker1 n) in
  final (handleRegister t0 (map_to_list (brokers n)) r_broker2 n).

Definition demo_brokers : demo_server := register_all (NewNameServer (Some OffsetStore.demo_db) None).
Definition demo_topic : demo_server :=
  final (handleCreateTopic t0 (map_to_list (brokers demo_brokers)) r_create demo_brokers).
Definition demo_one : demo_server := final (handleJoinGroup t0 r_join1 demo_topic).
Definition demo : demo_server := final (handleJoinGroup (t0 + 25 * Time.Second) r_join2 demo_one).

Lemma demo_brokers_reachable : reachable demo_brokers.
Proof.
  exists (Some OffsetStore.demo_db), None. unfold demo_brokers, register_all. cbv zeta.
  eapply rtc_l; [apply step_register, iter_order_self|]. eapply rtc_l; [apply step_register, iter_order_self|].
  apply rtc_refl.
Qed.

Lemma reachable_step (n n' : demo_server) : reachable n → step n n' → reachable n'.
Proof. intros (o & f & Hn) Hs. exists o, f. by eapply rtc_r. Qed.

Lemma demo_topic_reachable : reachable demo_topic.
Proof. apply (reachable_step demo_brokers); [apply demo_brokers_reachable|apply step_create, iter_order_self]. Qed.

Lemma demo_ns_reachable : reachable demo.
Proof.
  apply (reachable_step demo_one); [|apply step_join].
  apply (reachable_step demo_topic); [apply demo_topic_reachable|apply step_join].
Qed.

Definition demo_group : ConsumerGroup :=
  default (mkConsumerGroup "" ∅ "" [] 0) (consumerGroups demo !! "g").

Lemma demo_group_eq : consumerGroups demo !! "g" = Some demo_group.
Proof. vm_compute. reflexivity. Qed.

Definition demo_ti : TopicInfo := default (mkTopicInfo "" ∅) (topics demo_topic !! "orders").

Lemma demo_ti_eq : topics demo_topic !! "orders" = Some demo_ti.
Proof. vm_compute. reflexivity. Qed.

Lemma demo_group_members : Members demo_group ≠ ∅.
Proof. intros E%map_size_empty_iff. vm_compute in E. discriminate. Qed.

Lemma demo_group_NoDup : NoDup (cg_Partitions demo_group).
Proof. apply (bool_decide_unpack _). vm_compute. exact I. Qed.

Lemma groups_always_balanced_witness :
  (size (Members demo_group) = 2)%nat ∧ ∃ ti, topics demo !! cg_Topic demo_group = Some ti ∧
    ∀ p, is_Some (Partitions ti !! p) → exists! c, assigned (Members demo_group) c p.
Proof.
  split; [vm_compute; reflexivity|].
  destruct (groups_always_balanced demo "g" demo_group demo_ns_reachable demo_group_eq) as (ti & H1 & _ & H2 & _).
  exists ti. split; [exact H1|exact H2].
Defined.

Lemma doRebalance_divides_witness :
  ∃ g', consumerGroups (doRebalance "g" demo) = <[ "g" := g' ]> (consumerGroups demo) ∧ balanced g'.
Proof.
  destruct (doRebalance_divides demo "g" demo_group demo_group_eq demo_group_members demo_group_NoDup)
    as (g' & H1 & H2 & _).
  exists g'. split; [exact H1|exact H2].
Defined.

Lemma demo_no_group : ∀ g, consumerGroups demo_topic !! "g" = Some g → cg_Topic g = "orders".
Proof. intros g E. vm_compute in E. discriminate. Qed.

Lemma demo_fields : "" ∉ ["g"; "c1"; "orders"].
Proof. apply (bool_decide_unpack _). vm_compute. exact I. Qed.

Lemma join_answers_assignment_witness :
  ∃ g l n', handleJoinGroup t0 r_join1 demo_topic = Ret (ok (Joined "g" (Generation g) "c1" l "orders")) n'.
Proof.
  destruct (join_answers_assignment t0 r_join1 demo_topic demo_ti demo_topic_reachable eq_refl demo_fields
    demo_ti_eq demo_no_group) as (g & l & n' & H & _).
  exists g, l, n'. exact H.
Defined.

(** After 35 seconds the first member is silent, the second is not. *)
Lemma checkHeartbeats_evicts_witness :
  let now := t0 + 35 * Time.Second in
  (size (live now demo_group) = 1)%nat ∧
  match consumerGroups (checkHeartbeats (map_to_list (deadMembers now demo)) demo) !! "g" with
  | None => live now demo_group = ∅
  | Some g' => dom (Members g') = dom (live now demo_group)
  end.
Proof.
  intros now. split; [vm_compute; reflexivity|].
  pose proof (checkHeartbeats_evicts now (map_to_list (deadMembers now demo)) demo "g" demo_group
    demo_ns_reachable (iter_order_self _) demo_group_eq) as H.
  destruct (consumerGroups (checkHeartbeats (map_to_list (deadMembers now demo)) demo) !! "g") as [g'|];
    [destruct H as (_ & H & _); exact H|exact H].
Defined.

Lemma demo_topic_fresh : topics demo_brokers !! "orders" = None.
Proof. vm_compute. reflexivity. Qed.

Lemma demo_available : getAvailableBrokers t0 (map_to_list (brokers demo_brokers)) ≠ [].
Proof. vm_compute. discriminate. Qed.

Lemma demo_name : "" ∉ ["orders"].
Proof. apply (bool_decide_unpack _). vm_compute. exact I. Qed.

Lemma demo_count : "" ∉ ["5"].
Proof. apply (bool_decide_unpack _). vm_compute. exact I. Qed.

Lemma handleCreateTopic_places_witness :
  ∃ ps, handleCreateTopic t0 (map_to_list (brokers demo_brokers)) r_create demo_brokers =
      Ret (ok (TopicCreated "orders" 5)) (demo_brokers <| topics ::= <[ "orders" := mkTopicInfo "orders" ps ]> |>) ∧
    ∀ k, is_Some (ps !! k) ↔ 0 ≤ k < 5.
Proof.
  destruct (handleCreateTopic_places t0 (map_to_list (brokers demo_brokers)) r_create demo_brokers 5
    (iter_order_self _) eq_refl demo_name demo_count eq_refl ltac:(lia) demo_topic_fresh demo_available)
    as (ps & H1 & H2 & _).
  exists ps. split; [exact H1|exact H2].
Defined.

Lemma demo_key : "" ∉ ["customer-17"].
Proof. apply (bool_decide_unpack _). vm_compute. exact I. Qed.

(** The hash of a long key wraps around to a negative number. *)
Lemma hash_wraps : hashString "customer-1007-of-region-east" < 0.
Proof. vm_compute. reflexivity. Qed.

Lemma route_by_key_witness :
  ∃ info, let p := keyPartition "customer-17" (Z.of_nat (size (Partitions demo_ti))) in
    handleRoute r_key demo_topic = Ret (ok (Route "orders" p (Leader info) (Replicas info) (ISR info))) demo_topic.
Proof.
  destruct (route_by_key r_key demo_topic demo_ti demo_topic_reachable eq_refl demo_name demo_ti_eq eq_refl demo_key)
    as (info & _ & _ & H).
  exists info. exact H.
Defined.

Lemma demo_addr : "" ∉ ["b1:7000"; "b1:9092"].
Proof. apply (bool_decide_unpack _). vm_compute. exact I. Qed.

Lemma register_stable_witness :
  ∃ id n', handleRegister t0 (map_to_list (brokers demo_brokers)) r_broker1 demo_brokers =
    Ret (ok (Registered id)) n'.
Proof.
  destruct (register_stable t0 (map_to_list (brokers demo_brokers)) r_broker1 demo_brokers
    demo_brokers_reachable (iter_order_self _) demo_addr) as (id & n' & b & H & _).
  exists id, n'. exact H.
Defined.

Definition r_commit := req [("group_id", "g"); ("topic", "orders"); ("partition", Fmt.d 3); ("offset", Fmt.d (-1))].
Definition r_get := req [("group_id", "g"); ("topic", "orders"); ("partition", Fmt.d 3)].

Lemma demo_commit_fields : "" ∉ ["g"; "orders"].
Proof. apply (bool_decide_unpack _). vm_compute. exact I. Qed.

Lemma commit_then_get_offset_witness :
  ∃ n' : demo_server,
    handleCommitOffset r_commit (NewNameServer (Some OffsetStore.demo_db) None) =
      Ret (ok (OffsetCommitted "g" "orders" 3 (-1))) n' ∧
    handleGetOffset r_get n' = Ret (ok (Offset "g" "orders" 3 (-1))) n'.
Proof.
  destruct (OffsetStore.demo_put "g" "orders" 3 (-1)) as [db' E]. eexists.
  exact (commit_then_get_offset r_commit r_get (NewNameServer (Some OffsetStore.demo_db) None)
    OffsetStore.demo_db db' 3 (-1) eq_refl eq_refl
    demo_commit_fields ltac:(unfold in_sint; lia) ltac:(unfold in_sint; lia) eq_refl eq_refl eq_refl eq_refl eq_refl
    eq_refl E).
Defined.

End NameServerProps.
