(* ===== verification/Wire.v ===== *)
(** * The binary protocol between clients and brokers

    Models the framing code of [cluster/go/broker/broker.go]
    ([handleClient], [sendResponse], the response of [handleTCPFetch]) and
    its counterpart in the clients ([samples/go-producer/main.go],
    [samples/go-consumer/main.go], [samples/go-dlq-consumer/main.go]).  A
    connection is the list of bytes that can be read from it; [readFull]
    fails when the connection ends early.  The theorems: every request and
    every fetch response is read back as it was written; a redirect reaches
    the producer; and an error response leaves the consumer short of bytes. *)

From Stdlib Require Import ZArith Lia Strings.Byte.
From stdpp Require Import base tactics list gmap strings fin_maps.
From S2P Require Import Prelude GoLib.

Open Scope Z_scope.

Module Wire.

Import Int.

Definition Magic : byte := xd0.
Definition CmdProduce : byte := x01.
Definition CmdFetch : byte := x02.
Definition CmdJoinGroup : byte := x03.
Definition CmdHeartbeat : byte := x04.
Definition CmdCommitOffset : byte := x05.
Definition CmdLeaveGroup : byte := x06.
Definition CmdAck : byte := x07.

Definition RespSuccess : byte := x00.
Definition RespRedirect : byte := x01.
Definition RespDLQ : byte := x02.
Definition RespRetried : byte := x03.
Definition RespError : byte := xff.

(** [io.ReadFull] of [n] bytes. *)
Definition readFull (n : nat) (conn : list byte) : option (list byte * list byte) :=
  if (n <=? length conn)%nat then Some (take n conn, drop n conn) else None.

(** [b[i:j]]. *)
Definition sub (i j : nat) (b : list byte) : list byte := take (j - i) (drop i b).

(** ** Requests *)

Record Request := mkRequest { cmdID : byte; topic : string; partition : Z; data : list byte }.

(** One round of the loop of [handleClient], up to the dispatch on the
    command; [None] closes the connection. *)
Definition readRequest (conn : list byte) : option (Request * list byte) :=
  '(header, conn) ← readFull 12 conn;
  if bool_decide (head header = Some Magic) then
    cmdID ← header !! 1%nat;
    let topicLen := Bytes.unbe (sub 2 4 header) in
    let partition := int32 (Bytes.unbe (sub 4 8 header)) in
    let dataLen := Bytes.unbe (sub 8 12 header) in
    '(topicBuf, conn) ← readFull (Z.to_nat topicLen) conn;
    '(data, conn) ← readFull (Z.to_nat dataLen) conn;
    Some (mkRequest cmdID (Bytes.to_string topicBuf) partition data, conn)
  else None.

(** The requests of a connection, with their number bounded by [fuel]; every
    request takes at least 12 bytes, so the length of the input is enough. *)
Fixpoint readRequests (fuel : nat) (conn : list byte) : list Request :=
  match fuel with
  | O => []
  | S fuel =>
      match readRequest conn with
      | None => []
      | Some (r, conn) => r :: readRequests fuel conn
      end
  end.

(** The header a client writes, and the frame. *)
Definition requestHeader (cmd : byte) (topicLen partition dataLen : Z) : list byte :=
  [Magic; cmd] ++ Bytes.be 2 (uint16 topicLen) ++ Bytes.be 4 (uint32 partition) ++ Bytes.be 4 (uint32 dataLen).

(** The bytes [sendMessage] of the producer writes. *)
Definition produceFrame (topic : string) (partition : Z) (data : list byte) (acks : Z) : list byte :=
  let topicLen := Z.of_nat (length (Bytes.of_string topic)) in
  let dataLen := Z.of_nat (length data) + 1 in
  requestHeader CmdProduce topicLen partition dataLen ++ Bytes.of_string topic ++ Bytes.of_Z acks :: data.

(** The bytes [fetch] of the consumer writes. *)
Definition fetchFrame (topic : string) (partition offset maxBytes : Z) : list byte :=
  let data := Bytes.be 8 (uint64 offset) ++ Bytes.be 4 (uint32 maxBytes) in
  requestHeader CmdFetch (Z.of_nat (length (Bytes.of_string topic))) partition (Z.of_nat (length data)) ++
    Bytes.of_string topic ++ data.

(** ** Responses *)

Definition sendResponse (status : byte) (leader : string) (offset : Z) : list byte :=
  [Magic; status] ++
  (if bool_decide (status = RespRedirect) && negb (bool_decide (leader = ""))
   then Bytes.of_Z (Z.of_nat (length (Bytes.of_string leader))) :: Bytes.of_string leader else []) ++
  (if bool_decide (status = RespSuccess) then Bytes.be 8 (uint64 offset) else []).

(** A message as a fetch response carries it. *)
Record Message := mkMessage { Offset : Z; Timestamp : Z; Value : list byte }.

(** The entry of one message in [handleTCPFetch]. *)
Definition entryBuf (msg : Message) : list byte :=
  Bytes.be 8 (uint64 (Offset msg)) ++ Bytes.be 8 (uint64 (Timestamp msg)) ++
  Bytes.be 4 (uint32 (int32 (Z.of_nat (length (Value msg))))) ++ Value msg.

Definition fetchResponse (highWatermark : Z) (msgs : list Message) : list byte :=
  [Magic; RespSuccess] ++ Bytes.be 8 (uint64 highWatermark) ++
  Bytes.be 4 (uint32 (Z.of_nat (length msgs))) ++ concat (entryBuf <$> msgs).

(** The loop of [fetch] over [msgCount] messages: the messages read so far
    and, when it stops early, [None]. *)
Fixpoint readMessages (msgCount : nat) (conn : list byte) : list Message * option (list byte) :=
  match msgCount with
  | O => ([], Some conn)
  | S msgCount =>
      match readFull 20 conn with
      | None => ([], None)
      | Some (msgHeader, conn) =>
          let dataLen := Bytes.unbe (sub 16 20 msgHeader) in
          match readFull (Z.to_nat dataLen) conn with
          | None => ([], None)
          | Some (msgData, conn) =>
              let msg := mkMessage (int64 (Bytes.unbe (sub 0 8 msgHeader)))
                                   (int64 (Bytes.unbe (sub 8 16 msgHeader))) msgData in
              let '(msgs, rest) := readMessages msgCount conn in
              (msg :: msgs, rest)
          end
      end
  end.

(** What [fetch] makes of the response: the messages and the high
    watermark, the error, and the rest of the connection ([None] when it
    was reset). *)
Record Fetched := mkFetched {
  messages : list Message; highWatermark : Z; error : option string; rest : option (list byte) }.

Definition readFetch (conn : list byte) : Fetched :=
  match readFull 14 conn with
  | None => mkFetched [] 0 (Some "EOF") None
  | Some (respHeader, conn) =>
      if negb (bool_decide (head respHeader = Some Magic)) then mkFetched [] 0 (Some "invalid magic byte") (Some conn)
      else if bool_decide (respHeader !! 1%nat = Some RespSuccess) then
        let hw := int64 (Bytes.unbe (sub 2 10 respHeader)) in
        let msgCount := Bytes.unbe (sub 10 14 respHeader) in
        match readMessages (Z.to_nat msgCount) conn with
        | (msgs, Some conn) => mkFetched msgs hw None (Some conn)
        | (msgs, None) => mkFetched msgs hw (Some "EOF") None
        end
      else if bool_decide (respHeader !! 1%nat = Some RespRedirect) then
        match readFull 1 conn with
        | None => mkFetched [] 0 (Some "redirect: failed to read leader length") None
        | Some (leaderLen, conn) =>
            match readFull (Z.to_nat (Bytes.unbe leaderLen)) conn with
            | None => mkFetched [] 0 (Some "redirect: failed to read leader address") None
            | Some (leaderAddr, conn) => mkFetched [] 0 (Some ("redirect:" +:+ Bytes.to_string leaderAddr)) None
            end
        end
      else if bool_decide (respHeader !! 1%nat = Some RespError) then mkFetched [] 0 (Some "server error") (Some conn)
      else mkFetched [] 0 (Some "unknown response status") (Some conn)
  end.

(** What [sendMessage] of the producer makes of the [n] bytes that one
    [conn.Read] returned. *)
Definition readProduce (respBuf : list byte) : result unit :=
  let n := length respBuf in
  if (n <? 2)%nat then Err "invalid response"
  else if negb (bool_decide (head respBuf = Some Magic)) then Err "invalid magic byte"
  else if bool_decide (respBuf !! 1%nat = Some RespSuccess) then Ok tt
  else if bool_decide (respBuf !! 1%nat = Some RespRedirect) then
    if (n <? 3)%nat then Err "redirect: no leader address"
    else
      let leaderLen := Z.to_nat (Bytes.unbe (sub 2 3 respBuf)) in
      if (n <? 3 + leaderLen)%nat then Err "redirect: invalid leader address length"
      else Err ("redirect:" +:+ Bytes.to_string (sub 3 (3 + leaderLen) respBuf))
  else if bool_decide (respBuf !! 1%nat = Some RespError) then Err "server error"
  else Err "unknown response status".

(** [isRedirectError] on an error's text. *)
Definition isRedirectError (err : result unit) : option string :=
  match err with
  | Ok _ => None
  | Err msg =>
      let bs := Bytes.of_string msg in
      if (9 <? length bs)%nat && bool_decide (take 9 bs = Bytes.of_string "redirect:")
      then Some (Bytes.to_string (drop 9 bs)) else None
  end.

(** ** Reading what was written *)

Lemma readFull_app a b n : n = length a → readFull n (a ++ b) = Some (a, b).
Proof.
  intros ->. unfold readFull. rewrite (proj2 (Nat.leb_le _ _)) by (rewrite length_app; lia).
  by rewrite take_app_length, drop_app_length.
Qed.

Lemma readFull_short n l : (length l < n)%nat → readFull n l = None.
Proof. intros H. unfold readFull. by rewrite (proj2 (Nat.leb_gt _ _)). Qed.

Lemma sub_app i j a b c : i = length a → (j - i)%nat = length b → sub i j (a ++ b ++ c) = b.
Proof. intros -> Hb. unfold sub. rewrite drop_app_length. by apply take_app_exact. Qed.

Lemma unbe_uint n w z : Z.of_nat (8 * n) = w → Bytes.unbe (Bytes.be n (uint w z)) = z mod 2 ^ w.
Proof.
  intros <-. rewrite Bytes.unbe_be. unfold uint.
  replace (256 ^ Z.of_nat n) with (2 ^ Z.of_nat (8 * n)).
  - rewrite Z.mod_mod; [done|]. apply Z.pow_nonzero; lia.
  - rewrite Nat2Z.inj_mul, Z.pow_mul_r by lia. done.
Qed.

Lemma signed_be n w z : 0 < w → Z.of_nat (8 * n) = w → in_sint w z → sint w (Bytes.unbe (Bytes.be n (uint w z))) = z.
Proof. intros Hw Hn Hz. rewrite unbe_uint by done. change (z mod 2 ^ w) with (uint w z). by apply sint_uint. Qed.

Lemma int64_be z : in_sint 64 z → int64 (Bytes.unbe (Bytes.be 8 (uint64 z))) = z.
Proof. by apply (signed_be 8 64). Qed.

Lemma length_be_nat n w z :
  Z.of_nat (8 * n) = w → 0 ≤ z < 2 ^ w → Z.to_nat (Bytes.unbe (Bytes.be n (uint w z))) = Z.to_nat z.
Proof. intros Hn Hz. rewrite unbe_uint by done. by rewrite Z.mod_small. Qed.

#[local] Ltac bind_step := cbv beta iota zeta delta [mbind option_bind].

(** A frame with any command. *)
Lemma readRequest_frame cmd t p d conn :
  Z.of_nat (length (Bytes.of_string t)) < 2 ^ 16 → in_sint 32 p → Z.of_nat (length d) < 2 ^ 32 →
  readRequest (requestHeader cmd (Z.of_nat (length (Bytes.of_string t))) p (Z.of_nat (length d)) ++
    Bytes.of_string t ++ d ++ conn) = Some (mkRequest cmd t p d, conn).
Proof.
  intros Ht Hp Hd. unfold readRequest. rewrite (readFull_app (requestHeader _ _ _ _)) by done. bind_step.
  unfold requestHeader. set (tl := Bytes.be 2 _). set (pl := Bytes.be 4 (uint32 p)). set (dl := Bytes.be 4 _).
  rewrite bool_decide_true by done.
  change (([Magic; cmd] ++ tl ++ pl ++ dl) !! 1%nat) with (Some cmd). bind_step.
  assert (sub 2 4 ([Magic; cmd] ++ tl ++ pl ++ dl) = tl) as -> by (by apply sub_app).
  assert (sub 4 8 ([Magic; cmd] ++ tl ++ pl ++ dl) = pl) as ->.
  { rewrite (app_assoc [Magic; cmd] tl). by apply sub_app. }
  assert (sub 8 12 ([Magic; cmd] ++ tl ++ pl ++ dl) = dl) as ->.
  { rewrite <- (app_nil_r dl) at 1. rewrite (app_assoc [Magic; cmd] tl), (app_assoc (_ ++ tl) pl). by apply sub_app. }
  rewrite readFull_app by (unfold tl; rewrite (length_be_nat 2 16) by lia; lia). bind_step.
  rewrite readFull_app by (unfold dl; rewrite (length_be_nat 4 32) by lia; lia). bind_step.
  rewrite Bytes.to_of_string. do 3 f_equal. by apply (signed_be 4 32).
Qed.

(** ** A connection full of requests *)

(** What the clients send. *)
Inductive frame :=
| Produce (topic : string) (partition : Z) (data : list byte) (acks : Z)
| Fetch (topic : string) (partition offset maxBytes : Z).

Definition frame_bytes (f : frame) : list byte :=
  match f with
  | Produce t p d acks => produceFrame t p d acks
  | Fetch t p o m => fetchFrame t p o m
  end.

(** What the broker is meant to see. *)
Definition frame_request (f : frame) : Request :=
  match f with
  | Produce t p d acks => mkRequest CmdProduce t p (Bytes.of_Z acks :: d)
  | Fetch t p o m => mkRequest CmdFetch t p (Bytes.be 8 (uint64 o) ++ Bytes.be 4 (uint32 m))
  end.

(** The lengths fit the header's fields. *)
Definition frame_ok (f : frame) : Prop :=
  match f with
  | Produce t p d _ =>
      Z.of_nat (length (Bytes.of_string t)) < 2 ^ 16 ∧ in_sint 32 p ∧ Z.of_nat (length d) + 1 < 2 ^ 32
  | Fetch t p _ _ => Z.of_nat (length (Bytes.of_string t)) < 2 ^ 16 ∧ in_sint 32 p
  end.

Lemma readRequest_bytes f conn : frame_ok f → readRequest (frame_bytes f ++ conn) = Some (frame_request f, conn).
Proof.
  destruct f as [t p d acks|t p o m]; cbn [frame_bytes frame_request frame_ok]; unfold produceFrame, fetchFrame; cbv zeta.
  - intros (Ht & Hp & Hd). rewrite <- !app_assoc.
    replace (Z.of_nat (length d) + 1) with (Z.of_nat (length (Bytes.of_Z acks :: d))) by (simpl length; lia).
    apply readRequest_frame; [done..|]. simpl length. lia.
  - intros (Ht & Hp). set (d := Bytes.be 8 _ ++ Bytes.be 4 _). rewrite <- !app_assoc.
    apply readRequest_frame; [done..|]. subst d. rewrite length_app, !Bytes.length_be. lia.
Qed.

Lemma length_frame f : (1 ≤ length (frame_bytes f))%nat.
Proof. destruct f; unfold frame_bytes, produceFrame, fetchFrame, requestHeader; cbv zeta; rewrite !length_app; cbn [length]; lia. Qed.

(** C8: Requests are read as they were sent.  However many requests clients
    write one after the other on a connection, the broker reads exactly those
    commands, topics, partitions and payloads, as long as the lengths fit the
    header: 16 bits for the topic, 32 bits for the payload. *)
Theorem requests_roundtrip fs :
  Forall frame_ok fs →
  let conn := concat (frame_bytes <$> fs) in
  readRequests (length conn) conn = frame_request <$> fs.
Proof.
  intros Hfs. cbv zeta.
  cut (∀ fuel, (length fs ≤ fuel)%nat → readRequests fuel (concat (frame_bytes <$> fs)) = frame_request <$> fs).
  { intros H. apply H. clear. induction fs as [|f fs IH]; simpl; [lia|].
    rewrite length_app. pose proof (length_frame f). unfold fmap in IH. lia. }
  induction Hfs as [|f fs Hf Hfs IH]; intros fuel Hfuel; simpl.
  - by destruct fuel.
  - destruct fuel as [|fuel]; [simpl in Hfuel; lia|]. simpl. rewrite readRequest_bytes by done.
    f_equal. apply IH. simpl in Hfuel. lia.
Qed.

Definition demo_frames : list frame :=
  [Produce "orders" 3 [x68; x69] (-1); Fetch "orders" (-1) 20 1048576; Produce "" 0 [] 1].

Lemma demo_frames_ok : Forall frame_ok demo_frames.
Proof. repeat constructor; vm_compute; intuition congruence. Qed.

Lemma requests_roundtrip_witness :
  let conn := concat (frame_bytes <$> demo_frames) in
  readRequests (length conn) conn = frame_request <$> demo_frames.
Proof. exact (requests_roundtrip demo_frames demo_frames_ok). Defined.

(** ** Fetch responses *)

(** The numbers of a message fit their fields. *)
Definition message_ok (m : Message) : Prop :=
  in_sint 64 (Offset m) ∧ in_sint 64 (Timestamp m) ∧ Z.of_nat (length (Value m)) < 2 ^ 32.

Lemma unbe_len32 z : 0 ≤ z < 2 ^ 32 → Bytes.unbe (Bytes.be 4 (uint32 (int32 z))) = z.
Proof.
  intros Hz. rewrite (unbe_uint 4 32) by done. unfold int32, sint.
  rewrite Zminus_mod_idemp_l. replace (z + 2 ^ (32 - 1) - 2 ^ (32 - 1)) with z by lia. by apply Z.mod_small.
Qed.

Lemma readMessages_entries msgs conn :
  Forall message_ok msgs →
  readMessages (length msgs) (concat (entryBuf <$> msgs) ++ conn) = (msgs, Some conn).
Proof.
  induction 1 as [|m msgs (Ho & Ht & Hv) Hmsgs IH]; [done|]. simpl length. cbn [readMessages].
  change (concat (entryBuf <$> m :: msgs)) with (entryBuf m ++ concat (entryBuf <$> msgs)).
  unfold entryBuf at 1.
  set (ob := Bytes.be 8 (uint64 (Offset m))). set (tb := Bytes.be 8 (uint64 (Timestamp m))).
  set (lb := Bytes.be 4 _).
  replace (((ob ++ tb ++ lb ++ Value m) ++ concat (entryBuf <$> msgs)) ++ conn)
    with ((ob ++ tb ++ lb) ++ Value m ++ concat (entryBuf <$> msgs) ++ conn) by (by rewrite <- !app_assoc).
  rewrite readFull_app by done.
  assert (sub 0 8 (ob ++ tb ++ lb) = ob) as -> by (by apply (sub_app 0 8 [])).
  assert (sub 8 16 (ob ++ tb ++ lb) = tb) as -> by (by apply sub_app).
  assert (sub 16 20 (ob ++ tb ++ lb) = lb) as ->.
  { rewrite <- (app_nil_r lb) at 1. rewrite (app_assoc ob tb). by apply sub_app. }
  unfold lb. rewrite unbe_len32 by lia. rewrite readFull_app by lia. rewrite IH.
  unfold ob, tb. rewrite !int64_be by done. by destruct m.
Qed.

Lemma readFetch_response hw msgs conn :
  in_sint 64 hw → Forall message_ok msgs → Z.of_nat (length msgs) < 2 ^ 32 →
  readFetch (fetchResponse hw msgs ++ conn) = mkFetched msgs hw None (Some conn).
Proof.
  intros Hhw Hmsgs Hlen. unfold readFetch, fetchResponse.
  set (hb := Bytes.be 8 _). set (cb := Bytes.be 4 _).
  replace (([Magic; RespSuccess] ++ hb ++ cb ++ concat (entryBuf <$> msgs)) ++ conn)
    with (([Magic; RespSuccess] ++ hb ++ cb) ++ concat (entryBuf <$> msgs) ++ conn) by (by rewrite <- !app_assoc).
  rewrite readFull_app by done.
  rewrite bool_decide_true by done. cbn [negb]. rewrite bool_decide_true by done.
  assert (sub 2 10 ([Magic; RespSuccess] ++ hb ++ cb) = hb) as -> by (by apply sub_app).
  assert (sub 10 14 ([Magic; RespSuccess] ++ hb ++ cb) = cb) as ->.
  { rewrite <- (app_nil_r cb) at 1. rewrite (app_assoc [Magic; RespSuccess] hb). by apply sub_app. }
  unfold cb. rewrite (length_be_nat 4 32) by lia. rewrite Nat2Z.id, readMessages_entries by done.
  unfold hb. by rewrite int64_be.
Qed.

(** A fetch response is decoded to the messages the broker encoded, in
    order, with the high watermark, and the consumer is left at the byte
    after the response. *)
Theorem fetch_response_roundtrip hw msgs conn :
  in_sint 64 hw → Forall message_ok msgs → Z.of_nat (length msgs) < 2 ^ 32 →
  readFetch (fetchResponse hw msgs ++ conn) = mkFetched msgs hw None (Some conn).
Proof. apply readFetch_response. Qed.

Definition demo_messages : list Message := [mkMessage 42 7 [x61]; mkMessage (-1) 0 []].

Lemma demo_messages_ok : Forall message_ok demo_messages.
Proof. repeat constructor; vm_compute; intuition congruence. Qed.

Lemma fetch_response_roundtrip_witness :
  readFetch (fetchResponse 43 demo_messages ++ [Magic]) = mkFetched demo_messages 43 None (Some [Magic]).
Proof.
  exact (fetch_response_roundtrip 43 demo_messages [Magic] ltac:(unfold in_sint; lia) demo_messages_ok
    ltac:(simpl; lia)).
Defined.

(** ** Redirects and errors *)

(** A redirect names the leader, up to 255 bytes.  The producer is sent to
    the first [L mod 256] bytes of the leader's address, [L] being its length,
    because the length travels in one byte: that is the leader itself when the
    address is shorter than 256 bytes, and a truncated address when it is
    not. *)
Theorem redirect_reaches_producer leader offset :
  let bs := Bytes.of_string leader in
  (0 < length bs mod 256)%nat →
  isRedirectError (readProduce (sendResponse RespRedirect leader offset)) =
    Some (Bytes.to_string (take (length bs mod 256) bs)) ∧
  ((length bs < 256)%nat → Bytes.to_string (take (length bs mod 256) bs) = leader).
Proof.
  intros bs Hmod. split.
  2: { intros Hlen. rewrite Nat.mod_small by done. rewrite firstn_all. apply Bytes.to_of_string. }
  assert (length bs ≠ 0)%nat as Hne by (intros E; rewrite E in Hmod; simpl in Hmod; lia).
  pose proof (Nat.mod_le (length bs) 256 ltac:(lia)) as Hle.
  unfold sendResponse. rewrite bool_decide_true by done.
  rewrite (bool_decide_false (leader = "")) by (intros E; apply Hne; subst bs; by rewrite E).
  rewrite (bool_decide_false (RespRedirect = RespSuccess)) by done. cbn [negb andb]. rewrite app_nil_r.
  fold bs. set (lb := Bytes.of_Z _).
  assert (Bytes.unbe [lb] = Z.of_nat (length bs mod 256)) as Hlb.
  { rewrite Bytes.unbe_cons. unfold lb. rewrite Bytes.to_of_Z, Nat2Z.inj_mod.
    change (Bytes.unbe []) with 0. change (256 ^ Z.of_nat (length [])) with 1. change (Z.of_nat 256) with 256. lia. }
  unfold readProduce. cbn [app length].
  rewrite (proj2 (Nat.ltb_ge _ 2)) by lia. rewrite bool_decide_true by done. cbn [negb].
  rewrite (bool_decide_false (_ = Some RespSuccess)) by done. rewrite bool_decide_true by done.
  rewrite (proj2 (Nat.ltb_ge _ 3)) by lia. change (sub 2 3 (Magic :: RespRedirect :: lb :: bs)) with [lb].
  rewrite Hlb, Nat2Z.id. rewrite (proj2 (Nat.ltb_ge _ _)) by lia.
  assert (sub 3 (3 + length bs mod 256) (Magic :: RespRedirect :: lb :: bs) = take (length bs mod 256) bs) as ->.
  { unfold sub. replace (3 + length bs mod 256 - 3)%nat with (length bs mod 256)%nat by lia. done. }
  set (addr := take _ _). assert (0 < length addr)%nat by (unfold addr; rewrite length_take; lia).
  unfold isRedirectError. rewrite Bytes.of_string_app, Bytes.of_to_string, length_app.
  change (length (Bytes.of_string "redirect:")) with 9%nat. rewrite (proj2 (Nat.ltb_lt _ _)) by lia.
  rewrite take_app_exact, drop_app_exact by done. by rewrite bool_decide_true.
Qed.

Lemma redirect_reaches_producer_witness :
  isRedirectError (readProduce (sendResponse RespRedirect "broker-2:9092" 0)) = Some "broker-2:9092".
Proof.
  destruct (redirect_reaches_producer "broker-2:9092" 0) as [H1 H2]; [vm_compute; lia|].
  rewrite H1, H2 by (vm_compute; lia). reflexivity.
Defined.

(** An error response is too short for the consumer.  It has 2 bytes but
    the consumer reads a header of 14: on a connection that ends there the
    consumer sees the end of the file, and on one that goes on it takes the
    first 12 bytes of the next response for the rest of the header. *)
Theorem error_response_short leader offset conn :
  readFetch (sendResponse RespError leader offset) = mkFetched [] 0 (Some "EOF") None ∧
  ((12 ≤ length conn)%nat →
   readFetch (sendResponse RespError leader offset ++ conn) = mkFetched [] 0 (Some "server error") (Some (drop 12 conn))).
Proof.
  change (sendResponse RespError leader offset) with [Magic; RespError]. split; [done|]. intros Hlen.
  unfold readFetch, readFull. rewrite (proj2 (Nat.leb_le _ _)) by (simpl length; lia).
  change (take 14 ([Magic; RespError] ++ conn)) with (Magic :: RespError :: take 12 conn).
  change (drop 14 ([Magic; RespError] ++ conn)) with (drop 12 conn). reflexivity.
Qed.

Lemma error_response_short_witness :
  readFetch (sendResponse RespError "" 0 ++ fetchResponse 43 []) =
    mkFetched [] 0 (Some "server error") (Some (drop 12 (fetchResponse 43 []))).
Proof. destruct (error_response_short "" 0 (fetchResponse 43 [])) as [_ H]. apply H. vm_compute. lia. Defined.

End Wire.
