(* ===== verification/AuditLog.v ===== *)
(** * The audit log

    Models [cluster/go/audit/logger.go].  The channel is the list of records
    not yet written; a line of the file is the record it encodes.  The
    theorem: the file holds the accepted records in order, the channel never
    holds more than its 1000, and a record is dropped only when it is full. *)

From Stdlib Require Import ZArith Lia.
From stdpp Require Import base tactics list strings.
From S2P Require Import Prelude GoLib.

Open Scope Z_scope.

Module AuditLog.

Record AuditRecord := mkAuditRecord {
  Timestamp : Z; ClientIP : string; Operation : string; Topic : string; Partition : Z;
  Offset : Z; GroupID : string; MsgSize : Z }.

Record AuditLogger := mkAuditLogger { ch : list AuditRecord; logFile : list AuditRecord; fileOpen : bool }.

#[export] Instance eta_AuditRecord : Eta AuditRecord := λ r,
  mkAuditRecord (Timestamp r) (ClientIP r) (Operation r) (Topic r) (Partition r) (Offset r) (GroupID r) (MsgSize r).
#[export] Instance eta_AuditLogger : Eta AuditLogger := λ a, mkAuditLogger (ch a) (logFile a) (fileOpen a).

(** [None]: the directory or the file could not be made.  [existing] are the
    lines already in the file, which is opened for appending. *)
Definition NewAuditLogger (made : bool) (existing : list AuditRecord) : option AuditLogger :=
  if made then Some (mkAuditLogger [] existing true) else None.

(** [fails]: the write to the file fails; it always does after [Close]. *)
Definition write (now : Z) (fails : bool) (record : AuditRecord) (a : AuditLogger) : AuditLogger :=
  if fails || negb (fileOpen a) then a
  else a <| logFile ::= λ l, l ++ [record <| Timestamp := Time.UnixNano now |>] |>.

Definition capacity : nat := 1000.

Definition Log (record : AuditRecord) (a : AuditLogger) : AuditLogger :=
  if (length (ch a) <? capacity)%nat then a <| ch ::= λ l, l ++ [record] |> else a.

(** One round of [run] that takes a record from the channel. *)
Definition run (now : Z) (fails : bool) (a : AuditLogger) : AuditLogger :=
  match ch a with
  | [] => a
  | record :: l => write now fails record (a <| ch := l |>)
  end.

Definition Close (a : AuditLogger) : AuditLogger := a <| fileOpen := false |>.

Definition LogProduce (clientIP topic : string) (partition offset msgSize : Z) : AuditLogger → AuditLogger :=
  Log (mkAuditRecord 0 clientIP "PRODUCE" topic partition offset "" msgSize).

Definition LogConsume (clientIP topic : string) (partition offset : Z) (groupID : string) (msgSize : Z) :
    AuditLogger → AuditLogger :=
  Log (mkAuditRecord 0 clientIP "CONSUME" topic partition offset groupID msgSize).

(** ** Executions *)

Inductive op := OLog (r : AuditRecord) | ORun (now : Z).

Definition step (o : op) (a : AuditLogger) : AuditLogger :=
  match o with OLog r => Log r a | ORun now => run now false a end.

Definition exec (ops : list op) (a : AuditLogger) : AuditLogger := foldl (λ a o, step o a) a ops.

(** The records that were not dropped, in the order they were logged. *)
Fixpoint accepted (ops : list op) (a : AuditLogger) : list AuditRecord :=
  match ops with
  | [] => []
  | o :: ops =>
      (match o with OLog r => if (length (ch a) <? capacity)%nat then [r] else [] | ORun _ => [] end)
        ++ accepted ops (step o a)
  end.

(** A record without the time it was written. *)
Definition strip (r : AuditRecord) : AuditRecord := r <| Timestamp := 0 |>.

(** C35: The audit trail is complete and in order.  While the logger is open and
    its file can be written, the lines added to the file followed by the
    records in the channel are exactly the accepted records, in order, and
    the channel holds at most 1000 of them. *)
Theorem audit_trail ops a :
  fileOpen a = true → (length (ch a) ≤ capacity)%nat →
  let a' := exec ops a in
  strip <$> (logFile a' ++ ch a') = strip <$> (logFile a ++ ch a ++ accepted ops a) ∧
  (length (ch a') ≤ capacity)%nat ∧ fileOpen a' = true.
Proof.
  revert a. induction ops as [|o ops IH]; intros a Hopen Hcap; cbn [exec foldl accepted].
  { by rewrite app_nil_r. }
  assert (fileOpen (step o a) = true ∧ (length (ch (step o a)) ≤ capacity)%nat ∧
    strip <$> (logFile (step o a) ++ ch (step o a)) = strip <$> (logFile a ++ ch a ++
      (match o with OLog r => if (length (ch a) <? capacity)%nat then [r] else [] | ORun _ => [] end)))
    as (Ho & Hc & E).
  { destruct o as [r|now]; cbn [step].
    - unfold Log. destruct (_ <? _)%nat eqn:Elt; [|by rewrite !app_nil_r].
      apply Nat.ltb_lt in Elt. simpl. rewrite length_app. simpl. split_and!; [done|lia|]. by rewrite app_assoc.
    - unfold run. destruct (ch a) as [|r l] eqn:El; [by rewrite El, !app_nil_r|].
      unfold write. simpl. rewrite Hopen. simpl. split_and!; [done|simpl in Hcap; lia|].
      rewrite !app_nil_r, !fmap_app. simpl. by rewrite <- app_assoc. }
  destruct (IH _ Ho Hc) as (E' & ? & ?). split_and!; [|done..].
  change (foldl (λ a o, step o a) (step o a) ops) with (exec ops (step o a)). rewrite E'.
  rewrite app_assoc, fmap_app, E, <- fmap_app. by rewrite <- !app_assoc.
Qed.

Lemma audit_trail_witness :
  let a := mkAuditLogger [] [] true in
  let r := mkAuditRecord 0 "10.0.0.1" "PRODUCE" "t" 0 0 "" 3 in
  strip <$> (logFile (exec [OLog r; ORun 5; OLog r] a) ++ ch (exec [OLog r; ORun 5; OLog r] a)) = [r; r].
Proof.
  intros a r. destruct (audit_trail [OLog r; ORun 5; OLog r] a) as [H _]; [reflexivity|vm_compute; lia|].
  rewrite H. reflexivity.
Defined.
End AuditLog.
