(* ===== verification/Config.v ===== *)
(** * Configuration and the entry point

    Models the defaults of [cluster/go/config/config.go] and [main] of
    [cluster/go/main.go]; reading the file and the environment is done by the
    viper library, whose outcome is an argument. *)

From Stdlib Require Import ZArith Lia.
From stdpp Require Import base tactics strings.
From S2P Require Import Prelude GoLib.

Open Scope Z_scope.

Module Config.

Record Config := mkConfig {
  Role : string; Addr : string; ClientAddr : string; HTTPPort : Z; NameServer : string;
  DataDir : string; RetentionMs : Z; RetentionBytes : Z }.

#[export] Instance eta_Config : Eta Config := λ c,
  mkConfig (Role c) (Addr c) (ClientAddr c) (HTTPPort c) (NameServer c) (DataDir c) (RetentionMs c) (RetentionBytes c).

Definition default_string (d s : string) : string := if bool_decide (s = "") then d else s.
Definition default_int (d n : Z) : Z := if n =? 0 then d else n.

Definition setDefaults (c : Config) : Config :=
  c <| Addr ::= default_string "localhost:8080" |>
    <| ClientAddr ::= default_string "localhost:9092" |>
    <| HTTPPort ::= default_int 8080 |>
    <| NameServer ::= default_string "http://localhost:9090" |>
    <| DataDir ::= default_string "./data" |>
    <| RetentionMs ::= default_int (7 * 24 * 60 * 60 * 1000) |>.

(** The outcome of the library calls: reading the file, which may not be
    found, and decoding it. *)
Inductive ReadInConfig := Read | ConfigFileNotFound | ReadError (err : string).

Definition LoadConfig (read : ReadInConfig) (unmarshal : result Config) : result Config :=
  match read with
  | ReadError e => Err ("failed to read config: " +:+ e)
  | Read | ConfigFileNotFound =>
      match unmarshal with
      | Err e => Err ("failed to unmarshal config: " +:+ e)
      | Ok c => Ok (setDefaults c)
      end
  end.

(** What [main] does with the configuration. *)
Inductive action :=
| WriteExample
| Fatal (err : string)
| RunNameServer (addr : string) (httpPort : Z)
| RunBroker (addr clientAddr : string) (httpPort : Z) (nameserver dataDir : string) (retentionMs retentionBytes : Z)
| Usage.

Definition main (generateConfig : bool) (read : ReadInConfig) (unmarshal : result Config) : action :=
  if generateConfig then WriteExample
  else
    match LoadConfig read unmarshal with
    | Err e => Fatal ("Failed to load config: " +:+ e)
    | Ok cfg =>
        if bool_decide (Role cfg = "nameserver") then RunNameServer (Addr cfg) (HTTPPort cfg)
        else if bool_decide (Role cfg = "broker") then
          RunBroker (Addr cfg) (ClientAddr cfg) (HTTPPort cfg) (NameServer cfg) (DataDir cfg) (RetentionMs cfg)
            (RetentionBytes cfg)
        else Usage
    end.

(** By default a broker listens twice on the same port: for Raft at its
    address and for HTTP. *)
Lemma default_ports_clash c :
  Role c = "broker" → Addr c = "" → HTTPPort c = 0 →
  ∃ ca ns dd ms bytes, main false Read (Ok c) = RunBroker "localhost:8080" ca 8080 ns dd ms bytes.
Proof.
  intros Hr Ha Hp. unfold main, LoadConfig, setDefaults. simpl. rewrite Hr, Ha, Hp. simpl. by repeat eexists.
Qed.

(** A loaded configuration is complete: no address, directory, port or
    retention time is left at its zero value, and what the file or the
    environment set is kept.  Applying the defaults again changes nothing. *)
Theorem LoadConfig_complete read c c' :
  LoadConfig read (Ok c) = Ok c' →
  (Addr c' ≠ "" ∧ ClientAddr c' ≠ "" ∧ NameServer c' ≠ "" ∧ DataDir c' ≠ "" ∧ HTTPPort c' ≠ 0 ∧ RetentionMs c' ≠ 0) ∧
  (Addr c ≠ "" → Addr c' = Addr c) ∧ (ClientAddr c ≠ "" → ClientAddr c' = ClientAddr c) ∧
  (NameServer c ≠ "" → NameServer c' = NameServer c) ∧ (DataDir c ≠ "" → DataDir c' = DataDir c) ∧
  (HTTPPort c ≠ 0 → HTTPPort c' = HTTPPort c) ∧ (RetentionMs c ≠ 0 → RetentionMs c' = RetentionMs c) ∧
  Role c' = Role c ∧ RetentionBytes c' = RetentionBytes c ∧ setDefaults c' = c'.
Proof.
  intros H. assert (c' = setDefaults c) as -> by (destruct read; simpl in H; congruence).
  unfold setDefaults, default_string, default_int. destruct c; simpl.
  split_and!; intros; repeat (case_bool_decide || case_match; bool_to_prop); simplify_eq; done.
Qed.

Lemma LoadConfig_complete_witness :
  let c := mkConfig "broker" "" "h:1" 0 "" "" 5 0 in
  LoadConfig ConfigFileNotFound (Ok c) = Ok (setDefaults c) ∧ ClientAddr (setDefaults c) = "h:1".
Proof.
  intros c. split; [reflexivity|].
  destruct (LoadConfig_complete ConfigFileNotFound c (setDefaults c) eq_refl) as (_ & _ & H & _). apply H. discriminate.
Defined.
End Config.
