(* ===== verification/Broker.v ===== *)
(** * The broker

    Models [cluster/go/broker/broker.go].  The replicated log is an
    interface, [Replication]: what the broker calls of the package [raft].
    The other packages are the models of the files this one requires.  A
    request to the name server is an HTTP exchange: the URL is computed and
    the network is an argument, the function from URLs to outcomes.  The
    decoding of JSON bodies is an argument as well.  Every operation that
    takes [b.mu] holds it while it touches the broker's own fields, so an
    operation is one step; a client connection is the list of bytes written
    to it.

    The fields [offsetCache] and [txnManager], which no code reads, [httpPort],
    which is only listened on, and the tickers and channels of the goroutines
    are left out.

    File names are [filepath.Join] of a clean data directory and names without
    dot elements, that is, the parts with a slash between them. *)

From Stdlib Require Import ZArith Lia Strings.Byte.
From stdpp Require Import base tactics list gmap strings fin_maps.
From S2P Require Import Prelude GoLib Raft Idempotent Storage TimeWheel Namespace Tracing AuditLog Wire.

Open Scope Z_scope.

Module Broker.

Import Int.

(** ** What the broker needs of the replicated log *)

(** [SubmitCommand] returns the index of the new entry and the channel that
    is closed when it is committed; [Closed] tells whether a channel is;
    [IsLeader] is [GetState] compared with [Leader]. *)
Class Replication (R : Type) := {
  SubmitCommand : string → Z → list byte → prog R (result (Z * Z));
  Closed : Z → R → bool;
  IsLeader : prog R bool;
}.

(** What was handed to the log so far; a submission that succeeds adds one
    command, one that fails adds nothing. *)
Class ReplicationLaws (R : Type) `{!Replication R} := {
  submitted : R → list (string * Z * list byte);
  submit_ok t p d r x r' : SubmitCommand t p d r = Ret (Ok x) r' → submitted r' = submitted r ++ [(t, p, d)];
  submit_err t p d r e r' : SubmitCommand t p d r = Ret (Err e) r' → submitted r' = submitted r;
}.

(** ** Data *)

Record Message := mkMessage {
  Topic : string; Partition : Z; Key : string; Value : list byte; Offset : Z; Timestamp : Z }.

Record RetryMessage := mkRetryMessage {
  rm_Topic : string; rm_Partition : Z; rm_Offset : Z; rm_Data : list byte; RetryCount : Z; NextRetryAt : Z }.

Record TopicPartition := mkTopicPartition {
  tp_Topic : string; tp_Partition : Z; commitLog : Storage.CommitLog; index : Storage.SparseIndex }.

Record Broker (R : Type) := mkBroker {
  brokerID : Z;
  addr : string;
  clientAddr : string;
  nameserverURL : string;
  topics : gmap string TopicPartition;
  raftNode : R;
  dataDir : string;
  retentionMs : Z;
  retentionBytes : Z;
  retryQueue : list RetryMessage;
  auditLogger : option AuditLog.AuditLogger;
  timeWheel : TimeWheel.TimeWheel;
  tracer : Tracing.Tracer;
  namespaceManager : Namespace.NamespaceManager;
  idempotentMgr : Idempotent.IdempotentManager;
  fs : Storage.FS }.

Arguments mkBroker {R}.
Arguments brokerID {R} _.
Arguments addr {R} _.
Arguments clientAddr {R} _.
Arguments nameserverURL {R} _.
Arguments topics {R} _.
Arguments raftNode {R} _.
Arguments dataDir {R} _.
Arguments retentionMs {R} _.
Arguments retentionBytes {R} _.
Arguments retryQueue {R} _.
Arguments auditLogger {R} _.
Arguments timeWheel {R} _.
Arguments tracer {R} _.
Arguments namespaceManager {R} _.
Arguments idempotentMgr {R} _.
Arguments fs {R} _.

#[export] Instance eta_TopicPartition : Eta TopicPartition := λ t,
  mkTopicPartition (tp_Topic t) (tp_Partition t) (commitLog t) (index t).
#[export] Instance eta_Broker R : Eta (Broker R) := λ b,
  mkBroker (brokerID b) (addr b) (clientAddr b) (nameserverURL b) (topics b) (raftNode b) (dataDir b)
    (retentionMs b) (retentionBytes b) (retryQueue b) (auditLogger b) (timeWheel b) (tracer b) (namespaceManager b)
    (idempotentMgr b) (fs b).

Definition MaxRetryCount : Z := 3.

(** [fmt.Sprintf("%s-%d", topic, partition)]: the key of a partition. *)
Definition partitionKey (topic : string) (partition : Z) : string := topic +:+ "-" +:+ Fmt.d partition.

(** The files of a partition's commit log, and the directory that the
    clean-up looks in. *)
Definition logPath (dataDir key : string) : string := dataDir +:+ "/commitlog/" +:+ key +:+ ".log".
Definition segmentDir (dataDir key : string) : string := dataDir +:+ "/commitlog/" +:+ key.

Record RouteInfo := mkRouteInfo {
  ri_Topic : string; ri_Partition : Z; ri_Leader : string; ri_Replicas : list string; ri_ISR : list string }.
Definition zeroRoute : RouteInfo := mkRouteInfo "" 0 "" [] [].

(** The outcome of [http.Get]: it failed, or there is a status and the
    decoded body, [None] when it cannot be read or decoded. *)
Inductive http (A : Type) := HttpErr (err : string) | HttpReply (status : Z) (body : A).
Arguments HttpErr {A} _.
Arguments HttpReply {A} _ _.

(** A body that cannot be decoded leaves the zero [RouteInfo]. *)
Definition getRoute (nameserverURL : string) (net : string → http (option RouteInfo)) (topic key : string) :
    result RouteInfo :=
  match net (nameserverURL +:+ "/route?topic=" +:+ topic +:+ "&key=" +:+ key) with
  | HttpErr e => Err e
  | HttpReply status body => if status =? 200 then Ok (default zeroRoute body) else Err "failed to get route"
  end.

Definition GetPartitionLeader (nameserverURL : string) (net : string → http (option RouteInfo)) (topic : string) :
    result string :=
  match getRoute nameserverURL net topic "" with Ok route => Ok (ri_Leader route) | Err e => Err e end.

Definition CreateTopic (nameserverURL : string) (net : string → http unit) (topic : string) (partitions : Z) :
    result unit :=
  match net (nameserverURL +:+ "/topic/create?topic=" +:+ topic +:+ "&partitions=" +:+ Fmt.d partitions) with
  | HttpErr e => Err e
  | HttpReply status _ => if status =? 200 then Ok tt else Err "failed to create topic"
  end.

(** The first loop of [registerAndInitializeRaft], on the outcomes of its
    requests: the broker id of the first that succeeds; [None] while none
    has. *)
Fixpoint registerLoop (replies : list (http (option Z))) : option Z :=
  match replies with
  | [] => None
  | HttpReply status (Some id) :: replies => if status =? 200 then Some id else registerLoop replies
  | _ :: replies => registerLoop replies
  end.

(** The peers the node is built with: those the name server lists, when it
    can be asked, but the broker itself. *)
Definition peersFor (self : string) (reply : http (option (list string))) : list string :=
  match reply with
  | HttpErr _ | HttpReply _ None => []
  | HttpReply _ (Some peers) => filter (λ p, p ≠ self) peers
  end.

Section broker.
Context {R : Type} `{!Replication R}.
Notation broker := (Broker R).

(** Runs an operation of the replicated log on the broker's node. *)
Definition raft {A} (m : prog R A) : prog broker A := λ b,
  match m (raftNode b) with
  | Ret a r => Ret a (b <| raftNode := r |>)
  | Blocked r => Blocked (b <| raftNode := r |>)
  | Panic r => Panic (b <| raftNode := r |>)
  end.

(** [registerAndInitializeRaft] on a broker without a node; [mk] is
    [raft.NewRaftNode] at the broker's address and directory. *)
Definition registerAndInitializeRaft (replies : list (http (option Z))) (peers : http (option (list string)))
    (mk : list string → R) (b : R → broker) (self : string) : option broker :=
  id ← registerLoop replies;
  Some (b (mk (peersFor self peers)) <| brokerID := id |>).

(** [None]: the name server has not accepted the broker yet. *)
Definition NewBroker (addr clientAddr nameserverURL dataDir : string) (audit : option AuditLog.AuditLogger)
    (replies : list (http (option Z))) (peers : http (option (list string))) (mk : list string → R)
    (disk : Storage.FS) : option broker :=
  registerAndInitializeRaft replies peers mk (λ node,
    mkBroker 0 addr clientAddr nameserverURL ∅ node dataDir (7 * 24 * 60 * 60 * 1000) 0 [] audit
      (TimeWheel.NewTimeWheel 100 3600) (Tracing.NewTracer 1000 (5 * 60 * Time.Second))
      Namespace.NewNamespaceManager (Idempotent.NewIdempotentManager 10000 (10 * 60 * Time.Second)) disk) addr.

Definition SetRetention (ms bytes : Z) (b : broker) : broker :=
  b <| retentionMs := ms |> <| retentionBytes := bytes |>.

(** The loop over the partitions, in the order [order]. *)
Definition cleanupOldSegments (now : Z) (order : list (string * TopicPartition)) (b : broker) : broker :=
  foldl (λ b '(_, tp),
    b <| fs := (Storage.CleanupOldSegments (segmentDir (dataDir b) (partitionKey (tp_Topic tp) (tp_Partition tp)))
                  now (retentionMs b) (retentionBytes b) (fs b)).2 |>) b order.

(** ** Retries and delayed messages *)

(** The loop of [processRetryQueue]; [newQueue] is built on the way. *)
Fixpoint retryLoop (now : Z) (queue newQueue : list RetryMessage) : prog broker (list RetryMessage) :=
  match queue with
  | [] => mret newQueue
  | msg :: queue =>
      if Time.After (NextRetryAt msg) now then retryLoop now queue (newQueue ++ [msg])
      else
        res ← raft (SubmitCommand (rm_Topic msg +:+ "_RETRY") (int32 (rm_Partition msg)) (rm_Data msg));
        match res with
        | Err _ => retryLoop now queue (newQueue ++ [msg])
        | Ok _ => retryLoop now queue newQueue
        end
  end.

Definition processRetryQueue (now : Z) : prog broker unit :=
  queue ← gets retryQueue;
  newQueue ← retryLoop now queue [];
  modify (λ b, b <| retryQueue := newQueue |>).

(** One message from the time wheel's channel. *)
Definition processDelayed (msg : TimeWheel.DelayedMessage) : prog broker unit :=
  b ← get;
  match topics b !! TimeWheel.Topic msg with
  | None => mret tt
  | Some _ =>
      _ ← raft (SubmitCommand (TimeWheel.Topic msg) (int32 (TimeWheel.Partition msg)) (TimeWheel.Data msg));
      mret tt
  end.

(** [handleTCPAck]: the bytes of the response. *)
Definition handleTCPAck (now : Z) (topic : string) (partition : Z) (data : list byte) : prog broker (list byte) :=
  let refuse := Wire.sendResponse Wire.RespError "" 0 in
  if (length data <? 9)%nat then mret refuse
  else
    let offset := int64 (Bytes.unbe (take 8 data)) in
    let status := default x00 (data !! 8%nat) in
    if bool_decide (status = x00) then mret (Wire.sendResponse Wire.RespSuccess "" 0)
    else
      b ← get;
      match topics b !! topic with
      | None => mret refuse
      | Some _ =>
          let retryCount := (if (10 <=? length data)%nat then Bytes.to_Z (default x00 (data !! 9%nat)) else 0) + 1 in
          if retryCount >=? MaxRetryCount then
            if (length data <? 11)%nat then mret refuse
            else
              res ← raft (SubmitCommand (topic +:+ "_DLQ") partition (drop 10 data));
              mret (match res with Err _ => refuse | Ok _ => Wire.sendResponse Wire.RespDLQ "" 0 end)
          else if (length data <? 11)%nat then mret refuse
          else
            modify (λ b, b <| retryQueue ::= λ q, q ++
              [mkRetryMessage topic partition offset (drop 10 data) retryCount (Time.Add now (5 * Time.Second))] |>);;
            mret (Wire.sendResponse Wire.RespRetried "" 0)
      end.

(** ** Applying committed entries *)

(** What the environment decides while one entry is applied: the outcome of
    the file operations and the clock readings of [Append] and [Put]. *)
Record env := mkEnv { env_io : Storage.io; env_append : Z; env_put : Z }.

(** The directories can be made, so neither panics. *)
Definition openCommitLog (topic : string) (partition : Z) (b : broker) : Storage.State :=
  Storage.OpenCommitLog (logPath (dataDir b) (partitionKey topic partition)) (fs b).

Definition openSparseIndex : Storage.SparseIndex := Storage.OpenSparseIndex.

Definition getOrCreateTopicPartition (topic : string) (partition : Z) (b : broker) : TopicPartition * broker :=
  let key := partitionKey topic partition in
  match topics b !! key with
  | Some tp => (tp, b)
  | None =>
      let s := openCommitLog topic partition b in
      let tp := mkTopicPartition topic partition (Storage.cl s) openSparseIndex in
      (tp, b <| topics ::= <[key := tp]> |> <| fs := Storage.fs s |>)
  end.

(** The first loop of [applyBatch], on one entry.  A partition's struct is
    shared through its pointer, so the table sees the new log and index. *)
Definition applyEntry (e : env) (entry : Raft.LogEntry) (b : broker) : broker :=
  let key := partitionKey (Raft.Topic entry) (Raft.Partition entry) in
  let '(tp, b) := getOrCreateTopicPartition (Raft.Topic entry) (Raft.Partition entry) b in
  let '(res, s) := Storage.Append (env_io e) (env_append e) (Raft.Data entry) (Storage.mkState (commitLog tp) (fs b)) in
  let idx := match res with
    | Err _ => index tp
    | Ok offset => Storage.Put offset (int32 (Z.of_nat (length (Raft.Data entry)))) (Time.UnixNano (env_put e)) (index tp)
    end in
  b <| topics ::= <[key := tp <| commitLog := Storage.cl s |> <| index := idx |>]> |> <| fs := Storage.fs s |>.

(** [applyBatch]; the second loop only flushes files to disk. *)
Definition applyBatch (batch : list (env * Raft.LogEntry)) (b : broker) : broker :=
  foldl (λ b '(e, entry), applyEntry e entry b) b batch.

(** What [handleApply] waits for. *)
Inductive applyEvent :=
| EvEntry (e : env) (entry : Raft.LogEntry)
| EvClosed
| EvTimer
| EvStop.

(** One round of the loop of [handleApply]: the batch, [None] once the
    goroutine has returned.  The timer may fire at any time. *)
Definition handleApply_step (ev : applyEvent) (st : option (list (env * Raft.LogEntry)) * broker) :
    option (list (env * Raft.LogEntry)) * broker :=
  match st with
  | (None, b) => (None, b)
  | (Some batch, b) =>
      match ev with
      | EvStop | EvClosed => (None, if (0 <? length batch)%nat then applyBatch batch b else b)
      | EvTimer => if (0 <? length batch)%nat then (Some [], applyBatch batch b) else (Some batch, b)
      | EvEntry e entry =>
          let batch := batch ++ [(e, entry)] in
          if (100 <=? length batch)%nat then (Some [], applyBatch batch b) else (Some batch, b)
      end
  end.

Definition handleApply (evs : list applyEvent) (b : broker) : option (list (env * Raft.LogEntry)) * broker :=
  foldl (λ st ev, handleApply_step ev st) (Some [], b) evs.

(** ** Reading *)

(** The entry of a message, read from the commit log; [None] when [Read]
    panics. *)
Definition readEntry (topic : string) (partition : Z) (tp : TopicPartition) (disk : Storage.FS)
    (e : Storage.IndexEntry) : option (result Message) :=
  res ← Storage.Read (Storage.Offset e) (Storage.Size e) (Storage.mkState (commitLog tp) disk);
  Some (match res with
    | Err err => Err err
    | Ok data => Ok (mkMessage topic partition "" data (Storage.Offset e) (Storage.Timestamp e))
    end).

(** The loop of [Consume]: an entry that cannot be read is skipped. *)
Fixpoint consumeLoop (read : Storage.IndexEntry → option (result Message)) (entries : list Storage.IndexEntry) :
    option (list Message) :=
  match entries with
  | [] => Some []
  | e :: entries =>
      res ← read e;
      msgs ← consumeLoop read entries;
      Some (match res with Ok m => m :: msgs | Err _ => msgs end)
  end.

(** The loop of [Fetch], with the number of messages and of bytes so far. *)
Fixpoint fetchLoop (read : Storage.IndexEntry → option (result Message)) (maxBytes : Z)
    (entries : list Storage.IndexEntry) (count totalBytes : Z) : option (list Message) :=
  match entries with
  | [] => Some []
  | e :: entries =>
      if (totalBytes + Storage.Size e >? maxBytes) && (count >? 0) then Some []
      else
        res ← read e;
        match res with
        | Err _ => fetchLoop read maxBytes entries count totalBytes
        | Ok m => cons m <$> fetchLoop read maxBytes entries (count + 1) (totalBytes + Storage.Size e)
        end
  end.

(** [order] is the iteration order of the partition's index. *)
Definition Consume (order : list (Z * Storage.IndexEntry)) (topic : string) (partition offset : Z) (userID : string)
    (b : broker) : option (result (list Message)) :=
  match Namespace.CheckPermission userID topic Namespace.ActionConsume (namespaceManager b) with
  | Err e => Some (Err e)
  | Ok false => Some (Err ("permission denied: user " +:+ userID +:+ " cannot consume from topic " +:+ topic))
  | Ok true =>
      match topics b !! partitionKey topic partition with
      | None => Some (Err "topic partition not found")
      | Some tp =>
          msgs ← consumeLoop (readEntry topic partition tp (fs b)) (Storage.GetEntriesAfter order offset);
          Some (Ok msgs)
      end
  end.

Definition Fetch (order : list (Z * Storage.IndexEntry)) (topic : string) (partition offset maxBytes : Z)
    (b : broker) : option (result (list Message * Z)) :=
  match topics b !! partitionKey topic partition with
  | None => Some (Err "topic partition not found")
  | Some tp =>
      let entries := Storage.GetEntriesAfter order offset in
      let highWatermark := match last entries with Some e => Storage.Offset e + 1 | None => 0 end in
      msgs ← fetchLoop (readEntry topic partition tp (fs b)) maxBytes entries 0 0;
      Some (Ok (msgs, highWatermark))
  end.

(** ** Producing *)

(** The clock readings and iteration orders [Produce] takes. *)
Record produceEnv := mkProduceEnv {
  pe_idem : list (string * Idempotent.ProducerState); pe_now : Z;
  pe_traces : list (string * Tracing.TraceContext); pe_t1 : Z; pe_t2 : Z; pe_t3 : Z; pe_count : Z;
  pe_event : Z; pe_msg : Z; pe_end : Z }.

Definition trace_details (l : list (string * string)) : gmap string string := list_to_map l.

(** The part of [Produce] after the idempotence check: trace and submit. *)
Definition submitTraced (pe : produceEnv) (topic key : string) (value : list byte) (userID producerID : string)
    (seqNum partition : Z) : prog broker (result Message) :=
  b ← get;
  let '(traceCtx, tr) := Tracing.StartTrace (pe_traces pe) (pe_t1 pe) (pe_t2 pe) (pe_t3 pe) (pe_count pe)
                           topic partition (tracer b) in
  let traceID := Tracing.TraceID traceCtx in
  modify (λ b, b <| tracer := Tracing.AddEvent (pe_event pe) traceID Tracing.TraceEventProduce "broker" (addr b)
    (trace_details [("topic", topic); ("partition", Fmt.d partition); ("key", key);
       ("size", Fmt.d (Z.of_nat (length value))); ("userID", userID); ("producerID", producerID);
       ("seqNum", Fmt.d seqNum)]) tr |>);;
  let msg := mkMessage topic partition key value 0 (Time.UnixNano (pe_msg pe)) in
  res ← raft (SubmitCommand topic (int32 partition) value);
  match res with
  | Err e =>
      modify (λ b, b <| tracer ::= Tracing.AddEvent (pe_end pe) traceID Tracing.TraceEventDLQ "broker" (addr b)
        (trace_details [("error", e)]) |>);;
      mret (Err e)
  | Ok _ =>
      modify (λ b, b <| tracer ::= Tracing.AddEvent (pe_end pe) traceID Tracing.TraceEventReplicate "broker" (addr b)
        (trace_details [("status", "submitted")]) |>);;
      mret (Ok msg)
  end.

Definition Produce (pe : produceEnv) (net : string → http (option RouteInfo)) (topic key : string) (value : list byte)
    (userID producerID : string) (seqNum : Z) : prog broker (result Message) :=
  b ← get;
  match Namespace.CheckPermission userID topic Namespace.ActionProduce (namespaceManager b) with
  | Err e => mret (Err e)
  | Ok false => mret (Err ("permission denied: user " +:+ userID +:+ " cannot produce to topic " +:+ topic))
  | Ok true =>
      match getRoute (nameserverURL b) net topic key with
      | Err e => mret (Err e)
      | Ok route =>
          if bool_decide (ri_Leader route ≠ clientAddr b) then
            mret (Err ("not leader, leader is " +:+ ri_Leader route))
          else
            let partition := ri_Partition route in
            let submit := submitTraced pe topic key value userID producerID seqNum partition in
            if bool_decide (producerID = "") then submit
            else
              let '(res, im) := Idempotent.CheckAndRecord (pe_idem pe) (pe_now pe) producerID seqNum
                                  (partitionKey topic partition) (idempotentMgr b) in
              modify (λ b, b <| idempotentMgr := im |>);;
              match res with
              | Err e => mret (Err e)
              | Ok false => mret (Ok (mkMessage topic partition key value 0 (Time.UnixNano (pe_msg pe))))
              | Ok true => submit
              end
      end
  end.

(** ** The TCP interface *)

(** [net'] is the network at the second request; [elapse] is what the
    goroutines of the node do while the handler waits for the commit channel,
    until the channel is closed or 5 seconds have passed. *)
Definition handleTCPProduce (net net' : string → http (option RouteInfo)) (elapse : R → R) (clientIP : string)
    (topic : string) (partition : Z) (data : list byte) : prog broker (list byte) :=
  b ← get;
  match GetPartitionLeader (nameserverURL b) net topic with
  | Err _ => mret (Wire.sendResponse Wire.RespError "" 0)
  | Ok leader =>
      if bool_decide (leader ≠ clientAddr b) then mret (Wire.sendResponse Wire.RespRedirect leader 0)
      else
        isLeader ← raft IsLeader;
        if negb isLeader then
          mret (Wire.sendResponse Wire.RespRedirect
                  (match GetPartitionLeader (nameserverURL b) net' topic with Ok newLeader => newLeader | Err _ => leader end) 0)
        else
          let '(acks, msgData) := match data with
            | [] => (1, data)
            | a :: rest => (int8 (Bytes.to_Z a), rest)
            end in
          res ← raft (SubmitCommand topic partition msgData);
          match res with
          | Err _ => mret (Wire.sendResponse Wire.RespError "" 0)
          | Ok (entryIndex, commitCh) =>
              when (acks =? -1) (modify (λ b, b <| raftNode ::= elapse |>));;
              b ← get;
              if (acks =? -1) && negb (Closed commitCh (raftNode b))
              then mret (Wire.sendResponse Wire.RespError "" 0)
              else
                modify (λ b, b <| auditLogger ::=
                  fmap (AuditLog.LogProduce clientIP topic partition 0 (Z.of_nat (length msgData))) |>);;
                mret (Wire.sendResponse Wire.RespSuccess "" (int64 entryIndex))
          end
  end.

(** A message as the response carries it. *)
Definition wireMessage (m : Message) : Wire.Message := Wire.mkMessage (Offset m) (Timestamp m) (Value m).

Definition handleTCPFetch (order : list (Z * Storage.IndexEntry)) (clientIP : string) (topic : string) (partition : Z)
    (data : list byte) : prog broker (list byte) :=
  let refuse := Wire.sendResponse Wire.RespError "" 0 in
  if (length data <? 8)%nat then mret refuse
  else
    let offset := int64 (Bytes.unbe (take 8 data)) in
    let maxBytes := if (12 <=? length data)%nat then int32 (Bytes.unbe (Wire.sub 8 12 data)) else 1024 * 1024 in
    b ← get;
    res ← of_option (Fetch order topic partition offset maxBytes b);
    match res with
    | Err _ => mret refuse
    | Ok (msgs, highWatermark) =>
        modify (λ b, b <| auditLogger ::= fmap (λ a, foldl (λ a m,
          AuditLog.LogConsume clientIP topic partition (Offset m) "" (Z.of_nat (length (Value m))) a) a msgs) |>);;
        mret (Wire.fetchResponse highWatermark (wireMessage <$> msgs))
    end.

(** The four group commands forward the request to the name server, when the
    payload is the JSON they expect.  Only a join passes the body on. *)
Record groupRequest := mkGroupRequest { gr_GroupID : string; gr_ClientID : string }.
Record commitRequest := mkCommitRequest { cr_GroupID : string; cr_Offset : Z }.

Definition forward (withBody : bool) (net : string → http (list byte)) (url : option string) : list byte :=
  match url with
  | None => Wire.sendResponse Wire.RespError "" 0
  | Some url =>
      match net url with
      | HttpErr _ => Wire.sendResponse Wire.RespError "" 0
      | HttpReply status body =>
          [Wire.Magic; if status =? 200 then Wire.RespSuccess else Wire.RespError] ++ (if withBody then body else [])
      end
  end.

Definition handleTCPJoinGroup (net : string → http (list byte)) (topic : string) (request : option groupRequest) :
    prog broker (list byte) :=
  b ← get;
  mret (forward true net ((λ r, nameserverURL b +:+ "/consumer/join?group_id=" +:+ gr_GroupID r +:+
    "&client_id=" +:+ gr_ClientID r +:+ "&topic=" +:+ topic) <$> request)).

Definition handleTCPHeartbeat (net : string → http (list byte)) (request : option groupRequest) :
    prog broker (list byte) :=
  b ← get;
  mret (forward false net ((λ r, nameserverURL b +:+ "/consumer/heartbeat?group_id=" +:+ gr_GroupID r +:+
    "&client_id=" +:+ gr_ClientID r) <$> request)).

Definition handleTCPCommitOffset (net : string → http (list byte)) (topic : string) (partition : Z)
    (request : option commitRequest) : prog broker (list byte) :=
  b ← get;
  mret (forward false net ((λ r, nameserverURL b +:+ "/consumer/commit_offset?group_id=" +:+ cr_GroupID r +:+
    "&topic=" +:+ topic +:+ "&partition=" +:+ Fmt.d partition +:+ "&offset=" +:+ Fmt.d (cr_Offset r)) <$> request)).

Definition handleTCPLeaveGroup (net : string → http (list byte)) (request : option groupRequest) :
    prog broker (list byte) :=
  b ← get;
  mret (forward false net ((λ r, nameserverURL b +:+ "/consumer/leave?group_id=" +:+ gr_GroupID r +:+
    "&client_id=" +:+ gr_ClientID r) <$> request)).

(** What the environment supplies while one request is served. *)
Record serveEnv := mkServeEnv {
  se_route1 : string → http (option RouteInfo); se_route2 : string → http (option RouteInfo); se_elapse : R → R;
  se_client : string; se_order : list (Z * Storage.IndexEntry); se_now : Z;
  se_group : list byte → option groupRequest; se_commit : list byte → option commitRequest;
  se_reply : string → http (list byte) }.

(** The dispatch of [handleClient]; an unknown command gets no answer. *)
Definition dispatch (se : serveEnv) (r : Wire.Request) : prog broker (list byte) :=
  let topic := Wire.topic r in
  let partition := Wire.partition r in
  let data := Wire.data r in
  if bool_decide (Wire.cmdID r = Wire.CmdProduce) then
    handleTCPProduce (se_route1 se) (se_route2 se) (se_elapse se) (se_client se) topic partition data
  else if bool_decide (Wire.cmdID r = Wire.CmdFetch) then
    handleTCPFetch (se_order se) (se_client se) topic partition data
  else if bool_decide (Wire.cmdID r = Wire.CmdJoinGroup) then
    handleTCPJoinGroup (se_reply se) topic (se_group se data)
  else if bool_decide (Wire.cmdID r = Wire.CmdHeartbeat) then handleTCPHeartbeat (se_reply se) (se_group se data)
  else if bool_decide (Wire.cmdID r = Wire.CmdCommitOffset) then
    handleTCPCommitOffset (se_reply se) topic partition (se_commit se data)
  else if bool_decide (Wire.cmdID r = Wire.CmdLeaveGroup) then handleTCPLeaveGroup (se_reply se) (se_group se data)
  else if bool_decide (Wire.cmdID r = Wire.CmdAck) then handleTCPAck (se_now se) topic partition data
  else mret [].

(** The loop of [handleClient] on the bytes that arrive, and the bytes it
    answers; [ses] supplies the environment of each request. *)
Fixpoint handleClient (ses : list serveEnv) (conn : list byte) : prog broker (list byte) :=
  match ses with
  | [] => mret []
  | se :: ses =>
      match Wire.readRequest conn with
      | None => mret []
      | Some (r, conn) =>
          out ← dispatch se r;
          outs ← handleClient ses conn;
          mret (out ++ outs)
      end
  end.
End broker.

Arguments serveEnv R : clear implicits.
Arguments mkServeEnv {R}.
Arguments se_route1 {R} _.
Arguments se_route2 {R} _.
Arguments se_elapse {R} _.
Arguments se_client {R} _.
Arguments se_order {R} _.
Arguments se_now {R} _.
Arguments se_group {R} _.
Arguments se_commit {R} _.
Arguments se_reply {R} _.
End Broker.
