(* ===== verification/BrokerRaft.v ===== *)
(** * The broker on Raft

    The node of [Raft] implements the interface [Replication] of [Broker].
    What it was handed is the data entries of its log; the laws are proved
    from the behaviour of [SubmitCommand].  The theorems compose the wire
    format, the broker and the node. *)

From Stdlib Require Import ZArith Lia Strings.Byte.
From stdpp Require Import base tactics list gmap strings fin_maps.
From S2P Require Import Prelude GoLib Raft RaftProps Idempotent Storage TimeWheel Namespace Tracing Wire Broker.

Open Scope Z_scope.

Module BrokerRaft.

Import Int Raft.

(** The node exists once the broker is registered. *)
Definition IsPartitionLeader : prog World bool :=
  '(st, _) ← GetState;
  mret (bool_decide (st = Leader)).

#[export] Instance raft_replication : Broker.Replication World := {|
  Broker.SubmitCommand := SubmitCommand;
  Broker.Closed := λ ch w, bool_decide (ch ∈ closed w);
  Broker.IsLeader := IsPartitionLeader;
|}.

(** The commands in a node's log. *)
Definition commands (w : Raft.World) : list (string * Z * list byte) :=
  (λ e, (Raft.Topic e, Raft.Partition e, Raft.Data e)) <$>
    filter (λ e, Raft.Type_ e = Raft.EntryType_DATA) (Raft.log (Raft.node w)).

Lemma commands_snoc w w' t p d :
  Raft.log (Raft.node w') = Raft.log (Raft.node w) ++ [RaftProps.newEntry w t p d] →
  commands w' = commands w ++ [(t, p, d)].
Proof.
  intros H. unfold commands. rewrite H, filter_app, filter_cons_True by done. by rewrite fmap_app.
Qed.

(** How [SubmitCommand] returns. *)
Lemma SubmitCommand_ret w t p d x w' :
  Raft.SubmitCommand t p d w = Ret x w' →
  match x with
  | Ok _ => Raft.log (Raft.node w') = Raft.log (Raft.node w) ++ [RaftProps.newEntry w t p d]
  | Err _ => w' = w
  end.
Proof.
  intros H. destruct (Raft.mu (Raft.node w)) eqn:Hmu.
  { destruct (RaftProps.locked_unresponsive w Hmu) as (_ & _ & _ & Hs & _).
    specialize (Hs t p d). congruence. }
  destruct (decide (Raft.state (Raft.node w) = Raft.Leader)) as [Hl|Hl].
  - destruct (decide (Raft.peers (Raft.node w) = ∅)) as [Hp|Hp].
    + destruct (RaftProps.SubmitCommand_alone w t p d Hmu Hl Hp) as (w1 & E & _). congruence.
    + destruct (RaftProps.SubmitCommand_leader w t p d Hmu Hl Hp) as (w1 & E & _ & Hlog & _).
      rewrite E in H. by simplify_eq.
  - rewrite RaftProps.SubmitCommand_refused in H by done. by simplify_eq.
Qed.

#[export] Instance raft_laws : Broker.ReplicationLaws Raft.World.
Proof.
  refine {| Broker.submitted := commands |}.
  - intros t p d w x w' H%SubmitCommand_ret. by apply commands_snoc.
  - intros t p d w e w' H%SubmitCommand_ret. by subst.
Defined.

Lemma IsLeader_free w :
  Raft.mu (Raft.node w) = false →
  Broker.IsLeader w = Ret (bool_decide (Raft.state (Raft.node w) = Raft.Leader)) w.
Proof.
  intros Hmu. unfold Broker.IsLeader, raft_replication, IsPartitionLeader, Raft.GetState, Raft.Lock, Raft.Unlock, gets, mbind, prog_bind.
  rewrite Hmu. simpl. by destruct w as [[] ? ? ? ? ? ? ? ?]; simpl in *; subst.
Qed.

(** ** From the socket to the log *)

Notation broker := (Broker.Broker World).
Implicit Types b : broker.

(** A node that can take commands: it leads, it has peers, its mutex is
    free. *)
Definition leading (w : World) : Prop :=
  mu (node w) = false ∧ state (node w) = Leader ∧ peers (node w) ≠ ∅.

(** What a producer sends, and what the broker meets while it serves it. *)
Record produced := mkProduced {
  pr_env : Broker.serveEnv World; pr_topic : string; pr_partition : Z; pr_data : list byte; pr_acks : Z }.

Definition pr_frame (m : produced) : Wire.frame :=
  Wire.Produce (pr_topic m) (pr_partition m) (pr_data m) (pr_acks m).

(** The frame is well formed and the name server names this broker. *)
Definition servable (url client : string) (m : produced) : Prop :=
  Wire.frame_ok (pr_frame m) ∧
  Broker.GetPartitionLeader url (Broker.se_route1 (pr_env m)) (pr_topic m) = Ok client.

(** Does the handler wait for the commit? *)
Definition waits (m : produced) : bool := int8 (pr_acks m) =? -1.

(** The node when the request is answered. *)
Definition after_wait (m : produced) (w : World) : World :=
  if waits m then Broker.se_elapse (pr_env m) w else w.

(** While the handler waits for an entry, its channel is closed, and the
    node stays the leader of the same term and takes no other commands. *)
Fixpoint in_time (ms : list produced) (w : World) : Prop :=
  match ms with
  | [] => True
  | m :: ms =>
      ∀ i ch w1, SubmitCommand (pr_topic m) (pr_partition m) (pr_data m) w = Ret (Ok (i, ch)) w1 →
        let w2 := after_wait m w1 in
        (waits m = true → ch ∈ closed w2 ∧ leading w2 ∧ log (node w2) = log (node w1) ∧
           currentTerm (node w2) = currentTerm (node w1)) ∧
        in_time ms w2
  end.

Fixpoint entriesFrom (term index : Z) (ms : list produced) : list LogEntry :=
  match ms with
  | [] => []
  | m :: ms => mkLogEntry term index EntryType_DATA (pr_topic m) (pr_partition m) (pr_data m) None ::
               entriesFrom term (index + 1) ms
  end.

Fixpoint answersFrom (index : Z) (ms : list produced) : list byte :=
  match ms with
  | [] => []
  | _ :: ms => Wire.sendResponse Wire.RespSuccess "" (int64 index) ++ answersFrom (index + 1) ms
  end.

Lemma int8_byte z : int8 (Bytes.to_Z (Bytes.of_Z z)) = int8 z.
Proof. rewrite Bytes.to_of_Z. unfold int8, sint. by rewrite Zplus_mod_idemp_l. Qed.

Lemma dispatch_produce m ms b :
  leading (Broker.raftNode b) → servable (Broker.nameserverURL b) (Broker.clientAddr b) m →
  in_time (m :: ms) (Broker.raftNode b) →
  let w := Broker.raftNode b in
  ∃ b', Broker.dispatch (pr_env m) (Wire.frame_request (pr_frame m)) b =
      Ret (Wire.sendResponse Wire.RespSuccess "" (int64 (len (log (node w))))) b' ∧
    leading (Broker.raftNode b') ∧ in_time ms (Broker.raftNode b') ∧
    Broker.nameserverURL b' = Broker.nameserverURL b ∧ Broker.clientAddr b' = Broker.clientAddr b ∧
    log (node (Broker.raftNode b')) =
      log (node w) ++ [RaftProps.newEntry w (pr_topic m) (pr_partition m) (pr_data m)] ∧
    currentTerm (node (Broker.raftNode b')) = currentTerm (node w).
Proof.
  intros (Hmu & Hl & Hp) (_ & Hroute) Hin w. cbn [Wire.frame_request pr_frame].
  unfold Broker.dispatch, Broker.handleTCPProduce, get, modify, mbind, prog_bind, Broker.raft. cbn [Wire.topic Wire.partition
    Wire.data Wire.cmdID]. rewrite bool_decide_true by done. rewrite Hroute. rewrite bool_decide_false by (intros H; by apply H).
  rewrite IsLeader_free by done. rewrite bool_decide_true by done. cbn [negb].
  destruct (RaftProps.SubmitCommand_leader w (pr_topic m) (pr_partition m) (pr_data m) Hmu Hl Hp)
    as (w' & Hs & Hmu' & Hlog & _ & _ & _ & _ & Hl' & Hp' & Ht').
  change (Broker.SubmitCommand (pr_topic m) (pr_partition m) (pr_data m) (Broker.raftNode _))
    with (SubmitCommand (pr_topic m) (pr_partition m) (pr_data m) w). rewrite Hs. cbv zeta iota beta.
  destruct (Hin _ _ _ Hs) as [Hwait Hrest]. rewrite int8_byte. fold (waits m). unfold after_wait in *.
  destruct (waits m); cbn [when mret prog_ret andb].
  - destruct (Hwait eq_refl) as (Hcl & Hl2 & Hlog2 & Ht2).
    cbn [Broker.raftNode update Broker.Closed raft_replication]. rewrite bool_decide_true by done. cbn [negb].
    eexists. split; [done|]. cbn [Broker.raftNode Broker.nameserverURL Broker.clientAddr update].
    by rewrite Hlog2, Ht2.
  - eexists. split; [done|]. cbn [Broker.raftNode Broker.nameserverURL Broker.clientAddr update].
    unfold leading. by rewrite Hp'.
Qed.

(** C5: From the socket to the replicated log.  A connection carries any number
    of well-formed produce requests to a broker whose node leads and has
    peers, and the name server names this broker for each of them.  Where a
    request asks to wait for the commit (acks = -1), the channel of its entry
    is closed in time, and the node meanwhile stays the leader of its term
    and takes no other commands.  Then every request is answered with success
    and the index of its entry, in order, and the node's log is extended by
    exactly these messages at these consecutive indexes, in the leader's
    term. *)
Theorem produce_pipeline ms b :
  leading (Broker.raftNode b) → Forall (servable (Broker.nameserverURL b) (Broker.clientAddr b)) ms →
  in_time ms (Broker.raftNode b) →
  let r := node (Broker.raftNode b) in
  ∃ b', Broker.handleClient (pr_env <$> ms) (concat ((Wire.frame_bytes ∘ pr_frame) <$> ms)) b =
      Ret (answersFrom (len (log r)) ms) b' ∧
    log (node (Broker.raftNode b')) = log r ++ entriesFrom (currentTerm r) (len (log r)) ms.
Proof.
  intros Hl Hms Hin. revert b Hl Hms Hin. induction ms as [|m ms IH]; intros b Hl Hms Hin r.
  { exists b. by rewrite app_nil_r. }
  apply Forall_cons in Hms as [Hm Hms].
  destruct (dispatch_produce m ms b Hl Hm Hin) as (b1 & Hd & Hl1 & Hin1 & Hurl & Hca & Hlog & Hterm).
  destruct (IH b1 Hl1) as (b2 & Hc & Hlog2); [by rewrite Hurl, Hca|done|].
  cbn [fmap list_fmap concat Broker.handleClient]. unfold compose at 1.
  rewrite Wire.readRequest_bytes by apply Hm. unfold mbind, prog_bind. rewrite Hd. cbn [compose] in Hc. rewrite Hc.
  rewrite Hlog in Hc, Hlog2 |- *. rewrite Hterm in Hlog2. unfold len in *. rewrite length_app in *. cbn [length] in *.
  rewrite Nat2Z.inj_add in *. eexists. split; [done|]. rewrite Hlog2, <- app_assoc. done.
Qed.

(** ** A concrete broker *)

Definition demo_net : string → Broker.http (option Broker.RouteInfo) := λ _,
  Broker.HttpReply 200 (Some (Broker.mkRouteInfo "t" 0 "c" [] [])).

Definition demo_broker (w : World) : broker :=
  Broker.mkBroker 1 "a" "c" "http://ns" ∅ w "/data" 604800000 0 [] None
    (TimeWheel.NewTimeWheel 100 3600) (Tracing.NewTracer 1000 300000000000) Namespace.NewNamespaceManager
    (Idempotent.NewIdempotentManager 10000 600000000000) (Storage.mkFS ∅ ∅ 0).

(** It is what [NewBroker] makes. *)
Lemma demo_broker_new w :
  Broker.NewBroker "a" "c" "http://ns" "/data" None [Broker.HttpErr "refused"; Broker.HttpReply 200 (Some 1)]
    (Broker.HttpReply 200 (Some ["a"; "b"])) (λ _, w) (Storage.mkFS ∅ ∅ 0) = Some (demo_broker w).
Proof. reflexivity. Qed.

Definition demo_serve (elapse : World → World) : Broker.serveEnv World :=
  Broker.mkServeEnv demo_net demo_net elapse "1.2.3.4:5" [] 0 (λ _, None) (λ _, None) (λ _, Broker.HttpErr "").

(** While the handler waits, follower ["b"] reports that it has everything up
    to entry 4. *)
Definition demo_commit (w : World) : World :=
  final (appendReply "b" 2 2 (mkAppendEntriesReply 2 true 0 4) w).

Definition demo_produced : list produced :=
  [mkProduced (demo_serve id) "t" 0 [x01] 1; mkProduced (demo_serve demo_commit) "t" 1 [x02; x03] (-1)].

Lemma produce_pipeline_witness :
  let b := demo_broker RaftProps.demo_leader in
  ∃ b', Broker.handleClient (pr_env <$> demo_produced)
          (concat ((Wire.frame_bytes ∘ pr_frame) <$> demo_produced)) b =
      Ret (answersFrom 3 demo_produced) b' ∧
    length (log (node (Broker.raftNode b'))) = 5%nat.
Proof.
  intros b. destruct (produce_pipeline demo_produced b) as (b' & H1 & H2).
  - split; [reflexivity|]. split; [reflexivity|]. vm_compute. discriminate.
  - repeat constructor; try (vm_compute; congruence).
  - intros i ch w1 H. split; [discriminate|]. vm_compute in H. injection H as <- <- <-.
    intros i ch w2 H. vm_compute in H. injection H as <- <- <-.
    split; [intros _|exact I]. split; [apply (bool_decide_unpack _); vm_compute; exact I|].
    split; [split; [reflexivity|]; split; [reflexivity|vm_compute; discriminate]|]. split; reflexivity.
  - exists b'. split; [exact H1|]. rewrite H2. reflexivity.
Defined.

(** A leader that steps down closes the channels of the entries it has not
    committed, and the handler takes that for the commit: the producer that
    asked to wait for it is answered with success. *)
Lemma stepdown_acknowledges :
  let b := demo_broker RaftProps.demo_leader in
  let lost w := final (appendReply "b" 2 1 (mkAppendEntriesReply 9 false 0 0) w) in
  let m := mkProduced (demo_serve lost) "t" 0 [x01] (-1) in
  match Broker.handleClient [pr_env m] (Wire.frame_bytes (pr_frame m)) b with
  | Ret answer b' => answer = Wire.sendResponse Wire.RespSuccess "" 3 ∧
      state (node (Broker.raftNode b')) = Follower ∧ commitIndex (node (Broker.raftNode b')) = 0
  | _ => False
  end.
Proof. vm_compute. split_and!; reflexivity. Qed.
End BrokerRaft.
