(* ===== verification/BrokerProps.v ===== *)
(** * The broker: correctness

    The apply loop, retries, idempotent production, and the places where the
    broker looks under the wrong name.  The replicated log is any that
    satisfies [ReplicationLaws]; the witnesses run on Raft. *)

From Stdlib Require Import ZArith Lia Strings.Byte.
From stdpp Require Import base tactics list gmap strings fin_maps pretty.
From S2P Require Import Prelude GoLib Raft RaftProps Idempotent Storage StorageProps TimeWheel Namespace Tracing AuditLog Wire Broker BrokerRaft.

Open Scope Z_scope.

Module BrokerProps.

Import Broker Int.

Section broker.
Context {R : Type} `{repl : !Replication R}.
Notation broker := (Broker R).
Implicit Types b : broker.

(** ** The apply loop *)

(** The entries received before the loop is told to end. *)
Fixpoint received (evs : list applyEvent) : list (env * Raft.LogEntry) :=
  match evs with
  | [] => []
  | EvEntry e entry :: evs => (e, entry) :: received evs
  | EvTimer :: evs => received evs
  | (EvStop | EvClosed) :: _ => []
  end.

Definition ends (evs : list applyEvent) : bool :=
  existsb (λ ev, match ev with EvStop | EvClosed => true | _ => false end) evs.

Lemma applyBatch_app l1 l2 b : applyBatch (l1 ++ l2) b = applyBatch l2 (applyBatch l1 b).
Proof. apply foldl_app. Qed.

Lemma apply_pending (batch : list (env * Raft.LogEntry)) b :
  (if (0 <? length batch)%nat then applyBatch batch b else b) = applyBatch batch b.
Proof. by destruct batch. Qed.

Lemma handleApply_ended evs b : foldl (λ st ev, handleApply_step ev st) (None, b) evs = (None, b).
Proof. induction evs; [done|]. simpl. done. Qed.

Lemma handleApply_loop evs batch b :
  (length batch < 100)%nat →
  let st := foldl (λ st ev, handleApply_step ev st) (Some batch, b) evs in
  if ends evs then st = (None, applyBatch (batch ++ received evs) b)
  else ∃ applied pending, st = (Some pending, applyBatch applied b) ∧
         applied ++ pending = batch ++ received evs ∧ (length pending < 100)%nat.
Proof.
  revert batch b. induction evs as [|ev evs IH]; intros batch b Hb; cbn [foldl ends existsb received].
  { exists [], batch. by rewrite app_nil_r. }
  destruct ev as [e entry| | |]; cbn [handleApply_step].
  - destruct (100 <=? _)%nat eqn:Hlen.
    + cbn [orb]. specialize (IH [] (applyBatch (batch ++ [(e, entry)]) b) ltac:(simpl; lia)).
      cbv zeta in IH |- *. fold (ends evs). destruct (ends evs).
      * rewrite IH, <- applyBatch_app, <- (app_assoc batch). done.
      * destruct IH as (applied & pending & -> & Heq & ?). exists ((batch ++ [(e, entry)]) ++ applied), pending.
        rewrite (applyBatch_app _ applied). split_and!; [done| |done]. rewrite <- !app_assoc, Heq. done.
    + apply Nat.leb_gt in Hlen. cbn [orb]. specialize (IH (batch ++ [(e, entry)]) b Hlen).
      cbv zeta in IH |- *. fold (ends evs). rewrite <- app_assoc in IH. exact IH.
  - rewrite apply_pending, app_nil_r. cbn [orb]. apply handleApply_ended.
  - cbn [orb]. fold (ends evs). destruct (0 <? length batch)%nat eqn:Hpos.
    + specialize (IH [] (applyBatch batch b) ltac:(simpl; lia)). cbv zeta in IH |- *. destruct (ends evs).
      * rewrite IH. by rewrite <- applyBatch_app.
      * destruct IH as (applied & pending & -> & Heq & ?). exists (batch ++ applied), pending.
        rewrite (applyBatch_app _ applied). split_and!; [done| |done]. rewrite <- !app_assoc, Heq. done.
    + apply IH. done.
  - rewrite apply_pending, app_nil_r. cbn [orb]. apply handleApply_ended.
Qed.

(** C9: Batching does not change what is applied.  However the entries, the
    timer and the end of the channel are interleaved, the entries applied so
    far followed by the batch in hand, which is never full, are the entries
    received, in order; and once the loop has ended, every entry received
    before the end has been applied, as if one at a time. *)
Theorem handleApply_applies_all evs b :
  if ends evs then handleApply evs b = (None, foldl (λ b '(e, entry), applyEntry e entry b) b (received evs))
  else ∃ applied pending,
    handleApply evs b = (Some pending, foldl (λ b '(e, entry), applyEntry e entry b) b applied) ∧
    applied ++ pending = received evs ∧ (length pending < 100)%nat.
Proof. apply (handleApply_loop evs [] b). simpl. lia. Qed.

(** ** Retries *)

Context `{laws : !ReplicationLaws R}.

(** The command a retry submits. *)
Definition retryCommand (msg : RetryMessage) : string * Z * list byte :=
  (rm_Topic msg +:+ "_RETRY", int32 (rm_Partition msg), rm_Data msg).

Lemma retryLoop_spec now queue acc b q b' :
  retryLoop now queue acc b = Ret q b' →
  ∃ sent kept, q = acc ++ kept ∧ sent `sublist_of` queue ∧ kept `sublist_of` queue ∧ sent ++ kept ≡ₚ queue ∧
    submitted (raftNode b') = submitted (raftNode b) ++ (retryCommand <$> sent) ∧
    (∀ m, m ∈ sent → NextRetryAt m ≤ now) ∧ retryQueue b' = retryQueue b.
Proof.
  revert acc b. induction queue as [|m queue IH]; intros acc b H; cbn [retryLoop] in H.
  { injection H as <- <-. exists [], []. rewrite !app_nil_r. split_and!; try done. set_solver. }
  assert (∀ acc b, retryLoop now queue (acc ++ [m]) b = Ret q b' →
    ∃ sent kept, q = acc ++ kept ∧ sent `sublist_of` m :: queue ∧ kept `sublist_of` m :: queue ∧
      sent ++ kept ≡ₚ m :: queue ∧ submitted (raftNode b') = submitted (raftNode b) ++ (retryCommand <$> sent) ∧
      (∀ m, m ∈ sent → NextRetryAt m ≤ now) ∧ retryQueue b' = retryQueue b) as Hkeep.
  { clear acc b H. intros acc b H. destruct (IH _ _ H) as (sent & kept & -> & ? & ? & Hp & ? & ? & ?).
    exists sent, (m :: kept). rewrite <- app_assoc. split_and!; try done.
    - by constructor.
    - by constructor.
    - by rewrite <- Permutation_middle, Hp. }
  destruct (Time.After (NextRetryAt m) now) eqn:Hdue; [by apply Hkeep|].
  unfold mbind, prog_bind, raft in H.
  destruct (SubmitCommand _ _ _ (raftNode b)) as [res r'| |] eqn:Hs; [|done..]. destruct res as [x|e].
  - destruct (IH _ _ H) as (sent & kept & -> & ? & ? & Hp & Hsub & Hd & ?). exists (m :: sent), kept.
    split_and!; try done.
    + by constructor.
    + by constructor.
    + by rewrite <- Hp.
    + rewrite Hsub. simpl. rewrite (submit_ok _ _ _ _ _ _ Hs), <- app_assoc. done.
    + intros m' [->|?]%elem_of_cons; [|auto]. unfold Time.After in Hdue. by apply Z.ltb_ge.
  - apply Hkeep in H. simpl in H. by rewrite (submit_err _ _ _ _ _ _ Hs) in H.
Qed.

(** C11: Retries are neither lost nor repeated.  A run of the retry processor
    splits the queue in two, keeping its order: the messages it submitted to
    the retry topics, each once and only when due, and the messages it keeps,
    among them all that are not due yet and all whose submission failed. *)
Theorem processRetryQueue_conserves now b b' :
  processRetryQueue now b = Ret tt b' →
  ∃ sent, sent `sublist_of` retryQueue b ∧ retryQueue b' `sublist_of` retryQueue b ∧
    sent ++ retryQueue b' ≡ₚ retryQueue b ∧
    submitted (raftNode b') = submitted (raftNode b) ++ (retryCommand <$> sent) ∧
    ∀ m, m ∈ sent → NextRetryAt m ≤ now.
Proof.
  unfold processRetryQueue, gets, modify, mbind, prog_bind.
  destruct (retryLoop now (retryQueue b) [] b) as [q b1| |] eqn:H; [|done..]. intros [= <-].
  destruct (retryLoop_spec _ _ _ _ _ _ H) as (sent & kept & -> & ? & ? & ? & ? & ? & ?).
  exists sent. by split_and!.
Qed.

(** ** Producing *)

(** How the second half of [Produce] ends follows the submission. *)
Lemma submitTraced_inv pe topic key value userID producerID seqNum p b res b' :
  submitTraced pe topic key value userID producerID seqNum p b = Ret res b' →
  ∃ x, SubmitCommand topic (int32 p) value (raftNode b) = Ret x (raftNode b') ∧
    res = match x with Err e => Err e | Ok _ => Ok (mkMessage topic p key value 0 (Time.UnixNano (pe_msg pe))) end ∧
    idempotentMgr b' = idempotentMgr b ∧ namespaceManager b' = namespaceManager b ∧ clientAddr b' = clientAddr b ∧
    nameserverURL b' = nameserverURL b.
Proof.
  unfold submitTraced, mbind, prog_bind, get, modify, raft, Tracing.StartTrace. simpl.
  destruct (SubmitCommand topic (int32 p) value (raftNode b)) as [[x|e] r| |]; simpl; [| |done..].
  - intros [= <- <-]. by eexists.
  - intros [= <- <-]. by eexists.
Qed.

Lemma submitTraced_ret pe topic key value userID producerID seqNum p b x r' :
  SubmitCommand topic (int32 p) value (raftNode b) = Ret x r' →
  ∃ res b', submitTraced pe topic key value userID producerID seqNum p b = Ret res b'.
Proof.
  intros Hs. unfold submitTraced, mbind, prog_bind, get, modify, raft, Tracing.StartTrace. simpl.
  rewrite Hs. destruct x; simpl; eauto.
Qed.

Lemma submit_appends t p d r x r' :
  SubmitCommand t p d r = Ret x r' →
  submitted r' = submitted r ++ (if is_ok x then [(t, p, d)] else []).
Proof.
  destruct x as [x|e]; intros H; simpl; [by eapply submit_ok|]. rewrite app_nil_r. by eapply submit_err.
Qed.

(** A request that may be served here: the user has permission and the name
    server names this broker. *)
Definition accepted (userID topic : string) (net : string → http (option RouteInfo)) (key : string) (route : RouteInfo) b : Prop :=
  Namespace.CheckPermission userID topic Namespace.ActionProduce (namespaceManager b) = Ok true ∧
  getRoute (nameserverURL b) net topic key = Ok route ∧ ri_Leader route = clientAddr b.

Lemma Produce_accepted pe net route topic key value userID producerID seqNum b :
  accepted userID topic net key route b →
  Produce pe net topic key value userID producerID seqNum b =
    (let p := ri_Partition route in
     if bool_decide (producerID = "") then submitTraced pe topic key value userID producerID seqNum p b
     else
       let '(res, im) := Idempotent.CheckAndRecord (pe_idem pe) (pe_now pe) producerID seqNum
                           (partitionKey topic p) (idempotentMgr b) in
       let b := b <| idempotentMgr := im |> in
       match res with
       | Err e => Ret (Err e) b
       | Ok false => Ret (Ok (mkMessage topic p key value 0 (Time.UnixNano (pe_msg pe)))) b
       | Ok true => submitTraced pe topic key value userID producerID seqNum p b
       end).
Proof.
  intros (Hperm & Hroute & Hl). unfold Produce, mbind, prog_bind, get, modify. rewrite Hperm, Hroute.
  rewrite bool_decide_false by (intros H; by apply H). cbv zeta.
  case_bool_decide; [done|]. destruct (Idempotent.CheckAndRecord _ _ _ _ _ _) as [[[]|e] im]; done.
Qed.

(** C10: What producing does.  A permitted request at the leader submits the
    message exactly once when the producer gave no identity or a sequence
    number that is new; a sequence number already recorded is answered with
    success and submits nothing; a number the manager refuses, or a log that
    refuses the command, is an error that submits nothing. *)
Theorem Produce_submits pe net route topic key value userID producerID seqNum b res b' :
  accepted userID topic net key route b →
  Produce pe net topic key value userID producerID seqNum b = Ret res b' →
  let p := ri_Partition route in
  let verdict := if bool_decide (producerID = "") then Ok true
    else (Idempotent.CheckAndRecord (pe_idem pe) (pe_now pe) producerID seqNum (partitionKey topic p) (idempotentMgr b)).1 in
  submitted (raftNode b') = submitted (raftNode b) ++
    (if bool_decide (verdict = Ok true) && is_ok res then [(topic, int32 p, value)] else []) ∧
  match verdict with
  | Err e => res = Err e
  | Ok false => is_ok res = true
  | Ok true => ∃ x, SubmitCommand topic (int32 p) value (raftNode b) = Ret x (raftNode b') ∧ is_ok res = is_ok x
  end.
Proof.
  intros Hacc H p verdict. rewrite (Produce_accepted _ _ _ _ _ _ _ _ _ _ Hacc) in H. cbv zeta in H. fold p in H.
  subst verdict. case_bool_decide as Hid.
  - apply submitTraced_inv in H as (x & Hs & -> & _). rewrite (submit_appends _ _ _ _ _ _ Hs).
    rewrite bool_decide_true by done. destruct x; simpl; eauto.
  - destruct (Idempotent.CheckAndRecord _ _ _ _ _ _) as [[[]|e] im]; simpl.
    + apply submitTraced_inv in H as (x & Hs & -> & _). simpl in Hs. rewrite (submit_appends _ _ _ _ _ _ Hs).
      destruct x; simpl; eauto.
    + injection H as <- <-. simpl. by rewrite app_nil_r.
    + injection H as <- <-. simpl. by rewrite app_nil_r.
Qed.

(** C36: A failed message cannot be sent again.  The sequence number is recorded
    before the command is submitted: when the log refuses the command, the
    producer is told of the error, but its retry with the same number is
    answered with success and the message is never submitted. *)
Theorem Produce_retry_swallowed pe pe' net route topic key value userID producerID seqNum b e r' :
  accepted userID topic net key route b → producerID ≠ "" →
  (Idempotent.CheckAndRecord (pe_idem pe) (pe_now pe) producerID seqNum
     (partitionKey topic (ri_Partition route)) (idempotentMgr b)).1 = Ok true →
  SubmitCommand topic (int32 (ri_Partition route)) value (raftNode b) = Ret (Err e) r' →
  ∃ b1, Produce pe net topic key value userID producerID seqNum b = Ret (Err e) b1 ∧
  ∃ msg b2, Produce pe' net topic key value userID producerID seqNum b1 = Ret (Ok msg) b2 ∧
    submitted (raftNode b2) = submitted (raftNode b).
Proof.
  intros Hacc Hid Hfresh Hs. rewrite (Produce_accepted _ _ _ _ _ _ _ _ _ _ Hacc). cbv zeta.
  rewrite bool_decide_false by done. set (tp := partitionKey topic (ri_Partition route)) in *.
  destruct (Idempotent.CheckAndRecord (pe_idem pe) (pe_now pe) producerID seqNum tp (idempotentMgr b))
    as [res im] eqn:Hcheck. simpl in Hfresh. subst res.
  assert (Idempotent.CheckAndRecord (pe_idem pe') (pe_now pe') producerID seqNum tp im = (Ok false, im)) as Hdup.
  { unfold Idempotent.CheckAndRecord in Hcheck |- *.
    destruct (Idempotent.producerState (idempotentMgr b) !! producerID) as [st|] eqn:Hst.
    - case_bool_decide as Htp; [done|]. destruct (seqNum <? _) eqn:E1; [done|]. destruct (seqNum =? _) eqn:E2; [done|].
      injection Hcheck as <-. simpl. rewrite lookup_insert_eq. simpl. rewrite bool_decide_false by (intros Hn; by apply Hn).
      by rewrite Z.ltb_irrefl, Z.eqb_refl.
    - injection Hcheck as <-. simpl. rewrite lookup_insert_eq. simpl. rewrite bool_decide_false by (intros H; by apply H).
      by rewrite Z.ltb_irrefl, Z.eqb_refl. }
  destruct (submitTraced_ret pe topic key value userID producerID seqNum (ri_Partition route)
    (b <| idempotentMgr := im |>) (Err e) r') as (res & b1 & Ht); [done|].
  pose proof Ht as Hinv. apply submitTraced_inv in Hinv as (x & Hs' & -> & Him & Hns & Hca & Hurl). simpl in Hs', Him, Hns, Hca, Hurl.
  rewrite Hs in Hs'. injection Hs' as <- Hr. exists b1. split; [exact Ht|].
  assert (accepted userID topic net key route b1) as Hacc1.
  { destruct Hacc as (? & ? & ?). unfold accepted. by rewrite Hns, Hca, Hurl. }
  rewrite (Produce_accepted _ _ _ _ _ _ _ _ _ _ Hacc1). cbv zeta. rewrite bool_decide_false by done. fold tp.
  rewrite Him, Hdup. do 2 eexists. split; [done|]. simpl. rewrite <- Hr. by eapply submit_err.
Qed.

(** ** Names *)

(** The keys of the partition table are the names of their partitions. *)
Definition keys_ok b : Prop :=
  ∀ k tp, topics b !! k = Some tp → k = partitionKey (tp_Topic tp) (tp_Partition tp).

Lemma applyEntry_keys e entry b : keys_ok b → keys_ok (applyEntry e entry b).
Proof.
  intros Hb. unfold applyEntry, getOrCreateTopicPartition.
  set (k := partitionKey _ _). destruct (topics b !! k) as [tp|] eqn:Hk.
  - destruct (Storage.Append _ _ _ _) as [res s]. intros k' tp'. simpl. intros [[<- <-]|[_ ?]]%lookup_insert_Some; [|auto].
    simpl. by apply Hb.
  - destruct (Storage.Append _ _ _ _) as [res s]. intros k' tp'. simpl. intros [[<- <-]|[_ H]]%lookup_insert_Some; [done|].
    apply lookup_insert_Some in H as [[<- <-]|[_ ?]]; [done|auto].
Qed.

Lemma applyBatch_keys batch b : keys_ok b → keys_ok (applyBatch batch b).
Proof. apply foldl_inv. intros b' [e entry]. apply applyEntry_keys. Qed.

Lemma partitionKey_dash t p : x2d ∈ Bytes.of_string (partitionKey t p).
Proof. unfold partitionKey. rewrite !Bytes.of_string_app. set_solver. Qed.

(** C37: The broker looks a topic up under the wrong name.  Its table is keyed by
    topic and partition, but acknowledgements and delayed messages are looked
    up by the topic alone: for a topic without a dash in its name, every
    negative acknowledgement is refused, so no message is ever retried or
    moved to the dead-letter queue, and every delayed message is dropped. *)
Theorem bare_topic_not_found now topic p data msg b :
  keys_ok b → x2d ∉ Bytes.of_string topic → TimeWheel.Topic msg = topic →
  (default x00 (data !! 8%nat) ≠ x00 → handleTCPAck now topic p data b = Ret (Wire.sendResponse Wire.RespError "" 0) b) ∧
  processDelayed msg b = Ret tt b.
Proof.
  intros Hb Hdash Hmsg.
  assert (topics b !! topic = None) as Hnone.
  { destruct (topics b !! topic) as [tp|] eqn:E; [|done]. apply Hb in E. subst topic. rewrite E in Hdash.
    by destruct Hdash; apply partitionKey_dash. }
  split.
  - intros Hst. unfold handleTCPAck. destruct (length data <? 9)%nat; [done|]. rewrite bool_decide_false by done.
    unfold mbind, prog_bind, get. by rewrite Hnone.
  - unfold processDelayed, mbind, prog_bind, get. by rewrite Hmsg, Hnone.
Qed.

Lemma logPath_segmentDir d d' k t p : logPath d k ≠ segmentDir d' (partitionKey t p).
Proof.
  unfold logPath, segmentDir, partitionKey. intros H%(f_equal Bytes.of_string). rewrite !Bytes.of_string_app in H.
  change (Bytes.of_string ".log") with ([x2e; x6c; x6f] ++ [x67]) in H. rewrite !app_assoc in H.
  apply (f_equal last) in H. rewrite last_snoc in H.
  assert (Bytes.of_string (Fmt.d p) ≠ []) as Hne.
  { intros E. change (Bytes.of_string "") with (@nil byte) in E.
    assert (Fmt.d p = "") as E' by (by apply Bytes.of_string_inj). unfold Fmt.d, pretty, pretty_Z in E'.
    destruct p as [|q|q]; [done| |done]. destruct (Strconv.unsigned_pretty q) as (c & bs & Hq & _).
    rewrite E' in Hq. done. }
  destruct (Bytes.of_string (Fmt.d p)) as [|c l] eqn:El using rev_ind; [done|]. clear IHl.
  rewrite app_assoc, last_snoc in H. injection H as <-.
  destruct (Strconv.bytes_d p x67) as [[? Hd]|Hd]; [rewrite El; set_solver|vm_compute in Hd; done|done].
Qed.

(** The clean-up never finds a segment.  A partition's log is kept in the
    directory that ends in [.log] and the clean-up looks in the one without:
    whatever the retention limits, no file of any commit log is removed. *)
Theorem cleanup_misses_logs now order b k name :
  Storage.names (fs (cleanupOldSegments now order b)) !! (logPath (dataDir b) k, name) =
  Storage.names (fs b) !! (logPath (dataDir b) k, name).
Proof.
  enough (∀ b', dataDir b' = dataDir b →
    Storage.names (fs (cleanupOldSegments now order b')) !! (logPath (dataDir b) k, name) =
    Storage.names (fs b') !! (logPath (dataDir b) k, name)) as H by (by apply H).
  induction order as [|[k' tp] order IH]; intros b' Hd; [done|]. cbn [cleanupOldSegments foldl].
  etrans; [by apply IH|]. simpl. apply StorageProps.cleanup_other. apply logPath_segmentDir.
Qed.
End broker.

(** ** Witnesses *)

Import BrokerRaft.

(** A retry that is due and one that is not. *)
Definition demo_due : RetryMessage := mkRetryMessage "t" 0 0 [x01] 1 5.
Definition demo_later : RetryMessage := mkRetryMessage "t" 0 20 [x02] 1 15.
Definition demo_retries : Broker Raft.World :=
  demo_broker RaftProps.demo_leader <| retryQueue := [demo_due; demo_later] |>.
Definition demo_retried : Broker Raft.World := final (processRetryQueue 10 demo_retries).

Lemma demo_retried_ok : processRetryQueue 10 demo_retries = Ret tt demo_retried.
Proof. vm_compute. reflexivity. Qed.

Lemma demo_retried_queue : retryQueue demo_retried = [demo_later].
Proof. vm_compute. reflexivity. Qed.

Lemma processRetryQueue_conserves_witness :
  ∃ sent, sent ++ [demo_later] ≡ₚ [demo_due; demo_later] ∧
    submitted (raftNode demo_retried) = submitted (raftNode demo_retries) ++ (retryCommand <$> sent).
Proof.
  destruct (processRetryQueue_conserves 10 demo_retries demo_retried demo_retried_ok) as (sent & _ & _ & Hp & Hs & _).
  rewrite demo_retried_queue in Hp. exists sent. split; [exact Hp|exact Hs].
Defined.

Definition demo_pe : produceEnv := mkProduceEnv [] 1 [] 1 1 1 0 1 1 1.
Definition demo_route : RouteInfo := mkRouteInfo "t" 0 "c" [] [].
Definition demo_follower : Raft.World := RaftProps.demo_log [].
Definition demo_sent : Broker Raft.World :=
  final (Produce demo_pe demo_net "t" "k" [x01] "" "p" 1 (demo_broker RaftProps.demo_leader)).

Lemma demo_accepted w : accepted "" "t" demo_net "k" demo_route (demo_broker w).
Proof. done. Qed.

Lemma demo_sent_ok :
  Produce demo_pe demo_net "t" "k" [x01] "" "p" 1 (demo_broker RaftProps.demo_leader) =
    Ret (Ok (mkMessage "t" 0 "k" [x01] 0 (Time.UnixNano 1))) demo_sent.
Proof. vm_compute. reflexivity. Qed.

Lemma Produce_submits_witness :
  submitted (raftNode demo_sent) = submitted RaftProps.demo_leader ++ [("t", 0, [x01])].
Proof.
  exact (proj1 (Produce_submits demo_pe demo_net demo_route "t" "k" [x01] "" "p" 1
    (demo_broker RaftProps.demo_leader) _ demo_sent (demo_accepted _) demo_sent_ok)).
Defined.

Lemma Produce_retry_swallowed_witness :
  ∃ b1, Produce demo_pe demo_net "t" "k" [x01] "" "p" 1 (demo_broker demo_follower) = Ret (Err "not leader") b1 ∧
  ∃ msg b2, Produce demo_pe demo_net "t" "k" [x01] "" "p" 1 b1 = Ret (Ok msg) b2 ∧
    submitted (raftNode b2) = submitted demo_follower.
Proof.
  apply (Produce_retry_swallowed demo_pe demo_pe demo_net demo_route "t" "k" [x01] "" "p" 1
    (demo_broker demo_follower) "not leader" demo_follower (demo_accepted _)); [discriminate|reflexivity|reflexivity].
Defined.

(** A broker that applied one entry. *)
Definition demo_entry : Raft.LogEntry := Raft.mkLogEntry 1 1 Raft.EntryType_DATA "t" 0 [x01] None.
Definition demo_applied : Broker Raft.World :=
  applyBatch [(mkEnv Storage.io_ok 1 1, demo_entry)] (demo_broker RaftProps.demo_leader).

Lemma demo_applied_keys : keys_ok demo_applied.
Proof. apply applyBatch_keys. by intros k tp. Qed.

Lemma demo_no_dash : x2d ∉ Bytes.of_string "t".
Proof. vm_compute. intros H. by repeat (apply elem_of_cons in H as [H|H]; [discriminate|]); apply not_elem_of_nil in H. Qed.

Lemma bare_topic_not_found_witness :
  let data := Bytes.be 8 0 ++ [x01; x00; x01] in
  is_Some (topics demo_applied !! "t-0") ∧
  handleTCPAck 1 "t" 0 data demo_applied = Ret (Wire.sendResponse Wire.RespError "" 0) demo_applied.
Proof.
  split; [vm_compute; eauto|].
  apply (bare_topic_not_found 1 "t" 0 (Bytes.be 8 0 ++ [x01; x00; x01]) (TimeWheel.mkDelayedMessage "t" 0 [] 0)
    demo_applied demo_applied_keys demo_no_dash); [reflexivity|discriminate].
Defined.
End BrokerProps.
