(* ===== verification/BrokerHttp.v ===== *)
(** * The broker's HTTP interface

    Models [handleProduce], [handleConsume] and the base64 helpers of
    [cluster/go/broker/broker.go].  A request is the decoded JSON body,
    [None] when it cannot be decoded; a response is the status and the value
    that is encoded as JSON. *)

From Stdlib Require Import ZArith Lia Strings.Byte.
From stdpp Require Import base tactics list gmap strings fin_maps.
From S2P Require Import Prelude GoLib Raft RaftProps Storage Namespace Broker BrokerRaft BrokerProps.

Open Scope Z_scope.

(** ** Base64

    [base64.StdEncoding] of the standard library. *)
Module Base64.

Import Bytes.

Definition alphabet : list byte :=
  Bytes.of_string "ABCDEFGHIJKLMNOPQRSTUVWXYZabcdefghijklmnopqrstuvwxyz0123456789+/".

Definition pad : byte := x3d.

Definition encode6 (z : Z) : byte := default pad (alphabet !! Z.to_nat (z mod 64)).
Definition decode6 (b : byte) : option Z := Z.of_nat ∘ fst <$> list_find (b =.) alphabet.

(** Three bytes are four characters; what is left over is padded. *)
Fixpoint encode (bs : list byte) : list byte :=
  match bs with
  | [] => []
  | [a] => let v := to_Z a * 65536 in [encode6 (v / 262144); encode6 (v / 4096); pad; pad]
  | [a; b] =>
      let v := to_Z a * 65536 + to_Z b * 256 in
      [encode6 (v / 262144); encode6 (v / 4096); encode6 (v / 64); pad]
  | a :: b :: c :: bs =>
      let v := to_Z a * 65536 + to_Z b * 256 + to_Z c in
      encode6 (v / 262144) :: encode6 (v / 4096) :: encode6 (v / 64) :: encode6 v :: encode bs
  end.

(** The decoder on input without line breaks: padding ends the input, and
    leftover bits of the last character are ignored. *)
Fixpoint decodeQuanta (cs : list byte) : option (list byte) :=
  match cs with
  | [] => Some []
  | c1 :: c2 :: c3 :: c4 :: cs =>
      d1 ← decode6 c1;
      d2 ← decode6 c2;
      if decide (c3 = pad) then
        if decide (c4 = pad ∧ cs = []) then Some [of_Z ((d1 * 262144 + d2 * 4096) / 65536)] else None
      else
        d3 ← decode6 c3;
        if decide (c4 = pad) then
          if decide (cs = []) then
            let v := d1 * 262144 + d2 * 4096 + d3 * 64 in Some [of_Z (v / 65536); of_Z (v / 256)]
          else None
        else
          d4 ← decode6 c4;
          let v := d1 * 262144 + d2 * 4096 + d3 * 64 + d4 in
          rest ← decodeQuanta cs;
          Some (of_Z (v / 65536) :: of_Z (v / 256) :: of_Z v :: rest)
  | _ => None
  end.

(** Line breaks are skipped. *)
Definition decode (cs : list byte) : option (list byte) :=
  decodeQuanta (filter (λ c, c ≠ x0a ∧ c ≠ x0d) cs).

Lemma decode_encode6 z : decode6 (encode6 z) = Some (z mod 64).
Proof.
  pose proof (Z.mod_pos_bound z 64 eq_refl) as Hz. unfold encode6. set (r := z mod 64) in *. clearbody r.
  assert (Forall (λ n, decode6 (default pad (alphabet !! n)) = Some (Z.of_nat n)) (seq 0 64)) as H.
  { apply (bool_decide_unpack _). vm_compute. done. }
  rewrite Forall_forall in H. rewrite H; [f_equal; lia|]. apply elem_of_seq. lia.
Qed.

Lemma encode6_plain z : encode6 z ≠ x0a ∧ encode6 z ≠ x0d ∧ encode6 z ≠ pad.
Proof.
  pose proof (decode_encode6 z) as H. split_and!; intros E; rewrite E in H; vm_compute in H; done.
Qed.

(** Induction three bytes at a time. *)
Lemma three_ind (P : list byte → Prop) :
  P [] → (∀ a, P [a]) → (∀ a b, P [a; b]) → (∀ a b c bs, P bs → P (a :: b :: c :: bs)) → ∀ bs, P bs.
Proof.
  intros H0 H1 H2 H3 bs. enough (P bs ∧ (∀ a, P (a :: bs)) ∧ ∀ a b, P (a :: b :: bs)) by naive_solver.
  induction bs as [|c bs IH]; naive_solver.
Qed.

Lemma encode_plain bs : Forall (λ c, c ≠ x0a ∧ c ≠ x0d) (encode bs).
Proof.
  induction bs using three_ind; simpl; repeat constructor; try done; try apply encode6_plain; assumption.
Qed.

Lemma to_Z_of_arith z b : z mod 256 = to_Z b → of_Z z = b.
Proof. intros H. apply to_Z_inj. by rewrite to_of_Z. Qed.

Lemma base64_decode_encode bs : decode (encode bs) = Some bs.
Proof.
  unfold decode. rewrite filter_all by (apply Forall_forall, encode_plain).
  induction bs as [|a|a b|a b c bs IH] using three_ind; cbn [encode decodeQuanta]; [done|..];
    rewrite !decode_encode6; cbn [mbind option_bind];
    rewrite ?(decide_False (P := encode6 _ = pad)) by apply encode6_plain; rewrite ?decode_encode6; cbn [mbind option_bind].
  - rewrite (decide_True (P := pad = pad)), decide_True by done. do 2 f_equal. apply to_Z_of_arith.
    pose proof (to_Z_range a). Z.to_euclidean_division_equations. lia.
  - rewrite (decide_True (P := pad = pad)), decide_True by done.
    pose proof (to_Z_range a). pose proof (to_Z_range b).
    f_equal. f_equal; [|f_equal]; apply to_Z_of_arith; Z.to_euclidean_division_equations; lia.
  - rewrite IH. simpl. pose proof (to_Z_range a). pose proof (to_Z_range b). pose proof (to_Z_range c).
    f_equal. f_equal; [|f_equal; [|f_equal]]; apply to_Z_of_arith; Z.to_euclidean_division_equations; lia.
Qed.
End Base64.

Module BrokerHttp.

Import Broker Int.

Definition encodeBase64 (data : list byte) : string := Bytes.to_string (Base64.encode data).
Definition decodeBase64 (s : string) : option (list byte) := Base64.decode (Bytes.of_string s).

Lemma decode_encodeBase64 data : decodeBase64 (encodeBase64 data) = Some data.
Proof. unfold decodeBase64, encodeBase64. by rewrite Bytes.of_to_string, Base64.base64_decode_encode. Qed.

Record produceRequest := mkProduceRequest {
  pq_RequestID : string; pq_Type : string; pq_Topic : string; pq_Key : string; pq_Value : string }.

Record consumeRequest := mkConsumeRequest {
  cq_RequestID : string; cq_Type : string; cq_Topic : string; cq_Partition : Z; cq_Offset : Z }.

(** The JSON object of a message. *)
Record jsonMessage := mkJsonMessage {
  j_topic : string; j_partition : Z; j_key : string; j_value : string; j_offset : Z; j_timestamp : Z }.

Definition toJson (m : Message) : jsonMessage :=
  mkJsonMessage (Topic m) (Partition m) (Key m) (encodeBase64 (Value m)) (Offset m) (Timestamp m).

Inductive response :=
| RError (status : Z) (error : string)
| RProduced (requestId : string) (m : jsonMessage)
| RMessages (requestId : string) (msgs : list jsonMessage).

Definition status (r : response) : Z := match r with RError s _ => s | _ => 200 end.

Section http.
Context {R : Type} `{repl : !Replication R}.
Notation broker := (Broker R).

Definition handleProduce (pe : produceEnv) (net : string → http (option RouteInfo)) (req : option produceRequest) :
    prog broker response :=
  match req with
  | None => mret (RError 400 "invalid request")
  | Some req =>
      match decodeBase64 (pq_Value req) with
      | None => mret (RError 400 "invalid base64 value")
      | Some valueBytes =>
          res ← Produce pe net (pq_Topic req) (pq_Key req) valueBytes "" "" 0;
          mret (match res with Err e => RError 500 e | Ok msg => RProduced (pq_RequestID req) (toJson msg) end)
      end
  end.

(** [None] is the run-time panic of [Consume]. *)
Definition handleConsume (order : list (Z * Storage.IndexEntry)) (req : option consumeRequest) (b : broker) :
    option response :=
  match req with
  | None => Some (RError 400 "invalid request")
  | Some req =>
      res ← Consume order (cq_Topic req) (cq_Partition req) (cq_Offset req) "" b;
      Some (match res with
        | Err e => RError 500 e
        | Ok msgs => RMessages (cq_RequestID req) (if (length msgs =? 0)%nat then [] else toJson <$> msgs)
        end)
  end.

Context `{laws : !ReplicationLaws R}.

(** C19: A message posted over HTTP reaches the log as it was meant.  The value
    is posted in base64; when the request is served here and the log accepts
    it, exactly the decoded bytes are submitted, once, to the partition the
    name server chose, and the response carries a value that decodes to the
    same bytes.  A log that refuses leaves nothing and is answered with 500. *)
Theorem http_produce_roundtrip pe net route req data b x r' :
  decodeBase64 (pq_Value req) = Some data →
  BrokerProps.accepted "" (pq_Topic req) net (pq_Key req) route b →
  SubmitCommand (pq_Topic req) (int32 (ri_Partition route)) data (raftNode b) = Ret x r' →
  ∃ res b', handleProduce pe net (Some req) b = Ret res b' ∧ raftNode b' = r' ∧
    match x with
    | Ok _ => ∃ m, res = RProduced (pq_RequestID req) m ∧ decodeBase64 (j_value m) = Some data ∧
                j_partition m = ri_Partition route ∧
                submitted r' = submitted (raftNode b) ++ [(pq_Topic req, int32 (ri_Partition route), data)]
    | Err _ => status res = 500 ∧ submitted r' = submitted (raftNode b)
    end.
Proof.
  intros Hd Hacc Hs. unfold handleProduce. rewrite Hd. unfold mbind, prog_bind.
  rewrite (BrokerProps.Produce_accepted _ _ _ _ _ _ _ _ _ _ Hacc). cbv zeta. rewrite bool_decide_true by done.
  destruct (BrokerProps.submitTraced_ret pe (pq_Topic req) (pq_Key req) data "" "" 0 (ri_Partition route) b _ _ Hs)
    as (res & b1 & Ht). rewrite Ht.
  apply BrokerProps.submitTraced_inv in Ht as (x' & Hs' & -> & _). rewrite Hs in Hs'. injection Hs' as <- Hr.
  do 2 eexists. split; [done|]. split; [done|]. destruct x as [x|e]; simpl.
  - eexists. split; [done|]. split; [apply decode_encodeBase64|]. split; [done|]. by eapply submit_ok.
  - split; [done|]. by eapply submit_err.
Qed.

Lemma handleConsume_values order req b msgs :
  Consume order (cq_Topic req) (cq_Partition req) (cq_Offset req) "" b = Some (Ok msgs) →
  ∃ js, handleConsume order (Some req) b = Some (RMessages (cq_RequestID req) js) ∧
    (λ j, (decodeBase64 (j_value j), j_offset j)) <$> js = (λ m, (Some (Value m), Offset m)) <$> msgs.
Proof.
  intros H. unfold handleConsume. rewrite H. eexists. split; [done|].
  destruct msgs as [|m msgs]; [done|]. cbn [length Nat.eqb]. rewrite <- list_fmap_compose.
  apply list_fmap_ext. intros i m' _. simpl. by rewrite decode_encodeBase64.
Qed.
End http.

(** ** Witness *)

Import BrokerRaft BrokerProps.

Definition demo_post : produceRequest := mkProduceRequest "r1" "produce" "t" "k" "aGk=".

Lemma demo_post_submit : ∃ w,
  SubmitCommand (pq_Topic demo_post) (int32 (ri_Partition demo_route)) [x68; x69]
    (raftNode (demo_broker RaftProps.demo_leader)) = Ret (Ok (3, 0)) w.
Proof. eexists. vm_compute. reflexivity. Qed.

Lemma http_produce_roundtrip_witness :
  ∃ m b', handleProduce demo_pe demo_net (Some demo_post) (demo_broker RaftProps.demo_leader) =
    Ret (RProduced "r1" m) b' ∧ decodeBase64 (j_value m) = Some [x68; x69].
Proof.
  destruct demo_post_submit as [w Hw].
  destruct (http_produce_roundtrip demo_pe demo_net demo_route demo_post [x68; x69]
    (demo_broker RaftProps.demo_leader) (Ok (3, 0)) w eq_refl (demo_accepted _) Hw)
    as (res & b' & Hres & _ & m & -> & Hm & _).
  exists m, b'. split; [exact Hres|exact Hm].
Defined.
End BrokerHttp.
