(* ===== verification/BrokerLog.v ===== *)
(** * The broker as a collection of partition logs

    The abstract broker is a function from partition names to lists of
    messages; applying an entry appends one message, reading returns the
    messages behind an offset.  The commit logs, the indexes and the files of
    [Broker] implement it: [represents] is the refinement relation,
    [applyEntry_represents] the simulation step. *)

From Stdlib Require Import ZArith Lia Strings.Byte.
From stdpp Require Import base tactics list gmap strings fin_maps sorting.
From S2P Require Import Prelude GoLib Raft RaftProps Storage StorageProps Namespace Broker BrokerRaft BrokerProps.

Open Scope Z_scope.

Module BrokerLog.

Import Broker BrokerProps StorageProps Int.

(** ** The abstract broker *)

(** A message: its payload and the time it was indexed. *)
Notation message := (list byte * Z)%type.

Definition size_of (m : message) : Z := Storage.headerSize + Z.of_nat (length m.1).

(** Where the messages of a log are: each after the headers and payloads of
    the ones before it. *)
Fixpoint place (o : Z) (ms : list message) : list (Z * message) :=
  match ms with
  | [] => []
  | m :: ms => (o, m) :: place (o + size_of m) ms
  end.

Fixpoint end_of (ms : list message) : Z :=
  match ms with [] => 0 | m :: ms => size_of m + end_of ms end.

(** Applying a list of entries appends each to the log of its partition. *)
Definition entryKey (entry : Raft.LogEntry) : string := partitionKey (Raft.Topic entry) (Raft.Partition entry).

Definition logOf (batch : list (env * Raft.LogEntry)) (key : string) : list message :=
  (λ '(e, entry), (Raft.Data entry, Time.UnixNano (env_put e))) <$> filter (λ '(_, entry), entryKey entry = key) batch.

(** The messages of a partition with an offset greater than [offset]. *)
Definition readAfter (topic : string) (partition offset : Z) (ms : list message) : list Message :=
  (λ '(o, (d, t)), mkMessage topic partition "" d o t) <$> filter (λ '(o, _), offset < o) (place 0 ms).

(** ** Places *)

Lemma size_pos m : 20 ≤ size_of m.
Proof. unfold size_of, Storage.headerSize. lia. Qed.

Lemma place_app o ms1 ms2 : place o (ms1 ++ ms2) = place o ms1 ++ place (o + end_of ms1) ms2.
Proof.
  revert o. induction ms1 as [|m ms1 IH]; intros o; simpl; [by rewrite Z.add_0_r|].
  by rewrite IH, Z.add_assoc.
Qed.

Lemma end_of_app ms1 ms2 : end_of (ms1 ++ ms2) = end_of ms1 + end_of ms2.
Proof. induction ms1 as [|m ms1 IH]; simpl; [done|]. rewrite IH. lia. Qed.

Lemma end_of_pos ms : 0 ≤ end_of ms.
Proof. induction ms as [|m ms IH]; simpl; [done|]. pose proof (size_pos m). lia. Qed.

Lemma elem_of_place o ms o' m : (o', m) ∈ place o ms → o ≤ o' ∧ o' + size_of m ≤ o + end_of ms.
Proof.
  revert o. induction ms as [|m' ms IH]; intros o; simpl; [by intros ?%not_elem_of_nil|].
  intros [?|[??]%IH]%elem_of_cons; simplify_eq.
  - pose proof (end_of_pos ms). lia.
  - pose proof (size_pos m'). lia.
Qed.

Lemma NoDup_place o ms : NoDup (place o ms).*1.
Proof.
  revert o. induction ms as [|m ms IH]; intros o; simpl; [constructor|]. constructor; [|done].
  intros ([o' m'] & Ho & Hin)%list_elem_of_fmap. simpl in Ho. subst.
  apply elem_of_place in Hin. pose proof (size_pos m). lia.
Qed.

Lemma elem_of_place_in o ms o' m : (o', m) ∈ place o ms → m ∈ ms.
Proof.
  revert o. induction ms as [|m' ms IH]; intros o; simpl; [by intros ?%not_elem_of_nil|].
  intros [?|?%IH]%elem_of_cons; simplify_eq; by constructor.
Qed.

Lemma length_place o ms : 20 * Z.of_nat (length (place o ms)) ≤ end_of ms.
Proof.
  revert o. induction ms as [|m ms IH]; intros o; [done|]. cbn [place length end_of].
  specialize (IH (o + size_of m)). pose proof (size_pos m). lia.
Qed.

Lemma elem_of_readAfter topic partition offset ms m :
  m ∈ readAfter topic partition offset ms →
  ∃ o d t, m = mkMessage topic partition "" d o t ∧ offset < o ∧ (o, (d, t)) ∈ place 0 ms.
Proof.
  intros ([o [d t]] & -> & [? ?]%list_elem_of_filter)%list_elem_of_fmap. by exists o, d, t.
Qed.

Lemma length_readAfter topic partition offset ms : 20 * Z.of_nat (length (readAfter topic partition offset ms)) ≤ end_of ms.
Proof.
  unfold readAfter. rewrite length_fmap. pose proof (length_place 0 ms).
  pose proof (length_filter_le (λ '(o, _), offset < o) (place 0 ms)). lia.
Qed.

(** Nothing is behind the last message. *)
Lemma readAfter_last topic partition offset ms m :
  last (readAfter topic partition offset ms) = Some m → readAfter topic partition (Offset m + 1) ms = [].
Proof.
  destruct ms as [|x ms _] using rev_ind; [done|]. unfold readAfter.
  rewrite place_app, Z.add_0_l, !filter_app, !fmap_app. cbn [place]. rewrite !filter_cons, !filter_nil.
  assert (∀ offset, end_of ms ≤ offset → filter (λ '(o, _), offset < o) (place 0 ms) = []) as Hbefore.
  { intros o' Ho'. apply filter_none. intros [o y] Hin. apply elem_of_place in Hin. pose proof (size_pos y). lia. }
  case_decide as Hlt.
  - cbn [fmap list_fmap]. rewrite last_snoc. destruct x as [d t]. intros [= <-]. cbn [Offset].
    rewrite Hbefore by lia. by rewrite decide_False by lia.
  - rewrite Hbefore by lia. done.
Qed.

(** A reader that starts at offset 0 misses the first message. *)
Lemma readAfter_0 topic partition ms : readAfter topic partition 0 ms = tail (readAfter topic partition (-1) ms).
Proof.
  destruct ms as [|m ms]; [done|]. unfold readAfter. cbn [place]. rewrite !filter_cons, decide_False, decide_True by lia.
  cbn [fmap list_fmap tail]. f_equal. pose proof (size_pos m).
  rewrite !filter_all; [done|..]; intros [o x] Hin; apply elem_of_place in Hin; lia.
Qed.

(** ** The refinement relation *)

Definition indexEntry : Z * message → Z * Storage.IndexEntry :=
  λ '(o, (d, t)), (o, Storage.mkIndexEntry o (Z.of_nat (length d)) t).

Lemma indexEntry_fst l : (indexEntry <$> l).*1 = l.*1.
Proof. rewrite <- list_fmap_compose. apply list_fmap_ext. by intros ? [? []] _. Qed.

(** One partition: its log ends where the messages end, its first segment
    holds every payload at its place, and its index lists them. *)
Record stores (path : string) (tp : TopicPartition) (disk : Storage.FS) (ms : list message) : Prop := {
  st_wf : wf (Storage.mkState (commitLog tp) disk);
  st_path : Storage.basePath (commitLog tp) = path;
  st_last : Storage.lastOffset (commitLog tp) = end_of ms;
  st_length : Z.of_nat (length (segContent 0 (Storage.mkState (commitLog tp) disk))) = end_of ms;
  st_index : Storage.entries (index tp) = list_to_map (indexEntry <$> place 0 ms);
  st_data o d t : (o, (d, t)) ∈ place 0 ms →
    ∃ rest, drop (Z.to_nat (o + 20)) (segContent 0 (Storage.mkState (commitLog tp) disk)) = d ++ rest;
}.

(** Distinct names have distinct inodes. *)
Definition disk_ok (f : Storage.FS) : Prop :=
  (∀ n1 n2 i, Storage.names f !! n1 = Some i → Storage.names f !! n2 = Some i → n1 = n2) ∧
  (∀ n i, Storage.names f !! n = Some i → i < Storage.nextInode f ∧ is_Some (Storage.inodes f !! i)).

Lemma wf_disk_ok s : wf s → disk_ok (Storage.fs s).
Proof. intros [? ? _]. by split. Qed.

Section broker.
Context {R : Type}.
Notation broker := (Broker R).
Implicit Types b : broker.

Record represents (b : broker) (logs : string → list message) : Prop := {
  rep_disk : disk_ok (fs b);
  rep_some key tp : topics b !! key = Some tp → stores (logPath (dataDir b) key) tp (fs b) (logs key);
  rep_none key : topics b !! key = None →
    logs key = [] ∧ ∀ name, Storage.names (fs b) !! (logPath (dataDir b) key, name) = None;
}.

Lemma logPath_inj d k1 k2 : logPath d k1 = logPath d k2 → k1 = k2.
Proof.
  unfold logPath. intros H%(f_equal Bytes.of_string). rewrite !Bytes.of_string_app in H.
  by apply app_inv_head, app_inv_head, app_inv_tail, Bytes.of_string_inj in H.
Qed.

(** Opening the log of a partition that has no file. *)
Lemma open_new path f topic partition :
  disk_ok f → (∀ name, Storage.names f !! (path, name) = None) →
  let s := Storage.OpenCommitLog path f in
  Storage.fs s = f ∧
  stores path (mkTopicPartition topic partition (Storage.cl s) Storage.OpenSparseIndex) f [].
Proof.
  intros Hf Hnone s. split; [done|].
  assert (Storage.segmentFiles path f = []) as Hseg.
  { destruct (Storage.segmentFiles path f) as [|[name n] l] eqn:E; [done|].
    assert ((name, n) ∈ Storage.segmentFiles path f) as (_ & i & Hi & _)%elem_of_segmentFiles by (rewrite E; constructor).
    by rewrite Hnone in Hi. }
  split; simpl; try done.
  - destruct Hf as [Hinj Hb]. by split.
  - by rewrite Hseg.
  - unfold segContent. simpl. by rewrite Hnone.
  - by intros o d t ?%not_elem_of_nil.
Qed.

(** The simulation step: what applying one entry does to its partition. *)
Lemma stores_append path topic partition tp disk ms now d t :
  stores path tp disk ms → end_of ms + size_of (d, t) ≤ Storage.MiB →
  ∃ s, Storage.Append Storage.io_ok now d (Storage.mkState (commitLog tp) disk) = (Ok (end_of ms), s) ∧
    stores path (mkTopicPartition topic partition (Storage.cl s)
      (Storage.Put (end_of ms) (int32 (Z.of_nat (length d))) t (index tp))) (Storage.fs s) (ms ++ [(d, t)]).
Proof.
  intros [Hwf Hpath Hlast Hlen Hidx Hdata] Hmax. unfold size_of, Storage.headerSize in Hmax. simpl in Hmax.
  pose proof (end_of_pos ms) as Hpos. unfold Storage.MiB in Hmax.
  destruct (Append_ok now d (Storage.mkState (commitLog tp) disk)) as (s & Happ & Hwf' & Hb & _ & Hlo & Hc & _);
    [done|simpl; lia..|]. cbn [Storage.cl Storage.fs] in Happ, Hb, Hlo, Hc. rewrite Hlast in Happ, Hlo, Hc.
  pose proof (length_header (end_of ms) (Time.UnixNano now) d) as Hh. set (h := Storage.header _ _ _) in *. clearbody h.
  rewrite segOf_small in Hc by (unfold Storage.MiB; lia).
  exists s. split; [done|]. destruct s as [c f]. simpl in *. split; simpl.
  - done.
  - by rewrite Hb.
  - rewrite Hlo, end_of_app. simpl. unfold size_of, Storage.headerSize. simpl. lia.
  - rewrite Hc, end_of_app, !length_app. simpl. unfold size_of, Storage.headerSize. simpl. lia.
  - rewrite Hidx, place_app, fmap_app, Z.add_0_l. simpl. rewrite list_to_map_app. simpl.
    rewrite int32_small by lia. rewrite insert_empty, insert_union_singleton_l. apply map_union_comm.
    apply map_disjoint_singleton_l_2. apply not_elem_of_list_to_map_1. rewrite indexEntry_fst.
    intros ([o m] & Ho & Hin)%list_elem_of_fmap. apply elem_of_place in Hin. simpl in Ho. subst o.
    pose proof (size_pos m). lia.
  - intros o d' t'. rewrite place_app, Z.add_0_l. intros [Hin|Hin]%elem_of_app.
    + destruct (Hdata _ _ _ Hin) as [rest Hr]. apply elem_of_place in Hin. simpl in Hin.
      unfold size_of, Storage.headerSize in Hin. simpl in Hin.
      rewrite Hc, drop_app_le by lia. rewrite Hr, <- app_assoc. by eexists.
    + apply list_elem_of_singleton in Hin. simplify_eq. exists []. rewrite Hc, app_nil_r, app_assoc.
      apply drop_app_exact. rewrite length_app. lia.
Qed.

(** Appending to one log leaves the others alone. *)
Lemma stores_frame path tp disk ms o now d c :
  stores path tp disk ms → wf (Storage.mkState c disk) → Storage.basePath c ≠ path →
  stores path tp (Storage.fs (Storage.Append o now d (Storage.mkState c disk)).2) ms.
Proof.
  intros [Hwf Hpath Hlast Hlen Hidx Hdata] Hc Hne.
  destruct (Append_other o now d (Storage.mkState c disk) (commitLog tp) Hc Hwf) as [Hwf' Hseg]; [simpl; congruence|].
  split; try done.
  - by rewrite Hseg.
  - intros o' d' t' Hin. rewrite Hseg. by apply (Hdata o' d' t').
Qed.

(** What applying entries never changes. *)
Definition same_config b b' : Prop :=
  dataDir b' = dataDir b ∧ namespaceManager b' = namespaceManager b.

Lemma getOrCreate_represents topic partition b logs tp b1 :
  represents b logs → getOrCreateTopicPartition topic partition b = (tp, b1) →
  represents b1 logs ∧ topics b1 !! partitionKey topic partition = Some tp ∧ same_config b b1.
Proof.
  intros Hrep. unfold getOrCreateTopicPartition. destruct (topics b !! _) as [tp'|] eqn:Hk.
  { intros [= <- <-]. split_and!; [done|done|by split]. }
  intros [= <- <-]. destruct Hrep as [Hd Hs Hn]. destruct (Hn _ Hk) as [Hl Hnone].
  destruct (open_new _ _ topic partition Hd Hnone) as [_ Hst]. split_and!; [|apply lookup_insert_eq|by split]. split; simpl.
  - done.
  - intros key tp [[<- <-]|[_ ?]]%lookup_insert_Some; [by rewrite Hl|by apply Hs].
  - intros key [? _]%lookup_insert_None. by apply Hn.
Qed.

(** The logs after one more message. *)
Definition addMessage (key : string) (m : message) (logs : string → list message) : string → list message :=
  λ k, logs k ++ (if decide (k = key) then [m] else []).

Lemma applyEntry_represents e entry b logs :
  represents b logs → env_io e = Storage.io_ok →
  let m := (Raft.Data entry, Time.UnixNano (env_put e)) in
  end_of (logs (entryKey entry)) + size_of m ≤ Storage.MiB →
  represents (applyEntry e entry b) (addMessage (entryKey entry) m logs) ∧ same_config b (applyEntry e entry b).
Proof.
  intros Hrep Hio m Hmax. unfold applyEntry. rewrite Hio.
  destruct (getOrCreateTopicPartition _ _ b) as [tp b1] eqn:Hget.
  destruct (getOrCreate_represents _ _ _ _ _ _ Hrep Hget) as ([Hd Hs Hn] & Hk & Hcfg). clear Hget.
  fold (entryKey entry) in Hk |- *. pose proof (Hs _ _ Hk) as Hst.
  destruct (stores_append _ (tp_Topic tp) (tp_Partition tp) _ _ _ (env_append e) _ _ Hst Hmax) as (s & Happ & Hst').
  rewrite Happ. split; [|done].
  assert (Storage.fs s = Storage.fs (Storage.Append Storage.io_ok (env_append e) (Raft.Data entry)
    (Storage.mkState (commitLog tp) (fs b1))).2) as Hfs by (by rewrite Happ).
  assert (∀ key, key ≠ entryKey entry → Storage.basePath (commitLog tp) ≠ logPath (dataDir b1) key) as Hne.
  { intros key Hne E. rewrite (st_path _ _ _ _ Hst) in E. by apply logPath_inj in E. }
  split; simpl.
  - rewrite Hfs. by apply wf_disk_ok, (Append_grows _ _ _ _ 0), (st_wf _ _ _ _ Hst).
  - intros key tp' [[<- <-]|[Hkey Htp]]%lookup_insert_Some; unfold addMessage.
    + rewrite decide_True by done. exact Hst'.
    + rewrite decide_False, app_nil_r, Hfs by done.
      apply stores_frame; [by apply Hs|by apply (st_wf _ _ _ _ Hst)|by apply Hne].
  - intros key [Htp Hkey]%lookup_insert_None. destruct (Hn _ Htp) as [Hl Hnone]. unfold addMessage.
    rewrite decide_False, app_nil_r by done. split; [done|]. intros name. rewrite Hfs.
    rewrite (proj1 (Append_frame _ _ _ _ _ _ (st_wf _ _ _ _ Hst) (not_eq_sym (Hne key (not_eq_sym Hkey))))). apply Hnone.
Qed.

Lemma represents_ext b logs logs' : (∀ k, logs k = logs' k) → represents b logs → represents b logs'.
Proof. intros Heq [Hd Hs Hn]. split; [done|..]; intros k; rewrite <- Heq; auto. Qed.

Lemma logOf_cons e entry batch k :
  logOf ((e, entry) :: batch) k =
  (if decide (k = entryKey entry) then [(Raft.Data entry, Time.UnixNano (env_put e))] else []) ++ logOf batch k.
Proof. unfold logOf. rewrite filter_cons. repeat case_decide; congruence || done. Qed.

(** Forward simulation over a batch. *)
Lemma applyBatch_represents batch b logs :
  represents b logs → Forall (λ '(e, _), env_io e = Storage.io_ok) batch →
  (∀ key, end_of (logs key ++ logOf batch key) ≤ Storage.MiB) →
  represents (applyBatch batch b) (λ key, logs key ++ logOf batch key) ∧ same_config b (applyBatch batch b).
Proof.
  revert b logs. induction batch as [|[e entry] batch IH]; intros b logs Hrep Hio Hmax.
  { split; [|by split]. eapply represents_ext, Hrep. intros k. by rewrite app_nil_r. }
  apply Forall_cons in Hio as [Hio Hios].
  set (m := (Raft.Data entry, Time.UnixNano (env_put e))).
  assert (∀ k, addMessage (entryKey entry) m logs k ++ logOf batch k = logs k ++ logOf ((e, entry) :: batch) k) as Heq.
  { intros k. unfold addMessage. by rewrite logOf_cons, app_assoc. }
  destruct (applyEntry_represents e entry b logs Hrep Hio) as [Hrep1 [Hd1 Hn1]].
  { specialize (Hmax (entryKey entry)). rewrite <- Heq, end_of_app in Hmax. unfold addMessage in Hmax.
    rewrite decide_True, end_of_app in Hmax by done. simpl in Hmax. pose proof (end_of_pos (logOf batch (entryKey entry))).
    unfold m in *. lia. }
  destruct (IH _ _ Hrep1 Hios) as [Hrep2 [Hd2 Hn2]].
  { intros k. rewrite Heq. apply Hmax. }
  split; [eapply represents_ext, Hrep2; exact Heq|]. split; etrans; eassumption.
Qed.

(** ** Reading *)

Lemma stores_read path topic partition tp disk ms o d t :
  stores path tp disk ms → end_of ms ≤ Storage.MiB → (o, (d, t)) ∈ place 0 ms →
  readEntry topic partition tp disk (indexEntry (o, (d, t))).2 = Some (Ok (mkMessage topic partition "" d o t)).
Proof.
  intros Hst Hmax Hin. destruct (st_data _ _ _ _ Hst _ _ _ Hin) as [rest Hrest].
  apply elem_of_place in Hin as [Ho Hend]. unfold size_of, Storage.headerSize, Storage.MiB in *. simpl in Hend.
  unfold readEntry. simpl.
  rewrite Read_content; rewrite ?segOf_small by (unfold Storage.MiB; lia); [|..|lia|lia].
  2: { intros E. pose proof (st_length _ _ _ _ Hst) as Hl. rewrite E in Hl. simpl in Hl. lia. }
  rewrite Z.mod_small by (unfold Storage.MiB; lia). rewrite Hrest, Nat2Z.id, take_app_length. cbv zeta.
  rewrite Nat.sub_diag, app_nil_r. destruct d as [|x d]; [done|]. by rewrite bool_decide_false.
Qed.

Lemma consumeLoop_all read (f : Storage.IndexEntry → Message) es :
  (∀ e, e ∈ es → read e = Some (Ok (f e))) → consumeLoop read es = Some (f <$> es).
Proof.
  induction es as [|e es IH]; intros Hr; [done|]. simpl. rewrite Hr by constructor. simpl.
  rewrite IH; [done|]. intros. apply Hr. by constructor.
Qed.

(** The entries of an index, in any order, are those of the messages. *)
Lemma index_entries path tp disk ms order offset :
  stores path tp disk ms → order ≡ₚ map_to_list (Storage.entries (index tp)) →
  Storage.GetEntriesAfter order offset ≡ₚ (indexEntry <$> filter (λ '(o, _), offset < o) (place 0 ms)).*2.
Proof.
  intros Hst Horder. unfold Storage.GetEntriesAfter. rewrite Horder, (st_index _ _ _ _ Hst).
  rewrite map_to_list_to_map by (rewrite indexEntry_fst; apply NoDup_place).
  generalize (place 0 ms). intros l. apply reflexive_eq. induction l as [|[o [d t]] l IH]; [done|].
  rewrite !fmap_cons, !filter_cons. simpl. case_decide; simpl; by rewrite IH.
Qed.

(** The message of an index entry. *)
Definition entryMessage (topic : string) (partition : Z) (ms : list message) (e : Storage.IndexEntry) : Message :=
  mkMessage topic partition "" (from_option fst [] ((list_to_map (place 0 ms) : gmap Z message) !! Storage.Offset e))
    (Storage.Offset e) (Storage.Timestamp e).

Lemma entryMessage_place topic partition ms o d t :
  (o, (d, t)) ∈ place 0 ms →
  entryMessage topic partition ms (indexEntry (o, (d, t))).2 = mkMessage topic partition "" d o t.
Proof.
  intros Hin. unfold entryMessage. simpl. rewrite (elem_of_list_to_map_1 _ o (d, t)); [done| |done]. apply NoDup_place.
Qed.

Lemma stores_entries path topic partition tp disk ms order offset :
  stores path tp disk ms → end_of ms ≤ Storage.MiB → order ≡ₚ map_to_list (Storage.entries (index tp)) →
  let es := Storage.GetEntriesAfter order offset in
  (∀ e, e ∈ es → readEntry topic partition tp disk e = Some (Ok (entryMessage topic partition ms e)) ∧
     Storage.Size e = Z.of_nat (length (Value (entryMessage topic partition ms e)))) ∧
  entryMessage topic partition ms <$> es ≡ₚ readAfter topic partition offset ms.
Proof.
  intros Hst Hmax Horder es. pose proof (index_entries _ _ _ _ _ offset Hst Horder) as Hes. split.
  - intros e He. unfold es in He. rewrite Hes in He. rewrite <- list_fmap_compose in He.
    apply list_elem_of_fmap in He as ([o [d t]] & -> & [_ Hin]%list_elem_of_filter).
    unfold compose. rewrite entryMessage_place by done. split; [|done]. by eapply stores_read.
  - unfold es. rewrite Hes, <- !list_fmap_compose. apply reflexive_eq, list_fmap_ext.
    intros i [o [d t]] Hi%list_elem_of_lookup_2. apply list_elem_of_filter in Hi as [_ Hin].
    unfold compose. by rewrite entryMessage_place.
Qed.

(** A broker that was just started on an empty disk. *)
Definition fresh b : Prop :=
  topics b = ∅ ∧ disk_ok (fs b) ∧ ∀ key name, Storage.names (fs b) !! (logPath (dataDir b) key, name) = None.

Lemma fresh_represents b : fresh b → represents b (λ _, []).
Proof. intros (Ht & Hd & Hn). split; [done|..]; intros key; rewrite Ht, lookup_empty; [done|auto]. Qed.

(** What the theorems below suppose of the entries: the file operations
    succeed and the log of each partition stays within its first mebibyte. *)
Definition within (batch : list (env * Raft.LogEntry)) : Prop :=
  Forall (λ '(e, _), env_io e = Storage.io_ok) batch ∧ ∀ key, end_of (logOf batch key) ≤ Storage.MiB.

Lemma applied batch b :
  fresh b → within batch → represents (applyBatch batch b) (logOf batch) ∧ same_config b (applyBatch batch b).
Proof.
  intros Hf [Hio Hmax]. exact (applyBatch_represents batch b (λ _, []) (fresh_represents b Hf) Hio Hmax).
Qed.

(** Only an entry of a partition opens the partition. *)
Lemma applyBatch_untouched batch b key :
  topics b !! key = None → logOf batch key = [] → topics (applyBatch batch b) !! key = None.
Proof.
  revert b. induction batch as [|[e entry] batch IH]; intros b Hb Hl; [done|].
  rewrite logOf_cons in Hl. destruct (decide (key = entryKey entry)) as [|Hne]; [done|].
  apply IH; [|done]. unfold applyEntry, getOrCreateTopicPartition. unfold entryKey in Hne.
  destruct (topics b !! partitionKey _ _); case_match; simpl; by rewrite !lookup_insert_ne.
Qed.

(** The offsets of the messages, in the order in which the index is walked. *)
Lemma messages_follow_order path topic partition tp disk ms order offset :
  stores path tp disk ms → order ≡ₚ map_to_list (Storage.entries (index tp)) →
  Offset <$> (entryMessage topic partition ms <$> Storage.GetEntriesAfter order offset) =
    filter (λ o, offset < o) order.*1.
Proof.
  intros Hst Horder.
  assert (∀ k e, (k, e) ∈ order → Storage.Offset e = k) as Hkey.
  { intros k e. rewrite Horder, (st_index _ _ _ _ Hst), map_to_list_to_map
      by (rewrite indexEntry_fst; apply NoDup_place).
    by intros ([o [d t]] & ? & _)%list_elem_of_fmap; simplify_eq/=. }
  clear Horder. unfold Storage.GetEntriesAfter. induction order as [|[k e] order IH]; [done|].
  assert (Storage.Offset e = k) as Hk by (apply Hkey; constructor).
  specialize (IH (λ k' e' H, Hkey k' e' (list_elem_of_further _ _ _ H))).
  rewrite !fmap_cons, !filter_cons. cbn [fst snd]. rewrite Hk.
  case_decide; [|exact IH]. rewrite !fmap_cons. f_equal; [exact Hk|exact IH].
Qed.

(** C2: The broker implements partition logs.  Apply a list of committed
    entries to a fresh broker, where the file operations succeed and no
    partition's log grows beyond its first mebibyte.  Consuming from a
    partition that got entries then returns exactly the messages that were
    applied to it and have a greater offset than asked for, each once, with
    their payloads and times, in the order in which the index is traversed;
    a partition that got no entry is not found. *)
Theorem consume_refines batch b topic partition offset userID :
  fresh b → within batch →
  Namespace.CheckPermission userID topic Namespace.ActionConsume (namespaceManager b) = Ok true →
  let b' := applyBatch batch b in
  let log := logOf batch (partitionKey topic partition) in
  (log = [] → ∀ order,
     Consume order topic partition offset userID b' = Some (Err "topic partition not found")) ∧
  (log ≠ [] → ∃ tp, topics b' !! partitionKey topic partition = Some tp ∧
     ∀ order, order ≡ₚ map_to_list (Storage.entries (index tp)) →
       ∃ msgs, Consume order topic partition offset userID b' = Some (Ok msgs) ∧
         msgs ≡ₚ readAfter topic partition offset log ∧
         Offset <$> msgs = filter (λ o, offset < o) order.*1).
Proof.
  intros Hf Hw Hperm b' log. destruct (applied batch b Hf Hw) as [[_ Hs Hn] [_ Hns]]. fold b' in Hs, Hn, Hns.
  unfold Consume. rewrite Hns, Hperm. split.
  - intros Hl order. subst b'. by rewrite applyBatch_untouched by (done || by destruct Hf as [-> _]).
  - intros Hl. destruct (topics b' !! partitionKey topic partition) as [tp|] eqn:Hk; [|by destruct (Hn _ Hk)].
    exists tp. split; [done|]. intros order Horder. pose proof (Hs _ _ Hk) as Hst.
    destruct (stores_entries _ topic partition _ _ _ _ offset Hst (proj2 Hw _) Horder) as [Hread Hp].
    rewrite (consumeLoop_all _ (entryMessage topic partition log)) by (intros e He; by apply Hread).
    eexists. split; [done|]. split; [done|]. by eapply messages_follow_order.
Qed.

(** The payload bytes of a list of messages. *)
Definition bytesOf (msgs : list Message) : Z :=
  foldr (λ m n, Z.of_nat (length (Value m)) + n) 0 msgs.

Lemma bytesOf_pos msgs : 0 ≤ bytesOf msgs.
Proof. induction msgs; simpl; lia. Qed.

Lemma fetchLoop_all read (f : Storage.IndexEntry → Message) maxBytes es count total :
  0 ≤ count →
  (∀ e, e ∈ es → read e = Some (Ok (f e)) ∧ Storage.Size e = Z.of_nat (length (Value (f e)))) →
  ∃ n, fetchLoop read maxBytes es count total = Some (take n (f <$> es)) ∧
    (n ≤ length es)%nat ∧ (count = 0 → es ≠ [] → n ≠ 0%nat) ∧
    (n = 0%nat ∨ (count = 0 ∧ n = 1%nat) ∨ total + bytesOf (take n (f <$> es)) ≤ maxBytes) ∧
    (n = length es ∨ maxBytes < total + bytesOf (take (S n) (f <$> es))).
Proof.
  revert count total. induction es as [|e es IH]; intros count total Hc Hr.
  { exists 0%nat. split_and!; auto. }
  destruct (Hr e) as [Hread Hsize]; [constructor|]. cbn [fetchLoop]. rewrite Hread, Hsize, Z.gtb_ltb, Z.gtb_ltb.
  set (w := Z.of_nat (length (Value (f e)))).
  destruct ((maxBytes <? total + w) && (0 <? count)) eqn:Hstop; bool_to_prop.
  { exists 0%nat. split_and!; [done|simpl; lia|lia|auto|]. right. simpl. fold w. lia. }
  destruct (IH (count + 1) (total + w)) as (n & Hloop & Hn & _ & Hbound & Hmax); [lia|intros; apply Hr; by constructor|].
  cbn [mbind option_bind]. rewrite Hloop. exists (S n). cbn [fmap list_fmap take length].
  split_and!; [done|lia|done| |].
  - apply andb_false_iff in Hstop as [Hw|Hz]; bool_to_prop; simpl; fold w.
    + right. right. destruct Hbound as [->|[[? _]|?]]; [simpl; lia|lia|lia].
    + assert (count = 0) as -> by lia. destruct Hbound as [->|[[? _]|?]]; [by right; left|lia|]. right. right. lia.
  - destruct Hmax as [->|?]; [by left|]. right. cbn [bytesOf foldr]. fold w. fold (bytesOf (take (S n) (f <$> es))). lia.
Qed.

(** The index traversed from the smallest offset to the greatest. *)
Definition ascending (order : list (Z * Storage.IndexEntry)) (tp : TopicPartition) : Prop :=
  order ≡ₚ map_to_list (Storage.entries (index tp)) ∧ Sorted Z.le order.*1.

Lemma place_sorted o ms : Sorted Z.le (place o ms).*1.
Proof.
  revert o. induction ms as [|m ms IH]; intros o; simpl; constructor; [done|].
  destruct ms as [|m' ms]; simpl; constructor. pose proof (size_pos m). lia.
Qed.

Lemma ascending_place path tp disk ms order :
  stores path tp disk ms → ascending order tp → order = indexEntry <$> place 0 ms.
Proof.
  intros Hst [Hp Hs]. rewrite (st_index _ _ _ _ Hst), map_to_list_to_map in Hp
    by (rewrite indexEntry_fst; apply NoDup_place).
  apply perm_fst_eq; [done|rewrite indexEntry_fst; apply NoDup_place|].
  apply (Sorted_unique Z.le); [done|rewrite indexEntry_fst; apply place_sorted|by rewrite Hp].
Qed.

Lemma bytesOf_app l1 l2 : bytesOf (l1 ++ l2) = bytesOf l1 + bytesOf l2.
Proof. induction l1; simpl; lia. Qed.

Lemma bytesOf_readAfter topic partition offset ms : bytesOf (readAfter topic partition offset ms) ≤ end_of ms.
Proof.
  unfold readAfter. generalize 0. induction ms as [|[d t] ms IH]; intros o; [done|].
  cbn [place]. rewrite filter_cons. specialize (IH (o + size_of (d, t))). pose proof (size_pos (d, t)).
  unfold bytesOf in *. cbn [end_of].
  case_decide; rewrite ?fmap_cons; cbn [foldr Value]; unfold size_of, Storage.headerSize in *; cbn [fst] in *; lia.
Qed.

Lemma messages_in_order topic partition offset ms l :
  (∀ x, x ∈ l → x ∈ place 0 ms) →
  entryMessage topic partition ms <$> Storage.GetEntriesAfter (indexEntry <$> l) offset =
  (λ '(o, (d, t)), mkMessage topic partition "" d o t) <$> filter (λ '(o, _), offset < o) l.
Proof.
  unfold Storage.GetEntriesAfter. induction l as [|[o [d t]] l IH]; intros Hin; [done|].
  rewrite !fmap_cons, !filter_cons. cbn [indexEntry snd Storage.Offset].
  assert (∀ x, x ∈ l → x ∈ place 0 ms) as Hl by (intros; apply Hin; by constructor).
  destruct (decide (offset < o)); rewrite ?fmap_cons, ?IH by done; [|done]. f_equal.
  apply (entryMessage_place topic partition ms o d t), Hin. constructor.
Qed.

(** Traversed in this order, a fetch of a mebibyte returns the whole rest of
    the log in order. *)
Lemma Fetch_ascending b logs topic partition offset tp order :
  represents b logs → let log := logs (partitionKey topic partition) in end_of log ≤ Storage.MiB →
  topics b !! partitionKey topic partition = Some tp → ascending order tp →
  Fetch order topic partition offset Storage.MiB b =
    Some (Ok (readAfter topic partition offset log,
              match last (readAfter topic partition offset log) with Some m => Offset m + 1 | None => 0 end)).
Proof.
  intros [_ Hs _] log Hmax Hk Hasc. pose proof (Hs _ _ Hk) as Hst. fold log in Hst.
  pose proof (ascending_place _ _ _ _ _ Hst Hasc) as Horder. destruct Hasc as [Hperm _].
  destruct (stores_entries _ topic partition _ _ _ _ offset Hst Hmax Hperm) as [Hread _].
  assert (entryMessage topic partition log <$> Storage.GetEntriesAfter order offset =
    readAfter topic partition offset log) as Hall.
  { rewrite Horder. by apply messages_in_order. }
  destruct (fetchLoop_all _ (entryMessage topic partition log) Storage.MiB _ 0 0 ltac:(done) Hread)
    as (n & Hloop & Hn & _ & _ & Hbytes). rewrite Hall in Hloop, Hbytes.
  assert (n = length (Storage.GetEntriesAfter order offset)) as ->.
  { destruct Hbytes as [?|Hbytes]; [done|]. pose proof (bytesOf_readAfter topic partition offset log) as Hr.
    rewrite <- (take_drop (S n) (readAfter _ _ _ _)), bytesOf_app in Hr.
    pose proof (bytesOf_pos (drop (S n) (readAfter topic partition offset log))). lia. }
  unfold Fetch. rewrite Hk. cbv zeta. rewrite Hloop. simpl.
  assert (length (Storage.GetEntriesAfter order offset) = length (readAfter topic partition offset log)) as ->
    by (by rewrite <- Hall, length_fmap).
  rewrite firstn_all, <- Hall, fmap_last. by destruct (last (Storage.GetEntriesAfter _ _)).
Qed.

(** C12: A fetch is a bounded prefix.  Apply a list of committed entries to a
    fresh broker, where the file operations succeed and no partition's log
    grows beyond its first mebibyte.  Of the messages of a partition with a
    greater offset than asked for, taken in the order in which the index is
    traversed, a fetch returns the first ones: at least one if there is any,
    no more bytes than allowed unless it is a single message, and as many as
    that permits; the high watermark is one past the offset of the last of
    all of them. *)
Theorem fetch_refines batch b topic partition offset maxBytes tp order :
  fresh b → within batch →
  topics (applyBatch batch b) !! partitionKey topic partition = Some tp →
  order ≡ₚ map_to_list (Storage.entries (index tp)) →
  ∃ all n, all ≡ₚ readAfter topic partition offset (logOf batch (partitionKey topic partition)) ∧
    Offset <$> all = filter (λ o, offset < o) order.*1 ∧
    Fetch order topic partition offset maxBytes (applyBatch batch b) =
      Some (Ok (take n all, match last all with Some m => Offset m + 1 | None => 0 end)) ∧
    (n ≤ length all)%nat ∧ (all ≠ [] → n ≠ 0%nat) ∧
    ((n ≤ 1)%nat ∨ bytesOf (take n all) ≤ maxBytes) ∧
    (n = length all ∨ maxBytes < bytesOf (take (S n) all)).
Proof.
  intros Hf Hw Hk Horder. destruct (applied batch b Hf Hw) as [[_ Hs _] _]. pose proof (Hs _ _ Hk) as Hst.
  set (log := logOf batch _) in *.
  destruct (stores_entries _ topic partition _ _ _ _ offset Hst (proj2 Hw _) Horder) as [Hread Hp].
  destruct (fetchLoop_all _ (entryMessage topic partition log) maxBytes _ 0 0 ltac:(done) Hread)
    as (n & Hloop & Hn & Hpos & Hbound & Hmax).
  exists (entryMessage topic partition log <$> Storage.GetEntriesAfter order offset), n.
  split; [exact Hp|]. split; [by eapply messages_follow_order|]. rewrite length_fmap. split_and!; [|done| | |done].
  - unfold Fetch. rewrite Hk. cbv zeta. rewrite Hloop. simpl. rewrite fmap_last. by destruct (last _).
  - intros Hne. apply Hpos; [done|]. intros E. apply Hne. by rewrite E.
  - destruct Hbound as [->|[[_ ->]|?]]; [left; lia|left; lia|by right].
Qed.
End broker.

(** ** Witnesses *)

Import BrokerRaft.

Definition demo_batch : list (env * Raft.LogEntry) :=
  let entry i d := (mkEnv Storage.io_ok i i, Raft.mkLogEntry 1 i Raft.EntryType_DATA "t" 0 d None) in
  [entry 1 [x01]; entry 2 [x02; x03]; entry 3 []].
Definition demo_fresh : Broker Raft.World := demo_broker RaftProps.demo_leader.
Definition demo_applied_batch : Broker Raft.World := applyBatch demo_batch demo_fresh.

Lemma demo_fresh_ok : fresh demo_fresh.
Proof. by split_and!; [|split; intros *|]. Qed.

Lemma demo_batch_within : within demo_batch.
Proof.
  split; [by repeat constructor|]. intros key. unfold logOf, demo_batch. rewrite !filter_cons.
  repeat case_decide; vm_compute; discriminate.
Qed.

Definition demo_partition : TopicPartition :=
  default (mkTopicPartition "" 0 (Storage.cl demo_new) Storage.OpenSparseIndex) (topics demo_applied_batch !! "t-0").

Lemma demo_partition_found : topics demo_applied_batch !! "t-0" = Some demo_partition.
Proof. vm_compute. reflexivity. Qed.

Definition demo_order : list (Z * Storage.IndexEntry) := map_to_list (Storage.entries (index demo_partition)).

(** The message at offset 0 is not behind offset 0. *)
Definition demo_behind (offset : Z) : list Message := readAfter "t" 0 offset (logOf demo_batch "t-0").

Lemma demo_behind_0 : Offset <$> demo_behind 0 = [21; 43].
Proof. vm_compute. reflexivity. Qed.

Lemma consume_refines_witness :
  (∃ msgs, Consume demo_order "t" 0 0 "u" demo_applied_batch = Some (Ok msgs) ∧ msgs ≡ₚ demo_behind 0 ∧
     Offset <$> msgs = filter (λ o, 0 < o) demo_order.*1) ∧
  Consume [] "t" 1 0 "u" demo_applied_batch = Some (Err "topic partition not found").
Proof.
  split.
  - destruct (consume_refines demo_batch demo_fresh "t" 0 0 "u" demo_fresh_ok demo_batch_within eq_refl)
      as [_ H]. destruct H as (tp & Hk & H); [discriminate|].
    assert (tp = demo_partition) as -> by (apply (inj Some); rewrite <- demo_partition_found; symmetry; exact Hk).
    apply H. reflexivity.
  - destruct (consume_refines demo_batch demo_fresh "t" 1 0 "u" demo_fresh_ok demo_batch_within eq_refl)
      as [H _]. apply H. vm_compute. reflexivity.
Defined.

Lemma fetch_refines_witness :
  ∃ all n, all ≡ₚ demo_behind (-1) ∧ Offset <$> all = filter (λ o, -1 < o) demo_order.*1 ∧
    Fetch demo_order "t" 0 (-1) 2 demo_applied_batch =
      Some (Ok (take n all, match last all with Some m => Offset m + 1 | None => 0 end)) ∧
    ((n ≤ 1)%nat ∨ bytesOf (take n all) ≤ 2).
Proof.
  destruct (fetch_refines demo_batch demo_fresh "t" 0 (-1) 2 demo_partition demo_order demo_fresh_ok demo_batch_within
    demo_partition_found ltac:(reflexivity)) as (all & n & Hall & Ho & Hf & _ & _ & Hb & _).
  exists all, n. split; [exact Hall|]. split; [exact Ho|]. split; [exact Hf|exact Hb].
Defined.
End BrokerLog.
