(* ===== verification/Clients.v ===== *)
(** * The sample clients

    Models [samples/go-producer/main.go], [samples/go-consumer/main.go] and
    [samples/go-dlq-consumer/main.go].  The framing is in [Wire]; here are
    the state of the clients and their loops.  A request to the name server is
    a function from URLs to outcomes, as in [Broker]; a connection is the
    address that was dialled; printing and sleeping are left out. *)

From Stdlib Require Import ZArith Lia Strings.Byte.
From stdpp Require Import base tactics list gmap strings fin_maps.
From S2P Require Import Prelude GoLib Wire Broker.

Open Scope Z_scope.

(** ** The consumer *)
Module Consumer.

Import Int.

Notation http := Broker.http.

Record JoinResponse := mkJoinResponse {
  jr_GroupID : string; jr_Generation : Z; jr_ClientID : string; jr_Assignments : list Z; jr_Topic : string }.

Record Consumer := mkConsumer {
  nameserverURL : string;
  groupID : string;
  clientID : string;
  topic : string;
  assignments : list Z;
  offsets : gmap Z Z;
  connCache : gmap Z string }.

#[export] Instance eta_Consumer : Eta Consumer := λ c,
  mkConsumer (nameserverURL c) (groupID c) (clientID c) (topic c) (assignments c) (offsets c) (connCache c).

Definition NewConsumer (nameserverURL groupID clientID topic : string) : Consumer :=
  mkConsumer nameserverURL groupID clientID topic [] ∅ ∅.

(** The outcome of a request whose body is decoded: [e] is the error of a
    status that is not 200. *)
Definition decoded {A} (e : string) (reply : http (result A)) : result A :=
  match reply with
  | Broker.HttpErr err => Err err
  | Broker.HttpReply status body => if status =? 200 then body else Err e
  end.

Definition getOffset (net : string → http (result Z)) (partition : Z) (c : Consumer) : result Z :=
  decoded "get offset failed" (net (nameserverURL c +:+ "/consumer/offset?group_id=" +:+ groupID c +:+
    "&topic=" +:+ topic c +:+ "&partition=" +:+ Fmt.d partition)).

Definition commitOffset (net : string → http (result unit)) (partition offset : Z) (c : Consumer) : result unit :=
  decoded "commit offset failed" (net (nameserverURL c +:+ "/consumer/commit_offset?group_id=" +:+ groupID c +:+
    "&topic=" +:+ topic c +:+ "&partition=" +:+ Fmt.d partition +:+ "&offset=" +:+ Fmt.d offset)).

Definition getLeader (net : string → http (result string)) (partition : Z) (c : Consumer) : result string :=
  decoded "get route failed" (net (nameserverURL c +:+ "/route?topic=" +:+ topic c +:+
    "&partition=" +:+ Fmt.d partition)).

(** The offsets of the new assignment; one that cannot be asked for is 0. *)
Definition loadOffsets (net : string → http (result Z)) (c : Consumer) : Consumer :=
  foldl (λ c partition,
    c <| offsets ::= <[partition := match getOffset net partition c with Ok o => o | Err _ => 0 end]> |>)
    c (assignments c).

(** The body of the reply is its text and what it decodes to. *)
Definition JoinGroup (join : string → http (string * result JoinResponse)) (net : string → http (result Z)) (c : Consumer) :
    result unit * Consumer :=
  match join (nameserverURL c +:+ "/consumer/join?group_id=" +:+ groupID c +:+ "&client_id=" +:+ clientID c +:+
              "&topic=" +:+ topic c) with
  | Broker.HttpErr e => (Err ("join group failed: " +:+ e), c)
  | Broker.HttpReply status (text, body) =>
      if status =? 200 then
        match body with
        | Err e => (Err ("decode join response failed: " +:+ e), c)
        | Ok result => (Ok tt, loadOffsets net (c <| assignments := Sort.Ints (jr_Assignments result) |>))
        end
      else (Err ("join group failed: " +:+ text), c)
  end.

(** [dial]: the error of [net.Dial], [None] when it connects. *)
Definition getConn (route : string → http (result string)) (dial : string → option string) (partition : Z)
    (c : Consumer) : result string * Consumer :=
  match connCache c !! partition with
  | Some conn => (Ok conn, c)
  | None =>
      match getLeader route partition c with
      | Err e => (Err e, c)
      | Ok leader =>
          match dial leader with
          | Some e => (Err e, c)
          | None => (Ok leader, c <| connCache ::= <[partition := leader]> |>)
          end
      end
  end.

Definition resetConn (partition : Z) (c : Consumer) : Consumer := c <| connCache ::= delete partition |>.

(** [fetch]: [exchange conn frame] is what the broker at [conn] answers to
    the request, [Err] when it cannot be written. *)
Definition fetch (route : string → http (result string)) (dial : string → option string)
    (exchange : string → list byte → result (list byte)) (partition offset maxBytes : Z) (c : Consumer) :
    result (list Wire.Message * Z) * Consumer :=
  let '(conn, c) := getConn route dial partition c in
  match conn with
  | Err e => (Err e, c)
  | Ok conn =>
      match exchange conn (Wire.fetchFrame (topic c) partition offset maxBytes) with
      | Err e => (Err e, resetConn partition c)
      | Ok answer =>
          let f := Wire.readFetch answer in
          let c := match Wire.rest f with None => resetConn partition c | Some _ => c end in
          (match Wire.error f with
           | Some e => Err e
           | None => Ok (Wire.messages f, Wire.highWatermark f)
           end, c)
      end
  end.

(** One round of the loop of [consumePartition] and the messages it printed. *)
Definition consumeRound (route : string → http (result string)) (dial : string → option string)
    (exchange : string → list byte → result (list byte)) (partition : Z) (c : Consumer) :
    list Wire.Message * Consumer :=
  let offset := default 0 (offsets c !! partition) in
  let '(res, c) := fetch route dial exchange partition offset (1024 * 1024) c in
  match res with
  | Err _ => ([], c)
  | Ok (messages, _) =>
      (messages, foldl (λ c msg, c <| offsets ::= <[partition := int64 (Wire.Offset msg + 1)]> |>) c messages)
  end.

(** The offset a round commits, when it got messages. *)
Definition latestOffset (partition : Z) (c : Consumer) : Z := default 0 (offsets c !! partition).

Definition Stop (c : Consumer) : Consumer := c <| connCache := ∅ |>.

End Consumer.

(** ** The dead-letter consumer *)
Module DlqConsumer.

Definition dlqTopic (topic : string) : string := topic +:+ "_DLQ".

(** One round of the loop of [main]: the new offset and the alerts. *)
Definition round (exchange : list byte → result (list byte)) (topic : string) (partition offset : Z) :
    list Wire.Message * Z :=
  match exchange (Wire.fetchFrame (dlqTopic topic) partition offset (1024 * 1024)) with
  | Err _ => ([], offset)
  | Ok answer =>
      let f := Wire.readFetch answer in
      match Wire.error f with
      | Some _ => ([], offset)
      | None => (Wire.messages f, foldl (λ _ msg, Int.int64 (Wire.Offset msg + 1)) offset (Wire.messages f))
      end
  end.

End DlqConsumer.

(** ** The producer *)
Module Producer.

Import Int.

(** What [main] counts; [alive] is false when the last connect failed and
    the connection is nil. *)
Record Tally := mkTally { success : Z; failed : Z; redirects : Z; alive : bool }.

#[export] Instance eta_Tally : Eta Tally := λ t, mkTally (success t) (failed t) (redirects t) (alive t).

(** The environment: what sending message [i] returns the first time and
    again after a redirect, and whether connecting succeeds.  The goroutines
    of a batch read their responses from one connection without a deadline:
    a read may get the responses of several requests, and another one then
    waits for ever; such a send returns nothing ([None]). *)
Record Env := mkEnv {
  first : Z → option (result unit); again : Z → option (result unit); connects : string → bool }.

(** The slot of one message in [responses]. *)
Record Response := mkResponse { r_success : bool; r_redirect : bool; leaderAddr : string }.

Definition response (res : result unit) : Response :=
  match res with
  | Ok _ => mkResponse true false ""
  | Err _ =>
      match Wire.isRedirectError res with
      | Some addr => if bool_decide (addr = "") then mkResponse false false "" else mkResponse false true addr
      | None => mkResponse false false ""
      end
  end.

(** The messages [i .. i + n - 1]. *)
Definition indexes (i : Z) (n : nat) : list Z := (λ j, i + Z.of_nat j) <$> seq 0 n.

Definition count_failed (l : list Response) : Z := Z.of_nat (length (filter (λ r, r_success r = false) l)).
Definition count_success (l : list Response) : Z := Z.of_nat (length (filter (λ r, r_success r = true) l)).

(** Sending the messages that were not sent again, one after the other. *)
Fixpoint resend (e : Env) (l : list (Z * Response)) : prog Tally unit :=
  match l with
  | [] => mret tt
  | (k, r) :: l =>
      (if r_success r then modify (λ t, t <| success ::= Z.succ |>)
       else match again e k with
            | None => block
            | Some (Ok _) => modify (λ t, t <| success ::= Z.succ |>)
            | Some (Err _) => modify (λ t, t <| failed ::= Z.succ |>)
            end);;
      resend e l
  end.

(** The body of the loop of [main] on one batch.  A send on a nil connection
    panics; [wg.Wait()] blocks when one of the sends does not return. *)
Definition batchStep (e : Env) (i : Z) (batchSize : nat) : prog Tally unit :=
  t ← get;
  if negb (alive t) && negb (batchSize =? 0)%nat then panic
  else
    match mapM (first e) (indexes i batchSize) with
    | None => block
    | Some results =>
        let responses := response <$> results in
        match list_find (λ r, r_redirect r = true) responses with
        | None => modify (λ t, t <| success ::= Z.add (count_success responses) |>
                                 <| failed ::= Z.add (count_failed responses) |>)
        | Some (_, r) =>
            modify (λ t, t <| redirects ::= Z.succ |>);;
            if connects e (leaderAddr r) then resend e (zip (indexes i batchSize) responses)
            else modify (λ t, t <| failed ::= Z.add (count_failed responses) |> <| alive := false |>)
        end
    end.

(** The loop of [main], on [int]s.  It returns [true] when it ends, and
    [false] when the fuel is spent; making a slice of negative length
    panics. *)
Fixpoint sendLoop (fuel : nat) (e : Env) (i count batch : Z) : prog Tally bool :=
  match fuel with
  | O => mret false
  | S fuel =>
      if i <? count then
        let end_ := if int64 (i + batch) >? count then count else int64 (i + batch) in
        let batchSize := int64 (end_ - i) in
        if batchSize <? 0 then panic
        else
          batchStep e i (Z.to_nat batchSize);;
          sendLoop fuel e (int64 (i + batch)) count batch
      else mret true
  end.

Definition main (fuel : nat) (e : Env) (count batch : Z) : outcome Tally bool :=
  sendLoop fuel e 0 count batch (mkTally 0 0 0 true).

End Producer.
