(* ===== verification/ClientsProps.v ===== *)
(** * The sample clients: correctness

    The producer's counts, and the whole way of a message from the committed
    entry through the broker's files, a fetch, the wire and the consumer's
    loop. *)

From Stdlib Require Import ZArith Lia Strings.Byte.
From stdpp Require Import base tactics list gmap strings fin_maps sorting.
From S2P Require Import Prelude GoLib Raft RaftProps Storage Wire Broker BrokerRaft BrokerProps BrokerLog Clients.

Open Scope Z_scope.

Module ClientsProps.

Import Int.

(** ** The producer *)

Section producer.
Import Producer.
Implicit Types (e : Env) (t : Tally).

Lemma length_indexes i n : length (indexes i n) = n.
Proof. unfold indexes. by rewrite length_fmap, length_seq. Qed.

Lemma count_split l : count_success l + count_failed l = Z.of_nat (length l).
Proof.
  unfold count_success, count_failed. induction l as [|r l IH]; [done|]. rewrite !filter_cons.
  destruct (r_success r) eqn:E; repeat case_decide; simplify_eq; simpl length; lia.
Qed.

(** What a part of the loop does for the messages [ks]: it counts each of
    them and goes on, or it blocks in a send of one of them; it does not
    panic. *)
Definition accounts e (ks : list Z) {A} (m : prog Tally A) (Q : A → Prop) : Prop :=
  ∀ t, alive t = true → wp m
    (λ a t', Q a ∧ alive t' = true ∧
       success t' + failed t' = success t + failed t + Z.of_nat (length ks) ∧
       ∀ k, k ∈ ks → first e k ≠ None)
    (λ _, ∃ k, k ∈ ks ∧ (first e k = None ∨ again e k = None)) (λ _, False) t.

Lemma resend_accounts e ks (rs : list Response) t :
  length ks = length rs → alive t = true →
  wp (resend e (zip ks rs))
    (λ _ t', alive t' = true ∧ success t' + failed t' = success t + failed t + Z.of_nat (length ks))
    (λ _, ∃ k, k ∈ ks ∧ again e k = None) (λ _, False) t.
Proof.
  revert rs t. induction ks as [|k ks IH]; intros [|r rs] t Hlen Ha; simplify_eq/=.
  { apply wp_ret. split; [done|lia]. }
  assert (∀ t1, alive t1 = true → success t1 + failed t1 = success t + failed t + 1 →
    wp (resend e (zip ks rs)) (λ _ t', alive t' = true ∧
      success t' + failed t' = success t + failed t + Z.of_nat (S (length ks)))
    (λ _, ∃ k', k' ∈ k :: ks ∧ again e k' = None) (λ _, False) t1) as Hrest.
  { intros t1 Ha1 Hs1. eapply wp_mono; [by apply IH|..]; [|by intros _ (k' & ? & ?); exists k'; split; [constructor|]|done].
    intros _ t' [? Hs]. split; [done|]. rewrite Hs. lia. }
  cbn [zip zip_with resend]. apply wp_bind. destruct (r_success r); [apply wp_modify, Hrest; simpl; (done || lia)|].
  destruct (again e k) as [[]|] eqn:E; [apply wp_modify, Hrest; simpl; (done || lia)..|].
  exists k. split; [constructor|done].
Qed.

Lemma batchStep_accounts e i n :
  (∀ addr, connects e addr = true) → accounts e (indexes i n) (batchStep e i n) (λ _, True).
Proof.
  intros Hc t Ha. unfold batchStep. apply wp_bind, wp_get. rewrite Ha. cbn [negb andb].
  destruct (mapM (first e) (indexes i n)) as [rs|] eqn:Hrs; last first.
  { apply mapM_None in Hrs. apply Exists_exists in Hrs as (k & Hk & Hn). exists k. auto. }
  apply mapM_Some in Hrs. set (responses := response <$> rs).
  assert (length responses = length (indexes i n)) as Hlen
    by (unfold responses; rewrite length_fmap; symmetry; by eapply Forall2_length).
  assert (∀ k, k ∈ indexes i n → first e k ≠ None) as Hret.
  { intros k [j Hj]%list_elem_of_lookup. destruct (Forall2_lookup_l _ _ _ _ _ Hrs Hj) as (y & _ & Hy). congruence. }
  destruct (list_find _ responses) as [[j r]|].
  - rewrite Hc. apply wp_bind, wp_modify. eapply wp_mono; [by apply resend_accounts| | |done].
    + intros _ t' [? Hs]. split_and!; try done.
    + intros _ (k & ? & ?). eauto.
  - apply wp_modify. split_and!; try done. simpl. pose proof (count_split responses). lia.
Qed.

Lemma elem_of_indexes i n k : k ∈ indexes i n ↔ i ≤ k < i + Z.of_nat n.
Proof.
  unfold indexes. rewrite list_elem_of_fmap. split.
  - intros (j & -> & Hj%elem_of_seq). lia.
  - intros Hk. exists (Z.to_nat (k - i)). rewrite elem_of_seq. lia.
Qed.

(** The batch of a round, when no [int] overflows. *)
Lemma round_size i count batch :
  0 ≤ i < count → 0 < batch → count + batch < 2 ^ 63 →
  int64 (i + batch) = i + batch ∧
  int64 ((if int64 (i + batch) >? count then count else int64 (i + batch)) - i) = Z.min (count - i) batch.
Proof.
  intros Hi Hb Hm. rewrite int64_small by lia. split; [done|]. rewrite Z.gtb_ltb.
  destruct (count <? i + batch) eqn:E; bool_to_prop; rewrite int64_small; lia.
Qed.

Lemma sendLoop_accounts fuel e i count batch :
  (∀ addr, connects e addr = true) → 0 < batch → 0 ≤ i → count + batch < 2 ^ 63 →
  (Z.to_nat (count - i) < fuel)%nat →
  accounts e (indexes i (Z.to_nat (count - i))) (sendLoop fuel e i count batch) (λ ended, ended = true).
Proof.
  intros Hc Hb. revert i. induction fuel as [|fuel IH]; intros i Hi Hm Hf t Ha; [lia|]. cbn [sendLoop].
  rewrite length_indexes. destruct (i <? count) eqn:Hlt; bool_to_prop; last first.
  { apply wp_ret. split_and!; [done|done|lia|]. intros k Hk%elem_of_indexes. lia. }
  destruct (round_size i count batch) as [Hnext Hsize]; [lia..|]. cbv zeta. rewrite Hsize, Hnext.
  rewrite (proj2 (Z.ltb_ge _ _)) by lia. set (n := Z.to_nat (Z.min (count - i) batch)).
  assert (∀ k, k ∈ indexes i n → k ∈ indexes i (Z.to_nat (count - i))) as Hsub
    by (intros k; rewrite !elem_of_indexes; lia).
  assert (∀ k, k ∈ indexes (i + batch) (Z.to_nat (count - (i + batch))) → k ∈ indexes i (Z.to_nat (count - i)))
    as Hsub2 by (intros k; rewrite !elem_of_indexes; lia).
  apply wp_bind. eapply wp_mono; [by apply batchStep_accounts| |naive_solver|done].
  intros _ t1 (_ & Ha1 & Hs1 & Hr1). rewrite length_indexes in Hs1.
  eapply wp_mono; [apply IH; (done || lia)| |naive_solver|done].
  intros b t2 (-> & Ha2 & Hs2 & Hr2). rewrite length_indexes in Hs2. split_and!; [done|done|lia|].
  intros k Hk%elem_of_indexes. destruct (decide (k < i + batch)); [apply Hr1|apply Hr2]; apply elem_of_indexes; lia.
Qed.


(** The producer does not survive a leader that cannot be reached.  When all
    sends of the first batch return, one of them with a redirect, connecting
    to the new leader fails and there are more messages to send, the messages
    that were sent are not counted and the next batch panics on the nil
    connection. *)
Theorem producer_lost_leader e count batch k r addr :
  (∀ addr, connects e addr = false) → (∀ k, first e k ≠ None) →
  0 ≤ k < batch → batch < count → count + batch < 2 ^ 63 →
  first e k = Some r → Wire.isRedirectError r = Some addr → addr ≠ "" →
  (∃ t, batchStep e 0 (Z.to_nat batch) (mkTally 0 0 0 true) = Ret tt t ∧ success t = 0 ∧ alive t = false) ∧
  ∃ t, main (S (Z.to_nat count)) e count batch = Panic t ∧ success t = 0.
Proof.
  intros Hc Hr Hk Hb Hm Hfirst Hred Hne.
  assert (∃ t, batchStep e 0 (Z.to_nat batch) (mkTally 0 0 0 true) = Ret tt t ∧ success t = 0 ∧ alive t = false)
    as (t & Ht & Hs & Ha).
  { unfold batchStep, get, mbind, prog_bind. cbn [alive negb andb].
    destruct (mapM (first e) (indexes 0 (Z.to_nat batch))) as [rs|] eqn:Hrs; last first.
    { apply mapM_None, Exists_exists in Hrs as (k' & _ & ?). by destruct (Hr k'). }
    apply mapM_Some in Hrs. assert (k ∈ indexes 0 (Z.to_nat batch)) as [j Hj]%list_elem_of_lookup
      by (apply elem_of_indexes; lia).
    destruct (Forall2_lookup_l _ _ _ _ _ Hrs Hj) as (y & Hy & Hy').
    assert (response y ∈ response <$> rs) as Hin
      by (apply list_elem_of_fmap; exists y; split; [done|by eapply list_elem_of_lookup_2]).
    assert (r_redirect (response y) = true) as Hry.
    { rewrite Hfirst in Hy'. simplify_eq. unfold response. destruct y; [done|]. rewrite Hred.
      by rewrite bool_decide_false. }
    destruct (list_find_elem_of (λ r, r_redirect r = true) _ _ Hin Hry) as [[j' r'] ->].
    cbn [modify]. rewrite Hc. eexists. by split_and!. }
  split; [eauto|]. unfold main.
  destruct (Z.to_nat count) as [|n] eqn:En; [lia|]. cbn [sendLoop].
  destruct (round_size 0 count batch) as [H1 H2]; [lia..|].
  destruct (round_size batch count batch) as [_ H3]; [lia..|].
  rewrite (proj2 (Z.ltb_lt 0 count)) by lia. cbv zeta. rewrite H2, H1, Z.add_0_l.
  rewrite (proj2 (Z.ltb_ge _ 0)), Z.sub_0_r, Z.min_r by lia. unfold mbind, prog_bind. rewrite Ht.
  rewrite (proj2 (Z.ltb_lt batch count)), H3 by lia. rewrite (proj2 (Z.ltb_ge _ 0)) by lia.
  unfold batchStep, get, mbind, prog_bind. rewrite Ha. cbn [negb andb].
  destruct (Z.to_nat (Z.min (count - batch) batch)) eqn:E; [lia|]. eexists. by split.
Qed.

Definition demo_env (up : bool) : Env :=
  mkEnv (λ k, Some (if k =? 1 then Err "redirect:b:9092" else Ok tt)) (λ _, Some (Ok tt)) (λ _, up).

(** The response of message 3 is read together with the one of message 2. *)
Definition demo_coalesced : Env :=
  mkEnv (λ k, if k =? 3 then None else Some (Ok tt)) (λ _, Some (Ok tt)) (λ _, true).


Lemma producer_lost_leader_witness :
  ∃ t, main 6 (demo_env false) 5 2 = Panic t ∧ success t = 0.
Proof.
  refine (proj2 (producer_lost_leader (demo_env false) 5 2 1 (Err "redirect:b:9092") "b:9092" (λ _, eq_refl)
    (λ _, _) _ _ _ _ _ _));
    (lia || reflexivity || discriminate).
Defined.
End producer.

(** ** The consumer *)

Section consumer.
Import Consumer BrokerLog.
Context {R : Type} `{repl : !Broker.Replication R}.
Notation broker := (Broker.Broker R).
Implicit Types (b : broker) (c : Consumer).

(** The broker at the other end of the consumer's connection. *)
Definition serve b (se : Broker.serveEnv R) (conn : string) (frame : list byte) : result (list byte) :=
  match Broker.handleClient [se] frame b with Ret answer _ => Ok answer | _ => Err "EOF" end.

Lemma serve_fetch b se conn t p o m msgs hw :
  Wire.frame_ok (Wire.Fetch t p o m) → in_sint 64 o → in_sint 32 m →
  Broker.Fetch (Broker.se_order se) t p o m b = Some (Ok (msgs, hw)) →
  serve b se conn (Wire.fetchFrame t p o m) = Ok (Wire.fetchResponse hw (Broker.wireMessage <$> msgs) ++ []).
Proof.
  intros Hok Ho Hm Hf. unfold serve. cbn [Broker.handleClient].
  rewrite <- (app_nil_r (Wire.fetchFrame t p o m)).
  change (Wire.fetchFrame t p o m) with (Wire.frame_bytes (Wire.Fetch t p o m)).
  rewrite (Wire.readRequest_bytes (Wire.Fetch t p o m) [] Hok). cbn [Wire.frame_request].
  unfold mbind, prog_bind, Broker.dispatch. cbn [Wire.topic Wire.partition Wire.data Wire.cmdID].
  rewrite bool_decide_false, bool_decide_true by done. unfold Broker.handleTCPFetch, mbind, prog_bind, get, modify.
  set (ob := Bytes.be 8 (uint64 o)). set (mb := Bytes.be 4 (uint32 m)).
  assert (length (ob ++ mb) = 12%nat) as Hlen by (by rewrite length_app).
  rewrite Hlen. cbn [Nat.ltb Nat.leb].
  rewrite take_app_exact by done. unfold ob at 1. rewrite Wire.int64_be by done.
  assert (Wire.sub 8 12 (ob ++ mb) = mb) as ->.
  { rewrite <- (app_nil_r mb) at 1. by apply Wire.sub_app. }
  unfold mb at 1. rewrite (Wire.signed_be 4 32) by done. rewrite Hf. done.
Qed.

Lemma advance c partition msgs :
  let c' := foldl (λ c msg, c <| offsets ::= <[partition := int64 (Wire.Offset msg + 1)]> |>) c msgs in
  topic c' = topic c ∧ connCache c' = connCache c ∧
  offsets c' !! partition = match last msgs with
    | Some m => Some (int64 (Wire.Offset m + 1))
    | None => offsets c !! partition
    end.
Proof.
  induction msgs as [|m msgs IH] using rev_ind; [done|]. rewrite foldl_snoc, last_snoc. destruct IH as (? & ? & _).
  split_and!; [done|done|]. apply lookup_insert_eq.
Qed.

(** What a round needs: a connection, an offset, and values that fit the
    frame. *)
Definition ready (t : string) (partition offset : Z) c : Prop :=
  topic c = t ∧ is_Some (connCache c !! partition) ∧ default 0 (offsets c !! partition) = offset ∧
  in_sint 64 offset ∧ in_sint 32 partition ∧ Z.of_nat (length (Bytes.of_string t)) < 2 ^ 16.

Lemma consumeRound_log b logs tp se route dial t partition offset c :
  represents b logs → let log := logs (Broker.partitionKey t partition) in
  end_of log ≤ Storage.MiB → (∀ d ts, (d, ts) ∈ log → in_sint 64 ts) →
  Broker.topics b !! Broker.partitionKey t partition = Some tp → ascending (Broker.se_order se) tp →
  ready t partition offset c →
  ∃ c', consumeRound route dial (serve b se) partition c =
      (Broker.wireMessage <$> readAfter t partition offset log, c') ∧
    ready t partition (match last (readAfter t partition offset log) with
      | Some m => Broker.Offset m + 1 | None => offset end) c'.
Proof.
  intros Hrep log Hmax Hts Hk Hasc (Ht & [conn Hconn] & Hoff & Ho & Hp & Htl).
  pose proof (Fetch_ascending b logs t partition offset tp _ Hrep Hmax Hk Hasc) as Hf. fold log in Hf.
  set (msgs := readAfter t partition offset log) in *. set (hw := match last msgs with Some m => _ | None => 0 end) in Hf.
  assert (∀ m, m ∈ msgs → 0 ≤ Broker.Offset m < 2 ^ 20 ∧ Z.of_nat (length (Broker.Value m)) < 2 ^ 32 ∧
    in_sint 64 (Broker.Timestamp m)) as Hm.
  { intros m (o & d & ts & -> & _ & Hin)%elem_of_readAfter. pose proof (elem_of_place_in _ _ _ _ Hin) as Hlog.
    apply elem_of_place in Hin. unfold Storage.MiB, size_of, Storage.headerSize in *. simpl in *.
    split; [lia|]. split; [lia|]. by eapply Hts. }
  assert (∀ m, last msgs = Some m → in_sint 64 (Broker.Offset m + 1)) as Hlast.
  { intros m Hl. apply last_Some_elem_of in Hl. destruct (Hm _ Hl). unfold in_sint. lia. }
  assert (in_sint 64 hw) as Hhw.
  { unfold hw. destruct (last msgs) eqn:E; [by apply Hlast|unfold in_sint; lia]. }
  assert (Forall Wire.message_ok (Broker.wireMessage <$> msgs)) as Hok.
  { apply Forall_fmap, Forall_forall. intros m (Ho' & ? & ?)%Hm. unfold compose, Wire.message_ok, Broker.wireMessage. cbn [Wire.Offset
      Wire.Timestamp Wire.Value]. split; [|by split]. unfold in_sint. lia. }
  pose proof (length_readAfter t partition offset log) as Hn. fold msgs in Hn. unfold Storage.MiB in Hmax.
  unfold consumeRound, fetch, getConn. rewrite Hconn, Hoff, Ht.
  rewrite (serve_fetch _ _ _ _ _ _ _ msgs hw); [|done|done|unfold in_sint; lia|done].
  rewrite Wire.readFetch_response; [|done|done|rewrite length_fmap; lia]. cbn [Wire.rest Wire.error Wire.messages].
  eexists. split; [done|]. destruct (advance c partition (Broker.wireMessage <$> msgs)) as (Ht' & Hc' & Ho').
  unfold ready. rewrite Ht', Hc', Ho', fmap_last. split_and!; [done|by eexists| | |done|done].
  - destruct (last msgs) as [m|] eqn:E; simpl; [|done]. apply int64_small, (Hlast _ eq_refl).
  - destruct (last msgs) as [m|] eqn:E; [|done]. by apply Hlast.
Qed.

(** C3: From the committed entry to the consumer.  Committed entries were
    applied to a fresh broker, where the file operations succeed and no
    partition's log grows beyond its first mebibyte; the consumer has an open
    connection to this broker, and its offset, partition and topic fit the
    fields of the frame.  When the index is traversed in ascending order, one round of the consumer delivers exactly the
    messages of its partition behind its offset, in order, each once, with
    the payloads and times that were applied, through the broker's files and
    the wire; the next round delivers nothing again.  A consumer that starts
    at offset 0, as a new group does, never gets the first message. *)
Theorem consumer_delivers batch b t partition offset se tp route dial c :
  fresh b → within batch →
  let b' := Broker.applyBatch batch b in
  let log := logOf batch (Broker.partitionKey t partition) in
  Broker.topics b' !! Broker.partitionKey t partition = Some tp → ascending (Broker.se_order se) tp →
  ready t partition offset c →
  ∃ c', consumeRound route dial (serve b' se) partition c =
      (Broker.wireMessage <$> readAfter t partition offset log, c') ∧
    (consumeRound route dial (serve b' se) partition c').1 = [] ∧
    (offset = 0 → readAfter t partition offset log = tail (readAfter t partition (-1) log)).
Proof.
  intros Hf Hw b' log Hk Hasc Hc. destruct (applied batch b Hf Hw) as [Hrep _]. fold b' in Hrep.
  assert (∀ d ts, (d, ts) ∈ log → in_sint 64 ts) as Hts.
  { intros d ts ([e entry] & [= -> ->] & _)%list_elem_of_fmap. by apply sint_range. }
  destruct (consumeRound_log b' _ tp se route dial t partition offset c Hrep (proj2 Hw _) Hts Hk Hasc Hc)
    as (c1 & H1 & Hc1). fold log in H1, Hc1.
  destruct (consumeRound_log b' _ tp se route dial t partition _ c1 Hrep (proj2 Hw _) Hts Hk Hasc Hc1)
    as (c2 & H2 & _). fold log in H2.
  exists c1. split; [done|]. split; [|intros ->; apply readAfter_0]. rewrite H2. cbn [fst].
  destruct (last (readAfter t partition offset log)) as [m|] eqn:E; [by rewrite (readAfter_last _ _ _ _ _ E)|].
  by apply last_None in E as ->.
Qed.
End consumer.

(** ** Witnesses *)

Import BrokerRaft.

Definition demo_ascending : list (Z * Storage.IndexEntry) :=
  BrokerLog.indexEntry <$> BrokerLog.place 0 (BrokerLog.logOf BrokerLog.demo_batch "t-0").

Lemma demo_ascending_ok : BrokerLog.ascending demo_ascending BrokerLog.demo_partition.
Proof.
  assert (Storage.entries (Broker.index BrokerLog.demo_partition) = list_to_map demo_ascending) as E
    by (vm_compute; reflexivity).
  split; [|unfold demo_ascending; rewrite BrokerLog.indexEntry_fst; apply BrokerLog.place_sorted].
  rewrite E, map_to_list_to_map; [done|]. unfold demo_ascending. rewrite BrokerLog.indexEntry_fst. apply BrokerLog.NoDup_place.
Qed.

Definition demo_serve_order (order : list (Z * Storage.IndexEntry)) : Broker.serveEnv Raft.World :=
  Broker.mkServeEnv demo_net demo_net id "1.2.3.4:5" order 0 (λ _, None) (λ _, None) (λ _, Broker.HttpErr "").

(** A consumer of a new group. *)
Definition demo_consumer : Consumer.Consumer :=
  Consumer.mkConsumer "http://ns" "g" "c1" "t" [0] {[ 0 := 0 ]} {[ 0 := "c" ]}.

Definition demo_round (order : list (Z * Storage.IndexEntry)) (c : Consumer.Consumer) :
    list Wire.Message * Consumer.Consumer :=
  Consumer.consumeRound (λ _, Broker.HttpErr "") (λ _, None)
    (serve BrokerLog.demo_applied_batch (demo_serve_order order)) 0 c.

Lemma demo_ready : ready "t" 0 0 demo_consumer.
Proof. split_and!; try done; try (by eexists); unfold in_sint; try lia. Qed.

Lemma consumer_delivers_witness :
  ∃ c', demo_round demo_ascending demo_consumer = (Broker.wireMessage <$> BrokerLog.demo_behind 0, c') ∧
    (demo_round demo_ascending c').1 = [].
Proof.
  destruct (consumer_delivers BrokerLog.demo_batch BrokerLog.demo_fresh "t" 0 0 (demo_serve_order demo_ascending)
    BrokerLog.demo_partition (λ _, Broker.HttpErr "") (λ _, None) demo_consumer BrokerLog.demo_fresh_ok
    BrokerLog.demo_batch_within BrokerLog.demo_partition_found demo_ascending_ok demo_ready) as (c' & H1 & H2 & _).
  exists c'. split; [exact H1|exact H2].
Defined.

(** The broker walks a Go map, whose order is not fixed.  When it meets the
    greater offset first, the consumer ends at the smaller one and gets the
    greater message again. *)
Lemma unordered_index_redelivers :
  let '(msgs1, c1) := demo_round (reverse demo_ascending) demo_consumer in
  let '(msgs2, _) := demo_round (reverse demo_ascending) c1 in
  Wire.Offset <$> msgs1 = [43; 21] ∧ Wire.Offset <$> msgs2 = [43].
Proof. vm_compute. done. Qed.
End ClientsProps.
